(* ===== verification/_CoqProject ===== *)
-Q . S2P
Prelude.v
GoTime.v
Text.v
Bytes.v
Event.v
Filter.v
Storage.v
Message.v
Metrics.v
Registry.v
Merge.v
MergeReq.v
MergeHandler.v
MergeServe.v
MergeServeSpec.v
MergeSafe.v
RateLimit.v
Middleware.v
Bases.v
Session.v
Interface.v
Router.v
Drain.v
Handlers.v
LiveRace.v
SimpleHandler.v
StorageSpec.v
MetricsStorage.v
StorageHandler.v
Composite.v
BleveMapping.v
PebbleKeys.v
Heap.v
PebbleCursor.v
PebbleJoin.v
PebbleStore.v
PebbleRows.v
PebbleInv.v
PebbleQuery.v
PebbleFaults.v
PebbleReliable.v
PebbleIndex.v
PebbleFuel.v
PebbleQuerySpec.v
PebbleSim.v
Json.v
JsonStrings.v
JsonRoundtrip.v
JsonTyping.v
EventJson.v
EventParse.v
FilterJson.v
MessageJson.v
CodecSpec.v
NoPanic.v
RelayLoops.v
RelayInfo.v
Relay.v
EndToEnd.v
RelayStack.v
RelayStackSpec.v
RelayStackSafe.v
RelayStackAck.v
RelayStackLive.v
Examples.v
PebbleMem.v
PebbleSpec.v
PebbleResources.v
PebbleInterface.v
KitchenSink.v
