(* ===== verification/Prelude.v ===== *)
(** * mocrelay: a verification development

    mocrelay is a library for building Nostr relays in Go (package mocrelay).  The
    [Relay] serves websocket connections: its read loop turns frames into client
    messages (EVENT, REQ, CLOSE, COUNT, AUTH), a [Handler] answers them with server
    messages (EVENT, OK, EOSE, CLOSED, COUNT, NOTICE, AUTH), and its write loop turns
    those into frames.  Handlers are composed: middlewares wrap a handler and filter
    or answer messages in both directions; the merge handler fans a client's
    messages out to several children (typically a storage handler for stored events
    and a router handler for live ones) and merges what they answer into the single
    OK, EOSE or COUNT the protocol allows.  Events are kept in a [Storage]: in
    memory, in a Pebble database, beside a search index, or behind a decorator that
    measures.

    ** The files, and the code they model

    The data and the routines every part uses:
    - Prelude.v: results of fallible code, machine integers, Go strings, map
      iteration, sums over maps, shared lemmas.
    - GoTime.v: [time.Time] as the code uses it ([Unix], [After], [Add]), with the
      wrap-around of its representation.
    - Text.v: byte-string routines of filter.go, router.go, storage.go and pow.go.
      Bytes.v: byte slices and SHA-256.
    - Event.v (event.go, kind_label.go) and Filter.v (filter.go): the data, their
      validity, event types, addresses, and filter matching.
    - Message.v (message.go): message unions and constructors.
    - Metrics.v (metrics.go): counters, the metrics of the relay and the storage.
      Registry.v (metrics.go): the collectors of every component and what registering
      them with one registry does.

    What crosses the wire:
    - Json.v: the strict JSON reader and the printers of the standard library, on an
      abstract syntax; JsonStrings.v, JsonRoundtrip.v and JsonTyping.v: its laws.
    - EventJson.v (event.go: the JSON forms, [Serialize], [Verify]) and EventParse.v
      (which documents are events); FilterJson.v (filter.go); MessageJson.v
      (message.go: [ParseClientMsg], [ServerMsg.MarshalJSON]).  CodecSpec.v: what they
      promise together.  NoPanic.v: the parsers do not panic.

    Storages:
    - Storage.v (storage.go): the in-memory storage.  [Store] is [Store], with
      [processKind5] for deletion requests; [Query] is [Query].  StorageSpec.v: the
      [Storage] interface as a class of operations and one of laws.
    - MetricsStorage.v (metrics_storage.go): the measuring decorator, an instance of
      both classes over any instance.
    - Composite.v (composite_storage.go, bleve_index.go): full-text search beside a
      primary storage.  BleveMapping.v (bleve_index.go): the mapping of the index.
    - pebble_storage.go: PebbleKeys.v (key layout, hashes, record encodings), Heap.v
      (container/heap), PebbleCursor.v and PebbleJoin.v (the cursor tree: index scans,
      unions, intersections), PebbleStore.v ([Store], [processKind5],
      [deleteEventFromBatch]), PebbleQuery.v ([Query], [buildFilterCursor]).  The
      database is a class of operations with laws ([PebbleDB], [PebbleLaws]);
      PebbleRows.v and PebbleInv.v: the rows it holds and their invariant; PebbleIndex.v
      and PebbleQuerySpec.v: what the cursors and a query yield, within the fuel of
      PebbleFuel.v; PebbleFaults.v and PebbleReliable.v: what failing calls of the
      database do, and that nothing fails where none does; PebbleSim.v: the simulation
      of the in-memory storage; PebbleMem.v: a sorted map as a database and the JSON
      codec as instances; PebbleSpec.v: what the storage promises; PebbleResources.v:
      the three functions a query returns, with what they open and close;
      PebbleInterface.v: all of it as an instance of the [Storage] interface.

    Handlers:
    - Merge.v, MergeReq.v ([mergeSession] of merge_handler.go): the tables of
      pending answers.  MergeHandler.v ([mergeHandler.ServeNostr], [broadcastAll],
      [sendAll]): the loop around the session, turn by turn.  MergeServe.v
      ([NewMergeHandler], [ServeNostr]): the loop with the goroutines, the channels and
      the contexts of its children, cut at every channel operation; MergeServeSpec.v:
      what it promises; MergeSafe.v: it passes on only what is fit to be sent.
    - RateLimit.v (rate_limit.go): token buckets and read stalls.
    - Middleware.v (middleware.go): what a base is, the pipeline loop, starting and
      ending.  Bases.v and Session.v (middleware_*.go): the bases themselves.
      Interface.v: the contract they all meet, as a class with an instance each.
    - Router.v (router.go): connections, subscriptions and broadcast.  Handlers.v
      (nop_handler.go, router_handler.go): the plain handlers, and many router
      handlers on one router, cut where they take its lock or send.  LiveRace.v: a
      router handler beside a storage handler under one merge session.
    - Drain.v: the receive queue shared by handler.go and storage_handler.go.
      SimpleHandler.v (handler.go) and StorageHandler.v (storage_handler.go): the
      handlers behind it.

    The relay:
    - RelayLoops.v (relay.go, [readLoop], [writeLoop], [sendNotice]): a turn of a loop
      is a function of what the websocket, the clock and the context show it.
    - RelayInfo.v (relay_info.go): the NIP-11 document.
    - Relay.v (relay.go): the options, the HTTP answers, [ServeHTTP] cut into the
      phases of a connection, the registry, the wait group and [Shutdown].
    - EndToEnd.v: read loops, storage handlers on one storage, and write loops
      together.
    - RelayStack.v (merge_handler.go, storage_handler.go, router_handler.go, router.go):
      the merge, storage and router handlers of all connections on one storage and one
      router, goroutine by goroutine: the machines of MergeServe.v, Drain.v and
      Handlers.v joined at their channels, the storage and the router's lock.
      RelayStackSpec.v: the whole is its parts' machines side by side; RelayStackSafe.v:
      what clients are sent; RelayStackAck.v: what an OK means; RelayStackLive.v: where
      the handlers can be blocked, the lock of the storage included.
    - Examples.v (cmd/examples): the pipelines, options, documents and routes of the
      example relays.  KitchenSink.v (cmd/examples): the storages they stack.

    ** Conventions

    A struct is a record, a mutable object a record passed and returned.  A method
    that holds its object's lock for its whole body is a function on the state;
    goroutines and [select] become step functions whose events are what the
    scheduler, the peers, the clock and the context can do, and theorems hold for
    every sequence of events.  A loop over a Go map takes the iteration order as an
    argument ([MapOrder]).  An [int64] is a [Z] with [wrap_int64] where an operation
    can overflow; a float64 is the binary64 format of the Standard Library; a string
    is a [string] of bytes; a nil slice differs from an empty one where the code
    tells them apart ([option (list A)]).  Errors and panics are values of [Res].
    Code outside the repository is a class with laws ([Schnorr], [PebbleDB], the
    index of Composite.v) or an input of the steps (websocket, clock).  What a value of
    the database holds once it has been closed is the database's ([db_Closed]).  The laws of the
    [Storage] interface say which events a storage [accepts] and which filters it
    [answers] in full: the in-memory storage all of them, Pebble those its rows can
    hold, the composite those without a search.
    In the composed relay (RelayStack.v) a step is a step of one goroutine.  A broadcast
    takes the read lock and tries the subscriptions it matches one per step: it sends if
    the real channel has room then, and drops the message if not; its drops are counted
    when it gives the lock back.  A message a storage handler takes from its queue is
    handled in one step, on the storage as it is then, and what it answers is sent step
    by step.  The in-memory storage holds its read lock until the last event of a REQ is
    sent; since stores in the meantime are allowed, the machine has every interleaving
    of the code, and which steps the lock would hold up is defined beside it
    ([waits_for_lock]).  In KitchenSink.v, where the Pebble storage takes no lock for a
    query, queries can fall between the two commits of a deletion request.  A child's receive channel is never closed, as in the
    code, so its end is not among the steps.

    ** What the theorems show

    - The merged answer of an EVENT, a COUNT and a REQ is sent exactly once and at
      the right moment (Merge.v, MergeReq.v), its stored events are in order, without
      duplicates and within the limit.  Whatever the steps of the children, the loop
      and the client are, and in whatever order, the handler does what the session
      says, hands every child every control message and hears all it says, cancels
      the context of a child it retires, and returns once its context is done and its
      children have; it stops answering once a child is lost, and a closed client
      channel alone does not end it (MergeServeSpec.v).
    - The in-memory storage keeps its invariant, does on each event what the
      protocol's replacement and deletion rules ask, forgets the order of arrival, and
      answers queries soundly, completely and in order (Storage.v); where deletion
      records fail to protect is stated too.
    - The Pebble storage, for events it can hold, keeps its rows consistent whatever
      fails, and a failed store leaves what was there or, for a deletion request, what
      its deletions leave; its queries end and yield the answer in order, and on vetted
      events it is interchangeable with the in-memory storage.  All that for deletion
      requests by address needs closed values to stay as they were, which Pebble does
      not promise: the wrong event can be deleted.  An event with an empty tag, which
      the relay lets through, is stored in a form that cannot be read back (PebbleSpec.v).  What a query opens is closed, however its
      consumer behaves and whatever fails; but an error of an iterator, which the laws
      of an iterator rule out elsewhere, is never reported, and the answer taken for
      complete (PebbleResources.v).  Measuring a storage changes nothing
      (MetricsStorage.v).
    - Filters, messages and parsed events survive being written and read, but for
      events with an empty tag in the form in which they are stored; whatever is parsed
      has the shape the handlers rely on, and an id commits to its event unless
      SHA-256 collides (CodecSpec.v).
    - The read loop hands the handler exactly the admitted messages, every EVENT
      verified, ends only with its context, its connection or a stall that does not end,
      and never panics; the write loop sends what it is given, in order,
      as JSON that reads back (RelayLoops.v).  The relay's books are right in every
      interleaving; a shutdown drains, waiting for as long as a connection is left or
      its own context lasts, and it reaches every registered connection but not one that
      is about to register (Relay.v).
    - A pipeline of middlewares equals processing messages one by one, starts and
      ends its bases in balance (Middleware.v), and forwards or answers each message
      once when its bases keep the contract (Interface.v); authentication, protected
      events, the bounds on subscriptions and rates hold for whole connections
      (Session.v, RateLimit.v).
    - The router is a table of open subscriptions; each event reaches each matching
      one once (Router.v, Handlers.v); but one that arrives while a subscription is
      being set up can be lost to it (LiveRace.v).
    - A blocked handler keeps draining its client, in order and without loss
      (Drain.v, SimpleHandler.v); a REQ ends in exactly one EOSE or CLOSED after a
      prefix of a correct answer, or in an error when the connection ends first
      (StorageHandler.v).
    - The handlers of any number of connections, together, make runs of their own
      machines in every interleaving, with nothing lost between them, and nobody sends
      on a closed channel (RelayStackSpec.v).  From the socket to the storage and back:
      a storage that begins with authentic events only holds authentic events only, and
      clients are sent, stored or live, authentic events only, in messages that read
      back (EndToEnd.v for the storage handlers alone, RelayStackSafe.v for the whole).
      A client that is sent an accepting OK has sent that event, and [Store] has had it
      without an error (RelayStackAck.v).  Whenever no goroutine can go on, every
      connection is finished or waits for its own client with nothing left undone, or its
      storage handler waits for the lock of the storage, which another connection holds
      whose client does not read: full channels and broadcasts hold nobody up, but a
      stalled client of the in-memory storage does (RelayStackLive.v).
    - A client cannot tell the kitchen-sink relay's storages, with Pebble, the search
      index and the metrics, from the minimal relay's in-memory storage, as long as it
      does not search, the database does not fail and the events are vetted, unless a
      query falls into the middle of a deletion request; such a query sees the deletions
      without the request (KitchenSink.v).
    - The example relays hold an EVENT and a REQ to the limits they advertise, but let
      negative limits through, and the kitchen-sink relay any COUNT (Examples.v); components sharing a registry panic exactly when two are of a kind
      (Registry.v).
    - A search never shows what the primary does not hold, and hides other filters
      (Composite.v).

    ** Bounds and fuel

    - The 20 byte buffer of the decimal printers (Text.v): an exhausted buffer is the
      index panic of the code, and the printers are proved never to reach it.
    - The JSON reader has twice the length of the text plus one as fuel, the loop over
      the filters of a REQ the length of the text; both are proved enough
      ([reader_terminates], [read_filters_enough]).
    - The sifting loops of a heap have its length as fuel (Heap.v, proved enough).
    - A Pebble query takes fuel for its loop and the joins of its cursors: [query_fuel],
      computed from the number of rows and the number of values the filters ask for,
      is enough, and any more gives the same (PebbleFuel.v, PebbleQuerySpec.v).
    - SHA-256 has the number of words as fuel for its blocks, each of which takes
      sixteen.
    - The relay's books hold for runs of fewer than 2^64 steps, within which its
      connection ids do not wrap around; likewise the router's, and those of the
      composed relay.
    - The steps a merge handler has left once its context is done are bounded by a
      measure on its children and its place in the loop, and the results still to
      send.
    Everything else recurs on its data or on the sequence of events.

    ** Not modelled

    The nesting limit of the JSON reader (10000; it changes only the text of an
    error), the schnorr signature scheme, the websocket and HTTP libraries and the
    Pebble and bleve databases beyond the operations used, the help texts and buckets
    of metrics, the read limit set on a connection, and logging beyond what a log
    entry says.  Metrics that the code's own decisions move are part of the state.
    doc.go is documentation; of cmd/examples, what opening the databases, the logger
    and the listener do is the libraries'.  A log line alone is not a step.  That a
    client with a healthy connection gets its answer in bounded time is not stated: it
    depends on the scheduler and on how fast the peers and the storage are. *)

From Stdlib Require Export ZArith Lia Ascii.
From stdpp Require Export sorting pretty strings gmap prelude list.

#[global] Open Scope list_scope.
#[global] Open Scope Z_scope.

(** The hint database of the lemmas that automate the common cases. *)
Create HintDb mocrelay.

(** ** Results of fallible code

    A Go function with an [error] result either returns normally or returns an
    error; a nil dereference or an explicit [panic] is a third outcome. *)

Inductive Res (A : Type) : Type :=
| Ok (a : A)
| Err (e : string)
| Panic (why : string).
Arguments Ok {A} a.
Arguments Err {A} e.
Arguments Panic {A} why.

#[export] Instance Res_ret : MRet Res := fun A a => Ok a.
#[export] Instance Res_bind : MBind Res := fun A B f m =>
  match m with
  | Ok a => f a
  | Err e => Err e
  | Panic w => Panic w
  end.

Definition is_ok {A} (r : Res A) : bool :=
  match r with Ok _ => true | _ => false end.

(** A chain of binds that succeeds, taken apart. *)
Lemma bind_Ok {A B} (m : Res A) (f : A -> Res B) b : (m ≫= f) = Ok b <-> exists a, m = Ok a /\ f a = Ok b.
Proof. destruct m; naive_solver. Qed.

Lemma bind_Some_iff {A B} (m : option A) (f : A -> option B) b : (m ≫= f) = Some b <-> exists a, m = Some a /\ f a = Some b.
Proof. destruct m; naive_solver. Qed.

(** A chain of early returns of [false] succeeds when every guard is off. *)
Lemma guard_true (b c : bool) : (if b then false else c) = true <-> b = false /\ c = true.
Proof. destruct b; naive_solver. Qed.

(** ** Machine integers *)

Definition two63 : Z := 2 ^ 63.
Definition two64 : Z := 2 ^ 64.
Definition MaxInt64 : Z := two63 - 1.
Definition MinInt64 : Z := - two63.

(** Two's complement wrap-around of an [int64] result, and of a [uint64] one. *)
Definition wrap_int64 (z : Z) : Z := (z + two63) mod two64 - two63.
Definition wrap_uint64 (z : Z) : Z := z mod two64.

Definition int64 (z : Z) : Prop := MinInt64 <= z <= MaxInt64.
Definition uint64 (z : Z) : Prop := 0 <= z < two64.

#[export] Instance int64_dec z : Decision (int64 z).
Proof. unfold int64. apply _. Defined.
#[export] Instance uint64_dec z : Decision (uint64 z).
Proof. unfold uint64. apply _. Defined.

(** [lia] with the machine constants unfolded. *)
Ltac int_lia :=
  unfold int64, uint64, wrap_int64, wrap_uint64, MaxInt64, MinInt64, two63, two64 in *;
  change (2 ^ 63) with 9223372036854775808 in *;
  change (2 ^ 64) with 18446744073709551616 in *;
  Z.to_euclidean_division_equations; lia.

#[export] Hint Unfold int64 uint64 : mocrelay.

Lemma wrap_int64_id z : int64 z -> wrap_int64 z = z.
Proof. intros. int_lia. Qed.

Lemma wrap_int64_range z : int64 (wrap_int64 z).
Proof. int_lia. Qed.

Lemma wrap_uint64_id z : uint64 z -> wrap_uint64 z = z.
Proof. intros. int_lia. Qed.

Lemma wrap_uint64_range z : uint64 (wrap_uint64 z).
Proof. int_lia. Qed.

(** ** Strings

    A Go string is a sequence of bytes, as a [string] is; [len] is [length] and
    the comparison operators are bytewise lexicographic. *)

Definition chars (s : string) : list ascii := String.list_ascii_of_string s.

Definition str_ltb (a b : string) : bool := String.ltb a b.
Definition str_lt (a b : string) : Prop := str_ltb a b = true.

Lemma ascii_compare_refl c : Ascii.compare c c = Eq.
Proof. unfold Ascii.compare. apply N.compare_refl. Qed.

Lemma str_ltb_cons c a d b :
  str_ltb (String c a) (String d b) =
  match Ascii.compare c d with Lt => true | Eq => str_ltb a b | Gt => false end.
Proof. unfold str_ltb, String.ltb. simpl. by destruct (Ascii.compare c d). Qed.

Lemma ascii_compare_lt_trans a b c :
  Ascii.compare a b = Lt -> Ascii.compare b c = Lt -> Ascii.compare a c = Lt.
Proof. unfold Ascii.compare. rewrite !N.compare_lt_iff. lia. Qed.

Lemma str_lt_irrefl a : ~ str_lt a a.
Proof.
  unfold str_lt. induction a as [|c a IH]; [done|].
  by rewrite str_ltb_cons, ascii_compare_refl.
Qed.

Lemma str_lt_trans a b c : str_lt a b -> str_lt b c -> str_lt a c.
Proof.
  unfold str_lt. revert b c.
  induction a as [|x a IH]; intros [|y b] [|z c]; try done.
  rewrite !str_ltb_cons.
  destruct (Ascii.compare x y) eqn:E1, (Ascii.compare y z) eqn:E2; try done;
    rewrite ?(Ascii.compare_eq_iff _ _ E1) in *; rewrite ?(Ascii.compare_eq_iff _ _ E2) in *;
    rewrite ?E1, ?E2, ?ascii_compare_refl; try done.
  - eauto.
  - by rewrite (ascii_compare_lt_trans _ _ _ E1 E2).
Qed.

Lemma str_lt_total a b : str_lt a b \/ a = b \/ str_lt b a.
Proof.
  unfold str_lt, str_ltb, String.ltb. rewrite (String.compare_antisym b a).
  destruct (String.compare a b) eqn:E; simpl; auto.
  right; left. by apply String.compare_eq_iff.
Qed.

#[export] Instance str_lt_dec a b : Decision (str_lt a b).
Proof. unfold str_lt. apply _. Defined.

(** ** Concatenation *)

Lemma str_app_cons (x : ascii) (a b : string) : String x a +:+ b = String x (a +:+ b).
Proof. reflexivity. Qed.

Lemma str_app_nil_l (a : string) : "" +:+ a = a.
Proof. reflexivity. Qed.

Lemma str_app_assoc (a b c : string) : a +:+ (b +:+ c) = (a +:+ b) +:+ c.
Proof. induction a as [|x a IH]; [done|]. by rewrite !str_app_cons, IH. Qed.

Lemma str_app_nil_r (a : string) : a +:+ "" = a.
Proof. induction a as [|x a IH]; [done|]. by rewrite str_app_cons, IH. Qed.

Lemma str_app_inj_l (a b c : string) : a +:+ b = a +:+ c -> b = c.
Proof. induction a as [|x a IH]; [done|]. rewrite !str_app_cons. intros; simplify_eq; auto. Qed.

Lemma str_app_empty (a b : string) : a +:+ b = "" <-> a = "" /\ b = "".
Proof.
  destruct a as [|x a]; [naive_solver|]. rewrite str_app_cons. naive_solver.
Qed.

Lemma chars_length s : length (chars s) = String.length s.
Proof. induction s as [|c s IH]; [done|]. cbn. by f_equal. Qed.

Lemma chars_app (a b : string) : chars (a +:+ b) = chars a ++ chars b.
Proof.
  unfold chars. induction a as [|x a IH]; [done|]. rewrite str_app_cons. simpl. by rewrite IH.
Qed.

(** Two strings split at the first occurrence of a separator are equal part by
    part. *)
Lemma str_split_inj (sep : ascii) (a b a' b' : string) :
  sep ∉ chars a -> sep ∉ chars a' ->
  a +:+ String sep b = a' +:+ String sep b' -> a = a' /\ b = b'.
Proof.
  unfold chars. revert a'.
  induction a as [|x a IH]; intros [|y a'];
    rewrite ?str_app_cons, ?str_app_nil_l; simpl; intros Ha Ha' Heq; simplify_eq.
  - done.
  - set_solver.
  - set_solver.
  - destruct (IH a') as [-> ->]; set_solver.
Qed.

(** ** Map iteration

    A [range] over a Go map visits every key once, in an order the language
    leaves open: a model of such a loop takes the order as an argument. *)

Record MapOrder : Type := mkMapOrder {
  map_order :> list string -> list string;
  map_order_perm : forall l, map_order l ≡ₚ l
}.

Definition map_range {A} (o : MapOrder) (m : gmap string A) : list string :=
  o (map_to_list m).*1.

(** Two concrete orders. *)
Definition range_in_order : MapOrder := mkMapOrder id (fun l => Permutation_refl l).
Definition range_reversed : MapOrder := mkMapOrder reverse (fun l => reverse_Permutation l).

Lemma map_range_NoDup {A} o (m : gmap string A) : NoDup (map_range o m).
Proof. unfold map_range. rewrite map_order_perm. apply NoDup_fst_map_to_list. Qed.

Lemma elem_of_map_range {A} o (m : gmap string A) k : k ∈ map_range o m <-> is_Some (m !! k).
Proof.
  unfold map_range. rewrite map_order_perm, list_elem_of_fmap. split.
  - intros ([k' x] & -> & Hin%elem_of_map_to_list). eauto.
  - intros [x Hx]. exists (k, x). split; [done|]. by apply elem_of_map_to_list.
Qed.

(** ** Sums over maps *)

Section MapSum.
Context `{Countable K} {A : Type} (f : A -> Z).
Implicit Types m : gmap K A.

Definition map_sum m : Z := map_fold (fun _ x acc => f x + acc) 0 m.

(** What an entry contributes. *)
Definition at_key m (k : K) : Z := match m !! k with Some x => f x | None => 0 end.

Lemma map_sum_empty : map_sum ∅ = 0.
Proof. apply map_fold_empty. Qed.

Lemma map_sum_delete m k : map_sum (delete k m) = map_sum m - at_key m k.
Proof.
  unfold map_sum, at_key. destruct (m !! k) as [x|] eqn:E; [|rewrite delete_id by done; lia].
  rewrite <-(insert_delete_id m k x E) at 2.
  rewrite map_fold_insert_L by (try apply lookup_delete_eq; intros; lia). lia.
Qed.

Lemma map_sum_insert m k x : map_sum (<[k := x]> m) = map_sum m - at_key m k + f x.
Proof.
  rewrite <-map_sum_delete, <-insert_delete_eq. unfold map_sum.
  rewrite map_fold_insert_L by (try apply lookup_delete_eq; intros; lia). lia.
Qed.

Lemma map_sum_nonneg m : (forall x, 0 <= f x) -> 0 <= map_sum m.
Proof.
  intros Hf. induction m as [|k x m Hk IH] using map_ind; [by rewrite map_sum_empty|].
  rewrite map_sum_insert. unfold at_key. rewrite Hk. specialize (Hf x). lia.
Qed.

(** A sum of nonnegative parts is zero when every part is. *)
Lemma map_sum_zero m : (forall x, 0 <= f x) -> map_sum m = 0 -> forall k x, m !! k = Some x -> f x = 0.
Proof.
  intros Hf Hm k x Hk. pose proof (map_sum_nonneg (delete k m) Hf) as Hd. rewrite map_sum_delete in Hd.
  unfold at_key in Hd. rewrite Hk in Hd. specialize (Hf x). lia.
Qed.
End MapSum.

Lemma map_sum_fmap `{Countable K} {A B} (f : B -> Z) (g : A -> B) (m : gmap K A) :
  map_sum f (g <$> m) = map_sum (fun x => f (g x)) m.
Proof.
  induction m as [|k x m Hk IH] using map_ind; [by rewrite fmap_empty, !map_sum_empty|].
  rewrite fmap_insert, !map_sum_insert, IH. unfold at_key. rewrite lookup_fmap, Hk. done.
Qed.
