(* ===== verification/GoTime.v ===== *)
(** * Instants and durations

    [time.Time] as the code uses it: a count of seconds since year 1 in an
    [int64] and a nanosecond part.  Monotonic readings are not represented, so
    comparisons are those of the wall clock; [time.Duration] is an [int64] of
    nanoseconds.  The operations are those of Go's standard library, with its
    overflow behaviour: [time.Unix] and [Time.Unix] wrap, [Time.Add]
    saturates. *)

From S2P Require Import Prelude.

Record Time : Type := mkTime { t_sec : Z; t_nsec : Z }.

#[export] Instance Time_eq_dec : EqDecision Time.
Proof. solve_decision. Defined.

(** Seconds between year 1 and 1970. *)
Definition unixToInternal : Z := 62135596800.

(** [time.Unix(sec, 0).UTC()] *)
Definition time_Unix (sec : Z) : Time := mkTime (wrap_int64 (sec + unixToInternal)) 0.

(** [t.Unix()] *)
Definition Unix (t : Time) : Z := wrap_int64 (t_sec t - unixToInternal).

Definition After (t u : Time) : bool :=
  (t_sec u <? t_sec t) || ((t_sec t =? t_sec u) && (t_nsec u <? t_nsec t)).
Definition Before (t u : Time) : bool :=
  (t_sec t <? t_sec u) || ((t_sec t =? t_sec u) && (t_nsec t <? t_nsec u)).
Definition Equal (t u : Time) : bool :=
  (t_sec t =? t_sec u) && (t_nsec t =? t_nsec u).

Definition Second : Z := 1000000000.

(** [t.addSec(d)] of the standard library: saturates on overflow. *)
Definition addSec (s d : Z) : Z :=
  let sum := wrap_int64 (s + d) in
  if Bool.eqb (s <? sum) (0 <? d) then sum
  else if 0 <? d then MaxInt64 else - MaxInt64.

(** [t.Add(d)] *)
Definition Add (t : Time) (d : Z) : Time :=
  let dsec := Z.quot d Second in
  let nsec := t_nsec t + Z.rem d Second in
  let '(dsec, nsec) :=
    if Second <=? nsec then (dsec + 1, nsec - Second)
    else if nsec <? 0 then (dsec - 1, nsec + Second)
    else (dsec, nsec) in
  mkTime (addSec (t_sec t) dsec) nsec.

(** The instants a program can hold: normalised nanoseconds. *)
Definition time_wf (t : Time) : Prop := int64 (t_sec t) /\ 0 <= t_nsec t < Second.

(** The Unix second of an instant is far enough from the ends of [int64] for
    the internal representation not to wrap. *)
Definition unix_in_range (s : Z) : Prop := MinInt64 <= s <= MaxInt64 - unixToInternal.

(** ** Round trip and order *)

Lemma Unix_time_Unix s : int64 s -> Unix (time_Unix s) = s.
Proof.
  intros Hs. unfold Unix, time_Unix, unixToInternal; simpl. int_lia.
Qed.

Lemma time_Unix_wf s : time_wf (time_Unix s).
Proof. split; [apply wrap_int64_range | unfold Second; simpl; lia]. Qed.

Lemma time_Unix_sec s : unix_in_range s -> t_sec (time_Unix s) = s + unixToInternal.
Proof. unfold unix_in_range, unixToInternal; simpl; unfold unixToInternal. int_lia. Qed.

(** Comparison on instants built from in-range Unix seconds is comparison of the
    seconds; outside the range it is not ([After_time_Unix_wraps]). *)
Lemma After_time_Unix a b :
  unix_in_range a -> unix_in_range b -> After (time_Unix a) (time_Unix b) = (b <? a).
Proof.
  intros Ha Hb. unfold After. rewrite !time_Unix_sec by done. simpl.
  rewrite andb_false_r, orb_false_r. apply eq_true_iff_eq. rewrite !Z.ltb_lt. lia.
Qed.

Lemma After_time_Unix_wraps :
  int64 MaxInt64 /\ After (time_Unix MaxInt64) (time_Unix 0) = false.
Proof. split; [int_lia | vm_compute; reflexivity]. Qed.

Lemma Equal_spec t u : Equal t u = true <-> t = u.
Proof.
  unfold Equal. rewrite andb_true_iff, !Z.eqb_eq. destruct t, u; simpl.
  split; [intros [-> ->]; done | by intros [= -> ->]].
Qed.

Lemma Equal_refl t : Equal t t = true.
Proof. by apply Equal_spec. Qed.

Lemma Before_After t u : Before t u = After u t.
Proof. unfold Before, After. by rewrite (Z.eqb_sym (t_sec u)). Qed.

Lemma After_spec t u :
  After t u = true <-> t_sec u < t_sec t \/ (t_sec t = t_sec u /\ t_nsec u < t_nsec t).
Proof.
  unfold After. rewrite orb_true_iff, andb_true_iff, !Z.ltb_lt, Z.eqb_eq. tauto.
Qed.

Lemma After_irrefl t : After t t = false.
Proof. apply not_true_is_false. rewrite After_spec. lia. Qed.

Lemma After_trans t u v : After t u = true -> After u v = true -> After t v = true.
Proof. rewrite !After_spec. lia. Qed.

Lemma After_asym t u : After t u = true -> After u t = false.
Proof. intros H%After_spec. apply not_true_is_false. rewrite After_spec. lia. Qed.

Lemma After_total t u : After t u = true \/ t = u \/ After u t = true.
Proof.
  rewrite !After_spec. destruct t as [s n], u as [s' n']; simpl.
  destruct (Z.lt_total s s') as [|[->|]]; [lia| |lia].
  destruct (Z.lt_total n n') as [|[->|]]; [lia|auto|lia].
Qed.

(** ** Adding a duration *)

Lemma addSec_exact s d : int64 s -> int64 (s + d) -> int64 d -> addSec s d = s + d.
Proof.
  intros Hs Hsd Hd. unfold addSec. rewrite (wrap_int64_id (s + d)) by done.
  destruct (s <? s + d) eqn:E1, (0 <? d) eqn:E2; simpl; try done;
    rewrite ?Z.ltb_lt, ?Z.ltb_ge in *; lia.
Qed.

(** Nanoseconds since year 1. *)
Definition nanos (t : Time) : Z := t_sec t * Second + t_nsec t.

Lemma Add_nanos t d :
  time_wf t -> int64 d ->
  int64 (t_sec t + Z.quot d Second - 1) -> int64 (t_sec t + Z.quot d Second + 1) ->
  nanos (Add t d) = nanos t + d /\ time_wf (Add t d).
Proof.
  intros [Hs Hn] Hd Hlo Hhi. unfold Add, nanos, time_wf.
  pose proof (Z.quot_rem' d Second) as Hqr.
  assert (Hq : -9300000000 <= Z.quot d Second <= 9300000000).
  { unfold Second. int_lia. }
  assert (Hr : - Second < Z.rem d Second < Second).
  { unfold Second. int_lia. }
  destruct (Second <=? t_nsec t + Z.rem d Second) eqn:E1;
    [apply Z.leb_le in E1 | apply Z.leb_gt in E1; destruct (t_nsec t + Z.rem d Second <? 0) eqn:E2;
      [apply Z.ltb_lt in E2 | apply Z.ltb_ge in E2]]; simpl;
    rewrite addSec_exact by int_lia; (split; [lia | split; int_lia]).
Qed.

Lemma After_nanos t u : time_wf t -> time_wf u -> After t u = (nanos u <? nanos t).
Proof.
  intros [_ Ht] [_ Hu]. unfold nanos, Second in *. apply eq_true_iff_eq.
  rewrite After_spec, Z.ltb_lt. lia.
Qed.

#[export] Hint Resolve time_Unix_wf After_irrefl : mocrelay.
