(* ===== verification/Text.v ===== *)
(** * Byte-string routines

    The small text routines the components share: hex tests (filter.go), the
    hand-written decimal printers (router.go, storage.go) and the leading-zero
    count of NIP-13 (pow.go).  Loops over a fixed buffer carry the buffer's size
    as fuel and return [Panic] where the Go code would index out of range. *)

From S2P Require Import Prelude.

(** ** Character classes *)

Definition code (c : ascii) : Z := Z.of_N (N_of_ascii c).

Definition in_range (lo hi c : ascii) : bool := (code lo <=? code c) && (code c <=? code hi).

(** filter.go, [isTagLetter] *)
Definition isTagLetter (b : ascii) : bool :=
  in_range "a" "z" b || in_range "A" "Z" b.

Definition is_lower_hex (c : ascii) : bool :=
  in_range "0" "9" c || in_range "a" "f" c.

(** filter.go, [isValidLowercaseHex] *)
Definition isValidLowercaseHex (s : string) (len : nat) : bool :=
  if negb (String.length s =? len)%nat then false
  else forallb is_lower_hex (chars s).

(** ** Decimal printing *)

(** [byte('0' + v%10)] *)
Definition digit (v : Z) : ascii := ascii_of_N (Z.to_N (code "0" + v mod 10)).

(** The [for val > 0] loop of [uitoa] and of [appendInt]: [room] is the number
    of free slots left in the [20]byte buffer, [acc] what has been written. *)
Fixpoint digits_loop (room : nat) (val : Z) (acc : string) : Res string :=
  if 0 <? val then
    match room with
    | O => Panic "index out of range"
    | S room' => digits_loop room' (val / 10) (String (digit val) acc)
    end
  else Ok acc.

(** router.go, [uitoa] *)
Definition uitoa (val : Z) : Res string :=
  if val =? 0 then Ok "0"%string else digits_loop 20 val "".

(** router.go, [formatConnID] *)
Definition formatConnID (id : Z) : Res string :=
  d ← uitoa id; mret ("conn-" +:+ d).

(** storage.go, [appendInt]: [n = -n] wraps on the smallest [int64]. *)
Definition appendInt (b : string) (n : Z) : Res string :=
  if n =? 0 then Ok (b +:+ "0")
  else
    let '(b, n) := if n <? 0 then (b +:+ "-", wrap_int64 (- n)) else (b, n) in
    d ← digits_loop 20 n ""; mret (b +:+ d).

(** storage.go, [formatAddressReplaceable] *)
Definition formatAddressReplaceable (kind : Z) (pubkey : string) : Res string :=
  k ← appendInt "" kind; mret (k +:+ ":" +:+ pubkey +:+ ":").

(** storage.go, [formatAddressAddressable] *)
Definition formatAddressAddressable (kind : Z) (pubkey dTag : string) : Res string :=
  k ← appendInt "" kind; mret (k +:+ ":" +:+ pubkey +:+ ":" +:+ dTag).

(** storage.go, [formatAddress] *)
Definition formatAddress (kind : Z) (pubkey dTag : string) : Res string :=
  if String.eqb dTag "" then formatAddressReplaceable kind pubkey
  else formatAddressAddressable kind pubkey dTag.

(** ** Proof of work *)

(** pow.go, [hexToNibble]; [None] is the [-1] of the code. *)
Definition hexToNibble (c : ascii) : Z :=
  if in_range "0" "9" c then code c - code "0"
  else if in_range "a" "f" c then code c - code "a" + 10
  else if in_range "A" "F" c then code c - code "A" + 10
  else -1.

(** pow.go, [clz4] *)
Definition clz4 (nibble : Z) : Z :=
  if 8 <=? nibble then 0
  else if 4 <=? nibble then 1
  else if 2 <=? nibble then 2
  else 3.

(** pow.go, the loop of [countLeadingZeroBits] *)
Fixpoint clz_loop (hex : list ascii) (count : Z) : Z :=
  match hex with
  | [] => count
  | c :: rest =>
      let nibble := hexToNibble c in
      if nibble <? 0 then count
      else if nibble =? 0 then clz_loop rest (count + 4)
      else count + clz4 nibble
  end.

(** pow.go, [countLeadingZeroBits] *)
Definition countLeadingZeroBits (hex : string) : Z := clz_loop (chars hex) 0.

(** ** Facts about the printers *)

(** [%d] of package fmt. *)
Definition fmt_d (z : Z) : string := pretty z.

Lemma digit_pretty (x : N) : digit (Z.of_N x) = pretty_N_char (x mod 10).
Proof.
  unfold digit, code. change 10 with (Z.of_N 10). rewrite <-N2Z.inj_mod.
  assert (Hx : (x mod 10 < 10)%N) by (by apply N.mod_lt).
  generalize dependent (x mod 10)%N. clear x. intros y Hy.
  assert (y = 0 \/ y = 1 \/ y = 2 \/ y = 3 \/ y = 4 \/ y = 5 \/ y = 6 \/ y = 7
          \/ y = 8 \/ y = 9)%N as Hcases by lia.
  destruct_or? Hcases; by subst y.
Qed.

Lemma digits_loop_pretty room (x : N) acc :
  Z.of_N x < 10 ^ Z.of_nat room ->
  digits_loop room (Z.of_N x) acc = Ok (pretty_N_go x acc).
Proof.
  revert x acc. induction room as [|room IH]; intros x acc Hx.
  - simpl. assert (x = 0%N) as -> by lia. by rewrite pretty_N_go_0.
  - cbn [digits_loop]. destruct (Z.ltb_spec 0 (Z.of_N x)).
    + rewrite pretty_N_go_step by lia. rewrite <-digit_pretty.
      replace (Z.of_N x / 10) with (Z.of_N (x / 10)) by (by rewrite N2Z.inj_div).
      apply IH. rewrite N2Z.inj_div. apply Z.div_lt_upper_bound; [lia|].
      rewrite Nat2Z.inj_succ, Z.pow_succ_r in Hx by lia. done.
    + assert (x = 0%N) as -> by lia. by rewrite pretty_N_go_0.
Qed.

Lemma digits_loop_pos n : 0 < n < 10 ^ 20 -> digits_loop 20 n "" = Ok (fmt_d n).
Proof.
  intros Hn. rewrite <-(Z2N.id n) by lia. rewrite digits_loop_pretty; [|lia].
  unfold fmt_d, pretty, pretty_Z. destruct n as [|p|p]; try lia. simpl.
  unfold pretty, pretty_positive, pretty, pretty_N. by rewrite decide_False.
Qed.

Lemma fmt_d_neg n : n < 0 -> fmt_d n = "-" +:+ fmt_d (- n).
Proof. destruct n; try lia. done. Qed.

Lemma uitoa_fmt val : uint64 val -> uitoa val = Ok (fmt_d val).
Proof.
  intros H. unfold uitoa. case_match eqn:E.
  - apply Z.eqb_eq in E as ->. done.
  - apply Z.eqb_neq in E. apply digits_loop_pos. split; [int_lia|].
    apply Z.lt_le_trans with two64; [int_lia|]. by vm_compute.
Qed.

Lemma appendInt_fmt b n :
  MinInt64 < n <= MaxInt64 -> appendInt b n = Ok (b +:+ fmt_d n).
Proof.
  intros H. unfold appendInt. case_match eqn:E; [by apply Z.eqb_eq in E as ->|].
  apply Z.eqb_neq in E. assert (Hb : MaxInt64 < 10 ^ 20) by by vm_compute.
  destruct (Z.ltb_spec n 0).
  - rewrite wrap_int64_id by int_lia. rewrite digits_loop_pos by int_lia.
    rewrite (fmt_d_neg n) by lia. cbn. by rewrite <-str_app_assoc.
  - by rewrite digits_loop_pos by int_lia.
Qed.

(** The characters the printer puts before its accumulator are decimal digits,
    and there is at least one for a positive number. *)
Lemma pretty_N_go_chars x acc :
  exists ds, chars (pretty_N_go x acc) = ds ++ chars acc /\
    Forall (fun c => is_lower_hex c = true) ds /\ (x <> 0%N -> ds <> []).
Proof.
  revert acc. induction x as [x IH] using (well_founded_induction N.lt_wf_0). intros acc.
  destruct (decide (x = 0%N)) as [->|Hx].
  { exists []. by rewrite pretty_N_go_0. }
  rewrite pretty_N_go_step by lia.
  destruct (IH (x / 10)%N ltac:(by apply N.div_lt; lia) (String (pretty_N_char (x mod 10)) acc))
    as (ds & Hds & Hdig & _).
  exists (ds ++ [pretty_N_char (x mod 10)]).
  split_and!; [by rewrite Hds, <-app_assoc | | by destruct ds].
  apply Forall_app; split; [done|]. constructor; [|done].
  generalize (N.mod_lt x 10 ltac:(done)). generalize (x mod 10)%N. intros y Hy.
  assert (y = 0 \/ y = 1 \/ y = 2 \/ y = 3 \/ y = 4 \/ y = 5 \/ y = 6 \/ y = 7
          \/ y = 8 \/ y = 9)%N as Hcases by lia.
  destruct_or? Hcases; by subst y.
Qed.

Lemma fmt_d_chars z :
  exists sign ds, chars (fmt_d z) = sign ++ ds /\ (sign = [] \/ sign = ["-"%char]) /\
    Forall (fun c => is_lower_hex c = true) ds /\ ds <> [].
Proof.
  destruct z as [|p|p].
  - exists [], ["0"%char]. split_and!; auto.
  - destruct (pretty_N_go_chars (N.pos p) "") as (ds & Hds & Hdig & Hne).
    exists [], ds. rewrite app_nil_r in Hds. split_and!; auto.
  - destruct (pretty_N_go_chars (N.pos p) "") as (ds & Hds & Hdig & Hne).
    exists ["-"%char], ds. rewrite app_nil_r in Hds. split_and!; auto.
    unfold fmt_d, pretty, pretty_Z. rewrite str_app_cons. cbn. by f_equal.
Qed.

Lemma fmt_d_no_colon z : ":"%char ∉ chars (fmt_d z).
Proof.
  destruct (fmt_d_chars z) as (sign & ds & -> & Hsign & Hds & _).
  rewrite elem_of_app. intros [H|H].
  - destruct Hsign; subst; set_solver.
  - rewrite list_elem_of_In in H. rewrite List.Forall_forall in Hds. by specialize (Hds _ H).
Qed.

Lemma fmt_d_nonempty z : fmt_d z <> "".
Proof.
  destruct (fmt_d_chars z) as (sign & ds & Hc & _ & _ & Hne). intros Hz.
  rewrite Hz in Hc. by destruct sign, ds.
Qed.

(** The smallest [int64] is printed as a bare minus sign. *)
Lemma appendInt_MinInt64 b : appendInt b MinInt64 = Ok (b +:+ "-").
Proof.
  unfold appendInt. change (MinInt64 =? 0) with false. change (MinInt64 <? 0) with true.
  cbv beta iota. change (digits_loop 20 (wrap_int64 (- MinInt64)) "") with (Ok ""%string).
  cbn. by rewrite str_app_nil_r.
Qed.

(** ** Leading zero bits

    The reference: the big-endian value of a string of hex digits, and the
    number of zero bits above its highest set bit. *)

Definition is_hex (c : ascii) : bool := 0 <=? hexToNibble c.

Fixpoint hex_value (h : list ascii) : Z :=
  match h with
  | [] => 0
  | c :: rest => hexToNibble c * 16 ^ Z.of_nat (length rest) + hex_value rest
  end.

Definition leading_zero_bits (h : list ascii) : Z :=
  let bits := 4 * Z.of_nat (length h) in
  if hex_value h =? 0 then bits else bits - 1 - Z.log2 (hex_value h).

Lemma hexToNibble_lt c : hexToNibble c < 16.
Proof.
  unfold hexToNibble, in_range. change (code "0") with 48. change (code "9") with 57.
  change (code "a") with 97. change (code "f") with 102. change (code "A") with 65.
  change (code "F") with 70.
  repeat case_match; rewrite ?andb_true_iff, ?Z.leb_le in *; lia.
Qed.

Lemma hex_value_range h :
  forallb is_hex h = true -> 0 <= hex_value h < 16 ^ Z.of_nat (length h).
Proof.
  induction h as [|c h IH]; [by simpl|]. cbn [forallb hex_value length].
  rewrite andb_true_iff. unfold is_hex at 1. rewrite Z.leb_le. intros [Hc Hh].
  specialize (IH Hh). pose proof (hexToNibble_lt c).
  rewrite Nat2Z.inj_succ, Z.pow_succ_r by lia. nia.
Qed.

Lemma clz4_log2 n : 0 < n < 16 -> clz4 n = 3 - Z.log2 n.
Proof.
  intros Hn. unfold clz4.
  repeat case_match; rewrite ?Z.leb_le, ?Z.leb_gt in *.
  - by rewrite (Z.log2_unique n 3) by lia.
  - by rewrite (Z.log2_unique n 2) by lia.
  - by rewrite (Z.log2_unique n 1) by lia.
  - by rewrite (Z.log2_unique n 0) by lia.
Qed.

(** The first nonzero digit decides the position of the highest set bit. *)
Lemma log2_lead n k v :
  0 < n < 16 -> 0 <= v < 16 ^ Z.of_nat k ->
  Z.log2 (n * 16 ^ Z.of_nat k + v) = Z.log2 n + 4 * Z.of_nat k.
Proof.
  intros Hn Hv. change 16 with (2 ^ 4) in *. rewrite <-Z.pow_mul_r in * by lia.
  pose proof (Z.log2_spec n ltac:(lia)) as Hlog. pose proof (Z.log2_nonneg n).
  apply Z.log2_unique; [lia|].
  rewrite <-Z.add_succ_l, !Z.pow_add_r by lia. nia.
Qed.

Lemma clz_loop_spec h count :
  forallb is_hex h = true -> clz_loop h count = count + leading_zero_bits h.
Proof.
  unfold leading_zero_bits. revert count.
  induction h as [|c h IH]; intros count; [simpl; lia|].
  cbn [forallb clz_loop hex_value length]. rewrite andb_true_iff. unfold is_hex at 1.
  rewrite Z.leb_le. intros [Hc Hh]. pose proof (hexToNibble_lt c).
  pose proof (hex_value_range h Hh). rewrite Nat2Z.inj_succ.
  destruct (Z.ltb_spec (hexToNibble c) 0); [lia|].
  destruct (Z.eqb_spec (hexToNibble c) 0) as [->|Hne].
  - rewrite IH by done. rewrite Z.mul_0_l, Z.add_0_l. case_match; lia.
  - rewrite clz4_log2 by lia. rewrite log2_lead by lia.
    destruct (Z.eqb_spec (hexToNibble c * 16 ^ Z.of_nat (length h) + hex_value h) 0); [nia|lia].
Qed.

Lemma is_lower_hex_is_hex c : is_lower_hex c = true -> is_hex c = true.
Proof.
  unfold is_lower_hex, is_hex, hexToNibble, in_range. change (code "0") with 48.
  change (code "9") with 57. change (code "a") with 97. change (code "f") with 102.
  rewrite orb_true_iff, !andb_true_iff, !Z.leb_le.
  intros [?|?]; repeat case_match; rewrite ?andb_true_iff, ?andb_false_iff, ?Z.leb_le, ?Z.leb_gt in *; lia.
Qed.

Lemma isValidLowercaseHex_spec s n :
  isValidLowercaseHex s n = true <->
  String.length s = n /\ Forall (fun c => is_lower_hex c = true) (chars s).
Proof.
  unfold isValidLowercaseHex.
  destruct (Nat.eqb_spec (String.length s) n); simpl.
  - rewrite forallb_forall, List.Forall_forall. tauto.
  - split; [done|tauto].
Qed.

(** A hex string holds no colon. *)
Lemma hex_no_colon s n : isValidLowercaseHex s n = true -> ":"%char ∉ chars s.
Proof.
  rewrite isValidLowercaseHex_spec, Forall_forall. intros [_ H] Hin.
  by specialize (H _ Hin).
Qed.

#[export] Hint Resolve hexToNibble_lt hex_no_colon : mocrelay.

(** ** Parsing numbers

    [strconv.ParseInt(s, 10, 64)] of the standard library, which is also what
    [strconv.Atoi] computes on a 64-bit machine: an optional sign, then at least
    one digit, and a value that fits; [None] is an error. *)

Definition digit_value (c : ascii) : option Z :=
  if in_range "0" "9" c then Some (code c - code "0") else None.

Fixpoint parse_digits (l : list ascii) (acc : Z) : option Z :=
  match l with
  | [] => Some acc
  | c :: l => match digit_value c with Some d => parse_digits l (acc * 10 + d) | None => None end
  end.

Definition ParseInt (s : string) : option Z :=
  let '(neg, ds) :=
    match chars s with
    | "-"%char :: ds => (true, ds)
    | "+"%char :: ds => (false, ds)
    | ds => (false, ds)
    end in
  match ds with
  | [] => None
  | _ =>
      match parse_digits ds 0 with
      | Some n => let n := if neg : bool then - n else n in if bool_decide (int64 n) then Some n else None
      | None => None
      end
  end.

(** ** Counting runes

    [utf8.RuneCountInString]: the bytes of the next rune; a byte that starts no
    valid encoding counts as one rune. *)

Definition cont (lo hi : Z) (c : ascii) : bool := (lo <=? code c) && (code c <=? hi).

Definition rune_len (c : ascii) (rest : list ascii) : nat :=
  let b := code c in
  let second := nth_error rest 0 in
  let tail i := match nth_error rest i with Some x => cont 128 191 x | None => false end in
  let lead lo hi := match second with Some x => cont lo hi x | None => false end in
  if b <? 128 then 1
  else if (194 <=? b) && (b <=? 223) then if lead 128 191 then 2 else 1
  else if (224 <=? b) && (b <=? 239) then
    if lead (if b =? 224 then 160 else 128) (if b =? 237 then 159 else 191) && tail 1%nat then 3 else 1
  else if (240 <=? b) && (b <=? 244) then
    if lead (if b =? 240 then 144 else 128) (if b =? 244 then 143 else 191) && tail 1%nat && tail 2%nat
    then 4 else 1
  else 1%nat.

(** [skip] bytes of the current rune are still to be passed over. *)
Fixpoint rune_count (skip : nat) (l : list ascii) : Z :=
  match l with
  | [] => 0
  | c :: rest =>
      match skip with
      | S skip => rune_count skip rest
      | O => 1 + rune_count (rune_len c rest - 1) rest
      end
  end.

Definition RuneCountInString (s : string) : Z := rune_count 0 (chars s).

Example runes_ascii : RuneCountInString "abc" = 3.
Proof. reflexivity. Qed.
Example runes_utf8 : RuneCountInString (String "227" (String "129" (String "130" "x"))) = 2.
Proof. reflexivity. Qed.
Example runes_invalid : RuneCountInString (String "255" (String "227" (String "129" ""))) = 3.
Proof. reflexivity. Qed.

Lemma rune_count_nonneg skip l : 0 <= rune_count skip l.
Proof. revert skip. induction l as [|c l IH]; intros [|skip]; simpl; try lia; auto. specialize (IH (rune_len c l - 1)%nat). lia. Qed.

(** ** Properties *)

(** The leading-zero count of NIP-13 is right: on a string of hex digits
    countLeadingZeroBits returns the number of zero bits above the highest set
    bit of the number the string denotes (four per digit when it denotes 0). *)
Theorem countLeadingZeroBits_spec (hex : string) :
  forallb is_hex (chars hex) = true ->
  countLeadingZeroBits hex =
  let bits := 4 * Z.of_nat (String.length hex) in
  if hex_value (chars hex) =? 0 then bits else bits - 1 - Z.log2 (hex_value (chars hex)).
Proof.
  intros H. unfold countLeadingZeroBits. rewrite clz_loop_spec by done. unfold leading_zero_bits.
  assert (length (chars hex) = String.length hex) as ->; [|lia].
  unfold chars. clear H. induction hex as [|c s IH]; [done|]. simpl. by rewrite IH.
Qed.

Lemma countLeadingZeroBits_spec_witness :
  countLeadingZeroBits "002f" =
  let bits := 4 * Z.of_nat (String.length "002f") in
  if hex_value (chars "002f") =? 0 then bits else bits - 1 - Z.log2 (hex_value (chars "002f")).
Proof. apply (countLeadingZeroBits_spec "002f"). reflexivity. Defined.

(** The hand-written printers agree with fmt: uitoa prints every uint64, and
    appendInt every int64 but the smallest, in decimal within their 20-byte
    buffers, without ever indexing outside them; and appendInt prints the
    smallest int64 as a lone minus sign. *)
Theorem printers_decimal (v n : Z) (b : string) :
  uint64 v -> int64 n ->
  uitoa v = Ok (fmt_d v) /\
  appendInt b n = Ok (b +:+ if n =? MinInt64 then "-" else fmt_d n).
Proof.
  intros Hv Hn. split; [by apply uitoa_fmt|].
  destruct (Z.eqb_spec n MinInt64) as [->|Hne]; [apply appendInt_MinInt64|].
  apply appendInt_fmt; int_lia.
Qed.

Lemma printers_decimal_witness :
  uitoa 1234 = Ok (fmt_d 1234) /\ appendInt "x" (-5) = Ok ("x" +:+ fmt_d (-5)).
Proof. apply (printers_decimal 1234 (-5) "x"); int_lia. Defined.
