(* ===== verification/Bytes.v ===== *)
(** * Byte slices and SHA-256

    Byte slices as lists of [Z] below 256, with the big-endian integers of package
    encoding/binary and the conversions from and to strings, and SHA-256 (FIPS
    180-4), which crypto/sha256 computes. *)

From S2P Require Import Prelude Text.

Definition bytes : Type := list Z.
Definition byte_ok (b : Z) : Prop := 0 <= b < 256.

(** [[]byte(s)] and [string(b)] *)
Definition bytes_of (s : string) : bytes := code <$> chars s.
Definition string_of (b : bytes) : string :=
  String.string_of_list_ascii ((fun x => ascii_of_N (Z.to_N x)) <$> b).

(** [binary.BigEndian.PutUint64] and [Uint64]. *)
Definition be64 (v : Z) : bytes :=
  (fun i => Z.land (Z.shiftr v (8 * (7 - Z.of_nat i))) 255) <$> seq 0 8.

Definition be64_decode (b : bytes) : Z := foldl (fun acc x => acc * 256 + x) 0 b.

(** ** SHA-256 *)

Definition two32 : Z := 2 ^ 32.
Definition add32 (a b : Z) : Z := (a + b) mod two32.
Definition rotr (n x : Z) : Z := Z.lor (Z.shiftr x n) (Z.shiftl x (32 - n) mod two32).

Definition bigSigma0 (x : Z) : Z := Z.lxor (rotr 2 x) (Z.lxor (rotr 13 x) (rotr 22 x)).
Definition bigSigma1 (x : Z) : Z := Z.lxor (rotr 6 x) (Z.lxor (rotr 11 x) (rotr 25 x)).
Definition smallSigma0 (x : Z) : Z := Z.lxor (rotr 7 x) (Z.lxor (rotr 18 x) (Z.shiftr x 3)).
Definition smallSigma1 (x : Z) : Z := Z.lxor (rotr 17 x) (Z.lxor (rotr 19 x) (Z.shiftr x 10)).
Definition sha_Ch (x y z : Z) : Z := Z.lxor (Z.land x y) (Z.land (two32 - 1 - x) z).
Definition sha_Maj (x y z : Z) : Z := Z.lxor (Z.land x y) (Z.lxor (Z.land x z) (Z.land y z)).

(** The constants are the first 32 bits of the fractional parts of the roots of
    the first primes: of their cube roots for the rounds, of their square roots for
    the initial state. *)
Definition is_prime (p : Z) : bool :=
  forallb (fun d => negb (p mod d =? 0)) (seqZ 2 (Z.sqrt p - 1)).

Definition primes : list Z := base.filter (fun p => is_prime p = true) (seqZ 2 311).

(** The largest [r] below [2 ^ bits] with [r ^ k <= n], bit by bit. *)
Fixpoint root_from (bits : nat) (k n r : Z) : Z :=
  match bits with
  | O => r
  | S b => let r' := r + 2 ^ Z.of_nat b in root_from b k n (if r' ^ k <=? n then r' else r)
  end.

Definition root_fraction (k p : Z) : Z := root_from 40 k (p * 2 ^ (32 * k)) 0 mod two32.

Definition sha_K : list Z := Eval vm_compute in root_fraction 3 <$> take 64 primes.

Record ShaState : Type := mkSha { sa : Z; sb : Z; sc : Z; sd : Z; se : Z; sf : Z; sg : Z; sh : Z }.

Definition sha_init : ShaState := Eval vm_compute in
  match root_fraction 2 <$> take 8 primes with
  | [a; b; c; d; e; f; g; h] => mkSha a b c d e f g h
  | _ => mkSha 0 0 0 0 0 0 0 0
  end.

(** The message, a one bit, zeros and the length in bits. *)
Definition sha_pad (m : bytes) : bytes :=
  let n := Z.of_nat (length m) in
  m ++ [0x80] ++ replicate (Z.to_nat ((55 - n) mod 64)) 0 ++ be64 (8 * n mod 2 ^ 64).

Fixpoint be_words (b : bytes) : list Z :=
  match b with
  | x0 :: x1 :: x2 :: x3 :: b => be64_decode [x0; x1; x2; x3] :: be_words b
  | _ => []
  end.

(** The message schedule; [w] holds its words so far, the last first. *)
Fixpoint sha_schedule (n : nat) (w : list Z) : list Z :=
  match n with
  | O => reverse w
  | S n =>
      let t := add32 (add32 (smallSigma1 (nth 1 w 0)) (nth 6 w 0)) (add32 (smallSigma0 (nth 14 w 0)) (nth 15 w 0)) in
      sha_schedule n (t :: w)
  end.

Definition sha_round (s : ShaState) (kw : Z * Z) : ShaState :=
  let t1 := add32 (add32 (sh s) (bigSigma1 (se s))) (add32 (sha_Ch (se s) (sf s) (sg s)) (add32 (fst kw) (snd kw))) in
  let t2 := add32 (bigSigma0 (sa s)) (sha_Maj (sa s) (sb s) (sc s)) in
  mkSha (add32 t1 t2) (sa s) (sb s) (sc s) (add32 (sd s) t1) (se s) (sf s) (sg s).

Definition sha_add (s t : ShaState) : ShaState :=
  mkSha (add32 (sa s) (sa t)) (add32 (sb s) (sb t)) (add32 (sc s) (sc t)) (add32 (sd s) (sd t))
    (add32 (se s) (se t)) (add32 (sf s) (sf t)) (add32 (sg s) (sg t)) (add32 (sh s) (sh t)).

Definition sha_block (s : ShaState) (block : list Z) : ShaState :=
  sha_add s (fold_left sha_round (zip sha_K (sha_schedule 48 (reverse block))) s).

(** The blocks of the padded message, [n] at most. *)
Fixpoint sha_blocks (n : nat) (s : ShaState) (w : list Z) : ShaState :=
  match n, w with
  | S n, _ :: _ => sha_blocks n (sha_block s (take 16 w)) (drop 16 w)
  | _, _ => s
  end.

Definition be32 (v : Z) : bytes := drop 4 (be64 v).

Definition sha_sum (s : ShaState) : bytes :=
  be32 (sa s) ++ be32 (sb s) ++ be32 (sc s) ++ be32 (sd s) ++
  be32 (se s) ++ be32 (sf s) ++ be32 (sg s) ++ be32 (sh s).

(** [sha256.Sum256] *)
Definition sha256 (m : bytes) : bytes :=
  let w := be_words (sha_pad m) in sha_sum (sha_blocks (length w) sha_init w).

Lemma sha256_length m : length (sha256 m) = 32%nat.
Proof. reflexivity. Qed.

Arguments sha256 : simpl never.

(** The test vector of the standard, [SHA-256("abc")]. *)
Example sha256_abc : sha256 (bytes_of "abc") =
  [0xba; 0x78; 0x16; 0xbf; 0x8f; 0x01; 0xcf; 0xea; 0x41; 0x41; 0x40; 0xde; 0x5d; 0xae; 0x22; 0x23;
   0xb0; 0x03; 0x61; 0xa3; 0x96; 0x17; 0x7a; 0x9c; 0xb4; 0x10; 0xff; 0x61; 0xf2; 0x00; 0x15; 0xad].
Proof. vm_compute. reflexivity. Qed.

(** Of a message that takes two blocks. *)
Example sha256_two_blocks :
  take 4 (sha256 (bytes_of "abcdbcdecdefdefgefghfghighijhijkijkljklmklmnlmnomnopnopq")) = [0x24; 0x8d; 0x6a; 0x61].
Proof. vm_compute. reflexivity. Qed.
