(* ===== verification/Event.v ===== *)
(** * Events (event.go) and kind labels (kind_label.go)

    The event record, its NIP-01 category, the format check [Valid] and the
    address of replaceable and addressable events, with the injectivity of
    addresses; and the kind labels of the metrics, with their agreement with the
    event category. *)

From S2P Require Import Prelude GoTime Text.

(** ** Data *)

Inductive EventType : Type :=
| EventTypeRegular
| EventTypeReplaceable
| EventTypeEphemeral
| EventTypeAddressable.

#[export] Instance EventType_eq_dec : EqDecision EventType.
Proof. solve_decision. Defined.

(** A tag is a name followed by values. *)
Definition Tag : Type := list string.

(** [ev_Tags] is [None] for the nil slice, which [Valid] tells apart from the
    empty one. *)
Record Event : Type := mkEvent {
  ev_ID : string;
  ev_Pubkey : string;
  ev_CreatedAt : Time;
  ev_Kind : Z;
  ev_Tags : option (list Tag);
  ev_Content : string;
  ev_Sig : string
}.

#[export] Instance Event_eq_dec : EqDecision Event.
Proof. solve_decision. Defined.

(** The elements a [range] over the slice visits. *)
Definition tags (e : Event) : list Tag := default [] (ev_Tags e).

(** ** Operations *)

(** [Tag.Key] *)
Definition Key (t : Tag) : string :=
  match t with [] => "" | k :: _ => k end.

(** [Tag.Value] *)
Definition Value (t : Tag) : string :=
  match t with _ :: v :: _ => v | _ => "" end.

(** [Event.EventType], on the kind. *)
Definition kindEventType (kind : Z) : EventType :=
  if (kind =? 0) || (kind =? 3) || ((10000 <=? kind) && (kind <? 20000)) then EventTypeReplaceable
  else if (20000 <=? kind) && (kind <? 30000) then EventTypeEphemeral
  else if (30000 <=? kind) && (kind <? 40000) then EventTypeAddressable
  else EventTypeRegular.

Definition eventType (e : Event) : EventType := kindEventType (ev_Kind e).

(** The body of the loop of [Valid] over the tags. *)
Definition tag_valid (t : Tag) : bool :=
  negb ((length t <? 1)%nat || String.eqb (nth 0 t "") "").

(** [Event.Valid]; [None] is the nil event. *)
Definition Valid (oe : option Event) : bool :=
  match oe with
  | None => false
  | Some e =>
      if negb (isValidLowercaseHex (ev_ID e) 64) then false
      else if negb (isValidLowercaseHex (ev_Pubkey e) 64) then false
      else if (ev_Kind e <? 0) || (65535 <? ev_Kind e) then false
      else match ev_Tags e with
      | None => false
      | Some ts =>
          if negb (forallb tag_valid ts) then false
          else if negb (isValidLowercaseHex (ev_Sig e) 128) then false
          else true
      end
  end.

(** The predicate of [slices.IndexFunc] in [Address]. *)
Definition is_d_tag (t : Tag) : bool :=
  (1 <=? length t)%nat && String.eqb (nth 0 t "") "d".

(** The d value [Address] uses: the second element of the first d tag, if it has
    one. *)
Definition d_value (e : Event) : string :=
  match List.find is_d_tag (tags e) with
  | Some t => if (1 <? length t)%nat then nth 1 t "" else ""
  | None => ""
  end.

(** [Event.Address] *)
Definition Address (oe : option Event) : string :=
  match oe with
  | None => ""
  | Some e =>
      match eventType e with
      | EventTypeReplaceable => fmt_d (ev_Kind e) +:+ ":" +:+ ev_Pubkey e +:+ ":"
      | EventTypeAddressable =>
          fmt_d (ev_Kind e) +:+ ":" +:+ ev_Pubkey e +:+ ":" +:+ d_value e
      | _ => ""
      end
  end.

(** The address of an event that is not nil. *)
Abbreviation address e := (Address (Some e)).

Arguments kindEventType : simpl never.
Arguments Address : simpl never.
Arguments Valid : simpl never.

(** ** Kind labels *)

(** kind_label.go, [knownKinds] *)
Definition knownKinds : list Z :=
  [0; 1; 3; 4; 13; 14; 1059; 10050; 5; 6; 7; 1111; 40; 41; 42; 43; 44; 1984; 9734; 9735;
   10002; 30023].

(** kind_label.go, [kindType] *)
Definition kindType (kind : Z) : string :=
  if (kind =? 0) || (kind =? 3) || ((10000 <=? kind) && (kind <=? 19999)) then "replaceable"
  else if (20000 <=? kind) && (kind <=? 29999) then "ephemeral"
  else if (30000 <=? kind) && (kind <=? 39999) then "addressable"
  else if (kind =? 1) || (kind =? 2) || ((4 <=? kind) && (kind <=? 44))
          || ((1000 <=? kind) && (kind <=? 9999)) then "regular"
  else "unknown".

(** kind_label.go, [kindLabels] *)
Definition kindLabels (kind : Z) : string * string :=
  let typeValue := kindType kind in
  if existsb (Z.eqb kind) knownKinds then (fmt_d kind, typeValue) else ("other"%string, typeValue).

(** ** Addresses *)

(** An event has an address exactly when only its latest version is kept. *)
Definition has_address (e : Event) : bool :=
  match eventType e with
  | EventTypeReplaceable | EventTypeAddressable => true
  | _ => false
  end.

Lemma address_empty e : address e = "" <-> has_address e = false.
Proof.
  unfold Address, has_address. destruct (eventType e); try done;
    (split; [|done]); intros H; exfalso; revert H; rewrite str_app_empty;
    intros [H _]; by apply fmt_d_nonempty in H.
Qed.

(** The parts an address is made of. *)
Definition address_d (e : Event) : string :=
  match eventType e with EventTypeAddressable => d_value e | _ => "" end.

Lemma address_unfold e :
  has_address e = true ->
  address e = fmt_d (ev_Kind e) +:+ String ":" (ev_Pubkey e +:+ String ":" (address_d e)).
Proof.
  unfold has_address, address_d, Address. destruct (eventType e); try done; intros _.
Qed.

Lemma address_parts_inj e1 e2 :
  has_address e1 = true -> has_address e2 = true ->
  ":"%char ∉ chars (ev_Pubkey e1) -> ":"%char ∉ chars (ev_Pubkey e2) ->
  address e1 = address e2 ->
  ev_Kind e1 = ev_Kind e2 /\ ev_Pubkey e1 = ev_Pubkey e2 /\ address_d e1 = address_d e2.
Proof.
  intros H1 H2 Hp1 Hp2. rewrite !address_unfold by done. intros Heq.
  apply str_split_inj in Heq as [Hk Hrest]; [|apply fmt_d_no_colon..].
  apply (inj pretty) in Hk. by apply str_split_inj in Hrest as [? ?].
Qed.

(** ** Kinds *)

Lemma Valid_parts e :
  Valid (Some e) = true ->
  isValidLowercaseHex (ev_ID e) 64 = true /\ isValidLowercaseHex (ev_Pubkey e) 64 = true /\
  0 <= ev_Kind e <= 65535.
Proof.
  unfold Valid. destruct (isValidLowercaseHex (ev_ID e) 64); [|done].
  destruct (isValidLowercaseHex (ev_Pubkey e) 64); [|done]. simpl.
  destruct (Z.ltb_spec (ev_Kind e) 0), (Z.ltb_spec 65535 (ev_Kind e)); done.
Qed.

(** The two classifications of a kind, on every range. *)
Lemma kindType_cases k :
  (kindType k = "replaceable" <-> kindEventType k = EventTypeReplaceable) /\
  (kindType k = "ephemeral" <-> kindEventType k = EventTypeEphemeral) /\
  (kindType k = "addressable" <-> kindEventType k = EventTypeAddressable) /\
  (kindType k = "regular" \/ kindType k = "unknown" <-> kindEventType k = EventTypeRegular).
Proof.
  unfold kindEventType, kindType.
  replace (k <=? 19999) with (k <? 20000) by lia.
  replace (k <=? 29999) with (k <? 30000) by lia.
  replace (k <=? 39999) with (k <? 40000) by lia.
  destruct ((k =? 0) || (k =? 3) || ((10000 <=? k) && (k <? 20000))); [naive_solver|].
  destruct ((20000 <=? k) && (k <? 30000)); [naive_solver|].
  destruct ((30000 <=? k) && (k <? 40000)); [naive_solver|].
  destruct (_ || _); naive_solver.
Qed.

(** ** Properties *)

(** The address of a well-formed replaceable or addressable event determines
    its kind, its author and (for an addressable one) its d value, and nothing
    else does: two such events share an address exactly when they agree on these
    three, so "the latest event per address" is "the latest per (kind, pubkey,
    d)". *)
Theorem address_inj (e1 e2 : Event) :
  Valid (Some e1) = true -> Valid (Some e2) = true ->
  has_address e1 = true -> has_address e2 = true ->
  address e1 = address e2 <->
  ev_Kind e1 = ev_Kind e2 /\ ev_Pubkey e1 = ev_Pubkey e2 /\
  (eventType e1 = EventTypeAddressable -> d_value e1 = d_value e2).
Proof.
  intros (_ & Hp1 & _)%Valid_parts (_ & Hp2 & _)%Valid_parts H1 H2. split.
  - intros Heq. apply address_parts_inj in Heq as (Hk & Hp & Hd); [|eauto with mocrelay..].
    split_and!; auto. unfold address_d, eventType in *. rewrite <-Hk in Hd.
    intros Ha. by rewrite Ha in Hd.
  - intros (Hk & Hp & Hd). rewrite !address_unfold by done. rewrite Hk, Hp.
    unfold address_d, eventType in *. rewrite Hk in *. by destruct (kindEventType _); rewrite ?Hd.
Qed.

Module EventSamples.
Definition hex32 : string := "0123456789abcdef0123456789abcdef".
Definition pk : string := hex32 +:+ hex32.
Definition profile (content d : string) : Event :=
  mkEvent pk pk (time_Unix 10) 30023 (Some [["d"; d]%string]) content (pk +:+ pk).
End EventSamples.

Lemma address_inj_witness :
  address (EventSamples.profile "x" "post") = address (EventSamples.profile "y" "post") <->
  30023 = 30023 /\ EventSamples.pk = EventSamples.pk /\
  (eventType (EventSamples.profile "x" "post") = EventTypeAddressable ->
   d_value (EventSamples.profile "x" "post") = d_value (EventSamples.profile "y" "post")).
Proof.
  apply (address_inj (EventSamples.profile "x" "post") (EventSamples.profile "y" "post"));
    vm_compute; reflexivity.
Defined.

(** The label pairs a kind-tagged metric can carry. *)
Definition label_series : list (string * string) :=
  map kindLabels knownKinds ++
  map (pair "other"%string) ["regular"; "replaceable"; "ephemeral"; "addressable"; "unknown"]%string.

Lemma kindLabels_in_series k : kindLabels k ∈ label_series.
Proof.
  unfold kindLabels, label_series. rewrite elem_of_app.
  destruct (existsb (Z.eqb k) knownKinds) eqn:E.
  - left. apply existsb_exists in E as (k' & Hin & ->%Z.eqb_eq).
    apply list_elem_of_In, in_map_iff. exists k'. split; [|done].
    unfold kindLabels. replace (existsb (Z.eqb k') knownKinds) with true; [done|].
    symmetry. apply existsb_exists. exists k'. by rewrite Z.eqb_refl.
  - right. pose proof (kindType_cases k) as (H1 & H2 & H3 & H4).
    destruct (kindEventType k).
    1: destruct (proj2 H4 eq_refl) as [-> | ->].
    3: rewrite (proj2 H1 eq_refl).
    4: rewrite (proj2 H2 eq_refl).
    5: rewrite (proj2 H3 eq_refl).
    all: apply list_elem_of_In; simpl; tauto.
Qed.

Lemma label_series_attained p : p ∈ label_series -> exists k, kindLabels k = p.
Proof.
  assert (label_series = map kindLabels (knownKinds ++ [2; 10000; 20000; 30000; 45])) as ->
    by by vm_compute.
  intros (k & Hk & _)%list_elem_of_In%in_map_iff. by exists k.
Qed.

(** The kind labels of the metrics.  kindType classifies a kind as
    replaceable, ephemeral or addressable exactly when EventType does, and as
    regular or unknown exactly when EventType says regular; and the pairs
    kindLabels can return are the 27 pairs of label_series, each of them
    returned for some kind (the code's comment counts 28). *)
Theorem kindLabels_series (k : Z) :
  (kindType k = "replaceable" <-> kindEventType k = EventTypeReplaceable) /\
  (kindType k = "ephemeral" <-> kindEventType k = EventTypeEphemeral) /\
  (kindType k = "addressable" <-> kindEventType k = EventTypeAddressable) /\
  (kindType k = "regular" \/ kindType k = "unknown" <-> kindEventType k = EventTypeRegular) /\
  kindLabels k ∈ label_series /\
  NoDup label_series /\ length label_series = 27%nat /\
  (forall p, p ∈ label_series -> exists k', kindLabels k' = p).
Proof.
  pose proof (kindType_cases k) as (H1 & H2 & H3 & H4).
  split_and!; auto using kindLabels_in_series, label_series_attained.
  - apply (bool_decide_unpack (NoDup label_series)). vm_compute. exact I.
Qed.
