(* ===== verification/Filter.v ===== *)
(** * Filters (filter.go)

    The REQ/COUNT filter, its format check and the matching of an event, with
    the declarative NIP-01 reading of a filter and the equivalence of the two.
    Ranging over the [Tags] map visits the keys in an unspecified order; both
    loops over it only return a conjunction, so one order stands for all. *)

From S2P Require Import Prelude GoTime Text Event.

(** ** Data

    A nil slice and an empty one are told apart by [Valid], so list fields are
    options; a nil [Tags] map reads as the empty one. *)
Record ReqFilter : Type := mkReqFilter {
  f_IDs : option (list string);
  f_Authors : option (list string);
  f_Kinds : option (list Z);
  f_Tags : gmap string (list string);
  f_Since : option Z;
  f_Until : option Z;
  f_Limit : option Z;
  f_Search : option string
}.

#[export] Instance ReqFilter_eq_dec : EqDecision ReqFilter.
Proof. solve_decision. Defined.

(** The filter [{}]. *)
Definition emptyFilter : ReqFilter := mkReqFilter None None None ∅ None None None None.

(** The elements of a slice, nil or not. *)
Definition elems {A} (s : option (list A)) : list A := default [] s.

(** [filter.Limit = &l] *)
Definition set_Limit (f : ReqFilter) (l : Z) : ReqFilter :=
  mkReqFilter (f_IDs f) (f_Authors f) (f_Kinds f) (f_Tags f) (f_Since f) (f_Until f)
    (Some l) (f_Search f).

(** ** Operations *)

(** [slices.Contains] *)
Definition contains `{EqDecision A} (l : list A) (x : A) : bool :=
  existsb (fun y => bool_decide (y = x)) l.

(** [s != nil && len(s) == 0] *)
Definition present_but_empty {A} (s : option (list A)) : bool :=
  match s with Some [] => true | _ => false end.

(** The body of the loop of [Valid] over the tag filters. *)
Definition tag_filter_valid (kv : string * list string) : bool :=
  let '(k, v) := kv in
  if match chars k with [c] => negb (isTagLetter c) | _ => true end then false
  else if (length v =? 0)%nat then false
  else if String.eqb k "e" || String.eqb k "p" then
    forallb (fun val => isValidLowercaseHex val 64) v
  else true.

(** [ReqFilter.Valid]; [None] is the nil filter. *)
Definition FilterValid (fp : option ReqFilter) : bool :=
  match fp with
  | None => false
  | Some f =>
      if present_but_empty (f_IDs f) then false
      else if negb (forallb (fun id => isValidLowercaseHex id 64) (elems (f_IDs f))) then false
      else if present_but_empty (f_Authors f) then false
      else if negb (forallb (fun a => isValidLowercaseHex a 64) (elems (f_Authors f))) then false
      else if present_but_empty (f_Kinds f) then false
      else if negb (forallb (fun kind => negb (kind <? 0)) (elems (f_Kinds f))) then false
      else if negb (forallb tag_filter_valid (map_to_list (f_Tags f))) then false
      else if match f_Since f with Some s => s <? 0 | None => false end then false
      else if match f_Until f with Some u => u <? 0 | None => false end then false
      else if match f_Since f, f_Until f with Some s, Some u => u <? s | _, _ => false end
      then false
      else if match f_Limit f with Some l => l <? 0 | None => false end then false
      else true
  end.

(** The inner loop of [Match]: some tag of the event carries the key and one of
    the values. *)
Definition tag_matched (ev : Event) (tagKey : string) (filterValues : list string) : bool :=
  existsb (fun tag =>
    (2 <=? length tag)%nat && String.eqb (nth 0 tag "") tagKey
    && contains filterValues (nth 1 tag "")) (tags ev).

(** The body of the loop of [Match] over the tag filters. *)
Definition tag_clause (ev : Event) (kv : string * list string) : bool :=
  let '(tagKey, filterValues) := kv in
  if (length filterValues =? 0)%nat then true else tag_matched ev tagKey filterValues.

(** [ReqFilter.Match] *)
Definition Match (fp : option ReqFilter) (oev : option Event) : bool :=
  match fp, oev with
  | Some f, Some ev =>
      if (0 <? length (elems (f_IDs f)))%nat && negb (contains (elems (f_IDs f)) (ev_ID ev))
      then false
      else if (0 <? length (elems (f_Authors f)))%nat
              && negb (contains (elems (f_Authors f)) (ev_Pubkey ev))
      then false
      else if (0 <? length (elems (f_Kinds f)))%nat
              && negb (contains (elems (f_Kinds f)) (ev_Kind ev))
      then false
      else if negb (forallb (tag_clause ev) (map_to_list (f_Tags f))) then false
      else if match f_Since f with Some s => Unix (ev_CreatedAt ev) <? s | None => false end
      then false
      else if match f_Until f with Some u => u <? Unix (ev_CreatedAt ev) | None => false end
      then false
      else true
  | _, _ => false
  end.

Arguments Match : simpl never.

(** router.go, [matchesAny] *)
Definition matchesAny (filters : list ReqFilter) (event : Event) : bool :=
  existsb (fun f => Match (Some f) (Some event)) filters.

(** ** The declarative reading of a filter

    Every condition given must hold; within a condition any listed value will
    do; a condition that lists no value is not a condition. *)

Definition listed {A} (s : option (list A)) (x : A) : Prop :=
  elems s = [] \/ x ∈ elems s.

Definition has_tag (ev : Event) (k v : string) : Prop :=
  exists rest, (k :: v :: rest) ∈ tags ev.

Record matches (f : ReqFilter) (ev : Event) : Prop := {
  matches_ids : listed (f_IDs f) (ev_ID ev);
  matches_authors : listed (f_Authors f) (ev_Pubkey ev);
  matches_kinds : listed (f_Kinds f) (ev_Kind ev);
  matches_tags : forall k vs, f_Tags f !! k = Some vs -> vs <> [] ->
    exists v, v ∈ vs /\ has_tag ev k v;
  matches_since : forall s, f_Since f = Some s -> s <= Unix (ev_CreatedAt ev);
  matches_until : forall u, f_Until f = Some u -> Unix (ev_CreatedAt ev) <= u
}.

(** The format NIP-01 asks of a filter. *)
Definition hex64 (s : string) : Prop := isValidLowercaseHex s 64 = true.

Record well_formed (f : ReqFilter) : Prop := {
  wf_ids : forall l, f_IDs f = Some l -> l <> [] /\ Forall hex64 l;
  wf_authors : forall l, f_Authors f = Some l -> l <> [] /\ Forall hex64 l;
  wf_kinds : forall l, f_Kinds f = Some l -> l <> [] /\ Forall (fun k => 0 <= k) l;
  wf_tags : forall k vs, f_Tags f !! k = Some vs ->
    (exists c, k = String c "" /\ isTagLetter c = true) /\ vs <> [] /\
    (k = "e" \/ k = "p" -> Forall hex64 vs);
  wf_since : forall s, f_Since f = Some s -> 0 <= s;
  wf_until : forall u, f_Until f = Some u -> 0 <= u;
  wf_range : forall s u, f_Since f = Some s -> f_Until f = Some u -> s <= u;
  wf_limit : forall l, f_Limit f = Some l -> 0 <= l
}.

(** ** Lemmas *)

Lemma contains_spec `{EqDecision A} (l : list A) x : contains l x = true <-> x ∈ l.
Proof.
  unfold contains. rewrite existsb_exists. split.
  - intros (y & Hin & ->%bool_decide_eq_true). by apply list_elem_of_In.
  - intros Hin. exists x. rewrite <-list_elem_of_In. by rewrite bool_decide_eq_true.
Qed.

Lemma listed_spec `{EqDecision A} (s : option (list A)) x :
  (0 <? length (elems s))%nat && negb (contains (elems s) x) = false <-> listed s x.
Proof.
  unfold listed. rewrite <-contains_spec. destruct (elems s) as [|y l]; [simpl; tauto|].
  destruct (contains (y :: l) x); split; [auto|done|done|by intros [?|?]].
Qed.

Lemma tag_matched_spec ev k vs :
  tag_matched ev k vs = true <-> exists v, v ∈ vs /\ has_tag ev k v.
Proof.
  unfold tag_matched, has_tag. rewrite existsb_exists. split.
  - intros (t & Hin & Ht). rewrite !andb_true_iff in Ht. destruct Ht as [[Hlen Hk] Hv].
    apply String.eqb_eq in Hk. apply contains_spec in Hv.
    destruct t as [|k' [|v rest]]; try done. simpl in *. subst k'.
    exists v. split; [done|]. exists rest. by apply list_elem_of_In.
  - intros (v & Hv & rest & Hin). exists (k :: v :: rest).
    rewrite <-list_elem_of_In, !andb_true_iff, String.eqb_eq, contains_spec. done.
Qed.

Lemma tag_clauses_spec ev (m : gmap string (list string)) :
  forallb (tag_clause ev) (map_to_list m) = true <->
  forall k vs, m !! k = Some vs -> vs <> [] -> exists v, v ∈ vs /\ has_tag ev k v.
Proof.
  rewrite forallb_forall. split.
  - intros H k vs Hk Hne. apply tag_matched_spec.
    assert (Hc : tag_clause ev (k, vs) = true).
    { apply H. by apply list_elem_of_In, elem_of_map_to_list. }
    simpl in Hc. by destruct vs.
  - intros H [k vs] Hin%list_elem_of_In%elem_of_map_to_list. simpl.
    destruct vs as [|v vs]; [done|]. apply tag_matched_spec. by apply H.
Qed.

Lemma Match_matches f ev : Match (Some f) (Some ev) = true <-> matches f ev.
Proof.
  unfold Match. rewrite !guard_true, !listed_spec, negb_false_iff, tag_clauses_spec.
  split.
  - intros (H1 & H2 & H3 & H4 & H5 & H6 & _). constructor; [done..| |].
    + intros s Hs. rewrite Hs in H5. lia.
    + intros u Hu. rewrite Hu in H6. lia.
  - intros [M1 M2 M3 M4 M5 M6]. split_and!; [done..| | |done].
    + destruct (f_Since f) as [s|]; [|done]. specialize (M5 _ eq_refl). lia.
    + destruct (f_Until f) as [u|]; [|done]. specialize (M6 _ eq_refl). lia.
Qed.

#[export] Instance matches_dec f ev : Decision (matches f ev).
Proof.
  refine (cast_if (decide (Match (Some f) (Some ev) = true))); by rewrite <-Match_matches.
Defined.

(** What the router and the storages ask of a list of filters. *)
Lemma matchesAny_spec filters ev :
  matchesAny filters ev = true <-> exists f, f ∈ filters /\ matches f ev.
Proof.
  unfold matchesAny. rewrite existsb_exists. setoid_rewrite list_elem_of_In.
  setoid_rewrite Match_matches. done.
Qed.

Lemma forallb_Forall {A} (p : A -> bool) (P : A -> Prop) l :
  (forall x, p x = true <-> P x) -> forallb p l = true <-> Forall P l.
Proof.
  intros H. rewrite forallb_forall, List.Forall_forall. by setoid_rewrite H.
Qed.

(** The test of one list field of [Valid]. *)
Lemma list_field_spec {A} (p : A -> bool) (P : A -> Prop) (s : option (list A)) :
  (forall x, p x = true <-> P x) ->
  present_but_empty s = false /\ negb (forallb p (elems s)) = false <->
  forall l, s = Some l -> l <> [] /\ Forall P l.
Proof.
  intros H. rewrite negb_false_iff, (forallb_Forall p P) by done.
  destruct s as [[|x l]|]; simpl; naive_solver.
Qed.

Lemma tag_filter_valid_spec k vs :
  tag_filter_valid (k, vs) = true <->
  (exists c, k = String c "" /\ isTagLetter c = true) /\ vs <> [] /\
  (k = "e" \/ k = "p" -> Forall hex64 vs).
Proof.
  unfold tag_filter_valid. rewrite !guard_true.
  assert (Hk : (match chars k with [c] => negb (isTagLetter c) | _ => true end) = false <->
    exists c, k = String c "" /\ isTagLetter c = true).
  { destruct k as [|c [|d k]]; simpl; [naive_solver| |naive_solver].
    rewrite negb_false_iff. naive_solver. }
  rewrite Hk. apply and_iff_compat_l.
  rewrite Nat.eqb_neq, length_zero_iff_nil. apply and_iff_compat_l.
  rewrite <-!String.eqb_eq.
  destruct (String.eqb k "e"), (String.eqb k "p"); simpl;
    rewrite ?(forallb_Forall _ hex64) by done; naive_solver.
Qed.

Lemma FilterValid_well_formed f : FilterValid (Some f) = true <-> well_formed f.
Proof.
  unfold FilterValid. rewrite !guard_true.
  pose proof (list_field_spec _ hex64 (f_IDs f) (fun x => iff_refl _)) as H1.
  pose proof (list_field_spec _ hex64 (f_Authors f) (fun x => iff_refl _)) as H2.
  pose proof (list_field_spec (fun k => negb (k <? 0)) (fun k => 0 <= k) (f_Kinds f)
                ltac:(intros k; by rewrite negb_true_iff, Z.ltb_ge)) as H3.
  assert (H4 : negb (forallb tag_filter_valid (map_to_list (f_Tags f))) = false <->
    forall k vs, f_Tags f !! k = Some vs ->
      (exists c, k = String c "" /\ isTagLetter c = true) /\ vs <> [] /\
      (k = "e" \/ k = "p" -> Forall hex64 vs)).
  { rewrite negb_false_iff, forallb_forall. setoid_rewrite <-list_elem_of_In. split.
    - intros H k vs Hk. apply tag_filter_valid_spec, H, elem_of_map_to_list, Hk.
    - intros H [k vs] Hin%elem_of_map_to_list. by apply tag_filter_valid_spec, H. }
  rewrite H4. clear H4. split.
  - intros (?&?&?&?&?&?&?&?&?&?&?&_). constructor; try tauto; intros; simplify_option_eq;
      by apply Z.ltb_ge.
  - intros [W1 W2 W3 W4 W5 W6 W7 W8]. apply H1 in W1 as []. apply H2 in W2 as [].
    apply H3 in W3 as []. split_and!; try done;
      destruct (f_Since f), (f_Until f), (f_Limit f); try done; apply Z.ltb_ge; auto.
Qed.

(** ** Properties *)

(** Valid accepts a filter exactly when it has the NIP-01 format: every list
    present is non-empty, ids and authors and the values of #e and #p are 64
    lowercase hex digits, kinds, since, until and limit are not negative, since
    does not exceed until, and every tag filter is named by one letter; the nil
    filter is rejected. *)
Theorem FilterValid_spec (f : ReqFilter) :
  (FilterValid (Some f) = true <-> well_formed f) /\ FilterValid None = false.
Proof. split; [apply FilterValid_well_formed | done]. Qed.

(** A filter matches an event exactly when the event satisfies every
    condition the filter states (NIP-01: OR within a list, AND across fields,
    tag conditions on any tag with that name, since and until inclusive); a nil
    filter or event never matches; and the search text and the limit never
    influence the outcome. *)
Theorem Match_spec (f : ReqFilter) (ev : Event) (l : option Z) (s : option string) :
  (Match (Some f) (Some ev) = true <-> matches f ev) /\
  Match None (Some ev) = false /\ Match (Some f) None = false /\
  Match (Some f) (Some ev) =
  Match (Some (mkReqFilter (f_IDs f) (f_Authors f) (f_Kinds f) (f_Tags f)
                 (f_Since f) (f_Until f) l s)) (Some ev).
Proof. split; [apply Match_matches | done]. Qed.
