(* ===== verification/Storage.v ===== *)
(** * The in-memory storage (storage.go)

    [InMemoryStorage] with [Store], [processKind5] and [Query], its
    well-formedness invariant, the specification of [Query] against a reference
    definition, and what deletions and replacement guarantee.  The operations
    hold the storage's lock for their whole duration, so each is one atomic
    transition of the state. *)

From S2P Require Import Prelude GoTime Text Event Filter.

(** ** State *)

Record deletionRecord : Type := mkDeletionRecord {
  dr_Pubkey : string;
  dr_CreatedAt : Time
}.

Record InMemoryStorage : Type := mkInMemoryStorage {
  events : list Event;
  deletedIDs : gmap string deletionRecord;
  deletedAddrs : gmap string deletionRecord
}.

Definition NewInMemoryStorage : InMemoryStorage := mkInMemoryStorage [] ∅ ∅.

Definition set_events (s : InMemoryStorage) (l : list Event) : InMemoryStorage :=
  mkInMemoryStorage l (deletedIDs s) (deletedAddrs s).

(** ** Ordering *)

(** [cmp.Compare] on strings *)
Definition cmp_Compare (a b : string) : Z :=
  if str_ltb a b then -1 else if str_ltb b a then 1 else 0.

Definition compareEvents (a b : Event) : Z :=
  if negb (Equal (ev_CreatedAt a) (ev_CreatedAt b)) then
    if After (ev_CreatedAt a) (ev_CreatedAt b) then -1 else 1
  else cmp_Compare (ev_ID a) (ev_ID b).

(** The order [slices.SortFunc] sorts by.  The library does not promise which
    algorithm it runs nor stability; [compareEvents_antisym] makes the sorted
    permutation of events with distinct ids unique. *)
Definition ev_le (a b : Event) : Prop := compareEvents a b <= 0.

#[export] Instance ev_le_dec a b : Decision (ev_le a b).
Proof. unfold ev_le. apply _. Defined.

Definition SortFunc (l : list Event) : list Event := merge_sort ev_le l.

(** ** Store *)

(** [slices.DeleteFunc] *)
Definition DeleteFunc {A} (del : A -> bool) (l : list A) : list A :=
  List.filter (fun x => negb (del x)) l.

(** [rec, ok := m[k]; ok && rec.Pubkey == pubkey], with the record. *)
Definition deletion_by (m : gmap string deletionRecord) (k pubkey : string) : option deletionRecord :=
  match m !! k with
  | Some rec => if String.eqb (dr_Pubkey rec) pubkey then Some rec else None
  | None => None
  end.

(** The "e" and "a" cases of the loop of [processKind5]. *)
Definition kind5_tag (event : Event) (s : InMemoryStorage) (tag : Tag) : InMemoryStorage :=
  let rec := mkDeletionRecord (ev_Pubkey event) (ev_CreatedAt event) in
  if (length tag <? 2)%nat then s
  else if String.eqb (nth 0 tag "") "e" then
    let eventID := nth 1 tag "" in
    mkInMemoryStorage
      (DeleteFunc (fun e => if ev_Kind e =? 5 then false
                            else String.eqb (ev_ID e) eventID
                                 && String.eqb (ev_Pubkey e) (ev_Pubkey event)) (events s))
      (<[eventID := rec]> (deletedIDs s)) (deletedAddrs s)
  else if String.eqb (nth 0 tag "") "a" then
    let addr := nth 1 tag "" in
    mkInMemoryStorage
      (DeleteFunc (fun e => String.eqb (address e) addr
                            && String.eqb (ev_Pubkey e) (ev_Pubkey event)
                            && negb (After (ev_CreatedAt e) (ev_CreatedAt event))) (events s))
      (deletedIDs s) (<[addr := rec]> (deletedAddrs s))
  else s.

Definition processKind5 (s : InMemoryStorage) (event : Event) : InMemoryStorage :=
  fold_left (kind5_tag event) (tags event) s.

(** The loop of [Store] that looks for the event with the same address: either
    no event has it, or the first one that has it is kept or overwritten. *)
Inductive ReplaceResult : Type :=
| NoSuchAddress
| KeepOld
| Replaced (l : list Event).

Fixpoint replace_loop (event : Event) (addr : string) (l : list Event) : ReplaceResult :=
  match l with
  | [] => NoSuchAddress
  | e :: rest =>
      if String.eqb (address e) addr then
        if After (ev_CreatedAt event) (ev_CreatedAt e) then Replaced (event :: rest)
        else if Equal (ev_CreatedAt event) (ev_CreatedAt e)
                && str_ltb (ev_ID event) (ev_ID e) then Replaced (event :: rest)
        else KeepOld
      else
        match replace_loop event addr rest with
        | Replaced rest' => Replaced (e :: rest')
        | r => r
        end
  end.

(** [InMemoryStorage.Store] for an event that is not nil. *)
Definition store_event (s : InMemoryStorage) (event : Event) : InMemoryStorage * bool :=
  match deletion_by (deletedIDs s) (ev_ID event) (ev_Pubkey event) with
  | Some _ => (s, false)
  | None =>
  let addr := address event in
  let rejected :=
    if String.eqb addr "" then false
    else match deletion_by (deletedAddrs s) addr (ev_Pubkey event) with
         | Some rec => negb (After (ev_CreatedAt event) (dr_CreatedAt rec))
         | None => false
         end in
  if rejected then (s, false)
  else if existsb (fun e => String.eqb (ev_ID e) (ev_ID event)) (events s) then (s, false)
  else
  let s := if ev_Kind event =? 5 then processKind5 s event else s in
  if (ev_Kind event =? 5)
     && bool_decide (is_Some (deletion_by (deletedIDs s) (ev_ID event) (ev_Pubkey event)))
  then (s, true)
  else
  let eventType := eventType event in
  let replaced :=
    if bool_decide (eventType = EventTypeReplaceable) || bool_decide (eventType = EventTypeAddressable)
    then replace_loop event addr (events s)
    else NoSuchAddress in
  match replaced with
  | Replaced l => (set_events s l, true)
  | KeepOld => (s, false)
  | NoSuchAddress =>
      if bool_decide (eventType = EventTypeEphemeral) then (s, false)
      else (set_events s (events s ++ [event]), true)
  end
  end.

(** [InMemoryStorage.Store]; the error result is always nil. *)
Definition Store (s : InMemoryStorage) (event : option Event) : InMemoryStorage * Res bool :=
  match event with
  | None => (s, Ok false)
  | Some event => let '(s', stored) := store_event s event in (s', Ok stored)
  end.

(** ** Query *)

Definition sortedEvents (s : InMemoryStorage) : list Event := SortFunc (events s).

(** The inner loop of [Query]: [seen] and [result] after trying [filter] on the
    events of [l]. *)
Definition collect_filter (filter : ReqFilter) (acc : gset string * list Event) (l : list Event)
    : gset string * list Event :=
  fold_left (fun '(seen, result) e =>
    if bool_decide (ev_ID e ∈ seen) then (seen, result)
    else if Match (Some filter) (Some e) then ({[ev_ID e]} ∪ seen, result ++ [e])
    else (seen, result)) l acc.

(** The two nested loops of [Query]. *)
Definition collect (filters : list ReqFilter) (sorted : list Event) : list Event :=
  snd (fold_left (fun acc filter => collect_filter filter acc sorted) filters (∅, [])).

(** The limit of the first filter, -1 when there is none. *)
Definition query_limit (filters : list ReqFilter) : Z :=
  match filters with
  | f :: _ => match f_Limit f with Some l => l | None => -1 end
  | [] => -1
  end.

(** The final loop: what it yields to a consumer that never stops. *)
Fixpoint yield_loop (limit count : Z) (l : list Event) : list Event :=
  match l with
  | [] => []
  | e :: rest =>
      if (0 <=? limit) && (limit <=? count) then []
      else e :: yield_loop limit (count + 1) rest
  end.

(** [InMemoryStorage.Query]; both error functions return nil. *)
Definition Query (s : InMemoryStorage) (filters : list ReqFilter) : Res (list Event) :=
  if (length filters =? 0)%nat then Ok []
  else Ok (yield_loop (query_limit filters) 0 (SortFunc (collect filters (sortedEvents s)))).

(** [InMemoryStorage.len] *)
Definition storage_len (s : InMemoryStorage) : nat := length (events s).

(** ** The order of query results *)

(** Newer first; ties by the smaller id. *)
Definition ev_lt (a b : Event) : Prop :=
  After (ev_CreatedAt a) (ev_CreatedAt b) = true \/
  (ev_CreatedAt a = ev_CreatedAt b /\ str_lt (ev_ID a) (ev_ID b)).

Lemma cmp_Compare_le a b : cmp_Compare a b <= 0 <-> str_lt a b \/ a = b.
Proof.
  unfold cmp_Compare. destruct (str_ltb a b) eqn:E1; [split; [auto|lia]|].
  destruct (str_ltb b a) eqn:E2; split; try lia.
  - intros [H|<-]; [unfold str_lt in H; congruence | by destruct (str_lt_irrefl a)].
  - intros _. destruct (str_lt_total a b) as [H|[H|H]]; auto; unfold str_lt in H; congruence.
Qed.

Lemma ev_le_lt a b : ev_le a b <-> ev_lt a b \/ (ev_CreatedAt a = ev_CreatedAt b /\ ev_ID a = ev_ID b).
Proof.
  unfold ev_le, ev_lt, compareEvents.
  destruct (Equal (ev_CreatedAt a) (ev_CreatedAt b)) eqn:E; simpl.
  - apply Equal_spec in E. rewrite E, After_irrefl, cmp_Compare_le. naive_solver.
  - assert (ev_CreatedAt a <> ev_CreatedAt b).
    { intros Heq. rewrite Heq, Equal_refl in E. done. }
    destruct (After (ev_CreatedAt a) (ev_CreatedAt b)); split; try lia; naive_solver.
Qed.

#[export] Instance ev_lt_trans : Transitive ev_lt.
Proof.
  intros a b c. unfold ev_lt. intros [H1|[H1 H1']] [H2|[H2 H2']].
  - left. eauto using After_trans.
  - left. by rewrite <-H2.
  - left. by rewrite H1.
  - right. split; [congruence|]. eauto using str_lt_trans.
Qed.

Lemma ev_lt_irrefl a : ~ ev_lt a a.
Proof.
  unfold ev_lt. rewrite After_irrefl. intros [?|[_ H]]; [done|]. by apply str_lt_irrefl in H.
Qed.

#[export] Instance ev_le_trans : Transitive ev_le.
Proof.
  intros a b c. rewrite !ev_le_lt. intros [H1|[H1 H1']] [H2|[H2 H2']].
  - left. by etrans.
  - left. unfold ev_lt in *. rewrite <-H2, <-H2'. done.
  - left. unfold ev_lt in *. rewrite H1, H1'. done.
  - right. split; congruence.
Qed.

#[export] Instance ev_le_total : Total ev_le.
Proof.
  intros a b. rewrite !ev_le_lt. unfold ev_lt.
  destruct (After_total (ev_CreatedAt a) (ev_CreatedAt b)) as [H|[H|H]]; auto.
  destruct (str_lt_total (ev_ID a) (ev_ID b)) as [H'|[H'|H']]; auto 6.
Qed.

(** Events that compare equal have the same id. *)
Lemma ev_le_antisym_id a b : ev_le a b -> ev_le b a -> ev_ID a = ev_ID b.
Proof.
  rewrite !ev_le_lt. intros [H1|[_ H1]] [H2|[_ H2]]; auto.
  destruct (ev_lt_irrefl a). by etrans.
Qed.

Lemma ev_le_ne_lt a b : ev_le a b -> ev_ID a <> ev_ID b -> ev_lt a b.
Proof. rewrite ev_le_lt. naive_solver. Qed.

(** ** Lists of events with distinct ids *)

Definition distinct_ids (l : list Event) : Prop := NoDup (ev_ID <$> l).

Lemma distinct_ids_eq l a b :
  distinct_ids l -> a ∈ l -> b ∈ l -> ev_ID a = ev_ID b -> a = b.
Proof.
  intros Hnd Ha Hb Heq.
  apply list_elem_of_lookup in Ha as [i Hi], Hb as [j Hj].
  assert (i = j) as ->; [|congruence].
  eapply NoDup_lookup; [exact Hnd| |]; rewrite list_lookup_fmap.
  - by rewrite Hi.
  - rewrite Hj. simpl. by rewrite Heq.
Qed.

Lemma distinct_ids_Permutation l l' : l ≡ₚ l' -> distinct_ids l -> distinct_ids l'.
Proof. unfold distinct_ids. intros H. by rewrite H. Qed.

Lemma distinct_ids_filter (p : Event -> bool) l :
  distinct_ids l -> distinct_ids (List.filter p l).
Proof.
  unfold distinct_ids. induction l as [|e l IH]; simpl; [done|].
  rewrite NoDup_cons. intros [Hnot Hnd]. destruct (p e); simpl; auto.
  constructor; auto. intros Hin. apply Hnot.
  apply list_elem_of_fmap in Hin as (x & Hx & Hin).
  apply list_elem_of_fmap. exists x. split; [done|].
  apply list_elem_of_In in Hin. apply list_elem_of_In. by apply List.filter_In in Hin as [].
Qed.

Lemma distinct_ids_NoDup l : distinct_ids l -> NoDup l.
Proof. apply NoDup_fmap_1. Qed.

(** A strictly sorted permutation is unique, so the sorting algorithm does not
    matter. *)
Lemma SortFunc_unique l l' :
  distinct_ids l -> l ≡ₚ l' -> StronglySorted ev_le l' -> SortFunc l = l'.
Proof.
  intros Hd Hp Hs.
  apply (StronglySorted_unique_strong ev_le); [| |done|].
  - intros a b Ha Hb Hab Hba.
    unfold SortFunc in Ha. rewrite merge_sort_Permutation in Ha. rewrite <-Hp in Hb.
    eapply distinct_ids_eq; eauto using ev_le_antisym_id.
  - apply StronglySorted_merge_sort; apply _.
  - unfold SortFunc. rewrite merge_sort_Permutation. done.
Qed.

Lemma SortFunc_Permutation l : SortFunc l ≡ₚ l.
Proof. apply merge_sort_Permutation. Qed.

Lemma SortFunc_sorted l : StronglySorted ev_le (SortFunc l).
Proof. apply StronglySorted_merge_sort; apply _. Qed.

Lemma SortFunc_proper l l' : distinct_ids l -> l ≡ₚ l' -> SortFunc l = SortFunc l'.
Proof.
  intros Hd Hp. apply SortFunc_unique; [done| |apply SortFunc_sorted].
  by rewrite SortFunc_Permutation.
Qed.

(** With distinct ids the sort is strict. *)
Lemma StronglySorted_strict l :
  StronglySorted ev_le l -> distinct_ids l -> StronglySorted ev_lt l.
Proof.
  unfold distinct_ids. induction 1 as [|a l Hs IH Hall]; simpl; [constructor|].
  rewrite NoDup_cons. intros [Hnot Hnd]. constructor; [auto|].
  rewrite List.Forall_forall in *. intros x Hx. apply ev_le_ne_lt; [auto|].
  intros Heq. apply Hnot. rewrite Heq. by apply list_elem_of_fmap_2, list_elem_of_In.
Qed.

(** ** Query *)

(** What the query result is meant to be: the events some filter matches, in
    order, cut at the first filter's limit. *)
Definition apply_limit {A} (limit : Z) (l : list A) : list A :=
  if limit <? 0 then l else take (Z.to_nat limit) l.

Definition query_result (s : InMemoryStorage) (filters : list ReqFilter) : list Event :=
  apply_limit (query_limit filters) (SortFunc (List.filter (matchesAny filters) (events s))).

Lemma yield_loop_apply_limit limit count l :
  0 <= count -> yield_loop limit count l =
  if limit <? 0 then l else take (Z.to_nat (limit - count)) l.
Proof.
  revert count. induction l as [|e l IH]; intros count Hc; simpl.
  - case_match; by rewrite ?take_nil.
  - rewrite IH by lia. destruct (Z.ltb_spec limit 0) as [Hl|Hl].
    + by destruct (Z.leb_spec 0 limit); [lia|].
    + destruct (Z.leb_spec 0 limit), (Z.leb_spec limit count); simpl; try lia.
      * replace (limit - count) with (limit - count) by lia.
        by replace (Z.to_nat (limit - count)) with O by lia.
      * replace (Z.to_nat (limit - count)) with (S (Z.to_nat (limit - (count + 1)))) by lia.
        done.
Qed.

(** The accumulator of [collect] holds the events of [P], each once. *)
Definition collects (P : Event -> Prop) (acc : gset string * list Event) : Prop :=
  distinct_ids (snd acc) /\ (forall i, i ∈ fst acc <-> i ∈ ev_ID <$> snd acc) /\
  (forall e, e ∈ snd acc <-> P e).

Lemma collect_filter_spec f l U P acc :
  distinct_ids U -> l ⊆ U -> (forall e, P e -> e ∈ U) -> collects P acc ->
  collects (fun e => P e \/ (e ∈ l /\ matches f e)) (collect_filter f acc l).
Proof.
  intros HU. revert P acc. induction l as [|x l IH]; intros P acc Hl HP Hacc.
  { simpl. destruct Hacc as (H1 & H2 & H3). split_and!; auto. intros e. rewrite H3. set_solver. }
  assert (Hx : x ∈ U) by set_solver.
  assert (Hstep : collects (fun e => P e \/ (e = x /\ matches f e))
                    (collect_filter f acc [x])).
  { destruct acc as [seen result], Hacc as (H1 & H2 & H3). simpl in *.
    case_bool_decide as Hseen; [|destruct (Match (Some f) (Some x)) eqn:Hm].
    - split_and!; auto. simpl. intros e. rewrite H3. split; [auto|].
      intros [?|[-> _]]; [done|]. rewrite H2 in Hseen.
      apply list_elem_of_fmap in Hseen as (y & Hy & Hin).
      rewrite H3 in Hin. by rewrite <-(distinct_ids_eq U y x) by auto.
    - apply Match_matches in Hm. unfold collects, distinct_ids. cbn [fst snd].
      rewrite fmap_app, NoDup_app. split_and!.
      + done.
      + intros i Hi Hi'. apply list_elem_of_singleton in Hi' as ->. by rewrite H2 in Hseen.
      + apply NoDup_singleton.
      + intros i. rewrite elem_of_union, elem_of_app, elem_of_singleton, H2.
        change (ev_ID <$> [x]) with [ev_ID x]. rewrite list_elem_of_singleton. tauto.
      + intros e. rewrite elem_of_app, list_elem_of_singleton, H3. naive_solver.
    - assert (~ matches f x) by (rewrite <-Match_matches; by rewrite Hm).
      split_and!; auto. simpl. intros e. rewrite H3. naive_solver. }
  assert (Hsplit : collect_filter f acc (x :: l) = collect_filter f (collect_filter f acc [x]) l)
    by done.
  rewrite Hsplit. eapply IH in Hstep; [|set_solver|naive_solver].
  destruct Hstep as (H1 & H2 & H3). split_and!; auto.
  intros e. rewrite H3. set_solver.
Qed.

Lemma collect_spec filters l :
  distinct_ids l ->
  distinct_ids (collect filters l) /\
  (forall e, e ∈ collect filters l <-> e ∈ l /\ matchesAny filters e = true).
Proof.
  intros Hl.
  assert (H : forall P acc, (forall e, P e -> e ∈ l) -> collects P acc ->
    collects (fun e => P e \/ (e ∈ l /\ exists f, f ∈ filters /\ matches f e))
      (fold_left (fun acc f => collect_filter f acc l) filters acc)).
  { induction filters as [|f filters IH]; intros P acc HP Hacc; simpl.
    - destruct Hacc as (?&?&H3). split_and!; auto. intros e. rewrite H3. set_solver.
    - apply (collect_filter_spec f l l) in Hacc; [|done..].
      apply IH in Hacc as (H1 & H2 & H3); [|naive_solver].
      split_and!; auto. intros e. rewrite H3. set_solver. }
  destruct (H (fun _ => False) (∅, [])) as (H1 & _ & H3); [done| |].
  { split_and!; [constructor|set_solver..]. }
  split; [done|]. intros e. unfold collect. rewrite H3, matchesAny_spec. naive_solver.
Qed.

Lemma collect_Permutation filters l :
  distinct_ids l -> collect filters l ≡ₚ List.filter (matchesAny filters) l.
Proof.
  intros Hl. destruct (collect_spec filters l Hl) as [Hd Hin].
  apply NoDup_Permutation.
  - by apply distinct_ids_NoDup.
  - by apply distinct_ids_NoDup, distinct_ids_filter.
  - intros e. rewrite Hin, !list_elem_of_In, List.filter_In. done.
Qed.

Lemma filter_Permutation (p : Event -> bool) l l' :
  l ≡ₚ l' -> List.filter p l ≡ₚ List.filter p l'.
Proof.
  induction 1; simpl; repeat case_match; try done; eauto using Permutation.
Qed.

Lemma Query_query_result s filters :
  distinct_ids (events s) ->
  Query s filters = Ok (if (length filters =? 0)%nat then [] else query_result s filters).
Proof.
  intros Hd. unfold Query, query_result, sortedEvents. case_match; [done|].
  rewrite yield_loop_apply_limit by done. rewrite Z.sub_0_r. unfold apply_limit.
  rewrite (SortFunc_proper (collect filters (SortFunc (events s)))
             (List.filter (matchesAny filters) (events s))); [done| |].
  - apply collect_spec. eapply distinct_ids_Permutation; [symmetry; apply SortFunc_Permutation|done].
  - rewrite collect_Permutation.
    + apply filter_Permutation, SortFunc_Permutation.
    + eapply distinct_ids_Permutation; [symmetry; apply SortFunc_Permutation|done].
Qed.

(** ** The outcomes of Store

    [Store] seen from outside: what the stored list and the returned flag are,
    by the situation the event meets. *)

Definition id_deleted (s : InMemoryStorage) (e : Event) : Prop :=
  is_Some (deletion_by (deletedIDs s) (ev_ID e) (ev_Pubkey e)).

Definition addr_deleted (s : InMemoryStorage) (e : Event) : Prop :=
  address e <> "" /\ exists rec,
    deletion_by (deletedAddrs s) (address e) (ev_Pubkey e) = Some rec /\
    After (ev_CreatedAt e) (dr_CreatedAt rec) = false.

Definition admissible (s : InMemoryStorage) (e : Event) : Prop :=
  ~ id_deleted s e /\ ~ addr_deleted s e /\ (forall x, x ∈ events s -> ev_ID x <> ev_ID e).

Inductive store_outcome (s : InMemoryStorage) (e : Event) : InMemoryStorage -> bool -> Prop :=
| out_rejected :
    ~ admissible s e -> store_outcome s e s false
| out_ephemeral :
    admissible s e -> eventType e = EventTypeEphemeral -> store_outcome s e s false
| out_kept e0 :
    admissible s e -> has_address e = true ->
    e0 ∈ events s -> address e0 = address e -> ~ ev_lt e e0 -> store_outcome s e s false
| out_replaced l1 e0 l2 :
    admissible s e -> has_address e = true ->
    events s = l1 ++ e0 :: l2 -> address e0 = address e ->
    (forall x, x ∈ l1 -> address x <> address e) -> ev_lt e e0 ->
    store_outcome s e (set_events s (l1 ++ e :: l2)) true
| out_kind5_self :
    admissible s e -> ev_Kind e = 5 -> id_deleted (processKind5 s e) e ->
    store_outcome s e (processKind5 s e) true
| out_kind5 :
    admissible s e -> ev_Kind e = 5 -> ~ id_deleted (processKind5 s e) e ->
    store_outcome s e (set_events (processKind5 s e) (events (processKind5 s e) ++ [e])) true
| out_appended :
    admissible s e -> ev_Kind e <> 5 -> eventType e <> EventTypeEphemeral ->
    (has_address e = true -> forall x, x ∈ events s -> address x <> address e) ->
    store_outcome s e (set_events s (events s ++ [e])) true.

Lemma replace_loop_spec e l :
  match replace_loop e (address e) l with
  | NoSuchAddress => forall x, x ∈ l -> address x <> address e
  | KeepOld => exists e0, e0 ∈ l /\ address e0 = address e /\ ~ ev_lt e e0
  | Replaced l' => exists l1 e0 l2, l = l1 ++ e0 :: l2 /\ l' = l1 ++ e :: l2 /\
      address e0 = address e /\ (forall x, x ∈ l1 -> address x <> address e) /\ ev_lt e e0
  end.
Proof.
  induction l as [|x l IH]; cbn [replace_loop]; [set_solver|].
  destruct (String.eqb_spec (address x) (address e)) as [Hx|Hx].
  - destruct (After (ev_CreatedAt e) (ev_CreatedAt x)) eqn:Haft.
    { exists [], x, l. split_and!; auto; [set_solver|by left]. }
    destruct (_ && _) eqn:Heq.
    { apply andb_true_iff in Heq as [Heq%Equal_spec Hid].
      exists [], x, l. split_and!; auto; [set_solver|by right]. }
    exists x. split_and!; [set_solver|done|].
    intros [H|[Ht Hid]]; [congruence|]. rewrite Ht, Equal_refl in Heq. unfold str_lt in Hid.
    by rewrite Hid in Heq.
  - destruct (replace_loop e (address e) l) as [| |l'].
    + set_solver.
    + destruct IH as (e0 & ? & ? & ?). exists e0. set_solver.
    + destruct IH as (l1 & e0 & l2 & -> & -> & ? & Hl1 & ?).
      exists (x :: l1), e0, l2. split_and!; auto. set_solver.
Qed.

Lemma has_address_cases e :
  has_address e =
  bool_decide (eventType e = EventTypeReplaceable) || bool_decide (eventType e = EventTypeAddressable).
Proof. unfold has_address. by destruct (eventType e). Qed.

Lemma kind5_regular e : ev_Kind e = 5 -> eventType e = EventTypeRegular.
Proof. unfold eventType. by intros ->. Qed.

(** The three tests at the head of [store_event]. *)
Lemma admissible_tests s e :
  deletion_by (deletedIDs s) (ev_ID e) (ev_Pubkey e) = None ->
  (if String.eqb (address e) "" then false
   else match deletion_by (deletedAddrs s) (address e) (ev_Pubkey e) with
        | Some rec => negb (After (ev_CreatedAt e) (dr_CreatedAt rec))
        | None => false
        end) = false ->
  existsb (fun x => String.eqb (ev_ID x) (ev_ID e)) (events s) = false ->
  admissible s e.
Proof.
  intros H1 H2 H3. unfold admissible, id_deleted, addr_deleted. rewrite H1. split_and!.
  - by intros [? ?].
  - intros (Hne & rec & Hrec & Haft). rewrite Hrec, Haft in H2.
    by destruct (String.eqb_spec (address e) "").
  - intros x Hx Heq. apply not_true_iff_false in H3. apply H3, existsb_exists.
    exists x. by rewrite <-list_elem_of_In, String.eqb_eq.
Qed.

Lemma store_event_outcome s e : store_outcome s e (store_event s e).1 (store_event s e).2.
Proof.
  unfold store_event.
  destruct (deletion_by (deletedIDs s) (ev_ID e) (ev_Pubkey e)) as [rec|] eqn:E1.
  { cbn [fst snd]. apply out_rejected. intros [H _]. apply H. unfold id_deleted. by rewrite E1. }
  cbv zeta. match goal with |- context [if ?b then (s, false) else _] => destruct b eqn:E2 end.
  { cbn [fst snd]. apply out_rejected. intros (_ & H & _). apply H. unfold addr_deleted.
    destruct (String.eqb_spec (address e) ""); [done|]. split; [done|].
    destruct (deletion_by (deletedAddrs s) (address e) (ev_Pubkey e)) as [rec|]; [|done].
    exists rec. split; [done|]. by apply negb_true_iff. }
  destruct (existsb _ (events s)) eqn:E3.
  { cbn [fst snd]. apply out_rejected. intros (_ & _ & H). apply existsb_exists in E3 as (x & Hin & Heq).
    apply (H x); [by apply list_elem_of_In|by apply String.eqb_eq]. }
  pose proof (admissible_tests s e E1 E2 E3) as Hadm. clear E1 E2 E3.
  rewrite <-has_address_cases.
  destruct (Z.eqb_spec (ev_Kind e) 5) as [Hk|Hk]; simpl.
  - unfold has_address. rewrite (kind5_regular e Hk). simpl.
    case_bool_decide as Hdel; simpl; [by apply out_kind5_self | by apply out_kind5].
  - pose proof (replace_loop_spec e (events s)) as Hrep.
    destruct (has_address e) eqn:Ha.
    + assert (Hne : eventType e <> EventTypeEphemeral).
      { intros Heph. unfold has_address in Ha. by rewrite Heph in Ha. }
      destruct (replace_loop e (address e) (events s)) as [| |l]; simpl.
      * rewrite bool_decide_eq_false_2 by done. by apply out_appended.
      * destruct Hrep as (e0 & ? & ? & ?). by apply (out_kept _ _ e0).
      * destruct Hrep as (l1 & e0 & l2 & ? & -> & ? & ? & ?).
        by apply (out_replaced _ _ l1 e0 l2).
    + case_bool_decide; simpl; [by apply out_ephemeral | apply out_appended; auto; congruence].
Qed.

(** ** Well-formed storages *)

Record storage_wf (s : InMemoryStorage) : Prop := {
  (** no id is stored twice *)
  sw_ids : distinct_ids (events s);
  (** at most one event is stored per address *)
  sw_addresses : forall e1 e2, e1 ∈ events s -> e2 ∈ events s ->
    address e1 <> "" -> address e1 = address e2 -> e1 = e2;
  (** no ephemeral event is stored *)
  sw_ephemeral : forall e, e ∈ events s -> eventType e <> EventTypeEphemeral;
  (** no event its author has deleted by id is stored, deletion requests apart *)
  sw_deleted_ids : forall e, e ∈ events s -> ev_Kind e <> 5 -> ~ id_deleted s e;
  (** no event its author has deleted by address is stored *)
  sw_deleted_addrs : forall e, e ∈ events s -> ~ addr_deleted s e
}.

Lemma DeleteFunc_elem {A} (p : A -> bool) l x : x ∈ DeleteFunc p l <-> x ∈ l /\ p x = false.
Proof. unfold DeleteFunc. by rewrite !list_elem_of_In, List.filter_In, negb_true_iff. Qed.

Lemma deletion_by_insert m k rec k' pk :
  deletion_by (<[k := rec]> m) k' pk =
  if decide (k = k') then if String.eqb (dr_Pubkey rec) pk then Some rec else None
  else deletion_by m k' pk.
Proof. unfold deletion_by. rewrite lookup_insert. by case_decide. Qed.

(** What a deletion request does to the stored events: it only removes. *)
Lemma kind5_tag_sublist ev s t e : e ∈ events (kind5_tag ev s t) -> e ∈ events s.
Proof.
  unfold kind5_tag. case_match; [done|].
  case_match; [|case_match; [|done]]; cbn [events]; rewrite DeleteFunc_elem; tauto.
Qed.

Lemma kind5_tag_distinct ev s t : distinct_ids (events s) -> distinct_ids (events (kind5_tag ev s t)).
Proof.
  intros H. unfold kind5_tag. case_match; [done|].
  case_match; [|case_match; [|done]]; by apply distinct_ids_filter.
Qed.

Lemma kind5_tag_wf ev s t : storage_wf s -> storage_wf (kind5_tag ev s t).
Proof.
  intros Hwf. pose proof (kind5_tag_sublist ev s t) as Hsub.
  constructor.
  - by apply kind5_tag_distinct, sw_ids.
  - intros e1 e2 H1 H2. apply Hsub in H1, H2. by apply (sw_addresses s Hwf).
  - intros e He. apply Hsub in He. by apply (sw_ephemeral s Hwf).
  - intros e He Hk. pose proof (sw_deleted_ids s Hwf e (Hsub e He) Hk) as Hnot.
    revert He. unfold id_deleted, kind5_tag in *. case_match; [done|].
    case_match; [|case_match; done]. cbn [events deletedIDs].
    rewrite DeleteFunc_elem, deletion_by_insert. case_decide as Hid; [|done].
    rewrite (proj2 (Z.eqb_neq _ _) Hk), Hid, String.eqb_refl. simpl.
    rewrite (String.eqb_sym (ev_Pubkey ev)). intros [_ ->]. by intros [? ?].
  - intros e He. pose proof (sw_deleted_addrs s Hwf e (Hsub e He)) as Hnot.
    revert He. unfold addr_deleted, kind5_tag in *. case_match; [done|].
    case_match; [done|]. case_match; [|done]. cbn [events deletedAddrs].
    rewrite DeleteFunc_elem. setoid_rewrite deletion_by_insert. case_decide as Hid; [|done].
    cbn [dr_Pubkey]. rewrite <-Hid, String.eqb_refl. simpl.
    rewrite (String.eqb_sym (ev_Pubkey ev)).
    intros [_ Hdel] (Hne & rec & Hrec & Haft).
    destruct (String.eqb (ev_Pubkey e) (ev_Pubkey ev)); simplify_eq. simpl in *.
    by rewrite Haft in Hdel.
Qed.

Lemma processKind5_ind (P : InMemoryStorage -> Prop) ev s :
  (forall s t, P s -> P (kind5_tag ev s t)) -> P s -> P (processKind5 s ev).
Proof.
  intros Hstep. unfold processKind5. revert s.
  induction (tags ev) as [|t l IH]; intros s Hs; simpl; auto.
Qed.

Lemma processKind5_wf ev s : storage_wf s -> storage_wf (processKind5 s ev).
Proof. apply processKind5_ind. intros. by apply kind5_tag_wf. Qed.

Lemma processKind5_sublist ev s e : e ∈ events (processKind5 s ev) -> e ∈ events s.
Proof.
  apply (processKind5_ind (fun s' => e ∈ events s' -> e ∈ events s)); [|done].
  intros s' t IH H. apply IH. by apply kind5_tag_sublist in H.
Qed.

Lemma storage_wf_add s e l :
  storage_wf s -> l ≡ₚ e :: events s ->
  (forall x, x ∈ events s -> ev_ID x <> ev_ID e) ->
  (address e <> "" -> forall x, x ∈ events s -> address x <> address e) ->
  eventType e <> EventTypeEphemeral ->
  (ev_Kind e <> 5 -> ~ id_deleted s e) -> ~ addr_deleted s e ->
  storage_wf (set_events s l).
Proof.
  intros Hwf Hl Hid Haddr Heph Hdi Hda.
  assert (Hin : forall x, x ∈ l <-> x = e \/ x ∈ events s).
  { intros x. by rewrite Hl, elem_of_cons. }
  constructor; cbn [events set_events].
  - eapply distinct_ids_Permutation; [by symmetry|]. unfold distinct_ids.
    rewrite fmap_cons, NoDup_cons. split; [|apply Hwf].
    intros (x & Hx & Hxin)%list_elem_of_fmap. by apply (Hid x).
  - intros e1 e2. rewrite !Hin. intros [->|H1] [->|H2] Hne Heq; auto.
    + by destruct (Haddr Hne e2 H2).
    + rewrite Heq in Hne. by destruct (Haddr Hne e1 H1).
    + by apply (sw_addresses s Hwf).
  - intros x [->|Hx]%Hin; [done|]. by apply (sw_ephemeral s Hwf).
  - intros x [->|Hx]%Hin; [done|]. by apply (sw_deleted_ids s Hwf).
  - intros x [->|Hx]%Hin; [done|]. by apply (sw_deleted_addrs s Hwf).
Qed.

Lemma storage_wf_remove s l1 e0 l2 :
  storage_wf s -> events s = l1 ++ e0 :: l2 ->
  storage_wf (set_events s (l1 ++ l2)) /\ e0 ∉ l1 ++ l2.
Proof.
  intros Hwf Heq. pose proof (sw_ids s Hwf) as Hd.
  assert (Hp : events s ≡ₚ e0 :: l1 ++ l2) by by rewrite Heq, Permutation_middle.
  assert (Hsub : forall x, x ∈ l1 ++ l2 -> x ∈ events s).
  { intros x Hx. rewrite Hp. by right. }
  apply (distinct_ids_Permutation _ _ Hp) in Hd. unfold distinct_ids in Hd.
  rewrite fmap_cons, NoDup_cons in Hd. destruct Hd as [Hnot Hd]. split.
  - constructor; cbn [events set_events]; [done|..]; intros.
    + apply (sw_addresses s Hwf); auto.
    + apply (sw_ephemeral s Hwf); auto.
    + apply (sw_deleted_ids s Hwf); auto.
    + apply (sw_deleted_addrs s Hwf); auto.
  - intros Hin. apply Hnot. by apply list_elem_of_fmap_2.
Qed.

Lemma has_address_spec e : has_address e = true <-> address e <> "".
Proof. rewrite address_empty. by destruct (has_address e). Qed.

Lemma kind5_no_address e : ev_Kind e = 5 -> address e = "".
Proof. intros Hk. apply address_empty. unfold has_address. by rewrite kind5_regular. Qed.

Lemma store_outcome_wf s e s' b : storage_wf s -> store_outcome s e s' b -> storage_wf s'.
Proof.
  intros Hwf Hout. destruct Hout as
    [|Hadm Ht|e0 Hadm|l1 e0 l2 Hadm Ha Heq Hae Hl1 Hlt|Hadm Hk Hdel|Hadm Hk Hdel|Hadm Hk Ht Haddr];
    try done.
  - destruct Hadm as (Hdi & Hda & Hid).
    destruct (storage_wf_remove s l1 e0 l2 Hwf Heq) as [Hwf' Hnot].
    assert (He0 : e0 ∈ events s) by (rewrite Heq; set_solver).
    change (set_events s (l1 ++ e :: l2)) with (set_events (set_events s (l1 ++ l2)) (l1 ++ e :: l2)).
    apply (storage_wf_add _ e); auto.
    + cbn. by rewrite Permutation_middle.
    + cbn. intros x Hx. apply Hid. rewrite Heq. set_solver.
    + cbn. intros Hne x Hx Hxa. assert (x = e0) as ->; [|done].
      apply (sw_addresses s Hwf); [rewrite Heq; set_solver|done|by rewrite Hxa|congruence].
    + intros Heph. unfold has_address in Ha. by rewrite Heph in Ha.
  - by apply processKind5_wf.
  - destruct Hadm as (_ & _ & Hid). apply (storage_wf_add _ e); auto.
    + by apply processKind5_wf.
    + by rewrite Permutation_app_comm.
    + intros x Hx. apply processKind5_sublist in Hx. auto.
    + by rewrite kind5_no_address.
    + by rewrite kind5_regular.
    + intros [Hne _]. by rewrite kind5_no_address in Hne.
  - destruct Hadm as (Hdi & Hda & Hid). apply (storage_wf_add _ e); auto.
    + by rewrite Permutation_app_comm.
    + rewrite <-has_address_spec. auto.
Qed.

(** The state after a sequence of calls to [Store] on a fresh storage, with any
    events: the states a storage goes through. *)
Definition run (calls : list (option Event)) : InMemoryStorage :=
  fold_left (fun s e => (Store s e).1) calls NewInMemoryStorage.

Lemma Store_wf s e : storage_wf s -> storage_wf (Store s e).1.
Proof.
  intros Hwf. destruct e as [e|]; [|done]. unfold Store.
  pose proof (store_event_outcome s e) as Hout.
  destruct (store_event s e) as [s' b]. by eapply store_outcome_wf.
Qed.

Lemma new_storage_wf : storage_wf NewInMemoryStorage.
Proof. constructor; cbn; try set_solver. constructor. Qed.

Lemma run_snoc calls e : run (calls ++ [e]) = (Store (run calls) e).1.
Proof. unfold run. by rewrite fold_left_app. Qed.

Lemma run_wf calls : storage_wf (run calls).
Proof.
  induction calls as [|e calls IH] using rev_ind; [apply new_storage_wf|].
  rewrite run_snoc. by apply Store_wf.
Qed.

(** ** Deletion requests *)

(** Once a tag of the request has been processed, the record it writes stays
    until the end of the loop: all tags of a request write the same record. *)
Lemma kind5_tag_id_record ev s t id :
  let rec := mkDeletionRecord (ev_Pubkey ev) (ev_CreatedAt ev) in
  deletedIDs s !! id = Some rec -> deletedIDs (kind5_tag ev s t) !! id = Some rec.
Proof.
  intros rec H. unfold kind5_tag. case_match; [done|].
  case_match; [|by case_match]. cbn [deletedIDs]. rewrite lookup_insert. by case_decide.
Qed.

Lemma kind5_tag_addr_record ev s t a :
  let rec := mkDeletionRecord (ev_Pubkey ev) (ev_CreatedAt ev) in
  deletedAddrs s !! a = Some rec -> deletedAddrs (kind5_tag ev s t) !! a = Some rec.
Proof.
  intros rec H. unfold kind5_tag. case_match; [done|].
  case_match; [done|]. case_match; [|done]. cbn [deletedAddrs]. rewrite lookup_insert.
  by case_decide.
Qed.

(** What a property of the state established by one tag, and kept by the others,
    gives at the end of the loop. *)
Lemma processKind5_tag (P : InMemoryStorage -> Prop) ev s t :
  t ∈ tags ev -> (forall s, P (kind5_tag ev s t)) ->
  (forall s t', P s -> P (kind5_tag ev s t')) -> P (processKind5 s ev).
Proof.
  unfold processKind5. intros Hin Hset Hkeep.
  apply list_elem_of_split in Hin as (l1 & l2 & ->). rewrite fold_left_app. simpl.
  generalize (Hset (fold_left (kind5_tag ev) l1 s)).
  generalize (kind5_tag ev (fold_left (kind5_tag ev) l1 s) t). clear s.
  induction l2 as [|x l2 IH]; intros s Hs; simpl; auto.
Qed.

Lemma processKind5_id_record ev s id rest :
  ("e"%string :: id :: rest) ∈ tags ev ->
  deletedIDs (processKind5 s ev) !! id = Some (mkDeletionRecord (ev_Pubkey ev) (ev_CreatedAt ev)).
Proof.
  intros Hin. apply (processKind5_tag
    (fun s => deletedIDs s !! id = Some (mkDeletionRecord (ev_Pubkey ev) (ev_CreatedAt ev)))
    _ _ _ Hin).
  - intros s'. cbn. apply lookup_insert_eq.
  - intros. by apply kind5_tag_id_record.
Qed.

Lemma processKind5_addr_record ev s a rest :
  ("a"%string :: a :: rest) ∈ tags ev ->
  deletedAddrs (processKind5 s ev) !! a = Some (mkDeletionRecord (ev_Pubkey ev) (ev_CreatedAt ev)).
Proof.
  intros Hin. apply (processKind5_tag
    (fun s => deletedAddrs s !! a = Some (mkDeletionRecord (ev_Pubkey ev) (ev_CreatedAt ev)))
    _ _ _ Hin).
  - intros s'. cbn. apply lookup_insert_eq.
  - intros. by apply kind5_tag_addr_record.
Qed.

(** Events an "e" or an "a" tag removes are gone at the end. *)
Lemma processKind5_removes ev s t e :
  t ∈ tags ev -> (forall s, e ∉ events (kind5_tag ev s t)) -> e ∉ events (processKind5 s ev).
Proof.
  intros Hin Hrem. apply (processKind5_tag (fun s => e ∉ events s) _ _ _ Hin); [done|].
  intros s' t' Hs He. by apply kind5_tag_sublist in He.
Qed.

Lemma processKind5_removes_id ev s id rest e :
  ("e"%string :: id :: rest) ∈ tags ev ->
  ev_ID e = id -> ev_Pubkey e = ev_Pubkey ev -> ev_Kind e <> 5 ->
  e ∉ events (processKind5 s ev).
Proof.
  intros Hin Hid Hpk Hk. eapply processKind5_removes; [exact Hin|]. intros s'.
  cbn. rewrite DeleteFunc_elem, Hid, Hpk, !String.eqb_refl, (proj2 (Z.eqb_neq _ _) Hk).
  by intros [_ ?].
Qed.

Lemma processKind5_removes_addr ev s a rest e :
  ("a"%string :: a :: rest) ∈ tags ev ->
  address e = a -> ev_Pubkey e = ev_Pubkey ev ->
  After (ev_CreatedAt e) (ev_CreatedAt ev) = false ->
  e ∉ events (processKind5 s ev).
Proof.
  intros Hin Ha Hpk Haft. eapply processKind5_removes; [exact Hin|]. intros s'.
  cbn. rewrite DeleteFunc_elem, Ha, Hpk, !String.eqb_refl, Haft. by intros [_ ?].
Qed.

(** The state after a deletion request was accepted. *)
Lemma store_kind5 s k s' :
  ev_Kind k = 5 -> store_event s k = (s', true) ->
  deletedIDs s' = deletedIDs (processKind5 s k) /\
  deletedAddrs s' = deletedAddrs (processKind5 s k) /\
  (forall e, e ∈ events s' -> e = k \/ e ∈ events (processKind5 s k)).
Proof.
  intros Hk Heq. pose proof (store_event_outcome s k) as Hout. rewrite Heq in Hout. simpl in Hout.
  clear Heq. remember true as b eqn:Hb.
  destruct Hout as [| |e0 Hadm|l1 e0 l2 Hadm Ha|Hadm Hk5 Hdel|Hadm Hk5 Hdel|Hadm Hne]; try done.
  - apply has_address_spec in Ha. by rewrite kind5_no_address in Ha.
  - split_and!; auto.
  - split_and!; auto. cbn. intros e. rewrite elem_of_app, list_elem_of_singleton. tauto.
Qed.

Lemma store_event_rejected s e : ~ admissible s e -> store_event s e = (s, false).
Proof.
  intros Hn. pose proof (store_event_outcome s e) as Hout.
  destruct (store_event s e) as [s' b]. simpl in Hout. by destruct Hout.
Qed.

(** ** Storing a batch without deletion requests *)

Definition store_all (s : InMemoryStorage) (evs : list Event) : InMemoryStorage :=
  fold_left (fun s e => (Store s (Some e)).1) evs s.

(** An id names one event. *)
Definition ids_identify (evs : list Event) : Prop :=
  forall x y, x ∈ evs -> y ∈ evs -> ev_ID x = ev_ID y -> x = y.

(** The events a relay should end up holding out of a batch: the ephemeral ones
    are dropped, and of those that share an address only the first in query
    order (the newest, then the smallest id) is kept. *)
Definition kept (evs : list Event) (e : Event) : Prop :=
  e ∈ evs /\ eventType e <> EventTypeEphemeral /\
  (forall x, x ∈ evs -> has_address e = true -> address x = address e -> x = e \/ ev_lt e x).

Lemma Store_event_fst s e : (Store s (Some e)).1 = (store_event s e).1.
Proof. unfold Store. by destruct (store_event s e). Qed.

Lemma no_record_admissible s e :
  deletedIDs s = ∅ -> deletedAddrs s = ∅ -> (forall x, x ∈ events s -> ev_ID x <> ev_ID e) ->
  admissible s e.
Proof.
  intros H1 H2 H3. unfold admissible, id_deleted, addr_deleted, deletion_by.
  rewrite H1, H2, !lookup_empty. split_and!; auto. by intros (_ & ? & ? & _).
Qed.

Lemma store_event_no_kind5 s e :
  ev_Kind e <> 5 ->
  deletedIDs (store_event s e).1 = deletedIDs s /\
  deletedAddrs (store_event s e).1 = deletedAddrs s.
Proof.
  intros Hk. pose proof (store_event_outcome s e) as Hout.
  by destruct Hout.
Qed.

Lemma ev_lt_total a b : ev_ID a <> ev_ID b -> ev_lt a b \/ ev_lt b a.
Proof. intros Hne. destruct (total ev_le a b) as [H|H]; apply ev_le_ne_lt in H; auto. Qed.

Lemma ev_lt_asym a b : ev_lt a b -> ~ ev_lt b a.
Proof. intros H1 H2. apply (ev_lt_irrefl a). by etrans. Qed.

Lemma kept_ext evs evs' e : (forall x, x ∈ evs <-> x ∈ evs') -> kept evs e <-> kept evs' e.
Proof. unfold kept. intros H. setoid_rewrite H. done. Qed.

(** Keeping with one more event in the batch. *)
Lemma kept_snoc evs n e :
  kept (evs ++ [n]) e <->
  (e = n /\ eventType n <> EventTypeEphemeral /\
   (forall x, x ∈ evs -> has_address n = true -> address x = address n -> x = n \/ ev_lt n x)) \/
  (kept evs e /\ (has_address e = true -> address n = address e -> n = e \/ ev_lt e n)).
Proof.
  unfold kept. setoid_rewrite elem_of_app. setoid_rewrite list_elem_of_singleton. split.
  - intros ([He| ->] & Ht & Hx); [right|left]; split_and!; auto.
  - intros [(-> & Ht & Hx)|((He & Ht & Hx) & Hn)].
    + split_and!; auto. intros x [?| ->]; auto.
    + split_and!; auto. intros x [?| ->]; auto.
Qed.

(** The invariant of storing a batch: what is stored is what [kept] says, and
    every address seen has a stored event. *)
Record batch_inv (evs : list Event) (s : InMemoryStorage) : Prop := {
  bi_ids : deletedIDs s = ∅;
  bi_addrs : deletedAddrs s = ∅;
  bi_wf : storage_wf s;
  bi_kept : forall e, e ∈ events s <-> kept evs e;
  bi_cover : forall x, x ∈ evs -> has_address x = true ->
    exists m, m ∈ events s /\ address m = address x
}.

Lemma ephemeral_no_address e : eventType e = EventTypeEphemeral -> has_address e = false.
Proof. unfold has_address. by intros ->. Qed.

Lemma batch_unchanged evs s n :
  batch_inv evs s ->
  ~ kept (evs ++ [n]) n ->
  (forall e, kept evs e -> has_address e = true -> address n = address e -> n = e \/ ev_lt e n) ->
  (has_address n = true -> exists m, m ∈ events s /\ address m = address n) ->
  batch_inv (evs ++ [n]) s.
Proof.
  intros [H1 H2 H3 H4 H5] Hn He Hc. constructor; auto.
  - intros e. rewrite H4, kept_snoc. split; [auto|].
    intros [(-> & Ht & Hx)|[? _]]; [|done]. destruct Hn. apply kept_snoc. auto.
  - intros x [?|Hx]%elem_of_app Ha; [auto|]. apply list_elem_of_singleton in Hx as ->. auto.
Qed.

Lemma batch_replaced evs s n l1 e0 l2 :
  batch_inv evs s -> events s = l1 ++ e0 :: l2 -> address e0 = address n ->
  has_address n = true -> ev_lt n e0 -> storage_wf (set_events s (l1 ++ n :: l2)) ->
  batch_inv (evs ++ [n]) (set_events s (l1 ++ n :: l2)).
Proof.
  intros [H1 H2 H3 H4 H5] Heq Ha Hn Hlt Hwf.
  assert (He0 : e0 ∈ events s) by (rewrite Heq; set_solver).
  destruct (storage_wf_remove s l1 e0 l2 H3 Heq) as [_ Hnot].
  assert (Hin : forall e, e ∈ l1 ++ n :: l2 <-> e = n \/ (e ∈ events s /\ e <> e0)).
  { intros e. rewrite Heq. set_solver. }
  constructor; auto; cbn [events set_events].
  - intros e. rewrite Hin, kept_snoc, H4. split.
    + intros [->|[Hk Hne]]; [left|right].
      * split_and!; [done| |].
        { intros Heph. apply ephemeral_no_address in Heph. congruence. }
        intros x Hx _ Hxa. apply H4 in He0 as (_ & _ & Hmin).
        destruct (Hmin x Hx) as [->|Hlt']; [|congruence|by right|right; by etrans].
        apply has_address_spec. rewrite Ha. by apply has_address_spec.
      * split; [done|]. intros He Hae. destruct Hne. apply (sw_addresses s H3); auto.
        -- by apply H4.
        -- by apply has_address_spec.
        -- congruence.
    + intros [(-> & _)|[Hk Hx]]; [auto|right]. split; [done|]. intros ->.
      assert (has_address e0 = true) as Ha0.
      { apply has_address_spec. rewrite Ha. by apply has_address_spec. }
      destruct (Hx Ha0 (eq_sym Ha)) as [->|Hlt']; [by apply ev_lt_irrefl in Hlt|].
      by apply ev_lt_asym in Hlt.
  - intros x [Hx|Hx]%elem_of_app Hxa.
    + destruct (H5 x Hx Hxa) as (m & Hm & Hma).
      destruct (decide (m = e0)) as [->|Hne].
      * exists n. split; [apply Hin; auto|congruence].
      * exists m. split; [apply Hin; auto|done].
    + apply list_elem_of_singleton in Hx as ->. exists n. split; [apply Hin; auto|done].
Qed.

Lemma batch_again evs s n : n ∈ evs -> batch_inv evs s -> batch_inv (evs ++ [n]) s.
Proof.
  intros Hin [H1 H2 H3 H4 H5].
  assert (Hext : forall x, x ∈ evs <-> x ∈ evs ++ [n]) by set_solver.
  constructor; auto.
  - intros e. by rewrite H4, (kept_ext _ _ _ Hext).
  - intros x Hx. apply H5. by apply Hext.
Qed.

Lemma batch_kept_old evs s n e0 :
  batch_inv evs s -> admissible s n -> has_address n = true ->
  e0 ∈ events s -> address e0 = address n -> ~ ev_lt n e0 -> batch_inv (evs ++ [n]) s.
Proof.
  intros Hb (_ & _ & Hid) Hn He0 Ha Hnlt.
  assert (Hlt : ev_lt e0 n) by (destruct (ev_lt_total e0 n); auto; done).
  apply batch_unchanged; eauto.
  - intros (_ & _ & Hx). destruct (Hx e0) as [->|?]; auto.
    apply elem_of_app. left. by apply (bi_kept _ _ Hb) in He0 as [? _].
  - intros e He Hea Hne. right. assert (e = e0) as ->; [|done].
    apply (sw_addresses s (bi_wf _ _ Hb)); auto.
    + by apply (bi_kept _ _ Hb).
    + by apply has_address_spec.
    + congruence.
Qed.

Lemma batch_appended evs s n :
  batch_inv evs s -> eventType n <> EventTypeEphemeral ->
  (has_address n = true -> forall x, x ∈ events s -> address x <> address n) ->
  storage_wf (set_events s (events s ++ [n])) ->
  batch_inv (evs ++ [n]) (set_events s (events s ++ [n])).
Proof.
  intros [H1 H2 H3 H4 H5] Ht Hna Hwf. constructor; auto; cbn [events set_events].
  - intros e. rewrite kept_snoc, elem_of_app, list_elem_of_singleton, H4. split.
    + intros [Hk| ->]; [right|left].
      * split; [done|]. intros Hea Hae. apply H4 in Hk as Hin.
        destruct (Hna) with (x := e); auto.
        apply has_address_spec. rewrite Hae. by apply has_address_spec.
      * split_and!; auto. intros x Hx Hn Hxa. destruct (H5 x Hx) as (m & Hm & Hma).
        { apply has_address_spec. rewrite Hxa. by apply has_address_spec. }
        destruct (Hna Hn m Hm). congruence.
    + intros [(-> & _)|[? _]]; auto.
  - intros x [Hx|Hx]%elem_of_app Hxa.
    + destruct (H5 x Hx Hxa) as (m & ? & ?). exists m. rewrite elem_of_app. auto.
    + apply list_elem_of_singleton in Hx as ->. exists n. rewrite elem_of_app, list_elem_of_singleton.
      auto.
Qed.

Lemma batch_step evs s n :
  batch_inv evs s -> ids_identify (evs ++ [n]) -> ev_Kind n <> 5 ->
  batch_inv (evs ++ [n]) (store_event s n).1.
Proof.
  intros Hb Hids Hk. pose proof (store_event_outcome s n) as Hout.
  pose proof (store_outcome_wf s n _ _ (bi_wf _ _ Hb) Hout) as Hwf.
  revert Hwf. destruct Hout as
    [Hadm|Hadm Ht|e0 Hadm|l1 e0 l2 Hadm Ha Heq Hae Hl1 Hlt|Hadm Hk5 Hdel|Hadm Hk5 Hdel|Hadm Hk5 Ht Haddr];
    intros Hwf; try done.
  - destruct (decide (Exists (fun x => ev_ID x = ev_ID n) (events s))) as [Hex|Hnex].
    + apply Exists_exists in Hex as (x & Hx & Heq).
      assert (Hxe : x ∈ evs) by (by apply (bi_kept _ _ Hb) in Hx as [? _]).
      apply batch_again; [|done].
      rewrite <-(Hids x n); [done|set_solver..|done].
    + destruct Hadm. apply no_record_admissible; [apply Hb..|].
      intros x Hx Heq. apply Hnex, Exists_exists. eauto.
  - pose proof (ephemeral_no_address n Ht) as Hna. apply batch_unchanged; auto; try congruence.
    + by intros (_ & ? & _).
    + intros e _ He Hne. apply has_address_spec in He. rewrite <-Hne in He.
      apply has_address_spec in He. congruence.
  - by apply (batch_kept_old evs s n e0).
  - by eapply batch_replaced.
  - by apply batch_appended.
Qed.

Lemma store_all_batch_inv evs :
  ids_identify evs -> (forall e, e ∈ evs -> ev_Kind e <> 5) ->
  batch_inv evs (store_all NewInMemoryStorage evs).
Proof.
  induction evs as [|n evs IH] using rev_ind; intros Hids Hk.
  - constructor; cbn; try done; try set_solver.
    + apply new_storage_wf.
    + intros e. unfold kept. set_solver.
  - unfold store_all in *. rewrite fold_left_app. cbn [fold_left].
    rewrite Store_event_fst. apply batch_step; [|done|set_solver].
    apply IH; [|set_solver]. intros x y Hx Hy. apply Hids; set_solver.
Qed.

(** ** Deletion records over time *)

(** The record of a deletion by [pk] survives any event that is not a deletion
    request by another author. *)
Lemma deletion_by_same m k pk t : deletion_by (<[k := mkDeletionRecord pk t]> m) k pk =
  Some (mkDeletionRecord pk t).
Proof. rewrite deletion_by_insert. rewrite decide_True by done. by rewrite String.eqb_refl. Qed.

(** No tag of a deletion request in [l] by another author than [pk] names the
    event id [id]. *)
Definition only_by (pk id : string) (l : list Event) : Prop :=
  forall k rest, k ∈ l -> ev_Kind k = 5 -> ("e"%string :: id :: rest) ∈ tags k -> ev_Pubkey k = pk.

Lemma kind5_tag_keeps_deleted ev s t id pk :
  (forall rest, t = "e"%string :: id :: rest -> ev_Pubkey ev = pk) ->
  is_Some (deletion_by (deletedIDs s) id pk) ->
  is_Some (deletion_by (deletedIDs (kind5_tag ev s t)) id pk).
Proof.
  intros Hby Hdel. unfold kind5_tag. destruct t as [|n [|v rest]]; try done. cbn [length nth].
  case_match; [done|]. destruct (String.eqb_spec n "e") as [->|].
  - cbn [deletedIDs]. destruct (decide (v = id)) as [->|Hne].
    + rewrite <-(Hby rest) by done. rewrite deletion_by_same. eauto.
    + rewrite deletion_by_insert. by rewrite decide_False.
  - by case_match.
Qed.

Lemma processKind5_keeps_deleted ev s id pk :
  (forall rest, ("e"%string :: id :: rest) ∈ tags ev -> ev_Pubkey ev = pk) ->
  is_Some (deletion_by (deletedIDs s) id pk) ->
  is_Some (deletion_by (deletedIDs (processKind5 s ev)) id pk).
Proof.
  unfold processKind5. revert s. induction (tags ev) as [|t l IH]; intros s Hby Hdel; cbn; [done|].
  apply IH; [set_solver|]. apply kind5_tag_keeps_deleted; [|done].
  intros rest ->. eapply Hby. by left.
Qed.

Lemma store_event_keeps_deleted s e id pk :
  only_by pk id [e] ->
  is_Some (deletion_by (deletedIDs s) id pk) ->
  is_Some (deletion_by (deletedIDs (store_event s e).1) id pk).
Proof.
  intros Hby Hdel. destruct (decide (ev_Kind e = 5)) as [Hk|Hk].
  - pose proof (store_event_outcome s e) as Hout.
    assert (is_Some (deletion_by (deletedIDs (processKind5 s e)) id pk)).
    { apply processKind5_keeps_deleted; [|done]. intros rest Hin.
      apply (Hby e rest); set_solver. }
    by destruct Hout.
  - by rewrite (proj1 (store_event_no_kind5 s e Hk)).
Qed.

Lemma store_all_cons s e l : store_all s (e :: l) = store_all (store_event s e).1 l.
Proof. unfold store_all. cbn [fold_left]. by rewrite Store_event_fst. Qed.

Lemma store_all_keeps_deleted s l id pk :
  only_by pk id l -> is_Some (deletion_by (deletedIDs s) id pk) ->
  is_Some (deletion_by (deletedIDs (store_all s l)) id pk).
Proof.
  revert s. induction l as [|e l IH]; intros s Hby Hdel; [done|].
  rewrite store_all_cons. apply IH.
  - intros k rest Hin. apply (Hby k rest). by right.
  - apply store_event_keeps_deleted; [|done].
    intros k rest ->%list_elem_of_singleton. apply Hby. by left.
Qed.

Lemma store_all_wf s l : storage_wf s -> storage_wf (store_all s l).
Proof.
  revert s. induction l as [|e l IH]; intros s Hwf; [done|].
  rewrite store_all_cons, <-Store_event_fst. apply IH. by apply Store_wf.
Qed.

Lemma store_event_id_deleted s e : id_deleted s e -> store_event s e = (s, false).
Proof. intros H. apply store_event_rejected. by intros [Hn _]. Qed.

(** ** What Query promises *)

Record query_answer (stored : list Event) (filters : list ReqFilter) (l : list Event) : Prop := {
  (** newest first, ties by the smaller id, nothing twice *)
  qa_sorted : StronglySorted ev_lt l;
  (** only stored events that some filter matches *)
  qa_sound : forall e, e ∈ l -> e ∈ stored /\ exists f, f ∈ filters /\ matches f e;
  (** every such event, unless the limit is reached by events that come first *)
  qa_complete : forall e, e ∈ stored -> (exists f, f ∈ filters /\ matches f e) ->
    e ∈ l \/ (Z.of_nat (length l) = query_limit filters /\ forall x, x ∈ l -> ev_lt x e);
  (** never more than the limit of the first filter *)
  qa_limit : 0 <= query_limit filters -> Z.of_nat (length l) <= query_limit filters
}.

Lemma query_result_answer s filters :
  distinct_ids (events s) -> query_answer (events s) filters (query_result s filters).
Proof.
  intros Hd. unfold query_result, apply_limit.
  pose proof (SortFunc_Permutation (List.filter (matchesAny filters) (events s))) as Hp.
  set (S := SortFunc _) in *.
  assert (HS : StronglySorted ev_lt S).
  { apply StronglySorted_strict; [apply SortFunc_sorted|].
    eapply distinct_ids_Permutation; [symmetry; exact Hp|]. by apply distinct_ids_filter. }
  assert (Hin : forall e, e ∈ S <-> e ∈ events s /\ exists f, f ∈ filters /\ matches f e).
  { intros e. rewrite Hp, list_elem_of_In, List.filter_In, <-list_elem_of_In, matchesAny_spec. done. }
  destruct (Z.ltb_spec (query_limit filters) 0) as [Hl|Hl].
  { constructor; [done|by intros e ?%Hin| |lia]. intros e He Hf. left. by apply Hin. }
  set (n := Z.to_nat (query_limit filters)).
  assert (Hsplit : StronglySorted ev_lt (take n S ++ drop n S)) by by rewrite take_drop.
  apply StronglySorted_app in Hsplit as (Hcross & Hs1 & _).
  constructor; [done| | |].
  - intros e He. apply Hin. rewrite <-(take_drop n S). set_solver.
  - intros e He Hf. assert (e ∈ S) as HeS by by apply Hin.
    rewrite <-(take_drop n S) in HeS. apply elem_of_app in HeS as [?|Hdrop]; [auto|right].
    split; [|auto]. rewrite length_take. destruct (decide (length S <= n)%nat) as [Hle|].
    + rewrite drop_ge in Hdrop by done. by apply elem_of_nil in Hdrop.
    + lia.
  - intros _. rewrite length_take. lia.
Qed.

Lemma Query_answer s filters :
  distinct_ids (events s) -> exists l, Query s filters = Ok l /\ query_answer (events s) filters l.
Proof.
  intros Hd. rewrite Query_query_result by done. destruct filters as [|f fs]; cbn [length Nat.eqb].
  - exists []. split; [done|]. constructor; [constructor|set_solver..].
  - eexists. split; [done|]. by apply query_result_answer.
Qed.

Lemma Query_Permutation s s' filters :
  distinct_ids (events s) -> events s ≡ₚ events s' -> Query s filters = Query s' filters.
Proof.
  intros Hd Hp. rewrite !Query_query_result by eauto using distinct_ids_Permutation.
  case_match; [done|]. unfold query_result. do 2 f_equal.
  apply SortFunc_proper; [by apply distinct_ids_filter|by apply filter_Permutation].
Qed.

(** ** Properties *)

Module StorageExamples.
Definition ev (id pk : string) (at_ kind : Z) (ts : list Tag) : Event :=
  mkEvent id pk (time_Unix at_) kind (Some ts) "" "".
Definition note := ev "n1" "alice" 10 1 [].
Definition profile_old := ev "p1" "alice" 10 0 [].
Definition profile_new := ev "p2" "alice" 20 0 [].
Definition delete_note := ev "k1" "alice" 30 5 [["e"; "n1"]%string].
Definition delete_request := ev "k5" "alice" 40 5 [["e"; "k1"]%string].
Definition delete_profile := ev "k2" "alice" 15 5 [["a"; "0:alice:"]%string].
Definition delete_note_mallory := ev "k3" "mallory" 30 5 [["e"; "n1"]%string].
Definition delete_nothing := ev "k4" "alice" 30 5 [["a"; ""]%string].
End StorageExamples.

(** C32: whatever events are stored, in any order, the storage stays well-formed:
    no id stored twice, at most one event per address, no ephemeral event, no
    event (deletion requests apart) whose author has deleted it by id, and no
    event whose author has deleted its address at a time not before it. *)
Theorem Store_invariant (calls : list (option Event)) : storage_wf (run calls).
Proof. apply run_wf. Qed.

(** C31: Store does exactly one of seven things, according to what the storage
    holds: it reports false and changes nothing when the event was deleted, is
    there already, is ephemeral, or does not come before the stored event of its
    address; it reports true and replaces that event, appends the new one, or
    applies a deletion request and appends it (or does not append it when the
    request deletes itself).  It never fails, and a nil event changes nothing. *)
Theorem Store_outcome (s : InMemoryStorage) (e : Event) :
  (exists b, (Store s (Some e)).2 = Ok b /\ store_outcome s e (Store s (Some e)).1 b) /\
  Store s None = (s, Ok false).
Proof.
  split; [|done]. exists (store_event s e).2.
  rewrite Store_event_fst. split; [|apply store_event_outcome].
  unfold Store. by destruct (store_event s e).
Qed.

(** C30: after any sequence of stores, Query returns, without an error, a list in
    strict query order (newest first, ties by id), of stored events that some
    filter matches, at most as many as the first filter's limit, and complete:
    an event it leaves out comes after every event it returned, and then the
    limit is reached. *)
Theorem Query_spec (calls : list (option Event)) (filters : list ReqFilter) :
  exists l, Query (run calls) filters = Ok l /\ query_answer (events (run calls)) filters l.
Proof. apply Query_answer, sw_ids, run_wf. Qed.

(** Storing a batch without deletion requests leaves exactly the events that
    should be kept: those not ephemeral and, of the events that share an address,
    the newest (the smallest id on a tie). *)
Theorem Store_batch_kept (evs : list Event) :
  ids_identify evs -> (forall e, e ∈ evs -> ev_Kind e <> 5) ->
  forall e, e ∈ events (store_all NewInMemoryStorage evs) <-> kept evs e.
Proof. intros Hids Hk. apply bi_kept. by apply store_all_batch_inv. Qed.

Lemma Store_batch_kept_witness :
  StorageExamples.profile_new ∈
    events (store_all NewInMemoryStorage [StorageExamples.profile_new; StorageExamples.profile_old]) <->
  kept [StorageExamples.profile_new; StorageExamples.profile_old] StorageExamples.profile_new.
Proof.
  apply (Store_batch_kept [StorageExamples.profile_new; StorageExamples.profile_old]).
  - intros x y [->|[->|[]%elem_of_nil]%elem_of_cons]%elem_of_cons
      [->|[->|[]%elem_of_nil]%elem_of_cons]%elem_of_cons Heq; first [reflexivity | discriminate Heq].
  - intros x [->|[->|[]%elem_of_nil]%elem_of_cons]%elem_of_cons Heq; discriminate Heq.
Defined.

(** The order in which a batch without deletion requests arrives does not
    matter to clients: every query answers the same, event for event. *)
Theorem Store_order_irrelevant (evs evs' : list Event) (filters : list ReqFilter) :
  ids_identify evs -> (forall e, e ∈ evs -> ev_Kind e <> 5) ->
  (forall e, e ∈ evs <-> e ∈ evs') ->
  Query (store_all NewInMemoryStorage evs) filters = Query (store_all NewInMemoryStorage evs') filters.
Proof.
  intros Hids Hk Hin.
  assert (Hb : batch_inv evs (store_all NewInMemoryStorage evs)) by by apply store_all_batch_inv.
  assert (Hb' : batch_inv evs' (store_all NewInMemoryStorage evs')).
  { apply store_all_batch_inv.
    - intros x y Hx%Hin Hy%Hin. by apply Hids.
    - intros x Hx%Hin. auto. }
  apply Query_Permutation; [apply Hb|]. apply NoDup_Permutation.
  - apply distinct_ids_NoDup, Hb.
  - apply distinct_ids_NoDup, Hb'.
  - intros e. rewrite (bi_kept _ _ Hb), (bi_kept _ _ Hb'). by apply kept_ext.
Qed.

Lemma Store_order_irrelevant_witness :
  Query (store_all NewInMemoryStorage [StorageExamples.profile_new; StorageExamples.profile_old])
    [emptyFilter] =
  Query (store_all NewInMemoryStorage [StorageExamples.profile_old; StorageExamples.profile_new])
    [emptyFilter].
Proof.
  apply (Store_order_irrelevant [StorageExamples.profile_new; StorageExamples.profile_old]).
  - intros x y [->|[->|[]%elem_of_nil]%elem_of_cons]%elem_of_cons
      [->|[->|[]%elem_of_nil]%elem_of_cons]%elem_of_cons Heq; first [reflexivity | discriminate Heq].
  - intros x [->|[->|[]%elem_of_nil]%elem_of_cons]%elem_of_cons Heq; discriminate Heq.
  - intros e. rewrite !elem_of_cons. tauto.
Defined.

(** A deletion request leaves the stored deletion requests alone, unless it asks for
    the empty address. *)
Lemma processKind5_keeps_kind5 s k e :
  ev_Kind e = 5 -> (forall rest, ("a"%string :: ""%string :: rest) ∉ tags k) -> e ∈ events s -> e ∈ events (processKind5 s k).
Proof.
  intros Hk. unfold processKind5. revert s. induction (tags k) as [|t ts IH]; intros s Hno He; [done|]. cbn [fold_left].
  apply IH; [intros rest Hin; apply (Hno rest); by right|]. unfold kind5_tag.
  destruct t as [|x [|y rest]]; [done..|]. cbn [length Nat.ltb Nat.leb nth].
  destruct (String.eqb x "e"); [apply DeleteFunc_elem; by rewrite Hk|].
  destruct (String.eqb_spec x "a") as [->|]; [|done]. apply DeleteFunc_elem. split; [done|].
  rewrite kind5_no_address by done. destruct y; [|done]. exfalso. apply (Hno rest). by left.
Qed.

Lemma store_kind5_keeps_kind5 s k e : ev_Kind k = 5 ->
  ev_Kind e = 5 -> (forall rest, ("a"%string :: ""%string :: rest) ∉ tags k) -> e ∈ events s -> e ∈ events (Store s (Some k)).1.
Proof.
  intros Hk He Hno Hin. apply (processKind5_keeps_kind5 s k e) in Hno as Hin'; [|done..]. rewrite Store_event_fst.
  pose proof (store_event_outcome s k) as Hout. destruct (store_event s k) as [s' b]. cbn [fst snd] in *.
  destruct Hout as [| | |? ? ? ? Ha| | |]; try done; [by apply has_address_spec in Ha; rewrite kind5_no_address in Ha|..];
    apply elem_of_app; by left.
Qed.

(** C36: deleting by id is final among the author's own requests: once a deletion
    request naming an event's id, by the event's author, is accepted, storing the
    event again is refused, after any further stores in which no other author's
    deletion request names that id; and the event is not stored any more, unless it is
    a deletion request itself.  A deletion request that was stored stays: naming it
    has no effect on it, as long as the request has no "a" tag with an empty address. *)
Theorem deletion_by_id_final (calls : list (option Event)) (k e : Event) rest (later : list Event) :
  ev_Kind k = 5 -> ("e"%string :: ev_ID e :: rest) ∈ tags k ->
  ev_Pubkey k = ev_Pubkey e ->
  (Store (run calls) (Some k)).2 = Ok true ->
  only_by (ev_Pubkey e) (ev_ID e) later ->
  let s := store_all (Store (run calls) (Some k)).1 later in
  Store s (Some e) = (s, Ok false) /\
  (ev_Kind e <> 5 -> e ∉ events s) /\
  (ev_Kind e = 5 -> (forall rest, ("a"%string :: ""%string :: rest) ∉ tags k) -> e ∈ events (run calls) ->
    e ∈ events (Store (run calls) (Some k)).1).
Proof.
  intros Hk Hin Hpk Hst Hby s.
  assert (Hdel : id_deleted s e).
  { apply store_all_keeps_deleted; [done|]. rewrite Store_event_fst. revert Hst. unfold Store.
    destruct (store_event (run calls) k) as [s' b] eqn:Heq. cbn [fst snd]. intros [= ->].
    apply store_kind5 in Heq as (Hids & _ & _); [|done]. rewrite Hids.
    unfold deletion_by. rewrite (processKind5_id_record _ _ _ _ Hin). cbn [dr_Pubkey].
    rewrite Hpk, String.eqb_refl. eauto. }
  split_and!.
  - unfold Store. by rewrite store_event_id_deleted.
  - intros Hke Hes. assert (storage_wf s) as Hwf by by apply store_all_wf, Store_wf, run_wf.
    by apply (sw_deleted_ids s Hwf e).
  - intros Hke Hno. by apply store_kind5_keeps_kind5.
Qed.

Lemma deletion_by_id_final_witness :
  let s := store_all (Store (run [Some StorageExamples.note]) (Some StorageExamples.delete_note)).1
             [StorageExamples.profile_new] in
  StorageExamples.note ∉ events s /\ Store s (Some StorageExamples.note) = (s, Ok false) /\
  StorageExamples.delete_note ∈ events (Store (run [Some StorageExamples.delete_note]) (Some StorageExamples.delete_request)).1.
Proof.
  destruct (deletion_by_id_final [Some StorageExamples.note] StorageExamples.delete_note
           StorageExamples.note [] [StorageExamples.profile_new]) as (Hr & Hgone & _).
  - reflexivity.
  - by left.
  - reflexivity.
  - vm_compute. reflexivity.
  - intros k rest ->%list_elem_of_singleton Hk. discriminate Hk.
  - split; [by apply Hgone|]. split; [exact Hr|].
    apply (deletion_by_id_final [Some StorageExamples.delete_note] StorageExamples.delete_request
           StorageExamples.delete_note [] []); try reflexivity.
    + by left.
    + by intros k rest ?%elem_of_nil.
    + intros rest [Heq|?%elem_of_nil]%elem_of_cons; [discriminate Heq|done].
    + by left.
Defined.

(** Deleting by address reaches exactly as far as the deletion request's own
    time: once the request is accepted, the author's event at that address that
    is not newer than the request is not stored and storing it is refused, while
    a newer one that was stored before is still stored. *)
Theorem deletion_by_address_effective (calls : list (option Event)) (k e : Event) rest :
  ev_Kind k = 5 -> tags k = [("a"%string :: address e :: rest)] ->
  has_address e = true -> ev_Pubkey k = ev_Pubkey e ->
  (Store (run calls) (Some k)).2 = Ok true ->
  let s := (Store (run calls) (Some k)).1 in
  if After (ev_CreatedAt e) (ev_CreatedAt k)
  then e ∈ events (run calls) -> e ∈ events s
  else e ∉ events s /\ Store s (Some e) = (s, Ok false).
Proof.
  intros Hk Htag Ha Hpk Hst s. subst s. rewrite Store_event_fst. revert Hst. unfold Store.
  pose proof (Store_wf (run calls) (Some k) (run_wf calls)) as Hwf.
  rewrite Store_event_fst in Hwf.
  pose proof (store_event_outcome (run calls) k) as Hout.
  destruct (store_event (run calls) k) as [s' b] eqn:Heq. cbn [fst snd] in *. intros [= ->].
  assert (Hin : ("a"%string :: address e :: rest) ∈ tags k) by (rewrite Htag; by left).
  pose proof (store_kind5 _ _ _ Hk Heq) as (_ & Haddrs & Hsub).
  destruct (After (ev_CreatedAt e) (ev_CreatedAt k)) eqn:Haft.
  - intros He. assert (He' : e ∈ events (processKind5 (run calls) k)).
    { unfold processKind5. rewrite Htag. cbn. apply DeleteFunc_elem. split; [done|].
      by rewrite Haft, andb_false_r. }
    remember true as b eqn:Hb. destruct Hout; try done.
    + by destruct (kind5_no_address k Hk); apply has_address_spec in H0; destruct H0; apply kind5_no_address.
    + cbn. apply elem_of_app. by left.
  - assert (Hdel : addr_deleted s' e).
    { split; [by apply has_address_spec|]. rewrite Haddrs. unfold deletion_by.
      rewrite (processKind5_addr_record _ _ _ _ Hin). cbn [dr_Pubkey].
      rewrite Hpk, String.eqb_refl. eexists. split; [done|]. done. }
    split.
    + intros He. by apply (sw_deleted_addrs s' Hwf e).
    + rewrite store_event_rejected; [done|]. by intros (_ & Hn & _).
Qed.

Lemma deletion_by_address_effective_witness :
  let s := (Store (run [Some StorageExamples.profile_old]) (Some StorageExamples.delete_profile)).1 in
  StorageExamples.profile_old ∉ events s /\
  Store s (Some StorageExamples.profile_old) = (s, Ok false).
Proof.
  apply (deletion_by_address_effective [Some StorageExamples.profile_old]
           StorageExamples.delete_profile StorageExamples.profile_old []);
    vm_compute; reflexivity.
Defined.

(** A deletion record protects only until somebody else names the same id: an
    accepted deletion request by any other author that names the id of a regular
    event which is no longer stored makes the storage accept that event again,
    whether or not its author had deleted it before. *)
Theorem deletion_record_overwritten (s : InMemoryStorage) (k e : Event) rest s' :
  ev_Kind k = 5 -> tags k = [("e"%string :: ev_ID e :: rest)] ->
  ev_Pubkey k <> ev_Pubkey e -> ev_Kind e <> 5 -> eventType e = EventTypeRegular ->
  ev_ID k <> ev_ID e -> (forall x, x ∈ events s -> ev_ID x <> ev_ID e) ->
  Store s (Some k) = (s', Ok true) ->
  Store s' (Some e) = (set_events s' (events s' ++ [e]), Ok true).
Proof.
  intros Hk Htag Hpk Hke Ht Hne Hids. unfold Store at 1.
  destruct (store_event s k) as [s1 b] eqn:Heq. intros [= -> ->].
  apply store_kind5 in Heq as (Hdel & _ & Hsub); [|done].
  assert (Ha : has_address e = false) by (unfold has_address; by rewrite Ht).
  assert (Hadm : admissible s' e).
  { unfold admissible, id_deleted, addr_deleted. rewrite Hdel. unfold processKind5. rewrite Htag.
    cbn [fold_left]. change (kind5_tag k s ("e"%string :: ev_ID e :: rest)) with
      (mkInMemoryStorage (events (kind5_tag k s ("e"%string :: ev_ID e :: rest)))
         (<[ev_ID e := mkDeletionRecord (ev_Pubkey k) (ev_CreatedAt k)]> (deletedIDs s))
         (deletedAddrs s)). cbn [deletedIDs].
    rewrite deletion_by_insert, decide_True by done. cbn [dr_Pubkey].
    rewrite (proj2 (String.eqb_neq _ _) Hpk). split_and!.
    - by intros [? ?].
    - intros [H _]. apply has_address_spec in H. congruence.
    - intros x [->|Hx]%Hsub; [done|]. apply processKind5_sublist in Hx. auto. }
  pose proof (store_event_outcome s' e) as Hout. unfold Store.
  destruct (store_event s' e) as [s2 b2]. cbn [fst snd] in Hout.
  destruct Hout; try done; congruence.
Qed.

Lemma deletion_record_overwritten_witness :
  let s := run [Some StorageExamples.note; Some StorageExamples.delete_note] in
  let s' := (Store s (Some StorageExamples.delete_note_mallory)).1 in
  Store s (Some StorageExamples.note) = (s, Ok false) /\
  Store s' (Some StorageExamples.note) =
  (set_events s' (events s' ++ [StorageExamples.note]), Ok true).
Proof.
  split; [vm_compute; reflexivity|].
  apply (deletion_record_overwritten
    (run [Some StorageExamples.note; Some StorageExamples.delete_note])
    StorageExamples.delete_note_mallory StorageExamples.note []);
    [reflexivity|reflexivity|discriminate|discriminate|reflexivity|discriminate| |vm_compute; reflexivity].
  intros x Hx. vm_compute in Hx. apply list_elem_of_singleton in Hx as ->. discriminate.
Defined.

(** The empty address is the address of every regular event, so an accepted
    deletion request with a tag naming it removes every regular event of its
    author that is not newer than the request, earlier deletion requests
    included. *)
Theorem empty_address_deletes_regular (s s' : InMemoryStorage) (k e : Event) rest :
  ev_Kind k = 5 -> ("a"%string :: ""%string :: rest) ∈ tags k ->
  Store s (Some k) = (s', Ok true) ->
  e <> k -> ev_Pubkey e = ev_Pubkey k -> eventType e = EventTypeRegular ->
  After (ev_CreatedAt e) (ev_CreatedAt k) = false -> e ∉ events s'.
Proof.
  intros Hk Hin Heq Hne Hpk Ht Haft. revert Heq. unfold Store.
  destruct (store_event s k) as [s1 b] eqn:Heq. intros [= -> ->] He.
  apply store_kind5 in Heq as (_ & _ & Hsub); [|done]. apply Hsub in He as [?|He]; [done|].
  revert He. apply (processKind5_removes_addr k s "" rest e); try done.
  apply address_empty. unfold has_address. by rewrite Ht.
Qed.

Lemma empty_address_deletes_regular_witness :
  StorageExamples.note ∈ events (run [Some StorageExamples.note]) /\
  StorageExamples.note ∉
    events (Store (run [Some StorageExamples.note]) (Some StorageExamples.delete_nothing)).1.
Proof.
  split; [by left|].
  apply (empty_address_deletes_regular (run [Some StorageExamples.note]) _
           StorageExamples.delete_nothing StorageExamples.note []);
    [reflexivity|by left|vm_compute; reflexivity|discriminate|reflexivity..].
Defined.
