(* ===== verification/Message.v ===== *)
(** * Messages (message.go)

    The message unions exchanged with a client and their constructors; their JSON
    forms are in MessageJson.v.  A message is a record with a
    [Type] label and the fields of every variant, as in the code. *)

From S2P Require Import Prelude GoTime Event Filter.

(** ** Labels *)

Definition MsgTypeEvent : string := "EVENT".
Definition MsgTypeReq : string := "REQ".
Definition MsgTypeClose : string := "CLOSE".
Definition MsgTypeAuth : string := "AUTH".
Definition MsgTypeCount : string := "COUNT".
Definition MsgTypeOK : string := "OK".
Definition MsgTypeEOSE : string := "EOSE".
Definition MsgTypeClosed : string := "CLOSED".
Definition MsgTypeNotice : string := "NOTICE".

(** ** Client messages *)

(** The parser never puts a nil filter in [Filters]. *)
Record ClientMsg : Type := mkClientMsg {
  c_Type : string;
  c_Event : option Event;
  c_SubscriptionID : string;
  c_Filters : list ReqFilter
}.

Definition client_event (e : Event) : ClientMsg := mkClientMsg MsgTypeEvent (Some e) "" [].
Definition client_auth (e : Event) : ClientMsg := mkClientMsg MsgTypeAuth (Some e) "" [].
Definition client_req (sub : string) (fs : list ReqFilter) : ClientMsg :=
  mkClientMsg MsgTypeReq None sub fs.
Definition client_count (sub : string) (fs : list ReqFilter) : ClientMsg :=
  mkClientMsg MsgTypeCount None sub fs.
Definition client_close (sub : string) : ClientMsg := mkClientMsg MsgTypeClose None sub [].

(** [validateSubscriptionID]; [true] is the nil error. *)
Definition validateSubscriptionID (subID : string) : bool := negb (String.eqb subID "").

(** ** Server messages *)

Record ServerMsg : Type := mkServerMsg {
  s_Type : string;
  s_SubscriptionID : string;
  s_Event : option Event;
  s_EventID : string;
  s_Accepted : bool;
  s_Message : string;
  s_Count : Z;
  s_Approximate : option bool
}.

#[export] Instance ServerMsg_eq_dec : EqDecision ServerMsg.
Proof. solve_decision. Defined.

Definition NewServerEventMsg (subID : string) (event : option Event) : ServerMsg :=
  mkServerMsg MsgTypeEvent subID event "" false "" 0 None.

Definition NewServerOKMsg (eventID : string) (accepted : bool) (message : string) : ServerMsg :=
  mkServerMsg MsgTypeOK "" None eventID accepted message 0 None.

Definition NewServerEOSEMsg (subID : string) : ServerMsg :=
  mkServerMsg MsgTypeEOSE subID None "" false "" 0 None.

Definition NewServerClosedMsg (subID message : string) : ServerMsg :=
  mkServerMsg MsgTypeClosed subID None "" false message 0 None.

Definition NewServerNoticeMsg (message : string) : ServerMsg :=
  mkServerMsg MsgTypeNotice "" None "" false message 0 None.

Definition NewServerCountMsg (subID : string) (count : Z) (approximate : option bool) : ServerMsg :=
  mkServerMsg MsgTypeCount subID None "" false "" count approximate.

Definition NewServerAuthMsg (challenge : string) : ServerMsg :=
  mkServerMsg MsgTypeAuth "" None "" false challenge 0 None.

(** ** Messages about something *)

Definition is_ok_for (id : string) (m : ServerMsg) : bool :=
  String.eqb (s_Type m) MsgTypeOK && String.eqb (s_EventID m) id.
Definition is_count_for (sub : string) (m : ServerMsg) : bool :=
  String.eqb (s_Type m) MsgTypeCount && String.eqb (s_SubscriptionID m) sub.
Definition is_eose_for (sub : string) (m : ServerMsg) : bool :=
  String.eqb (s_Type m) MsgTypeEOSE && String.eqb (s_SubscriptionID m) sub.
Definition is_event_for (sub : string) (m : ServerMsg) : bool :=
  String.eqb (s_Type m) MsgTypeEvent && String.eqb (s_SubscriptionID m) sub.
Definition is_req_for (sub : string) (m : ServerMsg) : bool :=
  is_event_for sub m || is_eose_for sub m.
