(* ===== verification/Metrics.v ===== *)
(** * Metrics (metrics.go)

    Counters with labels, and the metrics of the relay and of the storage as
    records.  What is exported to Prometheus is the library's; here a counter is the
    number of times it has been incremented. *)

From S2P Require Import Prelude Text Event Message.

(** ** Counters *)

(** A counter with labels: the series that have been incremented. *)
Section Counters.
Context `{Countable L}.

Definition value (m : gmap L Z) (l : L) : Z := default 0 (m !! l).
Definition Inc (m : gmap L Z) (l : L) : gmap L Z := <[l := value m l + 1]> m.
Definition total (m : gmap L Z) : Z := map_sum id m.

Lemma total_Inc m l : total (Inc m l) = total m + 1.
Proof.
  unfold total, Inc, value. rewrite map_sum_insert. unfold at_key. destruct (m !! l); cbn; lia.
Qed.

Lemma value_Inc m l k : value (Inc m l) k = value m k + (if decide (k = l) then 1 else 0).
Proof.
  unfold value at 1, Inc. destruct (decide (k = l)) as [->|Hne]; [by rewrite lookup_insert_eq|].
  rewrite lookup_insert_ne by done. fold (value m k). lia.
Qed.
End Counters.
Arguments Inc : simpl never.
Arguments value : simpl never.

(** ** The relay

    [relayMetrics]; a histogram counts its observations. *)
Record relayMetrics : Type := mkRelayMetrics {
  ConnectionsCurrent : Z;
  ConnectionsTotal : Z;
  MessagesReceived : gmap string Z;
  MessagesSent : gmap string Z;
  EventsReceived : gmap (string * string) Z;
  WSParseErrors : gmap string Z;
  WSWriteErrors : gmap string Z;
  WSWriteDuration : Z;
  ReadStallsTotal : Z
}.

(** [newRelayMetrics]; [None] is the nil of a relay without a registry. *)
Definition newRelayMetrics (reg : bool) : option relayMetrics :=
  if reg then Some (mkRelayMetrics 0 0 ∅ ∅ ∅ ∅ ∅ 0 0) else None.

Definition add_connections (current started : Z) (m : relayMetrics) : relayMetrics :=
  let '(mkRelayMetrics cc ct mr ms er pe we wd rs) := m in
  mkRelayMetrics (cc + current) (ct + started) mr ms er pe we wd rs.

Definition inc_parse_error (reason : string) (m : relayMetrics) : relayMetrics :=
  let '(mkRelayMetrics cc ct mr ms er pe we wd rs) := m in mkRelayMetrics cc ct mr ms er (Inc pe reason) we wd rs.

Definition inc_write_error (reason : string) (m : relayMetrics) : relayMetrics :=
  let '(mkRelayMetrics cc ct mr ms er pe we wd rs) := m in mkRelayMetrics cc ct mr ms er pe (Inc we reason) wd rs.

Definition inc_sent (ty : string) (m : relayMetrics) : relayMetrics :=
  let '(mkRelayMetrics cc ct mr ms er pe we wd rs) := m in mkRelayMetrics cc ct mr (Inc ms ty) er pe we wd rs.

Definition observe_write (m : relayMetrics) : relayMetrics :=
  let '(mkRelayMetrics cc ct mr ms er pe we wd rs) := m in mkRelayMetrics cc ct mr ms er pe we (wd + 1) rs.

Definition add_stalls (n : nat) (m : relayMetrics) : relayMetrics :=
  let '(mkRelayMetrics cc ct mr ms er pe we wd rs) := m in
  mkRelayMetrics cc ct mr ms er pe we wd (rs + Z.of_nat n).

(** The counters of a message that passed. *)
Definition inc_received (msg : ClientMsg) (m : relayMetrics) : relayMetrics :=
  let '(mkRelayMetrics cc ct mr ms er pe we wd rs) := m in
  let er := if String.eqb (c_Type msg) MsgTypeEvent then
              match c_Event msg with Some e => Inc er (kindLabels (ev_Kind e)) | None => er end
            else er in
  mkRelayMetrics cc ct (Inc mr (c_Type msg)) ms er pe we wd rs.

(** ** The storage *)

(** The labels of [EventsStored]: kind, type, and whether it was stored. *)
Definition StoredLabels : Type := string * string * bool.

Record storageMetrics : Type := mkStorageMetrics {
  EventsStored : gmap StoredLabels Z;
  StoreErrors : Z;
  QueryErrors : Z;
  StoreDuration : Z;
  QueryDuration : Z
}.

Definition newStorageMetrics (reg : bool) : option storageMetrics :=
  if reg then Some (mkStorageMetrics ∅ 0 0 0 0) else None.

Definition observe_store (m : storageMetrics) : storageMetrics :=
  mkStorageMetrics (EventsStored m) (StoreErrors m) (QueryErrors m) (StoreDuration m + 1) (QueryDuration m).
Definition inc_store_errors (m : storageMetrics) : storageMetrics :=
  mkStorageMetrics (EventsStored m) (StoreErrors m + 1) (QueryErrors m) (StoreDuration m) (QueryDuration m).
Definition inc_stored (l : StoredLabels) (m : storageMetrics) : storageMetrics :=
  mkStorageMetrics (Inc (EventsStored m) l) (StoreErrors m) (QueryErrors m) (StoreDuration m) (QueryDuration m).
Definition inc_query_errors (m : storageMetrics) : storageMetrics :=
  mkStorageMetrics (EventsStored m) (StoreErrors m) (QueryErrors m + 1) (StoreDuration m) (QueryDuration m).
Definition observe_query (m : storageMetrics) : storageMetrics :=
  mkStorageMetrics (EventsStored m) (StoreErrors m) (QueryErrors m) (StoreDuration m) (QueryDuration m + 1).
