(* ===== verification/Registry.v ===== *)
(** * Registering metrics (metrics.go)

    The names, kinds and labels of the metrics of every component, and what happens
    when the components are built with one registry.  The registry is Prometheus's:
    a parameter, of which only the documented law is used that a collector whose
    name is taken is refused. *)

From S2P Require Import Prelude.

(** ** Collectors *)

Inductive MetricKind : Type := Counter | Gauge | CounterVec (labels : list string) | Histogram.

Record Collector : Type := mkCollector { co_Name : string; co_Kind : MetricKind }.

(** [prometheus.Registerer]. *)
Class RegistererOps (R : Type) : Type := { Register : R -> Collector -> option R }.

Class RegistererLaws (R : Type) `{RegistererOps R} : Type := {
  names : R -> gset string;
  law_Register : forall r c, match Register r c with
    | Some r' => co_Name c ∉ names r /\ names r' = {[co_Name c]} ∪ names r
    | None => co_Name c ∈ names r
    end
}.

(** ** The components of metrics.go *)

Inductive Component : Type := RelayC | RouterC | AuthC | RejectionC | StorageC | CompositeStorageC | MergeHandlerC.

#[export] Instance Component_eq_dec : EqDecision Component.
Proof. solve_decision. Defined.

Definition relay_collectors : list Collector :=
  [mkCollector "mocrelay_connections_current" Gauge;
   mkCollector "mocrelay_connections_total" Counter;
   mkCollector "mocrelay_messages_received_total" (CounterVec ["type"%string]);
   mkCollector "mocrelay_messages_sent_total" (CounterVec ["type"%string]);
   mkCollector "mocrelay_events_received_total" (CounterVec ["kind"; "type"]%string);
   mkCollector "mocrelay_ws_parse_errors_total" (CounterVec ["reason"%string]);
   mkCollector "mocrelay_ws_write_errors_total" (CounterVec ["reason"%string]);
   mkCollector "mocrelay_ws_write_duration_seconds" Histogram;
   mkCollector "mocrelay_read_stalls_total" Counter].

Definition router_collectors : list Collector :=
  [mkCollector "mocrelay_router_messages_dropped_total" Counter;
   mkCollector "mocrelay_router_subscriptions_current" Gauge].

Definition auth_collectors : list Collector :=
  [mkCollector "mocrelay_auth_total" (CounterVec ["result"%string]);
   mkCollector "mocrelay_auth_authenticated_connections_current" Gauge].

Definition rejection_collectors : list Collector :=
  [mkCollector "mocrelay_rejections_total" (CounterVec ["middleware"; "reason"]%string)].

Definition storage_collectors : list Collector :=
  [mkCollector "mocrelay_events_stored_total" (CounterVec ["kind"; "type"; "stored"]%string);
   mkCollector "mocrelay_store_duration_seconds" Histogram;
   mkCollector "mocrelay_query_duration_seconds" Histogram;
   mkCollector "mocrelay_store_errors_total" Counter;
   mkCollector "mocrelay_query_errors_total" Counter].

Definition composite_collectors : list Collector :=
  [mkCollector "mocrelay_search_total" Counter;
   mkCollector "mocrelay_search_errors_total" Counter;
   mkCollector "mocrelay_index_total" Counter;
   mkCollector "mocrelay_index_errors_total" Counter].

Definition merge_collectors : list Collector :=
  [mkCollector "mocrelay_merge_lost_children_total" Counter;
   mkCollector "mocrelay_merge_broadcast_timeouts_total" Counter;
   mkCollector "mocrelay_merge_event_drops_total" (CounterVec ["reason"%string])].

Definition collectors (c : Component) : list Collector :=
  match c with
  | RelayC => relay_collectors
  | RouterC => router_collectors
  | AuthC => auth_collectors
  | RejectionC => rejection_collectors
  | StorageC => storage_collectors
  | CompositeStorageC => composite_collectors
  | MergeHandlerC => merge_collectors
  end.

Definition collector_names (c : Component) : gset string := list_to_set (co_Name <$> collectors c).

(** ** Construction *)

Section Construction.
Context {R : Type} `{RegistererOps R}.

(** [MustRegister]: one after the other, a refused one is a panic. *)
Fixpoint MustRegister (r : R) (cs : list Collector) : Res R :=
  match cs with
  | [] => Ok r
  | c :: cs =>
      match Register r c with
      | Some r => MustRegister r cs
      | None => Panic ("duplicate metrics collector registration attempted: " +:+ co_Name c)
      end
  end.

(** [newRelayMetrics] and the other six constructors, as far as the registry goes:
    whether there are metrics, and the registry. *)
Definition new_metrics (reg : option R) (c : Component) : Res (bool * option R) :=
  match reg with
  | None => Ok (false, None)
  | Some r => r ← MustRegister r (collectors c); Ok (true, Some r)
  end.

(** Components built one after the other with the same registry. *)
Fixpoint build_all (reg : option R) (cs : list Component) : Res (option R) :=
  match cs with
  | [] => Ok reg
  | c :: cs => '(_, reg) ← new_metrics reg c; build_all reg cs
  end.

Context `{!RegistererLaws R}.

Lemma MustRegister_fresh cs : forall r, NoDup (co_Name <$> cs) -> (forall c, c ∈ cs -> co_Name c ∉ names r) ->
  exists r', MustRegister r cs = Ok r' /\ names r' = names r ∪ list_to_set (co_Name <$> cs).
Proof.
  induction cs as [|c cs IH]; intros r Hnd Hfresh; cbn [MustRegister].
  { exists r. split; [done|]. cbn. set_solver. }
  apply NoDup_cons in Hnd as [Hc Hnd]. pose proof (law_Register r c) as Hl. destruct (Register r c) as [r1|].
  - destruct Hl as [_ Hn]. destruct (IH r1 Hnd) as (r2 & Hr2 & Hn2).
    + intros c' Hc'. rewrite Hn, not_elem_of_union, not_elem_of_singleton. split; [|apply Hfresh; by right].
      intros Heq. apply Hc. apply list_elem_of_fmap. by exists c'.
    + exists r2. split; [done|]. rewrite Hn2, Hn. cbn. set_solver.
  - destruct (Hfresh c); [by left|done].
Qed.

Lemma MustRegister_taken cs c : forall r, c ∈ cs -> co_Name c ∈ names r -> is_ok (MustRegister r cs) = false.
Proof.
  induction cs as [|c' cs IH]; intros r Hin Hname; [by apply elem_of_nil in Hin|]. cbn [MustRegister].
  pose proof (law_Register r c') as Hl. destruct (Register r c') as [r1|]; [|done]. destruct Hl as [Hfree Hn].
  apply elem_of_cons in Hin as [->|Hin]; [done|]. apply IH; [done|]. rewrite Hn. set_solver.
Qed.
End Construction.

(** ** The names are distinct *)

Definition mentions (l : list string) (x : string) : bool := existsb (String.eqb x) l.

Lemma mentions_spec l x : mentions l x = true <-> x ∈ l.
Proof.
  unfold mentions. rewrite existsb_exists. split.
  - intros (y & Hy%list_elem_of_In & ->%String.eqb_eq). done.
  - intros Hx. exists x. split; [by apply list_elem_of_In|apply String.eqb_refl].
Qed.

Fixpoint distinct (l : list string) : bool :=
  match l with [] => true | x :: l => negb (mentions l x) && distinct l end.

Lemma distinct_NoDup l : distinct l = true -> NoDup l.
Proof.
  induction l as [|x l IH]; cbn; [constructor|]. intros [Hx Hl]%andb_true_iff. constructor; [|by apply IH].
  rewrite <-mentions_spec. by destruct (mentions l x).
Qed.

Lemma collector_names_NoDup c : NoDup (co_Name <$> collectors c).
Proof. apply distinct_NoDup. by destruct c. Qed.

Lemma names_disjoint c c' : c <> c' -> collector_names c ## collector_names c'.
Proof.
  intros Hne x. unfold collector_names. rewrite !elem_of_list_to_set. intros Hx Hx'.
  assert (Hd : distinct ((co_Name <$> collectors c) ++ (co_Name <$> collectors c')) = true) by (by destruct c, c').
  apply distinct_NoDup, NoDup_app in Hd as (_ & Hd & _). by apply (Hd x).
Qed.

Lemma names_nonempty c : exists x, x ∈ collectors c.
Proof. destruct c; eexists; by left. Qed.

Lemma collector_name_in c x : x ∈ collectors c -> co_Name x ∈ collector_names c.
Proof. intros Hx. apply elem_of_list_to_set, list_elem_of_fmap. by exists x. Qed.

Lemma names_only c c' x : x ∈ collectors c -> co_Name x ∈ collector_names c' -> c = c'.
Proof.
  intros Hx%collector_name_in Hx'. destruct (decide (c = c')) as [|Hne]; [done|]. by destruct (names_disjoint c c' Hne (co_Name x)).
Qed.

Section Building.
Context {R : Type} `{RegistererLaws R}.

(** Which components a registry has. *)
Definition holds (r : R) (built : list Component) : Prop :=
  forall c, (c ∈ built -> collector_names c ⊆ names r) /\ (c ∉ built -> collector_names c ## names r).

Lemma build_one r built c : holds r built ->
  (c ∉ built -> exists r', MustRegister r (collectors c) = Ok r' /\ holds r' (c :: built)) /\
  (c ∈ built -> is_ok (MustRegister r (collectors c)) = false).
Proof.
  intros Hh. split; intros Hc.
  - destruct (MustRegister_fresh (collectors c) r (collector_names_NoDup c)) as (r' & Hr' & Hn).
    { intros x Hx Hin. destruct (Hh c) as [_ Hd]. by apply (Hd Hc (co_Name x)); [apply collector_name_in|]. }
    exists r'. split; [done|]. intros c'. rewrite Hn. fold (collector_names c). destruct (Hh c') as [H1 H2]. split.
    + intros [->|Hc']%elem_of_cons; [set_solver|]. specialize (H1 Hc'). set_solver.
    + intros Hc'%not_elem_of_cons. destruct Hc' as [Hne Hc']. specialize (H2 Hc'). pose proof (names_disjoint c' c Hne). set_solver.
  - destruct (names_nonempty c) as [x Hx]. apply (MustRegister_taken _ x); [done|]. destruct (Hh c) as [H1 _].
    by apply (H1 Hc), collector_name_in.
Qed.

Lemma build_all_spec cs : forall r built, holds r built -> NoDup built ->
  is_ok (build_all (Some r) cs) = true <-> NoDup (rev_append cs built).
Proof.
  induction cs as [|c cs IH]; intros r built Hh Hnd; cbn [build_all rev_append]; [by cbn|].
  destruct (build_one r built c Hh) as [H1 H2]. cbn [new_metrics]. destruct (decide (c ∈ built)) as [Hc|Hc].
  - specialize (H2 Hc). split.
    + intros Ho. exfalso. destruct (MustRegister r (collectors c)); done.
    + rewrite rev_append_rev. intros (_ & _ & Hn)%NoDup_app. apply NoDup_cons in Hn as [Hn _]. done.
  - destruct (H1 Hc) as (r' & -> & Hh'). cbn. apply IH; [done|by constructor].
Qed.
End Building.

(** ** Property *)

(** Components built with one registry that holds none of their names (and any
    names of others): building them panics exactly when a component of the same
    kind is built twice, since the names of different kinds are distinct; and
    without a registry it never does. *)
Theorem registering_panics_iff_repeated {R : Type} `{RegistererLaws R} (r : R) (cs : list Component) :
  (forall c, collector_names c ## names r) ->
  (is_ok (build_all (Some r) cs) = true <-> NoDup cs) /\ build_all (R := R) None cs = Ok None.
Proof.
  intros Hfree. split.
  - rewrite (build_all_spec cs r []); [|split; [by intros ?%elem_of_nil|done]|constructor].
    rewrite rev_append_rev, app_nil_r. split; intros Hn.
    + apply NoDup_ListNoDup, List.NoDup_rev in Hn. rewrite rev_involutive in Hn. by apply NoDup_ListNoDup.
    + apply NoDup_ListNoDup, List.NoDup_rev. by apply NoDup_ListNoDup.
  - induction cs as [|c cs IH]; [done|]. exact IH.
Qed.

(** A registry of names. *)
Module RegistryExamples.
#[export] Instance NameSet : RegistererOps (gset string) :=
  {| Register r c := if decide (co_Name c ∈ r) then None else Some ({[co_Name c]} ∪ r) |}.
#[export, refine] Instance NameSetLaws : RegistererLaws (gset string) := {| names r := r |}.
Proof. intros r c. cbn. by case_decide. Defined.
Definition go_names : gset string := {["go_goroutines"%string]}.
(** The components of a relay with composite storage, in the order they are built. *)
Definition kitchen_sink : list Component := [CompositeStorageC; StorageC; RouterC; RelayC; AuthC; RejectionC].
End RegistryExamples.
Import RegistryExamples.

Lemma registering_panics_iff_repeated_witness :
  (is_ok (build_all (Some RegistryExamples.go_names) RegistryExamples.kitchen_sink) = true <-> NoDup RegistryExamples.kitchen_sink) /\
  build_all (R := gset string) None RegistryExamples.kitchen_sink = Ok None.
Proof.
  apply (registering_panics_iff_repeated RegistryExamples.go_names RegistryExamples.kitchen_sink).
  intros c x Hx Hx'. cbn in Hx'. apply elem_of_singleton in Hx' as ->. apply elem_of_list_to_set, mentions_spec in Hx. by destruct c.
Defined.

(** Two merge handlers cannot share a registry. *)
Example two_merge_handlers : build_all (Some RegistryExamples.go_names) [MergeHandlerC; MergeHandlerC] =
  Panic "duplicate metrics collector registration attempted: mocrelay_merge_lost_children_total".
Proof. vm_compute. reflexivity. Qed.
