(* ===== verification/Merge.v ===== *)
(** * Merging responses (merge_handler.go, mergeSession)

    [mergeSession] merges what several child handlers answer into what one
    client sees.  The session is a record of maps, every method a function on
    it; the methods hold the session's mutex, so each is one transition.  The
    theorems are about sequences of method calls in any order. *)

From S2P Require Import Prelude GoTime Event Filter Message.

Definition MergeHandlerOKLostHandlerMessage : string :=
  "error: a downstream handler is unavailable, please retry".

(** ** State *)

Record pendingOK : Type := mkPendingOK {
  po_received : Z;
  po_accepted : bool;
  po_message : string;
  po_handlerResponded : list bool;
  po_hadHandlerLoss : bool
}.

Record pendingCount : Type := mkPendingCount {
  pc_received : Z;
  pc_maxCount : Z;
  pc_handlerResponded : list bool
}.

Record pendingEOSE : Type := mkPendingEOSE {
  pe_received : Z;
  pe_seenEventIDs : gset string;
  pe_lastCreatedAt : Z;
  pe_lastID : string;
  pe_hasSentEvent : bool;
  pe_limit : Z;
  pe_eventCount : Z;
  pe_eoseSent : bool;
  pe_handlerEOSESent : list bool
}.

(** [metrics] is the nil pointer or the reasons recorded so far. *)
Record mergeSession : Type := mkMergeSession {
  numHandlers : nat;
  pendingOKs : gmap string pendingOK;
  pendingEOSEs : gmap string pendingEOSE;
  pendingCounts : gmap string pendingCount;
  completedSubs : gset string;
  metrics : option (list string)
}.

Definition newMergeSession (numHandlers : nat) (metrics : option (list string)) : mergeSession :=
  mkMergeSession numHandlers ∅ ∅ ∅ ∅ metrics.

Definition set_pendingOKs (s : mergeSession) m : mergeSession :=
  mkMergeSession (numHandlers s) m (pendingEOSEs s) (pendingCounts s) (completedSubs s) (metrics s).
Definition set_pendingEOSEs (s : mergeSession) m : mergeSession :=
  mkMergeSession (numHandlers s) (pendingOKs s) m (pendingCounts s) (completedSubs s) (metrics s).
Definition set_pendingCounts (s : mergeSession) m : mergeSession :=
  mkMergeSession (numHandlers s) (pendingOKs s) (pendingEOSEs s) m (completedSubs s) (metrics s).
Definition set_completedSubs (s : mergeSession) m : mergeSession :=
  mkMergeSession (numHandlers s) (pendingOKs s) (pendingEOSEs s) (pendingCounts s) m (metrics s).

Definition recordEventDrop (s : mergeSession) (reason : string) : mergeSession :=
  mkMergeSession (numHandlers s) (pendingOKs s) (pendingEOSEs s) (pendingCounts s) (completedSubs s)
    (match metrics s with Some l => Some (l ++ [reason]) | None => None end).

(** ** Operations *)

Definition finalizeOKMsg (eventID : string) (p : pendingOK) : ServerMsg :=
  if po_hadHandlerLoss p then NewServerOKMsg eventID false MergeHandlerOKLostHandlerMessage
  else NewServerOKMsg eventID (po_accepted p) (po_message p).

Definition startEventResponse (s : mergeSession) (eventID : string) : mergeSession :=
  set_pendingOKs s
    (<[eventID := mkPendingOK 0 true "" (replicate (numHandlers s) false) false]> (pendingOKs s)).

Definition startCountResponse (s : mergeSession) (subID : string) : mergeSession :=
  set_pendingCounts s
    (<[subID := mkPendingCount 0 0 (replicate (numHandlers s) false)]> (pendingCounts s)).

Definition startReqResponse (s : mergeSession) (subID : string) (filters : list ReqFilter)
    : mergeSession :=
  let s := set_completedSubs s (completedSubs s ∖ {[subID]}) in
  let limit :=
    match filters with
    | f :: _ => match f_Limit f with Some l => l | None => 0 end
    | [] => 0
    end in
  set_pendingEOSEs s
    (<[subID := mkPendingEOSE 0 ∅ 0 "" false limit 0 false (replicate (numHandlers s) false)]>
       (pendingEOSEs s)).

Definition closeSubscription (s : mergeSession) (subID : string) : mergeSession :=
  let s := set_pendingEOSEs s (delete subID (pendingEOSEs s)) in
  let s := set_pendingCounts s (delete subID (pendingCounts s)) in
  set_completedSubs s (completedSubs s ∖ {[subID]}).

(** Reading [responded[handlerIndex]]; the slices have one entry per handler and
    the index is one of a handler. *)
Definition responded (l : list bool) (i : nat) : bool := default false (l !! i).

(** The bodies of the three loops of [handlerClosed].  [pending] is a pointer
    into the map, so its update is an update of the map. *)
Definition close_ok (handlerIndex : nat) (acc : mergeSession * list ServerMsg) (eventID : string)
    : mergeSession * list ServerMsg :=
  let '(s, results) := acc in
  match pendingOKs s !! eventID with
  | None => acc
  | Some pending =>
      if responded (po_handlerResponded pending) handlerIndex then acc
      else
        let pending := mkPendingOK (po_received pending + 1) (po_accepted pending)
          (po_message pending) (<[handlerIndex := true]> (po_handlerResponded pending)) true in
        if Z.of_nat (numHandlers s) <=? po_received pending then
          (set_pendingOKs s (delete eventID (pendingOKs s)),
           results ++ [finalizeOKMsg eventID pending])
        else (set_pendingOKs s (<[eventID := pending]> (pendingOKs s)), results)
  end.

Definition close_eose (handlerIndex : nat) (acc : mergeSession * list ServerMsg) (subID : string)
    : mergeSession * list ServerMsg :=
  let '(s, results) := acc in
  match pendingEOSEs s !! subID with
  | None => acc
  | Some p =>
      if pe_eoseSent p || responded (pe_handlerEOSESent p) handlerIndex then acc
      else
        let p := mkPendingEOSE (pe_received p + 1) (pe_seenEventIDs p) (pe_lastCreatedAt p)
          (pe_lastID p) (pe_hasSentEvent p) (pe_limit p) (pe_eventCount p) (pe_eoseSent p)
          (<[handlerIndex := true]> (pe_handlerEOSESent p)) in
        if Z.of_nat (numHandlers s) <=? pe_received p then
          (set_completedSubs (set_pendingEOSEs s (delete subID (pendingEOSEs s)))
             ({[subID]} ∪ completedSubs s),
           results ++ [NewServerEOSEMsg subID])
        else (set_pendingEOSEs s (<[subID := p]> (pendingEOSEs s)), results)
  end.

Definition close_count (handlerIndex : nat) (acc : mergeSession * list ServerMsg) (subID : string)
    : mergeSession * list ServerMsg :=
  let '(s, results) := acc in
  match pendingCounts s !! subID with
  | None => acc
  | Some pending =>
      if responded (pc_handlerResponded pending) handlerIndex then acc
      else
        let pending := mkPendingCount (pc_received pending + 1) (pc_maxCount pending)
          (<[handlerIndex := true]> (pc_handlerResponded pending)) in
        if Z.of_nat (numHandlers s) <=? pc_received pending then
          (set_pendingCounts s (delete subID (pendingCounts s)),
           results ++ [NewServerCountMsg subID (pc_maxCount pending) None])
        else (set_pendingCounts s (<[subID := pending]> (pendingCounts s)), results)
  end.

(** Go's [range] over a map visits the keys in an order that differs from one
    loop to the next; [o1], [o2] and [o3] are the orders of the three loops. *)
Definition handlerClosed (o1 o2 o3 : MapOrder) (s : mergeSession) (handlerIndex : nat)
    : mergeSession * list ServerMsg :=
  let acc := fold_left (close_ok handlerIndex) (map_range o1 (pendingOKs s)) (s, []) in
  let acc := fold_left (close_eose handlerIndex) (map_range o2 (pendingEOSEs s)) acc in
  fold_left (close_count handlerIndex) (map_range o3 (pendingCounts s)) acc.

(** The cases of [processResponse], by the type of the message. *)
Definition processOK (s : mergeSession) (msg : ServerMsg) (handlerIndex : nat)
    : mergeSession * list ServerMsg :=
  match pendingOKs s !! s_EventID msg with
  | None => (s, [])
  | Some p =>
      if responded (po_handlerResponded p) handlerIndex then (s, [])
      else
        let p := mkPendingOK (po_received p + 1)
          (if s_Accepted msg then po_accepted p else false)
          (if s_Accepted msg then po_message p else s_Message msg)
          (<[handlerIndex := true]> (po_handlerResponded p)) (po_hadHandlerLoss p) in
        if Z.of_nat (numHandlers s) <=? po_received p then
          (set_pendingOKs s (delete (s_EventID msg) (pendingOKs s)),
           [finalizeOKMsg (s_EventID msg) p])
        else (set_pendingOKs s (<[s_EventID msg := p]> (pendingOKs s)), [])
  end.

(** The two tests of the sort order check. *)
Definition out_of_order (p : pendingEOSE) (createdAt : Z) (id : string) : bool :=
  pe_hasSentEvent p &&
  ((pe_lastCreatedAt p <? createdAt) ||
   ((createdAt =? pe_lastCreatedAt p) && str_ltb id (pe_lastID p))).

Definition processEvent (s : mergeSession) (msg : ServerMsg) (event : Event) (handlerIndex : nat)
    : mergeSession * list ServerMsg :=
  let subID := s_SubscriptionID msg in
  let eventCreatedAt := Unix (ev_CreatedAt event) in
  let eventID := ev_ID event in
  if bool_decide (subID ∈ completedSubs s) then (s, [msg])
  else
  match pendingEOSEs s !! subID with
  | None => (s, [])
  | Some p =>
      if pe_eoseSent p then (recordEventDrop s "after_limit", [])
      else if responded (pe_handlerEOSESent p) handlerIndex then
        if bool_decide (eventID ∈ pe_seenEventIDs p) then (recordEventDrop s "duplicate", [])
        else
          let p := mkPendingEOSE (pe_received p) ({[eventID]} ∪ pe_seenEventIDs p)
            (pe_lastCreatedAt p) (pe_lastID p) (pe_hasSentEvent p) (pe_limit p) (pe_eventCount p)
            (pe_eoseSent p) (pe_handlerEOSESent p) in
          (set_pendingEOSEs s (<[subID := p]> (pendingEOSEs s)), [msg])
      else if bool_decide (eventID ∈ pe_seenEventIDs p) then (recordEventDrop s "duplicate", [])
      else if out_of_order p eventCreatedAt eventID then (recordEventDrop s "out_of_order", [])
      else
        let p := mkPendingEOSE (pe_received p) ({[eventID]} ∪ pe_seenEventIDs p)
          eventCreatedAt eventID true (pe_limit p) (pe_eventCount p + 1)
          (pe_eoseSent p) (pe_handlerEOSESent p) in
        if (0 <? pe_limit p) && (pe_limit p <=? pe_eventCount p) then
          (set_completedSubs (set_pendingEOSEs s (delete subID (pendingEOSEs s)))
             ({[subID]} ∪ completedSubs s),
           [msg; NewServerEOSEMsg subID])
        else (set_pendingEOSEs s (<[subID := p]> (pendingEOSEs s)), [msg])
  end.

Definition processEOSE (s : mergeSession) (msg : ServerMsg) (handlerIndex : nat)
    : mergeSession * list ServerMsg :=
  let subID := s_SubscriptionID msg in
  if bool_decide (subID ∈ completedSubs s) then (s, [])
  else
  match pendingEOSEs s !! subID with
  | None => (s, [])
  | Some p =>
      if pe_eoseSent p then (s, [])
      else if responded (pe_handlerEOSESent p) handlerIndex then (s, [])
      else
        let p := mkPendingEOSE (pe_received p + 1) (pe_seenEventIDs p) (pe_lastCreatedAt p)
          (pe_lastID p) (pe_hasSentEvent p) (pe_limit p) (pe_eventCount p) (pe_eoseSent p)
          (<[handlerIndex := true]> (pe_handlerEOSESent p)) in
        if Z.of_nat (numHandlers s) <=? pe_received p then
          (set_completedSubs (set_pendingEOSEs s (delete subID (pendingEOSEs s)))
             ({[subID]} ∪ completedSubs s),
           [NewServerEOSEMsg subID])
        else (set_pendingEOSEs s (<[subID := p]> (pendingEOSEs s)), [])
  end.

Definition processCount (s : mergeSession) (msg : ServerMsg) (handlerIndex : nat)
    : mergeSession * list ServerMsg :=
  let subID := s_SubscriptionID msg in
  match pendingCounts s !! subID with
  | None => (s, [])
  | Some p =>
      if responded (pc_handlerResponded p) handlerIndex then (s, [])
      else
        let p := mkPendingCount (pc_received p + 1)
          (if pc_maxCount p <? s_Count msg then s_Count msg else pc_maxCount p)
          (<[handlerIndex := true]> (pc_handlerResponded p)) in
        if Z.of_nat (numHandlers s) <=? pc_received p then
          (set_pendingCounts s (delete subID (pendingCounts s)),
           [NewServerCountMsg subID (pc_maxCount p) None])
        else (set_pendingCounts s (<[subID := p]> (pendingCounts s)), [])
  end.

(** [processResponse]; an EVENT message without an event is a nil dereference. *)
Definition processResponse (s : mergeSession) (msg : ServerMsg) (handlerIndex : nat)
    : Res (mergeSession * list ServerMsg) :=
  if String.eqb (s_Type msg) MsgTypeOK then Ok (processOK s msg handlerIndex)
  else if String.eqb (s_Type msg) MsgTypeEvent then
    match s_Event msg with
    | None => Panic "nil event"
    | Some event => Ok (processEvent s msg event handlerIndex)
    end
  else if String.eqb (s_Type msg) MsgTypeEOSE then Ok (processEOSE s msg handlerIndex)
  else if String.eqb (s_Type msg) MsgTypeCount then Ok (processCount s msg handlerIndex)
  else Ok (s, [msg]).

(** ** Sequences of method calls *)

Inductive op : Type :=
| StartEvent (eventID : string)
| StartReq (subID : string) (filters : list ReqFilter)
| StartCount (subID : string)
| CloseSub (subID : string)
| HandlerClosed (o1 o2 o3 : MapOrder) (i : nat)
| Response (i : nat) (msg : ServerMsg).

Definition do_op (s : mergeSession) (o : op) : Res (mergeSession * list ServerMsg) :=
  match o with
  | StartEvent id => Ok (startEventResponse s id, [])
  | StartReq sub fs => Ok (startReqResponse s sub fs, [])
  | StartCount sub => Ok (startCountResponse s sub, [])
  | CloseSub sub => Ok (closeSubscription s sub, [])
  | HandlerClosed o1 o2 o3 i => Ok (handlerClosed o1 o2 o3 s i)
  | Response i msg => processResponse s msg i
  end.

(** The messages a sequence of calls returns, in order. *)
Fixpoint do_ops (s : mergeSession) (ops : list op) : Res (mergeSession * list ServerMsg) :=
  match ops with
  | [] => Ok (s, [])
  | o :: ops =>
      '(s, out) ← do_op s o;
      '(s, outs) ← do_ops s ops;
      mret (s, out ++ outs)
  end.

(** The calls [ServeNostr] can make: handlers are numbered below [n], and EVENT
    messages carry an event. *)
Definition op_ok (n : nat) (o : op) : Prop :=
  match o with
  | HandlerClosed _ _ _ i => (i < n)%nat
  | Response i msg => (i < n)%nat /\ (s_Type msg = MsgTypeEvent -> s_Event msg <> None)
  | _ => True
  end.

#[export] Instance op_ok_dec n o : Decision (op_ok n o).
Proof. destruct o; simpl; apply _. Defined.

(** ** One subscription or event at a time

    What a call does to the entry of one event id (or subscription) depends on
    that entry alone, so each entry runs as a machine of its own: [ok_machine],
    [count_machine] and [req_machine] give the entry after a call and the
    messages about it the call returns. *)

Definition collect_ok (n : nat) (id : string) (i : nat) (entry : option pendingOK)
    (f : pendingOK -> pendingOK) : option pendingOK * list ServerMsg :=
  match entry with
  | None => (None, [])
  | Some p =>
      if responded (po_handlerResponded p) i then (Some p, [])
      else
        let p := f p in
        if Z.of_nat n <=? po_received p then (None, [finalizeOKMsg id p]) else (Some p, [])
  end.

Definition ok_lost (i : nat) (p : pendingOK) : pendingOK :=
  mkPendingOK (po_received p + 1) (po_accepted p) (po_message p)
    (<[i := true]> (po_handlerResponded p)) true.

Definition ok_answer (i : nat) (msg : ServerMsg) (p : pendingOK) : pendingOK :=
  mkPendingOK (po_received p + 1) (if s_Accepted msg then po_accepted p else false)
    (if s_Accepted msg then po_message p else s_Message msg)
    (<[i := true]> (po_handlerResponded p)) (po_hadHandlerLoss p).

Definition ok_machine (n : nat) (id : string) (o : op) (entry : option pendingOK)
    : option pendingOK * list ServerMsg :=
  match o with
  | StartEvent id' =>
      if decide (id' = id) then (Some (mkPendingOK 0 true "" (replicate n false) false), [])
      else (entry, [])
  | HandlerClosed _ _ _ i => collect_ok n id i entry (ok_lost i)
  | Response i msg =>
      if is_ok_for id msg then collect_ok n id i entry (ok_answer i msg) else (entry, [])
  | _ => (entry, [])
  end.

Definition collect_count (n : nat) (sub : string) (i : nat) (entry : option pendingCount)
    (f : Z -> Z) : option pendingCount * list ServerMsg :=
  match entry with
  | None => (None, [])
  | Some p =>
      if responded (pc_handlerResponded p) i then (Some p, [])
      else
        let p := mkPendingCount (pc_received p + 1) (f (pc_maxCount p))
          (<[i := true]> (pc_handlerResponded p)) in
        if Z.of_nat n <=? pc_received p then (None, [NewServerCountMsg sub (pc_maxCount p) None])
        else (Some p, [])
  end.

Definition count_answer (msg : ServerMsg) (m : Z) : Z := if m <? s_Count msg then s_Count msg else m.

Definition count_machine (n : nat) (sub : string) (o : op) (entry : option pendingCount)
    : option pendingCount * list ServerMsg :=
  match o with
  | StartCount sub' =>
      if decide (sub' = sub) then (Some (mkPendingCount 0 0 (replicate n false)), [])
      else (entry, [])
  | CloseSub sub' => if decide (sub' = sub) then (None, []) else (entry, [])
  | HandlerClosed _ _ _ i => collect_count n sub i entry id
  | Response i msg =>
      if is_count_for sub msg then collect_count n sub i entry (count_answer msg) else (entry, [])
  | _ => (entry, [])
  end.

(** A subscription: its pending entry, and whether its EOSE was sent. *)
Definition Sub : Type := option pendingEOSE * bool.

Definition sub_eose (n : nat) (sub : string) (i : nat) (st : Sub) : Sub * list ServerMsg :=
  match st.1 with
  | None => (st, [])
  | Some p =>
      if pe_eoseSent p || responded (pe_handlerEOSESent p) i then (st, [])
      else
        let p := mkPendingEOSE (pe_received p + 1) (pe_seenEventIDs p) (pe_lastCreatedAt p)
          (pe_lastID p) (pe_hasSentEvent p) (pe_limit p) (pe_eventCount p) (pe_eoseSent p)
          (<[i := true]> (pe_handlerEOSESent p)) in
        if Z.of_nat n <=? pe_received p then ((None, true), [NewServerEOSEMsg sub])
        else ((Some p, st.2), [])
  end.

Definition sub_event (sub : string) (i : nat) (msg : ServerMsg) (event : Event) (st : Sub)
    : Sub * list ServerMsg :=
  let t := Unix (ev_CreatedAt event) in
  let id := ev_ID event in
  if st.2 then (st, [msg])
  else
  match st.1 with
  | None => (st, [])
  | Some p =>
      if pe_eoseSent p then (st, [])
      else if bool_decide (id ∈ pe_seenEventIDs p) then (st, [])
      else if responded (pe_handlerEOSESent p) i then
        ((Some (mkPendingEOSE (pe_received p) ({[id]} ∪ pe_seenEventIDs p)
            (pe_lastCreatedAt p) (pe_lastID p) (pe_hasSentEvent p) (pe_limit p) (pe_eventCount p)
            (pe_eoseSent p) (pe_handlerEOSESent p)), false), [msg])
      else if out_of_order p t id then (st, [])
      else
        let p := mkPendingEOSE (pe_received p) ({[id]} ∪ pe_seenEventIDs p) t id true (pe_limit p)
          (pe_eventCount p + 1) (pe_eoseSent p) (pe_handlerEOSESent p) in
        if (0 <? pe_limit p) && (pe_limit p <=? pe_eventCount p)
        then ((None, true), [msg; NewServerEOSEMsg sub])
        else ((Some p, false), [msg])
  end.

(** The limit a REQ sets: 0 stands for none. *)
Definition req_limit (filters : list ReqFilter) : Z :=
  match filters with
  | f :: _ => match f_Limit f with Some l => l | None => 0 end
  | [] => 0
  end.

Definition fresh_sub (n : nat) (filters : list ReqFilter) : Sub :=
  (Some (mkPendingEOSE 0 ∅ 0 "" false (req_limit filters) 0 false (replicate n false)), false).

Definition sub_machine (n : nat) (sub : string) (o : op) (st : Sub) : Sub * list ServerMsg :=
  match o with
  | StartReq sub' fs => if decide (sub' = sub) then (fresh_sub n fs, []) else (st, [])
  | CloseSub sub' => if decide (sub' = sub) then ((None, false), []) else (st, [])
  | HandlerClosed _ _ _ i => sub_eose n sub i st
  | Response i msg =>
      if is_event_for sub msg then
        match s_Event msg with Some e => sub_event sub i msg e st | None => (st, []) end
      else if is_eose_for sub msg then if st.2 then (st, []) else sub_eose n sub i st
      else (st, [])
  | _ => (st, [])
  end.

Definition ok_view (id : string) (s : mergeSession) : option pendingOK := pendingOKs s !! id.
Definition count_view (sub : string) (s : mergeSession) : option pendingCount :=
  pendingCounts s !! sub.
Definition sub_view (sub : string) (s : mergeSession) : Sub :=
  (pendingEOSEs s !! sub, bool_decide (sub ∈ completedSubs s)).

(** A loop over map keys that treats each key by itself, seen from one key. *)
Section KeyedLoop.
Context {V : Type} (n : nat) (key : string) (view : mergeSession -> V) (about : ServerMsg -> bool).
Context (body : mergeSession * list ServerMsg -> string -> mergeSession * list ServerMsg).
Context (f : V -> V * list ServerMsg).

(** What every iteration preserves. *)
Context (body_n : forall acc k, numHandlers (body acc k).1 = numHandlers acc.1).
Context (body_other : forall acc k, k <> key ->
  view (body acc k).1 = view acc.1 /\
  List.filter about (body acc k).2 = List.filter about acc.2).

Lemma loop_n ks acc : numHandlers (fold_left body ks acc).1 = numHandlers acc.1.
Proof. revert acc. induction ks as [|k ks IH]; intros acc; simpl; [done|]. by rewrite IH. Qed.

Lemma loop_other ks acc : key ∉ ks ->
  view (fold_left body ks acc).1 = view acc.1 /\
  List.filter about (fold_left body ks acc).2 = List.filter about acc.2.
Proof.
  revert acc. induction ks as [|k ks IH]; intros acc Hks; simpl; [done|].
  destruct (body_other acc k) as [H1 H2]; [set_solver|].
  destruct (IH (body acc k)) as [H3 H4]; [set_solver|]. by rewrite H3, H4, H1, H2.
Qed.

Context (body_key : forall acc, numHandlers acc.1 = n ->
  view (body acc key).1 = (f (view acc.1)).1 /\
  List.filter about (body acc key).2 = List.filter about acc.2 ++ (f (view acc.1)).2).

Lemma loop_key ks acc : NoDup ks -> key ∈ ks -> numHandlers acc.1 = n ->
  view (fold_left body ks acc).1 = (f (view acc.1)).1 /\
  List.filter about (fold_left body ks acc).2 = List.filter about acc.2 ++ (f (view acc.1)).2.
Proof.
  intros Hnd (l1 & l2 & ->)%list_elem_of_split Hn.
  apply NoDup_app in Hnd as (Hnd1 & Hdis & (Hk & _)%NoDup_cons).
  rewrite fold_left_app. simpl.
  destruct (loop_other l1 acc) as [H1 H2]; [intros H; apply (Hdis key H); by left|].
  destruct (loop_other l2 (body (fold_left body l1 acc) key)) as [H3 H4]; [done|].
  destruct (body_key (fold_left body l1 acc)) as [H5 H6]; [by rewrite loop_n|].
  rewrite H3, H4, H5, H6, H1, H2. done.
Qed.
End KeyedLoop.

(** The messages the merger makes itself, seen by the [is_*_for] tests. *)
Lemma is_ok_finalize id k p : is_ok_for k (finalizeOKMsg id p) = String.eqb id k.
Proof. unfold finalizeOKMsg. by destruct (po_hadHandlerLoss p). Qed.
Lemma is_count_finalize id k p : is_count_for k (finalizeOKMsg id p) = false.
Proof. unfold finalizeOKMsg. by destruct (po_hadHandlerLoss p). Qed.
Lemma is_req_finalize id k p : is_req_for k (finalizeOKMsg id p) = false.
Proof. unfold finalizeOKMsg. by destruct (po_hadHandlerLoss p). Qed.
Lemma is_ok_eose k sub : is_ok_for k (NewServerEOSEMsg sub) = false.
Proof. done. Qed.
Lemma is_count_eose k sub : is_count_for k (NewServerEOSEMsg sub) = false.
Proof. done. Qed.
Lemma is_req_eose k sub : is_req_for k (NewServerEOSEMsg sub) = String.eqb sub k.
Proof. done. Qed.
Lemma is_ok_count k sub c a : is_ok_for k (NewServerCountMsg sub c a) = false.
Proof. done. Qed.
Lemma is_count_count k sub c a : is_count_for k (NewServerCountMsg sub c a) = String.eqb sub k.
Proof. done. Qed.
Lemma is_req_count k sub c a : is_req_for k (NewServerCountMsg sub c a) = false.
Proof. done. Qed.

#[global] Hint Rewrite is_ok_finalize is_count_finalize is_req_finalize is_ok_eose is_count_eose
  is_req_eose is_ok_count is_count_count is_req_count String.eqb_refl app_nil_r : merge.

Lemma eqb_neq a b : a <> b -> String.eqb a b = false.
Proof. by rewrite String.eqb_neq. Qed.

(** Evaluate the entry of one key, and the messages about it. *)
Ltac merge_simpl :=
  cbn [fst snd pendingOKs pendingEOSEs pendingCounts completedSubs numHandlers List.filter
       set_pendingOKs set_pendingEOSEs set_pendingCounts set_completedSubs recordEventDrop] in *;
  rewrite ?List.filter_app in *; cbn [List.filter] in *;
  autorewrite with merge in *.

Lemma close_ok_n i acc k : numHandlers (close_ok i acc k).1 = numHandlers acc.1.
Proof. destruct acc as [s r]. unfold close_ok. simpl. by repeat case_match. Qed.
Lemma close_eose_n i acc k : numHandlers (close_eose i acc k).1 = numHandlers acc.1.
Proof. destruct acc as [s r]. unfold close_eose. simpl. by repeat case_match. Qed.
Lemma close_count_n i acc k : numHandlers (close_count i acc k).1 = numHandlers acc.1.
Proof. destruct acc as [s r]. unfold close_count. simpl. by repeat case_match. Qed.

(** Each loop leaves alone what the other two are about. *)
Lemma close_ok_count i sub acc k :
  count_view sub (close_ok i acc k).1 = count_view sub acc.1 /\
  List.filter (is_count_for sub) (close_ok i acc k).2 = List.filter (is_count_for sub) acc.2.
Proof. destruct acc as [s r]. unfold close_ok. simpl. repeat case_match; merge_simpl; done. Qed.
Lemma close_ok_sub i sub acc k :
  sub_view sub (close_ok i acc k).1 = sub_view sub acc.1 /\
  List.filter (is_req_for sub) (close_ok i acc k).2 = List.filter (is_req_for sub) acc.2.
Proof. destruct acc as [s r]. unfold close_ok. simpl. repeat case_match; merge_simpl; done. Qed.
Lemma close_eose_ok i id acc k :
  ok_view id (close_eose i acc k).1 = ok_view id acc.1 /\
  List.filter (is_ok_for id) (close_eose i acc k).2 = List.filter (is_ok_for id) acc.2.
Proof. destruct acc as [s r]. unfold close_eose. simpl. repeat case_match; merge_simpl; done. Qed.
Lemma close_eose_count i sub acc k :
  count_view sub (close_eose i acc k).1 = count_view sub acc.1 /\
  List.filter (is_count_for sub) (close_eose i acc k).2 = List.filter (is_count_for sub) acc.2.
Proof. destruct acc as [s r]. unfold close_eose. simpl. repeat case_match; merge_simpl; done. Qed.
Lemma close_count_ok i id acc k :
  ok_view id (close_count i acc k).1 = ok_view id acc.1 /\
  List.filter (is_ok_for id) (close_count i acc k).2 = List.filter (is_ok_for id) acc.2.
Proof. destruct acc as [s r]. unfold close_count. simpl. repeat case_match; merge_simpl; done. Qed.
Lemma close_count_sub i sub acc k :
  sub_view sub (close_count i acc k).1 = sub_view sub acc.1 /\
  List.filter (is_req_for sub) (close_count i acc k).2 = List.filter (is_req_for sub) acc.2.
Proof. destruct acc as [s r]. unfold close_count. simpl. repeat case_match; merge_simpl; done. Qed.

(** Each iteration leaves the other keys alone. *)
Lemma close_ok_other i id acc k : k <> id ->
  ok_view id (close_ok i acc k).1 = ok_view id acc.1 /\
  List.filter (is_ok_for id) (close_ok i acc k).2 = List.filter (is_ok_for id) acc.2.
Proof.
  intros Hne. destruct acc as [s r]. unfold close_ok, ok_view. simpl.
  repeat case_match; merge_simpl; rewrite ?lookup_insert_ne, ?lookup_delete_ne, ?eqb_neq by done;
    by merge_simpl.
Qed.
Lemma close_count_other i sub acc k : k <> sub ->
  count_view sub (close_count i acc k).1 = count_view sub acc.1 /\
  List.filter (is_count_for sub) (close_count i acc k).2 = List.filter (is_count_for sub) acc.2.
Proof.
  intros Hne. destruct acc as [s r]. unfold close_count, count_view. simpl.
  repeat case_match; merge_simpl; rewrite ?lookup_insert_ne, ?lookup_delete_ne, ?eqb_neq by done;
    by merge_simpl.
Qed.
Lemma close_eose_other i sub acc k : k <> sub ->
  sub_view sub (close_eose i acc k).1 = sub_view sub acc.1 /\
  List.filter (is_req_for sub) (close_eose i acc k).2 = List.filter (is_req_for sub) acc.2.
Proof.
  intros Hne. destruct acc as [s r]. unfold close_eose, sub_view. simpl.
  repeat case_match; merge_simpl; rewrite ?lookup_insert_ne, ?lookup_delete_ne, ?eqb_neq by done;
    merge_simpl; try done.
  split; [|done]. f_equal. apply bool_decide_ext. set_solver.
Qed.

Lemma close_ok_key i id acc :
  ok_view id (close_ok i acc id).1 =
    (collect_ok (numHandlers acc.1) id i (ok_view id acc.1) (ok_lost i)).1 /\
  List.filter (is_ok_for id) (close_ok i acc id).2 =
    List.filter (is_ok_for id) acc.2 ++
    (collect_ok (numHandlers acc.1) id i (ok_view id acc.1) (ok_lost i)).2.
Proof.
  destruct acc as [s r]. unfold close_ok, ok_view, collect_ok. simpl.
  destruct (pendingOKs s !! id) as [p|] eqn:Hp; simpl; [|by rewrite Hp, app_nil_r].
  repeat case_match; merge_simpl; rewrite ?lookup_insert_eq, ?lookup_delete_eq; auto.
Qed.

Lemma close_count_key i sub acc :
  count_view sub (close_count i acc sub).1 =
    (collect_count (numHandlers acc.1) sub i (count_view sub acc.1) id).1 /\
  List.filter (is_count_for sub) (close_count i acc sub).2 =
    List.filter (is_count_for sub) acc.2 ++
    (collect_count (numHandlers acc.1) sub i (count_view sub acc.1) id).2.
Proof.
  destruct acc as [s r]. unfold close_count, count_view, collect_count. simpl.
  destruct (pendingCounts s !! sub) as [p|] eqn:Hp; simpl; [|by rewrite Hp, app_nil_r].
  repeat case_match; merge_simpl; rewrite ?lookup_insert_eq, ?lookup_delete_eq; auto.
Qed.

Lemma close_eose_key i sub acc :
  sub_view sub (close_eose i acc sub).1 =
    (sub_eose (numHandlers acc.1) sub i (sub_view sub acc.1)).1 /\
  List.filter (is_req_for sub) (close_eose i acc sub).2 =
    List.filter (is_req_for sub) acc.2 ++
    (sub_eose (numHandlers acc.1) sub i (sub_view sub acc.1)).2.
Proof.
  destruct acc as [s r]. unfold close_eose, sub_view, sub_eose. simpl.
  destruct (pendingEOSEs s !! sub) as [p|] eqn:Hp; simpl; [|by rewrite Hp, app_nil_r].
  repeat case_match; merge_simpl; rewrite ?lookup_insert_eq, ?lookup_delete_eq, ?Hp; auto.
  split; [|done]. f_equal. apply bool_decide_eq_true_2. set_solver.
Qed.

Lemma handlerClosed_n o1 o2 o3 s i : numHandlers (handlerClosed o1 o2 o3 s i).1 = numHandlers s.
Proof.
  unfold handlerClosed. cbv zeta.
  rewrite (loop_n _ (close_count_n i)), (loop_n _ (close_eose_n i)), (loop_n _ (close_ok_n i)).
  done.
Qed.

Lemma loop_frame {V} (view : mergeSession -> V) (about : ServerMsg -> bool)
    (body : mergeSession * list ServerMsg -> string -> mergeSession * list ServerMsg) ks acc :
  (forall acc k, view (body acc k).1 = view acc.1 /\
    List.filter about (body acc k).2 = List.filter about acc.2) ->
  view (fold_left body ks acc).1 = view acc.1 /\
  List.filter about (fold_left body ks acc).2 = List.filter about acc.2.
Proof.
  intros H. revert acc. induction ks as [|k ks IH]; intros acc; simpl; [done|].
  destruct (IH (body acc k)) as [-> ->]. apply H.
Qed.

Lemma handlerClosed_ok o1 o2 o3 s i id :
  ok_view id (handlerClosed o1 o2 o3 s i).1 =
    (collect_ok (numHandlers s) id i (ok_view id s) (ok_lost i)).1 /\
  List.filter (is_ok_for id) (handlerClosed o1 o2 o3 s i).2 =
    (collect_ok (numHandlers s) id i (ok_view id s) (ok_lost i)).2.
Proof.
  unfold handlerClosed. cbv zeta.
  set (a1 := fold_left (close_ok i) _ _).
  set (a2 := fold_left (close_eose i) _ _).
  destruct (loop_frame (ok_view id) (is_ok_for id) (close_count i)
    (map_range o3 (pendingCounts s)) a2 (close_count_ok i id)) as [-> ->].
  destruct (loop_frame (ok_view id) (is_ok_for id) (close_eose i)
    (map_range o2 (pendingEOSEs s)) a1 (close_eose_ok i id)) as [H1 H2].
  fold a2 in H1, H2. rewrite H1, H2.
  destruct (decide (id ∈ map_range o1 (pendingOKs s))) as [Hin|Hnin].
  - subst a1. apply (loop_key (numHandlers s) id (ok_view id) (is_ok_for id) (close_ok i)
      (fun v => collect_ok (numHandlers s) id i v (ok_lost i)));
      auto using close_ok_n, close_ok_other, map_range_NoDup.
    intros acc <-. apply close_ok_key.
  - destruct (loop_other id (ok_view id) (is_ok_for id) (close_ok i)
      (close_ok_n i) (close_ok_other i id) _ (s, []) Hnin) as [H3 H4].
    subst a1. rewrite H3, H4. rewrite elem_of_map_range in Hnin.
    apply eq_None_not_Some in Hnin. unfold ok_view. simpl. by rewrite Hnin.
Qed.

Lemma handlerClosed_count o1 o2 o3 s i sub :
  count_view sub (handlerClosed o1 o2 o3 s i).1 =
    (collect_count (numHandlers s) sub i (count_view sub s) id).1 /\
  List.filter (is_count_for sub) (handlerClosed o1 o2 o3 s i).2 =
    (collect_count (numHandlers s) sub i (count_view sub s) id).2.
Proof.
  unfold handlerClosed. cbv zeta.
  set (a1 := fold_left (close_ok i) _ _).
  set (a2 := fold_left (close_eose i) _ _).
  destruct (loop_frame (count_view sub) (is_count_for sub) (close_eose i)
    (map_range o2 (pendingEOSEs s)) a1 (close_eose_count i sub)) as [H1 H2].
  destruct (loop_frame (count_view sub) (is_count_for sub) (close_ok i)
    (map_range o1 (pendingOKs s)) (s, []) (close_ok_count i sub)) as [H3 H4].
  fold a1 in H3, H4. fold a2 in H1, H2. rewrite H3 in H1. rewrite H4 in H2. simpl in *.
  destruct (decide (sub ∈ map_range o3 (pendingCounts s))) as [Hin|Hnin].
  - rewrite <-H1. change (?x = _) with (x = [] ++ (collect_count (numHandlers s) sub i (count_view sub a2.1) id).2) at 2.
    rewrite <-H2.
    apply (loop_key (numHandlers s) sub (count_view sub) (is_count_for sub) (close_count i)
      (fun v => collect_count (numHandlers s) sub i v id));
      auto using close_count_n, close_count_other, map_range_NoDup.
    + intros acc <-. apply close_count_key.
    + subst a2 a1. by rewrite (loop_n _ (close_eose_n i)), (loop_n _ (close_ok_n i)).
  - destruct (loop_other sub (count_view sub) (is_count_for sub) (close_count i)
      (close_count_n i) (close_count_other i sub) _ a2 Hnin) as [H5 H6].
    rewrite H5, H6, H1, H2. rewrite elem_of_map_range in Hnin.
    apply eq_None_not_Some in Hnin. unfold count_view. simpl. by rewrite Hnin.
Qed.

Lemma handlerClosed_sub o1 o2 o3 s i sub :
  sub_view sub (handlerClosed o1 o2 o3 s i).1 = (sub_eose (numHandlers s) sub i (sub_view sub s)).1 /\
  List.filter (is_req_for sub) (handlerClosed o1 o2 o3 s i).2 =
    (sub_eose (numHandlers s) sub i (sub_view sub s)).2.
Proof.
  unfold handlerClosed. cbv zeta.
  set (a1 := fold_left (close_ok i) _ _).
  set (a2 := fold_left (close_eose i) _ _).
  destruct (loop_frame (sub_view sub) (is_req_for sub) (close_count i)
    (map_range o3 (pendingCounts s)) a2 (close_count_sub i sub)) as [-> ->].
  destruct (loop_frame (sub_view sub) (is_req_for sub) (close_ok i)
    (map_range o1 (pendingOKs s)) (s, []) (close_ok_sub i sub)) as [H3 H4].
  fold a1 in H3, H4. simpl in *.
  destruct (decide (sub ∈ map_range o2 (pendingEOSEs s))) as [Hin|Hnin].
  - rewrite <-H3. change (?x = _) with (x = [] ++ (sub_eose (numHandlers s) sub i (sub_view sub a1.1)).2) at 2.
    rewrite <-H4.
    apply (loop_key (numHandlers s) sub (sub_view sub) (is_req_for sub) (close_eose i)
      (fun v => sub_eose (numHandlers s) sub i v));
      auto using close_eose_n, close_eose_other, map_range_NoDup.
    + intros acc <-. apply close_eose_key.
    + subst a1. by rewrite (loop_n _ (close_ok_n i)).
  - destruct (loop_other sub (sub_view sub) (is_req_for sub) (close_eose i)
      (close_eose_n i) (close_eose_other i sub) _ a1 Hnin) as [H5 H6].
    subst a2. rewrite H5, H6, H3, H4. rewrite elem_of_map_range in Hnin.
    apply eq_None_not_Some in Hnin. unfold sub_view. simpl. by rewrite Hnin.
Qed.

(** ** Every call, seen from one entry *)

Lemma do_op_total n o s : op_ok n o -> exists s' out, do_op s o = Ok (s', out).
Proof.
  destruct o as [| | | |o1 o2 o3 i|i msg]; intros Hok;
    try (eexists _, _; simpl; reflexivity).
  - simpl. destruct (handlerClosed o1 o2 o3 s i) as [s' out]. eauto.
  - simpl. unfold processResponse. destruct Hok as [_ Hev].
    destruct (String.eqb_spec (s_Type msg) MsgTypeOK); [destruct (processOK s msg i); eauto|].
    destruct (String.eqb_spec (s_Type msg) MsgTypeEvent) as [He|].
    { destruct (s_Event msg) as [ev|]; [|by destruct (Hev He)].
      destruct (processEvent s msg ev i); eauto. }
    destruct (String.eqb_spec (s_Type msg) MsgTypeEOSE); [destruct (processEOSE s msg i); eauto|].
    destruct (String.eqb_spec (s_Type msg) MsgTypeCount); [destruct (processCount s msg i); eauto|].
    eauto.
Qed.

(** One response, by its type. *)
Lemma processResponse_cases s msg i s' out :
  processResponse s msg i = Ok (s', out) ->
  (s_Type msg = MsgTypeOK /\ (s', out) = processOK s msg i) \/
  (exists e, s_Type msg = MsgTypeEvent /\ s_Event msg = Some e /\ (s', out) = processEvent s msg e i) \/
  (s_Type msg = MsgTypeEOSE /\ (s', out) = processEOSE s msg i) \/
  (s_Type msg = MsgTypeCount /\ (s', out) = processCount s msg i) \/
  (s_Type msg <> MsgTypeOK /\ s_Type msg <> MsgTypeEvent /\ s_Type msg <> MsgTypeEOSE /\
   s_Type msg <> MsgTypeCount /\ s' = s /\ out = [msg]).
Proof.
  unfold processResponse.
  destruct (String.eqb_spec (s_Type msg) MsgTypeOK); [intros [= Heq]; by left|].
  destruct (String.eqb_spec (s_Type msg) MsgTypeEvent) as [He|].
  { destruct (s_Event msg) as [ev|]; [|done]. intros [= Heq]. right; left. eauto. }
  destruct (String.eqb_spec (s_Type msg) MsgTypeEOSE); [intros [= Heq]; by auto|].
  destruct (String.eqb_spec (s_Type msg) MsgTypeCount); [intros [= Heq]; by auto 6|].
  intros [= <- <-]. auto 10.
Qed.

(** What the label of a message says about the [is_*_for] tests. *)
Ltac by_type H :=
  unfold is_req_for, is_ok_for, is_count_for, is_event_for, is_eose_for in *;
  rewrite ?H in *; cbn [andb orb String.eqb Ascii.eqb Bool.eqb MsgTypeOK MsgTypeEvent MsgTypeEOSE MsgTypeCount] in *.

Lemma do_op_n s o s' out : do_op s o = Ok (s', out) -> numHandlers s' = numHandlers s.
Proof.
  destruct o as [| | | |o1 o2 o3 i|i msg]; simpl; try (by intros [= <- <-]).
  - intros [= H]. rewrite <-(handlerClosed_n o1 o2 o3 s i). by rewrite H.
  - intros [[_ H]|[(e & _ & _ & H)|[[_ H]|[[_ H]|(_&_&_&_& -> &_)]]]]%processResponse_cases;
      [..|done]; revert H; unfold processOK, processEvent, processEOSE, processCount;
      repeat case_match; by intros [= -> ->].
Qed.

Ltac merge_lookup Hne :=
  merge_simpl; rewrite ?lookup_insert_eq, ?lookup_delete_eq; merge_simpl;
  try (rewrite ?lookup_insert_ne, ?lookup_delete_ne, ?eqb_neq by done); merge_simpl.

Lemma processOK_view s msg i id : s_Type msg = MsgTypeOK ->
  ok_view id (processOK s msg i).1 =
    (ok_machine (numHandlers s) id (Response i msg) (ok_view id s)).1 /\
  List.filter (is_ok_for id) (processOK s msg i).2 =
    (ok_machine (numHandlers s) id (Response i msg) (ok_view id s)).2.
Proof.
  intros Ht. unfold ok_machine, is_ok_for at 1 3. rewrite Ht. simpl.
  destruct (String.eqb_spec (s_EventID msg) id) as [<-|Hne]; unfold processOK, ok_view, collect_ok, ok_answer.
  - destruct (pendingOKs s !! s_EventID msg) as [p|] eqn:Hp; [|done].
    simpl. repeat case_match; merge_simpl; rewrite ?lookup_insert_eq, ?lookup_delete_eq, ?Hp; auto.
  - repeat case_match; merge_simpl; rewrite ?lookup_insert_ne, ?lookup_delete_ne, ?eqb_neq by done; auto.
Qed.

Lemma processCount_view s msg i sub : s_Type msg = MsgTypeCount ->
  count_view sub (processCount s msg i).1 =
    (count_machine (numHandlers s) sub (Response i msg) (count_view sub s)).1 /\
  List.filter (is_count_for sub) (processCount s msg i).2 =
    (count_machine (numHandlers s) sub (Response i msg) (count_view sub s)).2.
Proof.
  intros Ht. unfold count_machine, is_count_for at 1 3. rewrite Ht. simpl.
  destruct (String.eqb_spec (s_SubscriptionID msg) sub) as [<-|Hne];
    unfold processCount, count_view, collect_count, count_answer.
  - destruct (pendingCounts s !! s_SubscriptionID msg) as [p|] eqn:Hp; [|done].
    simpl. repeat case_match; merge_simpl; rewrite ?lookup_insert_eq, ?lookup_delete_eq, ?Hp; auto.
  - repeat case_match; merge_simpl; rewrite ?lookup_insert_ne, ?lookup_delete_ne, ?eqb_neq by done; auto.
Qed.

Lemma sub_view_eq sub s p c :
  pendingEOSEs s !! sub = p -> bool_decide (sub ∈ completedSubs s) = c -> sub_view sub s = (p, c).
Proof. intros <- <-. done. Qed.

Lemma completed_add (sub : string) (c : gset string) : bool_decide (sub ∈ {[sub]} ∪ c) = true.
Proof. apply bool_decide_eq_true_2. set_solver. Qed.
Lemma completed_add_ne (sub sub' : string) (c : gset string) :
  sub' <> sub -> bool_decide (sub ∈ {[sub']} ∪ c) = bool_decide (sub ∈ c).
Proof. intros. apply bool_decide_ext. set_solver. Qed.
Lemma completed_del (sub : string) (c : gset string) : bool_decide (sub ∈ c ∖ {[sub]}) = false.
Proof. apply bool_decide_eq_false_2. set_solver. Qed.
Lemma completed_del_ne (sub sub' : string) (c : gset string) :
  sub' <> sub -> bool_decide (sub ∈ c ∖ {[sub']}) = bool_decide (sub ∈ c).
Proof. intros. apply bool_decide_ext. set_solver. Qed.

Lemma processEOSE_view s msg i sub : s_Type msg = MsgTypeEOSE ->
  sub_view sub (processEOSE s msg i).1 =
    (sub_machine (numHandlers s) sub (Response i msg) (sub_view sub s)).1 /\
  List.filter (is_req_for sub) (processEOSE s msg i).2 =
    (sub_machine (numHandlers s) sub (Response i msg) (sub_view sub s)).2.
Proof.
  intros Ht. unfold sub_machine, is_event_for, is_eose_for. rewrite Ht. simpl.
  destruct (String.eqb_spec (s_SubscriptionID msg) sub) as [<-|Hne]; unfold processEOSE, sub_view, sub_eose.
  - simpl. case_bool_decide as Hc; simpl; [by rewrite bool_decide_eq_true_2|].
    destruct (pendingEOSEs s !! s_SubscriptionID msg) as [p|] eqn:Hp; simpl;
      [|by rewrite Hp, bool_decide_eq_false_2].
    destruct (pe_eoseSent p); simpl; [by rewrite Hp, bool_decide_eq_false_2|].
    destruct (responded _ _); simpl; [by rewrite Hp, bool_decide_eq_false_2|].
    case_match; merge_simpl; rewrite ?lookup_insert_eq, ?lookup_delete_eq, ?completed_add; auto.
    by rewrite bool_decide_eq_false_2.
  - repeat case_match; merge_simpl;
      rewrite ?lookup_insert_ne, ?lookup_delete_ne, ?eqb_neq, ?completed_add_ne by done; auto.
Qed.

Lemma processEvent_view s msg e i sub : s_Type msg = MsgTypeEvent -> s_Event msg = Some e ->
  sub_view sub (processEvent s msg e i).1 =
    (sub_machine (numHandlers s) sub (Response i msg) (sub_view sub s)).1 /\
  List.filter (is_req_for sub) (processEvent s msg e i).2 =
    (sub_machine (numHandlers s) sub (Response i msg) (sub_view sub s)).2.
Proof.
  intros Ht He. unfold sub_machine. rewrite He.
  assert (Hm : is_req_for sub msg = is_event_for sub msg).
  { unfold is_req_for, is_event_for, is_eose_for. rewrite Ht. simpl. by rewrite orb_false_r. }
  assert (Hse : is_eose_for sub msg = false) by (unfold is_eose_for; by rewrite Ht).
  rewrite Hse. unfold is_event_for in *. rewrite Ht in *. simpl in *.
  destruct (String.eqb_spec (s_SubscriptionID msg) sub) as [<-|Hne];
    unfold processEvent, sub_view, sub_event.
  - cbv zeta. cbn [fst snd]. case_bool_decide as Hc; simpl; rewrite ?Hm.
    { by rewrite bool_decide_eq_true_2. }
    destruct (pendingEOSEs s !! s_SubscriptionID msg) as [p|] eqn:Hp; simpl;
      [|by rewrite Hp, bool_decide_eq_false_2].
    repeat case_match; merge_simpl;
      rewrite ?Hm, ?lookup_insert_eq, ?lookup_delete_eq, ?completed_add, ?Hp;
      rewrite ?(bool_decide_eq_false_2 _ Hc); auto; by merge_simpl.
  - repeat case_match; merge_simpl; rewrite ?Hm;
      rewrite ?lookup_insert_ne, ?lookup_delete_ne, ?eqb_neq, ?completed_add_ne by done; auto.
Qed.

Lemma do_op_ok_view id s o s' out : do_op s o = Ok (s', out) ->
  ok_view id s' = (ok_machine (numHandlers s) id o (ok_view id s)).1 /\
  List.filter (is_ok_for id) out = (ok_machine (numHandlers s) id o (ok_view id s)).2.
Proof.
  destruct o as [id'|sub fs|sub|sub|o1 o2 o3 i|i msg]; simpl.
  - intros [= <- <-]. unfold ok_view. simpl. case_decide as Heq; simpl.
    + rewrite Heq, lookup_insert_eq. done.
    + rewrite lookup_insert_ne by done. done.
  - by intros [= <- <-].
  - by intros [= <- <-].
  - by intros [= <- <-].
  - intros [= H]. pose proof (handlerClosed_ok o1 o2 o3 s i id) as Hv. by rewrite H in Hv.
  - intros [[Ht H]|[(e & Ht & _ & H)|[[Ht H]|[[Ht H]|(Ht&_&_&_& -> & ->)]]]]%processResponse_cases.
    + pose proof (processOK_view s msg i id Ht) as Hv. by rewrite <-H in Hv.
    + revert H. unfold processEvent. assert (is_ok_for id msg = false) as Hf by by by_type Ht.
      rewrite Hf. repeat case_match; intros [= -> ->]; merge_simpl; by rewrite ?Hf.
    + revert H. unfold processEOSE. assert (is_ok_for id msg = false) as Hf by by by_type Ht.
      rewrite Hf. repeat case_match; intros [= -> ->]; by merge_simpl.
    + revert H. unfold processCount. assert (is_ok_for id msg = false) as Hf by by by_type Ht.
      rewrite Hf. repeat case_match; intros [= -> ->]; by merge_simpl.
    + assert (is_ok_for id msg = false) as Hf.
      { unfold is_ok_for. by rewrite eqb_neq. }
      simpl. by rewrite Hf.
Qed.

Lemma do_op_count_view sub s o s' out : do_op s o = Ok (s', out) ->
  count_view sub s' = (count_machine (numHandlers s) sub o (count_view sub s)).1 /\
  List.filter (is_count_for sub) out = (count_machine (numHandlers s) sub o (count_view sub s)).2.
Proof.
  destruct o as [id'|sub' fs|sub'|sub'|o1 o2 o3 i|i msg]; simpl.
  - by intros [= <- <-].
  - by intros [= <- <-].
  - intros [= <- <-]. unfold count_view. simpl. case_decide as Heq; simpl.
    + by rewrite Heq, lookup_insert_eq.
    + by rewrite lookup_insert_ne.
  - intros [= <- <-]. unfold count_view. simpl. case_decide as Heq; simpl.
    + by rewrite Heq, lookup_delete_eq.
    + by rewrite lookup_delete_ne.
  - intros [= H]. pose proof (handlerClosed_count o1 o2 o3 s i sub) as Hv. by rewrite H in Hv.
  - intros [[Ht H]|[(e & Ht & _ & H)|[[Ht H]|[[Ht H]|(_&_&_&Ht& -> & ->)]]]]%processResponse_cases.
    + revert H. unfold processOK. assert (is_count_for sub msg = false) as Hf by by by_type Ht.
      rewrite Hf. repeat case_match; intros [= -> ->]; by merge_simpl.
    + revert H. unfold processEvent. assert (is_count_for sub msg = false) as Hf by by by_type Ht.
      rewrite Hf. repeat case_match; intros [= -> ->]; merge_simpl; by rewrite ?Hf.
    + revert H. unfold processEOSE. assert (is_count_for sub msg = false) as Hf by by by_type Ht.
      rewrite Hf. repeat case_match; intros [= -> ->]; by merge_simpl.
    + pose proof (processCount_view s msg i sub Ht) as Hv. by rewrite <-H in Hv.
    + assert (is_count_for sub msg = false) as Hf by (unfold is_count_for; by rewrite eqb_neq).
      simpl. by rewrite Hf.
Qed.

Lemma do_op_sub_view sub s o s' out : do_op s o = Ok (s', out) ->
  sub_view sub s' = (sub_machine (numHandlers s) sub o (sub_view sub s)).1 /\
  List.filter (is_req_for sub) out = (sub_machine (numHandlers s) sub o (sub_view sub s)).2.
Proof.
  destruct o as [id'|sub' fs|sub'|sub'|o1 o2 o3 i|i msg]; cbn [do_op].
  - by intros [= <- <-].
  - intros [= <- <-]. unfold sub_view, sub_machine. simpl. case_decide as Heq; simpl.
    + rewrite Heq, lookup_insert_eq, completed_del. done.
    + by rewrite lookup_insert_ne, completed_del_ne.
  - by intros [= <- <-].
  - intros [= <- <-]. unfold sub_view, sub_machine. simpl. case_decide as Heq; simpl.
    + by rewrite Heq, lookup_delete_eq, completed_del.
    + by rewrite lookup_delete_ne, completed_del_ne.
  - intros [= H]. pose proof (handlerClosed_sub o1 o2 o3 s i sub) as Hv. by rewrite H in Hv.
  - intros [[Ht H]|[(e & Ht & He & H)|[[Ht H]|[[Ht H]|(_&Ht1&Ht2&_& -> & ->)]]]]%processResponse_cases.
    + revert H. unfold processOK, sub_machine.
      assert (is_event_for sub msg = false /\ is_eose_for sub msg = false) as [-> ->] by by by_type Ht.
      repeat case_match; intros [= -> ->]; by merge_simpl.
    + pose proof (processEvent_view s msg e i sub Ht He) as Hv. by rewrite <-H in Hv.
    + pose proof (processEOSE_view s msg i sub Ht) as Hv. by rewrite <-H in Hv.
    + revert H. unfold processCount, sub_machine.
      assert (is_event_for sub msg = false /\ is_eose_for sub msg = false) as [-> ->] by by by_type Ht.
      repeat case_match; intros [= -> ->]; by merge_simpl.
    + assert (is_event_for sub msg = false /\ is_eose_for sub msg = false) as [Hf1 Hf2].
      { unfold is_event_for, is_eose_for. by rewrite (eqb_neq _ _ Ht1), (eqb_neq _ _ Ht2). }
      unfold sub_machine. simpl. unfold is_req_for. by rewrite Hf1, Hf2.
Qed.

(** Running one machine over a sequence of calls. *)
Fixpoint run_machine {V} (f : op -> V -> V * list ServerMsg) (ops : list op) (v : V)
    : V * list ServerMsg :=
  match ops with
  | [] => (v, [])
  | o :: ops =>
      let '(v', out) := f o v in
      let '(v'', outs) := run_machine f ops v' in
      (v'', out ++ outs)
  end.

Lemma do_ops_total n ops s : Forall (op_ok n) ops -> exists s' out, do_ops s ops = Ok (s', out).
Proof.
  intros Hok. revert s. induction Hok as [|o ops Ho Hops IH]; intros s; simpl; [eauto|].
  destruct (do_op_total n o s Ho) as (s1 & out & ->). simpl.
  destruct (IH s1) as (s2 & outs & ->). simpl. eauto.
Qed.

Lemma do_ops_view {V} (view : mergeSession -> V) (about : ServerMsg -> bool) f ops s s' out :
  (forall o s s' out, do_op s o = Ok (s', out) ->
     view s' = (f (numHandlers s) o (view s)).1 /\
     List.filter about out = (f (numHandlers s) o (view s)).2) ->
  do_ops s ops = Ok (s', out) ->
  run_machine (f (numHandlers s)) ops (view s) = (view s', List.filter about out).
Proof.
  intros Hf. revert s s' out. induction ops as [|o ops IH]; intros s s' out; simpl.
  { by intros [= <- <-]. }
  destruct (do_op s o) as [[s1 out1]| |] eqn:H1; try done. simpl.
  destruct (do_ops s1 ops) as [[s2 out2]| |] eqn:H2; try done. simpl.
  intros [= <- <-]. destruct (Hf _ _ _ _ H1) as [Hv Ho]. apply IH in H2.
  rewrite (do_op_n _ _ _ _ H1) in H2.
  destruct (f (numHandlers s) o (view s)) as [v' o'] eqn:Hfo. simpl in *. subst.
  rewrite H2, List.filter_app. done.
Qed.

(** ** What the merged answers are meant to be

    Of each handler the first thing it says about an event (or subscription)
    counts: an answer, or its end.  [answers] collects these, in the order of
    arrival, on top of those already in [acc]. *)

Definition answers {X} (says : op -> option (nat * X)) (acc : list (nat * X)) (ops : list op)
    : list (nat * X) :=
  fold_left (fun acc o =>
    match says o with
    | Some (i, x) => if decide (i ∈ acc.*1) then acc else acc ++ [(i, x)]
    | None => acc
    end) ops acc.

Inductive Verdict : Type :=
| Answered (accepted : bool) (message : string)
| Lost.

Definition says_ok (id : string) (o : op) : option (nat * Verdict) :=
  match o with
  | HandlerClosed _ _ _ i => Some (i, Lost)
  | Response i msg =>
      if is_ok_for id msg then Some (i, Answered (s_Accepted msg) (s_Message msg)) else None
  | _ => None
  end.

(** The merged OK: rejected with a fixed message if a handler was lost;
    otherwise accepted if all accept, with the last rejection's message. *)
Definition verdict_accepts (v : Verdict) : bool :=
  match v with Answered a _ => a | Lost => true end.
Definition verdict_message (m : string) (v : Verdict) : string :=
  match v with Answered false m' => m' | _ => m end.
Definition is_lost (v : Verdict) : bool := match v with Lost => true | _ => false end.

Definition merged_ok (id : string) (vs : list Verdict) : ServerMsg :=
  if existsb is_lost vs then NewServerOKMsg id false MergeHandlerOKLostHandlerMessage
  else NewServerOKMsg id (forallb verdict_accepts vs) (fold_left verdict_message vs "").

Definition says_count (sub : string) (o : op) : option (nat * Z) :=
  match o with
  | HandlerClosed _ _ _ i => Some (i, 0)
  | Response i msg => if is_count_for sub msg then Some (i, s_Count msg) else None
  | _ => None
  end.

Definition merged_count (sub : string) (cs : list Z) : ServerMsg :=
  NewServerCountMsg sub (fold_left Z.max cs 0) None.

(** Handlers below [n], each at most once. *)
Definition indices (n : nat) (l : list nat) : Prop := NoDup l /\ Forall (fun i => (i < n)%nat) l.

Lemma indices_le n l : indices n l -> (length l <= n)%nat.
Proof.
  intros [Hnd Hl]. rewrite <-(length_seq n 0).
  apply NoDup_incl_length; [by apply NoDup_ListNoDup|].
  intros i Hi%list_elem_of_In. apply List.in_seq. rewrite Forall_forall in Hl. specialize (Hl i Hi). lia.
Qed.

Lemma indices_full n l : indices n l -> length l = n -> forall i, (i < n)%nat -> i ∈ l.
Proof.
  intros [Hnd Hl] Hlen i Hi. apply list_elem_of_In.
  apply (NoDup_length_incl (l := l) (l' := seq 0 n)).
  - by apply NoDup_ListNoDup.
  - by rewrite length_seq, Hlen.
  - intros j Hj%list_elem_of_In. apply List.in_seq. rewrite Forall_forall in Hl.
    specialize (Hl j Hj). lia.
  - apply List.in_seq. lia.
Qed.

Lemma indices_snoc n l i : indices n l -> i ∉ l -> (i < n)%nat -> indices n (l ++ [i]).
Proof.
  intros [Hnd Hl] Hi Hn. split.
  - apply NoDup_app. split_and!; auto using NoDup_singleton. set_solver.
  - apply Forall_app. split; [done|]. by constructor.
Qed.

(** The flags of a pending entry say who is in [l]. *)
Definition flags (n : nat) (l : list nat) (bs : list bool) : Prop :=
  length bs = n /\ forall i, (i < n)%nat -> responded bs i = bool_decide (i ∈ l).

Lemma flags_fresh n : flags n [] (replicate n false).
Proof.
  split; [by rewrite length_replicate|]. intros i Hi. unfold responded.
  rewrite lookup_replicate_2 by done. symmetry. apply bool_decide_eq_false_2. set_solver.
Qed.

Lemma flags_snoc n l bs i : flags n l bs -> (i < n)%nat -> flags n (l ++ [i]) (<[i := true]> bs).
Proof.
  intros [Hlen Hf] Hi. split; [by rewrite length_insert|]. intros j Hj. unfold responded.
  destruct (decide (i = j)) as [->|Hne].
  - rewrite list_lookup_insert_eq by lia. symmetry. apply bool_decide_eq_true_2. set_solver.
  - rewrite list_lookup_insert_ne by done. fold (responded bs j). rewrite Hf by done.
    apply bool_decide_ext. set_solver.
Qed.

Lemma answers_cons {X} (says : op -> option (nat * X)) acc o ops :
  answers says acc (o :: ops) =
  answers says (match says o with
                | Some (i, x) => if decide (i ∈ acc.*1) then acc else acc ++ [(i, x)]
                | None => acc end) ops.
Proof. done. Qed.

(** [says] only speaks of handlers below [n]. *)
Definition speaks {X} (n : nat) (says : op -> option (nat * X)) : Prop :=
  forall o i x, op_ok n o -> says o = Some (i, x) -> (i < n)%nat.

Lemma answers_full {X} n (says : op -> option (nat * X)) acc ops :
  speaks n says -> Forall (op_ok n) ops -> indices n acc.*1 -> length acc = n ->
  answers says acc ops = acc.
Proof.
  intros Hsp Hok Hacc Hlen. induction Hok as [|o ops Ho Hops IH]; [done|].
  rewrite answers_cons. destruct (says o) as [[i x]|] eqn:Hs; [|done].
  rewrite decide_True; [done|]. apply (indices_full n); auto; [by rewrite length_fmap|].
  by eapply Hsp.
Qed.

(** *** Collecting one answer per handler

    An entry that collects the first answer of every handler and then emits one
    merged message and disappears; [restarts] are the calls that create or
    remove the entry. *)
Section Collector.
Context {P X : Type} (n : nat).
Context (machine : op -> option P -> option P * list ServerMsg).
Context (says : op -> option (nat * X)) (restarts : op -> bool).
Context (st : list (nat * X) -> P -> Prop) (final : list X -> ServerMsg).
Context (says_speaks : speaks n says).
Context (st_indices : forall vs p, st vs p -> indices n vs.*1).
Context (machine_none : forall o, restarts o = false -> machine o None = (None, [])).
Context (machine_silent : forall o p,
  says o = None -> restarts o = false -> machine o (Some p) = (Some p, [])).
Context (machine_again : forall o p vs i x,
  st vs p -> (i < n)%nat -> says o = Some (i, x) -> i ∈ vs.*1 -> machine o (Some p) = (Some p, [])).
Context (machine_step : forall o p vs i x,
  st vs p -> (i < n)%nat -> says o = Some (i, x) -> i ∉ vs.*1 ->
  exists p', st (vs ++ [(i, x)]) p' /\
    machine o (Some p) =
    if (n <=? S (length vs))%nat then (None, [final (vs ++ [(i, x)]).*2]) else (Some p', [])).

Lemma collector_none ops :
  Forall (fun o => restarts o = false) ops -> run_machine machine ops None = (None, []).
Proof.
  induction 1 as [|o ops Ho Hops IH]; [done|]. cbn [run_machine]. by rewrite machine_none, IH.
Qed.

Lemma collector_run ops vs p :
  Forall (op_ok n) ops -> Forall (fun o => restarts o = false) ops ->
  st vs p -> (length vs < n)%nat ->
  (run_machine machine ops (Some p)).2 =
  let vs' := answers says vs ops in if (n <=? length vs')%nat then [final vs'.*2] else [].
Proof.
  intros Hok. revert vs p. induction Hok as [|o ops Ho Hops IH]; intros vs p Hst Hos Hlen.
  { simpl. by rewrite (proj2 (Nat.leb_gt _ _) Hlen). }
  apply Forall_cons in Hst as [Hso Hst]. rewrite answers_cons. cbn [run_machine].
  destruct (says o) as [[i x]|] eqn:Hs.
  2:{ rewrite machine_silent by done. specialize (IH vs p Hst Hos Hlen).
      by destruct (run_machine _ ops _). }
  assert (Hi : (i < n)%nat) by by eapply says_speaks.
  case_decide as Hin.
  { rewrite (machine_again o p vs i x) by done. specialize (IH vs p Hst Hos Hlen).
    by destruct (run_machine _ ops _). }
  destruct (machine_step o p vs i x Hos Hi Hs Hin) as (p' & Hos' & ->).
  destruct (Nat.leb_spec n (S (length vs))) as [Hn|Hn].
  - rewrite collector_none by done.
    assert (length (vs ++ [(i, x)]) = n) as Hfull by (rewrite length_app; simpl; lia).
    rewrite (answers_full n) by eauto. cbv zeta. rewrite Hfull, Nat.leb_refl. done.
  - specialize (IH (vs ++ [(i, x)]) p' Hst Hos').
    rewrite length_app in IH. simpl in IH. specialize (IH ltac:(lia)).
    by destruct (run_machine _ ops _).
Qed.
End Collector.

(** *** The merged OK *)

Record ok_state (n : nat) (vs : list (nat * Verdict)) (p : pendingOK) : Prop := {
  os_indices : indices n vs.*1;
  os_flags : flags n vs.*1 (po_handlerResponded p);
  os_received : po_received p = Z.of_nat (length vs);
  os_accepted : po_accepted p = forallb verdict_accepts vs.*2;
  os_message : po_message p = fold_left verdict_message vs.*2 "";
  os_lost : po_hadHandlerLoss p = existsb is_lost vs.*2
}.

Lemma finalize_merged n id vs p : ok_state n vs p -> finalizeOKMsg id p = merged_ok id vs.*2.
Proof. intros [? ? ? H1 H2 H3]. unfold finalizeOKMsg, merged_ok. by rewrite H1, H2, H3. Qed.

Lemma ok_state_step n vs p i v f :
  ok_state n vs p -> (i < n)%nat -> i ∉ vs.*1 ->
  match v with Lost => f = ok_lost i
  | Answered a m => exists msg, s_Accepted msg = a /\ s_Message msg = m /\ f = ok_answer i msg end ->
  ok_state n (vs ++ [(i, v)]) (f p).
Proof.
  intros [H1 H2 H3 H4 H5 H6] Hi Hnin Hf.
  assert (Hf' : po_received (f p) = po_received p + 1 /\
    po_handlerResponded (f p) = <[i := true]> (po_handlerResponded p) /\
    po_accepted (f p) = po_accepted p && verdict_accepts v /\
    po_message (f p) = verdict_message (po_message p) v /\
    po_hadHandlerLoss (f p) = po_hadHandlerLoss p || is_lost v).
  { destruct v as [a m|].
    - destruct Hf as (msg & <- & <- & ->). unfold ok_answer. simpl.
      rewrite orb_false_r. destruct (s_Accepted msg); by rewrite ?andb_true_r, ?andb_false_r.
    - subst f. simpl. by rewrite andb_true_r, orb_true_r. }
  destruct Hf' as (E1 & E2 & E3 & E4 & E5).
  constructor; rewrite ?fmap_app; cbn [fmap list_fmap fst snd].
  - by apply indices_snoc.
  - rewrite E2. by apply flags_snoc.
  - rewrite E1, H3, length_app. simpl. lia.
  - rewrite E3, H4, forallb_app. simpl. by rewrite andb_true_r.
  - by rewrite E4, H5, fold_left_app.
  - rewrite E5, H6, existsb_app. simpl. by rewrite orb_false_r.
Qed.

Definition starts_event (id : string) (o : op) : bool :=
  match o with StartEvent id' => String.eqb id' id | _ => false end.

Lemma ok_machine_none n id o :
  starts_event id o = false -> ok_machine n id o None = (None, []).
Proof.
  destruct o; simpl; try done; [|by case_match].
  case_decide as Heq; [|done]. by rewrite Heq, String.eqb_refl.
Qed.

Lemma speaks_ok n id : speaks n (says_ok id).
Proof.
  intros o i x Hok. destruct o; simpl in *; try done; [by intros [= <- <-]|].
  case_match; [|done]. intros [= <- <-]. apply Hok.
Qed.

(** A call that says nothing about the event does nothing to its entry. *)
Lemma ok_machine_silent n id o p :
  says_ok id o = None -> starts_event id o = false -> ok_machine n id o (Some p) = (Some p, []).
Proof.
  destruct o; simpl; try done; [|by case_match].
  case_decide as Heq; [|done]. by rewrite Heq, String.eqb_refl.
Qed.

Lemma ok_machine_says n id o p i v : says_ok id o = Some (i, v) ->
  exists f, ok_machine n id o (Some p) = collect_ok n id i (Some p) f /\
  match v with Lost => f = ok_lost i
  | Answered a m => exists msg, s_Accepted msg = a /\ s_Message msg = m /\ f = ok_answer i msg end.
Proof.
  destruct o as [| | | |o1 o2 o3 j|j msg]; cbn [says_ok]; try done.
  - intros [= <- <-]. by exists (ok_lost j).
  - destruct (is_ok_for id msg) eqn:Hm; [|done]. intros [= <- <-].
    exists (ok_answer j msg). cbn [ok_machine]. rewrite Hm. eauto.
Qed.

Lemma ok_machine_run n id ops vs p :
  Forall (op_ok n) ops -> Forall (fun o => starts_event id o = false) ops ->
  ok_state n vs p -> (length vs < n)%nat ->
  (run_machine (ok_machine n id) ops (Some p)).2 =
  let vs' := answers (says_ok id) vs ops in
  if (n <=? length vs')%nat then [merged_ok id vs'.*2] else [].
Proof.
  apply (collector_run n (ok_machine n id) (says_ok id) (starts_event id) (ok_state n) (merged_ok id)).
  - apply speaks_ok.
  - by intros ? ? [].
  - intros o. apply ok_machine_none.
  - intros o q. apply ok_machine_silent.
  - intros o q ws i v Hos Hi Hs Hin. destruct (ok_machine_says n id o q i v Hs) as (f & -> & _).
    unfold collect_ok. destruct (os_flags _ _ _ Hos) as [_ Hfl]. by rewrite Hfl, bool_decide_eq_true_2.
  - intros o q ws i v Hos Hi Hs Hin. destruct (ok_machine_says n id o q i v Hs) as (f & -> & Hf).
    pose proof (ok_state_step n ws q i v f Hos Hi Hin Hf) as Hos'. exists (f q). split; [done|].
    unfold collect_ok. destruct (os_flags _ _ _ Hos) as [_ Hfl]. rewrite Hfl by done.
    rewrite bool_decide_eq_false_2 by done. cbv zeta. rewrite (os_received _ _ _ Hos'), length_app.
    rewrite (finalize_merged _ _ _ _ Hos').
    destruct (Z.leb_spec (Z.of_nat n) (Z.of_nat (length ws + length [(i, v)]))) as [H|H],
      (Nat.leb_spec n (S (length ws))) as [H'|H']; simpl in *; done || lia.
Qed.

Lemma merged_ok_once n s id ops s' out :
  numHandlers s = n -> (0 < n)%nat ->
  Forall (op_ok n) ops -> Forall (fun o => starts_event id o = false) ops ->
  do_ops (startEventResponse s id) ops = Ok (s', out) ->
  List.filter (is_ok_for id) out =
  let vs := answers (says_ok id) [] ops in
  if (n <=? length vs)%nat then [merged_ok id vs.*2] else [].
Proof.
  intros Hn Hpos Hok Hst Hrun.
  apply (do_ops_view (ok_view id) (is_ok_for id) (fun n => ok_machine n id)) in Hrun;
    [|intros; by apply do_op_ok_view].
  unfold ok_view, startEventResponse in Hrun. cbn in Hrun. rewrite lookup_insert_eq, Hn in Hrun.
  pose proof (ok_machine_run n id ops [] (mkPendingOK 0 true "" (replicate n false) false) Hok Hst) as H.
  rewrite Hrun in H. apply H; [|done].
  constructor; try done; [|apply flags_fresh]. split; [constructor|done].
Qed.

(** *** The merged COUNT *)

Record count_state (n : nat) (cs : list (nat * Z)) (p : pendingCount) : Prop := {
  cs_indices : indices n cs.*1;
  cs_flags : flags n cs.*1 (pc_handlerResponded p);
  cs_received : pc_received p = Z.of_nat (length cs);
  cs_max : pc_maxCount p = fold_left Z.max cs.*2 0
}.

(** The calls that create or remove the COUNT entry of a subscription. *)
Definition restarts_count (sub : string) (o : op) : bool :=
  match o with
  | StartCount sub' | CloseSub sub' => String.eqb sub' sub
  | _ => false
  end.

Lemma speaks_count n sub : speaks n (says_count sub).
Proof.
  intros o i x Hok. destruct o; simpl in *; try done; [by intros [= <- <-]|].
  case_match; [|done]. intros [= <- <-]. apply Hok.
Qed.

Lemma count_machine_none n sub o :
  restarts_count sub o = false -> count_machine n sub o None = (None, []).
Proof.
  destruct o; simpl; try done; try (by case_match);
    case_decide as Heq; try done; by rewrite Heq, String.eqb_refl.
Qed.

Lemma count_machine_silent n sub o p : says_count sub o = None -> restarts_count sub o = false ->
  count_machine n sub o (Some p) = (Some p, []).
Proof.
  destruct o; simpl; try done; try (by case_match);
    case_decide as Heq; try done; by rewrite Heq, String.eqb_refl.
Qed.

Lemma fold_max_nonneg l m : 0 <= m -> 0 <= fold_left Z.max l m.
Proof. revert m. induction l as [|c l IH]; intros m Hm; simpl; [done|]. apply IH. lia. Qed.

Lemma count_machine_says n sub o p i c : says_count sub o = Some (i, c) ->
  0 <= pc_maxCount p ->
  exists f, count_machine n sub o (Some p) = collect_count n sub i (Some p) f /\
    f (pc_maxCount p) = Z.max (pc_maxCount p) c.
Proof.
  destruct o as [| | | |o1 o2 o3 j|j msg]; cbn [says_count]; try done.
  - intros [= <- <-] Hm. exists id. split; [done|]. unfold id. lia.
  - destruct (is_count_for sub msg) eqn:Hm; [|done]. intros [= <- <-] _.
    exists (count_answer msg). cbn [count_machine]. rewrite Hm. split; [done|].
    unfold count_answer. destruct (Z.ltb_spec (pc_maxCount p) (s_Count msg)); lia.
Qed.

Lemma count_machine_run n sub ops cs p :
  Forall (op_ok n) ops -> Forall (fun o => restarts_count sub o = false) ops ->
  count_state n cs p -> (length cs < n)%nat ->
  (run_machine (count_machine n sub) ops (Some p)).2 =
  let cs' := answers (says_count sub) cs ops in
  if (n <=? length cs')%nat then [merged_count sub cs'.*2] else [].
Proof.
  assert (Hpos : forall ws q, count_state n ws q -> 0 <= pc_maxCount q).
  { intros ws q Hq. rewrite (cs_max _ _ _ Hq). by apply fold_max_nonneg. }
  apply (collector_run n (count_machine n sub) (says_count sub) (restarts_count sub)
           (count_state n) (merged_count sub)).
  - apply speaks_count.
  - by intros ? ? [].
  - intros o. apply count_machine_none.
  - intros o q. apply count_machine_silent.
  - intros o q ws i c Hos Hi Hs Hin.
    destruct (count_machine_says n sub o q i c Hs) as (f & -> & _); [eauto|].
    unfold collect_count. destruct (cs_flags _ _ _ Hos) as [_ Hfl].
    by rewrite Hfl, bool_decide_eq_true_2.
  - intros o q ws i c Hos Hi Hs Hin.
    destruct (count_machine_says n sub o q i c Hs) as (f & -> & Hf); [eauto|].
    unfold collect_count. destruct (cs_flags _ _ _ Hos) as [Hl Hfl]. rewrite Hfl by done.
    rewrite bool_decide_eq_false_2 by done. cbv zeta. cbn [pc_received pc_maxCount].
    eexists. split.
    2:{ rewrite (cs_received _ _ _ Hos), Hf. unfold merged_count.
        rewrite fmap_app, fold_left_app, <-(cs_max _ _ _ Hos).
        destruct (Z.leb_spec (Z.of_nat n) (Z.of_nat (length ws) + 1)) as [H|H],
          (Nat.leb_spec n (S (length ws))) as [H'|H']; reflexivity || lia. }
    rewrite <-Hf. constructor; rewrite ?fmap_app; cbn [fmap list_fmap fst snd pc_received
      pc_handlerResponded pc_maxCount].
    + apply indices_snoc; [apply Hos|done..].
    + by apply flags_snoc.
    + rewrite length_app. simpl. lia.
    + rewrite fold_left_app, <-(cs_max _ _ _ Hos). done.
Qed.

Lemma merged_count_once n s sub ops s' out :
  numHandlers s = n -> (0 < n)%nat ->
  Forall (op_ok n) ops -> Forall (fun o => restarts_count sub o = false) ops ->
  do_ops (startCountResponse s sub) ops = Ok (s', out) ->
  List.filter (is_count_for sub) out =
  let cs := answers (says_count sub) [] ops in
  if (n <=? length cs)%nat then [merged_count sub cs.*2] else [].
Proof.
  intros Hn Hpos Hok Hst Hrun.
  apply (do_ops_view (count_view sub) (is_count_for sub) (fun n => count_machine n sub)) in Hrun;
    [|intros; by apply do_op_count_view].
  unfold count_view, startCountResponse in Hrun. cbn in Hrun. rewrite lookup_insert_eq, Hn in Hrun.
  pose proof (count_machine_run n sub ops [] (mkPendingCount 0 0 (replicate n false)) Hok Hst) as H.
  rewrite Hrun in H. apply H; [|done].
  constructor; try done; [|apply flags_fresh]. split; [constructor|done].
Qed.

(** ** Properties *)

Module MergeExamples.
Definition ok (id : string) (accepted : bool) (m : string) : ServerMsg := NewServerOKMsg id accepted m.
Definition ops : list op :=
  [Response 0 (ok "x" true ""); Response 0 (ok "x" false "again"); StartCount "c";
   Response 1 (ok "x" false "blocked: spam")].
Definition count_ops : list op :=
  [Response 1 (NewServerCountMsg "c" 7 None); Response 0 (NewServerCountMsg "c" 3 None)].
End MergeExamples.

(** C1: an EVENT gets its merged OK exactly once, and exactly when every handler
    has answered it or ended, whatever other calls are interleaved: of each
    handler the first verdict counts, the OK is accepted when all accept and
    carries the last rejection's message otherwise, and it is a rejection asking
    for a retry when a handler ended without a verdict. *)
Theorem merge_ok_exactly_once (s : mergeSession) (id : string) (ops : list op) :
  (0 < numHandlers s)%nat -> Forall (op_ok (numHandlers s)) ops ->
  Forall (fun o => starts_event id o = false) ops ->
  exists s' out, do_ops (startEventResponse s id) ops = Ok (s', out) /\
  List.filter (is_ok_for id) out =
  let vs := answers (says_ok id) [] ops in
  if (numHandlers s <=? length vs)%nat then [merged_ok id vs.*2] else [].
Proof.
  intros Hpos Hok Hst. destruct (do_ops_total _ ops (startEventResponse s id) Hok) as (s' & out & Hrun).
  exists s', out. split; [done|]. by apply (merged_ok_once _ s id ops s').
Qed.

Lemma merge_ok_exactly_once_witness :
  exists s' out, do_ops (startEventResponse (newMergeSession 2 None) "x") MergeExamples.ops =
    Ok (s', out) /\
  List.filter (is_ok_for "x") out = [NewServerOKMsg "x" false "blocked: spam"].
Proof.
  apply (merge_ok_exactly_once (newMergeSession 2 None) "x" MergeExamples.ops).
  - vm_compute. lia.
  - repeat constructor; vm_compute; try lia; discriminate.
  - repeat constructor.
Defined.

(** A COUNT gets its merged answer exactly once, exactly when every handler
    has answered it or ended, and the count is the largest of the first counts
    of the handlers (0 when none counts anything). *)
Theorem merge_count_exactly_once (s : mergeSession) (sub : string) (ops : list op) :
  (0 < numHandlers s)%nat -> Forall (op_ok (numHandlers s)) ops ->
  Forall (fun o => restarts_count sub o = false) ops ->
  exists s' out, do_ops (startCountResponse s sub) ops = Ok (s', out) /\
  List.filter (is_count_for sub) out =
  let cs := answers (says_count sub) [] ops in
  if (numHandlers s <=? length cs)%nat
  then [NewServerCountMsg sub (fold_left Z.max cs.*2 0) None] else [].
Proof.
  intros Hpos Hok Hst. destruct (do_ops_total _ ops (startCountResponse s sub) Hok) as (s' & out & Hrun).
  exists s', out. split; [done|]. by apply (merged_count_once _ s sub ops s').
Qed.

Lemma merge_count_exactly_once_witness :
  exists s' out, do_ops (startCountResponse (newMergeSession 2 None) "c") MergeExamples.count_ops =
    Ok (s', out) /\
  List.filter (is_count_for "c") out = [NewServerCountMsg "c" 7 None].
Proof.
  apply (merge_count_exactly_once (newMergeSession 2 None) "c" MergeExamples.count_ops).
  - vm_compute. lia.
  - repeat constructor; vm_compute; try lia; discriminate.
  - repeat constructor.
Defined.
