(* ===== verification/MergeReq.v ===== *)
(** * Merging subscriptions (merge_handler.go, mergeSession)

    What a client sees of a REQ served by several handlers: the stored phase
    (deduplication, order, limit), the EOSE that ends it, and the live phase
    after it. *)

From S2P Require Import Prelude GoTime Event Filter Message Merge.

(** ** Observations *)

(** A sequence of calls with what each returns. *)
Fixpoint do_trace (s : mergeSession) (ops : list op) : Res (list (op * list ServerMsg)) :=
  match ops with
  | [] => Ok []
  | o :: ops =>
      '(s, out) ← do_op s o;
      tr ← do_trace s ops;
      mret ((o, out) :: tr)
  end.

(** A handler's stored events for [sub] are over with its EOSE, or its end. *)
Definition says_eose (sub : string) (o : op) : option (nat * unit) :=
  match o with
  | HandlerClosed _ _ _ i => Some (i, tt)
  | Response i msg => if is_eose_for sub msg then Some (i, tt) else None
  | _ => None
  end.

Definition restarts_sub (sub : string) (o : op) : bool :=
  match o with
  | StartReq sub' _ | CloseSub sub' => String.eqb sub' sub
  | _ => false
  end.

(** The event a call delivers to [sub] as a stored event: one from a handler not
    in [over]. *)
Definition delivered (sub : string) (over : list (nat * unit)) (o : op) (out : list ServerMsg)
    : list Event :=
  match o with
  | Response i msg =>
      if is_event_for sub msg && bool_decide (i ∉ over.*1) && bool_decide (msg ∈ out)
      then option_list (s_Event msg) else []
  | _ => []
  end.

(** The stored events delivered until the merged EOSE. *)
Fixpoint stored_events (sub : string) (over : list (nat * unit)) (tr : list (op * list ServerMsg))
    : list Event :=
  match tr with
  | [] => []
  | (o, out) :: tr =>
      delivered sub over o out ++
      (if existsb (is_eose_for sub) out then []
       else stored_events sub (answers (says_eose sub) over [o]) tr)
  end.

(** The messages before the first EOSE of [sub]. *)
Fixpoint before_eose (sub : string) (out : list ServerMsg) : list ServerMsg :=
  match out with
  | [] => []
  | m :: out => if is_eose_for sub m then [] else m :: before_eose sub out
  end.

Definition event_ids (sub : string) (out : list ServerMsg) : list string :=
  ev_ID <$> omap s_Event (List.filter (is_event_for sub) out).

(** The order of stored events: newest second first, ties by the smaller id. *)
Definition ev_before (a b : Event) : Prop :=
  Unix (ev_CreatedAt b) < Unix (ev_CreatedAt a) \/
  (Unix (ev_CreatedAt a) = Unix (ev_CreatedAt b) /\ str_lt (ev_ID a) (ev_ID b)).

#[export] Instance ev_before_trans : Transitive ev_before.
Proof.
  intros a b c. unfold ev_before. intros [H1|[H1 H1']] [H2|[H2 H2']]; try (left; lia).
  right. split; [lia|]. by eapply str_lt_trans.
Qed.

(** ** The machine of one subscription, with its trace *)

Fixpoint machine_trace {V} (f : op -> V -> V * list ServerMsg) (ops : list op) (v : V)
    : list (op * list ServerMsg) :=
  match ops with
  | [] => []
  | o :: ops => let '(v', out) := f o v in (o, out) :: machine_trace f ops v'
  end.

Lemma machine_trace_out {V} f ops (v : V) :
  (run_machine f ops v).2 = concat (machine_trace f ops v).*2.
Proof.
  revert v. induction ops as [|o ops IH]; intros v; simpl; [done|].
  destruct (f o v) as [v' out]. specialize (IH v'). destruct (run_machine f ops v'). simpl in *.
  by rewrite IH.
Qed.

Definition about_sub (sub : string) (x : op * list ServerMsg) : op * list ServerMsg :=
  (x.1, List.filter (is_req_for sub) x.2).

Lemma do_trace_out s ops s' out tr :
  do_ops s ops = Ok (s', out) -> do_trace s ops = Ok tr -> out = concat tr.*2.
Proof.
  revert s s' out tr. induction ops as [|o ops IH]; intros s s' out tr; simpl.
  { by intros [= <- <-] [= <-]. }
  destruct (do_op s o) as [[s1 out1]| |]; try done. simpl.
  destruct (do_ops s1 ops) as [[s2 out2]| |] eqn:H1; try done. simpl.
  destruct (do_trace s1 ops) as [tr'| |] eqn:H2; try done. simpl.
  intros [= <- <-] [= <-]. simpl. f_equal. by eapply IH.
Qed.

Lemma do_trace_machine sub s ops tr :
  do_trace s ops = Ok tr ->
  machine_trace (sub_machine (numHandlers s) sub) ops (sub_view sub s) = about_sub sub <$> tr.
Proof.
  revert s tr. induction ops as [|o ops IH]; intros s tr; simpl.
  { by intros [= <-]. }
  destruct (do_op s o) as [[s1 out1]| |] eqn:Ho; try done. simpl.
  destruct (do_trace s1 ops) as [tr'| |] eqn:H2; try done. simpl.
  intros [= <-]. destruct (do_op_sub_view sub s o s1 out1 Ho) as [Hv Hf].
  pose proof (do_op_n _ _ _ _ Ho) as Hn. apply IH in H2. rewrite Hn in H2.
  destruct (sub_machine (numHandlers s) sub o (sub_view sub s)) as [v' o'] eqn:Hm. simpl in *. subst.
  by rewrite H2.
Qed.

Lemma do_trace_total n ops s : Forall (op_ok n) ops -> exists tr, do_trace s ops = Ok tr.
Proof.
  intros Hok. revert s. induction Hok as [|o ops Ho Hops IH]; intros s; simpl; [eauto|].
  destruct (do_op_total n o s Ho) as (s1 & out & ->). simpl.
  destruct (IH s1) as (tr & ->). simpl. eauto.
Qed.

(** Observations look only at the messages about the subscription. *)
Lemma existsb_about sub out :
  existsb (is_eose_for sub) (List.filter (is_req_for sub) out) = existsb (is_eose_for sub) out.
Proof.
  induction out as [|m out IH]; simpl; [done|].
  unfold is_req_for at 1. destruct (is_event_for sub m) eqn:He; simpl.
  - by rewrite IH.
  - destruct (is_eose_for sub m) eqn:H; simpl; rewrite ?H; done.
Qed.

Lemma delivered_about sub over o out :
  delivered sub over o (List.filter (is_req_for sub) out) = delivered sub over o out.
Proof.
  unfold delivered. destruct o as [| | | | |i msg]; try done.
  destruct (is_event_for sub msg) eqn:He; [|done]. simpl.
  replace (bool_decide (msg ∈ List.filter (is_req_for sub) out)) with (bool_decide (msg ∈ out)); [done|].
  apply bool_decide_ext. rewrite !list_elem_of_In, List.filter_In.
  assert (is_req_for sub msg = true) by (unfold is_req_for; by rewrite He). tauto.
Qed.

Lemma stored_events_about sub over tr :
  stored_events sub over (about_sub sub <$> tr) = stored_events sub over tr.
Proof.
  revert over. induction tr as [|[o out] tr IH]; intros over; [done|].
  rewrite fmap_cons. cbn [stored_events about_sub fst snd].
  by rewrite delivered_about, existsb_about, IH.
Qed.

(** ** The stored phase, step by step *)

(** What holds of the stored events [evs] delivered so far and of all the event
    ids [ids] sent so far. *)
Record req_good (limit : Z) (evs : list Event) (ids : list string) : Prop := {
  rg_sorted : StronglySorted ev_before evs;
  rg_limit : 0 < limit -> Z.of_nat (length evs) <= limit;
  rg_ids : NoDup ids;
  rg_sub : forall e, e ∈ evs -> ev_ID e ∈ ids
}.

Record req_state (n : nat) (limit : Z) (over : list (nat * unit)) (evs : list Event)
    (ids : list string) (p : pendingEOSE) : Prop := {
  rs_good : req_good limit evs ids;
  rs_indices : indices n over.*1;
  rs_flags : flags n over.*1 (pe_handlerEOSESent p);
  rs_received : pe_received p = Z.of_nat (length over);
  rs_open : (length over < n)%nat;
  rs_eoseSent : pe_eoseSent p = false;
  rs_limit : pe_limit p = limit;
  rs_count : pe_eventCount p = Z.of_nat (length evs);
  rs_room : 0 < limit -> Z.of_nat (length evs) < limit;
  rs_seen : forall x, x ∈ pe_seenEventIDs p <-> x ∈ ids;
  rs_last : match last evs with
            | None => pe_hasSentEvent p = false
            | Some e => pe_hasSentEvent p = true /\ pe_lastCreatedAt p = Unix (ev_CreatedAt e) /\
                        pe_lastID p = ev_ID e
            end
}.

(** The two ways a call can leave the subscription. *)
Inductive req_after (n : nat) (limit : Z) (sub : string) (over : list (nat * unit))
    (evs : list Event) (ids : list string) : Sub * list ServerMsg -> Prop :=
| req_continues p out :
    req_state n limit over evs ids p -> existsb (is_eose_for sub) out = false ->
    req_after n limit sub over evs ids ((Some p, false), out)
| req_finishes out :
    req_good limit evs ids -> List.filter (is_eose_for sub) out = [NewServerEOSEMsg sub] ->
    (0 < limit /\ Z.of_nat (length evs) = limit) \/ length over = n ->
    req_after n limit sub over evs ids ((None, true), out).

Lemma StronglySorted_snoc {A} (R : A -> A -> Prop) l a :
  StronglySorted R l -> (forall x, x ∈ l -> R x a) -> StronglySorted R (l ++ [a]).
Proof.
  intros Hl Ha. apply StronglySorted_app. split_and!; auto.
  - intros x y Hx ->%list_elem_of_singleton. auto.
  - repeat constructor.
Qed.

Lemma ev_before_all `{Transitive A R} l (e a : A) :
  StronglySorted R l -> last l = Some e -> R e a -> forall x, x ∈ l -> R x a.
Proof.
  intros Hs (l' & ->)%last_Some Hea x. apply StronglySorted_app in Hs as (Hc & _ & _).
  intros [Hx| ->%list_elem_of_singleton]%elem_of_app; [|done].
  transitivity e; [|done]. apply Hc; [done|by left].
Qed.

(** An event that passes the three tests comes after all delivered ones. *)
Lemma in_order_after n limit over evs ids p e :
  req_state n limit over evs ids p ->
  ev_ID e ∉ pe_seenEventIDs p -> out_of_order p (Unix (ev_CreatedAt e)) (ev_ID e) = false ->
  forall x, x ∈ evs -> ev_before x e.
Proof.
  intros Hs Hnew Hord. pose proof (rs_last _ _ _ _ _ _ Hs) as Hlast.
  destruct (last evs) as [l|] eqn:Hl.
  2:{ apply last_None in Hl as ->. set_solver. }
  destruct Hlast as (H1 & H2 & H3). unfold out_of_order in Hord. rewrite H1, H2, H3 in Hord. simpl in Hord.
  apply (ev_before_all _ l); [apply Hs|done|].
  apply orb_false_iff in Hord as [Ht Hi]. apply Z.ltb_ge in Ht. unfold ev_before.
  destruct (Z.eqb_spec (Unix (ev_CreatedAt e)) (Unix (ev_CreatedAt l))) as [Heq|]; [|left; lia].
  right. split; [done|]. simpl in Hi. destruct (str_lt_total (ev_ID l) (ev_ID e)) as [|[Hid|Hid]]; [done|..].
  - destruct Hnew. apply (rs_seen _ _ _ _ _ _ Hs). rewrite <-Hid. apply (rg_sub limit evs); [apply Hs|].
    apply last_Some in Hl as (l' & ->). set_solver.
  - unfold str_lt in Hid. congruence.
Qed.

(** A handler's end of stored events. *)
Lemma sub_eose_step n limit sub over evs ids p i :
  req_state n limit over evs ids p -> (i < n)%nat ->
  req_after n limit sub (if decide (i ∈ over.*1) then over else over ++ [(i, tt)]) evs ids
    (sub_eose n sub i (Some p, false)) /\
  event_ids sub (before_eose sub (sub_eose n sub i (Some p, false)).2) = [].
Proof.
  intros Hs Hi. unfold sub_eose. cbn [fst snd]. rewrite (rs_eoseSent _ _ _ _ _ _ Hs).
  destruct (rs_flags _ _ _ _ _ _ Hs) as [Hlen Hfl]. rewrite Hfl by done. simpl.
  case_bool_decide as Hin; case_decide; try done; [by split; [by constructor|]|].
  rewrite (rs_received _ _ _ _ _ _ Hs).
  destruct (Z.leb_spec (Z.of_nat n) (Z.of_nat (length over) + 1)) as [Hn|Hn];
    (split; [|simpl; unfold is_eose_for; simpl; by rewrite ?String.eqb_refl]).
  - apply req_finishes; [apply Hs| |].
    + simpl. unfold is_eose_for. simpl. by rewrite String.eqb_refl.
    + right. pose proof (rs_open _ _ _ _ _ _ Hs). rewrite length_app. simpl. lia.
  - apply req_continues; [|done]. destruct Hs. constructor; auto; cbn.
    + rewrite fmap_app. by apply indices_snoc.
    + rewrite fmap_app. by apply flags_snoc.
    + rewrite length_app. simpl. lia.
    + rewrite length_app. simpl. lia.
Qed.

Lemma event_not_eose sub msg : is_event_for sub msg = true -> is_eose_for sub msg = false.
Proof.
  unfold is_event_for, is_eose_for. intros [Ht _]%andb_true_iff.
  apply String.eqb_eq in Ht. by rewrite Ht.
Qed.

Lemma event_ids_one sub msg e : is_event_for sub msg = true -> s_Event msg = Some e ->
  event_ids sub [msg] = [ev_ID e].
Proof. intros H He. unfold event_ids. simpl. rewrite H. simpl. by rewrite He. Qed.

Lemma delivered_over sub over i msg out : i ∈ over.*1 -> delivered sub over (Response i msg) out = [].
Proof. intros Hi. unfold delivered. rewrite (bool_decide_eq_false_2 (i ∉ over.*1)) by naive_solver. by rewrite andb_false_r. Qed.

Lemma delivered_none sub over o : delivered sub over o [] = [].
Proof.
  destruct o as [| | | | |i msg]; try done. unfold delivered.
  rewrite (bool_decide_eq_false_2 (msg ∈ [])) by set_solver. by rewrite andb_false_r.
Qed.

Lemma delivered_stored sub over i msg e out :
  is_event_for sub msg = true -> s_Event msg = Some e -> i ∉ over.*1 -> msg ∈ out ->
  delivered sub over (Response i msg) out = [e].
Proof.
  intros H He Hi Hin. unfold delivered. rewrite H, He, !bool_decide_eq_true_2 by done. done.
Qed.

Lemma req_good_live limit evs ids id : req_good limit evs ids -> id ∉ ids -> req_good limit evs (ids ++ [id]).
Proof.
  intros [H1 H2 H3 H4] Hid. constructor; auto.
  - apply NoDup_app. split_and!; [done|set_solver|apply NoDup_singleton].
  - set_solver.
Qed.

Lemma req_good_stored limit evs ids e :
  req_good limit evs ids -> ev_ID e ∉ ids -> (forall x, x ∈ evs -> ev_before x e) ->
  (0 < limit -> Z.of_nat (length evs) < limit) -> req_good limit (evs ++ [e]) (ids ++ [ev_ID e]).
Proof.
  intros [H1 H2 H3 H4] Hid Hb Hr. constructor.
  - by apply StronglySorted_snoc.
  - rewrite length_app. simpl. lia.
  - apply NoDup_app. split_and!; [done|set_solver|apply NoDup_singleton].
  - set_solver.
Qed.

Lemma sub_event_step n limit sub over evs ids p i msg e :
  req_state n limit over evs ids p -> (i < n)%nat ->
  is_event_for sub msg = true -> s_Event msg = Some e ->
  let r := sub_event sub i msg e (Some p, false) in
  req_after n limit sub over (evs ++ delivered sub over (Response i msg) r.2)
    (ids ++ event_ids sub (before_eose sub r.2)) r.
Proof.
  intros Hs Hi Hev He r. subst r.
  pose proof (event_not_eose _ _ Hev) as Hne.
  destruct (rs_flags _ _ _ _ _ _ Hs) as [Hlen Hfl].
  unfold sub_event. cbn [fst snd]. rewrite (rs_eoseSent _ _ _ _ _ _ Hs), Hfl by done.
  case_bool_decide as Hseen.
  { cbn [fst snd]. rewrite delivered_none. cbn. rewrite !app_nil_r. by apply req_continues. }
  pose proof Hseen as Hid. rewrite (rs_seen _ _ _ _ _ _ Hs) in Hid.
  case_bool_decide as Hin.
  { cbn [fst snd]. rewrite delivered_over by done. cbn [before_eose]. rewrite Hne, (event_ids_one _ _ e), app_nil_r by done.
    apply req_continues; [|simpl; by rewrite Hne].
    destruct Hs. constructor; auto; cbn; [by apply req_good_live|set_solver]. }
  destruct (out_of_order p (Unix (ev_CreatedAt e)) (ev_ID e)) eqn:Hord.
  { cbn [fst snd]. rewrite delivered_none. cbn. rewrite !app_nil_r. by apply req_continues. }
  pose proof (in_order_after _ _ _ _ _ _ e Hs Hseen Hord) as Hafter.
  pose proof (req_good_stored limit evs ids e (rs_good _ _ _ _ _ _ Hs) Hid Hafter
                (rs_room _ _ _ _ _ _ Hs)) as Hgood.
  cbv zeta. cbn [pe_limit pe_eventCount]. rewrite (rs_limit _ _ _ _ _ _ Hs), (rs_count _ _ _ _ _ _ Hs).
  destruct ((0 <? limit) && (limit <=? Z.of_nat (length evs) + 1)) eqn:Hfull; cbn [fst snd];
    rewrite (delivered_stored _ _ _ _ e) by (done || by left).
  - apply andb_true_iff in Hfull as [H1%Z.ltb_lt H2%Z.leb_le].
    assert (before_eose sub [msg; NewServerEOSEMsg sub] = [msg]) as ->.
    { cbn [before_eose]. rewrite Hne. unfold is_eose_for. simpl. by rewrite String.eqb_refl. }
    rewrite (event_ids_one _ _ e) by done. apply req_finishes; [done| |].
    + simpl. rewrite Hne. unfold is_eose_for. simpl. by rewrite String.eqb_refl.
    + left. pose proof (rs_room _ _ _ _ _ _ Hs H1). rewrite length_app. simpl. split; lia.
  - assert (before_eose sub [msg] = [msg]) as -> by (simpl; by rewrite Hne).
    rewrite (event_ids_one _ _ e) by done.
    apply req_continues; [|simpl; by rewrite Hne].
    destruct Hs. constructor; auto; cbn [pe_received pe_seenEventIDs pe_eventCount pe_hasSentEvent
      pe_lastCreatedAt pe_lastID pe_limit pe_eoseSent pe_handlerEOSESent].
    + rewrite length_app. simpl. lia.
    + intros Hpos. rewrite length_app. simpl. apply andb_false_iff in Hfull as [Hf|Hf];
        [apply Z.ltb_ge in Hf|apply Z.leb_gt in Hf]; lia.
    + set_solver.
    + by rewrite last_snoc.
Qed.

(** ** Whole runs *)

(** The live events the handlers send for [sub], in order. *)
Definition live_msgs (sub : string) (ops : list op) : list ServerMsg :=
  omap (fun o => match o with
    | Response _ msg => if is_event_for sub msg then Some msg else None
    | _ => None end) ops.

Lemma live_step n sub o :
  op_ok n o -> restarts_sub sub o = false ->
  sub_machine n sub o (None, true) = ((None, true), live_msgs sub [o]).
Proof.
  intros Hok Hr. destruct o as [|sub' fs| |sub'|o1 o2 o3 i|i msg]; try done.
  - simpl in *. case_decide as Heq; [|done]. by rewrite Heq, String.eqb_refl in Hr.
  - simpl in *. case_decide as Heq; [|done]. by rewrite Heq, String.eqb_refl in Hr.
  - unfold live_msgs. simpl. destruct (is_event_for sub msg) eqn:He; [|by case_match].
    destruct Hok as [_ Hev]. destruct (s_Event msg) eqn:Hm; [done|].
    destruct (Hev); [|done]. unfold is_event_for in He. apply andb_true_iff in He as [He _].
    by apply String.eqb_eq.
Qed.

Lemma live_run n sub ops :
  Forall (op_ok n) ops -> Forall (fun o => restarts_sub sub o = false) ops ->
  concat (machine_trace (sub_machine n sub) ops (None, true)).*2 = live_msgs sub ops.
Proof.
  intros Hok. induction Hok as [|o ops Ho Hops IH]; intros Hr; [done|].
  apply Forall_cons in Hr as [Hro Hr]. cbn [machine_trace]. rewrite (live_step n) by done.
  rewrite fmap_cons. cbn [concat snd]. rewrite IH by done.
  unfold live_msgs. destruct o as [| | | | |i msg]; try done. cbn [omap list_omap].
  by destruct (is_event_for sub msg).
Qed.

Lemma live_msgs_no_eose sub ops : List.filter (is_eose_for sub) (live_msgs sub ops) = [].
Proof.
  unfold live_msgs. induction ops as [|o ops IH]; [done|].
  destruct o as [| | | | |i msg]; try done. cbn [omap list_omap].
  destruct (is_event_for sub msg) eqn:He; [|done]. cbn [List.filter].
  by rewrite (event_not_eose _ _ He).
Qed.

Lemma before_eose_app sub l1 l2 :
  before_eose sub (l1 ++ l2) =
  if existsb (is_eose_for sub) l1 then before_eose sub l1 else l1 ++ before_eose sub l2.
Proof.
  induction l1 as [|m l1 IH]; [done|]. simpl. destruct (is_eose_for sub m); simpl; [done|].
  rewrite IH. by destruct (existsb (is_eose_for sub) l1).
Qed.

Lemma before_eose_all sub l : existsb (is_eose_for sub) l = false -> before_eose sub l = l.
Proof.
  intros H. rewrite <-(app_nil_r l) at 1. rewrite before_eose_app, H. simpl. by rewrite app_nil_r.
Qed.

Lemma event_ids_app sub l1 l2 : event_ids sub (l1 ++ l2) = event_ids sub l1 ++ event_ids sub l2.
Proof. unfold event_ids. by rewrite List.filter_app, omap_app, fmap_app. Qed.

(** A call of the stored phase, whatever it is. *)
Lemma sub_machine_step n limit sub over evs ids p o :
  req_state n limit over evs ids p -> op_ok n o -> restarts_sub sub o = false ->
  let r := sub_machine n sub o (Some p, false) in
  req_after n limit sub (answers (says_eose sub) over [o]) (evs ++ delivered sub over o r.2)
    (ids ++ event_ids sub (before_eose sub r.2)) r.
Proof.
  intros Hs Hok Hr r. subst r.
  assert (Hnone : forall over', over' = over ->
    req_after n limit sub over' (evs ++ delivered sub over o [])
      (ids ++ event_ids sub (before_eose sub [])) ((Some p, false), [])).
  { intros over' ->. rewrite delivered_none. cbn. rewrite !app_nil_r. by apply req_continues. }
  destruct o as [id|sub' fs|sub'|sub'|o1 o2 o3 i|i msg]; cbn [sub_machine]; try by apply Hnone.
  - simpl in Hr. case_decide as Heq; [by rewrite Heq, String.eqb_refl in Hr|]. by apply Hnone.
  - simpl in Hr. case_decide as Heq; [by rewrite Heq, String.eqb_refl in Hr|]. by apply Hnone.
  - destruct (sub_eose_step n limit sub over evs ids p i Hs Hok) as [Ha Hids].
    rewrite Hids. cbn [delivered]. by rewrite !app_nil_r.
  - destruct (is_event_for sub msg) eqn:He.
    + destruct Hok as [Hi Hev].
      assert (Hans : answers (says_eose sub) over [Response i msg] = over).
      { cbn. by rewrite (event_not_eose _ _ He). }
      rewrite Hans. destruct (s_Event msg) as [e|] eqn:Hm; [by apply sub_event_step|].
      destruct Hev; [|done]. unfold is_event_for in He. apply andb_true_iff in He as [He _].
      by apply String.eqb_eq.
    + destruct (is_eose_for sub msg) eqn:Hm; cbn [fst snd].
      * destruct Hok as [Hi _].
        destruct (sub_eose_step n limit sub over evs ids p i Hs Hi) as [Ha Hids].
        assert (Hd : forall out, delivered sub over (Response i msg) out = []).
        { intros out. unfold delivered. by rewrite He. }
        rewrite Hd, app_nil_r. cbn [answers fold_left says_eose]. rewrite Hm.
        by rewrite Hids, app_nil_r.
      * apply Hnone. cbn. by rewrite Hm.
Qed.

(** Is the stored phase over, given the events delivered and who has finished? *)
Definition phase_over (n : nat) (limit : Z) (evs : list Event) (over : list (nat * unit)) : bool :=
  ((0 <? limit) && (Z.of_nat (length evs) =? limit)) || (n <=? length over)%nat.

Lemma phase_over_open n limit over evs ids p :
  req_state n limit over evs ids p -> phase_over n limit evs over = false.
Proof.
  intros Hs. unfold phase_over. pose proof (rs_open _ _ _ _ _ _ Hs). pose proof (rs_room _ _ _ _ _ _ Hs).
  rewrite (proj2 (Nat.leb_gt _ _)), orb_false_r by done.
  destruct (Z.ltb_spec 0 limit); [|done]. simpl. apply Z.eqb_neq. lia.
Qed.

Lemma speaks_eose n sub : speaks n (says_eose sub).
Proof.
  intros o i x Hok. destruct o; simpl in *; try done; [by intros [= <- <-]|].
  case_match; [|done]. intros [= <- <-]. apply Hok.
Qed.

Lemma answers_length {X} (says : op -> option (nat * X)) acc ops :
  (length acc <= length (answers says acc ops))%nat.
Proof.
  revert acc. induction ops as [|o ops IH]; intros acc; [done|]. rewrite answers_cons.
  destruct (says o) as [[i x]|]; [|apply IH]. case_decide; [apply IH|].
  etrans; [|apply IH]. rewrite length_app. lia.
Qed.

Lemma req_run n limit sub ops over evs ids p :
  Forall (op_ok n) ops -> Forall (fun o => restarts_sub sub o = false) ops ->
  req_state n limit over evs ids p ->
  let tr := machine_trace (sub_machine n sub) ops (Some p, false) in
  let evs' := evs ++ stored_events sub over tr in
  let out := concat tr.*2 in
  req_good limit evs' (ids ++ event_ids sub (before_eose sub out)) /\
  List.filter (is_eose_for sub) out =
  if phase_over n limit evs' (answers (says_eose sub) over ops) then [NewServerEOSEMsg sub] else [].
Proof.
  intros Hok. revert over evs ids p. induction Hok as [|o ops Ho Hops IH]; intros over evs ids p Hr Hs.
  { cbn. rewrite !app_nil_r. split; [apply Hs|]. by rewrite (phase_over_open _ _ _ _ _ _ Hs). }
  apply Forall_cons in Hr as [Hro Hr]. cbn [machine_trace].
  pose proof (sub_machine_step _ _ _ _ _ _ _ _ Hs Ho Hro) as Hstep. cbv zeta in Hstep.
  destruct (sub_machine n sub o (Some p, false)) as [st out] eqn:Hm. cbn [snd] in Hstep.
  cbv zeta. rewrite fmap_cons. cbn [concat snd stored_events].
  rewrite before_eose_app, List.filter_app.
  assert (Hans : answers (says_eose sub) over (o :: ops) =
    answers (says_eose sub) (answers (says_eose sub) over [o]) ops) by done.
  rewrite Hans. inversion Hstep as [p' out' Hs' Hne|out' Hg Heose Hwhy]; subst.
  - rewrite Hne, event_ids_app.
    rewrite before_eose_all in Hs' by done.
    destruct (IH _ _ _ _ Hr Hs') as [H1 H2]. cbv zeta in H1, H2.
    rewrite <-!app_assoc in H1. rewrite <-!app_assoc in H2. split; [done|].
    rewrite H2. assert (List.filter (is_eose_for sub) out = []) as ->; [|done].
    clear -Hne. induction out as [|m out IH]; [done|]. simpl in *.
    apply orb_false_iff in Hne as [-> ?]. auto.
  - assert (Hex : existsb (is_eose_for sub) out = true).
    { destruct (existsb (is_eose_for sub) out) eqn:Hex; [done|]. exfalso.
      clear -Heose Hex. induction out as [|m out IH]; [done|]. simpl in *.
      apply orb_false_iff in Hex as [Hm ?]. rewrite Hm in Heose. auto. }
    rewrite Hex, app_nil_r, live_run, live_msgs_no_eose, app_nil_r by done. split; [done|].
    rewrite Heose. unfold phase_over. destruct Hwhy as [[H1 H2]|Hfull].
    + by rewrite (proj2 (Z.ltb_lt _ _) H1), H2, Z.eqb_refl.
    + rewrite (proj2 (Nat.leb_le _ _)), orb_true_r; [done|].
      rewrite <-Hfull. apply answers_length.
Qed.

Lemma fresh_req_state n filters :
  (0 < n)%nat ->
  req_state n (req_limit filters) [] [] []
    (mkPendingEOSE 0 ∅ 0 "" false (req_limit filters) 0 false (replicate n false)).
Proof.
  intros Hn. constructor; try done; try (set_solver || lia).
  - constructor; [apply SSorted_nil|simpl; lia|constructor|set_solver].
  - split; [constructor|done].
  - apply flags_fresh.
Qed.

Lemma startReq_view s sub fs :
  sub_view sub (startReqResponse s sub fs) = fresh_sub (numHandlers s) fs.
Proof. by destruct (do_op_sub_view sub s (StartReq sub fs) _ _ eq_refl) as [-> _]; simpl; rewrite decide_True. Qed.

Lemma eose_filter_about sub out :
  List.filter (is_eose_for sub) (List.filter (is_req_for sub) out) = List.filter (is_eose_for sub) out.
Proof.
  induction out as [|m out IH]; simpl; [done|]. unfold is_req_for at 1.
  destruct (is_event_for sub m) eqn:He; simpl; [by rewrite IH|].
  destruct (is_eose_for sub m) eqn:H; simpl; rewrite ?H, IH; done.
Qed.

Lemma event_ids_cons sub m l : event_ids sub (m :: l) = event_ids sub [m] ++ event_ids sub l.
Proof. apply (event_ids_app sub [m] l). Qed.

Lemma before_eose_about sub out :
  event_ids sub (before_eose sub (List.filter (is_req_for sub) out)) =
  event_ids sub (before_eose sub out).
Proof.
  induction out as [|m out IH]; [done|]. cbn [List.filter before_eose]. unfold is_req_for at 1.
  destruct (is_event_for sub m) eqn:He; cbn [orb].
  - cbn [before_eose]. rewrite (event_not_eose _ _ He).
    by rewrite (event_ids_cons sub m (before_eose sub (List.filter _ _))), IH, <-event_ids_cons.
  - destruct (is_eose_for sub m) eqn:H; cbn [before_eose]; rewrite ?H; [done|].
    rewrite (event_ids_cons sub m), IH. unfold event_ids at 2. simpl. by rewrite He.
Qed.

(** What a client sees of a subscription from its REQ on. *)
Lemma req_seen s sub fs ops s' out tr :
  (0 < numHandlers s)%nat -> Forall (op_ok (numHandlers s)) ops ->
  Forall (fun o => restarts_sub sub o = false) ops ->
  do_ops (startReqResponse s sub fs) ops = Ok (s', out) ->
  do_trace (startReqResponse s sub fs) ops = Ok tr ->
  let evs := stored_events sub [] tr in
  req_good (req_limit fs) evs (event_ids sub (before_eose sub out)) /\
  List.filter (is_eose_for sub) out =
  if phase_over (numHandlers s) (req_limit fs) evs (answers (says_eose sub) [] ops)
  then [NewServerEOSEMsg sub] else [].
Proof.
  intros Hn Hok Hr Hrun Htr.
  assert (Hout := do_trace_out _ _ _ _ _ Hrun Htr).
  apply (do_trace_machine sub) in Htr. rewrite startReq_view in Htr.
  assert (Hc : concat (about_sub sub <$> tr).*2 = List.filter (is_req_for sub) out).
  { rewrite Hout. clear. induction tr as [|[o l] tr IH]; [done|].
    rewrite !fmap_cons. cbn [concat about_sub fst snd]. by rewrite List.filter_app, IH. }
  pose proof (req_run _ _ _ _ _ _ _ _ Hok Hr (fresh_req_state _ fs Hn)) as [H1 H2].
  change (Some (mkPendingEOSE 0 ∅ 0 "" false (req_limit fs) 0 false (replicate (numHandlers s) false)), false)
    with (fresh_sub (numHandlers s) fs) in H1, H2.
  cbn [numHandlers startReqResponse set_pendingEOSEs set_completedSubs] in Htr.
  rewrite Htr in H1, H2. cbn [app] in H1, H2.
  rewrite Hc, stored_events_about, ?before_eose_about in H1.
  rewrite Hc, stored_events_about, ?eose_filter_about in H2. done.
Qed.

(** ** A single source of stored events loses none

    The merger drops an event that arrives behind a later one of another
    handler; with one handler sending stored events (a storage next to routers)
    there is no such event. *)

(** Only handler [i] sends events for [sub] before its EOSE. *)
Fixpoint sole_source (sub : string) (i : nat) (over : list (nat * unit)) (ops : list op) : bool :=
  match ops with
  | [] => true
  | o :: ops =>
      match o with
      | Response j msg =>
          if is_event_for sub msg then bool_decide (j = i) || bool_decide (j ∈ over.*1) else true
      | _ => true
      end && sole_source sub i (answers (says_eose sub) over [o]) ops
  end.

(** The event a call brings from [i] as a stored event, and all of them. *)
Definition sent_now (sub : string) (i : nat) (over : list (nat * unit)) (o : op) : list Event :=
  match o with
  | Response j msg =>
      if is_event_for sub msg && bool_decide (j = i) && bool_decide (i ∉ over.*1)
      then option_list (s_Event msg) else []
  | _ => []
  end.

Fixpoint sent_by (sub : string) (i : nat) (over : list (nat * unit)) (ops : list op) : list Event :=
  match ops with
  | [] => []
  | o :: ops => sent_now sub i over o ++ sent_by sub i (answers (says_eose sub) over [o]) ops
  end.

Lemma answers_mono {X} (says : op -> option (nat * X)) over o i :
  i ∈ over.*1 -> i ∈ (answers says over [o]).*1.
Proof.
  intros Hi. cbn. destruct (says o) as [[j x]|]; [|done]. case_decide; [done|].
  rewrite fmap_app. set_solver.
Qed.

Lemma answers_indices {X} n (says : op -> option (nat * X)) over o :
  speaks n says -> op_ok n o -> indices n over.*1 -> indices n (answers says over [o]).*1.
Proof.
  intros Hsp Ho Hi. cbn. destruct (says o) as [[j x]|] eqn:Hs; [|done]. case_decide; [done|].
  rewrite fmap_app. apply indices_snoc; [done..|]. eapply Hsp; eauto.
Qed.

Lemma sent_by_over sub i over ops : i ∈ over.*1 -> sent_by sub i over ops = [].
Proof.
  revert over. induction ops as [|o ops IH]; intros over Hi; [done|]. cbn [sent_by].
  rewrite IH by by apply answers_mono. rewrite app_nil_r. unfold sent_now.
  destruct o as [| | | | |j msg]; try done. rewrite (bool_decide_eq_false_2 (i ∉ over.*1)) by naive_solver.
  by rewrite andb_false_r.
Qed.

Lemma before_in_order n limit over evs ids p e :
  req_state n limit over evs ids p -> (forall x, x ∈ evs -> ev_before x e) ->
  out_of_order p (Unix (ev_CreatedAt e)) (ev_ID e) = false.
Proof.
  intros Hs Hb. pose proof (rs_last _ _ _ _ _ _ Hs) as Hlast. unfold out_of_order.
  destruct (last evs) as [l|] eqn:Hl; [|by rewrite Hlast].
  destruct Hlast as (-> & -> & ->).
  assert (Hle : ev_before l e). { apply Hb. apply last_Some in Hl as (l' & ->). set_solver. }
  destruct Hle as [Hlt|[Heq Hid]]; simpl.
  - apply orb_false_iff. split; [apply Z.ltb_ge; lia|].
    by rewrite (proj2 (Z.eqb_neq _ _)) by lia.
  - rewrite Heq, Z.ltb_irrefl, Z.eqb_refl. simpl.
    destruct (str_ltb (ev_ID e) (ev_ID l)) eqn:Hlt; [|done].
    destruct (str_lt_irrefl (ev_ID e)). by eapply str_lt_trans.
Qed.

(** What the sole source sends now is sent on, or was sent before. *)
Lemma sole_source_step n limit sub i over evs ids p o :
  limit <= 0 -> req_state n limit over evs ids p -> op_ok n o ->
  (forall x y, x ∈ evs -> y ∈ sent_now sub i over o -> ev_before x y) ->
  let r := sub_machine n sub o (Some p, false) in
  forall e, e ∈ sent_now sub i over o -> ev_ID e ∈ ids ++ event_ids sub (before_eose sub r.2).
Proof.
  intros Hlim Hs Hok Hb r e He. specialize (fun x Hx => Hb x e Hx He). subst r.
  unfold sent_now in He. destruct o as [| | | | |j msg]; try (by apply elem_of_nil in He).
  destruct (is_event_for sub msg) eqn:Hev; [|by apply elem_of_nil in He].
  case_bool_decide as Hj; [|by apply elem_of_nil in He].
  case_bool_decide as Hi; [|by apply elem_of_nil in He]. subst j. simpl in He.
  destruct (s_Event msg) as [e'|] eqn:Hm; [|by apply elem_of_nil in He].
  apply list_elem_of_singleton in He as ->.
  cbn [sub_machine]. rewrite Hev, Hm. unfold sub_event. cbn [fst snd].
  rewrite (rs_eoseSent _ _ _ _ _ _ Hs). case_bool_decide as Hseen.
  { apply elem_of_app. left. by apply (rs_seen _ _ _ _ _ _ Hs). }
  destruct (rs_flags _ _ _ _ _ _ Hs) as [_ ->]; [|apply Hok].
  rewrite bool_decide_eq_false_2 by done.
  rewrite (before_in_order _ _ _ _ _ _ _ Hs Hb). cbv zeta. cbn [pe_limit].
  rewrite (rs_limit _ _ _ _ _ _ Hs), (proj2 (Z.ltb_ge _ _) Hlim). cbn [andb snd before_eose].
  rewrite (event_not_eose _ _ Hev), (event_ids_one _ _ _ Hev Hm). set_solver.
Qed.

Lemma delivered_sent n sub i over o out :
  op_ok n o -> sole_source sub i over [o] = true ->
  forall e, e ∈ delivered sub over o out -> e ∈ sent_now sub i over o.
Proof.
  intros Hok Hsole e. unfold delivered, sent_now.
  destruct o as [| | | | |j msg]; try done. simpl in Hsole.
  destruct (is_event_for sub msg); [|done]. rewrite andb_true_r in Hsole.
  apply orb_true_iff in Hsole as [->%bool_decide_eq_true|Hj%bool_decide_eq_true].
  - rewrite (bool_decide_eq_true_2 (i = i)) by done. cbn [andb].
    repeat case_bool_decide; cbn [andb]; try done; by intros ?%elem_of_nil.
  - rewrite (bool_decide_eq_false_2 (j ∉ over.*1)) by naive_solver.
    by intros ?%elem_of_nil.
Qed.

Lemma sole_source_run n limit sub i ops over evs ids p :
  (i < n)%nat -> limit <= 0 ->
  Forall (op_ok n) ops -> Forall (fun o => restarts_sub sub o = false) ops ->
  sole_source sub i over ops = true ->
  StronglySorted ev_before (sent_by sub i over ops) ->
  (forall x y, x ∈ evs -> y ∈ sent_by sub i over ops -> ev_before x y) ->
  req_state n limit over evs ids p ->
  forall e, e ∈ sent_by sub i over ops ->
  ev_ID e ∈ ids ++ event_ids sub (before_eose sub
    (concat (machine_trace (sub_machine n sub) ops (Some p, false)).*2)).
Proof.
  intros Hi Hlim Hok. revert over evs ids p.
  induction Hok as [|o ops Ho Hops IH]; intros over evs ids p Hr Hsole Hsort Hb Hs e He.
  { by apply elem_of_nil in He. }
  apply Forall_cons in Hr as [Hro Hr]. cbn [sent_by] in *. cbn [sole_source] in Hsole.
  apply andb_true_iff in Hsole as [Hso Hsole].
  apply StronglySorted_app in Hsort as (Hcross & _ & Hsort).
  pose proof (sole_source_step n limit sub i over evs ids p o Hlim Hs Ho
    ltac:(intros x y Hx Hy; apply Hb; set_solver)) as Hnow.
  pose proof (sub_machine_step _ _ _ _ _ _ _ _ Hs Ho Hro) as Hstep. cbv zeta in Hnow, Hstep.
  cbn [machine_trace]. destruct (sub_machine n sub o (Some p, false)) as [st out]. cbn [snd] in *.
  rewrite fmap_cons. cbn [concat snd]. rewrite before_eose_app.
  inversion Hstep as [p' out' Hs' Hne|out' Hg Heose Hwhy]; subst.
  - rewrite Hne, event_ids_app, app_assoc. rewrite before_eose_all in Hs', Hnow by done.
    apply elem_of_app in He as [He|He].
    + apply elem_of_app. left. by apply Hnow.
    + refine (IH _ _ _ p' Hr Hsole Hsort _ Hs' e He). intros x y Hx Hy. apply elem_of_app in Hx as [Hx|Hx].
      * apply Hb; set_solver.
      * apply Hcross; [|done]. eapply delivered_sent; [exact Ho| |exact Hx].
        cbn [sole_source]. by rewrite andb_true_r.
  - destruct Hwhy as [[? _]|Hfull]; [lia|].
    rewrite (sent_by_over sub i _ ops) in He.
    2:{ apply (indices_full n); [|by rewrite length_fmap|done].
        apply answers_indices; [apply speaks_eose|done|apply Hs]. }
    rewrite app_nil_r in He. apply Hnow in He.
    assert (Hex : existsb (is_eose_for sub) out = true); [|by rewrite Hex].
    destruct (existsb (is_eose_for sub) out) eqn:Hex; [done|]. exfalso.
    clear -Heose Hex. induction out as [|m out IH]; [done|]. simpl in *.
    apply orb_false_iff in Hex as [Hm ?]. rewrite Hm in Heose. auto.
Qed.

(** ** After the EOSE, and after a CLOSE *)

Lemma filter_nil_existsb {A} (p : A -> bool) l : existsb p l = false -> List.filter p l = [].
Proof.
  induction l as [|m l IH]; [done|]. simpl. intros [-> ?]%orb_false_iff. auto.
Qed.

Lemma live_final n sub ops :
  Forall (op_ok n) ops -> Forall (fun o => restarts_sub sub o = false) ops ->
  (run_machine (sub_machine n sub) ops (None, true)).1 = (None, true).
Proof.
  induction 1 as [|o ops Ho Hops IH]; [done|]. intros [Hro Hr]%Forall_cons.
  cbn [run_machine]. rewrite live_step by done.
  specialize (IH Hr). by destruct (run_machine _ ops _).
Qed.

Lemma req_final n limit sub ops over evs ids p :
  Forall (op_ok n) ops -> Forall (fun o => restarts_sub sub o = false) ops ->
  req_state n limit over evs ids p ->
  let r := run_machine (sub_machine n sub) ops (Some p, false) in
  List.filter (is_eose_for sub) r.2 <> [] -> r.1 = (None, true).
Proof.
  intros Hok. revert over evs ids p. induction Hok as [|o ops Ho Hops IH]; intros over evs ids p Hr Hs; [done|].
  apply Forall_cons in Hr as [Hro Hr]. cbn [run_machine].
  pose proof (sub_machine_step _ _ _ _ _ _ _ _ Hs Ho Hro) as Hstep. cbv zeta in Hstep.
  destruct (sub_machine n sub o (Some p, false)) as [st out]. cbn [snd] in Hstep.
  inversion Hstep as [p' out' Hs' Hne|out' Hg Heose Hwhy]; subst.
  - specialize (IH _ _ _ _ Hr Hs'). destruct (run_machine _ ops _) as [v outs]. cbn [fst snd] in *.
    rewrite List.filter_app, (filter_nil_existsb _ out) by done. done.
  - intros _. pose proof (live_final n sub ops Hops Hr) as Hl.
    by destruct (run_machine _ ops _).
Qed.

Definition starts_req (sub : string) (o : op) : bool :=
  match o with StartReq sub' _ => String.eqb sub' sub | _ => false end.
Definition starts_count (sub : string) (o : op) : bool :=
  match o with StartCount sub' => String.eqb sub' sub | _ => false end.

Lemma closed_sub_silent n sub ops :
  Forall (fun o => starts_req sub o = false) ops ->
  run_machine (sub_machine n sub) ops (None, false) = ((None, false), []).
Proof.
  induction 1 as [|o ops Ho Hops IH]; [done|]. cbn [run_machine].
  assert (sub_machine n sub o (None, false) = ((None, false), [])) as ->; [|by rewrite IH].
  destruct o as [|sub' fs| |sub'| |i msg]; try done.
  - simpl in *. case_decide as Heq; [|done]. by rewrite Heq, String.eqb_refl in Ho.
  - simpl. by case_decide.
  - simpl. repeat case_match; done.
Qed.

Lemma closed_count_silent n sub ops :
  Forall (fun o => starts_count sub o = false) ops ->
  run_machine (count_machine n sub) ops None = (None, []).
Proof.
  induction 1 as [|o ops Ho Hops IH]; [done|]. cbn [run_machine].
  assert (count_machine n sub o None = (None, [])) as ->; [|by rewrite IH].
  destruct o as [| |sub'|sub'| |i msg]; try done.
  - simpl in *. case_decide as Heq; [|done]. by rewrite Heq, String.eqb_refl in Ho.
  - simpl. by case_decide.
  - simpl. by case_match.
Qed.

(** ** Properties *)

Module MergeReqExamples.
Definition ev (id : string) (at_ : Z) : Event := mkEvent id "alice" (time_Unix at_) 1 (Some []) "" "".
Definition event (id : string) (at_ : Z) : ServerMsg := NewServerEventMsg "s" (Some (ev id at_)).
Definition limit (l : Z) : ReqFilter := set_Limit emptyFilter l.
Definition ops : list op :=
  [Response 0 (event "a" 30); Response 1 (NewServerEOSEMsg "s"); Response 1 (event "z" 99);
   Response 0 (event "b" 20); Response 0 (NewServerEOSEMsg "s"); Response 0 (event "c" 50)].
Definition session : mergeSession := newMergeSession 2 None.
End MergeReqExamples.

Ltac forall_ok := repeat constructor; vm_compute; try lia; try discriminate.

(** C2: a REQ gets its merged EOSE exactly once: when the limit of its first
    filter is reached by the stored events delivered, or else when every handler
    has sent its EOSE or ended; and never otherwise. *)
Theorem merge_eose_exactly_once (s : mergeSession) (sub : string) (fs : list ReqFilter) (ops : list op) :
  (0 < numHandlers s)%nat -> Forall (op_ok (numHandlers s)) ops ->
  Forall (fun o => restarts_sub sub o = false) ops ->
  exists s' out tr, do_ops (startReqResponse s sub fs) ops = Ok (s', out) /\
  do_trace (startReqResponse s sub fs) ops = Ok tr /\
  let stored := Z.of_nat (length (stored_events sub [] tr)) in
  let finished := answers (says_eose sub) [] ops in
  List.filter (is_eose_for sub) out =
  if ((0 <? req_limit fs) && (stored =? req_limit fs)) || (numHandlers s <=? length finished)%nat
  then [NewServerEOSEMsg sub] else [].
Proof.
  intros Hpos Hok Hst.
  destruct (do_ops_total _ ops (startReqResponse s sub fs) Hok) as (s' & out & Hrun).
  destruct (do_trace_total _ ops (startReqResponse s sub fs) Hok) as (tr & Htr).
  exists s', out, tr. split_and!; [done..|]. by apply (req_seen s sub fs ops s').
Qed.

Lemma merge_eose_exactly_once_witness :
  exists s' out tr,
    do_ops (startReqResponse MergeReqExamples.session "s" [emptyFilter]) MergeReqExamples.ops = Ok (s', out) /\
    do_trace (startReqResponse MergeReqExamples.session "s" [emptyFilter]) MergeReqExamples.ops = Ok tr /\
    List.filter (is_eose_for "s") out =
    if ((0 <? 0) && (Z.of_nat (length (stored_events "s" [] tr)) =? 0)) || (2 <=? 2)%nat
    then [NewServerEOSEMsg "s"] else [].
Proof.
  apply (merge_eose_exactly_once MergeReqExamples.session "s" [emptyFilter] MergeReqExamples.ops);
    forall_ok.
Defined.

(** Until the merged EOSE, whatever the handlers send: no event id is
    delivered twice; the stored events delivered are in strict order (newest
    second first, ties by the smaller id); and they are at most as many as the
    limit of the first filter. *)
Theorem merge_stored_events_ordered (s : mergeSession) (sub : string) (fs : list ReqFilter)
    (ops : list op) :
  (0 < numHandlers s)%nat -> Forall (op_ok (numHandlers s)) ops ->
  Forall (fun o => restarts_sub sub o = false) ops ->
  exists s' out tr, do_ops (startReqResponse s sub fs) ops = Ok (s', out) /\
  do_trace (startReqResponse s sub fs) ops = Ok tr /\
  let evs := stored_events sub [] tr in
  NoDup (event_ids sub (before_eose sub out)) /\ StronglySorted ev_before evs /\
  (0 < req_limit fs -> Z.of_nat (length evs) <= req_limit fs) /\
  (forall e, e ∈ evs -> ev_ID e ∈ event_ids sub (before_eose sub out)).
Proof.
  intros Hpos Hok Hst.
  destruct (do_ops_total _ ops (startReqResponse s sub fs) Hok) as (s' & out & Hrun).
  destruct (do_trace_total _ ops (startReqResponse s sub fs) Hok) as (tr & Htr).
  exists s', out, tr. destruct (req_seen s sub fs ops s' out tr) as [[H1 H2 H3 H4] _]; [done..|].
  do 2 (split; [done|]). auto.
Qed.

Lemma merge_stored_events_ordered_witness :
  exists s' out tr,
    do_ops (startReqResponse MergeReqExamples.session "s" [MergeReqExamples.limit 2]) MergeReqExamples.ops = Ok (s', out) /\
    do_trace (startReqResponse MergeReqExamples.session "s" [MergeReqExamples.limit 2]) MergeReqExamples.ops = Ok tr /\
    let evs := stored_events "s" [] tr in
    NoDup (event_ids "s" (before_eose "s" out)) /\ StronglySorted ev_before evs /\
    (0 < 2 -> Z.of_nat (length evs) <= 2) /\
    (forall e, e ∈ evs -> ev_ID e ∈ event_ids "s" (before_eose "s" out)).
Proof.
  apply (merge_stored_events_ordered MergeReqExamples.session "s" [MergeReqExamples.limit 2] MergeReqExamples.ops);
    forall_ok.
Defined.

(** Merging loses no stored event when only one handler has any: if the
    others send events only after their own EOSE, that handler's stored events
    come in strict order, and there is no limit, then each of them is delivered
    before the merged EOSE. *)
Theorem merge_sole_source_complete (s : mergeSession) (sub : string) (fs : list ReqFilter)
    (ops : list op) (i : nat) :
  (i < numHandlers s)%nat -> req_limit fs <= 0 -> Forall (op_ok (numHandlers s)) ops ->
  Forall (fun o => restarts_sub sub o = false) ops ->
  sole_source sub i [] ops = true -> StronglySorted ev_before (sent_by sub i [] ops) ->
  exists s' out, do_ops (startReqResponse s sub fs) ops = Ok (s', out) /\
  forall e, e ∈ sent_by sub i [] ops -> ev_ID e ∈ event_ids sub (before_eose sub out).
Proof.
  intros Hi Hlim Hok Hst Hsole Hsort.
  destruct (do_ops_total _ ops (startReqResponse s sub fs) Hok) as (s' & out & Hrun).
  exists s', out. split; [done|]. intros e He.
  apply (do_ops_view (sub_view sub) (is_req_for sub) (fun n => sub_machine n sub)) in Hrun;
    [|intros; by apply do_op_sub_view].
  rewrite startReq_view in Hrun. cbn [numHandlers startReqResponse set_pendingEOSEs set_completedSubs] in Hrun.
  pose proof (sole_source_run (numHandlers s) (req_limit fs) sub i ops [] [] [] _ Hi Hlim Hok Hst Hsole Hsort
    ltac:(set_solver) (fresh_req_state (numHandlers s) fs ltac:(lia)) e He) as H.
  change (Some (mkPendingEOSE 0 ∅ 0 "" false (req_limit fs) 0 false (replicate (numHandlers s) false)), false)
    with (fresh_sub (numHandlers s) fs) in H.
  rewrite <-machine_trace_out, Hrun in H. cbn [snd app] in H. by rewrite before_eose_about in H.
Qed.

Lemma merge_sole_source_complete_witness :
  exists s' out,
    do_ops (startReqResponse MergeReqExamples.session "s" [emptyFilter]) MergeReqExamples.ops = Ok (s', out) /\
    forall e, e ∈ sent_by "s" 0 [] MergeReqExamples.ops -> ev_ID e ∈ event_ids "s" (before_eose "s" out).
Proof.
  apply (merge_sole_source_complete MergeReqExamples.session "s" [emptyFilter] MergeReqExamples.ops 0).
  - vm_compute. lia.
  - vm_compute. discriminate.
  - forall_ok.
  - forall_ok.
  - vm_compute. reflexivity.
  - repeat constructor; vm_compute; left; lia.
Defined.

(** Once the merged EOSE of a REQ is out, the subscription is live: every
    event any handler sends for it from then on is delivered unchanged and in
    order, and nothing else is said about it, until it is closed or requested
    again. *)
Theorem merge_live_pass_through (s : mergeSession) (sub : string) (fs : list ReqFilter)
    (ops1 ops2 : list op) s1 out1 :
  (0 < numHandlers s)%nat -> Forall (op_ok (numHandlers s)) (ops1 ++ ops2) ->
  Forall (fun o => restarts_sub sub o = false) (ops1 ++ ops2) ->
  do_ops (startReqResponse s sub fs) ops1 = Ok (s1, out1) ->
  List.filter (is_eose_for sub) out1 <> [] ->
  exists s2 out2, do_ops s1 ops2 = Ok (s2, out2) /\
  List.filter (is_req_for sub) out2 = live_msgs sub ops2.
Proof.
  intros Hpos [Hok1 Hok2]%Forall_app [Hr1 Hr2]%Forall_app Hrun Heose.
  destruct (do_ops_total _ ops2 s1 Hok2) as (s2 & out2 & Hrun2). exists s2, out2. split; [done|].
  assert (Hn : numHandlers s1 = numHandlers s).
  { clear -Hrun. change (numHandlers s) with (numHandlers (startReqResponse s sub fs)).
    revert Hrun. generalize (startReqResponse s sub fs). revert out1.
    induction ops1 as [|o ops IH]; intros out1 s0; simpl; [by intros [= <- <-]|].
    destruct (do_op s0 o) as [[s' o']| |] eqn:Ho; try done. simpl.
    destruct (do_ops s' ops) as [[s'' o'']| |] eqn:Hs; try done. simpl. intros [= <- <-].
    rewrite (IH _ _ Hs). by apply do_op_n in Ho. }
  apply (do_ops_view (sub_view sub) (is_req_for sub) (fun n => sub_machine n sub)) in Hrun, Hrun2;
    [|intros; by apply do_op_sub_view..].
  rewrite startReq_view in Hrun. cbn [numHandlers startReqResponse set_pendingEOSEs set_completedSubs] in Hrun.
  pose proof (req_final _ _ sub ops1 [] [] [] _ Hok1 Hr1 (fresh_req_state (numHandlers s) fs Hpos)) as H.
  change (Some (mkPendingEOSE 0 ∅ 0 "" false (req_limit fs) 0 false (replicate (numHandlers s) false)), false)
    with (fresh_sub (numHandlers s) fs) in H.
  rewrite Hrun in H. cbn [fst snd] in H. rewrite eose_filter_about in H.
  rewrite (H Heose), Hn in Hrun2.
  rewrite <-(live_run (numHandlers s)) by done. rewrite <-machine_trace_out, Hrun2. done.
Qed.

Lemma merge_live_pass_through_witness :
  exists s1 out1, do_ops (startReqResponse MergeReqExamples.session "s" [emptyFilter]) (take 5 MergeReqExamples.ops)
    = Ok (s1, out1) /\
  exists s2 out2, do_ops s1 (drop 5 MergeReqExamples.ops) = Ok (s2, out2) /\
  List.filter (is_req_for "s") out2 = live_msgs "s" (drop 5 MergeReqExamples.ops).
Proof.
  eexists _, _. split; [vm_compute; reflexivity|].
  eapply (merge_live_pass_through MergeReqExamples.session "s" [emptyFilter] (take 5 MergeReqExamples.ops)
           (drop 5 MergeReqExamples.ops)).
  - vm_compute. lia.
  - forall_ok.
  - forall_ok.
  - vm_compute. reflexivity.
  - vm_compute. discriminate.
Defined.

(** A CLOSE is final: from it on no handler can make the client see an EVENT
    or EOSE for the subscription until it is requested again, nor a COUNT until
    it is counted again, whatever the handlers still send. *)
Theorem merge_close_silences (s : mergeSession) (sub : string) (ops : list op) :
  Forall (op_ok (numHandlers s)) ops ->
  exists s' out, do_ops (closeSubscription s sub) ops = Ok (s', out) /\
  (Forall (fun o => starts_req sub o = false) ops -> List.filter (is_req_for sub) out = []) /\
  (Forall (fun o => starts_count sub o = false) ops -> List.filter (is_count_for sub) out = []).
Proof.
  intros Hok. destruct (do_ops_total _ ops (closeSubscription s sub) Hok) as (s' & out & Hrun).
  exists s', out. split; [done|].
  assert (Hsub : sub_view sub (closeSubscription s sub) = (None, false)).
  { apply sub_view_eq; cbn; [apply lookup_delete_eq|apply completed_del]. }
  assert (Hcount : count_view sub (closeSubscription s sub) = None).
  { unfold count_view. cbn. apply lookup_delete_eq. }
  split; intros Hst.
  - apply (do_ops_view (sub_view sub) (is_req_for sub) (fun n => sub_machine n sub)) in Hrun;
      [|intros; by apply do_op_sub_view].
    rewrite Hsub, closed_sub_silent in Hrun by done. congruence.
  - apply (do_ops_view (count_view sub) (is_count_for sub) (fun n => count_machine n sub)) in Hrun;
      [|intros; by apply do_op_count_view].
    rewrite Hcount, closed_count_silent in Hrun by done. congruence.
Qed.

Lemma merge_close_silences_witness :
  exists s' out, do_ops (closeSubscription (startReqResponse MergeReqExamples.session "s" [emptyFilter]) "s")
    MergeReqExamples.ops = Ok (s', out) /\
  (Forall (fun o => starts_req "s" o = false) MergeReqExamples.ops -> List.filter (is_req_for "s") out = []) /\
  (Forall (fun o => starts_count "s" o = false) MergeReqExamples.ops -> List.filter (is_count_for "s") out = []).
Proof.
  apply (merge_close_silences (startReqResponse MergeReqExamples.session "s" [emptyFilter])).
  forall_ok.
Defined.
