(* ===== verification/MergeHandler.v ===== *)
(** * The merge handler's main loop (merge_handler.go)

    [mergeHandler.ServeNostr]: the loop that fans client messages out to the
    child handlers and merges what they answer, as a step function over what its
    [select] can choose.  A child handler can send anything; which sends to a
    child find room, and when the connection's context ends, is up to the
    environment.  The theorems connect the loop to the session of Merge.v.  Here a
    turn of the loop is one step; MergeServe.v cuts the turns at every channel
    operation and runs the children beside them. *)

From S2P Require Import Prelude GoTime Event Filter Message Merge MergeReq.

(** ** Sending *)

(** [sendAll]; [cut] is after how many messages the context is found done. *)
Definition sendAll (cut : option nat) (msgs : list ServerMsg) : list ServerMsg * bool :=
  match cut with
  | Some k => if (k <? length msgs)%nat then (take k msgs, false) else (msgs, true)
  | None => (msgs, true)
  end.

(** What a send to a child's recv channel meets: room at once, room before the
    timer, the timer, or the end of the context. *)
Inductive SendOutcome : Type := SendFast | SendSlow | SendTimeout | SendCtxDone.

(** [broadcastAll] over the children from [i] on: the children the message was
    delivered to, those found dead, and whether the context ended. *)
Fixpoint broadcast_control (outcome : nat -> SendOutcome) (i : nat) (live : list bool)
    : list nat * list nat * bool :=
  match live with
  | [] => ([], [], false)
  | false :: live => broadcast_control outcome (S i) live
  | true :: live =>
      match outcome i with
      | SendCtxDone => ([], [], true)
      | SendTimeout =>
          let '(delivered, dead, done) := broadcast_control outcome (S i) live in
          (delivered, i :: dead, done)
      | _ =>
          let '(delivered, dead, done) := broadcast_control outcome (S i) live in
          (i :: delivered, dead, done)
      end
  end.

Fixpoint broadcast_event (outcome : nat -> SendOutcome) (i : nat) (live : list bool) : list nat :=
  match live with
  | [] => []
  | l :: live =>
      let rest := broadcast_event outcome (S i) live in
      if l : bool then match outcome i with SendFast => i :: rest | _ => rest end else rest
  end.

Definition broadcastAll (outcome : nat -> SendOutcome) (live : list bool) (msg : ClientMsg)
    : list nat * list nat * bool :=
  if String.eqb (c_Type msg) MsgTypeEvent then (broadcast_event outcome 0 live, [], false)
  else broadcast_control outcome 0 live.

(** ** The loop *)

(** [ml_live] tells the children whose recv channel is not nil; the select case
    of a child is nilled with it.  [ml_delivered] logs what each delivery was. *)
Record MergeLoop : Type := mkMergeLoop {
  ml_session : mergeSession;
  ml_live : list bool;
  ml_delivered : list (nat * ClientMsg)
}.

Definition new_loop (numHandlers : nat) (metrics : option (list string)) : MergeLoop :=
  mkMergeLoop (newMergeSession numHandlers metrics) (replicate numHandlers true) [].

(** The environment of one [handlerClosed] and the [sendAll] after it. *)
Record CloseEnv : Type := mkCloseEnv {
  ce_o1 : MapOrder; ce_o2 : MapOrder; ce_o3 : MapOrder; ce_cut : option nat
}.

Inductive MergeEvent : Type :=
| MCtxDone
| MRecv (msg : ClientMsg) (outcome : nat -> SendOutcome) (closing : nat -> CloseEnv)
| MRecvClosed
| MChildClosed (i : nat) (closing : CloseEnv)
| MChildMsg (i : nat) (msg : ServerMsg) (cut : option nat).

Inductive LoopExit : Type :=
| LoopCanceled
| LoopFinished
| LoopCrashed (why : string).

(** What a turn gives: the session calls it made, what was sent, and the state or
    the exit. *)
Definition Turn : Type := list op * list ServerMsg * (MergeLoop + LoopExit).

(** Retiring child [i]. *)
Definition retire (st : MergeLoop) (i : nat) (ce : CloseEnv) : Turn :=
  let '(s, results) := handlerClosed (ce_o1 ce) (ce_o2 ce) (ce_o3 ce) (ml_session st) i in
  let '(sent, ok) := sendAll (ce_cut ce) results in
  ([HandlerClosed (ce_o1 ce) (ce_o2 ce) (ce_o3 ce) i], sent,
   if ok then inl (mkMergeLoop s (<[i := false]> (ml_live st)) (ml_delivered st)) else inr LoopCanceled).

(** The loop over the dead children. *)
Fixpoint retire_all (st : MergeLoop) (dead : list nat) (closing : nat -> CloseEnv) : Turn :=
  match dead with
  | [] => ([], [], inl st)
  | i :: dead =>
      match retire st i (closing i) with
      | (ops, sent, inl st) =>
          let '(ops', sent', q) := retire_all st dead closing in (ops ++ ops', sent ++ sent', q)
      | t => t
      end
  end.

(** The session call that registers a client message; [None] is a nil
    dereference. *)
Definition start_op (msg : ClientMsg) : option (list op) :=
  if String.eqb (c_Type msg) MsgTypeEvent then
    match c_Event msg with Some e => Some [StartEvent (ev_ID e)] | None => None end
  else if String.eqb (c_Type msg) MsgTypeReq then Some [StartReq (c_SubscriptionID msg) (c_Filters msg)]
  else if String.eqb (c_Type msg) MsgTypeCount then Some [StartCount (c_SubscriptionID msg)]
  else if String.eqb (c_Type msg) MsgTypeClose then Some [CloseSub (c_SubscriptionID msg)]
  else Some [].

Definition start_session (s : mergeSession) (ops : list op) : mergeSession :=
  match ops with
  | StartEvent id :: _ => startEventResponse s id
  | StartReq sub fs :: _ => startReqResponse s sub fs
  | StartCount sub :: _ => startCountResponse s sub
  | CloseSub sub :: _ => closeSubscription s sub
  | _ => s
  end.

(** One turn of the loop; [None] when the event cannot happen. *)
Definition merge_step (st : MergeLoop) (e : MergeEvent) : option Turn :=
  match e with
  | MCtxDone => Some ([], [], inr LoopCanceled)
  | MRecvClosed => Some ([], [], inr LoopFinished)
  | MRecv msg outcome closing =>
      match start_op msg with
      | None => Some ([], [], inr (LoopCrashed "nil event"))
      | Some ops =>
          let s := start_session (ml_session st) ops in
          let '(delivered, dead, done) := broadcastAll outcome (ml_live st) msg in
          let st := mkMergeLoop s (ml_live st)
                      (ml_delivered st ++ ((fun i => (i, msg)) <$> delivered)) in
          if done then Some (ops, [], inr LoopCanceled)
          else
            let '(ops', sent, q) := retire_all st dead closing in Some (ops ++ ops', sent, q)
      end
  | MChildClosed i ce =>
      if default false (ml_live st !! i) then Some (retire st i ce) else None
  | MChildMsg i msg cut =>
      if default false (ml_live st !! i) then
        match processResponse (ml_session st) msg i with
        | Ok (s, results) =>
            let '(sent, ok) := sendAll cut results in
            Some ([Response i msg], sent,
              if ok then inl (mkMergeLoop s (ml_live st) (ml_delivered st)) else inr LoopCanceled)
        | Err e | Panic e => Some ([], [], inr (LoopCrashed e))
        end
      else None
  end.

(** The whole loop over a sequence of choices. *)
Fixpoint merge_run (st : MergeLoop) (es : list MergeEvent) : option Turn :=
  match es with
  | [] => Some ([], [], inl st)
  | e :: es =>
      match merge_step st e with
      | None => None
      | Some (ops, sent, inl st) =>
          match merge_run st es with
          | Some (ops', sent', q) => Some (ops ++ ops', sent ++ sent', q)
          | None => None
          end
      | Some (ops, sent, inr x) => match es with [] => Some (ops, sent, inr x) | _ => None end
      end
  end.

(** The error [ServeNostr] returns: the loop's, joined with those of the
    children. *)
Definition serve_error (x : LoopExit) (children : list string) : list string :=
  match x with
  | LoopCanceled => "context canceled"%string :: children
  | LoopFinished => children
  | LoopCrashed w => w :: children
  end.

(** ** The loop drives the session *)

(** What a turn means for the session: the calls were made, and what was sent is
    what they returned, up to where the connection ended. *)
Definition drives (n : nat) (st : MergeLoop) (t : Turn) : Prop :=
  let '(ops, sent, q) := t in
  Forall (op_ok n) ops /\
  exists s out, do_ops (ml_session st) ops = Ok (s, out) /\
  match q with
  | inl st' => ml_session st' = s /\ sent = out
  | inr _ => sent `prefix_of` out
  end.

(** The children that have been retired are those not live. *)
Definition live_ok (n : nat) (st : MergeLoop) : Prop :=
  length (ml_live st) = n /\ numHandlers (ml_session st) = n.

(** Calls that concern child [i]. *)
Definition from_child (i : nat) (o : op) : bool :=
  match o with
  | HandlerClosed _ _ _ j => (j =? i)%nat
  | Response j _ => (j =? i)%nat
  | _ => false
  end.

Lemma sendAll_prefix cut msgs sent ok : sendAll cut msgs = (sent, ok) ->
  if ok then sent = msgs else sent `prefix_of` msgs.
Proof.
  unfold sendAll. destruct cut as [k|]; [|by intros [= <- <-]].
  destruct (k <? length msgs)%nat; intros [= <- <-]; [|done].
  exists (drop k msgs). by rewrite take_drop.
Qed.

Lemma do_ops_app s ops1 ops2 s1 out1 :
  do_ops s ops1 = Ok (s1, out1) ->
  do_ops s (ops1 ++ ops2) =
  match do_ops s1 ops2 with
  | Ok (s2, out2) => Ok (s2, out1 ++ out2)
  | Err e => Err e
  | Panic w => Panic w
  end.
Proof.
  revert s s1 out1. induction ops1 as [|o ops1 IH]; intros s s1 out1; simpl.
  { intros [= <- <-]. by destruct (do_ops s ops2) as [[s2 out2]| |]. }
  destruct (do_op s o) as [[s' o']| |]; try done. simpl.
  destruct (do_ops s' ops1) as [[s'' o'']| |] eqn:H; try done. simpl. intros [= <- <-].
  rewrite (IH _ _ _ H). destruct (do_ops s'' ops2) as [[s2 out2]| |]; simpl; try done.
  by rewrite app_assoc.
Qed.

Lemma do_ops_one s o s' out : do_op s o = Ok (s', out) -> do_ops s [o] = Ok (s', out).
Proof. simpl. intros ->. simpl. by rewrite app_nil_r. Qed.

Lemma do_ops_n s ops s' out : do_ops s ops = Ok (s', out) -> numHandlers s' = numHandlers s.
Proof.
  revert s s' out. induction ops as [|o ops IH]; intros s s' out; simpl; [by intros [= <- <-]|].
  destruct (do_op s o) as [[s1 o1]| |] eqn:Ho; try done. simpl.
  destruct (do_ops s1 ops) as [[s2 o2]| |] eqn:H; try done. simpl. intros [= <- <-].
  rewrite (IH _ _ _ H). by eapply do_op_n.
Qed.

(** Turns in sequence. *)
Lemma drives_app n st t1 st1 t2 ops1 sent1 ops2 sent2 q :
  t1 = (ops1, sent1, inl st1) -> drives n st t1 ->
  t2 = (ops2, sent2, q) -> drives n st1 t2 -> drives n st (ops1 ++ ops2, sent1 ++ sent2, q).
Proof.
  intros -> (Hok1 & s1 & out1 & H1 & <- & ->) -> (Hok2 & s2 & out2 & H2 & Hq).
  split; [by apply Forall_app|]. exists s2, (out1 ++ out2). rewrite (do_ops_app _ _ _ _ _ H1), H2.
  split; [done|]. destruct q as [st2|x].
  - destruct Hq as [<- ->]. done.
  - by apply prefix_app.
Qed.

Lemma retire_drives n st i ce : (i < n)%nat -> drives n st (retire st i ce).
Proof.
  intros Hi. unfold retire.
  destruct (handlerClosed _ _ _ (ml_session st) i) as [s results] eqn:Hc.
  destruct (sendAll (ce_cut ce) results) as [sent ok] eqn:Hs. apply sendAll_prefix in Hs.
  split; [by repeat constructor|]. exists s, results. split.
  - apply do_ops_one. simpl. by rewrite Hc.
  - by destruct ok.
Qed.

Lemma retire_live n st i ce ops sent st' : live_ok n st -> retire st i ce = (ops, sent, inl st') ->
  live_ok n st' /\ ml_live st' = <[i := false]> (ml_live st).
Proof.
  intros [Hl Hn]. unfold retire.
  destruct (handlerClosed _ _ _ (ml_session st) i) as [s results] eqn:Hc.
  destruct (sendAll (ce_cut ce) results) as [sent' ok]. destruct ok; [|done].
  intros [= _ _ <-]. split; [|done]. split; cbn; [by rewrite length_insert|].
  pose proof (handlerClosed_n (ce_o1 ce) (ce_o2 ce) (ce_o3 ce) (ml_session st) i) as H.
  rewrite Hc in H. cbn in H. by rewrite H.
Qed.

Lemma retire_all_drives n dead closing st :
  live_ok n st -> Forall (fun i => (i < n)%nat) dead -> drives n st (retire_all st dead closing).
Proof.
  intros Hl Hdead. revert st Hl. induction Hdead as [|i dead Hi Hdead IH]; intros st Hl.
  { split; [done|]. exists (ml_session st), []. done. }
  cbn [retire_all]. pose proof (retire_drives n st i (closing i) Hi) as Hd.
  destruct (retire st i (closing i)) as [[ops sent] [st1|x]] eqn:Hr; [|done].
  apply retire_live with (n := n) in Hr as [Hl1 _]; [|done].
  specialize (IH st1 Hl1). destruct (retire_all st1 dead closing) as [[ops' sent'] q].
  by eapply drives_app.
Qed.

Lemma broadcast_control_lt outcome i live :
  Forall (fun j => (i <= j < i + length live)%nat /\ default false (live !! (j - i)%nat) = true)
    (broadcast_control outcome i live).1.2.
Proof.
  revert i. induction live as [|l live IH]; intros i; [constructor|]. cbn [broadcast_control].
  assert (Hmono : Forall (fun j => (i <= j < i + length (l :: live))%nat /\
      default false ((l :: live) !! (j - i)%nat) = true) (broadcast_control outcome (S i) live).1.2).
  { eapply Forall_impl; [apply IH|]. intros j [Hj Hd]. cbn [length]. split; [lia|].
    replace (j - i)%nat with (S (j - S i)) by lia. done. }
  destruct l; [|done].
  destruct (outcome i); [..|constructor]; destruct (broadcast_control outcome (S i) live) as [[d de] b];
    cbn [fst snd] in *; try done.
  constructor; [|done]. split; [cbn [length]; lia|]. by rewrite Nat.sub_diag.
Qed.

Lemma broadcastAll_dead outcome live msg :
  Forall (fun j => (j < length live)%nat /\ default false (live !! j) = true)
    (broadcastAll outcome live msg).1.2.
Proof.
  unfold broadcastAll. destruct (String.eqb _ _); [constructor|].
  eapply Forall_impl; [apply broadcast_control_lt|]. intros j [Hj Hd]. rewrite Nat.sub_0_r in Hd.
  split; [lia|done].
Qed.

Lemma start_session_ops n s msg ops : start_op msg = Some ops ->
  Forall (op_ok n) ops /\ do_ops s ops = Ok (start_session s ops, []).
Proof.
  unfold start_op. repeat case_match; intros; simplify_eq; (split; [by repeat constructor|done]).
Qed.

(** A child that is not live stays so and is no longer heard of. *)
Definition dead_child (i : nat) (st : MergeLoop) : Prop := default false (ml_live st !! i) = false.
Definition unheard (i : nat) (ops : list op) : Prop := Forall (fun o => from_child i o = false) ops.

Lemma retire_all_spec n dead closing : forall st ops sent q,
  live_ok n st -> Forall (fun i => (i < n)%nat) dead ->
  retire_all st dead closing = (ops, sent, q) ->
  (forall j, j ∉ dead -> unheard j ops) /\
  (forall st', q = inl st' -> live_ok n st' /\
     forall j, default false (ml_live st' !! j) =
       if decide (j ∈ dead) then false else default false (ml_live st !! j)).
Proof.
  induction dead as [|i dead IH]; intros st ops sent q Hl Hd; cbn [retire_all].
  { intros [= <- <- <-]. split; [constructor|]. intros st' [= <-]. split; [done|].
    intros j. by rewrite decide_False by set_solver. }
  apply Forall_cons in Hd as [Hi Hd].
  destruct (retire st i (closing i)) as [[ops1 sent1] [st1|x]] eqn:Hr.
  2:{ intros [= <- <- <-]. split; [|done]. intros j Hj. unfold retire in Hr.
      destruct (handlerClosed _ _ _ _ i), (sendAll _ _). injection Hr as <- _ _.
      repeat constructor. cbn. apply Nat.eqb_neq. set_solver. }
  assert (Hops : ops1 = [HandlerClosed (ce_o1 (closing i)) (ce_o2 (closing i)) (ce_o3 (closing i)) i]).
  { unfold retire in Hr. destruct (handlerClosed _ _ _ _ i), (sendAll _ _). by injection Hr. }
  apply retire_live with (n := n) in Hr as [Hl1 Hlive]; [|done].
  destruct (retire_all st1 dead closing) as [[ops2 sent2] q2] eqn:H2. intros [= <- <- <-].
  destruct (IH _ _ _ _ Hl1 Hd H2) as [Hun Hst]. split.
  - intros j Hj. apply Forall_app. split; [|apply Hun; set_solver]. subst ops1.
    repeat constructor. cbn. apply Nat.eqb_neq. set_solver.
  - intros st' ->. destruct (Hst st' eq_refl) as [Hl' Hj]. split; [done|]. intros j. rewrite Hj, Hlive.
    destruct (decide (j = i)) as [->|Hne].
    + rewrite list_lookup_insert_eq by (destruct Hl as [-> _]; lia).
      rewrite (decide_True (P := i ∈ i :: dead)) by set_solver. by case_decide.
    + rewrite list_lookup_insert_ne by done.
      destruct (decide (j ∈ dead)); [by rewrite decide_True by set_solver|].
      by rewrite decide_False by set_solver.
Qed.

Lemma start_op_unheard msg ops i : start_op msg = Some ops -> unheard i ops.
Proof. unfold start_op. repeat case_match; intros; simplify_eq; by repeat constructor. Qed.

Lemma processResponse_ok n s msg i s' out :
  (i < n)%nat -> processResponse s msg i = Ok (s', out) -> op_ok n (Response i msg).
Proof.
  intros Hi Hp. split; [done|]. intros Ht Hn. unfold processResponse in Hp. rewrite Ht, Hn in Hp. done.
Qed.

Lemma live_lt n st i : live_ok n st -> default false (ml_live st !! i) = true -> (i < n)%nat.
Proof.
  intros [<- _]. destruct (ml_live st !! i) eqn:H; [|done]. intros _. by eapply lookup_lt_Some.
Qed.

(** What is to be shown of a turn. *)
Definition turn_ok (n : nat) (st : MergeLoop) (t : Turn) : Prop :=
  drives n st t /\
  (forall st', t.2 = inl st' -> live_ok n st') /\
  (forall j, dead_child j st -> unheard j t.1.1 /\ forall st', t.2 = inl st' -> dead_child j st').

Lemma quiet_exit n st x : turn_ok n st ([], [], inr x).
Proof.
  split; [|split; [done|]].
  - split; [constructor|]. exists (ml_session st), []. done.
  - intros j Hj. split; [constructor|done].
Qed.

(** One turn. *)
Lemma merge_step_spec n st e ops sent q :
  live_ok n st -> merge_step st e = Some (ops, sent, q) ->
  turn_ok n st (ops, sent, q).
Proof.
  intros Hl. destruct e as [|msg outcome closing| |i ce|i msg cut]; cbn [merge_step].
  - intros [= <- <- <-]. apply quiet_exit.
  - destruct (start_op msg) as [ops0|] eqn:Hs.
    2:{ intros [= <- <- <-]. apply quiet_exit. }
    destruct (start_session_ops n (ml_session st) msg ops0 Hs) as [Hok Hdo].
    pose proof (broadcastAll_dead outcome (ml_live st) msg) as Hdead.
    destruct (broadcastAll outcome (ml_live st) msg) as [[delivered dead] dn]. cbn [fst snd] in Hdead.
    set (st1 := mkMergeLoop (start_session (ml_session st) ops0) (ml_live st)
                  (ml_delivered st ++ ((fun i => (i, msg)) <$> delivered))) in *.
    assert (Hl1 : live_ok n st1).
    { destruct Hl as [H1 H2]. split; [done|]. cbn. by rewrite (do_ops_n _ _ _ _ Hdo). }
    assert (Hd1 : drives n st (ops0, [], inl st1)).
    { split; [done|]. exists (start_session (ml_session st) ops0), []. done. }
    destruct dn.
    + intros [= <- <- <-]. split; [|split; [done|]].
      * split; [done|]. exists (start_session (ml_session st) ops0), []. done.
      * intros j Hj. split; [by eapply start_op_unheard|done].
    + destruct (retire_all st1 dead closing) as [[ops1 sent1] q1] eqn:Hr. intros [= <- <- <-].
      assert (Hdl : Forall (fun i => (i < n)%nat) dead).
      { eapply Forall_impl; [exact Hdead|]. intros j [Hj _]. destruct Hl as [<- _]. done. }
      pose proof (retire_all_drives n dead closing st1 Hl1 Hdl) as Hdr. rewrite Hr in Hdr.
      destruct (retire_all_spec n dead closing _ _ _ _ Hl1 Hdl Hr) as [Hun Hst].
      split; [|split].
      * by apply (drives_app n st _ st1 _ ops0 [] ops1 sent1 q1 eq_refl Hd1 eq_refl).
      * intros st' Hq. by apply Hst.
      * intros j Hj. assert (Hjd : j ∉ dead).
        { intros Hin. rewrite Forall_forall in Hdead. destruct (Hdead j Hin) as [_ Hlive].
          unfold dead_child in Hj. congruence. }
        split; [apply Forall_app; split; [by eapply start_op_unheard|by apply Hun]|].
        intros st' Hq. destruct (Hst st' Hq) as [_ Hlv]. unfold dead_child. rewrite Hlv.
        by rewrite decide_False.
  - intros [= <- <- <-]. apply quiet_exit.
  - destruct (default false (ml_live st !! i)) eqn:Hi; [|done]. intros [= Hr].
    pose proof (live_lt _ _ _ Hl Hi) as Hin.
    pose proof (retire_drives n st i ce Hin) as Hd. rewrite Hr in Hd. split; [done|split].
    + cbn [snd]. intros st' ->. by eapply (retire_live n) in Hr as [? _].
    + intros j Hj. assert (Hne : i <> j) by (unfold dead_child in Hj; congruence). split.
      * unfold retire in Hr. destruct (handlerClosed _ _ _ _ i), (sendAll _ _). injection Hr as <- _ _.
        repeat constructor. cbn. by apply Nat.eqb_neq.
      * cbn [snd]. intros st' ->. eapply (retire_live n) in Hr as [_ Hlv]; [|done].
        unfold dead_child in *. by rewrite Hlv, list_lookup_insert_ne.
  - destruct (default false (ml_live st !! i)) eqn:Hi; [|done].
    pose proof (live_lt _ _ _ Hl Hi) as Hin.
    destruct (processResponse (ml_session st) msg i) as [[s results]|e|w] eqn:Hp.
    2,3: intros [= <- <- <-]; apply quiet_exit.
    destruct (sendAll cut results) as [sent' ok] eqn:Hs. apply sendAll_prefix in Hs.
    intros [= <- <- <-]. split; [|split].
    + split; [constructor; [by eapply processResponse_ok|constructor]|]. exists s, results. split.
      * by apply do_ops_one.
      * by destruct ok.
    + intros st' Hq. destruct ok; [|done]. injection Hq as <-. destruct Hl as [H1 H2].
      split; [done|]. cbn. rewrite <-H2. by eapply (do_op_n _ (Response i msg)).
    + intros j Hj. assert (Hne : i <> j) by (unfold dead_child in Hj; congruence). split.
      * repeat constructor. cbn. by apply Nat.eqb_neq.
      * intros st' Hq. destruct ok; [|done]. by injection Hq as <-.
Qed.

Lemma merge_run_spec n es : forall st ops sent q,
  live_ok n st -> merge_run st es = Some (ops, sent, q) -> turn_ok n st (ops, sent, q).
Proof.
  induction es as [|e es IH]; intros st ops sent q Hl; cbn [merge_run].
  { intros [= <- <- <-]. split; [|split].
    - split; [done|]. exists (ml_session st), []. done.
    - by intros st' [= <-].
    - intros j Hj. split; [constructor|]. by intros st' [= <-]. }
  destruct (merge_step st e) as [[[ops1 sent1] [st1|x]]|] eqn:He; try done.
  - destruct (merge_step_spec _ _ _ _ _ _ Hl He) as (Hd1 & Hl1 & Hj1).
    specialize (Hl1 st1 eq_refl).
    destruct (merge_run st1 es) as [[[ops2 sent2] q2]|] eqn:H2; [|done]. intros [= <- <- <-].
    destruct (IH _ _ _ _ Hl1 H2) as (Hd2 & Hl2 & Hj2). split; [|split; [done|]].
    + by eapply drives_app.
    + intros j Hj. destruct (Hj1 j Hj) as [Hu1 Hdead]. specialize (Hdead st1 eq_refl).
      destruct (Hj2 j Hdead) as [Hu2 Hdead2]. split; [|done]. by apply Forall_app.
  - destruct es; [|done]. intros [= <- <- <-]. by eapply merge_step_spec.
Qed.

Lemma new_loop_ok n m : live_ok n (new_loop n m).
Proof. split; [cbn; by rewrite length_replicate|done]. Qed.

(** ** What a lost child costs *)

Lemma indices_missing n l i : indices n l -> (i < n)%nat -> i ∉ l -> (length l < n)%nat.
Proof.
  intros Hl Hi Hnin. pose proof (indices_le n (l ++ [i]) (indices_snoc n l i Hl Hnin Hi)) as H.
  rewrite length_app in H. simpl in H. lia.
Qed.

(** [says] of a child only through calls from it. *)
Definition says_from {X} (says : op -> option (nat * X)) : Prop :=
  forall o i x, says o = Some (i, x) -> from_child i o = true.

Lemma answers_unheard {X} n (says : op -> option (nat * X)) i ops : forall acc,
  speaks n says -> says_from says -> Forall (op_ok n) ops -> unheard i ops ->
  indices n acc.*1 -> i ∉ acc.*1 ->
  indices n (answers says acc ops).*1 /\ i ∉ (answers says acc ops).*1.
Proof.
  induction ops as [|o ops IH]; intros acc Hsp Hfrom Hok Hun Hacc Hi; [done|].
  apply Forall_cons in Hok as [Ho Hok]. apply Forall_cons in Hun as [Hu Hun].
  rewrite answers_cons. destruct (says o) as [[j x]|] eqn:Hs; [|by apply IH].
  case_decide; [by apply IH|]. apply IH; auto; rewrite fmap_app; cbn.
  - apply indices_snoc; auto. by eapply Hsp.
  - intros [?|Heq%list_elem_of_singleton]%elem_of_app; [done|]. subst j. apply Hfrom in Hs. congruence.
Qed.

Lemma starved {X} n (says : op -> option (nat * X)) i ops :
  speaks n says -> says_from says -> Forall (op_ok n) ops -> unheard i ops -> (i < n)%nat ->
  (n <=? length (answers says [] ops))%nat = false.
Proof.
  intros Hsp Hfrom Hok Hun Hi. apply Nat.leb_gt.
  destruct (answers_unheard n says i ops [] Hsp Hfrom Hok Hun) as [H1 H2];
    [split; [constructor|done]|set_solver|].
  pose proof (indices_missing n _ i H1 Hi H2) as H. by rewrite length_fmap in H.
Qed.

Lemma says_ok_from id : says_from (says_ok id).
Proof.
  intros o i x. destruct o; simpl; try done; [intros [= <- _]; apply Nat.eqb_refl|].
  case_match; [|done]. intros [= <- _]. apply Nat.eqb_refl.
Qed.
Lemma says_count_from sub : says_from (says_count sub).
Proof.
  intros o i x. destruct o; simpl; try done; [intros [= <- _]; apply Nat.eqb_refl|].
  case_match; [|done]. intros [= <- _]. apply Nat.eqb_refl.
Qed.
Lemma says_eose_from sub : says_from (says_eose sub).
Proof.
  intros o i x. destruct o; simpl; try done; [intros [= <- _]; apply Nat.eqb_refl|].
  case_match; [|done]. intros [= <- _]. apply Nat.eqb_refl.
Qed.

Lemma sent_none (p : ServerMsg -> bool) (sent out : list ServerMsg) :
  sent `prefix_of` out -> List.filter p out = [] -> List.filter p sent = [].
Proof. intros [rest ->]. rewrite List.filter_app. by intros [? _]%app_nil. Qed.

(** A call that waits for every child is not answered when one is not heard of. *)
Lemma starved_call n s i o rest s' out : numHandlers s = n -> (i < n)%nat -> Forall (op_ok n) (o :: rest) -> unheard i (o :: rest) ->
  do_ops s (o :: rest) = Ok (s', out) ->
  match o with
  | StartEvent id => Forall (fun o => starts_event id o = false) rest -> List.filter (is_ok_for id) out = []
  | StartCount sub => Forall (fun o => restarts_count sub o = false) rest -> List.filter (is_count_for sub) out = []
  | StartReq sub fs => req_limit fs <= 0 -> Forall (fun o => restarts_sub sub o = false) rest ->
      List.filter (is_eose_for sub) out = []
  | _ => True
  end.
Proof.
  intros Hn Hi Hok Hu Hdo. apply Forall_cons in Hok as [Ho Hok]. apply Forall_cons in Hu as [Huo Hu].
  destruct o as [id|sub fs|sub|sub| |]; try done; simpl in Hdo.
  - intros Hst. destruct (do_ops (startEventResponse s id) rest) as [[s2 out']| |] eqn:Hr; cbn in Hdo; try done.
    injection Hdo as <- <-. cbn [app].
    rewrite (merged_ok_once n s id rest s2 out') by (done || lia). cbv zeta.
    by rewrite (starved n _ i) by (done || apply speaks_ok || apply says_ok_from).
  - intros Hlim Hst. destruct (do_ops (startReqResponse s sub fs) rest) as [[s2 out']| |] eqn:Hr; cbn in Hdo; try done.
    injection Hdo as <- <-. cbn [app].
    destruct (do_trace_total n rest (startReqResponse s sub fs) Hok) as (tr & Htr).
    destruct (req_seen s sub fs rest s2 out' tr) as [_ Heq]; rewrite ?Hn; try done; [lia|].
    rewrite Heq. unfold phase_over. rewrite Hn, (starved n _ i) by (done || apply speaks_eose || apply says_eose_from).
    by rewrite (proj2 (Z.ltb_ge _ _) Hlim).
  - intros Hst. destruct (do_ops (startCountResponse s sub) rest) as [[s2 out']| |] eqn:Hr; cbn in Hdo; try done.
    injection Hdo as <- <-. cbn [app].
    rewrite (merged_count_once n s sub rest s2 out') by (done || lia). cbv zeta.
    by rewrite (starved n _ i) by (done || apply speaks_count || apply says_count_from).
Qed.

(** ** Properties *)

(** Whatever the client, the children, the timers and the context do, the
    merge loop is the session driven by well-formed calls: the calls it makes
    number the children correctly, the session never crashes on them, and the
    client receives exactly what they return, in order, up to the point where
    the connection ends. *)
Theorem merge_loop_refines_session (n : nat) (metrics : option (list string)) (es : list MergeEvent)
    (ops : list op) (sent : list ServerMsg) (q : MergeLoop + LoopExit) :
  merge_run (new_loop n metrics) es = Some (ops, sent, q) ->
  Forall (op_ok n) ops /\
  exists s out, do_ops (newMergeSession n metrics) ops = Ok (s, out) /\
  match q with
  | inl st => ml_session st = s /\ sent = out
  | inr _ => sent `prefix_of` out
  end.
Proof. intros Hrun. by destruct (merge_run_spec n es _ _ _ _ (new_loop_ok n metrics) Hrun) as [Hd _]. Qed.

Module MergeHandlerExamples.
Definition ce : CloseEnv := mkCloseEnv range_in_order range_in_order range_in_order None.
Definition fast (_ : nat) : SendOutcome := SendFast.
(** Two children; the second one ends, and then the client asks. *)
Definition lost : list MergeEvent := [MChildClosed 1 ce].
Definition asked : list MergeEvent :=
  [MRecv (client_req "s" [emptyFilter]) fast (fun _ => ce); MChildMsg 0 (NewServerEOSEMsg "s") None].
Definition st1 : MergeLoop :=
  mkMergeLoop (newMergeSession 2 None) [true; false] [].
End MergeHandlerExamples.

Lemma merge_loop_refines_session_witness :
  exists s out, do_ops (newMergeSession 2 None)
    [HandlerClosed range_in_order range_in_order range_in_order 1] = Ok (s, out) /\
  newMergeSession 2 None = s /\ [] = out.
Proof.
  apply (merge_loop_refines_session 2 None MergeHandlerExamples.lost
    [HandlerClosed range_in_order range_in_order range_in_order 1] [] (inl MergeHandlerExamples.st1)).
  reflexivity.
Defined.

(** The handler does not recover from the loss of a child: once one has ended
    or timed out, an EVENT that arrives later never gets its OK, a COUNT never
    its answer and a REQ without limit never its EOSE, however long the
    connection lasts and whatever the remaining children answer, until the same
    event, COUNT or subscription is submitted anew (which fares no better). *)
Theorem lost_child_starves (n : nat) (metrics : option (list string)) (es1 es2 : list MergeEvent)
    ops1 sent1 st1 (i : nat) (o : op) (rest : list op) (sent : list ServerMsg) (q : MergeLoop + LoopExit) :
  merge_run (new_loop n metrics) es1 = Some (ops1, sent1, inl st1) ->
  (i < n)%nat -> dead_child i st1 ->
  merge_run st1 es2 = Some (o :: rest, sent, q) ->
  match o with
  | StartEvent id => Forall (fun o => starts_event id o = false) rest ->
      List.filter (is_ok_for id) sent = []
  | StartCount sub => Forall (fun o => restarts_count sub o = false) rest ->
      List.filter (is_count_for sub) sent = []
  | StartReq sub fs => req_limit fs <= 0 -> Forall (fun o => restarts_sub sub o = false) rest ->
      List.filter (is_eose_for sub) sent = []
  | _ => True
  end.
Proof.
  intros H1 Hi Hdead H2.
  destruct (merge_run_spec n es1 _ _ _ _ (new_loop_ok n metrics) H1) as (_ & Hl & _).
  specialize (Hl st1 eq_refl). destruct Hl as [Hlen Hn].
  destruct (merge_run_spec n es2 _ _ _ _ (conj Hlen Hn) H2) as ((Hok & s & out & Hdo & Hq) & _ & Hun).
  destruct (Hun i Hdead) as [Hu _]. cbn [fst snd] in *.
  assert (Hpre : sent `prefix_of` out) by (destruct q; [destruct Hq as [_ ->]|]; done).
  pose proof (starved_call n (ml_session st1) i o rest s out Hn Hi Hok Hu Hdo) as Hst.
  destruct o; try done; intros; (eapply sent_none; [exact Hpre|]); by apply Hst.
Qed.

Lemma lost_child_starves_witness :
  List.filter (is_eose_for "s") [] = [].
Proof.
  refine (lost_child_starves 2 None MergeHandlerExamples.lost MergeHandlerExamples.asked _ _ _ 1
    (StartReq "s" [emptyFilter]) [Response 0 (NewServerEOSEMsg "s")] [] _ _ _ _ _ _ _).
  - reflexivity.
  - lia.
  - reflexivity.
  - reflexivity.
  - vm_compute. discriminate.
  - repeat constructor.
Defined.
