(* ===== verification/MergeServe.v ===== *)
(** * The merge handler with its children (merge_handler.go)

    [NewMergeHandler] and the whole of [mergeHandler.ServeNostr]: the goroutine of
    every child handler with its two channels and its context, the loop cut at
    every channel operation, and the wait for the children at the end.  The steps
    of the children, of the loop and of the outside interleave; a child can take,
    send and return whatever it likes.  MergeHandler.v has the loop turn by turn. *)

From S2P Require Import Prelude GoTime Event Filter Message Merge MergeReq MergeHandler.

(** ** Options *)

Definition DefaultMergeHandlerBroadcastTimeout : Z := 30 * Second.
Definition defaultChildRecvBuffer : nat := 10.

(** The capacity of a child's send channel. *)
Definition childSendBuffer : nat := 10.

Record MergeHandlerOptions : Type := mkMergeHandlerOptions {
  mo_BroadcastTimeout : Z;
  mo_Registerer : bool
}.

Record mergeHandler : Type := mkMergeHandler {
  mh_handlers : nat;
  broadcastTimeout : Z;
  childRecvBuffer : nat;
  mh_metrics : bool
}.

Definition NewMergeHandler (handlers : nat) (opts : option MergeHandlerOptions) : mergeHandler :=
  let timeout :=
    match opts with
    | Some o => if 0 <? mo_BroadcastTimeout o then mo_BroadcastTimeout o else DefaultMergeHandlerBroadcastTimeout
    | None => DefaultMergeHandlerBroadcastTimeout
    end in
  mkMergeHandler handlers timeout defaultChildRecvBuffer (match opts with Some o => mo_Registerer o | None => false end).

(** What this connection has added to the handler's metrics; the drops of EVENTs
    on their way out are counted by the session. *)
Record mergeHandlerMetrics : Type := mkMergeHandlerMetrics {
  LostChildrenTotal : nat;
  BroadcastTimeoutsTotal : nat;
  RecvBufFull : nat
}.

(** ** A child *)

(** Its goroutine: in the handler's [ServeNostr], returned from it, with the send
    channel closed, and done with the wait group. *)
Inductive ChildPhase : Type := Running | Returned | Closed | Gone.

(** [ch_got] and [ch_said] are what the handler has taken and sent so far. *)
Record Child : Type := mkChild {
  ch_phase : ChildPhase;
  ch_canceled : bool;
  ch_recv : list ClientMsg;
  ch_send : list ServerMsg;
  ch_got : list ClientMsg;
  ch_said : list ServerMsg
}.

Definition new_child : Child := mkChild Running false [] [] [] [].

Inductive ChildEvent : Type :=
| Takes
| Says (msg : ServerMsg)
| Returns (err : option string)
| Closes
| Leaves.

Definition set_child_phase (c : Child) (p : ChildPhase) : Child :=
  mkChild p (ch_canceled c) (ch_recv c) (ch_send c) (ch_got c) (ch_said c).

Definition child_step (c : Child) (e : ChildEvent) : option Child :=
  match ch_phase c, e with
  | Running, Takes =>
      match ch_recv c with
      | m :: recv => Some (mkChild Running (ch_canceled c) recv (ch_send c) (ch_got c ++ [m]) (ch_said c))
      | [] => None
      end
  | Running, Says m =>
      if (length (ch_send c) <? childSendBuffer)%nat
      then Some (mkChild Running (ch_canceled c) (ch_recv c) (ch_send c ++ [m]) (ch_got c) (ch_said c ++ [m]))
      else None
  | Running, Returns _ => Some (set_child_phase c Returned)
  | Returned, Closes => Some (set_child_phase c Closed)
  | Closed, Leaves => Some (set_child_phase c Gone)
  | _, _ => None
  end.

(** What the loop does to a child. *)
Definition push_msg (msg : ClientMsg) (c : Child) : Child :=
  mkChild (ch_phase c) (ch_canceled c) (ch_recv c ++ [msg]) (ch_send c) (ch_got c) (ch_said c).
Definition pull_msg (c : Child) : Child :=
  mkChild (ch_phase c) (ch_canceled c) (ch_recv c) (tail (ch_send c)) (ch_got c) (ch_said c).
Definition cancel_child (c : Child) : Child :=
  mkChild (ch_phase c) true (ch_recv c) (ch_send c) (ch_got c) (ch_said c).

Definition send_closed (c : Child) : bool := match ch_phase c with Closed | Gone => true | _ => false end.

(** ** The connection *)

(** An error [ServeNostr] returns, joined from these. *)
Inductive Fault : Type := LoopFault | ChildFault (i : nat) (err : string).

(** Where the loop is: at its select; in [broadcastAll], before child [i] or
    waiting for it with the timer set, with the children found dead so far; in
    [sendAll], with the children still to retire; in [wg.Wait], with whether the
    context ended the loop; returned. *)
Inductive LoopPhase : Type :=
| Selecting
| Fanning (msg : ClientMsg) (i : nat) (dead : list nat)
| Waiting (msg : ClientMsg) (i : nat) (dead : list nat)
| Forwarding (results : list ServerMsg) (dead : list nat)
| Joining (canceled : bool)
| Finished (errs : list Fault)
| Crashed (why : string).

(** [sv_live]: the children whose channels are not nil.  [sv_ops], [sv_sent] and
    [sv_taken] are the calls of the session, what the client was sent and what it
    has sent, so far. *)
Record Serve : Type := mkServe {
  sv_session : mergeSession;
  sv_live : list bool;
  sv_children : list Child;
  sv_phase : LoopPhase;
  sv_done : bool;
  sv_errs : list (nat * string);
  sv_counts : option mergeHandlerMetrics;
  sv_ops : list op;
  sv_sent : list ServerMsg;
  sv_taken : list ClientMsg
}.

Definition start_session_metrics (h : mergeHandler) : option (list string) := if mh_metrics h then Some [] else None.

(** The state before the first turn. *)
Definition serve_start (h : mergeHandler) : Serve :=
  mkServe (newMergeSession (mh_handlers h) (start_session_metrics h)) (replicate (mh_handlers h) true)
    (replicate (mh_handlers h) new_child) Selecting false []
    (if mh_metrics h then Some (mkMergeHandlerMetrics 0 0 0) else None) [] [] [].

Definition set_phase (st : Serve) (p : LoopPhase) : Serve :=
  mkServe (sv_session st) (sv_live st) (sv_children st) p (sv_done st) (sv_errs st) (sv_counts st)
    (sv_ops st) (sv_sent st) (sv_taken st).

Definition alter_child (st : Serve) (i : nat) (f : Child -> Child) : Serve :=
  mkServe (sv_session st) (sv_live st) (alter f i (sv_children st)) (sv_phase st) (sv_done st) (sv_errs st) (sv_counts st)
    (sv_ops st) (sv_sent st) (sv_taken st).

Definition add_counts (st : Serve) (lost timeouts full : nat) : Serve :=
  mkServe (sv_session st) (sv_live st) (sv_children st) (sv_phase st) (sv_done st) (sv_errs st)
    ((fun m => mkMergeHandlerMetrics (LostChildrenTotal m + lost) (BroadcastTimeoutsTotal m + timeouts) (RecvBufFull m + full))
       <$> sv_counts st)
    (sv_ops st) (sv_sent st) (sv_taken st).

(** A call of the session. *)
Definition call_session (st : Serve) (s : mergeSession) (ops : list op) : Serve :=
  mkServe s (sv_live st) (sv_children st) (sv_phase st) (sv_done st) (sv_errs st) (sv_counts st)
    (sv_ops st ++ ops) (sv_sent st) (sv_taken st).

Definition set_live (st : Serve) (live : list bool) : Serve :=
  mkServe (sv_session st) live (sv_children st) (sv_phase st) (sv_done st) (sv_errs st) (sv_counts st)
    (sv_ops st) (sv_sent st) (sv_taken st).

Definition send_out (st : Serve) (m : ServerMsg) : Serve :=
  mkServe (sv_session st) (sv_live st) (sv_children st) (sv_phase st) (sv_done st) (sv_errs st) (sv_counts st)
    (sv_ops st) (sv_sent st ++ [m]) (sv_taken st).

Definition take_in (st : Serve) (m : ClientMsg) : Serve :=
  mkServe (sv_session st) (sv_live st) (sv_children st) (sv_phase st) (sv_done st) (sv_errs st) (sv_counts st)
    (sv_ops st) (sv_sent st) (sv_taken st ++ [m]).

Definition live (st : Serve) (i : nat) : bool := default false (sv_live st !! i).

(** The fields a child's step leaves alone. *)
Definition child_moves (st : Serve) (i : nat) (e : ChildEvent) (c : Child) : Serve :=
  mkServe (sv_session st) (sv_live st) (<[i := c]> (sv_children st)) (sv_phase st) (sv_done st)
    (match e with Returns (Some err) => sv_errs st ++ [(i, err)] | _ => sv_errs st end)
    (sv_counts st) (sv_ops st) (sv_sent st) (sv_taken st).

Definition context_ends (st : Serve) : Serve :=
  mkServe (sv_session st) (sv_live st) (sv_children st) (sv_phase st) true (sv_errs st) (sv_counts st)
    (sv_ops st) (sv_sent st) (sv_taken st).

(** ** Steps *)

(** What the loop can do: its select finds the context done, a client message or
    the client channel closed, or child [i]; it tries the next child of a broadcast;
    a wait for a child ends; it sends the next result or finds the context done;
    it goes on to the next dead child or back to the select; it joins. *)
Inductive LoopEvent : Type :=
| SelectDone
| SelectRecv (msg : option ClientMsg)
| SelectChild (i : nat) (o1 o2 o3 : MapOrder)
| TryChild
| RoomMade
| TimerFires
| WaitDone
| SendNext
| SendDone
| NextDead (o1 o2 o3 : MapOrder)
| Resume
| Join.

Inductive ServeEvent : Type :=
| OfChild (i : nat) (e : ChildEvent)
| ContextEnds
| OfLoop (e : LoopEvent).

(** Retiring child [i]: its context is canceled, its channels are nil from now on,
    and the session moves on without it. *)
Definition retire_child (st : Serve) (i : nat) (dead : list nat) (o1 o2 o3 : MapOrder) : Serve :=
  let st := add_counts (set_live (alter_child st i cancel_child) (<[i := false]> (sv_live st))) 1 0 0 in
  let '(s, results) := handlerClosed o1 o2 o3 (sv_session st) i in
  set_phase (call_session st s [HandlerClosed o1 o2 o3 i]) (Forwarding results dead).

(** A message of child [i]. *)
Definition child_message (st : Serve) (i : nat) (m : ServerMsg) : Serve :=
  let st := alter_child st i pull_msg in
  match processResponse (sv_session st) m i with
  | Ok (s, results) => set_phase (call_session st s [Response i m]) (Forwarding results [])
  | Err w | Panic w => set_phase st (Crashed w)
  end.

(** A message of the client. *)
Definition client_message (st : Serve) (msg : ClientMsg) : Serve :=
  match start_op msg with
  | None => set_phase st (Crashed "nil event")
  | Some ops => set_phase (take_in (call_session st (start_session (sv_session st) ops) ops) msg) (Fanning msg 0 [])
  end.

Definition room (h : mergeHandler) (c : Child) : bool := (length (ch_recv c) <? childRecvBuffer h)%nat.

(** One round of [broadcastAll]'s loop, up to where it waits. *)
Definition try_child (h : mergeHandler) (st : Serve) (msg : ClientMsg) (i : nat) (dead : list nat) : Serve :=
  match sv_children st !! i with
  | None => set_phase st (Forwarding [] dead)
  | Some c =>
      if negb (live st i) then set_phase st (Fanning msg (S i) dead)
      else if room h c then set_phase (alter_child st i (push_msg msg)) (Fanning msg (S i) dead)
      else if String.eqb (c_Type msg) MsgTypeEvent then set_phase (add_counts st 0 0 1) (Fanning msg (S i) dead)
      else set_phase st (Waiting msg i dead)
  end.

Definition is_gone (c : Child) : bool := match ch_phase c with Gone => true | _ => false end.

Definition joined (canceled : bool) (errs : list (nat * string)) : list Fault :=
  (if canceled then [LoopFault] else []) ++ ((fun x => ChildFault x.1 x.2) <$> errs).

Definition loop_step (h : mergeHandler) (st : Serve) (e : LoopEvent) : option Serve :=
  match sv_phase st, e with
  | Selecting, SelectDone => if sv_done st then Some (set_phase st (Joining true)) else None
  | Selecting, SelectRecv None => Some (set_phase st (Joining false))
  | Selecting, SelectRecv (Some msg) => Some (client_message st msg)
  | Selecting, SelectChild i o1 o2 o3 =>
      c ← sv_children st !! i;
      if live st i then
        match ch_send c with
        | m :: _ => Some (child_message st i m)
        | [] => if send_closed c then Some (retire_child st i [] o1 o2 o3) else None
        end
      else None
  | Fanning msg i dead, TryChild => Some (try_child h st msg i dead)
  | Waiting msg i dead, RoomMade =>
      c ← sv_children st !! i;
      if room h c then Some (set_phase (alter_child st i (push_msg msg)) (Fanning msg (S i) dead)) else None
  | Waiting msg i dead, TimerFires => Some (set_phase (add_counts st 0 1 0) (Fanning msg (S i) (dead ++ [i])))
  | Waiting msg i dead, WaitDone => if sv_done st then Some (set_phase st (Joining true)) else None
  | Forwarding (m :: results) dead, SendNext => Some (set_phase (send_out st m) (Forwarding results dead))
  | Forwarding (_ :: _) dead, SendDone => if sv_done st then Some (set_phase st (Joining true)) else None
  | Forwarding [] (i :: dead), NextDead o1 o2 o3 => Some (retire_child st i dead o1 o2 o3)
  | Forwarding [] [], Resume => Some (set_phase st Selecting)
  | Joining canceled, Join =>
      if forallb is_gone (sv_children st) then Some (set_phase st (Finished (joined canceled (sv_errs st)))) else None
  | _, _ => None
  end.

Definition serve_step (h : mergeHandler) (st : Serve) (e : ServeEvent) : option Serve :=
  match e with
  | OfChild i e =>
      c ← sv_children st !! i;
      c ← child_step c e;
      Some (child_moves st i e c)
  | ContextEnds => Some (context_ends st)
  | OfLoop e => loop_step h st e
  end.

Fixpoint serve_run (h : mergeHandler) (st : Serve) (es : list ServeEvent) : option Serve :=
  match es with
  | [] => Some st
  | e :: es => st ← serve_step h st e; serve_run h st es
  end.

(** ** The session's part *)

(** What is still to be sent, and the children found dead but not retired. *)
Definition pending (p : LoopPhase) : list ServerMsg := match p with Forwarding results _ => results | _ => [] end.
Definition dead_of (p : LoopPhase) : list nat :=
  match p with Fanning _ _ dead | Waiting _ _ dead | Forwarding _ dead => dead | _ => [] end.
Definition looping (p : LoopPhase) : bool := match p with Joining _ | Finished _ | Crashed _ => false | _ => true end.
(** How far a broadcast has come. *)
Definition reached (p : LoopPhase) (n : nat) : nat := match p with Fanning _ i _ | Waiting _ i _ => i | _ => n end.

Record session_inv (n : nat) (m : option (list string)) (st : Serve) : Prop := {
  si_live : length (sv_live st) = n;
  si_children : length (sv_children st) = n;
  si_ops : Forall (op_ok n) (sv_ops st);
  si_out : exists out, do_ops (newMergeSession n m) (sv_ops st) = Ok (sv_session st, out) /\
    if looping (sv_phase st) then out = sv_sent st ++ pending (sv_phase st) else sv_sent st `prefix_of` out;
  si_dead : NoDup (dead_of (sv_phase st)) /\
    forall j, j ∈ dead_of (sv_phase st) -> live st j = true /\ (j < reached (sv_phase st) n)%nat;
  si_wait : forall msg i dead, sv_phase st = Waiting msg i dead -> live st i = true
}.

Lemma live_bound n st i : length (sv_live st) = n -> live st i = true -> (i < n)%nat.
Proof. unfold live. intros <-. destruct (sv_live st !! i) eqn:E; [|done]. intros _. by eapply lookup_lt_Some. Qed.

Lemma session_start h : session_inv (mh_handlers h) (start_session_metrics h) (serve_start h).
Proof.
  constructor; cbn; rewrite ?length_replicate; try done.
  - by exists [].
  - split; [constructor|]. by intros j Hj%elem_of_nil.
Qed.

(** A step that leaves the session and its history alone. *)
Lemma session_frame n m st st' : session_inv n m st ->
  sv_session st' = sv_session st -> sv_live st' = sv_live st -> length (sv_children st') = length (sv_children st) ->
  sv_phase st' = sv_phase st -> sv_ops st' = sv_ops st -> sv_sent st' = sv_sent st -> session_inv n m st'.
Proof.
  intros [Hl Hc Ho Hs Hd Hw] E1 E2 E3 E4 E5 E6. constructor; unfold live in *; by rewrite ?E1, ?E2, ?E3, ?E4, ?E5, ?E6.
Qed.

(** Moving to another phase with the same results pending and fewer dead. *)
Lemma session_phase n m st p : session_inv n m st -> looping (sv_phase st) = true ->
  (looping p = true -> pending p = pending (sv_phase st)) ->
  (NoDup (dead_of p) /\ forall j, j ∈ dead_of p -> live st j = true /\ (j < reached p n)%nat) ->
  (forall msg i dead, p = Waiting msg i dead -> live st i = true) -> session_inv n m (set_phase st p).
Proof.
  intros [Hl Hc Ho (out & Hdo & Hout) _ _] Hloop Hp Hd Hw. rewrite Hloop in Hout. subst out.
  constructor; [done..| |done|done]. exists (sv_sent st ++ pending (sv_phase st)). split; [done|]. cbn [set_phase sv_phase sv_sent].
  destruct (looping p) eqn:E; [by rewrite Hp|]. by exists (pending (sv_phase st)).
Qed.

(** The end of the loop, whatever it was doing. *)
Lemma session_exit n m st p : session_inv n m st -> looping (sv_phase st) = true -> looping p = false -> dead_of p = [] ->
  session_inv n m (set_phase st p).
Proof.
  intros Hi Hloop Hp Hd. apply session_phase; [done..|congruence| |].
  - rewrite Hd. split; [constructor|]. by intros j Hj%elem_of_nil.
  - intros msg i dead ->. done.
Qed.

(** A call of the session when all earlier results have been sent. *)
Lemma session_call n m st s o results p : session_inv n m st -> looping (sv_phase st) = true -> pending (sv_phase st) = [] ->
  op_ok n o -> do_op (sv_session st) o = Ok (s, results) -> looping p = true -> pending p = results ->
  (NoDup (dead_of p) /\ forall j, j ∈ dead_of p -> live st j = true /\ (j < reached p n)%nat) ->
  (forall msg i dead, p = Waiting msg i dead -> live st i = true) ->
  session_inv n m (set_phase (call_session st s [o]) p).
Proof.
  intros [Hl Hc Ho (out & Hdo & Hout) _ _] Hloop Hpend Hok Hop Hp Hres Hd Hw. rewrite Hloop, Hpend, app_nil_r in Hout. subst out.
  constructor; [done..| | |done|done].
  - apply Forall_app. by repeat constructor.
  - exists (sv_sent st ++ results). cbn. rewrite Hp, Hres. split; [|done].
    by rewrite (do_ops_app _ _ _ _ _ Hdo), (do_ops_one _ _ _ _ Hop).
Qed.

Lemma handlers_kept n m st : session_inv n m st -> numHandlers (sv_session st) = n.
Proof. intros [_ _ _ (out & Hdo & _) _ _]. by rewrite (do_ops_n _ _ _ _ Hdo). Qed.

Lemma set_live_session n m st i p : session_inv n m st -> sv_phase st = p -> i ∉ dead_of p ->
  (forall msg j dead, p <> Waiting msg j dead) -> session_inv n m (set_live st (<[i := false]> (sv_live st))).
Proof.
  intros [Hl Hc Ho Hs [Hnd Hd] Hw] <- Hi Hp. constructor; [by cbn; rewrite length_insert|done..| |].
  - split; [done|]. intros j Hj. cbn in Hj |- *. destruct (Hd j Hj) as [Hlj Hr]. split; [|done]. unfold live in *. cbn.
    rewrite list_lookup_insert_ne; [done|]. by intros ->.
  - intros msg j dead E. by destruct (Hp msg j dead).
Qed.

Lemma retire_session n m st i dead o1 o2 o3 : session_inv n m st -> looping (sv_phase st) = true -> pending (sv_phase st) = [] ->
  live st i = true -> (forall msg j d, sv_phase st <> Waiting msg j d) ->
  NoDup (i :: dead) -> (forall j, j ∈ dead -> live st j = true) -> dead_of (sv_phase st) ⊆ i :: dead ->
  session_inv n m (retire_child st i dead o1 o2 o3).
Proof.
  intros Hi Hloop Hpend Hlive Hw Hnd Hd Hsub. pose proof (live_bound _ _ _ (si_live _ _ _ Hi) Hlive) as Hin. unfold retire_child.
  set (st0 := set_phase st (Forwarding [] dead)).
  assert (H0 : session_inv n m st0).
  { apply session_phase; [done..|by rewrite Hpend| |done]. apply NoDup_cons in Hnd as [? Hnd]. split; [done|].
    intros j Hj. split; [by apply Hd|]. cbn. eapply live_bound; [apply Hi|by apply Hd]. }
  assert (H1 : session_inv n m (set_live st0 (<[i := false]> (sv_live st)))).
  { eapply (set_live_session n m st0 i); [done..| |done]. cbn. by apply NoDup_cons in Hnd as [? _]. }
  set (st1 := add_counts (set_live (alter_child st i cancel_child) (<[i:=false]> (sv_live st))) 1 0 0).
  assert (H2 : session_inv n m (set_phase st1 (Forwarding [] dead))).
  { eapply session_frame; [exact H1|..]; try done. cbn. by rewrite length_alter. }
  destruct (handlerClosed o1 o2 o3 (sv_session st1) i) as [s results] eqn:E.
  apply (session_call n m (set_phase st1 (Forwarding [] dead)) s (HandlerClosed o1 o2 o3 i) results (Forwarding results dead));
    try done; [cbn; by f_equal|]. apply H2.
Qed.

Lemma child_message_session n m st i msg : session_inv n m st -> sv_phase st = Selecting -> live st i = true ->
  session_inv n m (child_message st i msg).
Proof.
  intros Hi Hp Hlive. pose proof (live_bound _ _ _ (si_live _ _ _ Hi) Hlive) as Hin. unfold child_message.
  assert (H1 : session_inv n m (alter_child st i pull_msg)) by (eapply session_frame; try done; cbn; by rewrite length_alter).
  destruct (processResponse (sv_session (alter_child st i pull_msg)) msg i) as [[s results]|w|w] eqn:E.
  - eapply session_call; try done; cbn; try (by rewrite Hp); [by eapply processResponse_ok|].
    split; [constructor|]. by intros j Hj%elem_of_nil.
  - apply session_exit; [done|by cbn; rewrite Hp|done..].
  - apply session_exit; [done|by cbn; rewrite Hp|done..].
Qed.

Lemma client_message_session n m st msg : session_inv n m st -> sv_phase st = Selecting -> session_inv n m (client_message st msg).
Proof.
  intros Hi Hp. unfold client_message. destruct (start_op msg) as [ops|] eqn:Hs.
  2: { apply session_exit; [done|by rewrite Hp|done..]. }
  destruct (start_session_ops n (sv_session st) msg ops Hs) as [Hok Hdo]. destruct Hi as [Hl Hc Ho (out & Hdo0 & Hout) _ _].
  rewrite Hp in Hout. cbn in Hout. rewrite app_nil_r in Hout. subst out. constructor; [done..| | | |done].
  - by apply Forall_app.
  - exists (sv_sent st). split; [|by cbn; rewrite app_nil_r]. cbn. by rewrite (do_ops_app _ _ _ _ _ Hdo0), Hdo, app_nil_r.
  - split; [constructor|]. by intros j Hj%elem_of_nil.
Qed.

Lemma fan_on n m st msg i dead : session_inv n m st -> (sv_phase st = Fanning msg i dead \/ sv_phase st = Waiting msg i dead) ->
  session_inv n m (set_phase st (Fanning msg (S i) dead)).
Proof.
  intros Hi Hp. pose proof (si_dead _ _ _ Hi) as [Hnd Hd].
  apply session_phase; [done|by destruct Hp as [->| ->]|by destruct Hp as [->| ->]| |done].
  assert (Heq : dead_of (sv_phase st) = dead) by (by destruct Hp as [->| ->]). rewrite Heq in Hnd, Hd.
  split; [done|]. intros j Hj. destruct (Hd j Hj) as [? Hr]. split; [done|].
  destruct Hp as [Hp|Hp]; rewrite Hp in Hr; cbn in Hr |- *; lia.
Qed.

Lemma try_child_session h n m st msg i dead : session_inv n m st -> sv_phase st = Fanning msg i dead ->
  session_inv n m (try_child h st msg i dead).
Proof.
  intros Hi Hp. unfold try_child. pose proof (si_dead _ _ _ Hi) as [Hnd Hd]. rewrite Hp in Hnd, Hd. cbn in Hnd, Hd.
  destruct (sv_children st !! i) as [c|] eqn:Hc.
  2: { apply session_phase; [done|by rewrite Hp|by rewrite Hp| |done]. split; [done|]. intros j Hj. destruct (Hd j Hj) as [Hlj _].
       split; [done|]. eapply live_bound; [apply Hi|done]. }
  destruct (live st i) eqn:Hlive; cbn [negb]; [|by eapply fan_on; eauto].
  destruct (room h c).
  { apply (fan_on n m (alter_child st i (push_msg msg))); [|by left]. eapply session_frame; try done. cbn. by rewrite length_alter. }
  destruct (String.eqb _ _).
  { apply (fan_on n m (add_counts st 0 0 1)); [|by left]. by eapply session_frame. }
  apply session_phase; [done|by rewrite Hp|by rewrite Hp|by split|]. by intros ? ? ? [= <- <- <-].
Qed.

Lemma loop_step_session h n m st e st' : session_inv n m st -> loop_step h st e = Some st' -> session_inv n m st'.
Proof.
  intros Hi. pose proof (si_dead _ _ _ Hi) as [Hnd Hd]. unfold loop_step.
  destruct (sv_phase st) as [|msg i dead|msg i dead|[|r results] [|i dead]|cn|errs|w] eqn:Hp; destruct e as [|[msg'|]|i' o1 o2 o3| | | | | | |o1 o2 o3| |]; try done.
  - destruct (sv_done st); [|done]. intros [= <-]. apply session_exit; [done|by rewrite Hp|done..].
  - intros [= <-]. by apply client_message_session.
  - intros [= <-]. apply session_exit; [done|by rewrite Hp|done..].
  - rewrite bind_Some_iff. intros (c & Hc & Hs). destruct (live st i') eqn:Hl; [|done]. destruct (ch_send c) as [|m' ms].
    + destruct (send_closed c); [|done]. injection Hs as <-. apply retire_session; rewrite ?Hp; try done.
      * apply NoDup_singleton.
      * by intros j Hj%elem_of_nil.
      * cbn. set_solver.
    + injection Hs as <-. by apply child_message_session.
  - intros [= <-]. by apply try_child_session.
  - rewrite bind_Some_iff. intros (c & Hc & Hs). destruct (room h c); [|done]. injection Hs as <-.
    apply (fan_on n m (alter_child st i (push_msg msg))); [|by right]. eapply session_frame; try done. cbn. by rewrite length_alter.
  - intros [= <-]. pose proof (si_wait _ _ _ Hi _ _ _ Hp) as Hl. cbn in Hnd, Hd.
    apply (session_phase n m (add_counts st 0 1 0)); [by eapply session_frame|by cbn; rewrite Hp|by cbn; rewrite Hp| |done].
    cbn. split.
    + apply NoDup_app. split_and!; [done| |apply NoDup_singleton]. intros j Hj ->%list_elem_of_singleton. destruct (Hd i Hj). lia.
    + intros j [Hj| ->%list_elem_of_singleton]%elem_of_app; [destruct (Hd j Hj); split; [done|lia]|split; [done|lia]].
  - destruct (sv_done st); [|done]. intros [= <-]. apply session_exit; [done|by rewrite Hp|done..].
  - intros [= <-]. apply session_phase; [done|by rewrite Hp|by rewrite Hp| |done]. split; [constructor|]. by intros j Hj%elem_of_nil.
  - intros [= <-]. cbn in Hnd, Hd. apply retire_session; rewrite ?Hp; try done.
    + apply Hd. by left.
    + intros j Hj. apply Hd. by right.
  - intros [= <-]. destruct Hi as [Hl Hc Ho (out & Hdo & Hout) Hdd Hw]. rewrite Hp in Hout. cbn in Hout.
    constructor; [done..| |by rewrite Hp in Hdd|done]. exists out. split; [done|]. cbn. by rewrite Hout, <-app_assoc.
  - destruct (sv_done st); [|done]. intros [= <-]. apply session_exit; [done|by rewrite Hp|done..].
  - intros [= <-]. destruct Hi as [Hl Hc Ho (out & Hdo & Hout) Hdd Hw]. rewrite Hp in Hout. cbn in Hout.
    constructor; [done..| |by rewrite Hp in Hdd|done]. exists out. split; [done|]. cbn. by rewrite Hout, <-app_assoc.
  - destruct (sv_done st); [|done]. intros [= <-]. apply session_exit; [done|by rewrite Hp|done..].
  - destruct (forallb is_gone (sv_children st)); [|done]. intros [= <-]. destruct Hi as [Hl Hc Ho (out & Hdo & Hout) Hdd Hw].
    rewrite Hp in Hout. constructor; [done..| |done|done]. by exists out.
Qed.

Lemma serve_step_session h n m st e st' : session_inv n m st -> serve_step h st e = Some st' -> session_inv n m st'.
Proof.
  destruct e as [i e| |e]; cbn; [| |by apply loop_step_session].
  - intros Hi. rewrite bind_Some_iff. intros (c & Hc & Hs). apply bind_Some_iff in Hs as (c' & _ & [= <-]).
    eapply session_frame; try done. cbn. by rewrite length_insert.
  - intros Hi [= <-]. by eapply session_frame.
Qed.

(** Anything kept by every step is kept by a run. *)
Lemma serve_run_ind (P : Serve -> Prop) h : (forall st e st', P st -> serve_step h st e = Some st' -> P st') ->
  forall es st st', P st -> serve_run h st es = Some st' -> P st'.
Proof.
  intros Hstep. induction es as [|e es IH]; intros st st' Hst; cbn; [by intros [= <-]|].
  rewrite bind_Some_iff. intros (st1 & H1 & H2). eapply IH; [|exact H2]. by eapply Hstep.
Qed.

Lemma serve_run_session h n m st es st' : session_inv n m st -> serve_run h st es = Some st' -> session_inv n m st'.
Proof. apply (serve_run_ind (session_inv n m)). by apply serve_step_session. Qed.

(** ** The channels of a child *)

(** REQ, COUNT, CLOSE and AUTH: what must not be lost on the way to a child. *)
Definition control (l : list ClientMsg) : list ClientMsg := List.filter (fun m => negb (String.eqb (c_Type m) MsgTypeEvent)) l.

Lemma control_app l1 l2 : control (l1 ++ l2) = control l1 ++ control l2.
Proof. apply List.filter_app. Qed.

(** The messages of child [i] the session has been given. *)
Definition heard (i : nat) (ops : list op) : list ServerMsg :=
  omap (fun o => match o with Response j m => if (j =? i)%nat then Some m else None | _ => None end) ops.

Arguments control : simpl never.
Arguments heard : simpl never.

(** What child [i] is still to be offered. *)
Definition on_the_way (p : LoopPhase) (i : nat) : list ClientMsg :=
  match p with Fanning msg j _ | Waiting msg j _ => if (j <=? i)%nat then [msg] else [] | _ => [] end.

Definition crashed (p : LoopPhase) : bool := match p with Crashed _ => true | _ => false end.

Record child_inv (st : Serve) (i : nat) (c : Child) : Prop := {
  ci_said : crashed (sv_phase st) = false ->
    if live st i then ch_said c = heard i (sv_ops st) ++ ch_send c else heard i (sv_ops st) `prefix_of` ch_said c;
  ci_got : (ch_got c ++ ch_recv c) ++ on_the_way (sv_phase st) i `sublist_of` sv_taken st;
  ci_control : looping (sv_phase st) = true -> live st i = true -> i ∉ dead_of (sv_phase st) ->
    control ((ch_got c ++ ch_recv c) ++ on_the_way (sv_phase st) i) = control (sv_taken st);
  ci_canceled : live st i = false -> ch_canceled c = true
}.

Definition children_inv (st : Serve) : Prop := forall i c, sv_children st !! i = Some c -> child_inv st i c.

Lemma children_start h : children_inv (serve_start h).
Proof.
  intros i c [-> Hi]%lookup_replicate. assert (Hl : live (serve_start h) i = true) by (unfold live; cbn; by rewrite lookup_replicate_2).
  constructor; rewrite ?Hl; done.
Qed.

(** Only the phase changes: nothing new is on the way, and what was on the way to
    a child that is still owed it, is. *)
Lemma children_phase st p : children_inv st -> crashed (sv_phase st) = false ->
  (forall i, on_the_way p i `sublist_of` on_the_way (sv_phase st) i) ->
  (looping p = true -> looping (sv_phase st) = true /\ forall i c, sv_children st !! i = Some c -> live st i = true -> i ∉ dead_of p ->
    i ∉ dead_of (sv_phase st) /\ control (on_the_way p i) = control (on_the_way (sv_phase st) i)) ->
  children_inv (set_phase st p).
Proof.
  intros Hi Hcr Hsub Hloop i c Hc. destruct (Hi i c Hc) as [H1 H2 H3 H4]. constructor; cbn; [by intros _; apply H1| | |done].
  - etransitivity; [|exact H2]. by apply sublist_app.
  - intros Hp Hl Hd. destruct (Hloop Hp) as [Hlp Hq]. destruct (Hq i c Hc Hl Hd) as [Hd' Hcon]. rewrite <-(H3 Hlp Hl Hd').
    rewrite !(control_app (_ ++ _)). by f_equal.
Qed.

Lemma children_exit st p : children_inv st -> crashed (sv_phase st) = false -> looping p = false -> children_inv (set_phase st p).
Proof.
  intros Hi Hcr Hp. apply children_phase; [done..| |congruence]. intros i. destruct p; try done; apply sublist_nil_l.
Qed.

(** The session is called with nothing of a child. *)
Lemma children_call st s ops : children_inv st -> (forall i, heard i ops = []) -> children_inv (call_session st s ops).
Proof.
  intros Hi Hops i c Hc. destruct (Hi i c Hc) as [H1 H2 H3 H4]. constructor; cbn; try done. intros Hcr.
  specialize (H1 Hcr). unfold live in *. cbn. unfold heard in *. by rewrite omap_app, Hops, app_nil_r.
Qed.

(** Another field changes. *)
Lemma children_frame st st' : children_inv st -> sv_children st' = sv_children st -> sv_live st' = sv_live st ->
  sv_phase st' = sv_phase st -> sv_ops st' = sv_ops st -> sv_taken st' = sv_taken st -> children_inv st'.
Proof.
  intros Hi E1 E2 E3 E4 E5 i c Hc. rewrite E1 in Hc. destruct (Hi i c Hc) as [H1 H2 H3 H4].
  constructor; unfold live in *; by rewrite ?E2, ?E3, ?E4, ?E5.
Qed.

Lemma elem_of_alter {A} (f : A -> A) (l : list A) i j x : alter f i l !! j = Some x ->
  (j = i /\ exists y, l !! i = Some y /\ x = f y) \/ (j <> i /\ l !! j = Some x).
Proof.
  destruct (decide (j = i)) as [->|Hne].
  - rewrite list_lookup_alter_eq, fmap_Some. intros (y & Hy & ->). left. eauto.
  - rewrite list_lookup_alter_ne by done. by right.
Qed.

(** Child [i] is retired. *)
Lemma children_retire st i dead : children_inv st -> looping (sv_phase st) = true -> (forall j, on_the_way (sv_phase st) j = []) ->
  (sv_phase st = Selecting /\ dead = [] \/ sv_phase st = Forwarding [] (i :: dead)) ->
  (forall c, sv_children st !! i = Some c -> live st i = true) -> forall results,
  children_inv (set_phase (set_live (alter_child st i cancel_child) (<[i := false]> (sv_live st))) (Forwarding results dead)).
Proof.
  intros Hi Hloop Hway Hp Hlive results j c Hc. cbn in Hc.
  assert (Hcr : crashed (sv_phase st) = false) by (by destruct (sv_phase st)).
  destruct (elem_of_alter _ _ _ _ _ Hc) as [(-> & c0 & Hc0 & ->)|[Hne Hc0]]; destruct (Hi _ _ Hc0) as [H1 H2 H3 H4];
    specialize (H1 Hcr); rewrite Hway, app_nil_r in H2, H3.
  - assert (Hf : forall p, live (set_phase (set_live (alter_child st i cancel_child) (<[i := false]> (sv_live st))) p) i = false).
    { intros p. unfold live. cbn. destruct (decide (i < length (sv_live st))%nat).
      - by rewrite list_lookup_insert_eq.
      - rewrite list_insert_ge by lia. by rewrite lookup_ge_None_2 by lia. }
    constructor; rewrite ?Hf; cbn; try done; [|by rewrite app_nil_r]. intros _. rewrite (Hlive c0 Hc0) in H1. rewrite H1. by eexists.
  - assert (Hf : forall p, live (set_phase (set_live (alter_child st i cancel_child) (<[i := false]> (sv_live st))) p) j = live st j).
    { intros p. unfold live. cbn. by rewrite list_lookup_insert_ne. }
    constructor; rewrite ?Hf; cbn; try done; rewrite app_nil_r; [done|]. intros _ Hl Hd. apply H3; [done..|].
    destruct Hp as [[-> ->]| ->]; cbn; set_solver.
Qed.

Lemma children_retire_child st i dead o1 o2 o3 : children_inv st -> looping (sv_phase st) = true -> (forall j, on_the_way (sv_phase st) j = []) ->
  (sv_phase st = Selecting /\ dead = [] \/ sv_phase st = Forwarding [] (i :: dead)) -> live st i = true ->
  children_inv (retire_child st i dead o1 o2 o3).
Proof.
  intros Hi Hloop Hway Hp Hl. unfold retire_child.
  set (st1 := add_counts (set_live (alter_child st i cancel_child) (<[i := false]> (sv_live st))) 1 0 0).
  destruct (handlerClosed o1 o2 o3 (sv_session st1) i) as [s results].
  assert (H1 : children_inv (set_phase st1 (Forwarding results dead))).
  { eapply children_frame; [by apply (children_retire st i dead)|done..]. }
  by apply (children_call (set_phase st1 (Forwarding results dead)) s [HandlerClosed o1 o2 o3 i]) in H1.
Qed.

Lemma children_message st i c m rest : children_inv st -> sv_phase st = Selecting -> live st i = true ->
  sv_children st !! i = Some c -> ch_send c = m :: rest -> children_inv (child_message st i m).
Proof.
  intros Hi Hp Hl Hc Hm. unfold child_message.
  assert (Hpull : forall p, on_the_way p = on_the_way Selecting -> looping p = true \/ crashed p = true -> dead_of p = [] ->
    forall j cj, alter pull_msg i (sv_children st) !! j = Some cj ->
    ch_got cj ++ ch_recv cj `sublist_of` sv_taken st /\
    (live st j = true -> control (ch_got cj ++ ch_recv cj) = control (sv_taken st)) /\ (live st j = false -> ch_canceled cj = true)).
  { intros p _ _ _ j cj Hcj. destruct (elem_of_alter _ _ _ _ _ Hcj) as [(-> & c0 & Hc0 & ->)|[Hne Hc0]];
      destruct (Hi _ _ Hc0) as [H1 H2 H3 H4]; rewrite Hp in H2, H3; cbn in H2, H3; rewrite app_nil_r in H2, H3;
      (split_and!; [done| |done]); intros Hlj; apply H3; try done; set_solver. }
  destruct (processResponse _ m i) as [[s results]|w|w]; intros j cj Hcj; cbn in Hcj;
    destruct (Hpull Selecting eq_refl (or_introl eq_refl) eq_refl j cj Hcj) as (G1 & G2 & G3);
    constructor; cbn; rewrite ?app_nil_r; try done; try (intros _ Hlj _; by apply G2).
  intros _. change (live (set_phase (call_session (alter_child st i pull_msg) s [Response i m]) (Forwarding results [])) j) with (live st j).
  unfold heard. rewrite omap_app. fold (heard j (sv_ops st)). cbn [omap list_omap].
  destruct (elem_of_alter _ _ _ _ _ Hcj) as [(-> & c0 & Hc0 & ->)|[Hne Hc0]]; destruct (Hi _ _ Hc0) as [H1 _ _ _];
    rewrite Hp in H1; specialize (H1 eq_refl).
  - rewrite Nat.eqb_refl. rewrite Hl in H1 |- *. assert (c0 = c) as -> by congruence. cbn. rewrite H1, Hm. cbn. by rewrite <-app_assoc.
  - rewrite (proj2 (Nat.eqb_neq i j)) by done. by rewrite app_nil_r.
Qed.

Lemma children_client st msg : children_inv st -> sv_phase st = Selecting -> children_inv (client_message st msg).
Proof.
  intros Hi Hp. unfold client_message. destruct (start_op msg) as [ops|] eqn:Hs; [|by apply children_exit; rewrite ?Hp].
  assert (Hops : forall i, heard i ops = []).
  { intros i. pose proof (start_op_unheard msg ops i Hs) as Hu. unfold unheard in Hu. clear Hs.
    induction Hu as [|o ops Ho Hu IH]; [done|]. unfold heard in *. cbn. destruct o; try done. cbn in Ho |- *. by rewrite Ho. }
  assert (H1 := children_call st (start_session (sv_session st) ops) ops Hi Hops).
  intros i c Hc. destruct (H1 i c Hc) as [G1 G2 G3 G4]. cbn in G1, G2, G3. rewrite Hp in G1, G2, G3. cbn in G2, G3. rewrite app_nil_r in G2, G3.
  constructor; [done| | |done].
  - cbn. by apply sublist_app.
  - cbn. intros _ Hl _. rewrite (control_app (_ ++ _) [msg]), (control_app (sv_taken st) [msg]). f_equal. by apply G3; [|exact Hl|apply not_elem_of_nil].
Qed.

(** The broadcast passes child [i]: the message went to it, or did not have to. *)
Lemma children_pass st msg i dead f p : children_inv st ->
  (sv_phase st = Fanning msg i dead \/ sv_phase st = Waiting msg i dead) ->
  f = push_msg msg \/ f = id /\ (live st i = false \/ i ∈ p \/ String.eqb (c_Type msg) MsgTypeEvent = true) ->
  dead ⊆ p -> (forall j, j ∈ p -> j = i \/ j ∈ dead) ->
  children_inv (set_phase (alter_child st i f) (Fanning msg (S i) p)).
Proof.
  intros Hi Hp Hf Hsub Hsub' j c Hc. cbn in Hc.
  assert (Hcr : crashed (sv_phase st) = false) by (by destruct Hp as [->| ->]).
  assert (Hlo : looping (sv_phase st) = true) by (by destruct Hp as [->| ->]).
  assert (Hdd : dead_of (sv_phase st) = dead) by (by destruct Hp as [->| ->]).
  assert (Hway : forall k, on_the_way (sv_phase st) k = if (i <=? k)%nat then [msg] else []) by (by destruct Hp as [->| ->]).
  change (live (set_phase (alter_child st i f) (Fanning msg (S i) p))) with (live st).
  destruct (elem_of_alter _ _ _ _ _ Hc) as [(-> & c0 & Hc0 & ->)|[Hne Hc0]]; destruct (Hi _ _ Hc0) as [H1 H2 H3 H4];
    specialize (H1 Hcr); specialize (H3 Hlo); rewrite Hway in H2, H3; rewrite Hdd in H3.
  - rewrite Nat.leb_refl in H2, H3. assert (Hnext : on_the_way (Fanning msg (S i) p) i = []).
    { cbn [on_the_way]. by rewrite (proj2 (Nat.leb_gt (S i) i)) by lia. }
    constructor; cbn [set_phase sv_phase sv_taken alter_child sv_ops crashed looping dead_of]; rewrite ?Hnext, ?app_nil_r.
    + intros _. by destruct Hf as [->|[-> _]].
    + destruct Hf as [->|[-> _]]; cbn; [by rewrite app_assoc|]. etransitivity; [|exact H2]. by apply sublist_inserts_r.
    + intros _ Hl Hd. assert (i ∉ dead) by set_solver. rewrite <-H3 by done. destruct Hf as [->|[-> Hq]]; cbn; [by rewrite app_assoc|].
      destruct Hq as [?|[?|Hev]]; [change (live st i = true) in Hl; congruence|done|]. unfold control. rewrite !List.filter_app. cbn.
      by rewrite Hev, !app_nil_r.
    + intros Hl. specialize (H4 Hl). by destruct Hf as [->|[-> _]].
  - assert (Hnext : on_the_way (Fanning msg (S i) p) j = if (i <=? j)%nat then [msg] else []).
    { cbn [on_the_way]. destruct (Nat.leb_spec i j), (Nat.leb_spec (S i) j); try done; lia. }
    constructor; cbn [set_phase sv_phase sv_taken alter_child sv_ops crashed looping dead_of]; rewrite ?Hnext; try done.
    intros _ Hl Hd. apply H3; [done|set_solver].
Qed.

(** Nothing is done to a child. *)
Lemma alter_child_id st i : alter_child st i id = st.
Proof.
  destruct st as [s lv ch ph dn er ct op sn tk]. unfold alter_child. cbn. f_equal. apply list_eq. intros j.
  destruct (decide (i = j)) as [->|Hne]; [rewrite list_lookup_alter_eq|by rewrite list_lookup_alter_ne].
  by destruct (ch !! j).
Qed.

Lemma children_pass_by st msg i dead p : children_inv st -> (sv_phase st = Fanning msg i dead \/ sv_phase st = Waiting msg i dead) ->
  live st i = false \/ i ∈ p \/ String.eqb (c_Type msg) MsgTypeEvent = true -> dead ⊆ p -> (forall j, j ∈ p -> j = i \/ j ∈ dead) ->
  children_inv (set_phase st (Fanning msg (S i) p)).
Proof.
  intros Hi Hp Hq Hs1 Hs2. rewrite <-(alter_child_id st i) at 1. apply (children_pass st msg i dead); [done|done| |done|done]. by right.
Qed.

Lemma loop_phase_children st p : children_inv st -> looping (sv_phase st) = true -> on_the_way (sv_phase st) = on_the_way p ->
  dead_of (sv_phase st) ⊆ dead_of p -> crashed (sv_phase st) = false -> children_inv (set_phase st p).
Proof.
  intros Hi Hloop Hway Hd Hcr. apply children_phase; [done|done|by intros i; rewrite Hway|]. intros _. split; [done|].
  intros i c _ _ Hid. rewrite Hway. split; [set_solver|done].
Qed.

Lemma try_child_children h st msg i dead n m : session_inv n m st -> children_inv st -> sv_phase st = Fanning msg i dead ->
  children_inv (try_child h st msg i dead).
Proof.
  intros Hs Hi Hp. unfold try_child. destruct (sv_children st !! i) as [c|] eqn:Hc.
  2: { apply children_phase; [done|by rewrite Hp|intros j; apply sublist_nil_l|]. intros _. rewrite Hp. split; [done|].
       intros j cj Hj _ Hd. split; [done|]. cbn. apply lookup_ge_None in Hc. apply lookup_lt_Some in Hj.
       by rewrite (proj2 (Nat.leb_gt i j)) by lia. }
  destruct (live st i) eqn:Hlive; cbn [negb]; [|by apply (children_pass_by st msg i dead); [|left|left| |right]].
  destruct (room h c); [by apply (children_pass st msg i dead); [|left|left| |right]|].
  destruct (String.eqb _ _) eqn:He.
  { apply (children_pass_by (add_counts st 0 0 1) msg i dead); [by eapply children_frame|by left|by right; right|done|by right]. }
  apply loop_phase_children; by rewrite ?Hp.
Qed.

Lemma loop_step_children h n m st e st' : session_inv n m st -> children_inv st -> loop_step h st e = Some st' -> children_inv st'.
Proof.
  intros Hs Hi. unfold loop_step.
  destruct (sv_phase st) as [|msg i dead|msg i dead|[|r results] [|i dead]|cn|errs|w] eqn:Hp; destruct e as [|[msg'|]|i' o1 o2 o3| | | | | | |o1 o2 o3| |]; try done.
  - destruct (sv_done st); [|done]. intros [= <-]. by apply children_exit; rewrite ?Hp.
  - intros [= <-]. by apply children_client.
  - intros [= <-]. by apply children_exit; rewrite ?Hp.
  - rewrite bind_Some_iff. intros (c & Hc & Hx). destruct (live st i') eqn:Hl; [|done]. destruct (ch_send c) as [|m' ms] eqn:Hm.
    + destruct (send_closed c); [|done]. injection Hx as <-. apply children_retire_child; rewrite ?Hp; try done. by left.
    + injection Hx as <-. by eapply children_message.
  - intros [= <-]. by eapply try_child_children.
  - rewrite bind_Some_iff. intros (c & Hc & Hx). destruct (room h c); [|done]. injection Hx as <-.
    by apply (children_pass st msg i dead); [|right|left| |right].
  - intros [= <-]. apply (children_pass_by (add_counts st 0 1 0) msg i dead); [by eapply children_frame|by right| |set_solver|set_solver].
    right. left. set_solver.
  - destruct (sv_done st); [|done]. intros [= <-]. by apply children_exit; rewrite ?Hp.
  - intros [= <-]. by apply loop_phase_children; rewrite ?Hp.
  - intros [= <-]. apply children_retire_child; rewrite ?Hp; try done; [by right|].
    apply (si_dead _ _ _ Hs). rewrite Hp. by left.
  - intros [= <-]. apply (loop_phase_children (send_out st r)); cbn; rewrite ?Hp; try done. by eapply children_frame.
  - destruct (sv_done st); [|done]. intros [= <-]. by apply children_exit; rewrite ?Hp.
  - intros [= <-]. apply (loop_phase_children (send_out st r)); cbn; rewrite ?Hp; try done. by eapply children_frame.
  - destruct (sv_done st); [|done]. intros [= <-]. by apply children_exit; rewrite ?Hp.
  - destruct (forallb is_gone (sv_children st)); [|done]. intros [= <-]. by apply children_exit; rewrite ?Hp.
Qed.

(** A child's own step keeps what it has been handed and what it has said. *)
Lemma child_step_spec c e c' : child_step c e = Some c' ->
  ch_got c' ++ ch_recv c' = ch_got c ++ ch_recv c /\ ch_canceled c' = ch_canceled c /\
  exists more, ch_said c' = ch_said c ++ more /\ ch_send c' = ch_send c ++ more.
Proof.
  unfold child_step. destruct c as [[] cn recv snd got said], e; cbn; try done.
  - destruct recv as [|m recv]; [done|]. intros [= <-]. cbn. rewrite <-app_assoc. split_and!; [done..|]. exists []. by rewrite !app_nil_r.
  - case_match; [|done]. intros [= <-]. cbn. eauto.
  - intros [= <-]. cbn. split_and!; [done..|]. exists []. by rewrite !app_nil_r.
  - intros [= <-]. cbn. split_and!; [done..|]. exists []. by rewrite !app_nil_r.
  - intros [= <-]. cbn. split_and!; [done..|]. exists []. by rewrite !app_nil_r.
Qed.

Lemma serve_step_children h n m st e st' : session_inv n m st -> children_inv st -> serve_step h st e = Some st' -> children_inv st'.
Proof.
  destruct e as [i e| |e]; cbn; [| |by apply loop_step_children].
  - intros _ Hi. rewrite bind_Some_iff. intros (c & Hc & Hx). apply bind_Some_iff in Hx as (c' & Hstep & [= <-]). intros j cj Hj. cbn in Hj.
    destruct (decide (j = i)) as [->|Hne].
    + rewrite list_lookup_insert_eq in Hj by (by eapply lookup_lt_Some). injection Hj as <-.
      destruct (child_step_spec c e c' Hstep) as (E1 & E2 & more & E3 & E4). destruct (Hi i c Hc) as [H1 H2 H3 H4].
      constructor; cbn; rewrite ?E1, ?E2, ?E3, ?E4; try done. intros Hcr. specialize (H1 Hcr).
      change (live (child_moves st i e c') i) with (live st i). destruct (live st i); [by rewrite H1, app_assoc|by apply prefix_app_r].
    + rewrite list_lookup_insert_ne in Hj by done. destruct (Hi j cj Hj) as [H1 H2 H3 H4]. by constructor.
  - intros _ Hi [= <-]. by eapply children_frame.
Qed.

(** ** The metrics and the errors *)

Definition lost_children (lv : list bool) : nat := length (List.filter negb lv).

Arguments lost_children : simpl never.

(** Every retired child is counted once, every timeout is a child retired or about
    to be, and only children that have returned have reported an error, each once. *)
Record books_inv (st : Serve) : Prop := {
  bi_counts : forall k, sv_counts st = Some k -> LostChildrenTotal k = lost_children (sv_live st) /\
    (looping (sv_phase st) = true -> (BroadcastTimeoutsTotal k <= LostChildrenTotal k + length (dead_of (sv_phase st)))%nat);
  bi_errs : NoDup (sv_errs st).*1 /\
    forall i err, (i, err) ∈ sv_errs st -> exists c, sv_children st !! i = Some c /\ ch_phase c <> Running
}.

Lemma books_start h : books_inv (serve_start h).
Proof.
  constructor; cbn.
  - destruct (mh_metrics h); [|done]. intros k [= <-]. cbn. split; [|lia]. unfold lost_children. by induction (mh_handlers h).
  - split; [constructor|]. by intros i err Hi%elem_of_nil.
Qed.

Lemma lost_insert lv i : lv !! i = Some true -> lost_children (<[i := false]> lv) = S (lost_children lv).
Proof.
  unfold lost_children. revert i. induction lv as [|b lv IH]; intros [|i]; cbn; [done..| |]; [by intros [= ->]|].
  intros Hi. destruct b; cbn; by rewrite IH.
Qed.

(** The same books, with every child's goroutine where it was. *)
Lemma books_frame st st' : books_inv st -> sv_counts st' = sv_counts st -> sv_live st' = sv_live st -> sv_errs st' = sv_errs st ->
  (looping (sv_phase st') = true -> looping (sv_phase st) = true /\ length (dead_of (sv_phase st')) = length (dead_of (sv_phase st))) ->
  (forall i c, sv_children st !! i = Some c -> exists c', sv_children st' !! i = Some c' /\ ch_phase c' = ch_phase c) -> books_inv st'.
Proof.
  intros [Hc [Hn He]] E1 E2 E3 Hl Hch. constructor.
  - rewrite E1, E2. intros k Hk. destruct (Hc k Hk) as [H1 H2]. split; [done|]. intros Hlp. destruct (Hl Hlp) as [Hlp' ->]. auto.
  - rewrite E3. split; [done|]. intros i err Hie. destruct (He i err Hie) as (c & Hci & Hp). destruct (Hch i c Hci) as (c' & ? & Hp').
    exists c'. by rewrite Hp'.
Qed.

Lemma same_goroutines st i f : (forall c, ch_phase (f c) = ch_phase c) ->
  forall j c, sv_children st !! j = Some c -> exists c', alter f i (sv_children st) !! j = Some c' /\ ch_phase c' = ch_phase c.
Proof.
  intros Hf j c Hc. destruct (decide (i = j)) as [->|Hne].
  - rewrite list_lookup_alter_eq, Hc. cbn. eauto.
  - rewrite list_lookup_alter_ne by done. eauto.
Qed.

(** The common case: no child is retired and no timer fires. *)
Lemma books_phase st p : books_inv st -> (looping p = true -> looping (sv_phase st) = true /\ length (dead_of p) = length (dead_of (sv_phase st))) ->
  books_inv (set_phase st p).
Proof. intros Hb Hp. eapply books_frame; [exact Hb|done..|]. eauto. Qed.

Lemma books_alter st i f : books_inv st -> (forall c, ch_phase (f c) = ch_phase c) -> books_inv (alter_child st i f).
Proof. intros Hb Hf. eapply books_frame; [exact Hb|done..|]. by apply same_goroutines. Qed.

Lemma books_retire st i dead o1 o2 o3 : books_inv st -> looping (sv_phase st) = true -> live st i = true ->
  (length (dead_of (sv_phase st)) <= S (length dead))%nat -> books_inv (retire_child st i dead o1 o2 o3).
Proof.
  intros [Hc [Hn He]] Hloop Hl Hd. unfold retire_child. destruct (handlerClosed _ _ _ _ i) as [s results]. constructor; cbn.
  - intros k Hk. apply fmap_Some in Hk as (k0 & Hk0 & ->). destruct (Hc k0 Hk0) as [H1 H2]. specialize (H2 Hloop). cbn.
    assert (Hli : sv_live st !! i = Some true) by (unfold live in Hl; by destruct (sv_live st !! i) as [[]|]).
    rewrite (lost_insert _ _ Hli). split; lia.
  - split; [done|]. intros j err Hj. destruct (He j err Hj) as (c & Hcj & Hp).
    destruct (same_goroutines st i cancel_child (fun _ => eq_refl) j c Hcj) as (c' & ? & Hp'). exists c'. by rewrite Hp'.
Qed.

Lemma books_counts st p lost timeouts full : books_inv st -> looping (sv_phase st) = true -> lost = 0%nat ->
  (timeouts + length (dead_of (sv_phase st)) <= length (dead_of p))%nat -> books_inv (set_phase (add_counts st lost timeouts full) p).
Proof.
  intros [Hc He] Hloop -> Hd. constructor; [|done]. cbn. intros k Hk. apply fmap_Some in Hk as (k0 & Hk0 & ->).
  destruct (Hc k0 Hk0) as [H1 H2]. specialize (H2 Hloop). cbn. lia.
Qed.

Lemma books_call st s ops : books_inv st -> books_inv (call_session st s ops).
Proof. intros Hb. eapply books_frame; [exact Hb|done..|]. eauto. Qed.

Lemma loop_step_books h n m st e st' : session_inv n m st -> books_inv st -> loop_step h st e = Some st' -> books_inv st'.
Proof.
  intros Hs Hb. unfold loop_step.
  destruct (sv_phase st) as [|msg i dead|msg i dead|[|r results] [|i dead]|cn|errs|w] eqn:Hp; destruct e as [|[msg'|]|i' o1 o2 o3| | | | | | |o1 o2 o3| |]; try done.
  - destruct (sv_done st); [|done]. intros [= <-]. by apply books_phase.
  - intros [= <-]. unfold client_message. destruct (start_op msg') as [ops|]; [|by apply books_phase].
    apply books_phase; [|by cbn; rewrite Hp]. eapply books_frame; [by apply (books_call st (start_session (sv_session st) ops) ops)|done..|]. eauto.
  - intros [= <-]. by apply books_phase.
  - rewrite bind_Some_iff. intros (c & Hc & Hx). destruct (live st i') eqn:Hl; [|done]. destruct (ch_send c) as [|m' ms] eqn:Hm.
    + destruct (send_closed c); [|done]. injection Hx as <-. apply books_retire; rewrite ?Hp; try done. cbn. lia.
    + injection Hx as <-. unfold child_message. pose proof (books_alter st i' pull_msg Hb (fun _ => eq_refl)) as Hb'.
      destruct (processResponse _ m' i') as [[s results]|w|w]; [|by apply books_phase..].
      apply books_phase; [by apply books_call|]. by cbn; rewrite Hp.
  - intros [= <-]. unfold try_child. destruct (sv_children st !! i) as [c|]; [|by apply books_phase; rewrite ?Hp].
    destruct (negb (live st i)); [by apply books_phase; rewrite ?Hp|].
    destruct (room h c); [apply books_phase; [by apply books_alter|by cbn; rewrite Hp]|].
    destruct (String.eqb _ _); [by apply books_counts; rewrite ?Hp|by apply books_phase; rewrite ?Hp].
  - rewrite bind_Some_iff. intros (c & Hc & Hx). destruct (room h c); [|done]. injection Hx as <-.
    apply books_phase; [by apply books_alter|by cbn; rewrite Hp].
  - intros [= <-]. apply books_counts; rewrite ?Hp; try done. cbn. rewrite length_app. cbn. lia.
  - destruct (sv_done st); [|done]. intros [= <-]. by apply books_phase.
  - intros [= <-]. by apply books_phase; rewrite ?Hp.
  - intros [= <-]. apply books_retire; rewrite ?Hp; try done. apply (si_dead _ _ _ Hs). rewrite Hp. by left.
  - intros [= <-]. apply (books_phase (send_out st r)); [eapply books_frame; [exact Hb|done..|]; eauto|by cbn; rewrite Hp].
  - destruct (sv_done st); [|done]. intros [= <-]. by apply books_phase.
  - intros [= <-]. apply (books_phase (send_out st r)); [eapply books_frame; [exact Hb|done..|]; eauto|by cbn; rewrite Hp].
  - destruct (sv_done st); [|done]. intros [= <-]. by apply books_phase.
  - destruct (forallb is_gone (sv_children st)); [|done]. intros [= <-]. by apply books_phase.
Qed.

Lemma child_step_running c e c' : child_step c e = Some c' -> ch_phase c <> Running -> ch_phase c' <> Running.
Proof. unfold child_step. destruct c as [[] ? ? ? ? ?], e; cbn; try done; by intros [= <-]. Qed.

Lemma serve_step_books h n m st e st' : session_inv n m st -> books_inv st -> serve_step h st e = Some st' -> books_inv st'.
Proof.
  destruct e as [i e| |e]; cbn; [| |by apply loop_step_books].
  - intros _ [Hc [Hn He]]. rewrite bind_Some_iff. intros (c & Hci & Hx). apply bind_Some_iff in Hx as (c' & Hstep & [= <-]).
    assert (Hother : forall j err, (j, err) ∈ sv_errs st -> exists cj, <[i := c']> (sv_children st) !! j = Some cj /\ ch_phase cj <> Running).
    { intros j err Hj. destruct (He j err Hj) as (cj & Hcj & Hp). destruct (decide (j = i)) as [->|Hne].
      - exists c'. rewrite list_lookup_insert_eq by (by eapply lookup_lt_Some). split; [done|]. eapply child_step_running; [exact Hstep|congruence].
      - exists cj. by rewrite list_lookup_insert_ne. }
    constructor; [exact Hc|]. cbn. destruct e as [| |[err|]| |]; try by split.
    assert (Hrun : ch_phase c = Running /\ ch_phase c' <> Running).
    { unfold child_step in Hstep. destruct (ch_phase c); try done. by injection Hstep as <-. }
    split.
    + rewrite fmap_app. cbn. apply NoDup_app. split_and!; [done| |apply NoDup_singleton].
      intros j Hj ->%list_elem_of_singleton. apply list_elem_of_fmap in Hj as ([i0 err0] & -> & Hin).
      destruct (He _ _ Hin) as (c0 & Hc0 & Hp0). destruct Hrun. cbn in *. congruence.
    + intros j err0 [Hj|[= -> ->]%list_elem_of_singleton]%elem_of_app; [by eapply Hother|].
      exists c'. rewrite list_lookup_insert_eq by (by eapply lookup_lt_Some). by destruct Hrun.
  - intros _ Hb [= <-]. eapply books_frame; [exact Hb|done..|]. eauto.
Qed.

(** ** All of it, at any point of a run *)

Record serve_inv (h : mergeHandler) (st : Serve) : Prop := {
  sv_session_inv : session_inv (mh_handlers h) (start_session_metrics h) st;
  sv_children_inv : children_inv st;
  sv_books_inv : books_inv st
}.

Lemma serve_step_inv h st e st' : serve_inv h st -> serve_step h st e = Some st' -> serve_inv h st'.
Proof.
  intros [H1 H2 H3] He. constructor; [by eapply serve_step_session|by eapply serve_step_children|by eapply serve_step_books].
Qed.

Lemma serve_inv_start h : serve_inv h (serve_start h).
Proof. constructor; [apply session_start|apply children_start|apply books_start]. Qed.

Lemma serve_run_inv h es st st' : serve_inv h st -> serve_run h st es = Some st' -> serve_inv h st'.
Proof. apply (serve_run_ind (serve_inv h)). apply serve_step_inv. Qed.

Lemma reached_inv h es st : serve_run h (serve_start h) es = Some st -> serve_inv h st.
Proof. apply serve_run_inv, serve_inv_start. Qed.
