(* ===== verification/MergeServeSpec.v ===== *)
(** * What the merge handler promises its client and its children (merge_handler.go)

    The theorems about the machine of MergeServe.v: that it ends, what a lost child
    costs, that it is the session driven by well-formed calls and that its channels
    lose nothing. *)

From S2P Require Import Prelude GoTime Event Filter Message Merge MergeReq MergeHandler MergeServe.

(** ** Ending *)

(** The steps that bring the end closer: those of the loop but for taking another
    message, and a child's way out. *)
Definition own (e : ServeEvent) : bool :=
  match e with
  | OfChild _ (Returns _) | OfChild _ Closes | OfChild _ Leaves => true
  | OfLoop (SelectRecv _) | OfLoop (SelectChild _ _ _ _) => false
  | OfLoop _ => true
  | _ => false
  end.

Definition child_left (c : Child) : nat := match ch_phase c with Running => 3 | Returned => 2 | Closed => 1 | Gone => 0 end.

Definition phase_left (n : nat) (p : LoopPhase) : nat :=
  match p with
  | Selecting => 2
  | Fanning _ i dead => 4 + length dead + 3 * (n - i)
  | Waiting _ i dead => 3 + length dead + 3 * (n - i)
  | Forwarding _ dead => 3 + length dead
  | Joining _ => 1
  | Finished _ | Crashed _ => 0
  end.

Definition children_left (l : list Child) : nat := foldr (fun c k => child_left c + k)%nat 0%nat l.
Definition steps_left (st : Serve) : nat := (children_left (sv_children st) + phase_left (length (sv_children st)) (sv_phase st))%nat.

Arguments children_left : simpl never.

Lemma children_left_cons c l : children_left (c :: l) = (child_left c + children_left l)%nat.
Proof. done. Qed.

Lemma children_left_insert l i c c' : l !! i = Some c -> (children_left (<[i := c']> l) + child_left c = children_left l + child_left c')%nat.
Proof.
  revert i. induction l as [|x l IH]; intros [|i]; [done..| |].
  - intros [= ->]. change (<[0%nat := c']> (c :: l)) with (c' :: l). rewrite !children_left_cons. lia.
  - intros Hi. change (<[S i := c']> (x :: l)) with (x :: <[i := c']> l). rewrite !children_left_cons. specialize (IH i Hi). lia.
Qed.

Lemma children_left_alter l i f : (forall c, ch_phase (f c) = ch_phase c) -> children_left (alter f i l) = children_left l.
Proof.
  intros Hf. destruct (l !! i) as [c|] eqn:Hc.
  - assert (Heq : alter f i l = <[i := f c]> l) by (apply list_eq; intros j; destruct (decide (i = j)) as [<-|Hne];
      [rewrite list_lookup_alter_eq, list_lookup_insert_eq, Hc by (by eapply lookup_lt_Some); done|by rewrite list_lookup_alter_ne, list_lookup_insert_ne]).
    rewrite Heq. pose proof (children_left_insert l i c (f c) Hc) as Hi. unfold child_left in Hi at 1 2. rewrite Hf in Hi. lia.
  - f_equal. apply list_eq. intros j. destruct (decide (i = j)) as [<-|Hne]; [by rewrite list_lookup_alter_eq, Hc|by rewrite list_lookup_alter_ne].
Qed.

Lemma retire_left st i dead o1 o2 o3 : steps_left (retire_child st i dead o1 o2 o3) =
  (children_left (sv_children st) + (3 + length dead))%nat.
Proof.
  unfold retire_child. destruct (handlerClosed _ _ _ _ i) as [s results]. unfold steps_left. cbn [set_phase sv_phase sv_children call_session
    add_counts set_live alter_child phase_left]. by rewrite children_left_alter.
Qed.

Lemma own_loop_decreases h n m st e st' : session_inv n m st -> loop_step h st e = Some st' -> own (OfLoop e) = true ->
  (steps_left st' < steps_left st)%nat \/
  (steps_left st' = steps_left st /\ (length (pending (sv_phase st')) < length (pending (sv_phase st)))%nat).
Proof.
  intros Hs. unfold loop_step. pose proof (si_live _ _ _ Hs) as Hlen. pose proof (si_children _ _ _ Hs) as Hlen'.
  destruct (sv_phase st) as [|msg i dead|msg i dead|[|r results] [|i dead]|cn|errs|w] eqn:Hp; destruct e as [|[msg'|]|i' o1 o2 o3| | | | | | |o1 o2 o3| |]; try done; intros Hx _.
  - destruct (sv_done st); [|done]. injection Hx as <-. left. unfold steps_left. rewrite Hp. cbn. lia.
  - injection Hx as <-. left. unfold try_child, steps_left. rewrite Hp. destruct (sv_children st !! i) as [c|] eqn:Hc; [|cbn; lia].
    apply lookup_lt_Some in Hc. destruct (negb (live st i)); [cbn; lia|]. destruct (room h c).
    { cbn. rewrite children_left_alter, length_alter by done. lia. }
    destruct (String.eqb _ _); cbn; lia.
  - apply bind_Some_iff in Hx as (c & Hc & Hx). destruct (room h c); [|done]. injection Hx as <-. left. unfold steps_left. rewrite Hp. cbn.
    apply lookup_lt_Some in Hc. rewrite children_left_alter, length_alter by done. lia.
  - injection Hx as <-. left. unfold steps_left. rewrite Hp. cbn. rewrite length_app. cbn.
    pose proof (live_bound n st i Hlen (si_wait _ _ _ Hs _ _ _ Hp)). lia.
  - destruct (sv_done st); [|done]. injection Hx as <-. left. unfold steps_left. rewrite Hp. cbn. lia.
  - injection Hx as <-. left. unfold steps_left. rewrite Hp. cbn. lia.
  - injection Hx as <-. left. rewrite retire_left. unfold steps_left. rewrite Hp. cbn. lia.
  - injection Hx as <-. right. unfold steps_left. rewrite Hp. cbn. lia.
  - destruct (sv_done st); [|done]. injection Hx as <-. left. unfold steps_left. rewrite Hp. cbn. lia.
  - injection Hx as <-. right. unfold steps_left. rewrite Hp. cbn. lia.
  - destruct (sv_done st); [|done]. injection Hx as <-. left. unfold steps_left. rewrite Hp. cbn. lia.
  - destruct (forallb is_gone (sv_children st)); [|done]. injection Hx as <-. left. unfold steps_left. rewrite Hp. cbn. lia.
Qed.

Lemma own_step_decreases h n m st e st' : session_inv n m st -> serve_step h st e = Some st' -> own e = true ->
  (steps_left st' < steps_left st)%nat \/
  (steps_left st' = steps_left st /\ (length (pending (sv_phase st')) < length (pending (sv_phase st)))%nat).
Proof.
  destruct e as [i e| |e]; [|done|by apply own_loop_decreases]. intros _. cbn [serve_step]. rewrite bind_Some_iff.
  intros (c & Hc & Hx) Ho. apply bind_Some_iff in Hx as (c' & Hstep & [= <-]). left.
  unfold steps_left, child_moves. cbn. rewrite length_insert. pose proof (children_left_insert _ _ _ c' Hc) as Hi.
  assert (child_left c' < child_left c)%nat; [|lia].
  unfold child_step, child_left in *. destruct (ch_phase c); destruct e; try done; injection Hstep as <-; cbn; lia.
Qed.

(** [a] goes to [b] by a step of its own. *)
Definition own_step (h : mergeHandler) (b a : Serve) : Prop := exists e, own e = true /\ serve_step h a e = Some b.

Lemma own_steps_end h n m st : session_inv n m st -> Acc (own_step h) st.
Proof.
  remember (steps_left st) as k eqn:Hk. revert st Hk. induction (lt_wf k) as [k _ IHk]. intros st.
  remember (length (pending (sv_phase st))) as p eqn:Hp. revert st Hp. induction (lt_wf p) as [p _ IHp]. intros st Hp Hk Hi.
  constructor. intros b (e & Ho & He). assert (Hb : session_inv n m b) by (by eapply serve_step_session).
  destruct (own_step_decreases h n m st e b Hi He Ho) as [Hlt|[Heq Hlt]].
  - by eapply IHk; [rewrite Hk; exact Hlt|done|].
  - eapply IHp; [rewrite Hp; exact Hlt|done|congruence|done].
Qed.

(** A connection whose context is done and that has nothing left to do has returned. *)
Lemma own_stuck h st : session_inv (mh_handlers h) (start_session_metrics h) st -> sv_done st = true ->
  (forall e, own e = true -> serve_step h st e = None) -> forallb is_gone (sv_children st) = true /\
  (crashed (sv_phase st) = true \/ exists errs, sv_phase st = Finished errs).
Proof.
  intros Hi Hdone Hno. assert (Hgone : forallb is_gone (sv_children st) = true).
  { apply forallb_forall. intros c Hc%list_elem_of_In. apply list_elem_of_lookup in Hc as [i Hc]. unfold is_gone.
    destruct (ch_phase c) eqn:Hp; [| | |done]; exfalso.
    - specialize (Hno (OfChild i (Returns None)) eq_refl). cbn in Hno. rewrite Hc in Hno. cbn in Hno. unfold child_step in Hno. by rewrite Hp in Hno.
    - specialize (Hno (OfChild i Closes) eq_refl). cbn in Hno. rewrite Hc in Hno. cbn in Hno. unfold child_step in Hno. by rewrite Hp in Hno.
    - specialize (Hno (OfChild i Leaves) eq_refl). cbn in Hno. rewrite Hc in Hno. cbn in Hno. unfold child_step in Hno. by rewrite Hp in Hno. }
  split; [done|]. pose proof (fun e => Hno (OfLoop e)) as Hl. cbn [serve_step] in Hl. unfold loop_step in Hl. rewrite Hdone in Hl.
  destruct (sv_phase st) as [|msg i dead|msg i dead|[|r results] [|i dead]|cn|errs|w] eqn:Hp; try (by left); try (right; by eexists); exfalso.
  - by specialize (Hl SelectDone eq_refl).
  - by specialize (Hl TryChild eq_refl).
  - by specialize (Hl WaitDone eq_refl).
  - by specialize (Hl Resume eq_refl).
  - by specialize (Hl (NextDead range_in_order range_in_order range_in_order) eq_refl).
  - by specialize (Hl SendDone eq_refl).
  - by specialize (Hl SendDone eq_refl).
  - specialize (Hl Join eq_refl). by rewrite Hgone in Hl.
Qed.

(** What [ServeNostr] returns. *)
Definition finish_inv (st : Serve) : Prop :=
  forall errs, sv_phase st = Finished errs -> forallb is_gone (sv_children st) = true /\ exists b, errs = joined b (sv_errs st).

Lemma gone_stays l i c e c' : forallb is_gone l = true -> l !! i = Some c -> child_step c e = Some c' -> False.
Proof.
  intros Hg Hc Hs. rewrite forallb_forall in Hg. assert (Hin : In c l) by (apply list_elem_of_In; by eapply list_elem_of_lookup_2).
  specialize (Hg c Hin). unfold is_gone in Hg. unfold child_step in Hs. by destruct (ch_phase c).
Qed.

Lemma serve_step_finish h st e st' : finish_inv st -> serve_step h st e = Some st' -> finish_inv st'.
Proof.
  intros Hf. destruct e as [i e| |e]; cbn [serve_step].
  - rewrite bind_Some_iff. intros (c & Hc & Hx). apply bind_Some_iff in Hx as (c' & Hstep & [= <-]). intros errs Hp. cbn in Hp.
    destruct (Hf errs Hp) as [Hg _]. by destruct (gone_stays _ _ _ _ _ Hg Hc Hstep).
  - intros [= <-] errs Hp. by apply Hf.
  - unfold loop_step. destruct (sv_phase st) as [|msg i dead|msg i dead|[|r results] [|i dead]|cn|errs|w] eqn:Hp; destruct e as [|[msg'|]|i' o1 o2 o3| | | | | | |o1 o2 o3| |]; try done;
      repeat (rewrite bind_Some_iff; intros (? & ? & Hx); revert Hx); unfold client_message, child_message, try_child, retire_child;
      repeat (case_match; try done); intros [= <-] es; cbn; try done.
    intros [= <-]. split; [done|]. by eexists.
Qed.

(** ** A child that is lost stays lost *)

(** Since [st1], the calls made are [new], none about child [i], which is still not
    live, and more has been sent, never less. *)
Definition since (st1 : Serve) (i : nat) (st : Serve) : Prop :=
  live st i = false /\ exists new tail, sv_ops st = sv_ops st1 ++ new /\ unheard i new /\ sv_sent st = sv_sent st1 ++ tail.

Lemma since_start st i : live st i = false -> since st i st.
Proof. intros Hl. split; [done|]. exists [], []. rewrite !app_nil_r. by repeat constructor. Qed.

(** A step that calls the session with [ops], sends [sent] and retires nobody but
    children that are live. *)
Lemma since_frame st1 i st st' ops sent : since st1 i st -> sv_ops st' = sv_ops st ++ ops -> sv_sent st' = sv_sent st ++ sent ->
  (live st i = false -> live st' i = false) -> unheard i ops -> since st1 i st'.
Proof.
  intros (Hl & new & tail & E1 & Hu & E2) E3 E4 Hl' Hops. split; [auto|]. exists (new ++ ops), (tail ++ sent).
  rewrite E3, E4, E1, E2, !app_assoc. split_and!; [done| |done]. by apply Forall_app.
Qed.

Lemma since_quiet st1 i st st' : since st1 i st -> sv_ops st' = sv_ops st -> sv_sent st' = sv_sent st -> sv_live st' = sv_live st ->
  since st1 i st'.
Proof.
  intros Hs E1 E2 E3. eapply (since_frame st1 i st st' [] []); [done|by rewrite app_nil_r..| |constructor]. unfold live. by rewrite E3.
Qed.

Lemma since_retire st1 i st j dead o1 o2 o3 : since st1 i st -> live st j = true -> since st1 i (retire_child st j dead o1 o2 o3).
Proof.
  intros Hs Hl. assert (Hne : j <> i) by (intros ->; destruct Hs; congruence). unfold retire_child. destruct (handlerClosed _ _ _ _ j) as [s results].
  apply (since_frame st1 i st _ [HandlerClosed o1 o2 o3 j] []); [done|done|by rewrite app_nil_r| |].
  - unfold live. cbn. by rewrite list_lookup_insert_ne.
  - repeat constructor. cbn. by apply Nat.eqb_neq.
Qed.

Lemma serve_step_since h n m st1 i st e st' : session_inv n m st -> since st1 i st -> serve_step h st e = Some st' -> since st1 i st'.
Proof.
  intros Hi Hs. destruct e as [j e| |e]; cbn [serve_step].
  - rewrite bind_Some_iff. intros (c & Hc & Hx). apply bind_Some_iff in Hx as (c' & _ & [= <-]). by eapply since_quiet.
  - intros [= <-]. by eapply since_quiet.
  - unfold loop_step. destruct (sv_phase st) as [|msg k dead|msg k dead|[|r results] [|k dead]|cn|errs|w] eqn:Hp;
      destruct e as [|[msg'|]|i' o1 o2 o3| | | | | | |o1 o2 o3| |]; try done.
    all: try (destruct (sv_done st); [|done]; intros [= <-]; by eapply since_quiet).
    all: try (intros [= <-]; by eapply since_quiet).
    + intros [= <-]. unfold client_message. destruct (start_op msg') as [ops|] eqn:Ho; [|by eapply since_quiet].
      apply (since_frame st1 i st _ ops []); [done|done|by rewrite app_nil_r|done|]. by eapply start_op_unheard.
    + rewrite bind_Some_iff. intros (c & Hc & Hx). destruct (live st i') eqn:Hl; [|done]. destruct (ch_send c) as [|m' ms] eqn:Hm.
      * destruct (send_closed c); [|done]. injection Hx as <-. by apply since_retire.
      * injection Hx as <-. unfold child_message. destruct (processResponse _ m' i') as [[s results]|w|w]; [|by eapply since_quiet..].
        apply (since_frame st1 i st _ [Response i' m'] []); [done|done|by rewrite app_nil_r|done|].
        repeat constructor. cbn. apply Nat.eqb_neq. intros ->. destruct Hs. congruence.
    + intros [= <-]. unfold try_child. repeat case_match; by eapply since_quiet.
    + rewrite bind_Some_iff. intros (c & Hc & Hx). destruct (room h c); [|done]. injection Hx as <-. by eapply since_quiet.
    + intros [= <-]. apply since_retire; [done|]. apply (si_dead _ _ _ Hi). rewrite Hp. by left.
    + intros [= <-]. by apply (since_frame st1 i st _ [] [r]); [done|rewrite app_nil_r| | |constructor].
    + intros [= <-]. by apply (since_frame st1 i st _ [] [r]); [done|rewrite app_nil_r| | |constructor].
    + destruct (forallb is_gone (sv_children st)); [|done]. intros [= <-]. by eapply since_quiet.
Qed.

Lemma serve_run_since h st1 i es st : serve_inv h st1 -> live st1 i = false -> serve_run h st1 es = Some st -> since st1 i st.
Proof.
  intros Hi Hl Hr. apply (serve_run_ind (fun st => serve_inv h st /\ since st1 i st) h) in Hr as [_ ?]; [done| |].
  - intros a e b [Ha Hs] He. split; [by eapply serve_step_inv|]. eapply serve_step_since; [apply Ha|done|done].
  - split; [done|]. by apply since_start.
Qed.

(** What a run has sent between two points at which no results are pending. *)
Lemma sent_since h st1 es st s1 i new tail : serve_inv h st1 -> sv_phase st1 = Selecting -> serve_run h st1 es = Some st ->
  s1 = sv_session st1 -> sv_ops st = sv_ops st1 ++ new -> sv_sent st = sv_sent st1 ++ tail -> unheard i new ->
  Forall (op_ok (mh_handlers h)) new /\ exists s out, do_ops s1 new = Ok (s, out) /\ tail `prefix_of` out.
Proof.
  intros H1 Hp Hr -> E1 E2 Hu. destruct (si_out _ _ _ (sv_session_inv _ _ H1)) as (out1 & Hdo1 & Ho1). rewrite Hp in Ho1. cbn in Ho1.
  rewrite app_nil_r in Ho1. pose proof (sv_session_inv _ _ (serve_run_inv _ _ _ _ H1 Hr)) as H2.
  destruct (si_out _ _ _ H2) as (out2 & Hdo2 & Ho2). pose proof (si_ops _ _ _ H2) as Hok. rewrite E1 in Hok, Hdo2.
  apply Forall_app in Hok as [_ Hok]. split; [done|]. rewrite (do_ops_app _ _ _ _ _ Hdo1) in Hdo2.
  destruct (do_ops (sv_session st1) new) as [[s out]| |]; try done. injection Hdo2 as _ <-. exists s, out. split; [done|].
  assert (Hpre : sv_sent st `prefix_of` out1 ++ out) by (destruct (looping (sv_phase st)); [rewrite Ho2; by eexists|done]).
  rewrite E2, <-Ho1 in Hpre. by apply prefix_app_inv in Hpre.
Qed.

(** Waiting for the children, with child [i] running. *)
Lemma joining_step h st e st1 i c : sv_phase st = Joining false -> sv_children st !! i = Some c -> ch_phase c = Running ->
  serve_step h st e = Some st1 -> e <> ContextEnds -> (forall err, e <> OfChild i (Returns err)) ->
  sv_phase st1 = Joining false /\ sv_done st1 = sv_done st /\
  exists c1, sv_children st1 !! i = Some c1 /\ ch_phase c1 = Running /\ ch_canceled c1 = ch_canceled c.
Proof.
  intros Hp Hc Hrun Hs Hctx Hret. destruct e as [j e| |e]; cbn [serve_step] in Hs; [|done|].
  - apply bind_Some_iff in Hs as (cj & Hcj & Hs). apply bind_Some_iff in Hs as (cj' & Hstep & [= <-]). cbn.
    split_and!; [done..|]. destruct (decide (j = i)) as [->|Hne]; [|rewrite list_lookup_insert_ne by done; eauto].
    rewrite list_lookup_insert_eq by (by eapply lookup_lt_Some). exists cj'. split; [done|].
    assert (cj = c) as -> by congruence. destruct (child_step_spec _ _ _ Hstep) as (_ & Hcan & _). split; [|done].
    unfold child_step in Hstep. rewrite Hrun in Hstep. destruct e; try done.
    + destruct (ch_recv c); [done|]. by injection Hstep as <-.
    + case_match; [|done]. by injection Hstep as <-.
    + by destruct (Hret err).
  - unfold loop_step in Hs. rewrite Hp in Hs. destruct e; try done. destruct (forallb is_gone (sv_children st)) eqn:Hg; [|done].
    exfalso. rewrite forallb_forall in Hg. assert (Hin : In c (sv_children st)) by (apply list_elem_of_In; by eapply list_elem_of_lookup_2).
    specialize (Hg c Hin). unfold is_gone in Hg. by rewrite Hrun in Hg.
Qed.

(** ** Properties *)

(** C3: whatever the children, the client, the timers and the context do, and
    however their steps interleave with the loop's, the merge handler is the session
    driven by well-formed calls: the session never crashes on them, and while the
    loop runs the client has been sent exactly what they returned, in order, but for
    what is still to be sent of the last one; after the loop has ended, a prefix. *)
Theorem merge_serve_refines_session (h : mergeHandler) (es : list ServeEvent) (st : Serve) :
  serve_run h (serve_start h) es = Some st ->
  Forall (op_ok (mh_handlers h)) (sv_ops st) /\
  exists out, do_ops (newMergeSession (mh_handlers h) (start_session_metrics h)) (sv_ops st) = Ok (sv_session st, out) /\
    if looping (sv_phase st) then out = sv_sent st ++ pending (sv_phase st) else sv_sent st `prefix_of` out.
Proof. intros Hr%reached_inv%sv_session_inv. split; apply Hr. Qed.

Module MergeServeExamples.
Definition h : mergeHandler := NewMergeHandler 2 (Some (mkMergeHandlerOptions 0 true)).
Definition req : ClientMsg := client_req "s" [emptyFilter].
Definition eose : ServerMsg := NewServerEOSEMsg "s".
Definition sel (i : nat) : ServeEvent := OfLoop (SelectChild i range_in_order range_in_order range_in_order).
Definition next : ServeEvent := OfLoop (NextDead range_in_order range_in_order range_in_order).
(** A REQ reaches both children; the first answers, the second returns. *)
Definition asked : list ServeEvent :=
  [OfLoop (SelectRecv (Some req)); OfLoop TryChild; OfLoop TryChild; OfChild 0 Takes; OfLoop TryChild; OfLoop Resume].
Definition answered : list ServeEvent :=
  asked ++ [OfChild 0 (Says eose); sel 0; OfLoop Resume; OfChild 1 Takes; OfChild 1 (Returns (Some "disk"%string)); OfChild 1 Closes].
Definition served : list ServeEvent := answered ++ [sel 1; OfLoop SendNext; OfLoop Resume].
(** Then the client asks again. *)
Definition again : list ServeEvent :=
  [OfLoop (SelectRecv (Some req)); OfLoop TryChild; OfLoop TryChild; OfLoop TryChild; OfLoop Resume;
   OfChild 0 (Says eose); sel 0; OfLoop Resume].
(** And leaves. *)
Definition ending : list ServeEvent :=
  [ContextEnds; OfLoop SelectDone; OfChild 0 (Returns (Some "context canceled"%string)); OfChild 0 Closes; OfChild 0 Leaves; OfChild 1 Leaves; OfLoop Join].
Definition at_end (es : list ServeEvent) : Serve := default (serve_start h) (serve_run h (serve_start h) es).
(** Eleven requests fill a child's queue and the timer fires as the client leaves. *)
Definition fill : list ServeEvent := [OfLoop (SelectRecv (Some req)); OfLoop TryChild; OfLoop TryChild; OfLoop TryChild; OfLoop Resume].
Definition cut_short : list ServeEvent :=
  concat (replicate 10 fill) ++
  [OfLoop (SelectRecv (Some req)); OfLoop TryChild; OfLoop TimerFires; OfLoop TryChild; ContextEnds; OfLoop WaitDone].
End MergeServeExamples.

Example served_ex :
  sv_sent (MergeServeExamples.at_end (MergeServeExamples.served ++ MergeServeExamples.ending)) = [MergeServeExamples.eose] /\
  sv_phase (MergeServeExamples.at_end (MergeServeExamples.served ++ MergeServeExamples.ending)) =
    Finished [LoopFault; ChildFault 1 "disk"; ChildFault 0 "context canceled"].
Proof. vm_compute. by split. Qed.

(** A timeout whose child is never retired: the metric of lost children stays behind
    that of timeouts. *)
Example timeout_not_lost :
  sv_counts (MergeServeExamples.at_end MergeServeExamples.cut_short) = Some (mkMergeHandlerMetrics 0 1 0).
Proof. vm_compute. reflexivity. Qed.

Lemma run_at_end es : bool_decide (is_Some (serve_run MergeServeExamples.h (serve_start MergeServeExamples.h) es)) = true ->
  serve_run MergeServeExamples.h (serve_start MergeServeExamples.h) es = Some (MergeServeExamples.at_end es).
Proof. rewrite bool_decide_eq_true. unfold MergeServeExamples.at_end. by intros [st ->]. Qed.

Lemma merge_serve_refines_session_witness :
  let st := MergeServeExamples.at_end MergeServeExamples.served in
  Forall (op_ok 2) (sv_ops st) /\
  exists out, do_ops (newMergeSession 2 (Some [])) (sv_ops st) = Ok (sv_session st, out) /\
    if looping (sv_phase st) then out = sv_sent st ++ pending (sv_phase st) else sv_sent st `prefix_of` out.
Proof.
  apply (merge_serve_refines_session MergeServeExamples.h MergeServeExamples.served). apply run_at_end. by vm_compute.
Defined.

(** C4: nothing is lost between the merge handler and its children: whenever the
    loop is back at its select, what a child has been handed is a subsequence of
    what the client has sent; a child still connected has been handed every REQ,
    COUNT, CLOSE and AUTH, in order, and of what it has sent everything has been
    processed, in order, but for what its channel still holds; of what a retired
    child has sent a prefix has been processed, and its context is canceled. *)
Theorem merge_channels_faithful (h : mergeHandler) (es : list ServeEvent) (st : Serve) (i : nat) (c : Child) :
  serve_run h (serve_start h) es = Some st -> sv_phase st = Selecting -> sv_children st !! i = Some c ->
  ch_got c ++ ch_recv c `sublist_of` sv_taken st /\
  if live st i
  then control (ch_got c ++ ch_recv c) = control (sv_taken st) /\ ch_said c = heard i (sv_ops st) ++ ch_send c
  else ch_canceled c = true /\ heard i (sv_ops st) `prefix_of` ch_said c.
Proof.
  intros Hr%reached_inv%sv_children_inv Hp Hc. destruct (Hr i c Hc) as [H1 H2 H3 H4]. rewrite Hp in H1, H2, H3. cbn in H2, H3.
  rewrite app_nil_r in H2, H3. specialize (H1 eq_refl). split; [done|]. destruct (live st i); [|by split; [apply H4|]].
  split; [|done]. apply H3; [done..|apply not_elem_of_nil].
Qed.

Lemma merge_channels_faithful_witness :
  let st := MergeServeExamples.at_end MergeServeExamples.served in
  exists c, sv_children st !! 0%nat = Some c /\
  ch_got c ++ ch_recv c `sublist_of` sv_taken st /\
  if live st 0
  then control (ch_got c ++ ch_recv c) = control (sv_taken st) /\ ch_said c = heard 0 (sv_ops st) ++ ch_send c
  else ch_canceled c = true /\ heard 0 (sv_ops st) `prefix_of` ch_said c.
Proof.
  eexists. split; [vm_compute; reflexivity|].
  eapply (merge_channels_faithful MergeServeExamples.h MergeServeExamples.served); [apply run_at_end; by vm_compute|by vm_compute..].
Defined.

(** C19: a merge handler whose context is done returns: with a child's return (which
    the contract of handlers asks of it then) counted, the loop and the children
    have only finitely many steps of their own left in any order, and where none is
    left the goroutines of all children are gone and [ServeNostr] has returned the
    errors of its children, in the order they were reported, after the context's
    own if that ended the loop; or it had crashed. *)
Theorem merge_serve_drains (h : mergeHandler) (es : list ServeEvent) (st : Serve) :
  serve_run h (serve_start h) es = Some st ->
  Acc (own_step h) st /\
  (sv_done st = true -> (forall e, own e = true -> serve_step h st e = None) ->
   forallb is_gone (sv_children st) = true /\
   (crashed (sv_phase st) = true \/ exists b, sv_phase st = Finished (joined b (sv_errs st)))).
Proof.
  intros Hr. pose proof (sv_session_inv _ _ (reached_inv _ _ _ Hr)) as Hi. split; [by eapply own_steps_end|]. intros Hd Hno.
  assert (Hf : finish_inv st) by (by apply (serve_run_ind finish_inv h (serve_step_finish h) es (serve_start h) st)).
  destruct (own_stuck h st Hi Hd Hno) as [Hg [Hc|(errs & He)]]; (split; [done|]); [by left|]. right.
  destruct (Hf errs He) as (_ & b & ->). by exists b.
Qed.

Lemma merge_serve_drains_witness :
  Acc (own_step MergeServeExamples.h) (MergeServeExamples.at_end (MergeServeExamples.served ++ [ContextEnds])).
Proof.
  apply (merge_serve_drains MergeServeExamples.h (MergeServeExamples.served ++ [ContextEnds])). apply run_at_end. by vm_compute.
Defined.

(** C20: the merge handler does not recover from the loss of a child: once one has
    returned or timed out, an EVENT that arrives later never gets its OK, a COUNT
    never its answer and a REQ without limit never its EOSE, however long the
    connection lasts and whatever the remaining children answer, until the same
    event, COUNT or subscription is submitted anew (which fares no better). *)
Theorem merge_lost_child_starves (h : mergeHandler) (es1 es2 : list ServeEvent) (st1 st2 : Serve) (i : nat)
    (o : op) (rest : list op) (tail : list ServerMsg) :
  serve_run h (serve_start h) es1 = Some st1 -> sv_phase st1 = Selecting -> (i < mh_handlers h)%nat -> live st1 i = false ->
  serve_run h st1 es2 = Some st2 -> sv_ops st2 = sv_ops st1 ++ o :: rest -> sv_sent st2 = sv_sent st1 ++ tail ->
  match o with
  | StartEvent id => Forall (fun o => starts_event id o = false) rest -> List.filter (is_ok_for id) tail = []
  | StartCount sub => Forall (fun o => restarts_count sub o = false) rest -> List.filter (is_count_for sub) tail = []
  | StartReq sub fs => req_limit fs <= 0 -> Forall (fun o => restarts_sub sub o = false) rest ->
      List.filter (is_eose_for sub) tail = []
  | _ => True
  end.
Proof.
  intros H1%reached_inv Hp Hi Hl H2 E1 E2. destruct (serve_run_since _ _ _ _ _ H1 Hl H2) as (_ & new & tail' & E3 & Hu & E4).
  assert (new = o :: rest) as -> by (eapply app_inv_head; by rewrite <-E3, <-E1).
  destruct (sent_since h st1 es2 st2 _ i _ tail H1 Hp H2 eq_refl E1 E2 Hu) as (Hok & s & out & Hdo & Hpre).
  pose proof (starved_call _ _ i o rest s out (handlers_kept _ _ _ (sv_session_inv _ _ H1)) Hi Hok Hu Hdo) as Hst.
  destruct o; try done; intros; (eapply sent_none; [exact Hpre|]); by apply Hst.
Qed.

Lemma merge_lost_child_starves_witness :
  let st2 := MergeServeExamples.at_end (MergeServeExamples.served ++ MergeServeExamples.again) in
  sv_phase st2 = Selecting /\ List.filter (is_eose_for "s") (drop 1 (sv_sent st2)) = [].
Proof.
  split; [by vm_compute|].
  refine (merge_lost_child_starves MergeServeExamples.h MergeServeExamples.served MergeServeExamples.again
    (MergeServeExamples.at_end MergeServeExamples.served) _ 1 (StartReq "s" [emptyFilter]) [Response 0 MergeServeExamples.eose] _ _ _ _ _ _ _ _ _ _).
  - apply run_at_end. by vm_compute.
  - by vm_compute.
  - cbn. lia.
  - by vm_compute.
  - vm_compute. reflexivity.
  - vm_compute. reflexivity.
  - vm_compute. reflexivity.
  - vm_compute. discriminate.
  - repeat constructor.
Defined.

(** A client channel that is closed does not reach the children: the loop ends,
    but their channels stay open and their contexts as they were, so [ServeNostr]
    waits for every child that is still connected for as long as the connection's
    own context is not done and the child does not return of itself (the other
    handlers return when their channel is closed). *)
Theorem merge_keeps_closed_client (h : mergeHandler) (es' : list ServeEvent) (st st' : Serve) (i : nat) (c : Child) :
  sv_phase st = Joining false -> sv_children st !! i = Some c -> ch_phase c = Running ->
  serve_run h st es' = Some st' -> ContextEnds ∉ es' -> (forall err, OfChild i (Returns err) ∉ es') ->
  sv_phase st' = Joining false /\ sv_done st' = sv_done st /\
  exists c', sv_children st' !! i = Some c' /\ ch_phase c' = Running /\ ch_canceled c' = ch_canceled c.
Proof.
  intros Hp Hc Hrun. revert st c Hp Hc Hrun. induction es' as [|e es' IH]; intros st c Hp Hc Hrun; cbn [serve_run].
  { intros [= <-] _ _. split_and!; eauto. }
  rewrite bind_Some_iff. intros (st1 & Hs & Hr) Hctx Hret.
  destruct (joining_step h st e st1 i c Hp Hc Hrun Hs) as (Hp1 & Hd1 & c1 & Hc1 & Hrun1 & Hcan1);
    [set_solver|intros err ->; apply (Hret err); by left|]. rewrite <-Hd1, <-Hcan1.
  apply (IH st1 c1); [done..|set_solver|]. intros err Hin. apply (Hret err). by right.
Qed.

Lemma merge_keeps_closed_client_witness :
  let st' := MergeServeExamples.at_end (MergeServeExamples.asked ++ [OfLoop (SelectRecv None); OfChild 1 Takes]) in
  sv_phase st' = Joining false /\ sv_done st' = false /\
  exists c', sv_children st' !! 1%nat = Some c' /\ ch_phase c' = Running /\ ch_canceled c' = false.
Proof.
  refine (merge_keeps_closed_client MergeServeExamples.h [OfChild 1 Takes]
    (MergeServeExamples.at_end (MergeServeExamples.asked ++ [OfLoop (SelectRecv None)])) _ 1
    (mkChild Running false [MergeServeExamples.req] [] [] []) _ _ _ _ _ _).
  - by vm_compute.
  - by vm_compute.
  - done.
  - vm_compute. reflexivity.
  - set_solver.
  - set_solver.
Defined.
