(* ===== verification/MergeSafe.v ===== *)
(** * The merge handler passes on only what is fit to be sent (merge_handler.go)

    A contract of the merge handler with its children: when the client's messages
    and the children's are fit, for any notion of it that its own OK, EOSE and
    COUNT messages meet, so is all it sends, and it never crashes. *)

From S2P Require Import Prelude GoTime Event Filter Message Merge MergeReq MergeHandler MergeServe.

Section Safe.

(** [fit] is what may be sent, [client] what the client may send, [name] what ids
    and texts are made of. *)
Context (fit : ServerMsg -> Prop) (client : ClientMsg -> Prop) (name : string -> Prop).

(** The ids of a message are names, and an EVENT has an event. *)
Definition named (msg : ClientMsg) : Prop :=
  name (c_SubscriptionID msg) /\ (c_Type msg = MsgTypeEvent -> exists e, c_Event msg = Some e /\ name (ev_ID e)).

Record fitness : Prop := {
  fit_OK : forall id b m, name id -> name m -> fit (NewServerOKMsg id b m);
  fit_EOSE : forall sub, name sub -> fit (NewServerEOSEMsg sub);
  fit_COUNT : forall sub n, name sub -> fit (NewServerCountMsg sub n None);
  fit_text : forall m, fit m -> name (s_Message m);
  fit_event : forall m, fit m -> s_Type m = MsgTypeEvent -> s_Event m <> None;
  fit_client : forall msg, client msg -> named msg;
  fit_empty : name "";
  fit_lost : name MergeHandlerOKLostHandlerMessage
}.

Hypothesis Hfit : fitness.

(** ** The session *)

Record clean (s : mergeSession) : Prop := {
  cl_oks : map_Forall (fun id p => name id /\ name (po_message p)) (pendingOKs s);
  cl_eoses : map_Forall (fun sub _ => name sub) (pendingEOSEs s);
  cl_counts : map_Forall (fun sub _ => name sub) (pendingCounts s)
}.

(** A session and what a call returned. *)
Definition clean_out (x : mergeSession * list ServerMsg) : Prop := clean x.1 /\ Forall fit x.2.

Lemma clean_start n m : clean (newMergeSession n m).
Proof. constructor; apply map_Forall_empty. Qed.

Lemma clean_oks s m : clean s -> map_Forall (fun id p => name id /\ name (po_message p)) m -> clean (set_pendingOKs s m).
Proof. intros [? ? ?] Hm. by constructor. Qed.
Lemma clean_eoses s m : clean s -> map_Forall (fun sub _ => name sub) m -> clean (set_pendingEOSEs s m).
Proof. intros [? ? ?] Hm. by constructor. Qed.
Lemma clean_counts s m : clean s -> map_Forall (fun sub _ => name sub) m -> clean (set_pendingCounts s m).
Proof. intros [? ? ?] Hm. by constructor. Qed.
Lemma clean_completed s c : clean s -> clean (set_completedSubs s c).
Proof. intros [? ? ?]. by constructor. Qed.
Lemma clean_drop s r : clean s -> clean (recordEventDrop s r).
Proof. intros [? ? ?]. by constructor. Qed.

Lemma finalize_fit id p : name id -> name (po_message p) -> fit (finalizeOKMsg id p).
Proof. intros Hid Hm. unfold finalizeOKMsg. destruct (po_hadHandlerLoss p); apply Hfit; [done|apply Hfit|done|done]. Qed.

Lemma clean_ok_key s id p : clean s -> pendingOKs s !! id = Some p -> name id /\ name (po_message p).
Proof. intros Hs Hp. exact (cl_oks _ Hs _ _ Hp). Qed.
Lemma clean_eose_key s sub p : clean s -> pendingEOSEs s !! sub = Some p -> name sub.
Proof. intros Hs Hp. exact (cl_eoses _ Hs _ _ Hp). Qed.
Lemma clean_count_key s sub p : clean s -> pendingCounts s !! sub = Some p -> name sub.
Proof. intros Hs Hp. exact (cl_counts _ Hs _ _ Hp). Qed.

(** [clean_tac]: the updates of the maps and the messages built from their keys. *)
Ltac clean_tac :=
  repeat (first
    [ done
    | apply clean_completed | apply clean_drop | apply clean_oks | apply clean_eoses | apply clean_counts
    | apply map_Forall_delete | apply map_Forall_insert_2
    | apply Forall_nil_2 | apply Forall_cons_2 | apply Forall_app_2
    | match goal with
      | |- map_Forall _ (pendingOKs _) => by apply cl_oks
      | |- map_Forall _ (pendingEOSEs _) => by apply cl_eoses
      | |- map_Forall _ (pendingCounts _) => by apply cl_counts
      | |- _ /\ _ => split
      | |- name (if ?b then _ else _) => destruct b
      | |- name (s_Message _) => by apply (fit_text Hfit)
      | |- name (po_message (mkPendingOK _ _ _ _ _)) => cbn [po_message]
      | |- name EmptyString => apply (fit_empty Hfit)
      | |- name MergeHandlerOKLostHandlerMessage => apply (fit_lost Hfit)
      | |- fit (finalizeOKMsg _ _) => apply finalize_fit
      | |- fit (NewServerOKMsg _ _ _) => apply (fit_OK Hfit)
      | |- fit (NewServerEOSEMsg _) => apply (fit_EOSE Hfit)
      | |- fit (NewServerCountMsg _ _ _) => apply (fit_COUNT Hfit)
      end ]).

Lemma close_ok_clean i acc id : clean_out acc -> clean_out (close_ok i acc id).
Proof.
  destruct acc as [s l]. intros [Hs Hl]. unfold close_ok. destruct (pendingOKs s !! id) as [p|] eqn:E; [|done].
  destruct (clean_ok_key _ _ _ Hs E). repeat case_match; unfold clean_out; cbn; clean_tac.
Qed.

Lemma close_eose_clean i acc sub : clean_out acc -> clean_out (close_eose i acc sub).
Proof.
  destruct acc as [s l]. intros [Hs Hl]. unfold close_eose. destruct (pendingEOSEs s !! sub) as [p|] eqn:E; [|done].
  pose proof (clean_eose_key _ _ _ Hs E). repeat case_match; unfold clean_out; cbn; clean_tac.
Qed.

Lemma close_count_clean i acc sub : clean_out acc -> clean_out (close_count i acc sub).
Proof.
  destruct acc as [s l]. intros [Hs Hl]. unfold close_count. destruct (pendingCounts s !! sub) as [p|] eqn:E; [|done].
  pose proof (clean_count_key _ _ _ Hs E). repeat case_match; unfold clean_out; cbn; clean_tac.
Qed.

Lemma fold_clean {A} (f : mergeSession * list ServerMsg -> A -> mergeSession * list ServerMsg) l acc :
  (forall acc a, clean_out acc -> clean_out (f acc a)) -> clean_out acc -> clean_out (fold_left f l acc).
Proof. intros Hf. revert acc. induction l as [|a l IH]; intros acc Hacc; cbn; auto. Qed.

Lemma handlerClosed_clean o1 o2 o3 s i : clean s -> clean_out (handlerClosed o1 o2 o3 s i).
Proof.
  intros Hs. unfold handlerClosed. apply fold_clean; [apply close_count_clean|]. apply fold_clean; [apply close_eose_clean|].
  apply fold_clean; [apply close_ok_clean|]. by split.
Qed.

Lemma processResponse_clean s m i : clean s -> fit m -> exists x, processResponse s m i = Ok x /\ clean_out x.
Proof.
  intros Hs Hm. pose proof (fit_event Hfit m Hm) as Hev. unfold processResponse.
  destruct (String.eqb _ MsgTypeOK).
  { eexists. split; [done|]. unfold processOK. destruct (pendingOKs s !! s_EventID m) as [p|] eqn:E; [|by split].
    destruct (clean_ok_key _ _ _ Hs E). repeat case_match; unfold clean_out; cbn; clean_tac. }
  destruct (String.eqb_spec (s_Type m) MsgTypeEvent) as [Ht|_].
  { destruct (s_Event m) as [e|] eqn:Ee; [|by destruct (Hev Ht)]. eexists. split; [done|]. unfold processEvent.
    case_bool_decide; [unfold clean_out; cbn; clean_tac|].
    destruct (pendingEOSEs s !! s_SubscriptionID m) as [p|] eqn:E; [|by split].
    pose proof (clean_eose_key _ _ _ Hs E). repeat case_match; unfold clean_out; cbn; clean_tac. }
  destruct (String.eqb _ MsgTypeEOSE).
  { eexists. split; [done|]. unfold processEOSE. case_bool_decide; [by split|].
    destruct (pendingEOSEs s !! s_SubscriptionID m) as [p|] eqn:E; [|by split].
    pose proof (clean_eose_key _ _ _ Hs E). repeat case_match; unfold clean_out; cbn; clean_tac. }
  destruct (String.eqb _ MsgTypeCount).
  { eexists. split; [done|]. unfold processCount. destruct (pendingCounts s !! s_SubscriptionID m) as [p|] eqn:E; [|by split].
    pose proof (clean_count_key _ _ _ Hs E). repeat case_match; unfold clean_out; cbn; clean_tac. }
  eexists. split; [done|]. unfold clean_out; cbn; clean_tac.
Qed.

(** ** The handler *)

Lemma start_clean s msg : clean s -> named msg -> exists ops, start_op msg = Some ops /\ clean (start_session s ops).
Proof.
  intros Hs [Hsub Hev]. unfold start_op. destruct (String.eqb_spec (c_Type msg) MsgTypeEvent) as [Ht|_].
  { destruct (Hev Ht) as (e & -> & Hid). eexists. split; [done|]. cbn. unfold startEventResponse. clean_tac. }
  repeat case_match; (eexists; split; [done|]); cbn; unfold startReqResponse, startCountResponse, closeSubscription; cbn; clean_tac.
Qed.

Record serve_safe (st : Serve) : Prop := {
  ss_taken : Forall client (sv_taken st);
  ss_send : forall i c, sv_children st !! i = Some c -> Forall fit (ch_send c);
  ss_session : clean (sv_session st);
  ss_out : Forall fit (sv_sent st) /\ Forall fit (pending (sv_phase st));
  ss_alive : crashed (sv_phase st) = false
}.

(** What the outside may do. *)
Definition fit_input (e : ServeEvent) : Prop :=
  match e with
  | OfChild _ (Says m) => fit m
  | OfLoop (SelectRecv (Some msg)) => client msg
  | _ => True
  end.

Lemma safe_start h : serve_safe (serve_start h).
Proof.
  constructor; cbn; [constructor| |apply clean_start|split; constructor|done].
  intros i c [-> _]%lookup_replicate. apply Forall_nil_2.
Qed.

(** A step that leaves the session, the history and what is pending alone. *)
Lemma safe_phase st p : serve_safe st -> Forall fit (pending p) -> crashed p = false -> serve_safe (set_phase st p).
Proof. intros [H1 H2 H3 [H4 _] _] Hp Hc. by constructor. Qed.

Lemma safe_alter st i f : serve_safe st -> (forall c, Forall fit (ch_send c) -> Forall fit (ch_send (f c))) -> serve_safe (alter_child st i f).
Proof.
  intros [H1 H2 H3 H4 H5] Hf. constructor; [done| |done..]. intros j c. cbn.
  destruct (decide (i = j)) as [->|Hne]; [|rewrite list_lookup_alter_ne by done; apply H2].
  rewrite list_lookup_alter_eq. intros (c' & Hc & ->)%fmap_Some. by apply Hf, (H2 j).
Qed.

Lemma safe_counts st a b c : serve_safe st -> serve_safe (add_counts st a b c).
Proof. intros [H1 H2 H3 H4 H5]. by constructor. Qed.

Lemma safe_call st s ops : serve_safe st -> clean s -> serve_safe (call_session st s ops).
Proof. intros [H1 H2 H3 H4 H5] Hs. by constructor. Qed.

Lemma safe_retire st i dead o1 o2 o3 : serve_safe st -> serve_safe (retire_child st i dead o1 o2 o3).
Proof.
  intros Hst. unfold retire_child.
  pose proof (handlerClosed_clean o1 o2 o3 (sv_session st) i (ss_session _ Hst)) as Hc.
  cbn [sv_session add_counts set_live alter_child].
  destruct (handlerClosed o1 o2 o3 (sv_session st) i) as [s results]. destruct Hc as [Hs Hr].
  apply safe_phase; [|done..]. apply safe_call; [|done]. apply safe_counts.
  destruct (safe_alter st i cancel_child Hst) as [H1 H2 H3 H4 H5]; [done|]. by constructor.
Qed.

Lemma loop_step_safe h st e st' : serve_safe st -> fit_input (OfLoop e) -> loop_step h st e = Some st' -> serve_safe st'.
Proof.
  intros Hst Hin. unfold loop_step. pose proof (proj2 (ss_out _ Hst)) as Hpend.
  destruct (sv_phase st) as [|msg i dead|msg i dead|[|r results] [|i dead]|cn|errs|w] eqn:Hp; destruct e as [|[msg'|]|i' o1 o2 o3| | | | | | |o1 o2 o3| |]; try done.
  all: try (destruct (sv_done st); [|done]; intros [= <-]; by apply safe_phase).
  all: try (intros [= <-]; by apply safe_phase).
  all: try (intros [= <-]; by apply safe_retire).
  - intros [= <-]. unfold client_message. destruct (start_clean (sv_session st) msg' (ss_session _ Hst) (fit_client Hfit _ Hin)) as (ops & -> & Hs).
    apply safe_phase; [|done..]. destruct (safe_call st _ ops Hst Hs) as [H1 H2 H3 H4 H5]. constructor; try done.
    cbn. by apply Forall_app_2; [|apply Forall_singleton].
  - rewrite bind_Some_iff. intros (c & Hc & Hx). destruct (live st i'); [|done]. destruct (ch_send c) as [|m ms] eqn:Hm.
    + destruct (send_closed c); [|done]. injection Hx as <-. by apply safe_retire.
    + injection Hx as <-. pose proof (ss_send _ Hst _ _ Hc) as Hms. rewrite Hm in Hms. apply Forall_cons in Hms as [Hfm _].
      unfold child_message. cbn [sv_session alter_child].
      destruct (processResponse_clean (sv_session st) m i' (ss_session _ Hst) Hfm) as ([s results] & -> & Hs & Hr).
      apply safe_phase; [|done..]. apply safe_call; [|done]. apply safe_alter; [done|]. intros c'. cbn.
      destruct (ch_send c') as [|x l]; [done|]. by intros [_ ?]%Forall_cons.
  - intros [= <-]. unfold try_child. repeat case_match; (apply safe_phase; [|done..]); try done;
      [by apply safe_alter|by apply safe_counts].
  - rewrite bind_Some_iff. intros (c & Hc & Hx). destruct (room h c); [|done]. injection Hx as <-.
    apply safe_phase; [|done..]. by apply safe_alter.
  - intros [= <-]. apply safe_phase; [|done..]. by apply safe_counts.
  - intros [= <-]. apply Forall_cons in Hpend as [Hr Hrs]. destruct Hst as [H1 H2 H3 [H4 _] H5]. constructor; try done.
    cbn. split; [|done]. by apply Forall_app_2; [|apply Forall_singleton].
  - intros [= <-]. apply Forall_cons in Hpend as [Hr Hrs]. destruct Hst as [H1 H2 H3 [H4 _] H5]. constructor; try done.
    cbn. split; [|done]. by apply Forall_app_2; [|apply Forall_singleton].
  - destruct (forallb is_gone (sv_children st)); [|done]. intros [= <-]. by apply safe_phase.
Qed.

Lemma serve_step_safe h st e st' : serve_safe st -> fit_input e -> serve_step h st e = Some st' -> serve_safe st'.
Proof.
  intros Hst Hin. destruct e as [i e| |e]; cbn [serve_step]; [| |by apply loop_step_safe].
  - rewrite bind_Some_iff. intros (c & Hc & Hx). apply bind_Some_iff in Hx as (c' & Hstep & [= <-]).
    destruct Hst as [H1 H2 H3 H4 H5]. constructor; try done. intros j cj. cbn.
    destruct (decide (j = i)) as [->|Hne]; [|rewrite list_lookup_insert_ne by done; apply H2].
    rewrite list_lookup_insert_eq by (by eapply lookup_lt_Some). intros [= <-]. specialize (H2 i c Hc).
    destruct (child_step_spec c e c' Hstep) as (_ & _ & more & _ & Hsend). rewrite Hsend. apply Forall_app_2; [done|].
    unfold child_step in Hstep. destruct c as [[] cn recv send got said], e; cbn in *; try done.
    all: try (destruct recv; [done|]). all: try (case_match; [|done]). all: injection Hstep as <-; cbn in Hsend.
    all: try (assert (more = []) as -> by (apply (app_inv_head send); by rewrite <-Hsend, app_nil_r); apply Forall_nil_2).
    apply app_inv_head in Hsend as <-. by apply Forall_singleton.
  - intros [= <-]. destruct Hst as [H1 H2 H3 H4 H5]. by constructor.
Qed.

End Safe.
