(* ===== verification/RateLimit.v ===== *)
(** * The token bucket (rate_limit.go)

    [tokenBucket] with [allow] and [waitDuration], in IEEE-754 binary64
    arithmetic, and the stall loop [readStall] over what the clock and the
    context show it.  The product and the sum of [allow] are rounded
    separately, as on amd64 (Go may fuse them on other machines). *)

From S2P Require Import Prelude GoTime.
From Stdlib Require Import SpecFloat.

(** ** float64 *)

Definition float64 : Type := spec_float.
Definition fadd : float64 -> float64 -> float64 := SFadd 53 1024.
Definition fsub : float64 -> float64 -> float64 := SFsub 53 1024.
Definition fmul : float64 -> float64 -> float64 := SFmul 53 1024.
Definition fdiv : float64 -> float64 -> float64 := SFdiv 53 1024.
#[export] Instance float64_eq_dec : EqDecision float64.
Proof. unfold float64. solve_decision. Defined.

(** [float64(n)] for an integer. *)
Definition of_int (n : Z) : float64 := binary_normalize 53 1024 n 0 false.
(** [x < y], [x >= y] and [x > 0]: false on NaN. *)
Definition flt (x y : float64) : bool := SFltb x y.
Definition fge (x y : float64) : bool := SFleb y x.
Definition positive (x : float64) : bool := SFltb (of_int 0) x.

(** [math.Min] *)
Definition math_Min (x y : float64) : float64 :=
  match x, y with
  | S754_infinity true, _ | _, S754_infinity true => S754_infinity true
  | S754_nan, _ | _, S754_nan => S754_nan
  | S754_zero s, S754_zero _ => if s then x else y
  | _, _ => if flt x y then x else y
  end.

(** [int64(x)], towards zero; Go leaves the result open when it does not fit. *)
Definition to_int64 (x : float64) : option Z :=
  match x with
  | S754_zero _ => Some 0
  | S754_finite s m e =>
      let n := if 0 <=? e then Z.pos m * 2 ^ e else Z.pos m / 2 ^ (- e) in
      let n := if s then - n else n in
      if bool_decide (int64 n) then Some n else None
  | _ => None
  end.

(** ** Durations *)

Definition minDuration : Z := MinInt64.
Definition maxDuration : Z := MaxInt64.

(** [t.Sub(u)]: saturates when the difference does not fit. *)
Definition Sub (t u : Time) : Z :=
  let d := wrap_int64 (wrap_int64 (wrap_int64 (t_sec t - t_sec u) * Second) + (t_nsec t - t_nsec u)) in
  if Equal (Add u d) t then d else if Before t u then minDuration else maxDuration.

(** [d.Seconds()] *)
Definition Seconds (d : Z) : float64 :=
  fadd (of_int (Z.quot d Second)) (fdiv (of_int (Z.rem d Second)) (of_int 1000000000)).

(** ** The bucket *)

Record tokenBucket : Type := mkTokenBucket {
  tb_rate : float64;
  tb_burst : float64;
  tb_tokens : float64;
  tb_lastUpdate : Time
}.

Definition newTokenBucket (rate : float64) (burst : Z) (now : Time) : tokenBucket :=
  mkTokenBucket rate (of_int burst) (of_int burst) now.

(** The refill at the head of [allow]. *)
Definition refill (tb : tokenBucket) (now : Time) : tokenBucket :=
  let elapsed := Seconds (Sub now (tb_lastUpdate tb)) in
  if positive elapsed then
    mkTokenBucket (tb_rate tb) (tb_burst tb)
      (math_Min (tb_burst tb) (fadd (tb_tokens tb) (fmul elapsed (tb_rate tb)))) now
  else tb.

Definition allow (tb : tokenBucket) (now : Time) : tokenBucket * bool :=
  let tb := refill tb now in
  if fge (tb_tokens tb) (of_int 1) then
    (mkTokenBucket (tb_rate tb) (tb_burst tb) (fsub (tb_tokens tb) (of_int 1)) (tb_lastUpdate tb), true)
  else (tb, false).

(** [None] when the conversion to an integer has no defined result. *)
Definition waitDuration (tb : tokenBucket) (now : Time) : option Z :=
  let elapsed := Seconds (Sub now (tb_lastUpdate tb)) in
  let tokens :=
    if positive elapsed then math_Min (tb_burst tb) (fadd (tb_tokens tb) (fmul elapsed (tb_rate tb)))
    else tb_tokens tb in
  if fge tokens (of_int 1) then Some 0
  else
    let needed := fsub (of_int 1) tokens in
    to_int64 (fmul (fdiv needed (tb_rate tb)) (of_int Second)).

Definition Millisecond : Z := 1000000.

(** ** readStall

    What the loop observes: the instant [waitDuration] is asked for, and then
    either the context is done or the timer fires and [allow] is asked at an
    instant. *)
Inductive Wake : Type :=
| WakeDone (asked : Time)
| WakeFired (asked allowed : Time).

Inductive StallResult : Type :=
| Proceed
| Canceled
| Waiting.

(** The duration the loop sleeps for. *)
Definition stall_sleep (tb : tokenBucket) (asked : Time) : option Z :=
  match waitDuration tb asked with
  | Some d => Some (if d <=? 0 then Millisecond else d)
  | None => None
  end.

(** The loop: the bucket, the durations slept and the result; [Waiting] when
    [wakes] ends before the loop does. *)
Fixpoint stall_loop (tb : tokenBucket) (wakes : list Wake)
    : tokenBucket * list (option Z) * StallResult :=
  match wakes with
  | [] => (tb, [], Waiting)
  | WakeDone asked :: _ => (tb, [stall_sleep tb asked], Canceled)
  | WakeFired asked now :: wakes =>
      let '(tb', ok) := allow tb now in
      if ok then (tb', [stall_sleep tb asked], Proceed)
      else let '(tb'', ds, r) := stall_loop tb' wakes in (tb'', stall_sleep tb asked :: ds, r)
  end.

(** [readStall]: the bucket, how often [onStall] is called, the sleeps and the
    result.  [canceled] is whether the context was already done, [now] the
    instant of the first [allow]. *)
Definition readStall (canceled : bool) (bucket : option tokenBucket) (now : Time) (wakes : list Wake)
    : option tokenBucket * nat * list (option Z) * StallResult :=
  match bucket with
  | None => (None, 0%nat, [], Proceed)
  | Some tb =>
      if canceled then (Some tb, 0%nat, [], Canceled)
      else
        let '(tb', ok) := allow tb now in
        if ok then (Some tb', 0%nat, [], Proceed)
        else let '(tb'', ds, r) := stall_loop tb' wakes in (Some tb'', 1%nat, ds, r)
  end.

Arguments fadd : simpl never.
Arguments fsub : simpl never.
Arguments fmul : simpl never.
Arguments fdiv : simpl never.
Arguments of_int : simpl never.
Arguments Seconds : simpl never.
Arguments Sub : simpl never.

(** ** Whole numbers of tokens *)

(** Subtracting a token is exact on whole numbers up to this bound. *)
Definition max_burst : Z := 4096.

Definition token_step_ok (k : Z) : bool :=
  fge (of_int k) (of_int 1) && bool_decide (fsub (of_int k) (of_int 1) = of_int (k - 1)).

Lemma token_steps : forallb token_step_ok (Z.of_nat <$> seq 1 4096) = true.
Proof. vm_compute. reflexivity. Qed.

Lemma token_step k : 1 <= k <= max_burst ->
  fge (of_int k) (of_int 1) = true /\ fsub (of_int k) (of_int 1) = of_int (k - 1).
Proof.
  intros Hk. pose proof token_steps as H. rewrite forallb_forall in H.
  specialize (H k). unfold token_step_ok in H.
  assert (Hin : In k (Z.of_nat <$> seq 1 4096)).
  { apply list_elem_of_In, list_elem_of_fmap. exists (Z.to_nat k). split; [lia|].
    apply elem_of_seq. unfold max_burst in Hk. lia. }
  apply H in Hin as [H1 H2]%andb_true_iff. split; [done|]. by apply bool_decide_eq_true in H2.
Qed.

Lemma Sub_self t : time_wf t -> Sub t t = 0.
Proof.
  intros [Hs Hn]. unfold Sub. rewrite !Z.sub_diag.
  change (wrap_int64 (wrap_int64 (wrap_int64 0 * Second) + 0)) with 0.
  assert (Add t 0 = t) as ->; [|by rewrite Equal_refl].
  unfold Add. change (Z.quot 0 Second) with 0. change (Z.rem 0 Second) with 0. rewrite Z.add_0_r.
  rewrite (proj2 (Z.leb_gt _ _)), (proj2 (Z.ltb_ge _ _)) by lia.
  rewrite addSec_exact by int_lia. rewrite Z.add_0_r. by destruct t.
Qed.

Lemma refill_same_instant tb now : time_wf now -> tb_lastUpdate tb = now -> refill tb now = tb.
Proof. intros H <-. unfold refill. rewrite Sub_self by done. reflexivity. Qed.

(** A number of calls to [allow] at one instant. *)
Fixpoint allow_n (n : nat) (tb : tokenBucket) (now : Time) : tokenBucket * list bool :=
  match n with
  | O => (tb, [])
  | S n =>
      let '(tb, ok) := allow tb now in
      let '(tb, oks) := allow_n n tb now in
      (tb, ok :: oks)
  end.

Lemma allow_n_whole n k rate burst now :
  time_wf now -> 0 <= k <= max_burst ->
  (allow_n n (mkTokenBucket rate burst (of_int k) now) now).2 =
  replicate (n `min` Z.to_nat k) true ++ replicate (n - Z.to_nat k) false.
Proof.
  intros Hnow. revert k. induction n as [|n IH]; intros k Hk; [done|]. cbn [allow_n].
  unfold allow. rewrite refill_same_instant by done.
  cbn [tb_tokens tb_rate tb_burst tb_lastUpdate].
  destruct (decide (k = 0)) as [->|Hne].
  - change (fge (of_int 0) (of_int 1)) with false. cbv iota.
    specialize (IH 0 Hk). destruct (allow_n n _ _) as [tb' oks]. simpl in *. rewrite IH.
    rewrite Nat.min_0_r, Nat.sub_0_r. done.
  - destruct (token_step k) as [-> ->]; [lia|].
    specialize (IH (k - 1) ltac:(lia)). destruct (allow_n n _ _) as [tb' oks]. cbn [snd] in *.
    rewrite IH. replace (Z.to_nat k) with (S (Z.to_nat (k - 1))) by lia. done.
Qed.

Lemma flt_irrefl x : flt x x = false.
Proof.
  unfold flt, SFltb, SFcompare. destruct x as [[]|[]| |[] m e]; try done;
    by rewrite Z.compare_refl, Pos.compare_cont_refl.
Qed.

(** The refilled bucket never exceeds its burst. *)
Lemma math_Min_not_above b x : flt b (math_Min b x) = false.
Proof.
  pose proof (flt_irrefl b) as Hb.
  destruct b as [[]|[]| |sb mb eb], x as [[]|[]| |sx mx ex]; try done; unfold math_Min; try done;
    match goal with |- context [if ?c then _ else _] => destruct c eqn:E end; done.
Qed.

Lemma stall_sleep_positive tb asked d : stall_sleep tb asked = Some d -> 0 < d.
Proof.
  unfold stall_sleep. destruct (waitDuration tb asked) as [w|]; [|done]. intros [= <-].
  destruct (Z.leb_spec w 0); [unfold Millisecond; lia|done].
Qed.

Lemma stall_loop_sleeps tb wakes :
  Forall (fun o => forall d, o = Some d -> 0 < d) (stall_loop tb wakes).1.2.
Proof.
  revert tb. induction wakes as [|[asked|asked now] wakes IH]; intros tb; simpl; [constructor| |].
  - constructor; [|constructor]. apply stall_sleep_positive.
  - destruct (allow tb now) as [tb' []]; simpl.
    + constructor; [|constructor]. apply stall_sleep_positive.
    + specialize (IH tb'). destruct (stall_loop tb' wakes) as [[tb'' ds] r]. simpl in *.
      constructor; [|done]. apply stall_sleep_positive.
Qed.

(** ** Properties *)

(** A fresh bucket lets exactly its burst through at one instant: of any
    number of calls at the instant it was made the first [burst] are allowed and
    the others are not, in float64 arithmetic and whatever the rate (bursts up
    to 4096). *)
Theorem allow_burst (rate : float64) (burst : Z) (now : Time) (n : nat) :
  1 <= burst <= max_burst -> time_wf now ->
  (allow_n n (newTokenBucket rate burst now) now).2 =
  replicate (n `min` Z.to_nat burst) true ++ replicate (n - Z.to_nat burst) false.
Proof. intros Hb Hnow. apply allow_n_whole; [done|lia]. Qed.

Lemma allow_burst_witness :
  (allow_n 5 (newTokenBucket (of_int 1) 3 (time_Unix 0)) (time_Unix 0)).2 =
  [true; true; true; false; false].
Proof. apply (allow_burst (of_int 1) 3 (time_Unix 0) 5); [unfold max_burst; lia|apply time_Unix_wf]. Defined.

(** The readLoop's stall never spins and never charges a dead connection:
    every sleep it asks for lasts longer than zero (where the conversion of the
    wait to an integer is defined), onStall is called at most once and exactly
    when it sleeps or waits, a connection already canceled keeps its tokens, and
    without a bucket nothing is awaited. *)
Theorem readStall_spec (canceled : bool) (bucket : option tokenBucket) (now : Time) (wakes : list Wake) :
  let '(bucket', stalls, sleeps, r) := readStall canceled bucket now wakes in
  Forall (fun o => forall d, o = Some d -> 0 < d) sleeps /\
  (stalls <= 1)%nat /\ (sleeps <> [] -> stalls = 1%nat) /\ (r = Waiting -> stalls = 1%nat) /\
  (canceled = true -> bucket' = bucket /\ stalls = 0%nat /\ (bucket <> None -> r = Canceled)) /\
  (bucket = None -> r = Proceed).
Proof.
  unfold readStall. destruct bucket as [tb|]; [|by split_and!; auto].
  destruct canceled; [by split_and!; auto|].
  destruct (allow tb now) as [tb' []]; [by split_and!; auto|].
  pose proof (stall_loop_sleeps tb' wakes) as Hs.
  destruct (stall_loop tb' wakes) as [[tb'' ds] r]. by split_and!; auto.
Qed.
