(* ===== verification/Middleware.v ===== *)
(** * Simple middlewares (middleware.go)

    What a [SimpleMiddlewareBase] is, the per-connection context its calls share,
    how several bases are started and ended, and the pipeline loop between the
    client, the bases and the downstream handler.  The loop is a step function
    over the events its [select] can choose; its theorem says that whatever the
    interleaving, it delivers what processing the messages one by one gives. *)

From S2P Require Import Prelude GoTime Event Filter Message Metrics RateLimit.

(** ** The context of a connection

    [context.Context] values as the middlewares use them: each key holds a
    pointer, so that what a later call reads is what an earlier one wrote, and a
    second [WithValue] under the same key hides the first. *)

Record authState : Type := mkAuthState {
  as_challenge : string;
  as_authedPubkeys : gset string;
  as_authenticated : bool
}.

(** The counters of the relay's auth metrics that the middleware moves: the
    results recorded, and the gauge of authenticated connections. *)
Record authMetrics : Type := mkAuthMetrics {
  am_AuthTotal : list string;
  am_AuthenticatedConnectionsCurrent : Z
}.

(** The kinds of rate-limited messages, each with its own context key. *)
Inductive BucketKey : Type := EventBucket | ReqBucket | CountBucket | AuthBucket.

#[export] Instance BucketKey_eq_dec : EqDecision BucketKey.
Proof. solve_decision. Defined.

(** The counter of rejections, by middleware and reason. *)
Definition rejectionMetrics : Type := gmap (string * string) Z.

(** [newRejectionMetrics]; [None] is the nil of a relay without a registry. *)
Definition newRejectionMetrics (reg : bool) : option rejectionMetrics := if reg then Some ∅ else None.

(** [ctx_rejections] is what [logRejection] has logged. *)
Record Ctx : Type := mkCtx {
  ctx_auth : option authState;
  ctx_maxSubs : option (gset string);
  ctx_bucket : BucketKey -> option tokenBucket;
  ctx_rejections : list (string * string);
  ctx_rejectionMetrics : option rejectionMetrics;
  ctx_authMetrics : option authMetrics
}.

Definition emptyCtx : Ctx := mkCtx None None (fun _ => None) [] None None.

Definition set_auth (c : Ctx) (a : authState) : Ctx :=
  mkCtx (Some a) (ctx_maxSubs c) (ctx_bucket c) (ctx_rejections c) (ctx_rejectionMetrics c) (ctx_authMetrics c).
Definition set_maxSubs (c : Ctx) (s : gset string) : Ctx :=
  mkCtx (ctx_auth c) (Some s) (ctx_bucket c) (ctx_rejections c) (ctx_rejectionMetrics c) (ctx_authMetrics c).
Definition set_bucket (c : Ctx) (k : BucketKey) (tb : tokenBucket) : Ctx :=
  mkCtx (ctx_auth c) (ctx_maxSubs c)
    (fun k' => if decide (k' = k) then Some tb else ctx_bucket c k')
    (ctx_rejections c) (ctx_rejectionMetrics c) (ctx_authMetrics c).
Definition add_rejection (c : Ctx) (middleware reason : string) : Ctx :=
  mkCtx (ctx_auth c) (ctx_maxSubs c) (ctx_bucket c) (ctx_rejections c ++ [(middleware, reason)])
    ((fun m => Inc m (middleware, reason)) <$> ctx_rejectionMetrics c) (ctx_authMetrics c).
Definition set_rejectionMetrics (c : Ctx) (m : option rejectionMetrics) : Ctx :=
  mkCtx (ctx_auth c) (ctx_maxSubs c) (ctx_bucket c) (ctx_rejections c) m (ctx_authMetrics c).
Definition set_authMetrics (c : Ctx) (m : option authMetrics) : Ctx :=
  mkCtx (ctx_auth c) (ctx_maxSubs c) (ctx_bucket c) (ctx_rejections c) (ctx_rejectionMetrics c) m.

(** [Relay] puts the metrics into the context of a connection; a middleware reads
    them there, and finds none when the relay has no registry. *)
Definition contextWithAuthMetrics (c : Ctx) (m : option authMetrics) : Ctx := set_authMetrics c m.
Definition authMetricsFromContext (c : Ctx) : option authMetrics := ctx_authMetrics c.
Definition contextWithRejectionMetrics (c : Ctx) (m : option rejectionMetrics) : Ctx := set_rejectionMetrics c m.
Definition rejectionMetricsFromContext (c : Ctx) : option rejectionMetrics := ctx_rejectionMetrics c.

(** The context of a connection, as [ServeHTTP] sets it up. *)
Definition conn_ctx (rejections : option rejectionMetrics) (auth : option authMetrics) : Ctx :=
  let ctx := match rejections with Some _ => contextWithRejectionMetrics emptyCtx rejections | None => emptyCtx end in
  match auth with Some _ => contextWithAuthMetrics ctx auth | None => ctx end.

(** What a call reads from outside: the clock, and a random challenge ([None]
    when the system has no randomness). *)
Record Env : Type := mkEnv { env_now : Time; env_challenge : option string }.

(** ** Calls: state and error *)

Definition CtxM (A : Type) : Type := Ctx -> Ctx * Res A.

#[export] Instance CtxM_ret : MRet CtxM := fun A a c => (c, Ok a).
#[export] Instance CtxM_bind : MBind CtxM := fun A B f m c =>
  match m c with
  | (c', Ok a) => f a c'
  | (c', Err e) => (c', Err e)
  | (c', Panic w) => (c', Panic w)
  end.

Definition get_ctx : CtxM Ctx := fun c => (c, Ok c).
Definition put_ctx (f : Ctx -> Ctx) : CtxM () := fun c => (f c, Ok ()).
Definition fail {A} (e : string) : CtxM A := fun c => (c, Err e).
Definition crash {A} (w : string) : CtxM A := fun c => (c, Panic w).

(** logger.go, [logRejection]: the counter it moves, if there is one, and the record
    it leaves. *)
Definition logRejection (middleware reason : string) : CtxM () :=
  put_ctx (fun c => add_rejection c middleware reason).

(** The counter and the log tell the same. *)
Definition rejections_agree (c : Ctx) : Prop :=
  forall m l, ctx_rejectionMetrics c = Some m -> value m l = Z.of_nat (length (filter (fun x => x = l) (ctx_rejections c))).

Lemma add_rejection_agrees c mw r : rejections_agree c -> rejections_agree (add_rejection c mw r).
Proof.
  intros Hc m l. unfold add_rejection. cbn [ctx_rejectionMetrics ctx_rejections]. intros (m0 & Hm0 & ->)%fmap_Some.
  rewrite value_Inc, (Hc m0 l Hm0), filter_app, length_app, filter_cons, filter_nil.
  repeat case_decide; subst; cbn; try done; lia.
Qed.

Record SimpleMiddlewareBase : Type := mkBase {
  OnStart : Env -> CtxM (option ServerMsg);
  OnEnd : CtxM (option ServerMsg);
  HandleClientMsg : Env -> ClientMsg -> CtxM (option ClientMsg * option ServerMsg);
  HandleServerMsg : Env -> ServerMsg -> CtxM (option ServerMsg)
}.

(** The three usual results of [HandleClientMsg] and the usual [OnStart], [OnEnd]
    and [HandleServerMsg]. *)
Definition pass (msg : ClientMsg) : CtxM (option ClientMsg * option ServerMsg) :=
  mret (Some msg, None).
Definition reject (resp : ServerMsg) : CtxM (option ClientMsg * option ServerMsg) :=
  mret (None, Some resp).
Definition no_start (_ : Env) : CtxM (option ServerMsg) := mret None.
Definition no_end : CtxM (option ServerMsg) := mret None.
Definition pass_server (_ : Env) (msg : ServerMsg) : CtxM (option ServerMsg) := mret (Some msg).

(** ** One message through all bases *)

(** [HandleServerMsg] through [bases], in the order of the list. *)
Fixpoint server_through (env : Env) (bases : list SimpleMiddlewareBase) (msg : ServerMsg)
    : CtxM (option ServerMsg) :=
  match bases with
  | [] => mret (Some msg)
  | b :: rest =>
      out ← HandleServerMsg b env msg;
      match out with
      | None => mret None
      | Some msg => server_through env rest msg
      end
  end.

(** [HandleClientMsg] through [bases]; [outer] are the bases already passed, the
    innermost first: what is left for downstream and what goes to the client. *)
Fixpoint client_through (env : Env) (outer bases : list SimpleMiddlewareBase) (msg : ClientMsg)
    : CtxM (option ClientMsg * list ServerMsg) :=
  match bases with
  | [] => mret (Some msg, [])
  | b :: rest =>
      '(out, resp) ← HandleClientMsg b env msg;
      resps ← match resp with
              | Some resp => r ← server_through env outer resp; mret (option_list r)
              | None => mret []
              end;
      match out with
      | None => mret (None, resps)
      | Some msg =>
          '(out, resps') ← client_through env (b :: outer) rest msg;
          mret (out, resps ++ resps')
      end
  end.

(** ** The pipeline loop *)

Record Pipe : Type := mkPipe {
  pl_ctx : Ctx;
  pl_recvOpen : bool;
  pendingToDownstream : list ClientMsg;
  pendingToClient : list ServerMsg
}.

Definition new_pipe (c : Ctx) : Pipe := mkPipe c true [] [].

(** What [select] can choose. *)
Inductive PipeEvent : Type :=
| CtxDone
| Recv (env : Env) (msg : ClientMsg)
| RecvClosed
| FromDownstream (env : Env) (msg : ServerMsg)
| DownstreamClosed
| ToDownstream
| ToClient.

Inductive Exit : Type :=
| Drained
| HandlerFinished
| Canceled
| Failed (e : string)
| Crashed (w : string).

(** One turn: the new state or the exit, with what is sent downstream and to the
    client; [None] when the event cannot happen. *)
Definition pipe_step (bases : list SimpleMiddlewareBase) (p : Pipe) (e : PipeEvent)
    : option ((Pipe + Exit) * list ClientMsg * list ServerMsg) :=
  if negb (pl_recvOpen p) && (length (pendingToDownstream p) =? 0)%nat
     && (length (pendingToClient p) =? 0)%nat
  then Some (inr Drained, [], [])
  else
  match e with
  | CtxDone => Some (inr Canceled, [], [])
  | RecvClosed =>
      if pl_recvOpen p
      then Some (inl (mkPipe (pl_ctx p) false (pendingToDownstream p) (pendingToClient p)), [], [])
      else None
  | Recv env msg =>
      if pl_recvOpen p then
        match client_through env [] bases msg (pl_ctx p) with
        | (c, Ok (out, resps)) =>
            Some (inl (mkPipe c true (pendingToDownstream p ++ option_list out)
                         (pendingToClient p ++ resps)), [], [])
        | (_, Err e) => Some (inr (Failed e), [], [])
        | (_, Panic w) => Some (inr (Crashed w), [], [])
        end
      else None
  | DownstreamClosed => Some (inr HandlerFinished, [], [])
  | FromDownstream env msg =>
      match server_through env (reverse bases) msg (pl_ctx p) with
      | (c, Ok out) =>
          Some (inl (mkPipe c (pl_recvOpen p) (pendingToDownstream p)
                       (pendingToClient p ++ option_list out)), [], [])
      | (_, Err e) => Some (inr (Failed e), [], [])
      | (_, Panic w) => Some (inr (Crashed w), [], [])
      end
  | ToDownstream =>
      match pendingToDownstream p with
      | msg :: rest => Some (inl (mkPipe (pl_ctx p) (pl_recvOpen p) rest (pendingToClient p)), [msg], [])
      | [] => None
      end
  | ToClient =>
      match pendingToClient p with
      | msg :: rest => Some (inl (mkPipe (pl_ctx p) (pl_recvOpen p) (pendingToDownstream p) rest), [], [msg])
      | [] => None
      end
  end.

(** A run of the loop: where it is, and all that was sent so far. *)
Inductive pipe_run (bases : list SimpleMiddlewareBase) (p0 : Pipe) :
    list PipeEvent -> (Pipe + Exit) -> list ClientMsg -> list ServerMsg -> Prop :=
| run_start : pipe_run bases p0 [] (inl p0) [] []
| run_turn es p e q down up down' up' :
    pipe_run bases p0 es (inl p) down up ->
    pipe_step bases p e = Some (q, down', up') ->
    pipe_run bases p0 (es ++ [e]) q (down ++ down') (up ++ up').

(** ** The lifecycle

    [NewSimpleMiddleware] starts the bases from the outermost on, and ends every
    base it has started, in reverse order.  [calls] logs the bases started and
    ended, by index; [errs] are the joined errors. *)

Inductive LifeCall : Type :=
| Started (i : nat)
| Ended (i : nat).

(** [OnEnd] of the started bases, the innermost first ([started] is innermost
    first); the end messages are those it tries to send. *)
Fixpoint end_all (started : list (nat * SimpleMiddlewareBase))
    (st : Ctx * list LifeCall * list string * list ServerMsg)
    : Ctx * list LifeCall * list string * list ServerMsg :=
  match started with
  | [] => st
  | (i, b) :: rest =>
      let '(c, calls, errs, msgs) := st in
      let '(c, r) := OnEnd b c in
      let '(errs, msgs) :=
        match r with
        | Ok m => (errs, msgs ++ option_list m)
        | Err e | Panic e => (errs ++ [e], msgs)
        end in
      end_all rest (c, calls ++ [Ended i], errs, msgs)
  end.

(** The loop over [OnStart].  [cut i] is whether the context is done when the
    start message of base [i] is to be sent.  The result is the started bases,
    innermost first, or that the connection is over already; with the log and
    the start messages sent. *)
Fixpoint start_all (env : Env) (cut : nat -> bool) (i : nat) (bases : list SimpleMiddlewareBase)
    (started : list (nat * SimpleMiddlewareBase)) (c : Ctx) (calls : list LifeCall)
    (sent : list ServerMsg)
    : (list (nat * SimpleMiddlewareBase) + list string) * Ctx * list LifeCall * list ServerMsg :=
  match bases with
  | [] => (inl started, c, calls, sent)
  | b :: rest =>
      match OnStart b env c with
      | (c, Err e) | (c, Panic e) =>
          let '(c, calls, errs, _) := end_all started (c, calls, [], []) in
          (inr (errs ++ [e]), c, calls, sent)
      | (c, Ok None) =>
          start_all env cut (S i) rest ((i, b) :: started) c (calls ++ [Started i]) sent
      | (c, Ok (Some m)) =>
          if cut i then
            let '(c, calls, errs, _) := end_all ((i, b) :: started) (c, calls ++ [Started i], [], []) in
            (inr (errs ++ ["context canceled"%string]), c, calls, sent)
          else start_all env cut (S i) rest ((i, b) :: started) c (calls ++ [Started i]) (sent ++ [m])
      end
  end.

(** The whole connection: start, then the loop and the downstream handler
    (which take the context to some [run c]), then the end. *)
Definition serve (env : Env) (cut : nat -> bool) (bases : list SimpleMiddlewareBase) (run : Ctx -> Ctx)
    (c : Ctx) : list LifeCall :=
  match start_all env cut 0 bases [] c [] [] with
  | (inr _, _, calls, _) => calls
  | (inl started, c, calls, _) =>
      let '(_, calls, _, _) := end_all started (run c, calls, [], []) in calls
  end.

(** ** The loop against one-by-one processing *)

Inductive Input : Type :=
| FromClient (env : Env) (msg : ClientMsg)
| FromServer (env : Env) (msg : ServerMsg).

Definition input_of (e : PipeEvent) : option Input :=
  match e with
  | Recv env msg => Some (FromClient env msg)
  | FromDownstream env msg => Some (FromServer env msg)
  | _ => None
  end.

(** Processing the messages one by one: what goes downstream and what goes to
    the client. *)
Fixpoint process (bases : list SimpleMiddlewareBase) (ins : list Input)
    : CtxM (list ClientMsg * list ServerMsg) :=
  match ins with
  | [] => mret ([], [])
  | FromClient env msg :: ins =>
      '(out, resps) ← client_through env [] bases msg;
      '(down, up) ← process bases ins;
      mret (option_list out ++ down, resps ++ up)
  | FromServer env msg :: ins =>
      out ← server_through env (reverse bases) msg;
      '(down, up) ← process bases ins;
      mret (down, option_list out ++ up)
  end.

Lemma process_snoc bases ins i c c' down up :
  process bases ins c = (c', Ok (down, up)) ->
  process bases (ins ++ [i]) c =
  match process bases [i] c' with
  | (c'', Ok (down', up')) => (c'', Ok (down ++ down', up ++ up'))
  | (c'', Err e) => (c'', Err e)
  | (c'', Panic w) => (c'', Panic w)
  end.
Proof.
  remember (process bases [i]) as f eqn:Hf.
  revert c down up. induction ins as [|[env msg|env msg] ins IH]; intros c down up.
  - change (process bases [] c) with (c, Ok ([] : list ClientMsg, [] : list ServerMsg)).
    intros [= <- <- <-]. cbn [app].
    rewrite <-Hf. by destruct (f c) as [c1 [[d u]| |]].
  - cbn [process app]. unfold mbind, CtxM_bind, mret, CtxM_ret.
    destruct (client_through env [] bases msg c) as [c1 [[out resps]| |]]; try done.
    destruct (process bases ins c1) as [c2 [[d u]| |]] eqn:Hp; try done.
    intros [= <- <- <-]. rewrite (IH _ _ _ Hp).
    destruct (f c2) as [c3 [[d' u']| |]]; try done. by rewrite !app_assoc.
  - cbn [process app]. unfold mbind, CtxM_bind, mret, CtxM_ret.
    destruct (server_through env (reverse bases) msg c) as [c1 [out| |]]; try done.
    destruct (process bases ins c1) as [c2 [[d u]| |]] eqn:Hp; try done.
    intros [= <- <- <-]. rewrite (IH _ _ _ Hp).
    destruct (f c2) as [c3 [[d' u']| |]]; try done. by rewrite !app_assoc.
Qed.

(** What a run says of the one-by-one processing of the messages it took in. *)
Definition pipe_agrees (bases : list SimpleMiddlewareBase) (c0 : Ctx) (ins : list Input)
    (q : Pipe + Exit) (down : list ClientMsg) (up : list ServerMsg) : Prop :=
  match q with
  | inl p => process bases ins c0 =
      (pl_ctx p, Ok (down ++ pendingToDownstream p, up ++ pendingToClient p))
  | inr Drained => exists c, process bases ins c0 = (c, Ok (down, up))
  | inr HandlerFinished | inr Canceled =>
      exists c d u, process bases ins c0 = (c, Ok (down ++ d, up ++ u))
  | inr (Failed e) => exists c, process bases ins c0 = (c, Err e)
  | inr (Crashed w) => exists c, process bases ins c0 = (c, Panic w)
  end.

(** The loop notices that it is drained before it looks at another event. *)
Definition taken (es : list PipeEvent) (q : Pipe + Exit) : list PipeEvent :=
  match q with inr Drained => removelast es | _ => es end.

Lemma pipe_run_agrees bases c0 es q down up :
  pipe_run bases (new_pipe c0) es q down up ->
  pipe_agrees bases c0 (omap input_of (taken es q)) q down up.
Proof.
  remember (new_pipe c0) as p0 eqn:Hp0. induction 1 as [|es p e q down up down' up' Hrun IH Hstep].
  { by subst. }
  cbn [taken pipe_agrees] in IH. unfold pipe_step in Hstep.
  destruct (negb (pl_recvOpen p) && _ && _) eqn:Hdone.
  { injection Hstep as <- <- <-. cbn [taken]. rewrite removelast_last.
    apply andb_true_iff in Hdone as [[_ Hd%Nat.eqb_eq]%andb_true_iff Hc%Nat.eqb_eq].
    apply nil_length_inv in Hd, Hc. rewrite Hd, Hc in IH. cbn. eauto. }
  destruct e as [|env msg| |env msg| | |].
  - injection Hstep as <- <- <-. cbn [taken]. rewrite omap_app, !app_nil_r. cbn. eauto.
  - destruct (pl_recvOpen p); [|done].
    pose proof (process_snoc bases _ (FromClient env msg) _ _ _ _ IH) as Hs.
    cbn [process] in Hs. unfold mbind, CtxM_bind, mret, CtxM_ret in Hs.
    destruct (client_through env [] bases msg (pl_ctx p)) as [c [[out resps]|e|w]];
      injection Hstep as <- <- <-; cbn [pipe_agrees taken]; rewrite omap_app; cbn [omap list_omap input_of];
      rewrite Hs; [|by eexists..]. cbn; by rewrite ?app_nil_r, ?app_assoc.
  - destruct (pl_recvOpen p); [|done]. injection Hstep as <- <- <-.
    cbn [taken]. rewrite omap_app, ?app_nil_r. cbn. by rewrite ?app_nil_r.
  - pose proof (process_snoc bases _ (FromServer env msg) _ _ _ _ IH) as Hs.
    cbn [process] in Hs. unfold mbind, CtxM_bind, mret, CtxM_ret in Hs.
    destruct (server_through env (reverse bases) msg (pl_ctx p)) as [c [out|e|w]];
      injection Hstep as <- <- <-; cbn [pipe_agrees taken]; rewrite omap_app; cbn [omap list_omap input_of];
      rewrite Hs; [|by eexists..]. cbn; by rewrite ?app_nil_r, ?app_assoc.
  - injection Hstep as <- <- <-. cbn [taken]. rewrite omap_app, ?app_nil_r. cbn. rewrite ?app_nil_r. eauto.
  - destruct (pendingToDownstream p) as [|msg rest] eqn:Hd; [done|]. injection Hstep as <- <- <-.
    cbn [taken]. rewrite omap_app. cbn. by rewrite ?app_nil_r, IH, <-?app_assoc.
  - destruct (pendingToClient p) as [|msg rest] eqn:Hd; [done|]. injection Hstep as <- <- <-.
    cbn [taken]. rewrite omap_app. cbn. by rewrite ?app_nil_r, IH, <-?app_assoc.
Qed.

(** ** Starts and ends are balanced *)

Lemma end_all_calls started c calls errs msgs :
  (end_all started (c, calls, errs, msgs)).1.1.2 = calls ++ (Ended <$> started.*1).
Proof.
  revert c calls errs msgs. induction started as [|[i b] rest IH]; intros c calls errs msgs; simpl.
  { by rewrite app_nil_r. }
  destruct (OnEnd b c) as [c' [m|e|w]]; rewrite IH, <-app_assoc; done.
Qed.

(** The bases below [k] started in order and, for a connection that is over,
    ended in reverse. *)
Definition started_log (k : nat) : list LifeCall := Started <$> seq 0 k.
Definition balanced_log (k : nat) : list LifeCall := started_log k ++ (Ended <$> reverse (seq 0 k)).

Lemma started_log_S k : started_log k ++ [Started k] = started_log (S k).
Proof. unfold started_log. by rewrite seq_S, fmap_app. Qed.

Lemma reverse_seq_S k : k :: reverse (seq 0 k) = reverse (seq 0 (S k)).
Proof. by rewrite seq_S, reverse_app. Qed.

Lemma start_all_log env cut bases : forall i started c calls sent,
  started.*1 = reverse (seq 0 i) -> calls = started_log i ->
  match start_all env cut i bases started c calls sent with
  | (inl started', _, calls', _) =>
      started'.*1 = reverse (seq 0 (i + length bases)) /\ calls' = started_log (i + length bases)
  | (inr _, _, calls', _) => exists k, (k <= i + length bases)%nat /\ calls' = balanced_log k
  end.
Proof.
  induction bases as [|b rest IH]; intros i started c calls sent Hst Hcalls; cbn [start_all].
  { rewrite Nat.add_0_r. done. }
  assert (Hfail : forall c calls' k (errs msgs : list string) m0 s0,
    s0.*1 = reverse (seq 0 k) -> calls' = started_log k ->
    (end_all s0 (c, calls', errs, m0)).1.1.2 = balanced_log k).
  { intros. rewrite end_all_calls. subst. unfold balanced_log. by f_equal; f_equal. }
  destruct (OnStart b env c) as [c' [[m|]|e|w]].
  - destruct (cut i).
    + pose proof (Hfail c' (calls ++ [Started i]) (S i) [] [] [] ((i, b) :: started)) as H.
      destruct (end_all _ _) as [[[c2 calls2] errs] msgs]. cbn in H. exists (S i).
      split; [simpl; lia|]. apply H; [by rewrite Hst, reverse_seq_S|by rewrite Hcalls, started_log_S].
    + specialize (IH (S i) ((i, b) :: started) c' (calls ++ [Started i]) (sent ++ [m])).
      cbn [length]. rewrite Nat.add_succ_r. apply IH; cbn;
        [by rewrite Hst, reverse_seq_S|by rewrite Hcalls, started_log_S].
  - specialize (IH (S i) ((i, b) :: started) c' (calls ++ [Started i]) sent).
    cbn [length]. rewrite Nat.add_succ_r. apply IH; cbn;
      [by rewrite Hst, reverse_seq_S|by rewrite Hcalls, started_log_S].
  - pose proof (Hfail c' calls i [] [] [] started Hst Hcalls) as H.
    destruct (end_all _ _) as [[[c2 calls2] errs] msgs]. exists i. split; [lia|done].
  - pose proof (Hfail c' calls i [] [] [] started Hst Hcalls) as H.
    destruct (end_all _ _) as [[[c2 calls2] errs] msgs]. exists i. split; [lia|done].
Qed.

(** ** Composition *)

(** A base that never both forwards and answers a message. *)
Definition exclusive (b : SimpleMiddlewareBase) : Prop :=
  forall env msg c c' out resp,
    HandleClientMsg b env msg c = (c', Ok (out, resp)) -> out = None \/ resp = None.

(** Several responses, each through the bases. *)
Fixpoint server_all (env : Env) (bases : list SimpleMiddlewareBase) (msgs : list ServerMsg)
    : CtxM (list ServerMsg) :=
  match msgs with
  | [] => mret []
  | m :: msgs =>
      r ← server_through env bases m;
      rs ← server_all env bases msgs;
      mret (option_list r ++ rs)
  end.

(** One message through a pipeline of [inner] nested in one of [outer]. *)
Definition nested (env : Env) (outer inner : list SimpleMiddlewareBase) (msg : ClientMsg)
    : CtxM (option ClientMsg * list ServerMsg) :=
  '(out, resps) ← client_through env [] outer msg;
  match out with
  | None => mret (None, resps)
  | Some msg =>
      '(out, resps') ← client_through env [] inner msg;
      resps'' ← server_all env (reverse outer) resps';
      mret (out, resps ++ resps'')
  end.

Ltac ctx_unfold := unfold mbind, CtxM_bind, mret, CtxM_ret.

Lemma server_through_app env b1 b2 msg c :
  server_through env (b1 ++ b2) msg c =
  (r ← server_through env b1 msg;
   match r with Some m => server_through env b2 m | None => mret None end) c.
Proof.
  revert msg c. induction b1 as [|b b1 IH]; intros msg c; [done|]. cbn [server_through app].
  ctx_unfold. destruct (HandleServerMsg b env msg c) as [c' [[m|]|e|w]]; done || apply IH.
Qed.

Lemma client_through_app env outer b1 b2 msg c :
  client_through env outer (b1 ++ b2) msg c =
  ('(out, resps) ← client_through env outer b1 msg;
   match out with
   | None => mret (None, resps)
   | Some msg =>
       '(out, resps') ← client_through env (reverse b1 ++ outer) b2 msg;
       mret (out, resps ++ resps')
   end) c.
Proof.
  revert outer msg c. induction b1 as [|b b1 IH]; intros outer msg c.
  - cbn [app client_through]. rewrite reverse_nil. cbn [app]. ctx_unfold.
    by destruct (client_through env outer b2 msg c) as [c' [[out resps]|e|w]].
  - cbn [app client_through]. rewrite reverse_cons, <-app_assoc. cbn [app]. ctx_unfold.
    destruct (HandleClientMsg b env msg c) as [c1 [[out resp]|e|w]]; try done.
    destruct resp as [r|]; [destruct (server_through env outer r c1) as [c2 [rr|e|w]]; try done|];
      (destruct out as [m|]; [|done]); rewrite IH; ctx_unfold;
      (match goal with |- context [client_through env (b :: outer) b1 m ?c2] =>
         destruct (client_through env (b :: outer) b1 m c2) as [c3 [[[m'|] resps']|e|w]] end); try done;
      destruct (client_through env (reverse b1 ++ b :: outer) b2 m' c3) as [c4 [[o r']|e|w]]; try done;
      by rewrite app_assoc.
Qed.

Lemma client_through_outer env inner outer bases msg c :
  Forall exclusive bases ->
  client_through env (inner ++ outer) bases msg c =
  ('(out, resps) ← client_through env inner bases msg;
   resps' ← server_all env outer resps;
   mret (out, resps')) c.
Proof.
  intros Hex. revert inner msg c. induction Hex as [|b bases Hb Hbases IH]; intros inner msg c; [done|].
  cbn [client_through]. ctx_unfold. specialize (Hb env msg c).
  destruct (HandleClientMsg b env msg c) as [c1 [[out resp]|e|w]]; try done.
  destruct (Hb _ _ _ eq_refl) as [-> | ->].
  - destruct resp as [r|]; [|done]. rewrite server_through_app. ctx_unfold.
    destruct (server_through env inner r c1) as [c2 [[m|]|e|w]]; try done.
    change (option_list (Some m)) with [m]. cbn [server_all]. ctx_unfold.
    destruct (server_through env outer m c2) as [c3 [[m'|]|e|w]]; done.
  - cbv beta iota. destruct out as [m|]; [|done].
    change (b :: inner ++ outer) with ((b :: inner) ++ outer). rewrite (IH (b :: inner) m c1). ctx_unfold.
    destruct (client_through env (b :: inner) bases m c1) as [c2 [[o r]|e|w]]; try done.
    cbn [app]. destruct (server_all env outer r c2) as [c3 [rs|e|w]]; done.
Qed.

Lemma client_through_nested env b1 b2 msg c :
  Forall exclusive b2 -> client_through env [] (b1 ++ b2) msg c = nested env b1 b2 msg c.
Proof.
  intros Hex. rewrite client_through_app. unfold nested. ctx_unfold.
  destruct (client_through env [] b1 msg c) as [c1 [[[m|] resps]|e|w]]; try done.
  rewrite app_nil_r. rewrite <-(app_nil_l (reverse b1)) at 1.
  rewrite client_through_outer by done. ctx_unfold.
  destruct (client_through env [] b2 m c1) as [c2 [[o r]|e|w]]; try done.
  destruct (server_all env (reverse b1) r c2) as [c3 [rs|e|w]]; done.
Qed.

(** ** Properties *)

Module MiddlewareExamples.
(** A base that lets everything pass, and one that refuses everything. *)
Definition open : SimpleMiddlewareBase :=
  mkBase no_start no_end (fun _ m => pass m) pass_server.
Definition shut : SimpleMiddlewareBase :=
  mkBase no_start no_end (fun _ m => reject (NewServerNoticeMsg (c_SubscriptionID m))) pass_server.
Definition env : Env := mkEnv (time_Unix 0) None.
Definition msg : ClientMsg := client_close "s".

Lemma shut_exclusive : exclusive shut.
Proof. intros e m c c' out resp. cbn. intros [= _ <- _]. by left. Qed.
End MiddlewareExamples.

(** C10: the pipeline loop, whatever its select chooses, never loses, repeats or
    reorders a message: what it has sent downstream and to the client, followed
    by what is still queued, is what processing the messages it took in one by
    one gives; when it stops because the client is gone, everything was sent; and
    it fails exactly as that processing fails. *)
Theorem pipeline_refines_sequential (bases : list SimpleMiddlewareBase) (c0 : Ctx)
    (es : list PipeEvent) (q : Pipe + Exit) (down : list ClientMsg) (up : list ServerMsg) :
  pipe_run bases (new_pipe c0) es q down up ->
  pipe_agrees bases c0 (omap input_of (taken es q)) q down up.
Proof. apply pipe_run_agrees. Qed.

Lemma pipeline_refines_sequential_witness :
  pipe_agrees [MiddlewareExamples.open] emptyCtx
    [FromClient MiddlewareExamples.env MiddlewareExamples.msg] (inr Drained) [MiddlewareExamples.msg] [].
Proof.
  apply (pipeline_refines_sequential [MiddlewareExamples.open] emptyCtx
    [Recv MiddlewareExamples.env MiddlewareExamples.msg; RecvClosed; ToDownstream; CtxDone]
    (inr Drained) [MiddlewareExamples.msg] []).
  eapply (run_turn _ _ [Recv MiddlewareExamples.env MiddlewareExamples.msg; RecvClosed; ToDownstream]
            _ _ _ [MiddlewareExamples.msg] [] [] []).
  { eapply (run_turn _ _ [Recv MiddlewareExamples.env MiddlewareExamples.msg; RecvClosed] _ _ _
              [] [] [MiddlewareExamples.msg] []).
    { eapply (run_turn _ _ [Recv MiddlewareExamples.env MiddlewareExamples.msg] _ _ _ [] [] [] []).
      { eapply (run_turn _ _ [] _ _ _ [] [] [] []); [apply run_start|reflexivity]. }
      reflexivity. }
    reflexivity. }
  reflexivity.
Defined.

(** Every base whose OnStart succeeded is ended exactly once, in the reverse
    of the order of the starts, and no other base is: whether a later OnStart
    fails, the client leaves while a start message is being sent, or the
    connection runs to its end. *)
Theorem lifecycle_balanced (env : Env) (cut : nat -> bool) (bases : list SimpleMiddlewareBase)
    (run : Ctx -> Ctx) (c : Ctx) :
  exists k, (k <= length bases)%nat /\
    serve env cut bases run c = (Started <$> seq 0 k) ++ (Ended <$> reverse (seq 0 k)).
Proof.
  unfold serve. pose proof (start_all_log env cut bases 0 [] c [] [] eq_refl eq_refl) as H.
  destruct (start_all env cut 0 bases [] c [] []) as [[[[started|errs] c'] calls] sent].
  - destruct H as [Hst ->]. exists (length bases). split; [done|].
    pose proof (end_all_calls started (run c') (started_log (0 + length bases)) [] []) as He.
    destruct (end_all _ _) as [[[c2 calls2] errs] msgs]. cbn in He. rewrite He, Hst. done.
  - destruct H as (k & Hk & ->). by exists k.
Qed.

(** One pipeline of several bases behaves as the nested pipelines of its
    parts: NewSimpleMiddleware(b1..., b2...)(h) handles every client and every
    server message as NewSimpleMiddleware(b1...)(NewSimpleMiddleware(b2...)(h))
    does, with the same effect on the context, provided no base of the inner part
    both forwards and answers a message. *)
Theorem pipeline_composes (env : Env) (b1 b2 : list SimpleMiddlewareBase) (msg : ClientMsg)
    (smsg : ServerMsg) (c : Ctx) :
  Forall exclusive b2 ->
  client_through env [] (b1 ++ b2) msg c = nested env b1 b2 msg c /\
  server_through env (reverse (b1 ++ b2)) smsg c =
  (r ← server_through env (reverse b2) smsg;
   match r with Some m => server_through env (reverse b1) m | None => mret None end) c.
Proof.
  intros Hex. split; [by apply client_through_nested|].
  rewrite reverse_app. apply server_through_app.
Qed.

Lemma pipeline_composes_witness :
  let b1 := [MiddlewareExamples.open] in
  let b2 := [MiddlewareExamples.shut] in
  client_through MiddlewareExamples.env [] (b1 ++ b2) MiddlewareExamples.msg emptyCtx =
    nested MiddlewareExamples.env b1 b2 MiddlewareExamples.msg emptyCtx /\
  server_through MiddlewareExamples.env (reverse (b1 ++ b2)) (NewServerEOSEMsg "s") emptyCtx =
  (r ← server_through MiddlewareExamples.env (reverse b2) (NewServerEOSEMsg "s");
   match r with
   | Some m => server_through MiddlewareExamples.env (reverse b1) m
   | None => mret None
   end) emptyCtx.
Proof.
  apply (pipeline_composes MiddlewareExamples.env [MiddlewareExamples.open] [MiddlewareExamples.shut]).
  constructor; [apply MiddlewareExamples.shut_exclusive|constructor].
Defined.
