(* ===== verification/Bases.v ===== *)
(** * The stateless middlewares (middleware_*.go)

    The bases that judge a message by itself: limits on events (creation time,
    kind, content, tags, author, proof of work, expiration), on subscription ids
    and on query limits.  Each constructor returns the base, or panics as the
    code does on a bad argument.  The clock a base keeps in its [now] field is
    the [env_now] of the call. *)

From S2P Require Import Prelude GoTime Text Event Filter Message Middleware.

(** ** Refusing events *)

(** An EVENT carrying an event is put to [judge], which names the reason it logs
    and the message of the OK when it refuses; all else passes. *)
Definition judge_event (middleware : string) (judge : Env -> Event -> option (string * string))
    (env : Env) (msg : ClientMsg) : CtxM (option ClientMsg * option ServerMsg) :=
  if negb (String.eqb (c_Type msg) MsgTypeEvent) then pass msg
  else
  match c_Event msg with
  | None => pass msg
  | Some event =>
      match judge env event with
      | Some (reason, message) =>
          _ ← logRejection middleware reason;
          reject (NewServerOKMsg (ev_ID event) false message)
      | None => pass msg
      end
  end.

Definition event_base (middleware : string) (judge : Env -> Event -> option (string * string))
    : SimpleMiddlewareBase :=
  mkBase no_start no_end (judge_event middleware judge) pass_server.

(** ** middleware_created_at_limits.go *)

Definition createdAt_judge (lowerLimit upperLimit : Z) (env : Env) (event : Event)
    : option (string * string) :=
  let now := env_now env in
  let createdAt := ev_CreatedAt event in
  let oldest := Add now (wrap_int64 (- lowerLimit * Second)) in
  if Before createdAt oldest then Some ("too_old", "invalid: created_at too old")%string
  else
    let newest := Add now (wrap_int64 (upperLimit * Second)) in
    if After createdAt newest
    then Some ("too_far_future", "invalid: created_at too far in the future")%string
    else None.

Definition NewCreatedAtLimitsMiddlewareBase (lowerLimit upperLimit : Z) : Res SimpleMiddlewareBase :=
  if lowerLimit <? 0 then Panic "lowerLimit must be non-negative"
  else if upperLimit <? 0 then Panic "upperLimit must be non-negative"
  else Ok (event_base "created_at_limits" (createdAt_judge lowerLimit upperLimit)).

(** ** middleware_kind_allowlist.go and middleware_kind_denylist.go *)

Definition kindAllowlist_judge (allowlist : gset Z) (env : Env) (event : Event)
    : option (string * string) :=
  if bool_decide (ev_Kind event ∈ allowlist) then None
  else Some ("kind_blocked", "blocked: kind not allowed")%string.

Definition NewKindAllowlistMiddlewareBase (kinds : list Z) : Res SimpleMiddlewareBase :=
  Ok (event_base "kind_allowlist" (kindAllowlist_judge (list_to_set kinds))).

Definition kindDenylist_judge (denylist : gset Z) (env : Env) (event : Event)
    : option (string * string) :=
  if bool_decide (ev_Kind event ∈ denylist)
  then Some ("kind_blocked", "blocked: kind not allowed")%string else None.

Definition NewKindDenylistMiddlewareBase (kinds : list Z) : Res SimpleMiddlewareBase :=
  Ok (event_base "kind_denylist" (kindDenylist_judge (list_to_set kinds))).

(** ** middleware_max_content_length.go and middleware_max_event_tags.go *)

Definition maxContentLength_judge (maxLen : Z) (env : Env) (event : Event)
    : option (string * string) :=
  if maxLen <? RuneCountInString (ev_Content event)
  then Some ("content_too_long", "invalid: content too long")%string else None.

Definition NewMaxContentLengthMiddlewareBase (maxLen : Z) : Res SimpleMiddlewareBase :=
  if maxLen <? 1 then Panic "maxLen must be positive"
  else Ok (event_base "max_content_length" (maxContentLength_judge maxLen)).

Definition maxEventTags_judge (maxTags : Z) (env : Env) (event : Event) : option (string * string) :=
  if maxTags <? Z.of_nat (length (tags event))
  then Some ("too_many_tags", "invalid: too many tags")%string else None.

Definition NewMaxEventTagsMiddlewareBase (maxTags : Z) : Res SimpleMiddlewareBase :=
  if maxTags <? 1 then Panic "maxTags must be positive"
  else Ok (event_base "max_event_tags" (maxEventTags_judge maxTags)).

(** ** middleware_restricted_writes.go *)

Inductive RestrictedWritesMode : Type :=
| RestrictedWritesModeAllowlist
| RestrictedWritesModeBlocklist.

Definition restrictedWrites_judge (mode : RestrictedWritesMode) (pubkeys : gset string) (env : Env)
    (event : Event) : option (string * string) :=
  let inList := bool_decide (ev_Pubkey event ∈ pubkeys) in
  match mode with
  | RestrictedWritesModeAllowlist =>
      if negb inList then Some ("not_in_allowlist", "restricted: pubkey not allowed")%string else None
  | RestrictedWritesModeBlocklist =>
      if inList then Some ("in_blocklist", "restricted: pubkey blocked")%string else None
  end.

Definition NewRestrictedWritesMiddlewareBase (mode : RestrictedWritesMode) (pubkeys : list string)
    : Res SimpleMiddlewareBase :=
  Ok (event_base "restricted_writes" (restrictedWrites_judge mode (list_to_set pubkeys))).

(** ** middleware_min_pow_difficulty.go *)

(** The first nonce tag with at least three elements decides; -1 stands for none
    or for a target that is not a number. *)
Fixpoint getCommittedPowTarget (ts : list Tag) : Z :=
  match ts with
  | [] => -1
  | tag :: ts =>
      if (3 <=? length tag)%nat && String.eqb (nth 0 tag "") "nonce" then
        match ParseInt (nth 2 tag "") with Some target => target | None => -1 end
      else getCommittedPowTarget ts
  end.

Definition minPow_judge (minDifficulty : Z) (checkCommitment : bool) (env : Env) (event : Event)
    : option (string * string) :=
  let actualDifficulty := countLeadingZeroBits (ev_ID event) in
  if actualDifficulty <? minDifficulty then
    Some ("insufficient_difficulty"%string,
      "pow: difficulty " +:+ fmt_d actualDifficulty +:+ " is less than " +:+ fmt_d minDifficulty
        +:+ " required")
  else if checkCommitment then
    let committedTarget := getCommittedPowTarget (tags event) in
    if (0 <=? committedTarget) && (committedTarget <? minDifficulty) then
      Some ("insufficient_committed_target"%string,
        "pow: committed target " +:+ fmt_d committedTarget +:+ " is less than " +:+ fmt_d minDifficulty
          +:+ " required")
    else None
  else None.

Definition NewMinPowDifficultyMiddlewareBase (minDifficulty : Z) (checkCommitment : bool)
    : Res SimpleMiddlewareBase :=
  Ok (event_base "min_pow_difficulty" (minPow_judge minDifficulty checkCommitment)).

(** ** middleware_expiration.go *)

(** The first expiration tag with a value decides. *)
Fixpoint isExpired_tags (env : Env) (ts : list Tag) : bool :=
  match ts with
  | [] => false
  | tag :: ts =>
      if (2 <=? length tag)%nat && String.eqb (nth 0 tag "") "expiration" then
        match ParseInt (nth 1 tag "") with
        | Some expiration => expiration <? Unix (env_now env)
        | None => false
        end
      else isExpired_tags env ts
  end.

Definition isExpired (env : Env) (event : Event) : bool := isExpired_tags env (tags event).

Definition expiration_judge (env : Env) (event : Event) : option (string * string) :=
  if isExpired env event then Some ("expired", "invalid: event has expired")%string else None.

Definition expiration_server (env : Env) (msg : ServerMsg) : CtxM (option ServerMsg) :=
  if String.eqb (s_Type msg) MsgTypeEvent then
    match s_Event msg with
    | Some event =>
        if isExpired env event then _ ← logRejection "expiration" "expired_on_send"; mret None
        else mret (Some msg)
    | None => mret (Some msg)
    end
  else mret (Some msg).

Definition NewExpirationMiddlewareBase : Res SimpleMiddlewareBase :=
  Ok (mkBase no_start no_end (judge_event "expiration" expiration_judge) expiration_server).

(** ** middleware_max_subid_length.go *)

Definition maxSubidLength_client (maxLen : Z) (env : Env) (msg : ClientMsg)
    : CtxM (option ClientMsg * option ServerMsg) :=
  if (String.eqb (c_Type msg) MsgTypeReq || String.eqb (c_Type msg) MsgTypeClose)
     && (maxLen <? Z.of_nat (String.length (c_SubscriptionID msg)))
  then
    _ ← logRejection "max_subid_length" "subid_too_long";
    reject (NewServerClosedMsg (c_SubscriptionID msg) "error: subscription ID too long")
  else pass msg.

Definition NewMaxSubidLengthMiddlewareBase (maxLen : Z) : Res SimpleMiddlewareBase :=
  if maxLen <? 1 then Panic "maxLen must be positive"
  else Ok (mkBase no_start no_end (maxSubidLength_client maxLen) pass_server).

(** ** middleware_max_limit.go *)

(** The body of the loop: the filter object is the message's own, so writing its
    [Limit] changes the message that is passed on. *)
Definition clamp_limit (maxLimit defaultLimit : Z) (filter : ReqFilter) : ReqFilter :=
  match f_Limit filter with
  | None => set_Limit filter defaultLimit
  | Some l =>
      if l =? 0 then set_Limit filter defaultLimit
      else if maxLimit <? l then set_Limit filter maxLimit
      else filter
  end.

Definition maxLimit_client (maxLimit defaultLimit : Z) (env : Env) (msg : ClientMsg)
    : CtxM (option ClientMsg * option ServerMsg) :=
  if negb (String.eqb (c_Type msg) MsgTypeReq) then pass msg
  else pass (mkClientMsg (c_Type msg) (c_Event msg) (c_SubscriptionID msg)
               (map (clamp_limit maxLimit defaultLimit) (c_Filters msg))).

Definition NewMaxLimitMiddlewareBase (maxLimit defaultLimit : Z) : Res SimpleMiddlewareBase :=
  if maxLimit <? 1 then Panic "maxLimit must be positive"
  else if defaultLimit <? 1 then Panic "defaultLimit must be positive"
  else if maxLimit <? defaultLimit then Panic "defaultLimit must not exceed maxLimit"
  else Ok (mkBase no_start no_end (maxLimit_client maxLimit defaultLimit) pass_server).

(** ** What the judges decide *)

(** Instants within about 146 billion years of year 1. *)
Definition ordinary_time (t : Time) : Prop := time_wf t /\ - 2 ^ 62 <= t_sec t <= 2 ^ 62.

(** The largest number of seconds a duration holds. *)
Definition max_seconds : Z := 9223372036.

Lemma Add_seconds t s : ordinary_time t -> - max_seconds <= s <= max_seconds ->
  nanos (Add t (wrap_int64 (s * Second))) = nanos t + s * Second /\
  time_wf (Add t (wrap_int64 (s * Second))).
Proof.
  intros [Hwf Ht] Hs. unfold max_seconds in Hs.
  assert (Hd : int64 (s * Second)) by (unfold Second; int_lia).
  rewrite wrap_int64_id by done. apply Add_nanos; try done;
    rewrite Z.quot_mul by done; change (2 ^ 62) with 4611686018427387904 in Ht; int_lia.
Qed.

Lemma createdAt_judge_window lower upper env e :
  0 <= lower <= max_seconds -> 0 <= upper <= max_seconds ->
  ordinary_time (env_now env) -> time_wf (ev_CreatedAt e) ->
  createdAt_judge lower upper env e = None <->
  nanos (env_now env) - lower * Second <= nanos (ev_CreatedAt e) <= nanos (env_now env) + upper * Second.
Proof.
  intros Hl Hu Hnow He. unfold createdAt_judge.
  destruct (Add_seconds (env_now env) (- lower) Hnow) as [H1 H1']; [unfold max_seconds in *; lia|].
  destruct (Add_seconds (env_now env) upper Hnow) as [H2 H2']; [unfold max_seconds in *; lia|].
  rewrite Before_After, !After_nanos, H1, H2 by done.
  destruct (Z.ltb_spec (nanos (ev_CreatedAt e)) (nanos (env_now env) + - lower * Second));
    [split; [done|lia]|].
  destruct (Z.ltb_spec (nanos (env_now env) + upper * Second) (nanos (ev_CreatedAt e)));
    (split; [done || lia|lia || done]).
Qed.

(** The filters a clamped REQ carries. *)
Definition clamped (maxLimit defaultLimit : Z) (f f' : ReqFilter) : Prop :=
  f' = set_Limit f (match f_Limit f with
    | None | Some 0 => defaultLimit
    | Some l => Z.min l maxLimit end).

Lemma clamp_limit_clamped maxLimit defaultLimit f : clamped maxLimit defaultLimit f
  (clamp_limit maxLimit defaultLimit f).
Proof.
  unfold clamped, clamp_limit. destruct (f_Limit f) as [l|] eqn:Hl; [|done].
  destruct (Z.eqb_spec l 0) as [->|Hne]; [done|].
  assert (Hm : match l with 0 => defaultLimit | _ => Z.min l maxLimit end = Z.min l maxLimit) by by destruct l.
  rewrite Hm. destruct (Z.ltb_spec maxLimit l).
  - by rewrite Z.min_r by lia.
  - rewrite Z.min_l by lia. unfold set_Limit. destruct f; simpl in *. by rewrite Hl.
Qed.

(** ** Properties *)

Module BasesExamples.
Definition now : Time := time_Unix 1000000.
Definition event : Event := mkEvent "00f" "alice" now 1 (Some []) "" "".
Definition env : Env := mkEnv now None.
End BasesExamples.

(** The creation-time limits admit exactly the events created, to the
    nanosecond, between lowerLimit seconds before and upperLimit seconds after
    the clock, for limits up to the 9223372036 seconds a duration holds. *)
Theorem createdAt_window (lower upper : Z) (env : Env) (e : Event) (msg : ClientMsg) (c : Ctx) b :
  0 <= lower <= max_seconds -> 0 <= upper <= max_seconds ->
  ordinary_time (env_now env) -> time_wf (ev_CreatedAt e) ->
  c_Type msg = MsgTypeEvent -> c_Event msg = Some e ->
  NewCreatedAtLimitsMiddlewareBase lower upper = Ok b ->
  HandleClientMsg b env msg c = (c, Ok (Some msg, None)) <->
  nanos (env_now env) - lower * Second <= nanos (ev_CreatedAt e) <= nanos (env_now env) + upper * Second.
Proof.
  intros Hl Hu Hnow He Ht Hev. unfold NewCreatedAtLimitsMiddlewareBase.
  rewrite !(proj2 (Z.ltb_ge _ _)) by lia. intros [= <-].
  rewrite <-createdAt_judge_window by done. cbn. unfold judge_event. rewrite Ht, Hev. cbn.
  destruct (createdAt_judge lower upper env e) as [[r m]|]; [|done].
  split; [|done]. ctx_unfold. cbn. by intros [=].
Qed.

Lemma createdAt_window_witness :
  exists b, NewCreatedAtLimitsMiddlewareBase 60 60 = Ok b /\
  (HandleClientMsg b BasesExamples.env (client_event BasesExamples.event) emptyCtx =
     (emptyCtx, Ok (Some (client_event BasesExamples.event), None)) <->
   nanos BasesExamples.now - 60 * Second <= nanos BasesExamples.now <= nanos BasesExamples.now + 60 * Second).
Proof.
  eexists. split; [reflexivity|].
  apply (createdAt_window 60 60 BasesExamples.env BasesExamples.event); try reflexivity;
    vm_compute; repeat split; discriminate || reflexivity.
Defined.

(** Beyond that bound the limits are not what they say: with a lower limit of
    10^10 seconds the duration wraps around and an event created right now is
    refused as too old. *)
Theorem createdAt_limit_overflows :
  exists b, NewCreatedAtLimitsMiddlewareBase 10000000000 60 = Ok b /\
  (HandleClientMsg b BasesExamples.env (client_event BasesExamples.event) emptyCtx).2 =
  Ok (None, Some (NewServerOKMsg (ev_ID BasesExamples.event) false "invalid: created_at too old")).
Proof. eexists. split; [reflexivity|]. vm_compute. reflexivity. Qed.

(** Behind the limit middleware every filter of a REQ has a limit: the default
    where there was none or zero, and otherwise the client's own cut at the
    maximum, with nothing else changed; so a REQ whose limits are not negative
    ends up with limits between 1 and the maximum, while a negative limit, which
    the storages take for none, passes unchanged. *)
Theorem maxLimit_clamps (maxLimit defaultLimit : Z) b (env : Env) (msg : ClientMsg) (c : Ctx) :
  NewMaxLimitMiddlewareBase maxLimit defaultLimit = Ok b -> c_Type msg = MsgTypeReq ->
  exists fs, HandleClientMsg b env msg c =
    (c, Ok (Some (mkClientMsg (c_Type msg) (c_Event msg) (c_SubscriptionID msg) fs), None)) /\
  Forall2 (clamped maxLimit defaultLimit) (c_Filters msg) fs /\
  (forall f' l, f' ∈ fs -> f_Limit f' = Some l ->
     l < 0 \/ 1 <= l <= maxLimit) /\
  Forall (fun f' => is_Some (f_Limit f')) fs.
Proof.
  unfold NewMaxLimitMiddlewareBase.
  destruct (Z.ltb_spec maxLimit 1); [done|]. destruct (Z.ltb_spec defaultLimit 1); [done|].
  destruct (Z.ltb_spec maxLimit defaultLimit); [done|]. intros [= <-] Ht.
  exists (map (clamp_limit maxLimit defaultLimit) (c_Filters msg)). split_and!.
  - cbn. unfold maxLimit_client. by rewrite Ht.
  - induction (c_Filters msg); simpl; constructor; auto using clamp_limit_clamped.
  - intros f' l (f & <- & _)%list_elem_of_In%in_map_iff. rewrite (clamp_limit_clamped maxLimit defaultLimit f).
    cbn. intros [= <-]. destruct (f_Limit f) as [[|p|p]|]; lia.
  - apply List.Forall_forall. intros f' (f & <- & _)%in_map_iff.
    rewrite (clamp_limit_clamped maxLimit defaultLimit f). cbn. eauto.
Qed.

Lemma maxLimit_clamps_witness :
  exists b, NewMaxLimitMiddlewareBase 100 10 = Ok b /\
  exists fs, HandleClientMsg b BasesExamples.env (client_req "s" [emptyFilter; set_Limit emptyFilter 500]) emptyCtx =
    (emptyCtx, Ok (Some (mkClientMsg MsgTypeReq None "s" fs), None)) /\
  Forall2 (clamped 100 10) [emptyFilter; set_Limit emptyFilter 500] fs /\
  (forall f' l, f' ∈ fs -> f_Limit f' = Some l -> l < 0 \/ 1 <= l <= 100) /\
  Forall (fun f' => is_Some (f_Limit f')) fs.
Proof.
  eexists. split; [reflexivity|].
  apply (maxLimit_clamps 100 10 _ BasesExamples.env
           (client_req "s" [emptyFilter; set_Limit emptyFilter 500]) emptyCtx); reflexivity.
Defined.
