(* ===== verification/Session.v ===== *)
(** * The middlewares with a per-connection state (middleware_*.go)

    Authentication (NIP-42) and protected events (NIP-70), the bound on open
    subscriptions and the four rate limits: bases whose [OnStart] puts an object
    into the context that the later calls read and write. *)

From S2P Require Import Prelude GoTime Text Event Filter Message RateLimit Middleware Bases.

(** ** middleware_auth.go *)

Definition Minute : Z := 60 * Second.

(** The value [NewAuthMiddlewareBase] keeps: 10 minutes unless set. *)
Definition auth_tolerance (opt : option Z) : Z :=
  match opt with
  | Some t => if t =? 0 then 10 * Minute else t
  | None => 10 * Minute
  end.

Definition auth_OnStart (env : Env) : CtxM (option ServerMsg) :=
  match env_challenge env with
  | None => fail "failed to generate challenge"
  | Some challenge =>
      _ ← put_ctx (fun c => set_auth c (mkAuthState challenge ∅ false));
      mret (Some (NewServerAuthMsg challenge))
  end.

(** The auth state of the context: the type assertion panics when there is
    none. *)
Definition get_auth : CtxM authState :=
  c ← get_ctx;
  match ctx_auth c with Some s => mret s | None => crash "no auth state" end.

Definition auth_OnEnd : CtxM (option ServerMsg) :=
  c ← get_ctx;
  match authMetricsFromContext c with
  | None => mret None
  | Some metrics =>
      state ← get_auth;
      _ ← (if as_authenticated state
           then put_ctx (fun c => set_authMetrics c
             (Some (mkAuthMetrics (am_AuthTotal metrics) (am_AuthenticatedConnectionsCurrent metrics - 1))))
           else mret ());
      mret None
  end.

(** [metrics.AuthTotal.WithLabelValues(result).Inc()] if there are metrics. *)
Definition count_auth (result : string) : CtxM () :=
  put_ctx (fun c => set_authMetrics c
    (match authMetricsFromContext c with
     | Some m => Some (mkAuthMetrics (am_AuthTotal m ++ [result]) (am_AuthenticatedConnectionsCurrent m))
     | None => None
     end)).

Fixpoint findTagValue (ts : list Tag) (name : string) : string :=
  match ts with
  | [] => ""
  | tag :: ts =>
      if (2 <=? length tag)%nat && String.eqb (nth 0 tag "") name then nth 1 tag ""
      else findTagValue ts name
  end.

(** The critical section at the end of [handleAuth]. *)
Definition record_auth (pubkey : string) (c : Ctx) : Ctx :=
  match ctx_auth c with
  | None => c
  | Some state =>
      let authed := {[pubkey]} ∪ as_authedPubkeys state in
      match authMetricsFromContext c with
      | Some m =>
          if negb (as_authenticated state) then
            set_authMetrics (set_auth c (mkAuthState (as_challenge state) authed true))
              (Some (mkAuthMetrics (am_AuthTotal m) (am_AuthenticatedConnectionsCurrent m + 1)))
          else set_auth c (mkAuthState (as_challenge state) authed (as_authenticated state))
      | None => set_auth c (mkAuthState (as_challenge state) authed (as_authenticated state))
      end
  end.

(** The four refusals share their shape. *)
Definition refuse_auth (event : Event) (result reason message : string)
    : CtxM (option ClientMsg * option ServerMsg) :=
  _ ← count_auth result;
  _ ← logRejection "auth" reason;
  reject (NewServerOKMsg (ev_ID event) false message).

Definition handleAuth (relayURL : string) (tolerance : Z) (env : Env) (state : authState)
    (msg : ClientMsg) : CtxM (option ClientMsg * option ServerMsg) :=
  match c_Event msg with
  | None =>
      _ ← logRejection "auth" "missing_auth_event";
      reject (NewServerOKMsg "" false "invalid: missing auth event")
  | Some event =>
      if negb (ev_Kind event =? 22242) then
        refuse_auth event "invalid_kind" "invalid_kind" "invalid: auth event must be kind 22242"
      else
      let now := env_now env in
      if Before (ev_CreatedAt event) (Add now (wrap_int64 (- tolerance)))
         || After (ev_CreatedAt event) (Add now tolerance) then
        refuse_auth event "expired" "expired" "invalid: auth event created_at out of range"
      else
      if negb (String.eqb (findTagValue (tags event) "challenge") (as_challenge state)) then
        refuse_auth event "challenge_mismatch" "challenge_mismatch" "invalid: challenge mismatch"
      else
      let relayTag := findTagValue (tags event) "relay" in
      if negb (String.eqb relayURL "") && negb (String.eqb relayTag relayURL)
         && String.eqb relayTag "" then
        refuse_auth event "invalid_relay" "missing_relay_tag" "invalid: missing relay tag"
      else
        _ ← count_auth "success";
        _ ← put_ctx (record_auth (ev_Pubkey event));
        reject (NewServerOKMsg (ev_ID event) true "")
  end.

Definition isAuthed (state : authState) : bool := negb (bool_decide (as_authedPubkeys state = ∅)).
Definition isAuthedPubkey (state : authState) (pubkey : string) : bool :=
  bool_decide (pubkey ∈ as_authedPubkeys state).

Definition auth_client (relayURL : string) (tolerance : Z) (env : Env) (msg : ClientMsg)
    : CtxM (option ClientMsg * option ServerMsg) :=
  state ← get_auth;
  if String.eqb (c_Type msg) MsgTypeAuth then handleAuth relayURL tolerance env state msg
  else if String.eqb (c_Type msg) MsgTypeEvent then
    match c_Event msg with
    | None => crash "nil event"
    | Some event =>
        if negb (isAuthedPubkey state (ev_Pubkey event)) then
          _ ← logRejection "auth" "event_unauthenticated";
          reject (NewServerOKMsg (ev_ID event) false
                    "auth-required: authentication required to publish events")
        else pass msg
    end
  else if String.eqb (c_Type msg) MsgTypeReq then
    if negb (isAuthed state) then
      _ ← logRejection "auth" "req_unauthenticated";
      reject (NewServerClosedMsg (c_SubscriptionID msg)
                "auth-required: authentication required to subscribe")
    else pass msg
  else pass msg.

Definition NewAuthMiddlewareBase (relayURL : string) (opt : option Z) : SimpleMiddlewareBase :=
  mkBase auth_OnStart auth_OnEnd (auth_client relayURL (auth_tolerance opt)) pass_server.

(** ** middleware_protected_events.go *)

Definition hasProtectedTag (event : Event) : bool :=
  existsb (fun tag => (length tag =? 1)%nat && String.eqb (nth 0 tag "") "-") (tags event).

(** [isAuthedAsPubkey]: no auth state means not authenticated. *)
Definition isAuthedAsPubkey (c : Ctx) (pubkey : string) : bool :=
  match ctx_auth c with
  | Some state => isAuthedPubkey state pubkey
  | None => false
  end.

Definition protected_client (env : Env) (msg : ClientMsg) : CtxM (option ClientMsg * option ServerMsg) :=
  if negb (String.eqb (c_Type msg) MsgTypeEvent) then pass msg
  else
  match c_Event msg with
  | None => pass msg
  | Some event =>
      if negb (hasProtectedTag event) then pass msg
      else
        c ← get_ctx;
        if negb (isAuthedAsPubkey c (ev_Pubkey event)) then
          _ ← logRejection "protected_events" "not_authed_as_author";
          reject (NewServerOKMsg (ev_ID event) false
                    "auth-required: this event may only be published by its author")
        else pass msg
  end.

Definition NewProtectedEventsMiddlewareBase : SimpleMiddlewareBase :=
  mkBase no_start no_end protected_client pass_server.

(** ** middleware_max_subscriptions.go *)

Definition maxSubs_OnStart (env : Env) : CtxM (option ServerMsg) :=
  _ ← put_ctx (fun c => set_maxSubs c ∅); mret None.

Definition get_maxSubs : CtxM (gset string) :=
  c ← get_ctx;
  match ctx_maxSubs c with Some s => mret s | None => crash "no max subs state" end.

Definition maxSubs_handleReq (maxSubs : Z) (subs : gset string) (msg : ClientMsg)
    : CtxM (option ClientMsg * option ServerMsg) :=
  let subID := c_SubscriptionID msg in
  if bool_decide (subID ∈ subs) then pass msg
  else if maxSubs <=? Z.of_nat (size subs) then
    _ ← logRejection "max_subscriptions" "too_many_subscriptions";
    reject (NewServerClosedMsg subID "error: too many subscriptions")
  else
    _ ← put_ctx (fun c => set_maxSubs c ({[subID]} ∪ subs));
    pass msg.

Definition maxSubs_handleClose (subs : gset string) (msg : ClientMsg)
    : CtxM (option ClientMsg * option ServerMsg) :=
  _ ← put_ctx (fun c => set_maxSubs c (subs ∖ {[c_SubscriptionID msg]}));
  pass msg.

Definition maxSubs_client (maxSubs : Z) (env : Env) (msg : ClientMsg)
    : CtxM (option ClientMsg * option ServerMsg) :=
  subs ← get_maxSubs;
  if String.eqb (c_Type msg) MsgTypeReq then maxSubs_handleReq maxSubs subs msg
  else if String.eqb (c_Type msg) MsgTypeClose then maxSubs_handleClose subs msg
  else pass msg.

Definition maxSubs_server (env : Env) (msg : ServerMsg) : CtxM (option ServerMsg) :=
  if String.eqb (s_Type msg) MsgTypeClosed then
    subs ← get_maxSubs;
    _ ← put_ctx (fun c => set_maxSubs c (subs ∖ {[s_SubscriptionID msg]}));
    mret (Some msg)
  else mret (Some msg).

Definition NewMaxSubscriptionsMiddlewareBase (maxSubs : Z) : Res SimpleMiddlewareBase :=
  if maxSubs <? 1 then Panic "maxSubs must be positive"
  else Ok (mkBase maxSubs_OnStart no_end (maxSubs_client maxSubs) maxSubs_server).

(** ** The rate limits: middleware_{event,req,count,auth}_rate_limit.go *)

Definition bucket_OnStart (key : BucketKey) (rate : float64) (burst : Z) (env : Env)
    : CtxM (option ServerMsg) :=
  _ ← put_ctx (fun c => set_bucket c key (newTokenBucket rate burst (env_now env))); mret None.

(** The bucket of the context, and [tb.allow(time.Now())]. *)
Definition bucket_allow (key : BucketKey) (env : Env) : CtxM bool :=
  c ← get_ctx;
  match ctx_bucket c key with
  | None => crash "no token bucket"
  | Some tb =>
      let '(tb, ok) := allow tb (env_now env) in
      _ ← put_ctx (fun c => set_bucket c key tb);
      mret ok
  end.

(** The four handlers differ in the message type they limit and in what they
    answer. *)
Definition rateLimit_client (key : BucketKey) (type middleware : string)
    (answer : ClientMsg -> ServerMsg) (env : Env) (msg : ClientMsg)
    : CtxM (option ClientMsg * option ServerMsg) :=
  if negb (String.eqb (c_Type msg) type) then pass msg
  else
    ok ← bucket_allow key env;
    if ok : bool then pass msg
    else
      _ ← logRejection middleware "rate_limited";
      reject (answer msg).

Definition msg_eventID (msg : ClientMsg) : string :=
  match c_Event msg with Some e => ev_ID e | None => "" end.

Definition eventRateLimit_client : Env -> ClientMsg -> CtxM (option ClientMsg * option ServerMsg) :=
  rateLimit_client EventBucket MsgTypeEvent "event_rate_limit"
    (fun msg => NewServerOKMsg (msg_eventID msg) false "rate-limited: too many events").
Definition reqRateLimit_client : Env -> ClientMsg -> CtxM (option ClientMsg * option ServerMsg) :=
  rateLimit_client ReqBucket MsgTypeReq "req_rate_limit"
    (fun msg => NewServerClosedMsg (c_SubscriptionID msg) "rate-limited: too many subscriptions").
Definition countRateLimit_client : Env -> ClientMsg -> CtxM (option ClientMsg * option ServerMsg) :=
  rateLimit_client CountBucket MsgTypeCount "count_rate_limit"
    (fun msg => NewServerClosedMsg (c_SubscriptionID msg) "rate-limited: too many counts").
Definition authRateLimit_client : Env -> ClientMsg -> CtxM (option ClientMsg * option ServerMsg) :=
  rateLimit_client AuthBucket MsgTypeAuth "auth_rate_limit"
    (fun msg => NewServerOKMsg (msg_eventID msg) false "rate-limited: too many auth attempts").

(** The checks of the constructors: [rate <= 0] is false on NaN. *)
Definition rate_limit_base (key : BucketKey) (rate : float64) (burst : Z)
    (client : Env -> ClientMsg -> CtxM (option ClientMsg * option ServerMsg)) : Res SimpleMiddlewareBase :=
  if fge (of_int 0) rate then Panic "rate must be positive"
  else if burst <? 1 then Panic "burst must be positive"
  else Ok (mkBase (bucket_OnStart key rate burst) no_end client pass_server).

Definition NewEventRateLimitMiddlewareBase (rate : float64) (burst : Z) : Res SimpleMiddlewareBase :=
  rate_limit_base EventBucket rate burst eventRateLimit_client.
Definition NewReqRateLimitMiddlewareBase (rate : float64) (burst : Z) : Res SimpleMiddlewareBase :=
  rate_limit_base ReqBucket rate burst reqRateLimit_client.
Definition NewCountRateLimitMiddlewareBase (rate : float64) (burst : Z) : Res SimpleMiddlewareBase :=
  rate_limit_base CountBucket rate burst countRateLimit_client.
Definition NewAuthRateLimitMiddlewareBase (rate : float64) (burst : Z) : Res SimpleMiddlewareBase :=
  rate_limit_base AuthBucket rate burst authRateLimit_client.

(** ** Sequences of messages through one base *)

Definition Outcome : Type := option ClientMsg * option ServerMsg.

Fixpoint feed (b : SimpleMiddlewareBase) (msgs : list (Env * ClientMsg)) : CtxM (list Outcome) :=
  match msgs with
  | [] => mret []
  | (env, msg) :: msgs =>
      out ← HandleClientMsg b env msg;
      outs ← feed b msgs;
      mret (out :: outs)
  end.

Lemma feed_app b m1 m2 c c' outs : feed b m1 c = (c', Ok outs) ->
  feed b (m1 ++ m2) c =
  match feed b m2 c' with
  | (c'', Ok outs') => (c'', Ok (outs ++ outs'))
  | (c'', Err e) => (c'', Err e)
  | (c'', Panic w) => (c'', Panic w)
  end.
Proof.
  revert c outs. induction m1 as [|[env msg] m1 IH]; intros c outs; cbn [feed app].
  - intros [= <- <-]. by destruct (feed b m2 c) as [c2 [o|e|w]].
  - ctx_unfold. destruct (HandleClientMsg b env msg c) as [c1 [o|e|w]]; try done.
    destruct (feed b m1 c1) as [c2 [os|e|w]] eqn:H1; try done. intros [= <- <-].
    rewrite (IH _ _ H1). by destruct (feed b m2 c2) as [c3 [o'|e|w]].
Qed.

(** ** Who is authenticated *)

(** The AUTH events that are accepted. *)
Definition valid_auth (relayURL : string) (tolerance : Z) (challenge : string) (env : Env)
    (event : Event) : bool :=
  (ev_Kind event =? 22242) &&
  negb (Before (ev_CreatedAt event) (Add (env_now env) (wrap_int64 (- tolerance)))) &&
  negb (After (ev_CreatedAt event) (Add (env_now env) tolerance)) &&
  String.eqb (findTagValue (tags event) "challenge") challenge &&
  (String.eqb relayURL "" || negb (String.eqb (findTagValue (tags event) "relay") "")).

(** The authors of the accepted AUTH messages. *)
Definition auth_pubkeys (relayURL : string) (tolerance : Z) (challenge : string)
    (msgs : list (Env * ClientMsg)) : gset string :=
  list_to_set (omap (fun '(env, msg) =>
    if String.eqb (c_Type msg) MsgTypeAuth then
      match c_Event msg with
      | Some e => if valid_auth relayURL tolerance challenge env e then Some (ev_Pubkey e) else None
      | None => None
      end
    else None) msgs).

(** A context in which [challenge] was sent and exactly [authed] are in. *)
Definition auth_holds (challenge : string) (authed : gset string) (c : Ctx) : Prop :=
  exists a, ctx_auth c = Some (mkAuthState challenge authed a).

Lemma auth_holds_rejection challenge authed c a b :
  auth_holds challenge authed c -> auth_holds challenge authed (add_rejection c a b).
Proof. done. Qed.

Lemma record_auth_holds challenge authed c pk :
  auth_holds challenge authed c -> auth_holds challenge ({[pk]} ∪ authed) (record_auth pk c).
Proof.
  intros [a Ha]. unfold record_auth, auth_holds. rewrite Ha. repeat case_match; cbn; eauto.
Qed.

Lemma handleAuth_outcome url tol env challenge authed a c msg e :
  c_Event msg = Some e -> ctx_auth c = Some (mkAuthState challenge authed a) ->
  exists c' m,
    handleAuth url tol env (mkAuthState challenge authed a) msg c =
      (c', Ok (None, Some (NewServerOKMsg (ev_ID e) (valid_auth url tol challenge env e) m))) /\
    auth_holds challenge (if valid_auth url tol challenge env e then {[ev_Pubkey e]} ∪ authed else authed) c'.
Proof.
  intros He Hc. unfold handleAuth, valid_auth. rewrite He. cbn [as_challenge].
  assert (Hrefuse : forall r1 r2 m, exists c' m', refuse_auth e r1 r2 m c =
      (c', Ok (None, Some (NewServerOKMsg (ev_ID e) false m'))) /\ auth_holds challenge authed c').
  { intros r1 r2 m. eexists _, m. split; [reflexivity|]. by exists a. }
  destruct (ev_Kind e =? 22242); cbn [negb andb]; [|apply Hrefuse].
  destruct (Before _ _); cbn [negb andb orb]; [apply Hrefuse|].
  destruct (After _ _); cbn [negb andb orb]; [apply Hrefuse|].
  destruct (String.eqb (findTagValue (tags e) "challenge") challenge); cbn [negb andb]; [|apply Hrefuse].
  set (relay := findTagValue (tags e) "relay").
  assert (Hsame : negb (String.eqb url "") && negb (String.eqb relay url) && String.eqb relay "" =
    negb (String.eqb url "" || negb (String.eqb relay ""))).
  { destruct (String.eqb_spec url ""), (String.eqb_spec relay ""), (String.eqb_spec relay url);
      try done; congruence. }
  rewrite Hsame. destruct (String.eqb url "" || negb (String.eqb relay "")); cbn [negb]; [|apply Hrefuse].
  eexists _, "". split; [reflexivity|]. apply record_auth_holds. by exists a.
Qed.

Lemma auth_client_auth url tol env e state c : ctx_auth c = Some state ->
  auth_client url tol env (client_auth e) c = handleAuth url tol env state (client_auth e) c.
Proof. intros Hc. unfold auth_client, get_auth. ctx_unfold. cbn [get_ctx]. by rewrite Hc. Qed.

Definition has_event (msg : ClientMsg) : Prop :=
  c_Type msg = MsgTypeEvent \/ c_Type msg = MsgTypeAuth -> is_Some (c_Event msg).

Lemma auth_client_outcome url tol challenge authed env msg c :
  has_event msg -> auth_holds challenge authed c ->
  exists c' out, auth_client url tol env msg c = (c', Ok out) /\
  auth_holds challenge (auth_pubkeys url tol challenge [(env, msg)] ∪ authed) c' /\
  (c_Type msg = MsgTypeEvent -> forall e, c_Event msg = Some e ->
     out.1 = (if bool_decide (ev_Pubkey e ∈ authed) then Some msg else None)) /\
  (c_Type msg = MsgTypeReq -> out.1 = (if bool_decide (authed = ∅) then None else Some msg)).
Proof.
  intros Hwf [a Ha]. unfold auth_client, get_auth. ctx_unfold. cbn. rewrite Ha.
  unfold auth_pubkeys. cbn [omap list_omap].
  destruct (String.eqb_spec (c_Type msg) MsgTypeAuth) as [Ht|Ht].
  - destruct (Hwf (or_intror Ht)) as [e He].
    destruct (handleAuth_outcome url tol env challenge authed a c msg e He Ha) as (c' & m & -> & Hh).
    eexists _, _. split; [reflexivity|]. rewrite He, Ht.
    split; [|by split]. destruct (valid_auth url tol challenge env e); cbn;
      [by rewrite (right_id_L ∅ (∪))|by rewrite (left_id_L ∅ (∪))].
  - cbn [list_to_set]. rewrite (left_id_L ∅ (∪)).
    destruct (String.eqb_spec (c_Type msg) MsgTypeEvent) as [Hte|Hte].
    + destruct (Hwf (or_introl Hte)) as [e He]. rewrite He. unfold isAuthedPubkey. cbn [as_authedPubkeys].
      case_bool_decide as Hin; cbn [negb].
      * eexists _, _. split; [reflexivity|]. split; [by exists a|]. rewrite Hte. split; [|done].
        intros _ e' [= <-]. by rewrite bool_decide_eq_true_2.
      * eexists _, _. split; [reflexivity|]. split; [by exists a|]. rewrite Hte. split; [|done].
        intros _ e' [= <-]. by rewrite bool_decide_eq_false_2.
    + destruct (String.eqb_spec (c_Type msg) MsgTypeReq) as [Htr|Htr].
      * unfold isAuthed. cbn [as_authedPubkeys]. case_bool_decide; cbn [negb];
          (eexists _, _; split; [reflexivity|]; split; [by exists a|]; by split).
      * eexists _, _. split; [reflexivity|]. split; [by exists a|]. by split.
Qed.

Lemma auth_feed url opt challenge msgs : forall authed c,
  Forall (fun '(_, msg) => has_event msg) msgs -> auth_holds challenge authed c ->
  exists c' outs, feed (NewAuthMiddlewareBase url opt) msgs c = (c', Ok outs) /\
  auth_holds challenge (auth_pubkeys url (auth_tolerance opt) challenge msgs ∪ authed) c'.
Proof.
  induction msgs as [|[env msg] msgs IH]; intros authed c Hwf Hc.
  { exists c, []. split; [done|]. unfold auth_pubkeys. cbn. by rewrite (left_id_L ∅ (∪)). }
  apply Forall_cons in Hwf as [Hm Hwf]. cbn [feed]. ctx_unfold.
  destruct (auth_client_outcome url (auth_tolerance opt) challenge authed env msg c Hm Hc)
    as (c1 & out & Hrun & Hh & _). cbn [HandleClientMsg NewAuthMiddlewareBase]. rewrite Hrun.
  destruct (IH _ c1 Hwf Hh) as (c2 & outs & -> & Hh2). eexists _, _. split; [reflexivity|].
  assert (auth_pubkeys url (auth_tolerance opt) challenge ((env, msg) :: msgs) ∪ authed =
    auth_pubkeys url (auth_tolerance opt) challenge msgs ∪
      (auth_pubkeys url (auth_tolerance opt) challenge [(env, msg)] ∪ authed)) as ->; [|done].
  unfold auth_pubkeys. cbn [omap list_omap]. case_match; cbn [list_to_set]; set_solver.
Qed.

(** ** Rate limits *)

Definition limited (answer : ClientMsg -> ServerMsg) (m : Env * ClientMsg) (ok : bool) : Outcome :=
  if ok then (Some m.2, None) else (None, Some (answer m.2)).

(** Messages of the limited type at one instant are let through as the bucket
    allows. *)
Lemma rateLimit_feed key type mw answer rate burst b now msgs :
  rate_limit_base key rate burst (rateLimit_client key type mw answer) = Ok b ->
  Forall (fun m => env_now m.1 = now /\ c_Type m.2 = type) msgs -> forall c tb,
  ctx_bucket c key = Some tb ->
  exists c', feed b msgs c =
    (c', Ok (zip_with (limited answer) msgs (allow_n (length msgs) tb now).2)).
Proof.
  intros Hb. unfold rate_limit_base in Hb. repeat case_match; try done. injection Hb as <-.
  induction 1 as [|[env msg] msgs [Hnow Ht] Hmsgs IH]; intros c tb Hc; [by exists c|].
  cbn [feed length allow_n fst snd] in *. ctx_unfold. cbn [HandleClientMsg]. unfold rateLimit_client at 1.
  rewrite Ht, String.eqb_refl. cbn [negb]. unfold bucket_allow. ctx_unfold. cbn. rewrite Hc, Hnow.
  destruct (allow tb now) as [tb' ok].
  destruct (IH (if ok then set_bucket c key tb' else add_rejection (set_bucket c key tb') mw "rate_limited") tb')
    as (c' & Hf).
  { destruct ok; cbn; by rewrite decide_True. }
  exists c'. destruct (allow_n (length msgs) tb' now) as [tb'' oks]. cbn [snd] in *.
  destruct ok; cbn; rewrite Hf; done.
Qed.

(** ** Subscriptions *)

(** What the client can see of one step: a REQ that was forwarded, a CLOSE, and a
    CLOSED from downstream. *)
Inductive Seen : Type :=
| SeenReq (sub : string)
| SeenClose (sub : string)
| SeenClosed (sub : string)
| SeenOther.

Definition seen_of (i : Input) (out : option ClientMsg) : Seen :=
  match i with
  | FromClient _ msg =>
      if String.eqb (c_Type msg) MsgTypeReq then
        match out with Some _ => SeenReq (c_SubscriptionID msg) | None => SeenOther end
      else if String.eqb (c_Type msg) MsgTypeClose then SeenClose (c_SubscriptionID msg)
      else SeenOther
  | FromServer _ msg =>
      if String.eqb (s_Type msg) MsgTypeClosed then SeenClosed (s_SubscriptionID msg) else SeenOther
  end.

(** Messages from both sides through one base, with what is seen of each. *)
Fixpoint observe (b : SimpleMiddlewareBase) (ins : list Input) : CtxM (list Seen) :=
  match ins with
  | [] => mret []
  | FromClient env msg :: ins =>
      '(out, _) ← HandleClientMsg b env msg;
      rest ← observe b ins;
      mret (seen_of (FromClient env msg) out :: rest)
  | FromServer env msg :: ins =>
      _ ← HandleServerMsg b env msg;
      rest ← observe b ins;
      mret (seen_of (FromServer env msg) None :: rest)
  end.

(** The subscriptions open after what was seen. *)
Definition open_step (subs : gset string) (x : Seen) : gset string :=
  match x with
  | SeenReq sub => {[sub]} ∪ subs
  | SeenClose sub | SeenClosed sub => subs ∖ {[sub]}
  | SeenOther => subs
  end.
Definition open_subs (xs : list Seen) : gset string := fold_left open_step xs ∅.

Lemma maxSubs_observe n b ins :
  HandleClientMsg b = maxSubs_client n -> HandleServerMsg b = maxSubs_server -> forall c subs,
  ctx_maxSubs c = Some subs -> Z.of_nat (size subs) <= n ->
  exists c' xs, observe b ins c = (c', Ok xs) /\
  ctx_maxSubs c' = Some (fold_left open_step xs subs) /\
  Z.of_nat (size (fold_left open_step xs subs)) <= n.
Proof.
  intros Hbc Hbs.
  assert (Hdel : forall (subs : gset string) x, Z.of_nat (size subs) <= n ->
    Z.of_nat (size (subs ∖ {[x]})) <= n).
  { intros subs x Hs. pose proof (subseteq_size (subs ∖ {[x]}) subs ltac:(set_solver)). lia. }
  induction ins as [|[env msg|env msg] ins IH]; intros c subs Hc Hs.
  { by exists c, []. }
  - cbn [observe]. ctx_unfold. rewrite Hbc. unfold maxSubs_client, get_maxSubs. ctx_unfold.
    cbn [get_ctx]. rewrite Hc. cbn [seen_of].
    destruct (String.eqb (c_Type msg) MsgTypeReq).
    + unfold maxSubs_handleReq. set (sub := c_SubscriptionID msg). case_bool_decide as Hin.
      * destruct (IH c subs Hc Hs) as (c' & xs & Ho & Hc' & Hs'). cbn. rewrite Ho.
        eexists _, _. split; [reflexivity|]. cbn [fold_left open_step].
        by replace ({[sub]} ∪ subs) with subs by set_solver.
      * destruct (Z.leb_spec n (Z.of_nat (size subs))) as [Hn|Hn].
        -- destruct (IH (add_rejection c "max_subscriptions" "too_many_subscriptions") subs Hc Hs)
             as (c' & xs & Ho & Hc' & Hs'). ctx_unfold. cbn. rewrite Ho.
           eexists _, _. split; [reflexivity|done].
        -- destruct (IH (set_maxSubs c ({[sub]} ∪ subs)) ({[sub]} ∪ subs)) as (c' & xs & Ho & Hc' & Hs').
           { done. }
           { rewrite size_union by set_solver. rewrite size_singleton. lia. }
           ctx_unfold. cbn. rewrite Ho. eexists _, _. split; [reflexivity|done].
    + destruct (String.eqb (c_Type msg) MsgTypeClose).
      * destruct (IH (set_maxSubs c (subs ∖ {[c_SubscriptionID msg]})) (subs ∖ {[c_SubscriptionID msg]}))
          as (c' & xs & Ho & Hc' & Hs'); [done|auto|].
        unfold maxSubs_handleClose. ctx_unfold. cbn. rewrite Ho. eexists _, _. split; [reflexivity|done].
      * destruct (IH c subs Hc Hs) as (c' & xs & Ho & Hc' & Hs'). cbn. rewrite Ho.
        eexists _, _. split; [reflexivity|done].
  - cbn [observe]. ctx_unfold. rewrite Hbs. unfold maxSubs_server. cbn [seen_of].
    destruct (String.eqb (s_Type msg) MsgTypeClosed).
    + destruct (IH (set_maxSubs c (subs ∖ {[s_SubscriptionID msg]})) (subs ∖ {[s_SubscriptionID msg]}))
        as (c' & xs & Ho & Hc' & Hs'); [done|auto|].
      unfold get_maxSubs. ctx_unfold. cbn [get_ctx]. rewrite Hc. cbn. rewrite Ho.
      eexists _, _. split; [reflexivity|done].
    + destruct (IH c subs Hc Hs) as (c' & xs & Ho & Hc' & Hs'). cbn. rewrite Ho.
      eexists _, _. split; [reflexivity|done].
Qed.

(** ** Properties *)

Module SessionExamples.
Definition now : Time := time_Unix 1000.
Definition env : Env := mkEnv now (Some "ch"%string).
Definition auth_event (pk sig : string) : Event :=
  mkEvent "i" pk now 22242 (Some [["challenge"; "ch"]; ["relay"; "wss://r"]]%string) "" sig.
Definition note (pk : string) : Event := mkEvent "n" pk now 1 (Some [["-"]%string]) "" "".
Definition auth := NewAuthMiddlewareBase "wss://r" None.
End SessionExamples.

(** C38: behind the auth middleware an EVENT is forwarded exactly when its author
    has sent, earlier on this connection, an AUTH that was accepted, and a REQ
    exactly when anybody has; an AUTH is accepted exactly when its event has kind
    22242, was created within the tolerance of the clock, carries the challenge
    of this connection in its first challenge tag and, if the relay has a URL, a
    non-empty relay tag. *)
Theorem auth_admits (url : string) (opt : option Z) (challenge : string) (env0 : Env) (c0 : Ctx)
    (msgs : list (Env * ClientMsg)) (env : Env) (msg : ClientMsg) :
  env_challenge env0 = Some challenge ->
  Forall (fun '(_, m) => has_event m) msgs -> has_event msg ->
  let b := NewAuthMiddlewareBase url opt in
  let authed := auth_pubkeys url (auth_tolerance opt) challenge msgs in
  exists c outs c' out,
  feed b msgs (OnStart b env0 c0).1 = (c, Ok outs) /\ HandleClientMsg b env msg c = (c', Ok out) /\
  (forall e, c_Type msg = MsgTypeEvent -> c_Event msg = Some e ->
     out.1 = if bool_decide (ev_Pubkey e ∈ authed) then Some msg else None) /\
  (c_Type msg = MsgTypeReq -> out.1 = if bool_decide (authed = ∅) then None else Some msg).
Proof.
  intros Hch Hmsgs Hmsg b authed.
  assert (H0 : auth_holds challenge ∅ (OnStart b env0 c0).1).
  { cbn. unfold auth_OnStart. rewrite Hch. by exists false. }
  destruct (auth_feed url opt challenge msgs ∅ _ Hmsgs H0) as (c & outs & Hf & Hh).
  rewrite (right_id_L ∅ (∪)) in Hh.
  destruct (auth_client_outcome url (auth_tolerance opt) challenge _ env msg c Hmsg Hh)
    as (c' & out & Hrun & _ & He & Hr).
  exists c, outs, c', out. auto.
Qed.

Lemma auth_admits_witness :
  let msgs := [(SessionExamples.env, client_auth (SessionExamples.auth_event "alice" "bogus"))] in
  let authed := auth_pubkeys "wss://r" (auth_tolerance None) "ch" msgs in
  exists c outs c' out,
  feed SessionExamples.auth msgs (OnStart SessionExamples.auth SessionExamples.env emptyCtx).1 = (c, Ok outs) /\
  HandleClientMsg SessionExamples.auth SessionExamples.env (client_event (SessionExamples.note "alice")) c = (c', Ok out) /\
  (forall e, MsgTypeEvent = MsgTypeEvent -> Some (SessionExamples.note "alice") = Some e ->
     out.1 = if bool_decide (ev_Pubkey e ∈ authed) then Some (client_event (SessionExamples.note "alice")) else None) /\
  (MsgTypeEvent = MsgTypeReq -> out.1 = if bool_decide (authed = ∅) then None else Some (client_event (SessionExamples.note "alice"))).
Proof.
  apply (auth_admits "wss://r" None "ch" SessionExamples.env emptyCtx
    [(SessionExamples.env, client_auth (SessionExamples.auth_event "alice" "bogus"))]
    SessionExamples.env (client_event (SessionExamples.note "alice"))).
  - reflexivity.
  - repeat constructor. intros _. cbn. eauto.
  - intros _. cbn. eauto.
Defined.

(** The signature and the id of an AUTH event play no part in authentication:
    changing both leaves the authenticated keys that result, and whether the OK
    accepts, the same; so whoever sees the challenge of a connection is
    authenticated on it as any key it names. *)
Theorem auth_ignores_signature (url : string) (opt : option Z) (challenge : string)
    (authed : gset string) a (env : Env) (c : Ctx) (e : Event) (id sig : string) :
  ctx_auth c = Some (mkAuthState challenge authed a) ->
  let e' := mkEvent id (ev_Pubkey e) (ev_CreatedAt e) (ev_Kind e) (ev_Tags e) (ev_Content e) sig in
  exists c1 c2 m1 m2 ok authed',
  HandleClientMsg (NewAuthMiddlewareBase url opt) env (client_auth e) c =
    (c1, Ok (None, Some (NewServerOKMsg (ev_ID e) ok m1))) /\
  HandleClientMsg (NewAuthMiddlewareBase url opt) env (client_auth e') c =
    (c2, Ok (None, Some (NewServerOKMsg id ok m2))) /\
  auth_holds challenge authed' c1 /\ auth_holds challenge authed' c2 /\
  (ok = true -> ev_Pubkey e ∈ authed').
Proof.
  intros Hc e'. cbn [HandleClientMsg NewAuthMiddlewareBase]. rewrite !(auth_client_auth _ _ _ _ _ _ Hc).
  destruct (handleAuth_outcome url (auth_tolerance opt) env challenge authed a c (client_auth e) e eq_refl Hc)
    as (c1 & m1 & -> & H1).
  destruct (handleAuth_outcome url (auth_tolerance opt) env challenge authed a c (client_auth e') e' eq_refl Hc)
    as (c2 & m2 & -> & H2).
  assert (Hv : valid_auth url (auth_tolerance opt) challenge env e' =
               valid_auth url (auth_tolerance opt) challenge env e) by done.
  rewrite Hv in *. eexists c1, c2, m1, m2, _, _. split_and!; [reflexivity..|exact H1|exact H2|].
  intros ->. set_solver.
Qed.

Lemma auth_ignores_signature_witness :
  exists c1 c2 m1 m2 ok authed',
  HandleClientMsg SessionExamples.auth SessionExamples.env
    (client_auth (SessionExamples.auth_event "alice" "s")) (set_auth emptyCtx (mkAuthState "ch" ∅ false)) =
    (c1, Ok (None, Some (NewServerOKMsg "i" ok m1))) /\
  HandleClientMsg SessionExamples.auth SessionExamples.env
    (client_auth (mkEvent "j" "alice" SessionExamples.now 22242
      (Some [["challenge"; "ch"]; ["relay"; "wss://r"]]%string) "" "forged"))
    (set_auth emptyCtx (mkAuthState "ch" ∅ false)) =
    (c2, Ok (None, Some (NewServerOKMsg "j" ok m2))) /\
  auth_holds "ch" authed' c1 /\ auth_holds "ch" authed' c2 /\ (ok = true -> "alice"%string ∈ authed').
Proof.
  apply (auth_ignores_signature "wss://r" None "ch" ∅ false SessionExamples.env
    (set_auth emptyCtx (mkAuthState "ch" ∅ false)) (SessionExamples.auth_event "alice" "s") "j" "forged").
  reflexivity.
Defined.

(** A protected event (one with a lone "-" tag) is forwarded exactly when the
    connection is authenticated as its author, and never without the auth
    middleware; other events pass. *)
Theorem protected_events_need_author (env : Env) (c : Ctx) (e : Event) :
  (HandleClientMsg NewProtectedEventsMiddlewareBase env (client_event e) c).2 =
  Ok (if negb (hasProtectedTag e)
         || match ctx_auth c with
            | Some s => bool_decide (ev_Pubkey e ∈ as_authedPubkeys s)
            | None => false
            end
      then (Some (client_event e), None)
      else (None, Some (NewServerOKMsg (ev_ID e) false
              "auth-required: this event may only be published by its author"))).
Proof.
  cbn. unfold protected_client. cbn. destruct (hasProtectedTag e); [|done]. cbn. ctx_unfold. cbn.
  unfold isAuthedAsPubkey, isAuthedPubkey. destruct (ctx_auth c) as [s|]; cbn; [|done].
  by case_bool_decide.
Qed.

(** C39: the bound on subscriptions holds at every moment of a connection,
    whatever the client and the downstream handler send: the subscriptions open,
    as anyone watching the forwarded REQs, the CLOSEs and the CLOSEDs would
    count them, are exactly those the middleware tracks, and never more than the
    maximum. *)
Theorem maxSubs_bound (n : Z) b (env0 : Env) (c0 : Ctx) (ins : list Input) :
  NewMaxSubscriptionsMiddlewareBase n = Ok b ->
  exists c xs, observe b ins (OnStart b env0 c0).1 = (c, Ok xs) /\
  ctx_maxSubs c = Some (open_subs xs) /\ Z.of_nat (size (open_subs xs)) <= n.
Proof.
  unfold NewMaxSubscriptionsMiddlewareBase. destruct (Z.ltb_spec n 1); [done|]. intros [= <-].
  apply (maxSubs_observe n); [done..|]. rewrite size_empty. lia.
Qed.

Lemma maxSubs_bound_witness :
  exists b, NewMaxSubscriptionsMiddlewareBase 1 = Ok b /\
  exists c xs, observe b [FromClient SessionExamples.env (client_req "a" []);
                          FromClient SessionExamples.env (client_req "b" [])]
                 (OnStart b SessionExamples.env emptyCtx).1 = (c, Ok xs) /\
  ctx_maxSubs c = Some (open_subs xs) /\ Z.of_nat (size (open_subs xs)) <= 1.
Proof. eexists. split; [reflexivity|]. apply maxSubs_bound. reflexivity. Defined.

(** A rate limit lets exactly its burst through at one instant: of the EVENTs
    that arrive at the instant the connection started, the first [burst] are
    forwarded, each of the others is answered by a rate-limited OK, and none is
    lost (bursts up to 4096; any rate). *)
Theorem eventRateLimit_burst (rate : float64) (burst : Z) b (now : Time) (ch : option string) (c0 : Ctx)
    (msgs : list (Env * ClientMsg)) :
  NewEventRateLimitMiddlewareBase rate burst = Ok b -> burst <= max_burst -> time_wf now ->
  Forall (fun m => env_now m.1 = now /\ c_Type m.2 = MsgTypeEvent) msgs ->
  exists c, feed b msgs (OnStart b (mkEnv now ch) c0).1 =
  (c, Ok (((fun m => (Some m.2, None)) <$> take (Z.to_nat burst) msgs) ++
          ((fun m => (None, Some (NewServerOKMsg (msg_eventID m.2) false "rate-limited: too many events")))
             <$> drop (Z.to_nat burst) msgs))).
Proof.
  intros Hb Hle Hnow Hmsgs.
  assert (Hpos : 1 <= burst).
  { unfold NewEventRateLimitMiddlewareBase, rate_limit_base in Hb. case_match; [done|].
    destruct (Z.ltb_spec burst 1); [done|lia]. }
  destruct (rateLimit_feed EventBucket MsgTypeEvent _ _ rate burst b now msgs Hb Hmsgs
    (OnStart b (mkEnv now ch) c0).1 (newTokenBucket rate burst now)) as (c & ->).
  { unfold NewEventRateLimitMiddlewareBase, rate_limit_base in Hb. repeat case_match; try done.
    by injection Hb as <-. }
  exists c. do 2 f_equal. unfold newTokenBucket. rewrite allow_n_whole by (done || lia).
  generalize (Z.to_nat burst). clear. induction msgs as [|m msgs IH]; intros k; [by rewrite take_nil, drop_nil|].
  destruct k as [|k]; cbn.
  - f_equal. specialize (IH 0%nat). rewrite Nat.min_0_r, Nat.sub_0_r in IH. cbn in IH. by rewrite IH, drop_0.
  - f_equal. apply IH.
Qed.

Lemma eventRateLimit_burst_witness :
  exists b, NewEventRateLimitMiddlewareBase (of_int 1) 1 = Ok b /\
  exists c, feed b [(SessionExamples.env, client_event (SessionExamples.note "a"));
                    (SessionExamples.env, client_event (SessionExamples.note "b"))]
              (OnStart b (mkEnv SessionExamples.now None) emptyCtx).1 =
  (c, Ok [(Some (client_event (SessionExamples.note "a")), None);
          (None, Some (NewServerOKMsg "n" false "rate-limited: too many events"))]).
Proof.
  eexists. split; [reflexivity|].
  apply (eventRateLimit_burst (of_int 1) 1 _ SessionExamples.now None emptyCtx
    [(SessionExamples.env, client_event (SessionExamples.note "a"));
     (SessionExamples.env, client_event (SessionExamples.note "b"))]).
  - reflexivity.
  - unfold max_burst. lia.
  - apply time_Unix_wf.
  - repeat constructor.
Defined.
