(* ===== verification/Interface.v ===== *)
(** * What a middleware promises its pipeline

    The contract every shipped middleware meets: it never fails or crashes on a
    message the parser can produce, and it either passes the message on or
    answers it, once, with a message addressed to it.  The theorem about
    pipelines is proved against this interface alone; the instances show that
    each base implements it. *)

From S2P Require Import Prelude GoTime Text Event Filter Message RateLimit Middleware Bases Session.

(** ** The contract *)

(** A message as the parser makes it: EVENT and AUTH carry an event. *)
Definition client_wf (msg : ClientMsg) : Prop :=
  c_Type msg = MsgTypeEvent \/ c_Type msg = MsgTypeAuth -> is_Some (c_Event msg).

(** The message passed on is the one received, up to the limits of its filters. *)
Record same_msg (msg msg' : ClientMsg) : Prop := {
  sm_Type : c_Type msg' = c_Type msg;
  sm_Event : c_Event msg' = c_Event msg;
  sm_SubscriptionID : c_SubscriptionID msg' = c_SubscriptionID msg;
  sm_Filters : length (c_Filters msg') = length (c_Filters msg)
}.

(** A response addressed to the message: an OK with the id of its event, or a
    CLOSED with its subscription. *)
Definition answers_msg (msg : ClientMsg) (resp : ServerMsg) : Prop :=
  (exists e a m, c_Event msg = Some e /\ resp = NewServerOKMsg (ev_ID e) a m /\
     (c_Type msg = MsgTypeEvent \/ c_Type msg = MsgTypeAuth)) \/
  (exists m, resp = NewServerClosedMsg (c_SubscriptionID msg) m /\
     (c_Type msg = MsgTypeReq \/ c_Type msg = MsgTypeCount \/ c_Type msg = MsgTypeClose)).

(** The objects a context holds are never removed from it, and what is logged as
    rejected is counted. *)
Record ctx_keeps (c c' : Ctx) : Prop := {
  ck_auth : is_Some (ctx_auth c) -> is_Some (ctx_auth c');
  ck_maxSubs : is_Some (ctx_maxSubs c) -> is_Some (ctx_maxSubs c');
  ck_bucket : forall k, is_Some (ctx_bucket c k) -> is_Some (ctx_bucket c' k);
  ck_rejections : rejections_agree c -> rejections_agree c'
}.

#[export] Instance ctx_keeps_refl : Reflexive ctx_keeps.
Proof. intros c. by constructor. Qed.
#[export] Instance ctx_keeps_trans : Transitive ctx_keeps.
Proof. intros a b c [H1 H2 H3 H4] [H5 H6 H7 H8]. constructor; auto. Qed.

(** Either passed on or answered. *)
Inductive verdict (msg : ClientMsg) (c : Ctx) : Ctx * Res (option ClientMsg * option ServerMsg) -> Prop :=
| verdict_pass c' msg' : ctx_keeps c c' -> same_msg msg msg' ->
    verdict msg c (c', Ok (Some msg', None))
| verdict_reject c' resp : ctx_keeps c c' -> answers_msg msg resp ->
    verdict msg c (c', Ok (None, Some resp)).

(** Server messages pass, except that an EVENT may be dropped. *)
Inductive server_verdict (msg : ServerMsg) (c : Ctx) : Ctx * Res (option ServerMsg) -> Prop :=
| server_pass c' : ctx_keeps c c' -> server_verdict msg c (c', Ok (Some msg))
| server_drop c' : ctx_keeps c c' -> s_Type msg = MsgTypeEvent -> server_verdict msg c (c', Ok None).

(** [ready] is what [OnStart] has put into the context. *)
Class WellBehaved (b : SimpleMiddlewareBase) (ready : Ctx -> Prop) : Prop := {
  wb_ready : forall c c', ctx_keeps c c' -> ready c -> ready c';
  wb_client : forall env msg c, client_wf msg -> ready c -> verdict msg c (HandleClientMsg b env msg c);
  wb_server : forall env msg c, ready c -> server_verdict msg c (HandleServerMsg b env msg c)
}.

(** A pipeline all of whose bases are well-behaved and started. *)
Inductive pipeline_ready (c : Ctx) : list SimpleMiddlewareBase -> Prop :=
| ready_nil : pipeline_ready c []
| ready_cons b bases (ready : Ctx -> Prop) :
    WellBehaved b ready -> ready c -> pipeline_ready c bases -> pipeline_ready c (b :: bases).

Lemma pipeline_ready_keeps c c' bases : ctx_keeps c c' -> pipeline_ready c bases -> pipeline_ready c' bases.
Proof.
  intros Hk. induction 1 as [|b bases ready Hb Hr Hbases IH]; [constructor|].
  econstructor; eauto. eapply wb_ready; eauto.
Qed.

(** ** Pipelines *)

Lemma server_through_pass env bases msg c :
  pipeline_ready c bases -> s_Type msg <> MsgTypeEvent ->
  exists c', ctx_keeps c c' /\ server_through env bases msg c = (c', Ok (Some msg)).
Proof.
  intros Hr Ht. revert c Hr. induction bases as [|b bases IH]; intros c Hr.
  { exists c. split; [reflexivity|done]. }
  inversion Hr as [|? ? ready Hb Hbr Hbases]; subst. cbn [server_through]. ctx_unfold.
  pose proof (wb_server env msg c Hbr) as Hv.
  destruct (HandleServerMsg b env msg c) as [c1 r]. inversion Hv; subst; [|done].
  destruct (IH c1) as (c2 & Hk & ->); [by eapply pipeline_ready_keeps|].
  exists c2. split; [by etrans|done].
Qed.

Lemma answers_not_event msg resp : answers_msg msg resp -> s_Type resp <> MsgTypeEvent.
Proof. by intros [(e & a & m & _ & -> & _)|(m & -> & _)]. Qed.

Lemma same_msg_trans a b c : same_msg a b -> same_msg b c -> same_msg a c.
Proof. intros [] []. constructor; congruence. Qed.

Lemma same_msg_refl a : same_msg a a.
Proof. by constructor. Qed.

Lemma same_msg_wf a b : same_msg a b -> client_wf a -> client_wf b.
Proof. intros [H1 H2 H3 H4]. unfold client_wf. by rewrite H1, H2. Qed.

Lemma same_msg_answers a b resp : same_msg a b -> answers_msg b resp -> answers_msg a resp.
Proof. intros [H1 H2 H3 H4]. unfold answers_msg. by rewrite H1, H2, H3. Qed.

Lemma pipeline_verdict env outer bases msg c :
  client_wf msg -> pipeline_ready c outer -> pipeline_ready c bases ->
  exists c', ctx_keeps c c' /\
  ((exists msg', client_through env outer bases msg c = (c', Ok (Some msg', [])) /\ same_msg msg msg') \/
   (exists resp, client_through env outer bases msg c = (c', Ok (None, [resp])) /\ answers_msg msg resp)).
Proof.
  revert outer msg c. induction bases as [|b bases IH]; intros outer msg c Hwf Ho Hr.
  { exists c. split; [reflexivity|]. left. exists msg. split; [done|apply same_msg_refl]. }
  inversion Hr as [|? ? ready Hb Hbr Hbases]; subst. cbn [client_through]. ctx_unfold.
  pose proof (wb_client env msg c Hwf Hbr) as Hv.
  destruct (HandleClientMsg b env msg c) as [c1 r]. inversion Hv as [? msg' Hk Hs|? resp Hk Ha]; subst.
  - destruct (IH (b :: outer) msg' c1) as (c2 & Hk2 & Hcase).
    + by eapply same_msg_wf.
    + econstructor; [done| |by eapply pipeline_ready_keeps]. eapply wb_ready; eauto.
    + by eapply pipeline_ready_keeps.
    + exists c2. split; [by etrans|]. destruct Hcase as [(m2 & -> & Hs2)|(resp & -> & Ha)].
      * left. exists m2. split; [done|by eapply same_msg_trans].
      * right. exists resp. split; [done|by eapply same_msg_answers].
  - destruct (server_through_pass env outer resp c1) as (c2 & Hk2 & ->).
    + by eapply pipeline_ready_keeps.
    + by eapply answers_not_event.
    + exists c2. split; [by etrans|]. right. by exists resp.
Qed.

(** ** The instances *)

Lemma verdict_passed msg c : verdict msg c (pass msg c).
Proof. apply verdict_pass; [reflexivity|apply same_msg_refl]. Qed.

Lemma log_keeps c a b : ctx_keeps c (add_rejection c a b).
Proof. constructor; [done..|]. apply add_rejection_agrees. Qed.

Lemma verdict_rejected msg c a b resp :
  answers_msg msg resp -> verdict msg c ((_ ← logRejection a b; reject resp) c).
Proof. intros Ha. apply verdict_reject; [apply log_keeps|done]. Qed.

Lemma answers_event msg e a m : c_Type msg = MsgTypeEvent \/ c_Type msg = MsgTypeAuth ->
  c_Event msg = Some e -> answers_msg msg (NewServerOKMsg (ev_ID e) a m).
Proof. intros Ht He. left. eauto 10. Qed.

Lemma server_passed msg c : server_verdict msg c (c, Ok (Some msg)).
Proof. apply server_pass. reflexivity. Qed.

#[export] Hint Resolve verdict_passed verdict_rejected answers_event server_passed log_keeps : mocrelay.

Lemma judge_event_verdict mw judge env msg c : verdict msg c (judge_event mw judge env msg c).
Proof.
  unfold judge_event. destruct (String.eqb_spec (c_Type msg) MsgTypeEvent) as [Ht|]; simpl;
    [|auto with mocrelay].
  destruct (c_Event msg) as [e|] eqn:He; [|auto with mocrelay].
  destruct (judge env e) as [[reason m]|]; auto with mocrelay.
Qed.

Definition always (_ : Ctx) : Prop := True.

#[export] Instance event_base_wb mw judge : WellBehaved (event_base mw judge) always.
Proof.
  constructor; [done| |]; intros; [apply judge_event_verdict|apply server_passed].
Qed.

#[export] Instance expiration_wb b : NewExpirationMiddlewareBase = Ok b -> WellBehaved b always.
Proof.
  intros [= <-]. constructor; [done| |]; intros; [apply judge_event_verdict|].
  cbn. unfold expiration_server. destruct (String.eqb_spec (s_Type msg) MsgTypeEvent) as [Ht|];
    [|apply server_passed].
  destruct (s_Event msg) as [e|]; [|apply server_passed].
  destruct (isExpired env e); [|apply server_passed]. apply server_drop; [apply log_keeps|done].
Qed.

#[export] Instance maxSubid_wb n b : NewMaxSubidLengthMiddlewareBase n = Ok b -> WellBehaved b always.
Proof.
  unfold NewMaxSubidLengthMiddlewareBase. case_match; [done|]. intros [= <-].
  constructor; [done| |]; intros; [|apply server_passed]. cbn. unfold maxSubidLength_client.
  destruct (_ && _) eqn:E; [|apply verdict_passed]. apply verdict_rejected.
  apply andb_true_iff in E as [[Ht|Ht]%orb_true_iff _]; apply String.eqb_eq in Ht; right; eauto 10.
Qed.

#[export] Instance maxLimit_wb m d b : NewMaxLimitMiddlewareBase m d = Ok b -> WellBehaved b always.
Proof.
  unfold NewMaxLimitMiddlewareBase. repeat case_match; try done. intros [= <-].
  constructor; [done| |]; intros; [|apply server_passed]. cbn. unfold maxLimit_client.
  destruct (negb _); [apply verdict_passed|]. apply verdict_pass; [reflexivity|].
  constructor; cbn; try done. by rewrite length_map.
Qed.

#[export] Instance protected_wb : WellBehaved NewProtectedEventsMiddlewareBase always.
Proof.
  constructor; [done| |]; intros; [|apply server_passed]. cbn. unfold protected_client.
  destruct (String.eqb_spec (c_Type msg) MsgTypeEvent) as [Ht|]; cbn [negb]; [|apply verdict_passed].
  destruct (c_Event msg) as [e|] eqn:He; [|apply verdict_passed].
  destruct (hasProtectedTag e); cbn [negb]; [|apply verdict_passed].
  ctx_unfold. cbn. destruct (isAuthedAsPubkey c (ev_Pubkey e)); cbn [negb];
    [apply verdict_passed|apply verdict_rejected; auto with mocrelay].
Qed.

Definition auth_started (c : Ctx) : Prop := is_Some (ctx_auth c).
Definition subs_started (c : Ctx) : Prop := is_Some (ctx_maxSubs c).
Definition bucket_started (k : BucketKey) (c : Ctx) : Prop := is_Some (ctx_bucket c k).

Lemma set_auth_keeps c a : ctx_keeps c (set_auth c a).
Proof. by constructor. Qed.
Lemma set_maxSubs_keeps c s : ctx_keeps c (set_maxSubs c s).
Proof. by constructor. Qed.
Lemma set_bucket_keeps c k tb : ctx_keeps c (set_bucket c k tb).
Proof. constructor; try done. intros k' Hk. cbn. by case_decide. Qed.
Lemma set_authMetrics_keeps c m : ctx_keeps c (set_authMetrics c m).
Proof. by constructor. Qed.
Lemma record_auth_keeps c pk : ctx_keeps c (record_auth pk c).
Proof. unfold record_auth. repeat case_match; by constructor. Qed.

#[export] Hint Resolve set_auth_keeps set_maxSubs_keeps set_bucket_keeps set_authMetrics_keeps
  record_auth_keeps : mocrelay.

Lemma handleAuth_verdict url tol env state msg c :
  client_wf msg -> c_Type msg = MsgTypeAuth -> verdict msg c (handleAuth url tol env state msg c).
Proof.
  intros Hwf Ht. unfold handleAuth. destruct (c_Event msg) as [e|] eqn:He.
  2:{ destruct Hwf as [x Hx]; [by right|congruence]. }
  assert (Hrefuse : forall a b m, verdict msg c (refuse_auth e a b m c)).
  { intros a b m. apply verdict_reject; [|auto with mocrelay].
    etrans; [apply set_authMetrics_keeps|apply log_keeps]. }
  repeat (match goal with |- verdict _ _ ((if ?b then _ else _) _) => destruct b end; [apply Hrefuse|]).
  apply verdict_reject; [|auto with mocrelay].
  etrans; [apply set_authMetrics_keeps|apply record_auth_keeps].
Qed.

#[export] Instance auth_wb url opt : WellBehaved (NewAuthMiddlewareBase url opt) auth_started.
Proof.
  constructor; [by intros c c' []| |]; intros; [|apply server_passed]. cbn. unfold auth_client, get_auth.
  ctx_unfold. cbn. destruct H0 as [state ->].
  destruct (String.eqb_spec (c_Type msg) MsgTypeAuth) as [Ht|]; [by apply handleAuth_verdict|].
  destruct (String.eqb_spec (c_Type msg) MsgTypeEvent) as [Ht|].
  { destruct (c_Event msg) as [e|] eqn:He; [|destruct H as [x Hx]; [by left|congruence]].
    destruct (isAuthedPubkey state (ev_Pubkey e)); cbn [negb];
      [apply verdict_passed|apply verdict_rejected; auto with mocrelay]. }
  destruct (String.eqb_spec (c_Type msg) MsgTypeReq) as [Ht|]; [|apply verdict_passed].
  destruct (isAuthed state); cbn [negb]; [apply verdict_passed|apply verdict_rejected].
  right. eauto.
Qed.

#[export] Instance maxSubs_wb n b : NewMaxSubscriptionsMiddlewareBase n = Ok b -> WellBehaved b subs_started.
Proof.
  unfold NewMaxSubscriptionsMiddlewareBase. case_match; [done|]. intros [= <-].
  constructor; [by intros c c' []| |]; cbn.
  - intros env msg c Hwf [subs Hs]. unfold maxSubs_client, get_maxSubs. ctx_unfold. cbn. rewrite Hs.
    destruct (String.eqb_spec (c_Type msg) MsgTypeReq) as [Ht|].
    + unfold maxSubs_handleReq. case_bool_decide; [apply verdict_passed|].
      destruct (n <=? _); [apply verdict_rejected; right; eauto|].
      apply verdict_pass; [apply set_maxSubs_keeps|apply same_msg_refl].
    + destruct (String.eqb_spec (c_Type msg) MsgTypeClose); [|apply verdict_passed].
      apply verdict_pass; [apply set_maxSubs_keeps|apply same_msg_refl].
  - intros env msg c [subs Hs]. unfold maxSubs_server, get_maxSubs.
    destruct (String.eqb_spec (s_Type msg) MsgTypeClosed); [|apply server_passed].
    ctx_unfold. cbn. rewrite Hs.
    apply server_pass, set_maxSubs_keeps.
Qed.

Lemma rateLimit_wb k type mw answer rate burst b :
  (forall msg, client_wf msg -> c_Type msg = type -> answers_msg msg (answer msg)) ->
  rate_limit_base k rate burst (rateLimit_client k type mw answer) = Ok b ->
  WellBehaved b (bucket_started k).
Proof.
  intros Ha. unfold rate_limit_base. repeat case_match; try done. intros [= <-].
  constructor; [by intros c c' [_ _ Hk]; apply Hk| |]; intros; [|apply server_passed]. cbn. unfold rateLimit_client.
  destruct (String.eqb_spec (c_Type msg) type) as [Ht|]; cbn [negb]; [|apply verdict_passed].
  unfold bucket_allow. ctx_unfold. cbn. destruct H2 as [tb ->].
  destruct (allow tb (env_now env)) as [tb' []].
  - apply verdict_pass; [apply set_bucket_keeps|apply same_msg_refl].
  - apply verdict_reject; [etrans; [apply set_bucket_keeps|apply log_keeps]|auto].
Qed.

Lemma answers_msg_eventID msg a m : client_wf msg ->
  c_Type msg = MsgTypeEvent \/ c_Type msg = MsgTypeAuth ->
  answers_msg msg (NewServerOKMsg (msg_eventID msg) a m).
Proof.
  intros Hwf Ht. unfold msg_eventID. destruct (Hwf Ht) as [e He]. rewrite He. by apply answers_event.
Qed.

#[export] Instance eventRateLimit_wb rate burst b :
  NewEventRateLimitMiddlewareBase rate burst = Ok b -> WellBehaved b (bucket_started EventBucket).
Proof. apply rateLimit_wb. intros msg Hwf Ht. apply answers_msg_eventID; auto. Qed.
#[export] Instance authRateLimit_wb rate burst b :
  NewAuthRateLimitMiddlewareBase rate burst = Ok b -> WellBehaved b (bucket_started AuthBucket).
Proof. apply rateLimit_wb. intros msg Hwf Ht. apply answers_msg_eventID; auto. Qed.
#[export] Instance reqRateLimit_wb rate burst b :
  NewReqRateLimitMiddlewareBase rate burst = Ok b -> WellBehaved b (bucket_started ReqBucket).
Proof. apply rateLimit_wb. intros msg Hwf Ht. right. eauto. Qed.
#[export] Instance countRateLimit_wb rate burst b :
  NewCountRateLimitMiddlewareBase rate burst = Ok b -> WellBehaved b (bucket_started CountBucket).
Proof. apply rateLimit_wb. intros msg Hwf Ht. right. eauto. Qed.

(** ** The shipped bases, and starting them *)

Inductive shipped : SimpleMiddlewareBase -> (Ctx -> Prop) -> Prop :=
| ship_createdAt l u b : NewCreatedAtLimitsMiddlewareBase l u = Ok b -> shipped b always
| ship_allow ks b : NewKindAllowlistMiddlewareBase ks = Ok b -> shipped b always
| ship_deny ks b : NewKindDenylistMiddlewareBase ks = Ok b -> shipped b always
| ship_content n b : NewMaxContentLengthMiddlewareBase n = Ok b -> shipped b always
| ship_tags n b : NewMaxEventTagsMiddlewareBase n = Ok b -> shipped b always
| ship_writes m pks b : NewRestrictedWritesMiddlewareBase m pks = Ok b -> shipped b always
| ship_pow n cc b : NewMinPowDifficultyMiddlewareBase n cc = Ok b -> shipped b always
| ship_expiration b : NewExpirationMiddlewareBase = Ok b -> shipped b always
| ship_subid n b : NewMaxSubidLengthMiddlewareBase n = Ok b -> shipped b always
| ship_limit m d b : NewMaxLimitMiddlewareBase m d = Ok b -> shipped b always
| ship_protected : shipped NewProtectedEventsMiddlewareBase always
| ship_auth url opt : shipped (NewAuthMiddlewareBase url opt) auth_started
| ship_subs n b : NewMaxSubscriptionsMiddlewareBase n = Ok b -> shipped b subs_started
| ship_event r n b : NewEventRateLimitMiddlewareBase r n = Ok b -> shipped b (bucket_started EventBucket)
| ship_req r n b : NewReqRateLimitMiddlewareBase r n = Ok b -> shipped b (bucket_started ReqBucket)
| ship_count r n b : NewCountRateLimitMiddlewareBase r n = Ok b -> shipped b (bucket_started CountBucket)
| ship_authRate r n b : NewAuthRateLimitMiddlewareBase r n = Ok b -> shipped b (bucket_started AuthBucket).

Lemma event_base_shipped (r : Res SimpleMiddlewareBase) b mw judge :
  r = Ok (event_base mw judge) -> r = Ok b -> WellBehaved b always.
Proof. intros -> [= <-]. apply _. Qed.

Lemma shipped_wb b ready : shipped b ready -> WellBehaved b ready.
Proof.
  destruct 1 as [l u b H|ks b H|ks b H|n b H|n b H|m pks b H|n cc b H|b H|n b H|m d b H| | |n b H
    |r n b H|r n b H|r n b H|r n b H]; try (by eauto using event_base_shipped); try apply _.
  - revert H. unfold NewCreatedAtLimitsMiddlewareBase. repeat case_match; try done. intros [= <-]. apply _.
  - revert H. unfold NewMaxContentLengthMiddlewareBase. repeat case_match; try done. intros [= <-]. apply _.
  - revert H. unfold NewMaxEventTagsMiddlewareBase. repeat case_match; try done. intros [= <-]. apply _.
  - by eapply expiration_wb.
  - by eapply maxSubid_wb.
  - by eapply maxLimit_wb.
  - by eapply maxSubs_wb.
  - by eapply eventRateLimit_wb.
  - by eapply reqRateLimit_wb.
  - by eapply countRateLimit_wb.
  - by eapply authRateLimit_wb.
Qed.

(** [OnStart] makes a base ready and takes nothing from the others. *)
Definition starts_ready (b : SimpleMiddlewareBase) (ready : Ctx -> Prop) : Prop :=
  forall env c c' m, OnStart b env c = (c', Ok m) -> ctx_keeps c c' /\ ready c'.

Lemma no_start_ready b : OnStart b = no_start -> starts_ready b always.
Proof. intros H env c c' m. rewrite H. cbn. intros [= <- _]. by split. Qed.

Lemma bucket_start_ready k rate burst client b :
  rate_limit_base k rate burst client = Ok b -> starts_ready b (bucket_started k).
Proof.
  unfold rate_limit_base. repeat case_match; try done. intros [= <-] env c c' m. cbn. ctx_unfold. cbn.
  intros [= <- _]. split; [apply set_bucket_keeps|]. unfold bucket_started. cbn. rewrite decide_True; eauto.
Qed.

Lemma shipped_starts b ready : shipped b ready -> starts_ready b ready.
Proof.
  destruct 1 as [l u b H|ks b H|ks b H|n b H|n b H|m pks b H|n cc b H|b H|n b H|m d b H| |url opt|n b H
    |r n b H|r n b H|r n b H|r n b H]; try (by eapply bucket_start_ready);
    try (by apply no_start_ready; injection H as <-);
    try (by apply no_start_ready; revert H;
         unfold NewCreatedAtLimitsMiddlewareBase, NewMaxContentLengthMiddlewareBase,
           NewMaxEventTagsMiddlewareBase, NewMaxSubidLengthMiddlewareBase, NewMaxLimitMiddlewareBase;
         repeat case_match; try done; intros [= <-]).
  - by apply no_start_ready.
  - intros env c c' m. cbn. unfold auth_OnStart. destruct (env_challenge env); [|done]. cbn. ctx_unfold. cbn.
    intros [= <- _]. split; [apply set_auth_keeps|]. unfold auth_started. cbn. eauto.
  - revert H. unfold NewMaxSubscriptionsMiddlewareBase. case_match; [done|]. intros [= <-] env c c' m. cbn.
    unfold maxSubs_OnStart. ctx_unfold. cbn. intros [= <- _].
    split; [apply set_maxSubs_keeps|]. unfold subs_started. cbn. eauto.
Qed.

Lemma start_all_ready env cut bases : forall i started c calls sent started' c' calls' sent',
  Forall (fun b => exists ready, shipped b ready) bases ->
  start_all env cut i bases started c calls sent = (inl started', c', calls', sent') ->
  ctx_keeps c c' /\ pipeline_ready c' bases.
Proof.
  induction bases as [|b bases IH]; intros i started c calls sent started' c' calls' sent' Hs; cbn [start_all].
  { intros [= _ <- _ _]. split; [reflexivity|constructor]. }
  apply Forall_cons in Hs as [[ready Hb] Hs].
  pose proof (shipped_starts b ready Hb env c) as Hst.
  destruct (OnStart b env c) as [c1 [[m|]|e|w]].
  - destruct (cut i); [by destruct (end_all _ _) as [[[? ?] ?] ?]|].
    intros [Hk Hr]%IH; [|done]. destruct (Hst _ _ eq_refl) as [Hk1 Hr1].
    split; [by etrans|]. econstructor; eauto using shipped_wb. pose proof (shipped_wb b ready Hb).
    eapply wb_ready; eauto.
  - intros [Hk Hr]%IH; [|done]. destruct (Hst _ _ eq_refl) as [Hk1 Hr1].
    split; [by etrans|]. econstructor; eauto using shipped_wb. pose proof (shipped_wb b ready Hb).
    eapply wb_ready; eauto.
  - by destruct (end_all _ _) as [[[? ?] ?] ?].
  - by destruct (end_all _ _) as [[[? ?] ?] ?].
Qed.

(** ** Properties *)

(** C37: behind any pipeline of the shipped middlewares, once they are started, a
    client message the parser can produce is never lost and never answered twice:
    it is either forwarded downstream (same type, event and subscription) and
    nothing is answered, or it is not forwarded and the client gets exactly one
    answer, the OK of its event or the CLOSED of its subscription; no handler
    fails or crashes, and this stays so for the next message.  What the middlewares
    log as rejected is what the counter of rejections counts for the connection. *)
Theorem pipeline_forwards_or_answers (env0 env : Env) (cut : nat -> bool)
    (bases : list SimpleMiddlewareBase) (c0 c : Ctx) started calls sent (msg : ClientMsg) :
  Forall (fun b => exists ready, shipped b ready) bases ->
  start_all env0 cut 0 bases [] c0 [] [] = (inl started, c, calls, sent) ->
  client_wf msg ->
  exists c', pipeline_ready c' bases /\ (rejections_agree c0 -> rejections_agree c') /\
  ((exists msg', client_through env [] bases msg c = (c', Ok (Some msg', [])) /\ same_msg msg msg') \/
   (exists resp, client_through env [] bases msg c = (c', Ok (None, [resp])) /\ answers_msg msg resp)).
Proof.
  intros Hs Hst Hwf. apply start_all_ready in Hst as [Hk0 Hr]; [|done].
  destruct (pipeline_verdict env [] bases msg c Hwf ltac:(constructor) Hr) as (c' & Hk & Hv).
  exists c'. split; [by eapply pipeline_ready_keeps|]. split; [|done]. intros Hc%(ck_rejections _ _ Hk0). by apply (ck_rejections _ _ Hk).
Qed.

Module InterfaceExamples.
Definition limits : SimpleMiddlewareBase := mkBase no_start no_end (maxLimit_client 100 10) pass_server.
Definition auth : SimpleMiddlewareBase := NewAuthMiddlewareBase "wss://relay" None.
Definition env : Env := mkEnv (time_Unix 1000) (Some "c1"%string).
Definition started_ctx : Ctx := set_auth (conn_ctx (newRejectionMetrics true) None) (mkAuthState "c1" ∅ false).
End InterfaceExamples.

Lemma pipeline_forwards_or_answers_witness :
  exists c', pipeline_ready c' [InterfaceExamples.limits; InterfaceExamples.auth] /\ rejections_agree c' /\
  ((exists msg', client_through InterfaceExamples.env [] [InterfaceExamples.limits; InterfaceExamples.auth]
      (client_req "s" [emptyFilter]) InterfaceExamples.started_ctx = (c', Ok (Some msg', [])) /\
      same_msg (client_req "s" [emptyFilter]) msg') \/
   (exists resp, client_through InterfaceExamples.env [] [InterfaceExamples.limits; InterfaceExamples.auth]
      (client_req "s" [emptyFilter]) InterfaceExamples.started_ctx = (c', Ok (None, [resp])) /\
      answers_msg (client_req "s" [emptyFilter]) resp)).
Proof.
  assert (Hship : Forall (fun b => exists ready, shipped b ready) [InterfaceExamples.limits; InterfaceExamples.auth]).
  { repeat constructor; [exists always; by apply (ship_limit 100 10)|exists auth_started; apply ship_auth]. }
  eassert (Hstart : start_all InterfaceExamples.env (fun _ => false) 0 [InterfaceExamples.limits; InterfaceExamples.auth] []
    (conn_ctx (newRejectionMetrics true) None) [] [] = (inl _, InterfaceExamples.started_ctx, _, _)) by reflexivity.
  destruct (pipeline_forwards_or_answers InterfaceExamples.env InterfaceExamples.env _ _ _ _ _ _ _ (client_req "s" [emptyFilter])
    Hship Hstart) as (c' & Hr & Hc & Hv); [intros [H|H]; discriminate H|].
  exists c'. split; [exact Hr|]. split; [|exact Hv]. apply Hc. intros m l [= <-]. reflexivity.
Defined.
