(* ===== verification/Router.v ===== *)
(** * The router (router.go)

    Connections, their subscriptions, and the best-effort broadcast of events.
    The router is refined to a table from (connection, subscription) pairs to
    filters, which is what a client thinks it has set up; the broadcast is shown
    to try each matching row of the table once. *)

From S2P Require Import Prelude GoTime Text Event Filter Message.

(** ** State *)

(** [rc_sendCh] names the channel: two registrations may share one. *)
Record routerConnection : Type := mkRouterConnection {
  rc_sendCh : nat;
  subscriptions : gmap string (list ReqFilter)
}.

Record routerMetrics : Type := mkRouterMetrics {
  MessagesDropped : Z;
  SubscriptionsCurrent : Z
}.

(** [r_metrics] is [None] when no registerer was given. *)
Record Router : Type := mkRouter {
  nextConnID : Z;
  connections : gmap string routerConnection;
  r_metrics : option routerMetrics
}.

Definition NewRouter (registerer : bool) : Router :=
  mkRouter 0 ∅ (if registerer then Some (mkRouterMetrics 0 0) else None).

Definition set_connections (r : Router) (m : gmap string routerConnection) : Router :=
  mkRouter (nextConnID r) m (r_metrics r).

Definition gauge_add (r : Router) (d : Z) : Router :=
  mkRouter (nextConnID r) (connections r)
    ((fun m => mkRouterMetrics (MessagesDropped m) (SubscriptionsCurrent m + d)) <$> r_metrics r).

Definition inc_dropped (r : Router) : Router :=
  mkRouter (nextConnID r) (connections r)
    ((fun m => mkRouterMetrics (MessagesDropped m + 1) (SubscriptionsCurrent m)) <$> r_metrics r).

(** ** Operations *)

Definition Register (r : Router) (sendCh : nat) : Router * Res string :=
  let n := wrap_uint64 (nextConnID r + 1) in
  let r := mkRouter n (connections r) (r_metrics r) in
  match formatConnID n with
  | Ok connID =>
      (set_connections r (<[connID := mkRouterConnection sendCh ∅]> (connections r)), Ok connID)
  | e => (r, e)
  end.

Definition Unregister (r : Router) (connID : string) : Router :=
  match connections r !! connID with
  | None => r
  | Some conn =>
      let r :=
        if (0 <? size (subscriptions conn))%nat
        then gauge_add r (- Z.of_nat (size (subscriptions conn))) else r in
      set_connections r (delete connID (connections r))
  end.

(** The subscription map is shared between the connection object and the router. *)
Definition set_subscriptions (r : Router) (connID : string) (conn : routerConnection)
    (m : gmap string (list ReqFilter)) : Router :=
  set_connections r (<[connID := mkRouterConnection (rc_sendCh conn) m]> (connections r)).

Definition Subscribe (r : Router) (connID subID : string) (filters : list ReqFilter) : Router :=
  match connections r !! connID with
  | None => r
  | Some conn =>
      let existed := bool_decide (is_Some (subscriptions conn !! subID)) in
      let r := set_subscriptions r connID conn (<[subID := filters]> (subscriptions conn)) in
      if existed then r else gauge_add r 1
  end.

Definition Unsubscribe (r : Router) (connID subID : string) : Router :=
  match connections r !! connID with
  | None => r
  | Some conn =>
      if bool_decide (is_Some (subscriptions conn !! subID)) then
        gauge_add (set_subscriptions r connID conn (delete subID (subscriptions conn))) (-1)
      else r
  end.

(** The environment of a broadcast: the orders the two maps are visited in, and
    whether the channel of a connection has room when the event is tried for one
    of its subscriptions. *)
Record BroadcastEnv : Type := mkBroadcastEnv {
  be_conns : MapOrder;
  be_subs : string -> MapOrder;
  be_room : string -> string -> bool
}.

(** The loop over a connection's subscriptions. *)
Fixpoint broadcast_subs (env : BroadcastEnv) (event : Event) (connID : string)
    (conn : routerConnection) (subs : list string) (acc : Router * list (nat * ServerMsg))
    : Router * list (nat * ServerMsg) :=
  match subs with
  | [] => acc
  | subID :: subs =>
      let '(r, sent) := acc in
      let acc :=
        if matchesAny (default [] (subscriptions conn !! subID)) event then
          if be_room env connID subID
          then (r, sent ++ [(rc_sendCh conn, NewServerEventMsg subID (Some event))])
          else (inc_dropped r, sent)
        else (r, sent) in
      broadcast_subs env event connID conn subs acc
  end.

(** The loop over the connections. *)
Fixpoint broadcast_conns (env : BroadcastEnv) (event : Event) (ids : list string)
    (acc : Router * list (nat * ServerMsg)) : Router * list (nat * ServerMsg) :=
  match ids with
  | [] => acc
  | connID :: ids =>
      let acc :=
        match connections (fst acc) !! connID with
        | Some conn =>
            broadcast_subs env event connID conn (map_range (be_subs env connID) (subscriptions conn)) acc
        | None => acc
        end in
      broadcast_conns env event ids acc
  end.

Definition Broadcast (env : BroadcastEnv) (r : Router) (event : Event)
    : Router * list (nat * ServerMsg) :=
  broadcast_conns env event (map_range (be_conns env) (connections r)) (r, []).

(** ** The abstract table *)

(** What the calls so far amount to: the channel of each live connection and the
    filters of each open subscription. *)
Record RouterTable : Type := mkRouterTable {
  rt_registered : nat;
  rt_conns : gmap string nat;
  rt_subs : gmap (string * string) (list ReqFilter)
}.

Definition empty_table : RouterTable := mkRouterTable 0 ∅ ∅.

(** The [n]th connection's name. *)
Definition conn_name (n : nat) : string := "conn-" +:+ fmt_d (Z.of_nat n).

Inductive RouterOp : Type :=
| OpRegister (sendCh : nat)
| OpUnregister (connID : string)
| OpSubscribe (connID subID : string) (filters : list ReqFilter)
| OpUnsubscribe (connID subID : string)
| OpBroadcast (env : BroadcastEnv) (event : Event).

Definition table_op (t : RouterTable) (o : RouterOp) : RouterTable :=
  match o with
  | OpRegister ch =>
      let n := S (rt_registered t) in
      mkRouterTable n (<[conn_name n := ch]> (rt_conns t)) (rt_subs t)
  | OpUnregister c =>
      mkRouterTable (rt_registered t) (delete c (rt_conns t))
        (filter (fun kv => fst (fst kv) <> c) (rt_subs t))
  | OpSubscribe c s fs =>
      if decide (is_Some (rt_conns t !! c))
      then mkRouterTable (rt_registered t) (rt_conns t) (<[(c, s) := fs]> (rt_subs t))
      else t
  | OpUnsubscribe c s =>
      mkRouterTable (rt_registered t) (rt_conns t) (delete (c, s) (rt_subs t))
  | OpBroadcast _ _ => t
  end.

(** A call on the router, with the connection it names, if any, and what it sent. *)
Definition router_op (r : Router) (o : RouterOp) : Res (Router * option string * list (nat * ServerMsg)) :=
  match o with
  | OpRegister ch =>
      let '(r, id) := Register r ch in
      id ← id; mret (r, Some id, [])
  | OpUnregister c => Ok (Unregister r c, None, [])
  | OpSubscribe c s fs => Ok (Subscribe r c s fs, None, [])
  | OpUnsubscribe c s => Ok (Unsubscribe r c s, None, [])
  | OpBroadcast env ev => let '(r, sent) := Broadcast env r ev in Ok (r, None, sent)
  end.

Fixpoint router_ops (r : Router) (ops : list RouterOp)
    : Res (Router * list string * list (nat * ServerMsg)) :=
  match ops with
  | [] => Ok (r, [], [])
  | o :: ops =>
      '(r, id, sent) ← router_op r o;
      '(r, ids, sents) ← router_ops r ops;
      mret (r, option_list id ++ ids, sent ++ sents)
  end.

Definition is_register (o : RouterOp) : bool :=
  match o with OpRegister _ => true | _ => false end.
Definition registrations (ops : list RouterOp) : nat := length (List.filter is_register ops).

(** The router holds what the table says, and its gauge counts the rows. *)
Record represents (r : Router) (t : RouterTable) : Prop := {
  rep_next : nextConnID r = Z.of_nat (rt_registered t);
  rep_conns : forall c, rt_conns t !! c = rc_sendCh <$> connections r !! c;
  rep_subs : forall c s, rt_subs t !! (c, s) = connections r !! c ≫= (fun conn => subscriptions conn !! s);
  rep_gauge : forall m, r_metrics r = Some m -> SubscriptionsCurrent m = Z.of_nat (size (rt_subs t));
  rep_names : forall c, is_Some (connections r !! c) -> exists n, (0 < n <= rt_registered t)%nat /\ c = conn_name n
}.

(** ** The refinement *)

Lemma conn_name_inj n m : conn_name n = conn_name m -> n = m.
Proof.
  unfold conn_name, fmt_d. intros H%str_app_inj_l. apply (inj pretty) in H. lia.
Qed.

Lemma formatConnID_name n : Z.of_nat n < two64 -> formatConnID (Z.of_nat n) = Ok (conn_name n).
Proof. intros Hn. unfold formatConnID. rewrite uitoa_fmt; [done|int_lia]. Qed.

Lemma rep_conns_some r t c : represents r t -> is_Some (rt_conns t !! c) <-> is_Some (connections r !! c).
Proof. intros H. by rewrite (rep_conns _ _ H), fmap_is_Some. Qed.

Lemma gauge_add_metrics r d m : r_metrics (gauge_add r d) = Some m ->
  exists m0, r_metrics r = Some m0 /\ SubscriptionsCurrent m = SubscriptionsCurrent m0 + d.
Proof. unfold gauge_add. cbn [r_metrics]. destruct (r_metrics r); simpl; [|done]. intros [= <-]. eauto. Qed.

Lemma size_kmap_pair {A} (c : string) (m : gmap string A) :
  size (kmap (pair c) m : gmap (string * string) A) = size m.
Proof.
  induction m as [|s x m Hs IH] using map_ind; [by rewrite kmap_empty|].
  rewrite kmap_insert by (intros ? ? [=]; done).
  rewrite !map_size_insert_None; [by rewrite IH|done|].
  apply lookup_kmap_None; [intros ? ? [=]; done|]. by intros ? [= ->].
Qed.

(** The rows of one connection are as many as its subscriptions. *)
Lemma rows_of_conn (subs : gmap (string * string) (list ReqFilter)) c (m : gmap string (list ReqFilter)) :
  (forall s, subs !! (c, s) = m !! s) ->
  size subs = (size m + size (filter (fun kv => fst (fst kv) <> c) subs))%nat.
Proof.
  intros Hm.
  assert (Heq : filter (fun kv => ~ fst (fst kv) <> c) subs = kmap (pair c) m).
  { apply map_eq. intros [c' s]. destruct (decide (c' = c)) as [->|Hne].
    - rewrite lookup_kmap by (intros ? ? [=]; done). rewrite <-Hm.
      destruct (subs !! (c, s)) as [fs|] eqn:E.
      + apply map_lookup_filter_Some. split; [done|]. simpl. tauto.
      + apply map_lookup_filter_None. by left.
    - transitivity (@None (list ReqFilter)).
      + apply map_lookup_filter_None. right. simpl. tauto.
      + symmetry. apply lookup_kmap_None; [intros ? ? [=]; done|]. intros ? [=]. done. }
  rewrite <-(map_filter_union_complement (fun kv => fst (fst kv) <> c) subs) at 1.
  rewrite map_size_disj_union by apply map_disjoint_filter_complement.
  rewrite Heq, size_kmap_pair. lia.
Qed.

Lemma Register_represents r t ch :
  represents r t -> Z.of_nat (S (rt_registered t)) < two64 ->
  exists r', Register r ch = (r', Ok (conn_name (S (rt_registered t)))) /\
    represents r' (table_op t (OpRegister ch)).
Proof.
  intros [Hn Hc Hs Hg Hnames] Hlt. unfold Register.
  rewrite Hn, wrap_uint64_id by int_lia.
  replace (Z.of_nat (rt_registered t) + 1) with (Z.of_nat (S (rt_registered t))) by lia.
  rewrite formatConnID_name by done. eexists. split; [done|].
  assert (Hfresh : connections r !! conn_name (S (rt_registered t)) = None).
  { apply eq_None_not_Some. intros (n & Hle & ?%conn_name_inj)%Hnames. lia. }
  constructor; cbn [table_op rt_registered rt_conns rt_subs nextConnID connections r_metrics set_connections].
  - lia.
  - intros c. destruct (decide (c = conn_name (S (rt_registered t)))) as [->|Hne].
    + by rewrite !lookup_insert_eq.
    + by rewrite !lookup_insert_ne by done.
  - intros c s. rewrite Hs. destruct (decide (c = conn_name (S (rt_registered t)))) as [->|Hne].
    + by rewrite lookup_insert_eq, Hfresh.
    + by rewrite lookup_insert_ne by done.
  - done.
  - intros c. destruct (decide (c = conn_name (S (rt_registered t)))) as [->|Hne].
    + intros _. exists (S (rt_registered t)). split; [lia|done].
    + rewrite lookup_insert_ne by done. intros (n & ? & ->)%Hnames. exists n. split; [lia|done].
Qed.

Lemma Unregister_represents r t c : represents r t -> represents (Unregister r c) (table_op t (OpUnregister c)).
Proof.
  intros [Hn Hc Hs Hg Hnames]. unfold Unregister. cbn [table_op].
  pose proof (Hc c) as Hcc. destruct (connections r !! c) as [conn|] eqn:E; simpl in Hcc.
  - set (m := subscriptions conn).
    assert (Hsz : size (rt_subs t) = (size m + size (filter (fun kv => fst (fst kv) <> c) (rt_subs t)))%nat).
    { apply rows_of_conn. intros s. by rewrite Hs, E. }
    assert (Hcn : forall r', connections (if (0 <? size m)%nat then gauge_add r (- Z.of_nat (size m)) else r) = r' ->
                  connections r = r') by (destruct (0 <? size m)%nat; done).
    constructor; cbn [rt_registered rt_conns rt_subs nextConnID connections r_metrics set_connections];
      rewrite <-?(Hcn _ eq_refl).
    + by destruct (0 <? size m)%nat.
    + intros c'. destruct (decide (c' = c)) as [->|]; [by rewrite !lookup_delete_eq|by rewrite !lookup_delete_ne].
    + intros c' s. destruct (decide (c' = c)) as [->|Hne].
      * rewrite lookup_delete_eq. apply map_lookup_filter_None. right. simpl. tauto.
      * rewrite lookup_delete_ne by done. rewrite <-Hs.
        destruct (rt_subs t !! (c', s)) eqn:E'; [apply map_lookup_filter_Some; by split|].
        apply map_lookup_filter_None. by left.
    + intros mt Hmt. destruct (Nat.ltb_spec 0 (size m)) as [Hpos|Hzero].
      * apply gauge_add_metrics in Hmt as (m0 & ?%Hg & ->). lia.
      * apply Hg in Hmt. lia.
    + intros c' [x Hx%lookup_delete_Some]. apply Hnames. naive_solver.
  - destruct t as [n cs subs]. cbn [rt_registered rt_conns rt_subs] in *.
    rewrite delete_id by done. rewrite map_filter_id; [by constructor|].
    intros [c' s] fs Hin. simpl. intros ->. by rewrite Hs, E in Hin.
Qed.

Lemma Subscribe_represents r t c s fs :
  represents r t -> represents (Subscribe r c s fs) (table_op t (OpSubscribe c s fs)).
Proof.
  intros Hrep. pose proof (rep_conns_some r t c Hrep) as Hsome.
  destruct Hrep as [Hn Hc Hs Hg Hnames]. unfold Subscribe. cbn [table_op].
  pose proof (Hc c) as Hcc. destruct (connections r !! c) as [conn|] eqn:E; simpl in Hcc.
  2: { rewrite decide_False; [by constructor|]. rewrite Hsome. by intros [? ?]. }
  rewrite decide_True by (apply Hsome; eauto).
  set (r1 := set_subscriptions r c conn (<[s:=fs]> (subscriptions conn))).
  set (existed := bool_decide (is_Some (subscriptions conn !! s))).
  assert (Hcn : connections (if existed then r1 else gauge_add r1 1) = connections r1) by (by destruct existed).
  assert (Hsz : Z.of_nat (size (<[(c, s):=fs]> (rt_subs t))) =
                Z.of_nat (size (rt_subs t)) + if existed then 0 else 1).
  { unfold existed. pose proof (Hs c s) as Hcs. rewrite E in Hcs. simpl in Hcs.
    rewrite map_size_insert, Hcs. destruct (subscriptions conn !! s); simpl; lia. }
  constructor; cbn [rt_registered rt_conns rt_subs]; rewrite ?Hcn; unfold r1; cbn [set_subscriptions connections set_connections].
  - by destruct existed.
  - intros c'. destruct (decide (c' = c)) as [->|]; [by rewrite lookup_insert_eq, Hc, E|].
    by rewrite lookup_insert_ne.
  - intros c' s'. destruct (decide (c' = c)) as [->|Hne].
    + rewrite lookup_insert_eq. simpl. destruct (decide (s' = s)) as [->|Hns].
      * by rewrite !lookup_insert_eq.
      * rewrite !lookup_insert_ne by naive_solver. by rewrite Hs, E.
    + rewrite !lookup_insert_ne by naive_solver. apply Hs.
  - intros m Hm. rewrite Hsz. destruct existed; [apply Hg in Hm; lia|].
    apply gauge_add_metrics in Hm as (m0 & ?%Hg & ->). lia.
  - intros c'. destruct (decide (c' = c)) as [->|].
    + intros _. apply Hnames. eauto.
    + rewrite lookup_insert_ne by done. apply Hnames.
Qed.

Lemma Unsubscribe_represents r t c s :
  represents r t -> represents (Unsubscribe r c s) (table_op t (OpUnsubscribe c s)).
Proof.
  intros Hrep. pose proof Hrep as [Hn Hc Hs Hg Hnames]. unfold Unsubscribe. cbn [table_op].
  assert (Hid : rt_subs t !! (c, s) = None ->
                represents r (mkRouterTable (rt_registered t) (rt_conns t) (delete (c, s) (rt_subs t)))).
  { intros Hnone. rewrite delete_id by done. by destruct t. }
  pose proof (Hc c) as Hcc. pose proof (Hs c s) as Hcs.
  destruct (connections r !! c) as [conn|] eqn:E; simpl in Hcc, Hcs; [|by apply Hid].
  case_bool_decide as Hex; [|by apply Hid; rewrite Hcs; apply eq_None_not_Some].
  constructor; cbn [rt_registered rt_conns rt_subs gauge_add set_subscriptions set_connections
                    nextConnID connections].
  - done.
  - intros c'. destruct (decide (c' = c)) as [->|]; [by rewrite lookup_insert_eq, Hc, E|].
    by rewrite lookup_insert_ne.
  - intros c' s'. destruct (decide (c' = c)) as [->|Hne].
    + rewrite lookup_insert_eq. simpl. destruct (decide (s' = s)) as [->|Hns].
      * by rewrite !lookup_delete_eq.
      * rewrite !lookup_delete_ne by naive_solver. by rewrite Hs, E.
    + rewrite lookup_delete_ne by naive_solver. rewrite lookup_insert_ne by done. apply Hs.
  - intros m Hm. apply gauge_add_metrics in Hm as (m0 & Hm0%Hg & ->).
    rewrite map_size_delete, Hcs. destruct Hex as [x Hx]. rewrite Hx, Hm0.
    assert (size (rt_subs t) <> 0)%nat; [|lia].
    intros Hz%map_size_empty_inv. by rewrite Hz, lookup_empty, Hx in Hcs.
  - intros c'. destruct (decide (c' = c)) as [->|].
    + intros _. apply Hnames. eauto.
    + rewrite lookup_insert_ne by done. apply Hnames.
Qed.

(** ** Broadcasting *)

(** The rows the event is tried for, in the order of the visit. *)
Definition sub_matches (conn : routerConnection) (event : Event) (s : string) : bool :=
  matchesAny (default [] (subscriptions conn !! s)) event.

Definition conn_attempts (env : BroadcastEnv) (r : Router) (event : Event) (c : string)
    : list (string * string) :=
  match connections r !! c with
  | Some conn =>
      (fun s => (c, s)) <$> List.filter (sub_matches conn event) (map_range (be_subs env c) (subscriptions conn))
  | None => []
  end.

Definition attempts (env : BroadcastEnv) (r : Router) (event : Event) : list (string * string) :=
  mjoin (conn_attempts env r event <$> map_range (be_conns env) (connections r)).

Definition has_room (env : BroadcastEnv) (a : string * string) : bool := be_room env (fst a) (snd a).

Definition channel_of (r : Router) (c : string) : nat :=
  match connections r !! c with Some conn => rc_sendCh conn | None => 0%nat end.

Definition delivery (r : Router) (event : Event) (a : string * string) : nat * ServerMsg :=
  (channel_of r (fst a), NewServerEventMsg (snd a) (Some event)).

Definition delivered (env : BroadcastEnv) (r : Router) (event : Event) (l : list (string * string))
    : list (nat * ServerMsg) :=
  delivery r event <$> List.filter (has_room env) l.

Definition refused (env : BroadcastEnv) (l : list (string * string)) : Z :=
  Z.of_nat (length (List.filter (fun a => negb (has_room env a)) l)).

(** The only trace a broadcast leaves in the router. *)
Definition add_dropped (r : Router) (n : Z) : Router :=
  mkRouter (nextConnID r) (connections r)
    ((fun m => mkRouterMetrics (MessagesDropped m + n) (SubscriptionsCurrent m)) <$> r_metrics r).

Lemma add_dropped_0 r : add_dropped r 0 = r.
Proof.
  destruct r as [n cs [[d g]|]]; unfold add_dropped; simpl; [|done]. by rewrite Z.add_0_r.
Qed.

Lemma add_dropped_add r n m : add_dropped (add_dropped r n) m = add_dropped r (n + m).
Proof. destruct r as [? ? [[d g]|]]; unfold add_dropped; simpl; [|done]. by rewrite Z.add_assoc. Qed.

Lemma refused_app env l1 l2 : refused env (l1 ++ l2) = refused env l1 + refused env l2.
Proof. unfold refused. rewrite List.filter_app, length_app. lia. Qed.

Lemma delivered_app env r event l1 l2 :
  delivered env r event (l1 ++ l2) = delivered env r event l1 ++ delivered env r event l2.
Proof. unfold delivered. by rewrite List.filter_app, fmap_app. Qed.

Lemma refused_cons env a l : refused env (a :: l) = (if has_room env a then 0 else 1) + refused env l.
Proof. unfold refused. cbn [List.filter]. destruct (has_room env a); cbn [negb length]; lia. Qed.

Lemma delivered_cons env r event a l :
  delivered env r event (a :: l) =
  (if has_room env a then [delivery r event a] else []) ++ delivered env r event l.
Proof. unfold delivered. cbn [List.filter]. by destruct (has_room env a). Qed.

Lemma broadcast_subs_spec env event r0 c conn subs d sent :
  connections r0 !! c = Some conn ->
  broadcast_subs env event c conn subs (add_dropped r0 d, sent) =
  let l := (fun s => (c, s)) <$> List.filter (sub_matches conn event) subs in
  (add_dropped r0 (d + refused env l), sent ++ delivered env r0 event l).
Proof.
  intros Hc. revert d sent. induction subs as [|s subs IH]; intros d sent.
  { simpl. unfold refused, delivered. simpl. by rewrite Z.add_0_r, app_nil_r. }
  cbn [broadcast_subs List.filter].
  change (matchesAny (default [] (subscriptions conn !! s)) event) with (sub_matches conn event s).
  destruct (sub_matches conn event s); [|apply IH].
  cbv zeta. rewrite fmap_cons. rewrite (refused_cons _ (c, s)), (delivered_cons _ _ _ (c, s)).
  unfold has_room. cbn [fst snd].
  destruct (be_room env c s) eqn:Hroom.
  - rewrite IH. cbv zeta. rewrite <-app_assoc. unfold delivery, channel_of. cbn [fst snd]. by rewrite Hc.
  - change (inc_dropped (add_dropped r0 d)) with (add_dropped (add_dropped r0 d) 1).
    rewrite add_dropped_add, IH. cbv zeta. by rewrite Z.add_assoc.
Qed.

Lemma broadcast_conns_spec env event r0 ids d sent :
  broadcast_conns env event ids (add_dropped r0 d, sent) =
  let l := mjoin (conn_attempts env r0 event <$> ids) in
  (add_dropped r0 (d + refused env l), sent ++ delivered env r0 event l).
Proof.
  revert d sent. induction ids as [|c ids IH]; intros d sent.
  { simpl. unfold refused, delivered. simpl. by rewrite Z.add_0_r, app_nil_r. }
  cbn [broadcast_conns fst]. rewrite fmap_cons. cbv zeta. cbn [mjoin list_join].
  rewrite refused_app, delivered_app. unfold conn_attempts at 1 3.
  change (connections (add_dropped r0 d)) with (connections r0).
  destruct (connections r0 !! c) as [conn|] eqn:E.
  - rewrite (broadcast_subs_spec _ _ r0) by done. cbv zeta. rewrite IH. cbv zeta.
    by rewrite Z.add_assoc, <-app_assoc.
  - rewrite IH. cbv zeta. unfold refused at 2, delivered at 2. simpl. done.
Qed.

Lemma Broadcast_eq env r event :
  Broadcast env r event =
  (add_dropped r (refused env (attempts env r event)), delivered env r event (attempts env r event)).
Proof. unfold Broadcast. rewrite <-(add_dropped_0 r) at 2. by rewrite broadcast_conns_spec. Qed.

Lemma elem_of_attempts env r event c s :
  (c, s) ∈ attempts env r event <->
  exists conn fs f, connections r !! c = Some conn /\ subscriptions conn !! s = Some fs /\
                    f ∈ fs /\ matches f event.
Proof.
  unfold attempts. rewrite list_elem_of_join. setoid_rewrite list_elem_of_fmap. split.
  - intros (l & Hin & c' & -> & Hc'). unfold conn_attempts in Hin.
    destruct (connections r !! c') as [conn|] eqn:E; [|by apply not_elem_of_nil in Hin].
    apply list_elem_of_fmap in Hin as (s' & [= <- <-] & Hin).
    apply list_elem_of_In, filter_In in Hin as [Hs Hm].
    apply list_elem_of_In, elem_of_map_range in Hs as [fs Hfs].
    unfold sub_matches in Hm. rewrite Hfs in Hm. simpl in Hm. apply matchesAny_spec in Hm as (f & ? & ?).
    by exists conn, fs, f.
  - intros (conn & fs & f & Hc & Hs & Hf & Hm). exists (conn_attempts env r event c). split.
    + unfold conn_attempts. rewrite Hc. apply list_elem_of_fmap. exists s. split; [done|].
      apply list_elem_of_In, filter_In. split.
      * apply list_elem_of_In, elem_of_map_range. eauto.
      * unfold sub_matches. rewrite Hs. simpl. apply matchesAny_spec. eauto.
    + exists c. split; [done|]. apply elem_of_map_range. eauto.
Qed.

Lemma conn_attempts_fst env r event c a : a ∈ conn_attempts env r event c -> fst a = c.
Proof.
  unfold conn_attempts. destruct (connections r !! c); [|by intros ?%not_elem_of_nil].
  by intros (s & -> & _)%list_elem_of_fmap.
Qed.

Lemma conn_attempts_NoDup env r event c : NoDup (conn_attempts env r event c).
Proof.
  unfold conn_attempts. destruct (connections r !! c) as [conn|]; [|constructor].
  apply NoDup_fmap_2; [intros ? ? [=]; done|]. apply NoDup_ListNoDup, List.NoDup_filter, NoDup_ListNoDup, map_range_NoDup.
Qed.

Lemma attempts_NoDup env r event : NoDup (attempts env r event).
Proof.
  unfold attempts. generalize (map_range_NoDup (be_conns env) (connections r)).
  induction (map_range _ _) as [|c l IH]; intros Hnd; [constructor|].
  apply NoDup_cons in Hnd as [Hc Hl]. rewrite fmap_cons. simpl. apply NoDup_app. split; [apply conn_attempts_NoDup|].
  split; [|by apply IH]. intros a Ha%conn_attempts_fst.
  rewrite list_elem_of_join. intros (l' & Ha' & (c' & -> & Hc')%list_elem_of_fmap).
  apply conn_attempts_fst in Ha'. congruence.
Qed.

(** ** Runs *)

Lemma add_dropped_represents r t n : represents r t -> represents (add_dropped r n) t.
Proof.
  intros [Hn Hc Hs Hg Hnames]. constructor; try done.
  intros m. unfold add_dropped. cbn [r_metrics]. destruct (r_metrics r) as [m0|]; simpl; [|done].
  intros [= <-]. exact (Hg m0 eq_refl).
Qed.

Lemma empty_represents reg : represents (NewRouter reg) empty_table.
Proof.
  constructor; simpl; [done| | | |].
  - intros c. by rewrite !lookup_empty.
  - intros c s. by rewrite !lookup_empty.
  - intros m. destruct reg; [|done]. by intros [= <-].
  - intros c. rewrite lookup_empty. by intros [? ?].
Qed.

Lemma registrations_cons o ops :
  registrations (o :: ops) = ((if is_register o then 1 else 0) + registrations ops)%nat.
Proof. unfold registrations. cbn [List.filter]. by destruct (is_register o). Qed.

Lemma table_op_registered t o :
  rt_registered (table_op t o) = (rt_registered t + if is_register o then 1 else 0)%nat.
Proof. destruct o; simpl; try lia. by case_decide; simpl; lia. Qed.

Lemma router_op_represents r t o :
  represents r t -> Z.of_nat (rt_registered t + if is_register o then 1 else 0) < two64 ->
  exists r' sent, represents r' (table_op t o) /\
    router_op r o = Ok (r', if is_register o then Some (conn_name (S (rt_registered t))) else None, sent).
Proof.
  intros Hrep Hlt. destruct o as [ch|c|c s fs|c s|env ev]; cbn [is_register] in *.
  - destruct (Register_represents r t ch) as (r' & Heq & Hr'); [done|int_lia|].
    exists r', []. split; [done|]. cbn [router_op]. by rewrite Heq.
  - eexists _, _. split; [by apply Unregister_represents|done].
  - eexists _, _. split; [by apply Subscribe_represents|done].
  - eexists _, _. split; [by apply Unsubscribe_represents|done].
  - cbn [router_op]. rewrite Broadcast_eq. eexists _, _.
    split; [by apply add_dropped_represents|done].
Qed.

Lemma router_ops_represents r t ops :
  represents r t -> Z.of_nat (rt_registered t + registrations ops) < two64 ->
  exists r' sent, represents r' (foldl table_op t ops) /\
    router_ops r ops = Ok (r', conn_name <$> seq (S (rt_registered t)) (registrations ops), sent).
Proof.
  revert r t. induction ops as [|o ops IH]; intros r t Hrep Hlt.
  { exists r, []. by split. }
  rewrite registrations_cons in Hlt.
  destruct (router_op_represents r t o) as (r1 & sent1 & Hrep1 & Heq1); [done|int_lia|].
  destruct (IH r1 (table_op t o)) as (r2 & sent2 & Hrep2 & Heq2); [done| |].
  { rewrite table_op_registered. int_lia. }
  exists r2, (sent1 ++ sent2). split; [done|]. cbn [router_ops].
  rewrite Heq1. cbn [mbind Res_bind]. rewrite Heq2. cbn [mbind Res_bind mret Res_ret].
  rewrite table_op_registered, registrations_cons. do 3 f_equal.
  destruct (is_register o); cbn [option_list app Nat.add].
  - cbn [seq]. rewrite fmap_cons. by replace (rt_registered t + 1)%nat with (S (rt_registered t)) by lia.
  - by replace (rt_registered t + 0)%nat with (rt_registered t) by lia.
Qed.

(** What a broadcast does, in terms of the table. *)
Lemma Broadcast_table env r t event :
  represents r t ->
  let '(r', sent) := Broadcast env r event in
  represents r' t /\ connections r' = connections r /\
  exists tried : list (string * string),
    NoDup tried /\
    (forall c s, (c, s) ∈ tried <->
       exists fs f, rt_subs t !! (c, s) = Some fs /\ f ∈ fs /\ matches f event) /\
    sent = (fun a => (default 0%nat (rt_conns t !! fst a), NewServerEventMsg (snd a) (Some event)))
             <$> List.filter (has_room env) tried /\
    (forall m, r_metrics r = Some m ->
       r_metrics r' = Some (mkRouterMetrics (MessagesDropped m + refused env tried) (SubscriptionsCurrent m))).
Proof.
  intros Hrep. rewrite Broadcast_eq. split; [by apply add_dropped_represents|]. split; [done|].
  exists (attempts env r event). split; [apply attempts_NoDup|]. split; [|split].
  - intros c s. rewrite elem_of_attempts. rewrite (rep_subs _ _ Hrep). split.
    + intros (conn & fs & f & Hc & Hs & Hf & Hm). rewrite Hc. simpl. eauto.
    + intros (fs & f & Hs & Hf & Hm). apply bind_Some in Hs as (conn & Hc & Hs). naive_solver.
  - unfold delivered. apply list_fmap_ext. intros _ [c s] _. unfold delivery, channel_of. cbn [fst snd].
    rewrite (rep_conns _ _ Hrep). by destruct (connections r !! c).
  - intros m Hm. unfold add_dropped. cbn [r_metrics]. by rewrite Hm.
Qed.

(** ** Properties *)

(** C35: whatever the sequence of calls on a new router, up to 2^64 registrations,
    none panics, the connection names handed out are pairwise distinct, and the
    router holds exactly the abstract table of the calls: a subscription is there
    iff its latest registration was neither unsubscribed nor its connection
    unregistered, with the filters given last; the subscriptions gauge equals the
    number of rows, so replacing a subscription makes it neither drift up nor
    down. *)
Theorem router_refines_table (reg : bool) (ops : list RouterOp) :
  Z.of_nat (registrations ops) < two64 ->
  exists r ids sent,
    router_ops (NewRouter reg) ops = Ok (r, ids, sent) /\
    represents r (foldl table_op empty_table ops) /\
    length ids = registrations ops /\ NoDup ids.
Proof.
  intros Hlt. destruct (router_ops_represents (NewRouter reg) empty_table ops) as (r & sent & Hrep & Heq).
  - apply empty_represents.
  - done.
  - exists r, (conn_name <$> seq 1 (registrations ops)), sent. split; [done|]. split; [done|]. split.
    + by rewrite length_fmap, length_seq.
    + apply NoDup_fmap_2; [intros ? ?; apply conn_name_inj|]. apply NoDup_seq.
Qed.

(** A broadcast on a reachable router tries each open subscription one of whose
    filters matches the event exactly once and no other: whatever the order the
    maps are visited in, the channel of the subscription's connection gets one
    EVENT message naming that subscription if it has room then, and otherwise the
    message is dropped and the drop counter, the only part of the router that
    changes, goes up by one. *)
Theorem broadcast_exactly_once (reg : bool) (ops : list RouterOp) (r : Router) ids sent0 env event :
  Z.of_nat (registrations ops) < two64 ->
  router_ops (NewRouter reg) ops = Ok (r, ids, sent0) ->
  let t := foldl table_op empty_table ops in
  let '(r', sent) := Broadcast env r event in
  represents r' t /\ connections r' = connections r /\
  exists tried : list (string * string),
    NoDup tried /\
    (forall c s, (c, s) ∈ tried <->
       exists fs f, rt_subs t !! (c, s) = Some fs /\ f ∈ fs /\ matches f event) /\
    sent = (fun a => (default 0%nat (rt_conns t !! fst a), NewServerEventMsg (snd a) (Some event)))
             <$> List.filter (has_room env) tried /\
    (forall m, r_metrics r = Some m ->
       r_metrics r' = Some (mkRouterMetrics (MessagesDropped m + refused env tried) (SubscriptionsCurrent m))).
Proof.
  intros Hlt Hops. cbv zeta. apply Broadcast_table.
  destruct (router_ops_represents (NewRouter reg) empty_table ops) as (r0 & s0 & Hrep & Heq); [|done|].
  - apply empty_represents.
  - rewrite Heq in Hops. by injection Hops as -> _ _.
Qed.

(** ** Witnesses *)

Module Samples.
Definition any : ReqFilter := mkReqFilter None None None ∅ None None None None.
Definition kind7 : ReqFilter := mkReqFilter None None (Some [7]) ∅ None None None None.
Definition note : Event := mkEvent "n1" "alice" (time_Unix 10) 1 (Some []) "hi" "".
Definition ops : list RouterOp :=
  [OpRegister 10; OpRegister 20; OpSubscribe "conn-1" "a" [kind7; any]; OpSubscribe "conn-2" "b" [kind7];
   OpSubscribe "conn-2" "c" [any]; OpSubscribe "conn-2" "c" [any]; OpUnsubscribe "conn-2" "nope"].
Definition env : BroadcastEnv := mkBroadcastEnv range_reversed (fun _ => range_in_order) (fun c _ => String.eqb c "conn-1").
End Samples.

Definition sample_router : Router :=
  match router_ops (NewRouter true) Samples.ops with Ok (r, _, _) => r | _ => NewRouter true end.

Example broadcast_run :
  snd (Broadcast Samples.env sample_router Samples.note) =
    [(10%nat, NewServerEventMsg "a" (Some Samples.note))] /\
  r_metrics (fst (Broadcast Samples.env sample_router Samples.note)) = Some (mkRouterMetrics 1 3).
Proof. split; vm_compute; reflexivity. Qed.

Lemma router_refines_table_witness :
  exists r ids sent,
    router_ops (NewRouter true) Samples.ops = Ok (r, ids, sent) /\
    represents r (foldl table_op empty_table Samples.ops) /\
    length ids = registrations Samples.ops /\ NoDup ids.
Proof. apply (router_refines_table true Samples.ops). vm_compute. reflexivity. Defined.

Lemma broadcast_exactly_once_witness :
  let '(r', sent) := Broadcast Samples.env sample_router Samples.note in
  connections r' = connections sample_router.
Proof.
  pose proof (broadcast_exactly_once true Samples.ops sample_router ["conn-1"; "conn-2"]%string []
    Samples.env Samples.note) as H.
  specialize (H ltac:(vm_compute; reflexivity) ltac:(vm_compute; reflexivity)).
  destruct (Broadcast Samples.env sample_router Samples.note) as [r' sent]. apply H.
Defined.
