(* ===== verification/Drain.v ===== *)
(** * Handlers behind a receive queue (handler.go, storage_handler.go)

    The simple handler and the storage handler share a shape: a goroutine drains
    the receive channel into a bounded queue while the main loop takes messages
    from it and sends the responses.  It is modelled once, as a step function
    over the choices of the two goroutines, for any way of handling a message.
    The theorems say that nothing is lost or reordered, that what is sent is what
    handling the messages one by one gives, and that a main loop blocked on a
    send does not stop the receive channel from being drained. *)

From S2P Require Import Prelude GoTime Event Filter Message.

(** [simpleHandlerMsgQueueBuffer] and [storageHandlerMsgQueueBuffer]. *)
Definition simpleHandlerMsgQueueBuffer : nat := 10.
Definition storageHandlerMsgQueueBuffer : nat := 10.

(** How a handler's main loop ends. *)
Inductive HandlerExit : Type :=
| ExitNil
| ExitCtx
| ExitErr (e : string).

#[export] Instance HandlerExit_eq_dec : EqDecision HandlerExit.
Proof. solve_decision. Defined.

Section Drain.

(** [handle env s msg]: the new state, the messages sent in order, and the
    error the loop returns with after sending them, if any. *)
Context {Env St : Type}.
Context (handle : Env -> St -> ClientMsg -> St * list ServerMsg * option string).

(** [d_received], [d_handled] and [d_sent] log what has happened; [d_hand] is the
    message the draining goroutine holds between its two selects. *)
Record Served : Type := mkServed {
  d_state : St;
  d_ctxDone : bool;
  d_hand : option ClientMsg;
  d_queue : list ClientMsg;
  d_queueClosed : bool;
  d_outgoing : list ServerMsg;
  d_pending : option string;
  d_exit : option HandlerExit;
  d_received : list ClientMsg;
  d_handled : list (Env * ClientMsg);
  d_sent : list ServerMsg
}.

Definition start_serving (s : St) : Served :=
  mkServed s false None [] false [] None None [] [] [].

Inductive DrainEvent : Type :=
| CtxCancel
| DrainRecv (msg : ClientMsg)
| DrainPut
| DrainEOF
| DrainStop
| MainTake (env : Env)
| MainSend
| MainCtx
| MainEOF.

(** The main loop is at its select, when it has nothing left to send. *)
Definition at_select (d : Served) : bool :=
  match d_exit d, d_pending d, d_outgoing d with None, None, [] => true | _, _, _ => false end.

(** Finishing a message whose responses are all sent. *)
Definition settle (d : Served) : Served :=
  match d_outgoing d, d_pending d with
  | [], Some e =>
      mkServed (d_state d) (d_ctxDone d) (d_hand d) (d_queue d) (d_queueClosed d) [] None (Some (ExitErr e))
        (d_received d) (d_handled d) (d_sent d)
  | _, _ => d
  end.

(** One step of either goroutine; [None] when it is not possible.  Leaving the
    main loop cancels the draining goroutine's context. *)
Definition drain_step (d : Served) (e : DrainEvent) : option Served :=
  let '(mkServed s ctx hand q closed out pend ex recvd handled sent) := d in
  match e with
  | CtxCancel => Some (mkServed s true hand q closed out pend ex recvd handled sent)
  | DrainRecv msg =>
      match hand, closed with
      | None, false => Some (mkServed s ctx (Some msg) q closed out pend ex (recvd ++ [msg]) handled sent)
      | _, _ => None
      end
  | DrainPut =>
      match hand, closed with
      | Some msg, false =>
          if (length q <? simpleHandlerMsgQueueBuffer)%nat
          then Some (mkServed s ctx None (q ++ [msg]) closed out pend ex recvd handled sent)
          else None
      | _, _ => None
      end
  | DrainEOF =>
      match hand, closed with
      | None, false => Some (mkServed s ctx None q true out pend ex recvd handled sent)
      | _, _ => None
      end
  | DrainStop =>
      if (ctx || bool_decide (is_Some ex)) && negb closed
      then Some (mkServed s ctx hand q true out pend ex recvd handled sent) else None
  | MainTake env =>
      if at_select d then
        match q with
        | msg :: q =>
            let '(s, out, pend) := handle env s msg in
            Some (settle (mkServed s ctx hand q closed out pend ex recvd (handled ++ [(env, msg)]) sent))
        | [] => None
        end
      else None
  | MainSend =>
      match ex, out with
      | None, m :: out =>
          Some (settle (mkServed s ctx hand q closed out pend ex recvd handled (sent ++ [m])))
      | _, _ => None
      end
  | MainCtx =>
      match ex with
      | None => if ctx then Some (mkServed s ctx hand q closed out pend (Some ExitCtx) recvd handled sent) else None
      | Some _ => None
      end
  | MainEOF =>
      if at_select d then
        match q, closed with
        | [], true => Some (mkServed s ctx hand q closed out pend (Some ExitNil) recvd handled sent)
        | _, _ => None
        end
      else None
  end.

Fixpoint drain_run (d : Served) (es : list DrainEvent) : option Served :=
  match es with
  | [] => Some d
  | e :: es => match drain_step d e with Some d => drain_run d es | None => None end
  end.

(** ** One by one *)

(** Handling the messages in sequence, until one of them ends the loop. *)
Fixpoint one_by_one (s : St) (msgs : list (Env * ClientMsg)) : St * list ServerMsg * option string :=
  match msgs with
  | [] => (s, [], None)
  | (env, msg) :: msgs =>
      match handle env s msg with
      | (s, out, Some x) => (s, out, Some x)
      | (s, out, None) => let '(s, out', x) := one_by_one s msgs in (s, out ++ out', x)
      end
  end.

Lemma one_by_one_snoc s msgs env msg s1 out1 :
  one_by_one s msgs = (s1, out1, None) ->
  one_by_one s (msgs ++ [(env, msg)]) =
  let '(s2, out2, x) := handle env s1 msg in (s2, out1 ++ out2, x).
Proof.
  revert s out1. induction msgs as [|[env' msg'] msgs IH]; intros s out1; simpl.
  - intros [= -> <-]. destruct (handle env s1 msg) as [[s2 out2] [x|]]; [done|]. by rewrite !app_nil_r.
  - destruct (handle env' s msg') as [[s' out'] [x|]]; [done|].
    destruct (one_by_one s' msgs) as [[s'' out''] x''] eqn:E. intros [= -> <- ->].
    rewrite (IH s' out'') by done. destruct (handle env s1 msg) as [[s2 out2] x2]. by rewrite app_assoc.
Qed.

(** The invariant: the messages received are those handled, those queued and the
    one in hand; what was sent, with what is left to send, is the result of
    handling them one by one. *)
Record drain_inv (s0 : St) (d : Served) : Prop := {
  di_fifo : d_received d = (snd <$> d_handled d) ++ d_queue d ++ option_list (d_hand d);
  di_room : (length (d_queue d) <= simpleHandlerMsgQueueBuffer)%nat;
  di_work : exists x, one_by_one s0 (d_handled d) = (d_state d, d_sent d ++ d_outgoing d, x) /\
    match d_exit d with
    | None => d_pending d = x
    | Some ExitNil => x = None /\ d_outgoing d = []
    | Some (ExitErr e) => x = Some e /\ d_outgoing d = []
    | Some ExitCtx => d_ctxDone d = true
    end;
  di_quiet : d_exit d = None -> d_outgoing d = [] -> d_pending d = None;
  di_hand : d_queueClosed d = true -> d_ctxDone d = false -> d_exit d = None -> d_hand d = None;
  di_end : d_exit d = Some ExitNil ->
    d_queueClosed d = true /\ d_queue d = [] /\ (d_ctxDone d = false -> d_hand d = None)
}.

Lemma start_inv s : drain_inv s (start_serving s).
Proof. constructor; simpl; try done; [lia|]. by exists None. Qed.

Lemma at_select_true d : at_select d = true ->
  d_exit d = None /\ d_pending d = None /\ d_outgoing d = [].
Proof. unfold at_select. by destruct (d_exit d), (d_pending d), (d_outgoing d). Qed.

(** Settling keeps the invariant but for the quiescence clause, which it
    restores. *)
Lemma settle_inv s0 d :
  d_exit d = None ->
  d_received d = (snd <$> d_handled d) ++ d_queue d ++ option_list (d_hand d) ->
  (length (d_queue d) <= simpleHandlerMsgQueueBuffer)%nat ->
  one_by_one s0 (d_handled d) = (d_state d, d_sent d ++ d_outgoing d, d_pending d) ->
  (d_queueClosed d = true -> d_ctxDone d = false -> d_hand d = None) ->
  drain_inv s0 (settle d).
Proof.
  destruct d as [s ctx hand q closed out pend ex recvd handled sent]. cbn. intros -> Hf Hr Hw Hh.
  destruct out as [|m out]; [destruct pend as [e|]|]; constructor; cbn; try done; eauto.
Qed.

Lemma drain_step_inv s0 d e d' : drain_inv s0 d -> drain_step d e = Some d' -> drain_inv s0 d'.
Proof.
  intros [Hf Hr Hw Hq Hh He].
  destruct d as [s ctx hand q closed out pend ex recvd handled sent]. cbn in Hf, Hr, Hw, Hq, Hh, He.
  destruct e; cbn [drain_step]; intros Hstep.
  - injection Hstep as <-. constructor; cbn; try done; [|naive_solver].
    destruct Hw as (x & Hx & Hex). exists x. split; [done|]. by destruct ex as [[]|].
  - destruct hand, closed; try done. injection Hstep as <-. constructor; cbn; try done; [|naive_solver].
    rewrite Hf. cbn. by rewrite app_nil_r, app_assoc.
  - destruct hand as [msg|], closed; try done.
    destruct (Nat.ltb_spec (length q) simpleHandlerMsgQueueBuffer); [|done].
    injection Hstep as <-. constructor; cbn; try done; [| |naive_solver].
    + rewrite Hf. cbn. by rewrite app_nil_r.
    + rewrite length_app. simpl. lia.
  - destruct hand, closed; try done. injection Hstep as <-. constructor; cbn; try done. naive_solver.
  - destruct closed; [by rewrite andb_false_r in Hstep|].
    destruct (ctx || bool_decide (is_Some ex)) eqn:Hs; [|done]. injection Hstep as <-.
    constructor; cbn; try done.
    + intros _ -> ->. done.
    + intros Hx. destruct (He Hx) as [? _]. done.
  - destruct (at_select _) eqn:Hsel; [|done]. apply at_select_true in Hsel as (Hex & Hp & Ho).
    cbn in Hex, Hp, Ho. subst ex pend out. destruct q as [|msg q]; [done|].
    destruct Hw as (x & Hx & <-). destruct (handle env s msg) as [[s2 out2] x2] eqn:Hhandle.
    injection Hstep as <-. apply settle_inv; cbn; [done| |simpl in Hr; lia| |auto].
    + rewrite Hf, fmap_app. simpl. by rewrite <-app_assoc.
    + rewrite app_nil_r in Hx. rewrite (one_by_one_snoc _ _ _ _ _ _ Hx), Hhandle. done.
  - destruct ex, out as [|m out]; try done. injection Hstep as <-. destruct Hw as (x & Hx & <-).
    apply settle_inv; cbn; try done; [by rewrite <-app_assoc|auto].
  - destruct ex, ctx; try done. injection Hstep as <-. constructor; cbn; try done.
    destruct Hw as (x & Hx & _). eauto.
  - destruct (at_select _) eqn:Hsel; [|done]. apply at_select_true in Hsel as (Hex & Hp & Ho).
    cbn in Hex, Hp, Ho. subst ex pend out. destruct q, closed; try done. injection Hstep as <-.
    destruct Hw as (x & Hx & <-). constructor; cbn; try done; [eauto|auto].
Qed.

(** What a step adds to the logs, whatever the state it works on. *)
Definition received_by (e : DrainEvent) : list ClientMsg := match e with DrainRecv m => [m] | _ => [] end.

Definition in_order (d : Served) : Prop := d_received d = (snd <$> d_handled d) ++ d_queue d ++ option_list (d_hand d).

Lemma drain_step_log d e d' : drain_step d e = Some d' -> in_order d ->
  in_order d' /\ d_received d' = d_received d ++ received_by e /\
  d_sent d' = d_sent d ++ match e with MainSend => option_list (head (d_outgoing d)) | _ => [] end /\
  match e with
  | MainTake env => exists msg out x, handle env (d_state d) msg = (d_state d', out, x) /\
      d_handled d' = d_handled d ++ [(env, msg)] /\ d_sent d' ++ d_outgoing d' = (d_sent d ++ d_outgoing d) ++ out
  | _ => d_state d' = d_state d /\ d_handled d' = d_handled d /\ d_sent d' ++ d_outgoing d' = d_sent d ++ d_outgoing d
  end.
Proof.
  unfold in_order. destruct d as [s ctx hand q closed out pend ex recvd handled sent], e; cbn -[settle]; intros Hstep Hf.
  all: rewrite ?app_nil_r.
  - by injection Hstep as <-.
  - destruct hand, closed; try done. injection Hstep as <-. cbn in *. split_and!; try done. by rewrite Hf, app_nil_r, <-app_assoc.
  - destruct hand as [m|], closed; try done. case_match; [|done]. injection Hstep as <-. cbn in *. rewrite Hf. cbn.
    by rewrite app_nil_r.
  - destruct hand, closed; try done. by injection Hstep as <-.
  - case_match; [|done]. by injection Hstep as <-.
  - destruct (at_select _) eqn:Hsel; [|done]. apply at_select_true in Hsel as (_ & _ & Ho). cbn in Ho. subst out.
    destruct q as [|msg q]; [done|]. destruct (handle env s msg) as [[s2 out2] x2] eqn:Hh. injection Hstep as <-.
    assert (Hs : forall d : Served, in_order (settle d) <-> in_order d).
    { intros d. unfold in_order, settle. by destruct (d_outgoing d), (d_pending d). }
    split; [apply Hs; unfold in_order; cbn; rewrite Hf, fmap_app; cbn; by rewrite <-app_assoc|].
    unfold settle. cbn. destruct out2, x2; cbn; (split_and!; [done..|]); eexists _, _, _; (split_and!; [exact Hh|done|by rewrite ?app_nil_r]).
  - destruct ex, out as [|m out]; try done. injection Hstep as <-. unfold settle. cbn in *.
    destruct out, pend; cbn in *; split_and!; try done; by rewrite <-?app_assoc.
  - destruct ex, ctx; try done. by injection Hstep as <-.
  - destruct (at_select _) eqn:Hsel; [|done]. destruct q, closed; try done. by injection Hstep as <-.
Qed.

(** What holds of the messages and of the state, and of what handling one sends. *)
Record keeps (P : ClientMsg -> Prop) (Q : ServerMsg -> Prop) (J : St -> Prop) (d : Served) : Prop := {
  kp_state : J (d_state d);
  kp_msgs : Forall P (d_queue d) /\ Forall P (option_list (d_hand d));
  kp_out : Forall Q (d_outgoing d)
}.

Lemma drain_step_keeps P Q J d e d' :
  (forall env s msg, J s -> P msg -> J (handle env s msg).1.1 /\ Forall Q (handle env s msg).1.2) ->
  keeps P Q J d -> Forall P (received_by e) -> drain_step d e = Some d' -> keeps P Q J d'.
Proof.
  intros Hhandle. destruct d as [s ctx hand q closed out pend ex recvd handled sent]. intros [Hs [Hq Hh] Ho] Hr. cbn in *.
  assert (Hsettle : forall d : Served, keeps P Q J d -> keeps P Q J (settle d)).
  { intros d Hd. unfold settle. destruct (d_outgoing d), (d_pending d); [|done..]. destruct Hd. by constructor. }
  destruct e; cbn [drain_step]; intros Hstep.
  - by injection Hstep as <-.
  - destruct hand, closed; try done. by injection Hstep as <-.
  - destruct hand as [m|], closed; try done. case_match; [|done]. injection Hstep as <-. constructor; cbn; try done.
    split; [by apply Forall_app_2|constructor].
  - destruct hand, closed; try done. by injection Hstep as <-.
  - case_match; [|done]. by injection Hstep as <-.
  - destruct (at_select _) eqn:Hsel; [|done]. apply at_select_true in Hsel as (_ & _ & Hout). cbn in Hout. subst out.
    destruct q as [|msg q]; [done|]. apply Forall_cons in Hq as [Hm Hq]. destruct (Hhandle env s msg Hs Hm) as [Hs2 Ho2].
    destruct (handle env s msg) as [[s2 out2] x2]. injection Hstep as <-. by apply Hsettle.
  - destruct ex, out as [|m out]; try done. injection Hstep as <-. apply Forall_cons in Ho as [_ Ho]. by apply Hsettle.
  - destruct ex, ctx; try done. by injection Hstep as <-.
  - destruct (at_select _) eqn:Hsel; [|done]. destruct q, closed; try done. by injection Hstep as <-.
Qed.

Lemma drain_run_inv s0 d es d' : drain_inv s0 d -> drain_run d es = Some d' -> drain_inv s0 d'.
Proof.
  revert d. induction es as [|e es IH]; intros d Hinv; cbn [drain_run]; [by intros [= <-]|].
  destruct (drain_step d e) as [d1|] eqn:E; [|done]. apply IH. by eapply drain_step_inv.
Qed.

(** ** Draining while the main loop is blocked *)

Definition drain_event (e : DrainEvent) : bool :=
  match e with DrainRecv _ | DrainPut => true | _ => false end.

Definition waiting (d : Served) : nat := (length (d_queue d) + length (option_list (d_hand d)))%nat.

Lemma drain_one d msg :
  d_queueClosed d = false -> (waiting d <= simpleHandlerMsgQueueBuffer)%nat ->
  exists es d', forallb drain_event es = true /\ drain_run d es = Some d' /\
    d_received d' = d_received d ++ [msg] /\ d_queueClosed d' = false /\
    waiting d' = S (waiting d) /\ d_outgoing d' = d_outgoing d /\ d_sent d' = d_sent d /\ d_exit d' = d_exit d.
Proof.
  destruct d as [s ctx hand q closed out pend ex recvd handled sent]. unfold waiting. cbn. intros -> Hw.
  destruct hand as [m|]; cbn in Hw.
  - exists [DrainPut; DrainRecv msg]. eexists. split; [done|]. split.
    { cbn [drain_run drain_step]. rewrite (proj2 (Nat.ltb_lt _ _)) by lia. reflexivity. }
    cbn. rewrite length_app. simpl. split_and!; try done. lia.
  - exists [DrainRecv msg]. eexists. split; [done|]. split; [reflexivity|]. cbn. split_and!; try done; lia.
Qed.

Lemma drain_run_app d es1 es2 d1 : drain_run d es1 = Some d1 -> drain_run d (es1 ++ es2) = drain_run d1 es2.
Proof.
  revert d. induction es1 as [|e es1 IH]; intros d; cbn [drain_run app]; [by intros [= ->]|].
  destruct (drain_step d e); [apply IH|done].
Qed.

Lemma drain_many d msgs :
  d_queueClosed d = false -> (waiting d + length msgs <= S simpleHandlerMsgQueueBuffer)%nat ->
  exists es d', forallb drain_event es = true /\ drain_run d es = Some d' /\
    d_received d' = d_received d ++ msgs /\ d_outgoing d' = d_outgoing d /\ d_sent d' = d_sent d /\
    d_exit d' = d_exit d.
Proof.
  revert d. induction msgs as [|msg msgs IH]; intros d Hc Hw.
  { exists [], d. by rewrite app_nil_r. }
  cbn [length] in Hw. destruct (drain_one d msg) as (es1 & d1 & He1 & Hr1 & Hrec1 & Hc1 & Hw1 & Ho1 & Hs1 & Hx1); [done|lia|].
  destruct (IH d1) as (es2 & d2 & He2 & Hr2 & Hrec2 & Ho2 & Hs2 & Hx2); [done|lia|].
  exists (es1 ++ es2), d2. rewrite forallb_app, He1, He2. split; [done|].
  rewrite (drain_run_app _ _ _ _ Hr1). rewrite Hrec2, Hrec1, <-app_assoc. split_and!; try done; congruence.
Qed.

End Drain.
