(* ===== verification/Handlers.v ===== *)
(** * The plain handlers (handler.go, nop_handler.go, router_handler.go)

    The nop handler, the router handler with several connections sharing one
    router, and the adapter that turns a [SimpleHandlerBase] into a handler.  The
    router handlers of a relay are shown to be nop handlers that also deliver
    each event to the open subscriptions it matches. *)

From S2P Require Import Prelude GoTime Text Event Filter Message Router Drain.

(** ** What a handler's select can find *)

(** [cut]: the context ends before the response is sent. *)
Inductive HandlerInput : Type :=
| InCtxDone
| InClosed
| InMsg (msg : ClientMsg) (cut : bool).

(** ** The nop handler *)

(** A blocking send of one response, and what ends the loop. *)
Definition send_or_exit (cut : bool) (m : ServerMsg) : list ServerMsg * option HandlerExit :=
  if cut then ([], Some ExitCtx) else ([m], None).

Definition nop_turn (i : HandlerInput) : list ServerMsg * option HandlerExit :=
  match i with
  | InCtxDone => ([], Some ExitCtx)
  | InClosed => ([], Some ExitNil)
  | InMsg msg cut =>
      if String.eqb (c_Type msg) MsgTypeEvent then
        match c_Event msg with
        | Some e => send_or_exit cut (NewServerOKMsg (ev_ID e) true "")
        | None => ([], None)
        end
      else if String.eqb (c_Type msg) MsgTypeReq then
        send_or_exit cut (NewServerEOSEMsg (c_SubscriptionID msg))
      else if String.eqb (c_Type msg) MsgTypeClose then ([], None)
      else if String.eqb (c_Type msg) MsgTypeCount then
        send_or_exit cut (NewServerCountMsg (c_SubscriptionID msg) 0 None)
      else ([], None)
  end.

(** ** The router handler *)

(** Where the loop of a router handler is: at its select; about to broadcast the
    event it has accepted; about to send the EOSE of the subscription it has set up;
    out of the loop.  Between two of these points the handlers of other connections
    run. *)
Inductive RouterAt : Type :=
| AtSelect
| ToBroadcast (ev : Event)
| ToSend (m : ServerMsg)
| AtExit.

(** The loop after a blocking send of one response. *)
Definition after_send (sent : list ServerMsg * option HandlerExit) (next : RouterAt) : list ServerMsg * RouterAt :=
  match sent with (l, Some _) => (l, AtExit) | (l, None) => (l, next) end.

(** From the select to the next of these points: connection [connID] takes [i]. *)
Definition router_take (connID : string) (r : Router) (i : HandlerInput) : Router * list ServerMsg * RouterAt :=
  match i with
  | InCtxDone | InClosed => (r, [], AtExit)
  | InMsg msg cut =>
      if String.eqb (c_Type msg) MsgTypeEvent then
        match c_Event msg with
        | Some e => (r, (after_send (send_or_exit cut (NewServerOKMsg (ev_ID e) true "")) (ToBroadcast e)).1,
                        (after_send (send_or_exit cut (NewServerOKMsg (ev_ID e) true "")) (ToBroadcast e)).2)
        | None => (r, [], AtSelect)
        end
      else if String.eqb (c_Type msg) MsgTypeReq then
        (Subscribe r connID (c_SubscriptionID msg) (c_Filters msg), [], ToSend (NewServerEOSEMsg (c_SubscriptionID msg)))
      else if String.eqb (c_Type msg) MsgTypeClose then
        (Unsubscribe r connID (c_SubscriptionID msg), [], AtSelect)
      else if String.eqb (c_Type msg) MsgTypeCount then
        (r, (after_send (send_or_exit cut (NewServerCountMsg (c_SubscriptionID msg) 0 None)) AtSelect).1,
            (after_send (send_or_exit cut (NewServerCountMsg (c_SubscriptionID msg) 0 None)) AtSelect).2)
      else (r, [], AtSelect)
  end.

(** And back to the select: the router, what goes to the handler's own channel,
    what is broadcast and where. *)
Definition router_go (env : BroadcastEnv) (r : Router) (p : RouterAt) (cut : bool)
    : Router * list ServerMsg * list (nat * ServerMsg) * RouterAt :=
  match p with
  | ToBroadcast ev => let '(r, out) := Broadcast env r ev in (r, [], out, AtSelect)
  | ToSend m => (r, (after_send (send_or_exit cut m) AtSelect).1, [], (after_send (send_or_exit cut m) AtSelect).2)
  | AtSelect | AtExit => (r, [], [], p)
  end.

(** Several handlers on one router: [w_handlers] has, for each handler that has
    not unregistered, its send channel and where its loop is.  A step takes the
    router's lock at most once and sends on its own channel at most once, so that
    steps in any order stand for every interleaving. *)
Record Hub : Type := mkHub {
  w_router : Router;
  w_handlers : gmap string (nat * RouterAt)
}.

Definition new_hub (reg : bool) : Hub := mkHub (NewRouter reg) ∅.

(** [ServeNostr]: register on entry, the turns, and unregister on the way out
    whatever ended the loop. *)
Inductive HubEvent : Type :=
| Connect (send : nat)
| Turn (connID : string) (i : HandlerInput)
| Go (connID : string) (env : BroadcastEnv) (cut : bool)
| Leave (connID : string).

(** [None] when the event cannot happen. *)
Definition hub_step (w : Hub) (e : HubEvent) : option (Hub * list (nat * ServerMsg)) :=
  match e with
  | Connect send =>
      match Register (w_router w) send with
      | (r, Ok connID) => Some (mkHub r (<[connID := (send, AtSelect)]> (w_handlers w)), [])
      | _ => None
      end
  | Turn connID i =>
      match w_handlers w !! connID with
      | Some (send, AtSelect) =>
          let '(r, sent, p) := router_take connID (w_router w) i in
          Some (mkHub r (<[connID := (send, p)]> (w_handlers w)), (pair send) <$> sent)
      | _ => None
      end
  | Go connID env cut =>
      match w_handlers w !! connID with
      | Some (send, (ToBroadcast _ | ToSend _) as p) =>
          let '(r, sent, out, p') := router_go env (w_router w) p cut in
          Some (mkHub r (<[connID := (send, p')]> (w_handlers w)), ((pair send) <$> sent) ++ out)
      | _ => None
      end
  | Leave connID =>
      match w_handlers w !! connID with
      | Some (_, AtExit) => Some (mkHub (Unregister (w_router w) connID) (delete connID (w_handlers w)), [])
      | _ => None
      end
  end.

Fixpoint hub_run (w : Hub) (es : list HubEvent) : option (Hub * list (nat * ServerMsg)) :=
  match es with
  | [] => Some (w, [])
  | e :: es =>
      match hub_step w e with
      | None => None
      | Some (w, out) =>
          match hub_run w es with
          | Some (w, out') => Some (w, out ++ out')
          | None => None
          end
      end
  end.

Definition is_connect (e : HubEvent) : bool := match e with Connect _ => true | _ => false end.
Definition connects (es : list HubEvent) : nat := length (List.filter is_connect es).

(** ** What the clients have asked for *)

(** The filters of a subscription according to the messages the handlers have
    taken: a REQ opens it, a CLOSE or the end of the handler closes it. *)
Definition open_step (c s : string) (o : option (list ReqFilter)) (e : HubEvent) : option (list ReqFilter) :=
  match e with
  | Connect _ => o
  | Leave c' => if String.eqb c' c then None else o
  | Turn c' (InMsg msg _) =>
      if String.eqb c' c && String.eqb (c_SubscriptionID msg) s then
        if String.eqb (c_Type msg) MsgTypeReq then Some (c_Filters msg)
        else if String.eqb (c_Type msg) MsgTypeClose then None else o
      else o
  | Turn _ _ | Go _ _ _ => o
  end.

Definition open_subscription (es : list HubEvent) (c s : string) : option (list ReqFilter) :=
  foldl (open_step c s) None es.

(** The call on the router of an event, given the handlers. *)
Definition event_op (handlers : gmap string (nat * RouterAt)) (e : HubEvent) : option RouterOp :=
  match e with
  | Connect send => Some (OpRegister send)
  | Leave c => Some (OpUnregister c)
  | Turn c (InMsg msg cut) =>
      if String.eqb (c_Type msg) MsgTypeEvent then None
      else if String.eqb (c_Type msg) MsgTypeReq then Some (OpSubscribe c (c_SubscriptionID msg) (c_Filters msg))
      else if String.eqb (c_Type msg) MsgTypeClose then Some (OpUnsubscribe c (c_SubscriptionID msg))
      else None
  | Turn _ _ => None
  | Go c env _ => match handlers !! c with Some (_, ToBroadcast ev) => Some (OpBroadcast env ev) | _ => None end
  end.

(** A message that is not an EVENT, and what a handler says to its own client in a
    step: what a nop handler would, the EOSE one step later. *)
Definition not_event (m : nat * ServerMsg) : bool := negb (String.eqb (s_Type (snd m)) MsgTypeEvent).

Definition own_out (handlers : gmap string (nat * RouterAt)) (e : HubEvent) : list (nat * ServerMsg) :=
  match e with
  | Turn c i =>
      match handlers !! c with
      | Some (send, _) => pair send <$> (match i with InMsg msg _ => if String.eqb (c_Type msg) MsgTypeReq then [] else fst (nop_turn i) | _ => [] end)
      | None => []
      end
  | Go c _ cut => match handlers !! c with Some (send, ToSend m) => if cut then [] else [(send, m)] | _ => [] end
  | _ => []
  end.

(** The invariant of the hub: its router holds a table whose connections are the
    handlers and whose rows are what their clients have open; a handler about to
    send is about to send an EOSE. *)
Record hub_inv (es : list HubEvent) (w : Hub) (t : RouterTable) : Prop := {
  hi_rep : represents (w_router w) t;
  hi_handlers : forall c, rt_conns t !! c = fst <$> w_handlers w !! c;
  hi_open : forall c s, rt_subs t !! (c, s) = open_subscription es c s;
  hi_count : rt_registered t = connects es;
  hi_eose : forall c send m, w_handlers w !! c = Some (send, ToSend m) -> exists sub, m = NewServerEOSEMsg sub
}.

(** ** A step is what a nop handler says and a call on the router *)

Definition apply_op (r : Router) (o : option RouterOp) : Router * list (nat * ServerMsg) :=
  match o with
  | Some o => match router_op r o with Ok (r, _, sent) => (r, sent) | _ => (r, []) end
  | None => (r, [])
  end.

Lemma router_take_eq hs c send r i r' sent p : router_take c r i = (r', sent, p) ->
  r' = (apply_op r (event_op hs (Turn c i))).1 /\ (apply_op r (event_op hs (Turn c i))).2 = [] /\
  (hs !! c = Some (send, AtSelect) -> pair send <$> sent = own_out hs (Turn c i)) /\
  (forall m, p = ToSend m -> exists sub, m = NewServerEOSEMsg sub).
Proof.
  destruct i as [| |msg cut]; cbn [router_take event_op own_out apply_op];
    [intros [= <- <- <-]; split_and!; try done; by intros ->..|].
  destruct (String.eqb_spec (c_Type msg) MsgTypeEvent) as [Et|Ht1]; [|destruct (String.eqb (c_Type msg) MsgTypeReq) eqn:Ht2;
    [|destruct (String.eqb (c_Type msg) MsgTypeClose) eqn:Ht3; [|destruct (String.eqb (c_Type msg) MsgTypeCount) eqn:Ht4]]].
  - rewrite Et. cbn [nop_turn]. rewrite Et. cbn. destruct (c_Event msg) as [ev|]; [destruct cut|]; cbn; intros [= <- <- <-]; split_and!; try done; by intros ->.
  - intros [= <- <- <-]. split_and!; [done..| |]; [by intros ->|intros m [= <-]; by eexists].
  - cbn [nop_turn]. rewrite (proj2 (String.eqb_neq _ _) Ht1), Ht2, Ht3. intros [= <- <- <-]. split_and!; try done. by intros ->.
  - cbn [nop_turn]. rewrite (proj2 (String.eqb_neq _ _) Ht1), Ht2, Ht3, Ht4. destruct cut; cbn; intros [= <- <- <-]; split_and!; try done; by intros ->.
  - cbn [nop_turn]. rewrite (proj2 (String.eqb_neq _ _) Ht1), Ht2, Ht3, Ht4. intros [= <- <- <-]. split_and!; try done. by intros ->.
Qed.

Lemma Broadcast_only_events env r ev : List.filter not_event (snd (Broadcast env r ev)) = [].
Proof.
  rewrite Broadcast_eq. cbn [snd]. unfold delivered.
  by induction (List.filter (has_room env) (attempts env r ev)).
Qed.

Lemma router_go_eq hs c env send r p cut r' sent out p' : hs !! c = Some (send, p) ->
  router_go env r p cut = (r', sent, out, p') ->
  apply_op r (event_op hs (Go c env cut)) = (r', out) /\ pair send <$> sent = own_out hs (Go c env cut) /\
  List.filter not_event out = [] /\ (forall m, p' = ToSend m -> p = ToSend m).
Proof.
  intros Hp. cbn [event_op own_out]. rewrite Hp. destruct p as [|ev|m|]; cbn [router_go].
  - by intros [= <- <- <- <-].
  - pose proof (Broadcast_only_events env r ev) as Hb. cbn [apply_op router_op]. destruct (Broadcast env r ev) as [rb ob].
    by intros [= <- <- <- <-].
  - destruct cut; by intros [= <- <- <- <-].
  - by intros [= <- <- <- <-].
Qed.

(** ** The invariant *)

(** The table after an event. *)
Definition table_after (hs : gmap string (nat * RouterAt)) (t : RouterTable) (e : HubEvent) : RouterTable :=
  from_option (table_op t) t (event_op hs e).

Lemma open_snoc es e c s : open_subscription (es ++ [e]) c s = open_step c s (open_subscription es c s) e.
Proof. unfold open_subscription. by rewrite foldl_snoc. Qed.

Lemma connects_snoc es e : connects (es ++ [e]) = (connects es + if is_connect e then 1 else 0)%nat.
Proof. unfold connects. rewrite List.filter_app, length_app. simpl. by destruct (is_connect e). Qed.

(** The rows follow what the clients have open. *)
Lemma turn_rows hs t c i c' s :
  is_Some (rt_conns t !! c) ->
  rt_subs (table_after hs t (Turn c i)) !! (c', s) =
  open_step c' s (rt_subs t !! (c', s)) (Turn c i).
Proof.
  intros Hc. destruct i as [| |msg cut]; [done..|]. unfold table_after. cbn [event_op open_step].
  destruct (String.eqb_spec (c_Type msg) MsgTypeEvent) as [Et|Ht1].
  { rewrite Et. cbn. by destruct (_ && _). }
  destruct (String.eqb_spec (c_Type msg) MsgTypeReq) as [Et|Ht2].
  { cbn [from_option table_op]. rewrite decide_True by done. cbn [rt_subs].
    destruct (String.eqb_spec c c') as [->|], (String.eqb_spec (c_SubscriptionID msg) s) as [->|];
      cbn [andb]; rewrite ?lookup_insert_eq, ?lookup_insert_ne by naive_solver; done. }
  destruct (String.eqb_spec (c_Type msg) MsgTypeClose) as [Et|Ht3]; [|by destruct (_ && _)].
  cbn [from_option table_op rt_subs].
  destruct (String.eqb_spec c c') as [->|], (String.eqb_spec (c_SubscriptionID msg) s) as [->|];
    cbn [andb]; rewrite ?lookup_delete_eq, ?lookup_delete_ne by naive_solver; done.
Qed.

Lemma leave_rows hs t c c' s :
  rt_subs (table_after hs t (Leave c)) !! (c', s) = open_step c' s (rt_subs t !! (c', s)) (Leave c).
Proof.
  cbn [table_after event_op from_option table_op rt_subs open_step].
  destruct (String.eqb_spec c c') as [->|Hne].
  - apply map_lookup_filter_None. right. simpl. tauto.
  - destruct (rt_subs t !! (c', s)) eqn:E'; [apply map_lookup_filter_Some; by split|].
    apply map_lookup_filter_None. by left.
Qed.

(** The steps of a handler that is connected: [Turn] and [Go]. *)
Definition runs (c : string) (e : HubEvent) : Prop := (exists i, e = Turn c i) \/ (exists env cut, e = Go c env cut).

Lemma run_op hs c e : runs c e ->
  match event_op hs e with Some (OpSubscribe _ _ _ | OpUnsubscribe _ _ | OpBroadcast _ _) | None => True | _ => False end.
Proof. intros [[[| |msg cut] ->]|(env & cut & ->)]; cbn [event_op]; repeat case_match; simplify_eq; done. Qed.

Lemma run_conns hs t c e : runs c e ->
  rt_conns (table_after hs t e) = rt_conns t /\ rt_registered (table_after hs t e) = rt_registered t.
Proof.
  intros Hr. pose proof (run_op hs c e Hr) as Ho. unfold table_after.
  destruct (event_op hs e) as [[]|]; try done; cbn [from_option table_op]; by try case_decide.
Qed.

Lemma run_represents hs r t c e : runs c e -> represents r t -> Z.of_nat (rt_registered t) < two64 ->
  represents (fst (apply_op r (event_op hs e))) (table_after hs t e).
Proof.
  intros Hr Hrep Hlt. pose proof (run_op hs c e Hr) as Hop. unfold table_after.
  destruct (event_op hs e) as [o|]; [|done].
  destruct (router_op_represents r t o) as (r' & sent & Hrep' & Heq); [done|by destruct o; try done; cbn; int_lia|].
  cbn [apply_op from_option]. by rewrite Heq.
Qed.

Lemma run_rows hs t c e c' s : runs c e -> is_Some (rt_conns t !! c) ->
  rt_subs (table_after hs t e) !! (c', s) = open_step c' s (rt_subs t !! (c', s)) e.
Proof.
  intros [[i ->]|(env & cut & ->)] Hc; [by apply turn_rows|]. unfold table_after. cbn [event_op open_step]. by repeat case_match.
Qed.

Lemma step_inv es w t c e send p p' : hub_inv es w t -> runs c e -> w_handlers w !! c = Some (send, p) -> Z.of_nat (connects es) < two64 ->
  (forall m, p' = ToSend m -> exists sub, m = NewServerEOSEMsg sub) ->
  hub_inv (es ++ [e]) (mkHub (apply_op (w_router w) (event_op (w_handlers w) e)).1 (<[c := (send, p')]> (w_handlers w)))
    (table_after (w_handlers w) t e).
Proof.
  intros [Hrep Hh Ho Hc He] Hr Hw Hlt Hp'. destruct (run_conns (w_handlers w) t c e Hr) as [Hconns Hcount].
  constructor; cbn [w_router w_handlers].
  - eapply run_represents; [exact Hr|done|int_lia].
  - intros c'. rewrite Hconns, Hh. destruct (decide (c' = c)) as [->|]; [by rewrite lookup_insert_eq, Hw|by rewrite lookup_insert_ne].
  - intros c' s. rewrite open_snoc, <-Ho. eapply run_rows; [exact Hr|]. by rewrite Hh, Hw.
  - rewrite Hcount, connects_snoc. destruct Hr as [[i ->]|(env & cut & ->)]; cbn [is_connect]; lia.
  - intros c' send' m. destruct (decide (c' = c)) as [->|]; [|rewrite lookup_insert_ne by done; by apply He].
    rewrite lookup_insert_eq. intros [= _ Hm]. by apply Hp'.
Qed.

Lemma connect_inv es w t send w' out :
  hub_inv es w t -> Z.of_nat (S (connects es)) < two64 -> hub_step w (Connect send) = Some (w', out) ->
  hub_inv (es ++ [Connect send]) w' (table_after (w_handlers w) t (Connect send)).
Proof.
  intros [Hrep Hh Ho Hc He] Hlt. cbn [hub_step].
  destruct (Register_represents (w_router w) t send) as (r' & Heq & Hrep'); [done|int_lia|].
  rewrite Heq. intros [= <- <-]. constructor; cbn [w_router w_handlers]; [done| | | |].
  - intros c. cbn [table_after event_op from_option table_op rt_conns].
    destruct (decide (c = conn_name (S (rt_registered t)))) as [->|].
    + by rewrite !lookup_insert_eq.
    + by rewrite !lookup_insert_ne.
  - intros c s. rewrite open_snoc. apply Ho.
  - rewrite connects_snoc. cbn [table_after event_op from_option table_op rt_registered is_connect]. lia.
  - intros c send' m [[_ Hx]|[_ Hw]]%lookup_insert_Some; [done|by eapply He].
Qed.

Lemma leave_inv es w t c w' out : hub_inv es w t -> hub_step w (Leave c) = Some (w', out) ->
  hub_inv (es ++ [Leave c]) w' (table_after (w_handlers w) t (Leave c)).
Proof.
  intros [Hrep Hh Ho Hc He]. cbn [hub_step]. destruct (w_handlers w !! c) as [[send []]|] eqn:Hw; try done. intros [= <- <-].
  constructor; cbn [w_router w_handlers]; [by apply Unregister_represents| | | |].
  - intros c'. cbn [table_after event_op from_option table_op rt_conns].
    destruct (decide (c' = c)) as [->|]; [by rewrite !lookup_delete_eq|by rewrite !lookup_delete_ne].
  - intros c' s. rewrite open_snoc, <-Ho. apply leave_rows.
  - rewrite connects_snoc. cbn [table_after event_op from_option table_op rt_registered is_connect]. lia.
  - intros c' send' m [_ Hm]%lookup_delete_Some. by eapply He.
Qed.

Lemma hub_step_inv es w t e w' out :
  hub_inv es w t -> Z.of_nat (connects (es ++ [e])) < two64 -> hub_step w e = Some (w', out) ->
  hub_inv (es ++ [e]) w' (table_after (w_handlers w) t e).
Proof.
  intros Hinv Hlt Hstep. rewrite connects_snoc in Hlt. destruct e as [send|c i|c env cut|c]; cbn [is_connect] in Hlt.
  - apply (connect_inv es w t send w' out); [done|int_lia|done].
  - cbn [hub_step] in Hstep. destruct (w_handlers w !! c) as [[send []]|] eqn:Hw; try done.
    destruct (router_take c (w_router w) i) as [[r sent] p] eqn:Et. injection Hstep as <- <-.
    destruct (router_take_eq (w_handlers w) c send _ _ _ _ _ Et) as (-> & _ & _ & Hp).
    by apply (step_inv es w t c (Turn c i) send AtSelect p); [|left; eexists| |int_lia|].
  - cbn [hub_step] in Hstep. destruct (w_handlers w !! c) as [[send p]|] eqn:Hw; [|done].
    destruct (router_go env (w_router w) p cut) as [[[r sent] o] p'] eqn:Eg.
    destruct (router_go_eq (w_handlers w) c env send _ _ _ _ _ _ _ Hw Eg) as (Ha & _ & _ & Hp).
    pose proof (step_inv es w t c (Go c env cut) send p p' Hinv ltac:(right; eauto) Hw ltac:(int_lia)) as Hs. rewrite Ha in Hs.
    destruct p; try done; injection Hstep as <- <-; apply Hs; intros m' Hm; specialize (Hp m' Hm); [done|].
    rewrite Hp in Hw. by apply (hi_eose _ _ _ Hinv c send).
  - by eapply leave_inv.
Qed.

Lemma connects_app es1 es2 : connects (es1 ++ es2) = (connects es1 + connects es2)%nat.
Proof. unfold connects. by rewrite List.filter_app, length_app. Qed.

Lemma hub_run_inv es0 w t es w' out :
  hub_inv es0 w t -> Z.of_nat (connects (es0 ++ es)) < two64 -> hub_run w es = Some (w', out) ->
  exists t', hub_inv (es0 ++ es) w' t'.
Proof.
  revert es0 w t out. induction es as [|e es IH]; intros es0 w t out Hinv Hlt; cbn [hub_run].
  { intros [= <- _]. exists t. by rewrite app_nil_r. }
  destruct (hub_step w e) as [[w1 out1]|] eqn:Hstep; [|done].
  destruct (hub_run w1 es) as [[w2 out2]|] eqn:Hrun; [|done]. intros [= <- _].
  rewrite cons_middle, app_assoc in Hlt |- *.
  eapply IH; [|done|done]. eapply hub_step_inv; [done| |done].
  rewrite connects_app in Hlt. int_lia.
Qed.

Lemma new_hub_inv reg : hub_inv [] (new_hub reg) empty_table.
Proof.
  constructor; [apply empty_represents| |done..].
  intros c. cbn [new_hub w_handlers empty_table rt_conns]. by rewrite !lookup_empty.
Qed.

(** ** Properties *)

(** C34: end to end delivery: in any run of router handlers on one router, whatever
    the interleaving of their steps, an EVENT a handler takes from its client is
    answered OK on that client's channel, and when the handler then broadcasts it,
    it is tried exactly once for each subscription that is open at that moment,
    among all handlers' clients, and has a filter matching the event, where open
    means that the last REQ or CLOSE taken for it was a REQ and its handler has not
    unregistered; the EVENT message goes to the channel of the subscription's
    handler if that has room, under the subscription's own name, and nothing else
    is sent. *)
Theorem router_relay_delivers (reg : bool) es w out c send ev env cut :
  hub_run (new_hub reg) es = Some (w, out) -> Z.of_nat (connects es) < two64 ->
  (w_handlers w !! c = Some (send, AtSelect) ->
     hub_step w (Turn c (InMsg (client_event ev) false)) =
       Some (mkHub (w_router w) (<[c := (send, ToBroadcast ev)]> (w_handlers w)), [(send, NewServerOKMsg (ev_ID ev) true "")])) /\
  (w_handlers w !! c = Some (send, ToBroadcast ev) ->
   exists w' sent tried,
    hub_step w (Go c env cut) = Some (w', sent) /\ w_handlers w' = <[c := (send, AtSelect)]> (w_handlers w) /\
    NoDup tried /\
    (forall d s, (d, s) ∈ tried <->
       exists fs f, open_subscription es d s = Some fs /\ f ∈ fs /\ matches f ev) /\
    sent = (fun a => (default 0%nat (fst <$> w_handlers w !! fst a), NewServerEventMsg (snd a) (Some ev)))
             <$> List.filter (has_room env) tried).
Proof.
  intros Hrun Hlt. split; intros Hw; [cbn [hub_step]; by rewrite Hw|].
  destruct (hub_run_inv [] (new_hub reg) empty_table es w out) as (t & [Hrep Hh Ho Hc _]);
    [apply new_hub_inv|done|done|].
  pose proof (Broadcast_table env (w_router w) t ev Hrep) as Hb.
  cbn [hub_step]. rewrite Hw. cbn [router_go].
  destruct (Broadcast env (w_router w) ev) as [r' sent].
  destruct Hb as (_ & _ & tried & Hnd & Htried & Hsent & _).
  eexists _, sent, tried. split; [reflexivity|]. split; [done|]. split; [done|]. split.
  - intros d s. rewrite Htried, Ho. done.
  - rewrite Hsent. apply list_fmap_ext. intros _ [d s] _. cbn [fst snd]. by rewrite Hh.
Qed.

(** Seen by its own client, a router handler is a nop handler that may be a step
    late: EVENT messages aside, each step sends what a nop handler would send on the
    message taken, on the handler's own channel and nothing to anyone else, except
    that the EOSE of a REQ follows in the handler's next step; its remaining
    messages are all EVENTs. *)
Theorem router_handler_simulates_nop (reg : bool) es w out0 e w' out :
  hub_run (new_hub reg) es = Some (w, out0) -> Z.of_nat (connects es) < two64 -> hub_step w e = Some (w', out) ->
  List.filter not_event out = own_out (w_handlers w) e.
Proof.
  intros Hrun Hlt Hstep. destruct (hub_run_inv [] (new_hub reg) empty_table es w out0) as (t & Hinv); [apply new_hub_inv|done|done|].
  destruct e as [send|c i|c env cut|c]; cbn [hub_step] in Hstep.
  - destruct (Register (w_router w) send) as [r [id|?|?]]; [|done..]. by injection Hstep as <- <-.
  - destruct (w_handlers w !! c) as [[send []]|] eqn:Hw; try done.
    destruct (router_take c (w_router w) i) as [[r sent] p] eqn:Et. injection Hstep as <- <-.
    destruct (router_take_eq (w_handlers w) c send _ _ _ _ _ Et) as (_ & _ & Ho & _). rewrite Ho by done.
    cbn [own_out]. rewrite Hw. destruct i as [| |msg cut]; [done..|]. unfold nop_turn, send_or_exit. by repeat case_match.
  - destruct (w_handlers w !! c) as [[send p]|] eqn:Hw; [|done].
    destruct (router_go env (w_router w) p cut) as [[[r sent] o] p'] eqn:Eg.
    destruct (router_go_eq (w_handlers w) c env send _ _ _ _ _ _ _ Hw Eg) as (_ & Ho & Hev & _).
    assert (Hout : out = (pair send <$> sent) ++ o) by (destruct p; try done; by injection Hstep as _ <-).
    rewrite Hout, List.filter_app, Hev, app_nil_r, Ho. cbn [own_out]. rewrite Hw. destruct p as [| |m|]; try done.
    destruct cut; [done|]. destruct (hi_eose _ _ _ Hinv c send m Hw) as [sub ->]. done.
  - destruct (w_handlers w !! c) as [[send []]|]; try done. by injection Hstep as <- <-.
Qed.

(** ** Witnesses *)

Module HandlerSamples.
Import Samples.
Definition asks (c sub : string) (f : ReqFilter) : list HubEvent := [Turn c (InMsg (client_req sub [f]) false); Go c env false].
Definition es : list HubEvent :=
  [Connect 10; Connect 20] ++ asks "conn-1" "a" any ++ asks "conn-2" "b" kind7 ++ asks "conn-1" "c" any ++
  [Turn "conn-1" (InMsg (client_close "c") false); Turn "conn-2" (InMsg (client_event note) false)].
Definition hub : Hub := match hub_run (new_hub true) es with Some (w, _) => w | None => new_hub true end.
Definition sent : list (nat * ServerMsg) :=
  match hub_run (new_hub true) es with Some (_, out) => out | None => [] end.
End HandlerSamples.

Example hub_run_sample :
  HandlerSamples.sent = [(10%nat, NewServerEOSEMsg "a"); (20%nat, NewServerEOSEMsg "b"); (10%nat, NewServerEOSEMsg "c");
    (20%nat, NewServerOKMsg "n1" true "")] /\
  option_map snd (hub_step HandlerSamples.hub (Go "conn-2" Samples.env false)) = Some [(10%nat, NewServerEventMsg "a" (Some Samples.note))].
Proof. vm_compute. by split. Qed.

Lemma router_relay_delivers_witness :
  exists w' sent tried,
    hub_step HandlerSamples.hub (Go "conn-2" Samples.env false) = Some (w', sent) /\
    w_handlers w' = <["conn-2" := (20%nat, AtSelect)]> (w_handlers HandlerSamples.hub) /\
    NoDup tried /\
    (forall d s, (d, s) ∈ tried <->
       exists fs f, open_subscription HandlerSamples.es d s = Some fs /\ f ∈ fs /\ matches f Samples.note) /\
    sent = (fun a => (default 0%nat (fst <$> w_handlers HandlerSamples.hub !! fst a),
                      NewServerEventMsg (snd a) (Some Samples.note)))
             <$> List.filter (has_room Samples.env) tried.
Proof.
  refine (proj2 (router_relay_delivers true HandlerSamples.es HandlerSamples.hub HandlerSamples.sent "conn-2" 20
           Samples.note Samples.env false _ _) _); vm_compute; reflexivity.
Defined.

Lemma router_handler_simulates_nop_witness :
  List.filter not_event [(10%nat, NewServerEventMsg "a" (Some Samples.note))] = [].
Proof.
  refine (router_handler_simulates_nop true HandlerSamples.es HandlerSamples.hub HandlerSamples.sent
    (Go "conn-2" Samples.env false) (match hub_step HandlerSamples.hub (Go "conn-2" Samples.env false) with Some (w, _) => w | None => HandlerSamples.hub end)
    _ _ _ _); vm_compute; reflexivity.
Defined.
