(* ===== verification/LiveRace.v ===== *)
(** * A live event lost between the storage and the router

    The relay of the examples merges a storage handler and a router handler
    (Handlers.v) in a merge session (Merge.v).  Setting up a subscription takes the
    router handler two steps, and what happens between them can cost an event. *)

From S2P Require Import Prelude GoTime Text Event Filter Message Merge MergeReq Router Handlers.

(** ** The router's part *)

(** Connection 2 asks; its handler has subscribed but not sent its EOSE yet when
    connection 1 publishes. *)
Definition race_start (sub : string) (fs : list ReqFilter) (new : Event) : list HubEvent :=
  [Connect 1; Connect 2; Turn "conn-2" (InMsg (client_req sub fs) false); Turn "conn-1" (InMsg (client_event new) false)].

Definition race (env : BroadcastEnv) (sub : string) (fs : list ReqFilter) (new : Event) : list HubEvent :=
  race_start sub fs new ++ [Go "conn-1" env false; Go "conn-2" env false].

(** What channel [ch] gets. *)
Definition on_channel (ch : nat) (out : list (nat * ServerMsg)) : list ServerMsg :=
  omap (fun m => if (fst m =? ch)%nat then Some (snd m) else None) out.

Lemma hub_run_app es1 es2 w : hub_run w (es1 ++ es2) =
  match hub_run w es1 with
  | Some (w1, out1) => match hub_run w1 es2 with Some (w2, out2) => Some (w2, out1 ++ out2) | None => None end
  | None => None
  end.
Proof.
  revert w. induction es1 as [|e es1 IH]; intros w; cbn [hub_run app].
  { by destruct (hub_run w es2) as [[w2 out2]|]. }
  destruct (hub_step w e) as [[w1 out1]|]; [|done]. rewrite IH. destruct (hub_run w1 es1) as [[w2 out2]|]; [|done].
  destruct (hub_run w2 es2) as [[w3 out3]|]; [|done]. by rewrite app_assoc.
Qed.

Lemma race_start_run sub fs new : exists w,
  hub_run (new_hub false) (race_start sub fs new) = Some (w, [(1%nat, NewServerOKMsg (ev_ID new) true "")]) /\
  w_handlers w !! "conn-1"%string = Some (1%nat, ToBroadcast new) /\
  w_handlers w !! "conn-2"%string = Some (2%nat, ToSend (NewServerEOSEMsg sub)).
Proof. eexists. split; [vm_compute; reflexivity|]. split; vm_compute; reflexivity. Qed.

Lemma race_open sub fs new d s : open_subscription (race_start sub fs new) d s =
  if bool_decide (d = "conn-2"%string /\ s = sub) then Some fs else None.
Proof.
  unfold open_subscription, race_start. cbn [foldl open_step client_req client_event c_Type c_SubscriptionID c_Filters].
  destruct (String.eqb_spec "conn-2" d) as [<-|H1]; cbn [andb].
  - destruct (String.eqb_spec sub s) as [->|H2]; cbn [andb].
    + rewrite bool_decide_eq_true_2 by done. done.
    + rewrite bool_decide_eq_false_2 by naive_solver. done.
  - rewrite bool_decide_eq_false_2 by naive_solver. by repeat case_match.
Qed.

Lemma singleton_of {A} (l : list A) x : NoDup l -> (forall y, y ∈ l <-> y = x) -> l = [x].
Proof.
  intros Hnd Hl. destruct l as [|a l]; [destruct (not_elem_of_nil x); by apply Hl|].
  assert (a = x) as -> by (apply Hl; by left). f_equal. destruct l as [|b l]; [done|]. exfalso.
  assert (b = x) as -> by (apply Hl; right; by left). apply NoDup_cons in Hnd as [Hn _]. apply Hn. by left.
Qed.

Lemma race_run env sub fs f new : f ∈ fs -> matches f new -> be_room env "conn-2" sub = true ->
  exists w out, hub_run (new_hub false) (race env sub fs new) = Some (w, out) /\
  on_channel 2 out = [NewServerEventMsg sub (Some new); NewServerEOSEMsg sub].
Proof.
  intros Hf Hm Hroom. destruct (race_start_run sub fs new) as (w & Hrun & H1 & H2).
  destruct (hub_run_inv [] (new_hub false) empty_table (race_start sub fs new) w _ (new_hub_inv false) ltac:(done) Hrun) as (t & Hinv).
  change ([] ++ race_start sub fs new) with (race_start sub fs new) in Hinv.
  pose proof (Broadcast_table env (w_router w) t new (hi_rep _ _ _ Hinv)) as Hb.
  unfold race. rewrite hub_run_app, Hrun. cbn [hub_run hub_step]. rewrite H1. cbn [router_go].
  destruct (Broadcast env (w_router w) new) as [r' sent]. destruct Hb as (_ & _ & tried & Hnd & Htried & -> & _).
  cbn [w_handlers w_router]. rewrite lookup_insert_ne by done. rewrite H2. cbn.
  eexists _, _. split; [reflexivity|].
  assert (tried = [("conn-2", sub)]%string) as ->.
  { apply singleton_of; [done|]. intros [d s]. rewrite Htried, (hi_open _ _ _ Hinv), race_open. case_bool_decide as Hd.
    - destruct Hd as [-> ->]. split; [done|]. intros _. by exists fs, f.
    - split; [by intros (? & ? & ? & _)|]. intros [= -> ->]. by destruct Hd. }
  cbn. unfold has_room. cbn. rewrite Hroom. cbn. rewrite (hi_handlers _ _ _ Hinv), H2. done.
Qed.

(** ** The session's part *)

(** The storage's child sends an older event first; then come the messages of the
    router's, and the end of the storage's answer. *)
Definition race_ops (sub : string) (fs : list ReqFilter) (old new : Event) : list op :=
  [Response 0 (NewServerEventMsg sub (Some old))] ++
  (Response 1 <$> [NewServerEventMsg sub (Some new); NewServerEOSEMsg sub]) ++
  [Response 0 (NewServerEOSEMsg sub)].

Lemma race_merged s sub fs old new : numHandlers s = 2%nat -> req_limit fs <> 1 -> Unix (ev_CreatedAt old) < Unix (ev_CreatedAt new) ->
  ev_ID old <> ev_ID new ->
  exists s' out, do_ops (startReqResponse s sub fs) (race_ops sub fs old new) = Ok (s', out) /\
  List.filter (is_req_for sub) out = [NewServerEventMsg sub (Some old); NewServerEOSEMsg sub].
Proof.
  intros Hn Hlim Ht Hid.
  destruct (do_ops_total 2 (race_ops sub fs old new) (startReqResponse s sub fs)) as (s' & out & Hrun).
  { repeat constructor; cbn; try lia; by intros. }
  exists s', out. split; [done|]. apply (do_ops_view (sub_view sub) (is_req_for sub) (fun n => sub_machine n sub)) in Hrun;
    [|intros; by apply do_op_sub_view].
  rewrite startReq_view in Hrun. cbn [numHandlers startReqResponse set_pendingEOSEs set_completedSubs] in Hrun. rewrite Hn in Hrun.
  apply (f_equal snd) in Hrun. cbn [snd] in Hrun. rewrite <-Hrun. clear Hrun.
  unfold race_ops, fresh_sub. remember (req_limit fs) as lim eqn:El. clear El. cbn [app fmap list_fmap run_machine sub_machine]. unfold is_event_for, is_eose_for. cbn. rewrite !String.eqb_refl. cbn.
  unfold sub_event at 1. cbn. rewrite bool_decide_eq_false_2 by set_solver.
  assert (Hl : (0 <? lim) && (lim <=? 0 + 1) = false) by lia. rewrite Hl. cbn.
  rewrite bool_decide_eq_false_2 by set_solver. unfold out_of_order. cbn. rewrite (proj2 (Z.ltb_lt _ _) Ht). cbn. done.
Qed.

(** ** Property *)

(** C18: a live event can be lost: a router handler subscribes before it sends its
    EOSE, so an event that another client publishes in between precedes that EOSE on
    its channel; to the merge session it is then one of the stored events, and when
    the storage's handler has already sent an older event (of a query answered before
    the new event was stored) it breaks the order and is dropped.  The subscriber
    gets neither a stored nor a live copy, though the subscription was open and the
    channel had room. *)
Theorem live_event_race (env : BroadcastEnv) (s : mergeSession) (sub : string) (fs : list ReqFilter) (f : ReqFilter) (old new : Event) :
  f ∈ fs -> matches f new -> be_room env "conn-2" sub = true ->
  numHandlers s = 2%nat -> req_limit fs <> 1 -> Unix (ev_CreatedAt old) < Unix (ev_CreatedAt new) -> ev_ID old <> ev_ID new ->
  exists w out, hub_run (new_hub false) (race env sub fs new) = Some (w, out) /\
  exists s' merged, do_ops (startReqResponse s sub fs)
      ([Response 0 (NewServerEventMsg sub (Some old))] ++ (Response 1 <$> on_channel 2 out) ++ [Response 0 (NewServerEOSEMsg sub)]) = Ok (s', merged) /\
  List.filter (is_req_for sub) merged = [NewServerEventMsg sub (Some old); NewServerEOSEMsg sub].
Proof.
  intros Hf Hm Hroom Hn Hl Ht Hid. destruct (race_run env sub fs f new Hf Hm Hroom) as (w & out & Hrun & Hch).
  exists w, out. split; [done|]. rewrite Hch. by apply race_merged.
Qed.

Module LiveRaceExamples.
Definition old : Event := mkEvent "o1" "alice" (time_Unix 5) 1 (Some []) "" "".
Definition room : BroadcastEnv := mkBroadcastEnv range_in_order (fun _ => range_in_order) (fun _ _ => true).
End LiveRaceExamples.

Lemma live_event_race_witness :
  exists w out, hub_run (new_hub false) (race LiveRaceExamples.room "s" [Samples.any] Samples.note) = Some (w, out) /\
  exists s' merged, do_ops (startReqResponse (newMergeSession 2 None) "s" [Samples.any])
      ([Response 0 (NewServerEventMsg "s" (Some LiveRaceExamples.old))] ++ (Response 1 <$> on_channel 2 out) ++
       [Response 0 (NewServerEOSEMsg "s")]) = Ok (s', merged) /\
  List.filter (is_req_for "s") merged = [NewServerEventMsg "s" (Some LiveRaceExamples.old); NewServerEOSEMsg "s"].
Proof.
  apply (live_event_race LiveRaceExamples.room (newMergeSession 2 None) "s" [Samples.any] Samples.any LiveRaceExamples.old Samples.note);
    try done; [by left|by apply Match_matches].
Defined.
