(* ===== verification/SimpleHandler.v ===== *)
(** * The simple handler adapter (handler.go)

    [NewSimpleHandler]: [OnStart], the receive queue with the main loop of
    Drain.v, and the deferred [OnEnd]. *)

From S2P Require Import Prelude GoTime Event Filter Message Drain.

(** A base over the contexts [Cx] it builds.  An error is a string; the responses
    of [HandleMsg] are those its iterator yields, whose effects are taken to
    happen when it is called. *)
Record SimpleHandlerBase (Cx : Type) : Type := mkHandlerBase {
  sh_OnStart : Cx -> Cx * Res (option ServerMsg);
  sh_OnEnd : Cx -> option ServerMsg * option string;
  sh_HandleMsg : Cx -> ClientMsg -> Cx * (list ServerMsg + string)
}.
Arguments sh_OnStart {Cx}.
Arguments sh_OnEnd {Cx}.
Arguments sh_HandleMsg {Cx}.

Section SimpleHandler.

Context {Cx : Type} (base : SimpleHandlerBase Cx).

(** The body of the main loop: an error of [HandleMsg] ends it before anything is
    sent. *)
Definition simple_handle (_ : ()) (c : Cx) (msg : ClientMsg) : Cx * list ServerMsg * option string :=
  match sh_HandleMsg base c msg with
  | (c, inl resp) => (c, resp, None)
  | (c, inr e) => (c, [], Some e)
  end.

(** What [ServeNostr] did: the messages sent, the errors it joins into its result,
    and the contexts [OnEnd] was called with. *)
Record SimpleRun : Type := mkSimpleRun {
  sr_sent : list ServerMsg;
  sr_errors : list string;
  sr_ended : list Cx
}.

Definition exit_errors (x : HandlerExit) : list string :=
  match x with ExitNil => [] | ExitCtx => ["context canceled"%string] | ExitErr e => [e] end.

(** The deferred call; [room]: the last message finds the send channel ready. *)
Definition simple_end (room : bool) (c : Cx) (sent : list ServerMsg) (x : HandlerExit) : SimpleRun :=
  let '(endMsg, endErr) := sh_OnEnd base c in
  mkSimpleRun (sent ++ match endMsg with Some m => if room then [m] else [] | None => [] end)
    (exit_errors x ++ option_list endErr) [c].

(** [cut]: the context ends before the message of [OnStart] is sent; [es]: the
    choices of the loop, up to where it returns.  [None]: [es] is not such a
    sequence, or [OnStart] panics. *)
Definition simple_serve (c : Cx) (cut : bool) (es : list DrainEvent) (room : bool) : option SimpleRun :=
  match sh_OnStart base c with
  | (_, Err e) => Some (mkSimpleRun [] [e] [])
  | (_, Panic _) => None
  | (c, Ok startMsg) =>
      if cut && bool_decide (is_Some startMsg) then Some (simple_end room c [] ExitCtx)
      else
        match drain_run simple_handle (start_serving c) es with
        | Some d =>
            match d_exit d with
            | Some x => Some (simple_end room (d_state d) (option_list startMsg ++ d_sent d) x)
            | None => None
            end
        | None => None
        end
  end.

End SimpleHandler.

(** ** Properties *)

(** For any handler behind the receive queue and any interleaving of its two
    goroutines: the messages received are, in order, those handled, those queued
    and the one in the draining goroutine's hand, with at most ten queued; what
    has been sent is a prefix of what handling them one by one sends; and when
    the loop returns nil without the context having ended, every message received
    was handled and every response sent. *)
Theorem drain_sequential {Env St : Type}
    (handle : Env -> St -> ClientMsg -> St * list ServerMsg * option string) s es d :
  drain_run handle (start_serving s) es = Some d ->
  d_received d = (snd <$> d_handled d) ++ d_queue d ++ option_list (d_hand d) /\
  (length (d_queue d) <= simpleHandlerMsgQueueBuffer)%nat /\
  (exists out x, one_by_one handle s (d_handled d) = (d_state d, out, x) /\ d_sent d `prefix_of` out) /\
  (d_exit d = Some ExitNil -> d_ctxDone d = false ->
   d_received d = snd <$> d_handled d /\ one_by_one handle s (d_handled d) = (d_state d, d_sent d, None)).
Proof.
  intros Hrun. pose proof (drain_run_inv handle s _ _ _ (start_inv handle s) Hrun) as [Hf Hr Hw Hq Hh He].
  split; [done|]. split; [done|]. destruct Hw as (x & Hx & Hex). split.
  - exists (d_sent d ++ d_outgoing d), x. split; [done|]. by exists (d_outgoing d).
  - intros Hexit Hctx. rewrite Hexit in Hex. destruct Hex as [-> Ho].
    destruct (He Hexit) as (_ & Hq' & Hhand). rewrite Ho, app_nil_r in Hx. split; [|done].
    rewrite Hf, Hq', Hhand by done. simpl. by rewrite app_nil_r.
Qed.

(** A main loop blocked on a send never wedges the receive channel: whatever
    the state, as long as the draining goroutine has not stopped, it can take as
    many messages as leave at most ten queued and one in hand, by its own steps
    alone, without a step of the main loop. *)
Theorem drain_never_wedges {Env St : Type}
    (handle : Env -> St -> ClientMsg -> St * list ServerMsg * option string) (d : Served) msgs :
  d_queueClosed d = false ->
  (length (d_queue d) + length (option_list (d_hand d)) + length msgs <= S simpleHandlerMsgQueueBuffer)%nat ->
  exists es d', forallb (@drain_event Env) es = true /\ drain_run handle d es = Some d' /\
    d_received d' = d_received d ++ msgs /\ d_outgoing d' = d_outgoing d /\ d_sent d' = d_sent d /\
    d_exit d' = d_exit d.
Proof. apply drain_many. Qed.

(** The lifecycle of a simple handler: when OnStart refuses, its error is
    returned, nothing is sent and OnEnd is not called; otherwise OnEnd is called
    exactly once, last, with the context the handled messages left, whatever ended
    the loop; between the two messages goes a prefix of what handling the
    messages one by one yields; and OnEnd's error is joined to the loop's. *)
Theorem simple_handler_lifecycle {Cx : Type} (base : SimpleHandlerBase Cx) c cut es room run :
  simple_serve base c cut es room = Some run ->
  match sh_OnStart base c with
  | (_, Err e) => run = mkSimpleRun [] [e] []
  | (_, Panic _) => False
  | (c, Ok startMsg) =>
      exists c' msgs sent out x,
        sr_ended run = [c'] /\
        one_by_one (simple_handle base) c msgs = (c', out, x) /\
        sent `prefix_of` option_list startMsg ++ out /\
        sr_sent run = sent ++ (if room then option_list (fst (sh_OnEnd base c')) else []) /\
        exists err, sr_errors run = err ++ option_list (snd (sh_OnEnd base c'))
  end.
Proof.
  unfold simple_serve. destruct (sh_OnStart base c) as [c1 [startMsg|e|w]]; [|by intros [= <-]|done].
  assert (Hend : forall c' sent x, exists err,
    sr_ended (simple_end base room c' sent x) = [c'] /\
    sr_sent (simple_end base room c' sent x) =
      sent ++ (if room then option_list (fst (sh_OnEnd base c')) else []) /\
    sr_errors (simple_end base room c' sent x) = err ++ option_list (snd (sh_OnEnd base c'))).
  { intros c' sent x. exists (exit_errors x). unfold simple_end.
    destruct (sh_OnEnd base c') as [[m|] e]; cbn; split_and!; try done. by destruct room. }
  destruct (cut && bool_decide (is_Some startMsg)).
  - intros [= <-]. destruct (Hend c1 [] ExitCtx) as (err & H1 & H2 & H3).
    exists c1, [], [], [], None. split_and!; [done|done|apply prefix_nil|done|eauto].
  - destruct (drain_run (simple_handle base) (start_serving c1) es) as [d|] eqn:Hrun; [|done].
    destruct (d_exit d) as [x|]; [|done]. intros [= <-].
    pose proof (drain_run_inv (simple_handle base) c1 _ _ _ (start_inv _ c1) Hrun) as [_ _ (x' & Hx & _) _ _ _].
    destruct (Hend (d_state d) (option_list startMsg ++ d_sent d) x) as (err & H1 & H2 & H3).
    exists (d_state d), (d_handled d), (option_list startMsg ++ d_sent d), (d_sent d ++ d_outgoing d), x'.
    split_and!; [done|done| |done|eauto]. exists (d_outgoing d). by rewrite <-app_assoc.
Qed.

(** ** Witnesses *)

Module SimpleSamples.
(** A handler that counts and echoes. *)
Definition echo : SimpleHandlerBase nat :=
  mkHandlerBase nat (fun n => (n, Ok (Some (NewServerNoticeMsg "hello"))))
    (fun n => (Some (NewServerNoticeMsg "bye"), None))
    (fun n msg => if String.eqb (c_Type msg) MsgTypeAuth then (n, inr "auth"%string)
                  else (S n, inl [NewServerEOSEMsg (c_SubscriptionID msg); NewServerNoticeMsg "more"])).
Definition req (s : string) : ClientMsg := client_req s [].
Definition es : list (@DrainEvent ()) :=
  [DrainRecv (req "a"); DrainPut; MainTake tt; DrainRecv (req "b"); MainSend; DrainPut; MainSend;
   MainTake tt; MainSend; DrainEOF; MainSend; MainEOF].
Definition final : Served := match drain_run (simple_handle echo) (start_serving 0%nat) es with Some d => d | None => start_serving 0%nat end.
End SimpleSamples.

Lemma drain_sequential_witness :
  d_received SimpleSamples.final = snd <$> d_handled SimpleSamples.final /\
  one_by_one (simple_handle SimpleSamples.echo) 0%nat (d_handled SimpleSamples.final) =
    (d_state SimpleSamples.final, d_sent SimpleSamples.final, None).
Proof.
  refine (proj2 (proj2 (proj2 (drain_sequential (simple_handle SimpleSamples.echo) 0%nat SimpleSamples.es
    SimpleSamples.final _))) _ _); vm_compute; reflexivity.
Defined.

Lemma drain_never_wedges_witness :
  exists es d', forallb (@drain_event ()) es = true /\
    drain_run (simple_handle SimpleSamples.echo) (start_serving 0%nat) es = Some d' /\
    d_received d' = replicate 11 (SimpleSamples.req "x").
Proof.
  destruct (drain_never_wedges (simple_handle SimpleSamples.echo) (start_serving 0%nat)
    (replicate 11 (SimpleSamples.req "x"))) as (es & d' & H1 & H2 & H3 & _); [reflexivity|simpl; unfold simpleHandlerMsgQueueBuffer; lia|].
  by exists es, d'.
Defined.

Lemma simple_handler_lifecycle_witness :
  exists c' msgs sent out x,
    [2%nat] = [c'] /\
    one_by_one (simple_handle SimpleSamples.echo) 0%nat msgs = (c', out, x) /\
    sent `prefix_of` NewServerNoticeMsg "hello" :: out.
Proof.
  destruct (simple_handler_lifecycle SimpleSamples.echo 0%nat false SimpleSamples.es true
    (mkSimpleRun (NewServerNoticeMsg "hello" :: d_sent SimpleSamples.final ++ [NewServerNoticeMsg "bye"]) [] [2%nat]))
    as (c' & msgs & sent & out & x & H1 & H2 & H3 & _); [vm_compute; reflexivity|].
  by exists c', msgs, sent, out, x.
Defined.
