(* ===== verification/StorageSpec.v ===== *)
(** * The storage interface (storage.go)

    What the [Storage] interface promises its clients, as a class of operations
    and a class of laws, and the in-memory storage as an instance.  The handler
    and the composite storage are verified against the interface alone. *)

From S2P Require Import Prelude GoTime Text Event Filter Storage.

(** ** Operations *)

(** The error an iteration can leave; [DeadlineExceeded] is the one of package
    context that clients look for. *)
Inductive QueryErr : Type :=
| DeadlineExceeded
| OtherErr (e : string).

#[export] Instance QueryErr_eq_dec : EqDecision QueryErr.
Proof. solve_decision. Defined.

(** A query under a context: the events the iterator yields to a consumer that
    does not stop, and what [errFn] returns to a consumer that stopped after so
    many of them. *)
Record QueryRun : Type := mkQueryRun {
  q_events : list Event;
  q_err : nat -> option QueryErr
}.

(** When the context a query was given ends, as far as the storage notices: after
    so many events, or never. *)
Definition QueryCtx : Type := option nat.

Class StorageOps (S : Type) : Type := {
  storage_Store : S -> option Event -> S * Res bool;
  storage_Query : QueryCtx -> S -> list ReqFilter -> QueryRun
}.

(** ** Laws *)

(** [contents] are the events a storage holds, all of them events it was given.  A
    query yields an answer for the contents, as [query_answer] says; when the context
    ends it may stop early, and then reports it.  [accepts] are the events a storage
    can be given without breaking it, [answers] the filters it answers in full; to
    any others, what it yields is stored at least. *)
Class StorageLaws (S : Type) `{StorageOps S} : Type := {
  storage_ok : S -> Prop;
  contents : S -> list Event;
  accepts : Event -> Prop;
  answers : ReqFilter -> Prop;
  law_Store_ok : forall s e, storage_ok s -> (forall x, e = Some x -> accepts x) -> storage_ok (storage_Store s e).1;
  law_Store_stored : forall s e s', storage_ok s -> accepts e -> storage_Store s (Some e) = (s', Ok true) ->
    ev_Kind e <> 5 -> e ∈ contents s';
  law_Store_refused : forall s e s', storage_ok s -> storage_Store s e = (s', Ok false) -> contents s' = contents s;
  law_Store_contents : forall s e x, storage_ok s -> (forall y, e = Some y -> accepts y) ->
    x ∈ contents (storage_Store s e).1 -> x ∈ contents s \/ e = Some x;
  law_Query_stored : forall ctx s filters e, storage_ok s -> e ∈ q_events (storage_Query ctx s filters) -> e ∈ contents s;
  law_Query : forall ctx s filters, storage_ok s -> Forall answers filters -> exists l,
    query_answer (contents s) filters l /\
    q_events (storage_Query ctx s filters) `prefix_of` l /\
    (ctx = None -> q_err (storage_Query ctx s filters) (length (q_events (storage_Query ctx s filters))) = None ->
     q_events (storage_Query ctx s filters) = l)
}.

(** ** Storages a client cannot tell apart *)

(** A relation between the states of two storages that stores of [good] events keep,
    with the same result, and under which queries with filters of [asks] give the
    same events and errors. *)
Record indistinguishable {S T : Type} `{StorageOps S, StorageOps T} (R : S -> T -> Prop)
    (good : Event -> Prop) (asks : ReqFilter -> Prop) : Prop := {
  ind_Store : forall s t e, R s t -> good e ->
    R (storage_Store s (Some e)).1 (storage_Store t (Some e)).1 /\
    (storage_Store s (Some e)).2 = (storage_Store t (Some e)).2;
  ind_Query : forall ctx s t filters, R s t -> Forall asks filters ->
    q_events (storage_Query ctx s filters) = q_events (storage_Query ctx t filters) /\
    forall n, q_err (storage_Query ctx s filters) n = q_err (storage_Query ctx t filters) n
}.

(** ** The in-memory storage *)

#[export] Instance InMemory_ops : StorageOps InMemoryStorage := {|
  storage_Store := Store;
  storage_Query := fun _ s filters =>
    mkQueryRun (match Query s filters with Ok l => l | _ => [] end) (fun _ => None)
|}.

Lemma store_event_stored s e s' : store_event s e = (s', true) -> ev_Kind e <> 5 -> e ∈ events s'.
Proof.
  intros Heq Hk. pose proof (store_event_outcome s e) as Hout. rewrite Heq in Hout. cbn [fst snd] in Hout.
  inversion Hout; subst; try done; cbn [events set_events]; set_solver.
Qed.

Lemma store_event_refused s e s' : store_event s e = (s', false) -> s' = s.
Proof.
  intros Heq. pose proof (store_event_outcome s e) as Hout. rewrite Heq in Hout. cbn [fst snd] in Hout.
  by inversion Hout.
Qed.

Lemma store_outcome_contents s e s' b x : store_outcome s e s' b -> x ∈ events s' -> x ∈ events s \/ Some e = Some x.
Proof.
  assert (Hk : x ∈ events (processKind5 s e) -> x ∈ events s) by apply processKind5_sublist.
  intros Hout. inversion Hout as [| | |l1 e0 l2 ? ? Heq|? ? ?|? ? ?|]; subst; cbn [events set_events].
  1-3: by left.
  - rewrite Heq. set_solver.
  - by left; apply Hk.
  - intros [?%Hk|Hin]%elem_of_app; [by left|set_solver].
  - set_solver.
Qed.

(** The in-memory storage accepts any event and answers any filter. *)
#[export] Instance InMemory_laws : StorageLaws InMemoryStorage.
Proof.
  refine {| storage_ok := storage_wf; contents := events; accepts := fun _ => True; answers := fun _ => True |}.
  - intros s e Hs _. by apply Store_wf.
  - intros s e s' _ _ Heq Hk. cbn in Heq. destruct (store_event s e) as [s1 b] eqn:E.
    injection Heq as -> ->. by eapply store_event_stored.
  - intros s [e|] s' _ Heq; cbn in Heq; [|by injection Heq as ->].
    destruct (store_event s e) as [s1 b] eqn:E. injection Heq as -> ->. by rewrite (store_event_refused _ _ _ E).
  - intros s [e|] x _ _; cbn; [|by left]. pose proof (store_event_outcome s e) as Hout. destruct (store_event s e) as [s1 b].
    cbn [fst snd] in *. apply store_outcome_contents with (1 := Hout).
  - intros ctx s filters e Hwf. destruct (Query_answer s filters) as (l & Heq & Hl); [by apply sw_ids|].
    cbn. rewrite Heq. intros He. by apply (qa_sound _ _ _ Hl).
  - intros ctx s filters Hwf _. destruct (Query_answer s filters) as (l & Heq & Hl); [by apply sw_ids|].
    exists l. cbn. rewrite Heq. by split_and!.
Defined.

Lemma in_memory_answers filters : Forall (answers (S := InMemoryStorage)) filters.
Proof. by apply Forall_forall. Qed.
