(* ===== verification/MetricsStorage.v ===== *)
(** * The measuring storage (metrics_storage.go)

    A decorator that counts what goes through it.  It is a storage like the one it
    wraps: an instance of the interface that keeps every law. *)

From S2P Require Import Prelude GoTime Text Event Filter Storage Message Metrics StorageSpec.

(** ** Operations *)

Record MetricsStorage (S : Type) : Type := mkMetricsStorage {
  ms_storage : S;
  ms_metrics : option storageMetrics
}.
Arguments mkMetricsStorage {S} _ _.
Arguments ms_storage {S} _.
Arguments ms_metrics {S} _.

Definition NewMetricsStorage {S} (storage : S) (reg : bool) : MetricsStorage S :=
  mkMetricsStorage storage (newStorageMetrics reg).

Section Decorator.
Context {S : Type} `{StorageOps S}.

(** What is recorded of a [Store] that returned; the kind of a nil event is a nil
    dereference. *)
Definition record_store (event : option Event) (r : Res bool) (m : storageMetrics) : storageMetrics * Res bool :=
  let m := observe_store m in
  match r with
  | Err _ => (inc_store_errors m, r)
  | Ok stored =>
      match event with
      | None => (m, Panic "nil dereference")
      | Some e => (inc_stored (kindLabels (ev_Kind e), stored) m, r)
      end
  | Panic _ => (m, r)
  end.

Definition MetricsStorage_Store (s : MetricsStorage S) (event : option Event) : MetricsStorage S * Res bool :=
  match ms_metrics s with
  | None => let '(st, r) := storage_Store (ms_storage s) event in (mkMetricsStorage st None, r)
  | Some m =>
      match storage_Store (ms_storage s) event with
      | (st, Panic w) => (mkMetricsStorage st (Some m), Panic w)
      | (st, r) => let '(m, r) := record_store event r m in (mkMetricsStorage st (Some m), r)
      end
  end.

(** The events of a query are those of the storage. *)
#[export] Instance MetricsStorage_ops : StorageOps (MetricsStorage S) := {|
  storage_Store := MetricsStorage_Store;
  storage_Query := fun ctx s filters => storage_Query ctx (ms_storage s) filters
|}.

(** The functions a query returns beside its events, in any order and as often as
    the consumer calls them: [errFn] after it has taken so many events, with the
    [sync.Once] of the query, and [closeFn]. *)
Inductive QueryCall : Type :=
| CallErr (taken : nat)
| CallClose.

Record QueryHandle : Type := mkQueryHandle {
  qh_metrics : option storageMetrics;
  qh_once : bool
}.

Definition query_call (q : QueryRun) (h : QueryHandle) (c : QueryCall) : QueryHandle * option QueryErr :=
  match qh_metrics h with
  | None => (h, match c with CallErr n => q_err q n | CallClose => None end)
  | Some m =>
      match c with
      | CallErr n =>
          match q_err q n with
          | Some e => (if qh_once h then h else mkQueryHandle (Some (inc_query_errors m)) true, Some e)
          | None => (h, None)
          end
      | CallClose => (mkQueryHandle (Some (observe_query m)) (qh_once h), None)
      end
  end.

Fixpoint query_calls (q : QueryRun) (h : QueryHandle) (cs : list QueryCall) : QueryHandle * list (option QueryErr) :=
  match cs with
  | [] => (h, [])
  | c :: cs =>
      let '(h, r) := query_call q h c in
      let '(h, rs) := query_calls q h cs in (h, r :: rs)
  end.

(** Events stored one after the other. *)
Fixpoint store_each {T} `{StorageOps T} (s : T) (es : list Event) : T * list (Res bool) :=
  match es with
  | [] => (s, [])
  | e :: es =>
      let '(s, r) := storage_Store s (Some e) in
      let '(s, rs) := store_each s es in (s, r :: rs)
  end.

(** ** The decorator is a storage *)

Lemma MetricsStorage_Store_same s e : 
  ms_storage (MetricsStorage_Store s (Some e)).1 = (storage_Store (ms_storage s) (Some e)).1 /\
  (MetricsStorage_Store s (Some e)).2 = (storage_Store (ms_storage s) (Some e)).2.
Proof.
  unfold MetricsStorage_Store. destruct (ms_metrics s) as [m|].
  - by destruct (storage_Store (ms_storage s) (Some e)) as [st [b|e'|w]].
  - by destruct (storage_Store (ms_storage s) (Some e)) as [st r].
Qed.

(** What the storage holds and may hold is what the wrapped one does, whatever
    event is stored. *)
Lemma MetricsStorage_Store_storage s e : ms_storage (MetricsStorage_Store s e).1 = (storage_Store (ms_storage s) e).1.
Proof.
  unfold MetricsStorage_Store. destruct (ms_metrics s) as [m|]; destruct (storage_Store (ms_storage s) e) as [st r]; [|done].
  destruct r; [|done..]. destruct e; done.
Qed.

Lemma MetricsStorage_Store_ok s e s' b : MetricsStorage_Store s e = (s', Ok b) ->
  storage_Store (ms_storage s) e = (ms_storage s', Ok b).
Proof.
  unfold MetricsStorage_Store. destruct (ms_metrics s) as [m|]; destruct (storage_Store (ms_storage s) e) as [st r].
  - destruct r; [|done..]. destruct e; [|done]. by intros [= <- <-].
  - by intros [= <- <-].
Qed.

#[export] Instance MetricsStorage_laws `{!StorageLaws S} : StorageLaws (MetricsStorage S).
Proof.
  refine {| storage_ok s := storage_ok (ms_storage s); contents s := contents (ms_storage s);
            accepts := accepts (S := S); answers := answers (S := S) |}.
  - intros s e Hs. cbn. rewrite MetricsStorage_Store_storage. by apply law_Store_ok.
  - intros s e s' Hs He Heq%MetricsStorage_Store_ok. by eapply law_Store_stored.
  - intros s e s' Hs Heq%MetricsStorage_Store_ok. by eapply law_Store_refused.
  - intros s e x Hs. cbn. rewrite MetricsStorage_Store_storage. by apply law_Store_contents.
  - intros ctx s. exact (law_Query_stored ctx (ms_storage s)).
  - intros ctx s. exact (law_Query ctx (ms_storage s)).
Defined.

Lemma MetricsStorage_indistinguishable {T} `{StorageOps T} (R : S -> T -> Prop) good asks :
  indistinguishable R good asks -> indistinguishable (fun s t => R (ms_storage s) t) good asks.
Proof.
  intros [Hst Hq]. constructor; [|by intros ctx s; apply Hq]. intros s t e HR He.
  destruct (MetricsStorage_Store_same s e) as [Hs Hr]. cbn. rewrite Hs, Hr. by apply Hst.
Qed.

(** ** What is counted *)

Definition returned (r : Res bool) : bool := match r with Panic _ => false | _ => true end.
Definition failed (r : Res bool) : bool := match r with Err _ => true | _ => false end.

(** The calls counted in one series. *)
Definition in_series (l : StoredLabels) (er : Event * Res bool) : bool :=
  match er.2 with Ok b => bool_decide ((kindLabels (ev_Kind er.1), b) = l) | _ => false end.

Definition count {A} (p : A -> bool) (l : list A) : Z := Z.of_nat (length (List.filter p l)).

Lemma count_cons {A} (p : A -> bool) a l : count p (a :: l) = (if p a then 1 else 0) + count p l.
Proof. unfold count. cbn [List.filter]. destruct (p a); cbn [length]; lia. Qed.

Lemma count_nil {A} (p : A -> bool) : count p [] = 0.
Proof. done. Qed.

(** How the metrics have moved over some stores. *)
Definition stores_counted (m m' : storageMetrics) (ers : list (Event * Res bool)) : Prop :=
  StoreDuration m' = StoreDuration m + count (fun er => returned er.2) ers /\
  StoreErrors m' = StoreErrors m + count (fun er => failed er.2) ers /\
  (forall l, value (EventsStored m') l = value (EventsStored m) l + count (in_series l) ers) /\
  QueryErrors m' = QueryErrors m /\ QueryDuration m' = QueryDuration m.

Lemma record_store_counted e r m : returned r = true ->
  (record_store (Some e) r m).2 = r /\ stores_counted m (record_store (Some e) r m).1 [(e, r)].
Proof.
  intros Hr. split; [by destruct r|]. unfold stores_counted. setoid_rewrite count_cons. setoid_rewrite count_nil.
  destruct r as [b|err|w]; [| |done]; cbn.
  - split_and!; try lia. intros l. rewrite value_Inc. unfold in_series. cbn. destruct (decide (l = (kindLabels (ev_Kind e), b))) as [->|Hne].
    + rewrite bool_decide_true by done. lia.
    + rewrite bool_decide_false by (by intros <-). lia.
  - split_and!; try lia; intros l; unfold in_series; cbn; lia.
Qed.

Lemma stores_counted_cons m m1 m2 er ers : stores_counted m m1 [er] -> stores_counted m1 m2 ers -> stores_counted m m2 (er :: ers).
Proof.
  unfold stores_counted. rewrite !count_cons, !count_nil. intros (H1 & H2 & H3 & H4 & H5) (K1 & K2 & K3 & K4 & K5).
  split_and!; try lia. intros l. specialize (H3 l). specialize (K3 l). rewrite !count_cons, ?count_nil in *. lia.
Qed.

Lemma store_each_spec es : forall s s' rs, store_each s es = (s', rs) ->
  store_each (ms_storage s) es = (ms_storage s', rs) /\
  match ms_metrics s, ms_metrics s' with
  | Some m, Some m' => stores_counted m m' (zip es rs)
  | None, None => True
  | _, _ => False
  end.
Proof.
  induction es as [|e es IH]; intros s s' rs; cbn [store_each].
  { intros [= <- <-]. split; [done|]. destruct (ms_metrics s); [|done].
    unfold stores_counted. cbn [zip zip_with]. setoid_rewrite count_nil. split_and!; try lia; intros l; lia. }
  pose proof (MetricsStorage_Store_same s e) as [Hst Hr]. change (storage_Store s (Some e)) with (MetricsStorage_Store s (Some e)).
  destruct (MetricsStorage_Store s (Some e)) as [s1 r] eqn:E. destruct (store_each s1 es) as [s2 rs2] eqn:E2. intros [= <- <-].
  cbn [fst snd] in *. subst r. destruct (IH s1 s2 rs2 E2) as [Heach Hm].
  destruct (storage_Store (ms_storage s) (Some e)) as [st r] eqn:E0. cbn [fst snd] in *. rewrite <-Hst, Heach. split; [done|].
  cbn [zip zip_with]. unfold MetricsStorage_Store in E. rewrite E0 in E. destruct (ms_metrics s) as [m|].
  - destruct (ms_metrics s2) as [m2|]; [|destruct r; injection E as <-; done].
    destruct (returned r) eqn:Hret.
    + destruct (record_store_counted e r m Hret) as [_ Hc]. eapply stores_counted_cons; [exact Hc|].
      destruct r; try done; injection E as <-; exact Hm.
    + destruct r; try done. injection E as <-. cbn [ms_metrics] in Hm. destruct Hm as (K1 & K2 & K3 & K4 & K5).
      unfold stores_counted. rewrite !count_cons. cbn. split_and!; try done.
  - injection E as <-. done.
Qed.

(** [errFn] counts an error once, however often it is asked. *)
Lemma query_calls_spec q cs : forall m once h rs,
  query_calls q (mkQueryHandle (Some m) once) cs = (h, rs) ->
  rs = map (fun c => match c with CallErr n => q_err q n | CallClose => None end) cs /\
  exists m' once', h = mkQueryHandle (Some m') once' /\
    once' = once || existsb (fun r => bool_decide (is_Some r)) rs /\
    QueryErrors m' = QueryErrors m + (if once then 0 else if once' then 1 else 0) /\
    QueryDuration m' = QueryDuration m + count (fun c => match c with CallClose => true | _ => false end) cs.
Proof.
  induction cs as [|c cs IH]; intros m once h rs; cbn [query_calls map].
  { intros [= <- <-]. split; [done|]. exists m, once. rewrite orb_false_r, count_nil. split_and!; [done..|destruct once; lia|lia]. }
  rewrite count_cons. unfold query_call. cbn [qh_metrics qh_once]. destruct c as [n|].
  - destruct (q_err q n) as [err|] eqn:Hq.
    + destruct once; cbn [negb];
        (match goal with |- context [query_calls q ?h0 cs] => destruct (query_calls q h0 cs) as [h2 rs2] eqn:E end);
        intros [= <- <-]; apply IH in E as (-> & m' & once' & -> & -> & He & Hd); (split; [done|]); exists m'; eexists;
        (split; [done|]); cbn [existsb orb] in *; (split; [done|]); cbn in *; lia.
    + destruct (query_calls q (mkQueryHandle (Some m) once) cs) as [h2 rs2] eqn:E. intros [= <- <-].
      apply IH in E as (-> & m' & once' & -> & -> & He & Hd). split; [done|]. exists m'. eexists. split; [done|].
      cbn in *. split; [done|]. split; [done|lia].
  - destruct (query_calls q (mkQueryHandle (Some (observe_query m)) once) cs) as [h2 rs2] eqn:E. intros [= <- <-].
    apply IH in E as (-> & m' & once' & -> & -> & He & Hd). split; [done|]. exists m'. eexists. split; [done|].
    cbn in *. split; [done|]. split; [done|lia].
Qed.

End Decorator.

(** ** Properties *)

Module MetricsStorageExamples.
Definition note (id : string) (k : Z) : Event := mkEvent id "alice" (time_Unix 10) k (Some []) "" "".
Definition events : list Event := [note "a" 1; note "a" 1; note "b" 20001; note "c" 0].
Definition measured : MetricsStorage InMemoryStorage := NewMetricsStorage NewInMemoryStorage true.
End MetricsStorageExamples.

(** Measuring changes nothing: whatever events are stored, the measuring
    storage reports what the wrapped one reports and leaves it as it would be, its
    queries are the wrapped one's, and [errFn] returns what the wrapped one returns;
    with metrics on, the store counters are the numbers of calls that returned, that
    failed, and that stored or refused an event of each label, and a query counts
    at most one error however often it is asked. *)
Theorem metrics_storage_transparent {S} `{StorageOps S} (s s' : MetricsStorage S) (es : list Event) (rs : list (Res bool))
    (ctx : QueryCtx) (filters : list ReqFilter) (cs : list QueryCall) :
  store_each s es = (s', rs) ->
  store_each (ms_storage s) es = (ms_storage s', rs) /\
  storage_Query ctx s' filters = storage_Query ctx (ms_storage s') filters /\
  match ms_metrics s, ms_metrics s' with
  | Some m, Some m' =>
      stores_counted m m' (zip es rs) /\
      let q := storage_Query ctx s' filters in
      let '(h, answers) := query_calls q (mkQueryHandle (Some m') false) cs in
      answers = map (fun c => match c with CallErr n => q_err q n | CallClose => None end) cs /\
      exists m'' once, h = mkQueryHandle (Some m'') once /\
        QueryErrors m'' = QueryErrors m' + (if existsb (fun r => bool_decide (is_Some r)) answers then 1 else 0)
  | None, None => True
  | _, _ => False
  end.
Proof.
  intros Hs. destruct (store_each_spec es s s' rs Hs) as [Heach Hm]. split; [done|]. split; [done|].
  destruct (ms_metrics s) as [m|], (ms_metrics s') as [m'|]; try done. split; [done|].
  intros q. destruct (query_calls q (mkQueryHandle (Some m') false) cs) as [h answers] eqn:E.
  apply query_calls_spec in E as (Ha & m'' & once & -> & -> & He & _). split; [done|]. eexists _, _. split; [done|exact He].
Qed.

Lemma metrics_storage_transparent_witness :
  exists s' rs, store_each MetricsStorageExamples.measured MetricsStorageExamples.events = (s', rs) /\
  store_each NewInMemoryStorage MetricsStorageExamples.events = (ms_storage s', rs).
Proof.
  destruct (store_each MetricsStorageExamples.measured MetricsStorageExamples.events) as [s' rs] eqn:E.
  exists s', rs. split; [reflexivity|].
  exact (proj1 (metrics_storage_transparent MetricsStorageExamples.measured s' _ rs None [emptyFilter] [CallErr 1; CallErr 1; CallClose] E)).
Defined.
