(* ===== verification/StorageHandler.v ===== *)
(** * The storage handler (storage_handler.go)

    [handleEvent], [handleReq] and [handleCount] against the storage interface.
    Timeouts, the end of the connection and slow clients are the environment's:
    it says what each poll of the query context finds and how each send ends. *)

From S2P Require Import Prelude GoTime Text Event Filter Message Storage StorageSpec Drain.

Definition DefaultStorageHandlerSlowQueryThreshold : Z := 1000000000.
Definition queryTimeoutCLOSEDReason : string := "error: query timeout".

(** ** Options *)

Record StorageHandlerOptions : Type := mkStorageHandlerOptions {
  SlowQueryThreshold : Z;
  QueryTimeout : Z
}.

Record storageHandler : Type := mkStorageHandler {
  slowQueryThreshold : Z;
  queryTimeout : Z
}.

Definition NewStorageHandler (opts : option StorageHandlerOptions) : storageHandler :=
  match opts with
  | None => mkStorageHandler DefaultStorageHandlerSlowQueryThreshold 0
  | Some o =>
      mkStorageHandler
        (if SlowQueryThreshold o <? 0 then 0
         else if 0 <? SlowQueryThreshold o then SlowQueryThreshold o
         else DefaultStorageHandlerSlowQueryThreshold)
        (if 0 <? QueryTimeout o then QueryTimeout o else 0)
  end.

(** ** The environment of a message *)

(** The query context: alive, past its timeout while the connection's context is
    alive, or ended with the connection's. *)
Inductive CtxState : Type := Alive | TimedOut | ConnEnded.

#[export] Instance CtxState_eq_dec : EqDecision CtxState.
Proof. solve_decision. Defined.

Definition rank (c : CtxState) : nat := match c with Alive => 0 | TimedOut => 1 | ConnEnded => 2 end.
Definition later_or_same (c c' : CtxState) : Prop := (rank c <= rank c')%nat.

(** [se_poll i]: the query context when it is polled before the [i]th event is
    sent; [se_send i]: [None] when the event is sent, otherwise the context's
    state once its end was chosen; [se_after]: the context when the terminal
    message is decided; [se_last]: whether the terminal message is sent, or the
    end of the connection comes first; the times are those the slow-query log
    computes. *)
Record SendEnv : Type := mkSendEnv {
  se_query : QueryCtx;
  se_poll : nat -> CtxState;
  se_send : nat -> option CtxState;
  se_after : CtxState;
  se_last : bool;
  se_total : Z;
  se_sendWait : Z
}.

(** An environment in which time only goes forward: a context that has ended stays
    ended, and without a timeout it ends only with the connection. *)
Record env_ok (h : storageHandler) (env : SendEnv) : Prop := {
  ok_poll : forall i j, (i <= j)%nat -> later_or_same (se_poll env i) (se_poll env j);
  ok_send : forall i c, se_send env i = Some c -> c <> Alive /\ later_or_same (se_poll env i) c;
  ok_after : forall i, later_or_same (se_poll env i) (se_after env);
  ok_after_send : forall i c, se_send env i = Some c -> later_or_same c (se_after env);
  ok_timeout : queryTimeout h = 0 -> (forall i, se_poll env i <> TimedOut) /\
    (forall i, se_send env i <> Some TimedOut) /\ se_after env <> TimedOut;
  ok_query : (forall i, se_poll env i = Alive) -> se_after env = Alive -> se_query env = None
}.

(** ** Logging *)

(** The attributes of the two warnings; the times are milliseconds. *)
Inductive SlowLog : Type :=
| SlowREQ (subscription_id : string) (events_sent : nat) (total_ms scan_ms send_wait_ms : Z) (completed : bool)
| SlowCOUNT (subscription_id : string) (count : nat) (total_ms : Z).

(** [Duration.Milliseconds] *)
Definition Milliseconds (d : Z) : Z := Z.quot d 1000000.

(** [maybeLogSlowReq]; the durations are nanoseconds. *)
Definition maybeLogSlowReq (h : storageHandler) (env : SendEnv) (msg : ClientMsg) (eventsSent : nat)
    (completed : bool) : list SlowLog :=
  if slowQueryThreshold h <=? 0 then []
  else if se_total env <? slowQueryThreshold h then []
  else
    let scan := Z.max (se_total env - se_sendWait env) 0 in
    [SlowREQ (c_SubscriptionID msg) eventsSent (Milliseconds (se_total env)) (Milliseconds scan)
       (Milliseconds (se_sendWait env)) completed].

Definition maybeLogSlowCount (h : storageHandler) (env : SendEnv) (msg : ClientMsg) (count : nat)
    : list SlowLog :=
  if slowQueryThreshold h <=? 0 then []
  else if se_total env <? slowQueryThreshold h then []
  else [SlowCOUNT (c_SubscriptionID msg) count (Milliseconds (se_total env))].

(** ** The operations *)

Definition ctx_err : string := "context canceled".

(** [sendServerMsg]: the message sent, and the error. *)
Definition sendServerMsg (ok : bool) (m : ServerMsg) : list ServerMsg * option string :=
  if ok then ([m], None) else ([], Some ctx_err).

(** How the loop over the events ends. *)
Inductive LoopEnd : Type :=
| Exhausted
| Stopped
| SendFailed.

(** The loop of [handleReq] from event [i] on: the events sent, how many the
    iterator has yielded, and how it ended. *)
Fixpoint req_loop (env : SendEnv) (sub : string) (i : nat) (events : list Event)
    : list ServerMsg * nat * LoopEnd :=
  match events with
  | [] => ([], i, Exhausted)
  | event :: events =>
      if bool_decide (se_poll env i <> Alive) then ([], S i, Stopped)
      else
        match se_send env i with
        | Some ConnEnded => ([], S i, SendFailed)
        | Some _ => ([], S i, Stopped)
        | None =>
            let '(sent, n, e) := req_loop env sub (S i) events in
            (NewServerEventMsg sub (Some event) :: sent, n, e)
        end
  end.

(** The decision to send CLOSED. *)
Definition timed_out (env : SendEnv) (queryErr : option QueryErr) : bool :=
  bool_decide (se_after env = TimedOut) || bool_decide (queryErr = Some DeadlineExceeded).

(** The loop of [handleCount]. *)
Fixpoint count_loop (env : SendEnv) (i count : nat) (events : list Event) : nat * nat :=
  match events with
  | [] => (i, count)
  | _ :: events =>
      if bool_decide (se_poll env i <> Alive) then (S i, count)
      else count_loop env (S i) (S count) events
  end.

Section Handler.

Context {S : Type} `{StorageOps S} (h : storageHandler).

(** What a message gave: the messages sent, the error that ends the handler, and
    the slow-query log. *)
Definition Outcome : Type := list ServerMsg * option string * list SlowLog.

Definition handleEvent (env : SendEnv) (s : S) (msg : ClientMsg) : S * Outcome :=
  match c_Event msg with
  | None => (s, (sendServerMsg (se_last env) (NewServerOKMsg "" false "error: no event provided"), []))
  | Some event =>
      let '(s, stored) := storage_Store s (Some event) in
      let m :=
        match stored with
        | Ok true => NewServerOKMsg (ev_ID event) true ""
        | Ok false => NewServerOKMsg (ev_ID event) true "duplicate: already have this event"
        | _ => NewServerOKMsg (ev_ID event) false "error: internal error"
        end in
      (s, (sendServerMsg (se_last env) m, []))
  end.

(** The end of [handleReq], once the loop is over: the terminal message. *)
Definition finish_req (env : SendEnv) (msg : ClientMsg) (sent : list ServerMsg)
    (queryErr : option QueryErr) : Outcome :=
  let sub := c_SubscriptionID msg in
  if timed_out env queryErr then
    let '(last, err) := sendServerMsg (se_last env) (NewServerClosedMsg sub queryTimeoutCLOSEDReason) in
    (sent ++ last, err, maybeLogSlowReq h env msg (length sent) false)
  else
    let '(last, err) := sendServerMsg (se_last env) (NewServerEOSEMsg sub) in
    (sent ++ last, err, maybeLogSlowReq h env msg (length sent) (bool_decide (err = None))).

Definition handleReq (env : SendEnv) (s : S) (msg : ClientMsg) : Outcome :=
  let sub := c_SubscriptionID msg in
  if String.eqb sub "" then ([], None, [])
  else
    let q := storage_Query (se_query env) s (c_Filters msg) in
    let '(sent, n, e) := req_loop env sub 0 (q_events q) in
    match e with
    | SendFailed => (sent, Some ctx_err, maybeLogSlowReq h env msg (length sent) false)
    | _ => finish_req env msg sent (q_err q n)
    end.

Definition handleCount (env : SendEnv) (s : S) (msg : ClientMsg) : Outcome :=
  let sub := c_SubscriptionID msg in
  if String.eqb sub "" then ([], None, [])
  else
    let q := storage_Query (se_query env) s (c_Filters msg) in
    let '(n, count) := count_loop env 0 0 (q_events q) in
    let queryErr := q_err q n in
    let m :=
      if timed_out env queryErr then NewServerClosedMsg sub queryTimeoutCLOSEDReason
      else match queryErr with
           | Some _ => NewServerCountMsg sub 0 None
           | None => NewServerCountMsg sub (Z.of_nat count) None
           end in
    (sendServerMsg (se_last env) m, maybeLogSlowCount h env msg count).

(** The body of the main loop of [ServeNostr], in the shape the receive queue of
    Drain.v drives. *)
Definition storage_handle (env : SendEnv) (s : S) (msg : ClientMsg) : S * list ServerMsg * option string :=
  if String.eqb (c_Type msg) MsgTypeEvent then
    let '(s, (sent, err, _)) := handleEvent env s msg in (s, sent, err)
  else if String.eqb (c_Type msg) MsgTypeReq then
    let '(sent, err, _) := handleReq env s msg in (s, sent, err)
  else if String.eqb (c_Type msg) MsgTypeCount then
    let '(sent, err, _) := handleCount env s msg in (s, sent, err)
  else (s, [], None).

End Handler.

(** ** The loops *)

Definition event_msg (sub : string) (e : Event) : ServerMsg := NewServerEventMsg sub (Some e).

Lemma req_loop_spec env sub i evs sent n e :
  req_loop env sub i evs = (sent, n, e) ->
  exists k, sent = event_msg sub <$> take k evs /\
  match e with
  | Exhausted => k = length evs /\ n = (i + length evs)%nat
  | Stopped => exists j c, (se_poll env j = c /\ c <> Alive) \/ se_send env j = Some c
  | SendFailed => (k < length evs)%nat /\ se_send env (i + k) = Some ConnEnded
  end.
Proof.
  revert i sent n. induction evs as [|ev evs IH]; intros i sent n; cbn [req_loop].
  { intros [= <- <- <-]. exists O. split; [done|]. simpl. lia. }
  case_bool_decide as Hp.
  { intros [= <- <- <-]. exists O. split; [done|]. exists i, (se_poll env i). auto. }
  destruct (se_send env i) as [c|] eqn:Hs.
  - destruct c; intros [= <- <- <-]; exists O; (split; [done|]); [eauto..|]. rewrite Nat.add_0_r. split; [simpl; lia|done].
  - destruct (req_loop env sub (S i) evs) as [[sent' n'] e'] eqn:E. intros [= <- <- <-].
    destruct (IH _ _ _ E) as (k & -> & Hk). exists (S k). split; [done|].
    destruct e'; [|done|]; destruct Hk as [? Hk].
    + simpl. lia.
    + rewrite Nat.add_succ_r. split; [simpl; lia|done].
Qed.

(** A loop that stopped early did so because the query context had ended. *)
Lemma env_stopped h env j c :
  env_ok h env -> (se_poll env j = c /\ c <> Alive) \/ se_send env j = Some c -> se_after env <> Alive.
Proof.
  intros Hok Hc Ha.
  assert (later_or_same c (se_after env) /\ c <> Alive) as [Hl Hne].
  { destruct Hc as [[<- ?]|Hs]; [split; [apply (ok_after _ _ Hok)|done]|].
    split; [by eapply ok_after_send|by eapply ok_send]. }
  rewrite Ha in Hl. unfold later_or_same in Hl. by destruct c; simpl in Hl; try lia.
Qed.

Lemma env_alive h env i : env_ok h env -> se_after env = Alive -> se_poll env i = Alive.
Proof.
  intros Hok Ha. pose proof (ok_after _ _ Hok i) as Hl. rewrite Ha in Hl.
  unfold later_or_same in Hl. destruct (se_poll env i); simpl in Hl; [done|lia..].
Qed.

Lemma env_alive_send h env i : env_ok h env -> se_after env = Alive -> se_send env i = None.
Proof.
  intros Hok Ha. destruct (se_send env i) as [c|] eqn:E; [|done].
  destruct (env_stopped h env i c Hok); [by right|done].
Qed.

Lemma req_loop_alive h env sub i evs :
  env_ok h env -> se_after env = Alive ->
  req_loop env sub i evs = (event_msg sub <$> evs, (i + length evs)%nat, Exhausted).
Proof.
  intros Hok Ha. revert i. induction evs as [|e evs IH]; intros i; cbn [req_loop].
  { simpl. by rewrite Nat.add_0_r. }
  rewrite bool_decide_false by (rewrite (env_alive h) by done; auto).
  rewrite (env_alive_send h), IH by done. simpl. by rewrite Nat.add_succ_r.
Qed.

Lemma count_loop_alive h env i count evs :
  env_ok h env -> se_after env = Alive ->
  count_loop env i count evs = ((i + length evs)%nat, (count + length evs)%nat).
Proof.
  intros Hok Ha. revert i count. induction evs as [|e evs IH]; intros i count; cbn [count_loop].
  { simpl. by rewrite !Nat.add_0_r. }
  rewrite bool_decide_false by (rewrite (env_alive h) by done; auto).
  rewrite IH. simpl. f_equal; lia.
Qed.

Lemma env_query h env : env_ok h env -> se_after env = Alive -> se_query env = None.
Proof. intros Hok Ha. apply (ok_query _ _ Hok); [|done]. intros i. by apply (env_alive h). Qed.

(** ** The handlers *)

(** The terminal message of a REQ. *)
Definition terminal_ok (sub : string) (closed : bool) (err : option string) (terminal : list ServerMsg) : Prop :=
  match err with
  | Some _ => terminal = []
  | None => terminal = [if closed then NewServerClosedMsg sub queryTimeoutCLOSEDReason else NewServerEOSEMsg sub]
  end.

Lemma finish_req_spec h env msg sent queryErr :
  let '(out, err, _) := finish_req h env msg sent queryErr in
  exists terminal, out = sent ++ terminal /\
    terminal_ok (c_SubscriptionID msg) (timed_out env queryErr) err terminal /\
    err = if se_last env then None else Some ctx_err.
Proof.
  unfold finish_req, sendServerMsg. destruct (timed_out env queryErr), (se_last env); by eexists.
Qed.

Lemma timed_out_reason h env queryErr :
  env_ok h env -> timed_out env queryErr = true ->
  queryTimeout h <> 0 /\ se_after env = TimedOut \/ queryErr = Some DeadlineExceeded.
Proof.
  intros Hok. unfold timed_out. rewrite orb_true_iff, !bool_decide_eq_true. intros [Ht|Hd]; [left|by right].
  split; [|done]. intros H0. by destruct (ok_timeout _ _ Hok H0) as (_ & _ & ?).
Qed.

Section Contract.

Context {S : Type} `{StorageLaws S} (h : storageHandler).

(** The storage never fails on these filters. *)
Definition never_fails (s : S) (filters : list ReqFilter) : Prop :=
  forall ctx n, q_err (storage_Query ctx s filters) n = None.

(** What the storage answers when it never fails and the context stays alive. *)
Lemma alive_query env s filters :
  env_ok h env -> se_after env = Alive -> storage_ok s -> Forall answers filters -> never_fails s filters ->
  query_answer (contents s) filters (q_events (storage_Query (se_query env) s filters)).
Proof.
  intros Hok Ha Hs Hf Hno. destruct (law_Query (se_query env) s filters Hs Hf) as (l & Hl & _ & Hfull).
  rewrite Hfull; [done|by apply (env_query h)|apply Hno].
Qed.

(** The events sent are a prefix of an answer, the whole of it when the context
    stays alive. *)
Lemma req_loop_answer env s filters sub sent n e :
  storage_ok s -> Forall answers filters -> env_ok h env ->
  req_loop env sub 0 (q_events (storage_Query (se_query env) s filters)) = (sent, n, e) ->
  exists l k, query_answer (contents s) filters l /\ sent = event_msg sub <$> take k l /\
    (se_after env = Alive -> never_fails s filters -> (length l <= k)%nat) /\
    (e = SendFailed -> se_send env k = Some ConnEnded).
Proof.
  intros Hs Hf Hok Hloop.
  destruct (law_Query (se_query env) s filters Hs Hf) as (l & Hl & [l' Hpre] & Hfull).
  set (evs := q_events (storage_Query (se_query env) s filters)) in *.
  destruct (req_loop_spec _ _ _ _ _ _ _ Hloop) as (k & Hsent & Hend).
  exists l, (Nat.min k (length evs)). split; [done|].
  assert (Hk : sent = event_msg sub <$> take (Nat.min k (length evs)) l).
  { rewrite Hsent, Hpre, take_app_le by lia. f_equal.
    destruct (decide (k <= length evs)%nat); [by rewrite Nat.min_l|by rewrite Nat.min_r, !take_ge by lia]. }
  split; [done|]. split; [|intros ->; destruct Hend as [? Hend]; by rewrite Nat.min_l by lia].
  intros Ha Hno. rewrite (req_loop_alive h) in Hloop by done. injection Hloop as Hs' _ _.
  rewrite Hfull in Hs'; [|by apply (env_query h)|apply Hno].
  apply (f_equal length) in Hs'. rewrite Hk, !length_fmap, length_take in Hs'. lia.
Qed.

(** What the answer of a REQ consists of, given how it ended: [k] events of [l] were
    sent, and the terminal message [terminal], with [closed] for CLOSED. *)
Record req_answered (env : SendEnv) (s : S) (msg : ClientMsg) (out : list ServerMsg) (err : option string)
    (l : list Event) (k : nat) (closed : bool) (terminal : list ServerMsg) : Prop := {
  ra_events : query_answer (contents s) (c_Filters msg) l;
  ra_sent : out = (event_msg (c_SubscriptionID msg) <$> take k l) ++ terminal;
  ra_terminal : terminal_ok (c_SubscriptionID msg) closed err terminal;
  ra_error : err <> None -> err = Some ctx_err /\ (se_last env = false \/ se_send env k = Some ConnEnded);
  ra_closed : closed = true -> queryTimeout h <> 0 /\ se_after env = TimedOut \/
    exists n, q_err (storage_Query (se_query env) s (c_Filters msg)) n = Some DeadlineExceeded;
  ra_eose : err = None -> closed = false -> se_after env <> TimedOut;
  ra_whole : se_after env = Alive -> never_fails s (c_Filters msg) -> closed = false /\ (length l <= k)%nat
}.

Lemma finish_req_answered env s msg n l k :
  let queryErr := q_err (storage_Query (se_query env) s (c_Filters msg)) n in
  env_ok h env -> query_answer (contents s) (c_Filters msg) l ->
  (se_after env = Alive -> never_fails s (c_Filters msg) -> (length l <= k)%nat) ->
  let '(out, err, _) := finish_req h env msg (event_msg (c_SubscriptionID msg) <$> take k l) queryErr in
  exists terminal, req_answered env s msg out err l k (timed_out env queryErr) terminal.
Proof.
  intros queryErr Hok Hl Hk. pose proof (finish_req_spec h env msg (event_msg (c_SubscriptionID msg) <$> take k l) queryErr) as Hf.
  destruct (finish_req h env msg _ queryErr) as [[out err] log]. destruct Hf as (terminal & Hout & Hterm & Herr).
  exists terminal. constructor; try done.
  - intros Hne. rewrite Herr in *. destruct (se_last env); [done|]. auto.
  - intros [?|?]%(timed_out_reason h); [by left|by right; exists n|done].
  - intros _ Hno Ht. unfold timed_out in Hno. by rewrite Ht in Hno.
  - intros Ha Hno. split; [|by apply Hk]. unfold timed_out, queryErr. by rewrite Ha, Hno.
Qed.

(** C33: a REQ with a subscription id, on any storage that keeps the contract and with
    filters it answers: what is sent is the EVENTs of a prefix of a query answer under
    that id and then exactly one terminal message, EOSE or CLOSED "error: query
    timeout", unless an error is returned; that happens only when the connection's
    context ends while the next EVENT or the terminal message waits to be sent, and
    the error is the context's.  CLOSED is sent only if the timeout, being set, ran
    out, or the storage reported its deadline, and EOSE only if the timeout had not
    run out; and when the context stays alive and the storage does not fail, the
    terminal message is EOSE and every event of the answer is sent before it. *)
Theorem storage_req_answered (env : SendEnv) (s : S) (msg : ClientMsg) :
  storage_ok s -> Forall answers (c_Filters msg) -> env_ok h env -> c_SubscriptionID msg <> "" ->
  let '(out, err, _) := handleReq h env s msg in
  exists l k closed terminal, req_answered env s msg out err l k closed terminal.
Proof.
  intros Hs Hans Hok Hsub. unfold handleReq. rewrite (proj2 (String.eqb_neq _ _)) by done.
  set (q := storage_Query (se_query env) s (c_Filters msg)).
  destruct (req_loop env (c_SubscriptionID msg) 0 (q_events q)) as [[sent n] e] eqn:Hloop.
  destruct (req_loop_answer _ _ _ _ _ _ _ Hs Hans Hok Hloop) as (l & k & Hl & -> & Hk & Hfail).
  pose proof (finish_req_answered env s msg n l k Hok Hl Hk) as Hf. fold q in Hf.
  destruct (finish_req h env msg _ (q_err q n)) as [[out err] log]. destruct Hf as [terminal Hf].
  destruct e; [by exists l, k, (timed_out env (q_err q n)), terminal..|].
  exists l, k, false, []. constructor; rewrite ?app_nil_r; try done.
  - intros _. split; [done|]. right. by apply Hfail.
  - intros Ha Hno. split; [done|by apply Hk].
Qed.

Lemma handleEvent_stored env (s s' : S) e log :
  handleEvent env s (client_event e) = (s', ([NewServerOKMsg (ev_ID e) true ""], None, log)) ->
  storage_Store s (Some e) = (s', Ok true).
Proof.
  unfold handleEvent, sendServerMsg. cbn [client_event c_Event].
  destruct (storage_Store s (Some e)) as [s1 [[|]|?|?]]; destruct (se_last env); intros [=]; subst; done.
Qed.

(** A stored event is served: when an EVENT the storage accepts (not a deletion request) was
    answered OK with an empty message, the next REQ whose filters it matches and
    whose first filter sets no limit has it among the EVENTs sent, if its context
    stays alive and the storage does not fail. *)
Theorem stored_then_served env1 env2 (s s' : S) e log sub filters :
  storage_ok s -> accepts e -> ev_Kind e <> 5 ->
  handleEvent env1 s (client_event e) = (s', ([NewServerOKMsg (ev_ID e) true ""], None, log)) ->
  env_ok h env2 -> se_after env2 = Alive -> Forall answers filters -> never_fails s' filters ->
  sub <> "" -> (exists f, f ∈ filters /\ matches f e) -> query_limit filters < 0 ->
  let '(out, _, _) := handleReq h env2 s' (client_req sub filters) in event_msg sub e ∈ out.
Proof.
  intros Hs He Hk Hev Hok Ha Hans' Hno Hsub Hm Hlim. apply handleEvent_stored in Hev.
  assert (Hs' : storage_ok s') by (pose proof (law_Store_ok s (Some e) Hs ltac:(by intros ? [= <-])) as Hx; by rewrite Hev in Hx).
  pose proof (law_Store_stored s e s' Hs He Hev Hk) as Hin.
  unfold handleReq. cbn [client_req c_SubscriptionID c_Filters]. rewrite (proj2 (String.eqb_neq _ _)) by done.
  rewrite (req_loop_alive h) by done.
  pose proof (alive_query env2 s' filters Hok Ha Hs' Hans' Hno) as Hans.
  set (q := storage_Query (se_query env2) s' filters) in *.
  pose proof (finish_req_spec h env2 (client_req sub filters) (event_msg sub <$> q_events q)
                (q_err q (0 + length (q_events q))%nat)) as Hf.
  destruct (finish_req _ _ _ _ _) as [[out err] log2]. destruct Hf as (terminal & -> & _).
  apply elem_of_app. left. apply list_elem_of_fmap. exists e. split; [done|].
  destruct (qa_complete _ _ _ Hans e Hin Hm) as [?|[Hlen _]]; [done|lia].
Qed.

(** A COUNT with a subscription id and filters the storage answers gets exactly one reply, unless the
    connection ends first: with the context alive and a storage that does not
    fail it is the number of events of the query answer (so at most the first
    filter's limit); otherwise it is CLOSED "error: query timeout", only if the
    timeout ran out or the storage reported its deadline, or a COUNT. *)
Theorem storage_count_answered (env : SendEnv) (s : S) (msg : ClientMsg) :
  storage_ok s -> Forall answers (c_Filters msg) -> env_ok h env -> c_SubscriptionID msg <> "" ->
  let '(out, err, _) := handleCount h env s msg in
  (if se_last env then err = None else out = [] /\ err = Some ctx_err) /\
  (se_last env = true ->
    (exists n, out = [NewServerCountMsg (c_SubscriptionID msg) n None]) \/
    (out = [NewServerClosedMsg (c_SubscriptionID msg) queryTimeoutCLOSEDReason] /\
     (queryTimeout h <> 0 /\ se_after env = TimedOut \/
      exists n, q_err (storage_Query (se_query env) s (c_Filters msg)) n = Some DeadlineExceeded))) /\
  (se_last env = true -> se_after env = Alive -> never_fails s (c_Filters msg) ->
    exists l, query_answer (contents s) (c_Filters msg) l /\
      out = [NewServerCountMsg (c_SubscriptionID msg) (Z.of_nat (length l)) None]).
Proof.
  intros Hs Hans Hok Hsub. unfold handleCount. rewrite (proj2 (String.eqb_neq _ _)) by done.
  set (q := storage_Query (se_query env) s (c_Filters msg)).
  destruct (count_loop env 0 0 (q_events q)) as [n count] eqn:Hloop.
  unfold sendServerMsg. destruct (se_last env); split_and!; try done.
  - intros _. destruct (timed_out env (q_err q n)) eqn:Ht; [right|left; case_match; eauto].
    split; [done|]. apply (timed_out_reason h) in Ht; [|done]. destruct Ht; eauto.
  - intros _ Ha Hno. exists (q_events q). split; [by apply alive_query|].
    rewrite (count_loop_alive h) in Hloop by done. injection Hloop as <- <-.
    unfold timed_out. by rewrite Ha, (Hno (se_query env) _ : q_err q _ = None).
Qed.

End Contract.

(** ** Two storages behind the same handler *)

Section Indistinguishable.

Context {S T : Type} `{StorageOps S, StorageOps T} (h : storageHandler) (R : S -> T -> Prop).
Context (good : Event -> Prop) (asks : ReqFilter -> Prop) (Hind : indistinguishable R good asks).

(** A message the storages treat alike. *)
Definition tame (msg : ClientMsg) : Prop :=
  (forall e, c_Event msg = Some e -> good e) /\ Forall asks (c_Filters msg).

Lemma storage_handle_same env s t msg : R s t -> tame msg ->
  let '(s', out, err) := storage_handle h env s msg in
  let '(t', out', err') := storage_handle h env t msg in
  R s' t' /\ out = out' /\ err = err'.
Proof.
  intros HR [Hev Hf]. destruct (ind_Query _ _ _ Hind (se_query env) s t (c_Filters msg) HR Hf) as [Hq He].
  unfold storage_handle, handleEvent, sendServerMsg. destruct (String.eqb (c_Type msg) MsgTypeEvent).
  { destruct (c_Event msg) as [e|]; [|by destruct (se_last env)].
    destruct (ind_Store _ _ _ Hind s t e HR (Hev e eq_refl)) as [HR' Hr].
    destruct (storage_Store s (Some e)) as [s' r], (storage_Store t (Some e)) as [t' r']. cbn [fst snd] in *. subst r'.
    by destruct (se_last env). }
  destruct (String.eqb (c_Type msg) MsgTypeReq).
  { unfold handleReq. rewrite Hq. destruct (String.eqb (c_SubscriptionID msg) ""); [done|].
    destruct (req_loop env (c_SubscriptionID msg) 0 _) as [[sent n] e]. rewrite He.
    destruct (finish_req h env msg sent _) as [[? ?] ?]. by destruct e. }
  destruct (String.eqb (c_Type msg) MsgTypeCount); [|done].
  unfold handleCount. rewrite Hq. destruct (String.eqb (c_SubscriptionID msg) ""); [done|].
  destruct (count_loop env 0 0 _) as [n count]. rewrite He. unfold sendServerMsg. by destruct (se_last env).
Qed.

End Indistinguishable.

(** ** Witnesses *)

Module HandlerRuns.
Definition h : storageHandler := NewStorageHandler (Some (mkStorageHandlerOptions 0 5000000000)).
Definition env : SendEnv := mkSendEnv None (fun _ => Alive) (fun _ => None) Alive true 2000000 0.
(** The timeout runs out while the second event waits for the client. *)
Definition slow : SendEnv :=
  mkSendEnv (Some 1%nat) (fun i => if (i <=? 1)%nat then Alive else TimedOut)
    (fun i => if (i =? 1)%nat then Some TimedOut else None) TimedOut true 6000000000 5000000000.
Definition note (id : string) (t : Z) : Event := mkEvent id "alice" (time_Unix t) 1 (Some []) "hi" "".
Definition any : ReqFilter := mkReqFilter None None None ∅ None None None None.
Definition s0 : InMemoryStorage := store_all NewInMemoryStorage [note "a" 10; note "b" 20].
Definition s1 : InMemoryStorage := (Store s0 (Some (note "c" 15))).1.
End HandlerRuns.

Example handleReq_runs :
  (handleReq HandlerRuns.h HandlerRuns.env HandlerRuns.s0 (client_req "s" [HandlerRuns.any])).1 =
    ([event_msg "s" (HandlerRuns.note "b" 20); event_msg "s" (HandlerRuns.note "a" 10); NewServerEOSEMsg "s"], None) /\
  handleReq HandlerRuns.h HandlerRuns.slow HandlerRuns.s0 (client_req "s" [HandlerRuns.any]) =
    ([event_msg "s" (HandlerRuns.note "b" 20); NewServerClosedMsg "s" queryTimeoutCLOSEDReason], None,
     [SlowREQ "s" 1 6000 1000 5000 false]).
Proof. split; vm_compute; reflexivity. Qed.

Lemma alive_env_ok : env_ok HandlerRuns.h HandlerRuns.env.
Proof. constructor; cbn; try done; intros; unfold later_or_same; simpl; lia. Qed.

Lemma slow_env_ok : env_ok HandlerRuns.h HandlerRuns.slow.
Proof.
  constructor; cbn.
  - intros i j Hij. unfold later_or_same. destruct (Nat.leb_spec i 1), (Nat.leb_spec j 1); simpl; lia.
  - intros i c. destruct (Nat.eqb_spec i 1) as [->|]; [|done]. intros [= <-]. split; [done|].
    unfold later_or_same. simpl. lia.
  - intros i. unfold later_or_same. destruct (Nat.leb_spec i 1); simpl; lia.
  - intros i c. destruct (Nat.eqb_spec i 1); [|done]. intros [= <-]. by unfold later_or_same.
  - done.
  - done.
Qed.

Lemma s0_ok : storage_wf HandlerRuns.s0.
Proof. apply store_all_wf, new_storage_wf. Qed.

Lemma storage_req_answered_witness : exists l k closed terminal,
  req_answered HandlerRuns.h HandlerRuns.slow HandlerRuns.s0 (client_req "s" [HandlerRuns.any])
    [event_msg "s" (HandlerRuns.note "b" 20); NewServerClosedMsg "s" queryTimeoutCLOSEDReason] None l k closed terminal.
Proof.
  pose proof (storage_req_answered HandlerRuns.h HandlerRuns.slow HandlerRuns.s0
    (client_req "s" [HandlerRuns.any]) s0_ok (in_memory_answers _) slow_env_ok ltac:(discriminate)) as Hr.
  rewrite (proj2 handleReq_runs) in Hr. exact Hr.
Defined.

Lemma stored_then_served_witness :
  let '(out, _, _) := handleReq HandlerRuns.h HandlerRuns.env HandlerRuns.s1 (client_req "s" [HandlerRuns.any]) in
  event_msg "s" (HandlerRuns.note "c" 15) ∈ out.
Proof.
  apply (stored_then_served HandlerRuns.h HandlerRuns.env HandlerRuns.env HandlerRuns.s0 HandlerRuns.s1
           (HandlerRuns.note "c" 15) [] "s" [HandlerRuns.any]).
  - exact s0_ok.
  - exact I.
  - discriminate.
  - vm_compute. reflexivity.
  - exact alive_env_ok.
  - reflexivity.
  - apply in_memory_answers.
  - intros ctx n. reflexivity.
  - discriminate.
  - exists HandlerRuns.any. split; [by apply list_elem_of_singleton|]. apply Match_matches. vm_compute. reflexivity.
  - vm_compute. reflexivity.
Defined.

Lemma storage_count_answered_witness :
  exists l, query_answer (events HandlerRuns.s0) [HandlerRuns.any] l /\
    (handleCount HandlerRuns.h HandlerRuns.env HandlerRuns.s0 (client_count "s" [HandlerRuns.any])).1.1 =
      [NewServerCountMsg "s" (Z.of_nat (length l)) None].
Proof.
  pose proof (storage_count_answered HandlerRuns.h HandlerRuns.env HandlerRuns.s0
    (client_count "s" [HandlerRuns.any]) s0_ok (in_memory_answers _) alive_env_ok ltac:(discriminate)) as Hr.
  destruct (handleCount HandlerRuns.h HandlerRuns.env HandlerRuns.s0 (client_count "s" [HandlerRuns.any])) as [[out err] log].
  apply Hr; [reflexivity..|]. intros ctx n. reflexivity.
Defined.
