(* ===== verification/Composite.v ===== *)
(** * Search: the index adapter and the composite storage (bleve_index.go, composite_storage.go)

    The full-text index is third-party code and stays a parameter.  The adapter
    around it and the storage that combines it with a primary storage are
    modelled against the two interfaces. *)

From S2P Require Import Prelude GoTime Text Event Filter Storage StorageSpec.

(** ** The index interface *)

Class SearchIndex (I : Type) : Type := {
  ix_Index : I -> option Event -> I * option string;
  ix_Search : I -> string -> Z -> option (list string) + string;
  ix_Delete : I -> string -> I * option string
}.

(** ** The adapter of bleve *)

Record bleveEvent : Type := mkBleveEvent {
  be_ID : string;
  be_Pubkey : string;
  be_Kind : Z;
  be_CreatedAt : Z;
  be_Content : string
}.

(** What the adapter calls of [bleve.Index]; a search request has a size only when
    one was set, and gives the ids of its hits. *)
Class BleveOps (B : Type) : Type := {
  bleve_Index : B -> string -> bleveEvent -> B * option string;
  bleve_Search : B -> string -> option Z -> list string + string;
  bleve_Delete : B -> string -> B * option string;
  bleve_DocCount : B -> Z + string
}.

Definition BleveIndex_Index {B} `{BleveOps B} (b : B) (event : option Event) : B * option string :=
  match event with
  | None => (b, None)
  | Some e =>
      bleve_Index b (ev_ID e)
        (mkBleveEvent (ev_ID e) (ev_Pubkey e) (ev_Kind e) (Unix (ev_CreatedAt e)) (ev_Content e))
  end.

(** An empty query gives a nil slice and no error. *)
Definition BleveIndex_Search {B} `{BleveOps B} (b : B) (query : string) (limit : Z)
    : option (list string) + string :=
  if String.eqb query "" then inl None
  else
    match bleve_Search b query (if 0 <? limit then Some limit else None) with
    | inl ids => inl (Some ids)
    | inr e => inr e
    end.

Definition BleveIndex_Delete {B} `{BleveOps B} (b : B) (eventID : string) : B * option string :=
  bleve_Delete b eventID.

Definition docCount {B} `{BleveOps B} (b : B) : Z + string := bleve_DocCount b.

#[export] Instance BleveIndex {B} `{BleveOps B} : SearchIndex B := {|
  ix_Index := BleveIndex_Index;
  ix_Search := BleveIndex_Search;
  ix_Delete := BleveIndex_Delete
|}.

(** ** The composite storage *)

Record compositeStorageMetrics : Type := mkCompositeMetrics {
  SearchTotal : Z;
  SearchErrors : Z;
  IndexTotal : Z;
  IndexErrors : Z
}.

Record CompositeStorage (S I : Type) : Type := mkComposite {
  primary : S;
  search : option I;
  cs_metrics : option compositeStorageMetrics
}.
Arguments mkComposite {S I}.
Arguments primary {S I}.
Arguments search {S I}.
Arguments cs_metrics {S I}.

Section Composite.

Context {S I : Type} `{StorageOps S} `{SearchIndex I}.

Definition NewCompositeStorage (p : S) (i : option I) (registerer : bool) : CompositeStorage S I :=
  mkComposite p i (if registerer then Some (mkCompositeMetrics 0 0 0 0) else None).

Definition count_index (failed : bool) (m : compositeStorageMetrics) : compositeStorageMetrics :=
  mkCompositeMetrics (SearchTotal m) (SearchErrors m) (IndexTotal m + 1)
    (IndexErrors m + if failed then 1 else 0).
Definition count_search (failed : bool) (m : compositeStorageMetrics) : compositeStorageMetrics :=
  mkCompositeMetrics (SearchTotal m + 1) (SearchErrors m + if failed then 1 else 0) (IndexTotal m)
    (IndexErrors m).

(** Only events that are kept and have content are indexed. *)
Definition indexable (e : Event) : bool :=
  negb (bool_decide (eventType e = EventTypeEphemeral)) && negb (String.eqb (ev_Content e) "").

Definition CompositeStore (s : CompositeStorage S I) (event : option Event)
    : CompositeStorage S I * Res bool :=
  match storage_Store (primary s) event with
  | (p, Ok true) =>
      match search s, event with
      | Some i, Some e =>
          if indexable e then
            let '(i, err) := ix_Index i event in
            (mkComposite p (Some i) (count_index (bool_decide (is_Some err)) <$> cs_metrics s), Ok true)
          else (mkComposite p (search s) (cs_metrics s), Ok true)
      | _, _ => (mkComposite p (search s) (cs_metrics s), Ok true)
      end
  | (p, r) => (mkComposite p (search s) (cs_metrics s), r)
  end.

(** The search text of the first filter that has one; "" when none has. *)
Fixpoint searchQuery (filters : list ReqFilter) : string :=
  match filters with
  | [] => ""
  | f :: filters =>
      match f_Search f with
      | Some q => if String.eqb q "" then searchQuery filters else q
      | None => searchQuery filters
      end
  end.

Definition search_limit (filters : list ReqFilter) : Z :=
  match filters with
  | f :: _ => match f_Limit f with Some l => l | None => 100 end
  | [] => 100
  end.

(** A list is copied when it is not empty. *)
Definition copy_list {A} (l : option (list A)) : option (list A) :=
  if (0 <? length (elems l))%nat then l else None.

(** [searchFilter]: the ids found and some constraints of the first filter. *)
Definition searchFilter (filters : list ReqFilter) (eventIDs : option (list string)) : ReqFilter :=
  match filters with
  | f :: _ =>
      mkReqFilter eventIDs (copy_list (f_Authors f)) (copy_list (f_Kinds f)) ∅ (f_Since f) (f_Until f)
        (Some (search_limit filters)) None
  | [] => mkReqFilter eventIDs None None ∅ None None (Some (search_limit filters)) None
  end.

Definition empty_run : QueryRun := mkQueryRun [] (fun _ => None).

Definition CompositeQuery (ctx : QueryCtx) (s : CompositeStorage S I) (filters : list ReqFilter)
    : CompositeStorage S I * QueryRun :=
  match search s with
  | None => (s, storage_Query ctx (primary s) filters)
  | Some i =>
      if String.eqb (searchQuery filters) "" then (s, storage_Query ctx (primary s) filters)
      else
        match ix_Search i (searchQuery filters) (search_limit filters) with
        | inr e =>
            (mkComposite (primary s) (search s) (count_search true <$> cs_metrics s),
             storage_Query ctx (primary s) filters)
        | inl ids =>
            (mkComposite (primary s) (search s) (count_search false <$> cs_metrics s),
             if (length (elems ids) =? 0)%nat then empty_run
             else storage_Query ctx (primary s) [searchFilter filters ids])
        end
  end.

End Composite.

(** ** Properties *)

Section Laws.

Context {S I : Type} `{StorageLaws S} `{SearchIndex I}.
Implicit Types s : CompositeStorage S I.

Lemma CompositeQuery_primary ctx s filters :
  primary (CompositeQuery ctx s filters).1 = primary s /\ search (CompositeQuery ctx s filters).1 = search s.
Proof. unfold CompositeQuery. by repeat case_match. Qed.

Lemma copy_list_listed {A} (l : option (list A)) x : listed (copy_list l) x -> listed l x.
Proof. unfold copy_list, listed. destruct l as [[|y l]|]; simpl; auto. Qed.

(** The storage reported that it stored the event. *)
Definition is_stored (r : Res bool) : bool := match r with Ok b => b | _ => false end.

(** The first filter, less what a search does not copy. *)
Definition constraints (f : ReqFilter) : ReqFilter :=
  mkReqFilter None (f_Authors f) (f_Kinds f) ∅ (f_Since f) (f_Until f) None None.

Lemma matches_searchFilter f filters ids e :
  matches (searchFilter (f :: filters) (Some ids)) e -> ids <> [] ->
  ev_ID e ∈ ids /\ matches (constraints f) e.
Proof.
  intros [M1 M2 M3 M4 M5 M6] Hne. cbn in *. split.
  - destruct M1 as [Hx|]; [|done]. by destruct ids.
  - constructor; cbn; eauto using copy_list_listed. by left.
Qed.

(** C40: the composite storage answers no search with anything its primary does not
    hold: whatever the index returns (a stale, wrong or failing one included), and
    if the primary answers the filter the search is turned into,
    every event of a search is stored in the primary and, unless the search failed
    and the primary answered in its place, it is among the index's hits, satisfies
    the authors, kinds, since and until of the first filter, and at most the first
    filter's limit (100 without one) are returned, in query order.  A query changes
    neither the primary nor the index. *)
Theorem composite_search_sound ctx s i f filters :
  storage_ok (primary s) -> search s = Some i ->
  let fs := f :: filters in
  (forall ids, answers (searchFilter fs (Some ids))) ->
  searchQuery fs <> "" ->
  let '(s', q) := CompositeQuery ctx s fs in
  primary s' = primary s /\ search s' = search s /\
  match ix_Search i (searchQuery fs) (search_limit fs) with
  | inr _ => q = storage_Query ctx (primary s) fs
  | inl ids =>
      (forall e, e ∈ q_events q -> e ∈ contents (primary s) /\ ev_ID e ∈ elems ids /\ matches (constraints f) e) /\
      (0 <= search_limit fs -> Z.of_nat (length (q_events q)) <= search_limit fs) /\
      StronglySorted ev_lt (q_events q)
  end.
Proof.
  intros Hok Hs fs Hf Hq. pose proof (CompositeQuery_primary ctx s fs) as [Hp Hi].
  unfold CompositeQuery in *. rewrite Hs, (proj2 (String.eqb_neq _ _)) in * by done.
  destruct (ix_Search i (searchQuery fs) (search_limit fs)) as [ids|e]; [|done].
  split; [done|]. split; [done|]. destruct (Nat.eqb_spec (length (elems ids)) 0) as [Hz|Hne].
  { cbn. split_and!; [set_solver|lia|constructor]. }
  destruct ids as [[|id ids]|]; [done| |done].
  destruct (law_Query ctx (primary s) [searchFilter fs (Some (id :: ids))] Hok ltac:(by apply Forall_singleton)) as (l & Hl & [l' Hpre] & _).
  split; [|split].
  - intros e He. assert (Hel : e ∈ l) by (rewrite Hpre; set_solver).
    apply (qa_sound _ _ _ Hl) in Hel as (Hc & f' & ->%list_elem_of_singleton & Hm).
    split; [done|]. by eapply matches_searchFilter.
  - intros Hlim. pose proof (qa_limit _ _ _ Hl) as Hlen. cbn [query_limit searchFilter fs f_Limit] in Hlen.
    specialize (Hlen Hlim). rewrite Hpre, length_app in Hlen. lia.
  - pose proof (qa_sorted _ _ _ Hl) as Hsorted. rewrite Hpre in Hsorted.
    by apply StronglySorted_app in Hsorted as (_ & ? & _).
Qed.

(** Store's outcome is the primary's, whatever the index does: the result and
    the primary's new state are those of storing in the primary alone; the index
    is called exactly when the event was stored, is not ephemeral and has content,
    and a failing index is only counted. *)
Theorem composite_store_primary s (event : option Event) :
  let '(p, r) := storage_Store (primary s) event in
  let '(s', r') := CompositeStore s event in
  r' = r /\ primary s' = p /\
  match search s, event with
  | Some i, Some e =>
      if is_stored r && indexable e then
        search s' = Some (ix_Index i event).1 /\
        (forall m, cs_metrics s = Some m ->
           cs_metrics s' = Some (count_index (bool_decide (is_Some (ix_Index i event).2)) m))
      else search s' = search s /\ cs_metrics s' = cs_metrics s
  | _, _ => search s' = search s /\ cs_metrics s' = cs_metrics s
  end.
Proof.
  unfold CompositeStore. destruct (storage_Store (primary s) event) as [p r].
  destruct r as [[|]|e|w]; destruct (search s) as [i|] eqn:Hs, event as [ev|]; try done.
  cbn [is_stored andb]. destruct (indexable ev); [|done].
  destruct (ix_Index i (Some ev)) as [i' err]. cbn. split_and!; try done. by intros m ->.
Qed.

(** One filter with a search text hides the other filters: although a storage
    answers with the events matching any of the filters, a stored event that
    matches the first filter, which has no search text, is left out when a later
    filter searches and the index has no hit for it. *)
Theorem composite_search_hides_filters ctx s i f g q e :
  search s = Some i -> e ∈ contents (primary s) ->
  f_Search f = None -> f_Limit f <> Some 0 -> matches f e -> f_Search g = Some q -> q <> "" ->
  ix_Search i q (search_limit [f; g]) = inl (Some []) ->
  e ∉ q_events (CompositeQuery ctx s [f; g]).2 /\
  ~ query_answer (contents (primary s)) [f; g] (q_events (CompositeQuery ctx s [f; g]).2).
Proof.
  intros Hs He Hf Hl Hm Hg Hq Hix.
  unfold CompositeQuery. rewrite Hs. cbn [searchQuery]. rewrite Hf, Hg, (proj2 (String.eqb_neq q "")) by done.
  rewrite (proj2 (String.eqb_neq q "")), Hix by done. cbn. split; [set_solver|].
  intros Hans. destruct (qa_complete _ _ _ Hans e He) as [Hin|[Hlen _]].
  - exists f. split; [by left|done].
  - by apply not_elem_of_nil in Hin.
  - cbn in Hlen. destruct (f_Limit f) as [l|]; [|done]. by subst l.
Qed.

End Laws.

(** ** The composite storage as a storage *)

Section Instance.

Context {S I : Type} `{StorageLaws S} `{SearchIndex I}.
Implicit Types s : CompositeStorage S I.

(** The counters a query moves are left out of the answer. *)
#[export] Instance Composite_ops : StorageOps (CompositeStorage S I) := {|
  storage_Store := CompositeStore;
  storage_Query := fun ctx s filters => (CompositeQuery ctx s filters).2
|}.

(** A filter without a search text. *)
Definition unsearched (f : ReqFilter) : Prop := f_Search f = None \/ f_Search f = Some "".

Lemma unsearched_query filters : Forall unsearched filters -> searchQuery filters = "".
Proof. induction 1 as [|f filters Hf _ IH]; [done|]. cbn [searchQuery]. by destruct Hf as [-> | ->]. Qed.

Lemma CompositeStore_primary s e :
  primary (CompositeStore s e).1 = (storage_Store (primary s) e).1 /\
  (CompositeStore s e).2 = (storage_Store (primary s) e).2.
Proof.
  unfold CompositeStore. destruct (storage_Store (primary s) e) as [p [[|]|err|w]]; [|done..].
  destruct (search s) as [i|], e as [e|]; [|done..]. destruct (indexable e); [|done]. by destruct (ix_Index i (Some e)).
Qed.

(** Without a search text a query is the primary's; with one it is the primary's
    for these or other filters, or empty. *)
Lemma CompositeQuery_unsearched ctx s filters : Forall unsearched filters ->
  (CompositeQuery ctx s filters).2 = storage_Query ctx (primary s) filters.
Proof. intros Hf%unsearched_query. unfold CompositeQuery. rewrite Hf. by destruct (search s). Qed.

Lemma CompositeQuery_cases ctx s filters : (CompositeQuery ctx s filters).2 = empty_run \/
  exists fs, (CompositeQuery ctx s filters).2 = storage_Query ctx (primary s) fs.
Proof. unfold CompositeQuery. repeat case_match; eauto. Qed.

(** It keeps the contract for filters without a search text. *)
#[export] Instance Composite_laws : StorageLaws (CompositeStorage S I).
Proof.
  refine {| storage_ok s := storage_ok (primary s); contents s := contents (primary s);
            accepts := accepts (S := S); answers f := answers (S := S) f /\ unsearched f |}.
  - intros s e Hs He. cbn. rewrite (proj1 (CompositeStore_primary s e)). by apply law_Store_ok.
  - intros s e s' Hs He Heq Hk. destruct (CompositeStore_primary s (Some e)) as [Hp Hr]. cbn in Heq. rewrite Heq in *.
    cbn [fst snd] in *. eapply law_Store_stored; [exact Hs|exact He| |exact Hk]. rewrite Hp, Hr. apply surjective_pairing.
  - intros s e s' Hs Heq. destruct (CompositeStore_primary s e) as [Hp Hr]. cbn in Heq. rewrite Heq in *.
    cbn [fst snd] in *. apply (law_Store_refused _ e); [done|]. rewrite Hp, Hr. apply surjective_pairing.
  - intros s e x Hs He. cbn. rewrite (proj1 (CompositeStore_primary s e)). by apply law_Store_contents.
  - intros ctx s filters e Hs. cbn. destruct (CompositeQuery_cases ctx s filters) as [->|[fs ->]]; [by intros ?%not_elem_of_nil|].
    by apply law_Query_stored.
  - intros ctx s filters Hs [Hf Hu]%Forall_and. cbn. rewrite CompositeQuery_unsearched by done. by apply law_Query.
Defined.

Lemma Composite_indistinguishable {T} `{StorageOps T} (R : S -> T -> Prop) good asks :
  indistinguishable R good asks -> indistinguishable (fun s t => R (primary s) t) good (fun f => asks f /\ unsearched f).
Proof.
  intros [Hst Hq]. constructor.
  - intros s t e HR He. destruct (CompositeStore_primary s (Some e)) as [Hp Hr]. cbn. rewrite Hp, Hr. by apply Hst.
  - intros ctx s t filters HR [Hf Hu]%Forall_and. cbn. rewrite CompositeQuery_unsearched by done. by apply Hq.
Qed.

End Instance.

(** ** Witnesses *)

Module CompositeSamples.
(** An index kept as a list of ids and contents, that finds exact contents. *)
Definition list_index : SearchIndex (list (string * string)) := {|
  ix_Index := fun l e => match e with Some e => ((ev_ID e, ev_Content e) :: l, None) | None => (l, None) end;
  ix_Search := fun l q n =>
    inl (Some (take (Z.to_nat n) (fst <$> List.filter (fun kv => String.eqb (snd kv) q) l)));
  ix_Delete := fun l id => (List.filter (fun kv => negb (String.eqb (fst kv) id)) l, None)
|}.
#[global] Existing Instance list_index.
Definition note (id : string) (t : Z) (c : string) : Event := mkEvent id "alice" (time_Unix t) 1 (Some []) c "".
Definition any (q : option string) : ReqFilter := mkReqFilter None None None ∅ None None None q.
Definition s0 : CompositeStorage InMemoryStorage (list (string * string)) :=
  mkComposite (store_all NewInMemoryStorage [note "a" 10 "x"; note "b" 20 "y"]) (Some [("a", "x"); ("gone", "y"); ("b", "y")]%string)
    (Some (mkCompositeMetrics 0 0 0 0)).
End CompositeSamples.

Lemma sample_ok : storage_wf (primary CompositeSamples.s0).
Proof. apply store_all_wf, new_storage_wf. Qed.

Example search_run :
  (CompositeQuery None CompositeSamples.s0 [CompositeSamples.any (Some "y")]).2.(q_events) =
  [CompositeSamples.note "b" 20 "y"].
Proof. vm_compute. reflexivity. Qed.

Lemma composite_search_sound_witness :
  CompositeSamples.note "b" 20 "y" ∈ events (primary CompositeSamples.s0) /\
  ev_ID (CompositeSamples.note "b" 20 "y") ∈ ["gone"; "b"]%string.
Proof.
  pose proof (composite_search_sound None CompositeSamples.s0 [("a", "x"); ("gone", "y"); ("b", "y")]%string
    (CompositeSamples.any (Some "y"%string)) [] sample_ok eq_refl ltac:(done) ltac:(discriminate)) as Hs.
  pose proof search_run as Hrun.
  destruct (CompositeQuery None CompositeSamples.s0 [CompositeSamples.any (Some "y"%string)]) as [s' q].
  cbn [snd] in Hrun. destruct Hs as (_ & _ & Hq).
  destruct (proj1 Hq (CompositeSamples.note "b" 20 "y")) as (H1 & H2 & _); [|by split].
  rewrite Hrun. by left.
Defined.

Lemma composite_search_hides_filters_witness :
  CompositeSamples.note "a" 10 "x" ∉
    q_events (CompositeQuery None CompositeSamples.s0
                [CompositeSamples.any None; CompositeSamples.any (Some "zzz"%string)]).2.
Proof.
  refine (proj1 (composite_search_hides_filters None CompositeSamples.s0 [("a", "x"); ("gone", "y"); ("b", "y")]%string
    (CompositeSamples.any None) (CompositeSamples.any (Some "zzz"%string)) "zzz" (CompositeSamples.note "a" 10 "x")
    eq_refl _ eq_refl _ _ eq_refl _ eq_refl)); [| discriminate | |discriminate].
  - apply list_elem_of_In. vm_compute. auto.
  - apply Match_matches. vm_compute. reflexivity.
Defined.
