(* ===== verification/BleveMapping.v ===== *)
(** * The mapping of the search index (bleve_index.go)

    What [BuildIndexMapping] builds with bleve's constructors, which are a
    parameter; the laws say that a document mapping maps each name to the field
    mapping it was last given. *)

From S2P Require Import Prelude GoTime Event Composite.

Class MappingOps : Type := {
  IndexMapping : Type;
  DocumentMapping : Type;
  FieldMapping : Type;
  NewIndexMapping : IndexMapping;
  NewDocumentMapping : DocumentMapping;
  NewTextFieldMapping : FieldMapping;
  NewKeywordFieldMapping : FieldMapping;
  NewNumericFieldMapping : FieldMapping;
  set_Analyzer : FieldMapping -> string -> FieldMapping;
  set_Index : FieldMapping -> bool -> FieldMapping;
  set_Store : FieldMapping -> bool -> FieldMapping;
  AddFieldMappingsAt : DocumentMapping -> string -> FieldMapping -> DocumentMapping;
  AddDocumentMapping : IndexMapping -> string -> DocumentMapping -> IndexMapping;
  set_DefaultMapping : IndexMapping -> DocumentMapping -> IndexMapping;
  cjk_AnalyzerName : string
}.

Section Mapping.
Context `{MappingOps}.

Definition event_mapping : DocumentMapping :=
  let contentField := set_Analyzer NewTextFieldMapping cjk_AnalyzerName in
  let idField := set_Store (set_Index NewTextFieldMapping false) true in
  let m := AddFieldMappingsAt NewDocumentMapping "content" contentField in
  let m := AddFieldMappingsAt m "id" idField in
  let m := AddFieldMappingsAt m "pubkey" NewKeywordFieldMapping in
  let m := AddFieldMappingsAt m "kind" NewNumericFieldMapping in
  AddFieldMappingsAt m "created_at" NewNumericFieldMapping.

Definition buildIndexMapping : IndexMapping :=
  set_DefaultMapping (AddDocumentMapping NewIndexMapping "event" event_mapping) event_mapping.

Definition BuildIndexMapping : IndexMapping := buildIndexMapping.
End Mapping.

Class MappingLaws `{MappingOps} : Type := {
  fields : DocumentMapping -> gmap string FieldMapping;
  DefaultMapping : IndexMapping -> DocumentMapping;
  law_New : fields NewDocumentMapping = ∅;
  law_Add : forall d k f, fields (AddFieldMappingsAt d k f) = <[k := f]> (fields d);
  law_Default : forall m d, DefaultMapping (set_DefaultMapping m d) = d
}.

(** The members of an indexed document, as encoding/json names them. *)
Definition document_members (e : bleveEvent) : list string := ["id"; "pubkey"; "kind"; "created_at"; "content"].

(** The mapping maps the members of an indexed document and nothing else. *)
Lemma mapping_covers_document `{MappingLaws} (e : bleveEvent) k :
  k ∈ document_members e <-> is_Some (fields (DefaultMapping BuildIndexMapping) !! k).
Proof.
  unfold BuildIndexMapping, buildIndexMapping. rewrite law_Default. unfold event_mapping. rewrite !law_Add, law_New.
  rewrite !lookup_insert_is_Some, lookup_empty. unfold document_members. rewrite !elem_of_cons, elem_of_nil.
  destruct (decide (k = "id"%string)), (decide (k = "pubkey"%string)), (decide (k = "kind"%string)),
    (decide (k = "created_at"%string)), (decide (k = "content"%string)); split; intros; subst; try tauto; try (left; done); try naive_solver.
Qed.
