(* ===== verification/PebbleKeys.v ===== *)
(** * The key layout of the Pebble storage (pebble_storage.go)

    How event ids, times, hashes and prefixes are laid out in keys, so that the
    byte order of keys is the order of query results and a range of keys is a
    condition on events. *)

From S2P Require Import Prelude GoTime Text Bytes Event Storage.

(** ** Byte slices *)

(** [bytesLess]; [bytes.Compare] and the order of Pebble's keys agree with it. *)
Fixpoint bytesLess (a b : bytes) : bool :=
  match a, b with
  | [], [] => false
  | [], _ :: _ => true
  | _ :: _, [] => false
  | x :: a, y :: b => if x <? y then true else if y <? x then false else bytesLess a b
  end.

(** [incrementBytes]; the loop runs from the last byte down. *)
Fixpoint increment_rev (r : bytes) : bytes * bool :=
  match r with
  | [] => ([], false)
  | b :: r => if b <? 255 then ((b + 1) :: r, true) else let '(r, done) := increment_rev r in (0 :: r, done)
  end.

Definition incrementBytes (b : bytes) : bytes :=
  let '(r, done) := increment_rev (reverse b) in
  if done then reverse r else reverse r ++ [0].

(** ** Hexadecimal *)

(** [hexByte] *)
Definition hexByte (c : ascii) : Z :=
  if in_range "0" "9" c then code c - code "0"
  else if in_range "a" "f" c then code c - code "a" + 10
  else if in_range "A" "F" c then code c - code "A" + 10
  else 0.

(** [hexToBytes32]: [n] bytes are still to be read; a short string is an index
    out of range. *)
Fixpoint hexToBytes (n : nat) (hex : list ascii) : Res bytes :=
  match n with
  | O => Ok []
  | S n =>
      match hex with
      | a :: b :: rest =>
          r ← hexToBytes n rest;
          mret (Z.lor (Z.land (Z.shiftl (hexByte a) 4) 255) (hexByte b) :: r)
      | _ => Panic "index out of range"
      end
  end.

Definition hexToBytes32 (hex : string) : Res bytes := hexToBytes 32 (chars hex).

Definition hexChars : list ascii := chars "0123456789abcdef".
Definition hex_digit (n : Z) : ascii := nth (Z.to_nat n) hexChars "0"%char.

(** [bytesToHex] *)
Fixpoint bytesToHex (b : bytes) : string :=
  match b with
  | [] => ""
  | v :: b => String (hex_digit (Z.shiftr v 4)) (String (hex_digit (Z.land v 15)) (bytesToHex b))
  end.

(** ** Keys *)

Definition prefixEvent : Z := 1.
Definition prefixCreatedAt : Z := 2.
Definition prefixAddr : Z := 3.
Definition prefixDeletedID : Z := 4.
Definition prefixDeletedAddr : Z := 5.
Definition prefixField : Z := 6.

(** [copy] into a field of [n] zero bytes. *)
Definition fit (n : nat) (b : bytes) : bytes := take n b ++ replicate (n - length b) 0.

Definition invertTimestamp (ts : Z) : Z := wrap_uint64 (wrap_int64 (MaxInt64 - ts)).

Definition makeEventKey (eventID : bytes) : bytes := prefixEvent :: fit 32 eventID.
Definition makeCreatedAtKey (invertedTS : Z) (eventID : bytes) : bytes :=
  prefixCreatedAt :: be64 invertedTS ++ fit 32 eventID.
Definition makeFieldKey (hash invertedTS : Z) (eventID : bytes) : bytes :=
  prefixField :: be64 hash ++ be64 invertedTS ++ fit 32 eventID.
Definition makeAddrKey (addrHash : bytes) : bytes := prefixAddr :: fit 32 addrHash.
Definition makeDeletionKey (prefix : Z) (keyData : bytes) : bytes := prefix :: fit 32 keyData.

(** FNV-1a, 64 bits, of package hash/fnv. *)
Definition fnv_offset : Z := 14695981039346656037.
Definition fnv_prime : Z := 1099511628211.
Definition fnvHash (input : string) : Z :=
  fold_left (fun h c => wrap_uint64 (Z.lxor h (code c) * fnv_prime)) (chars input) fnv_offset.

Definition NUL : string := String "000"%char "".

Definition fieldHashAuthor (pubkeyHex : string) : Z := fnvHash ("author" +:+ NUL +:+ pubkeyHex).
Definition fieldHashKind (kind : Z) : Z := fnvHash ("kind" +:+ NUL +:+ fmt_d kind).

(** [string(tagName)] of a byte is the UTF-8 encoding of that code point. *)
Definition string_of_byte (c : ascii) : string :=
  if code c <? 128 then String c ""
  else String (ascii_of_N (Z.to_N (192 + code c / 64))) (String (ascii_of_N (Z.to_N (128 + code c mod 64))) "").

Definition fieldHashTag (tagName : ascii) (tagValue : string) : Z :=
  fnvHash (string_of_byte tagName +:+ NUL +:+ tagValue).

(** ** The byte order *)

Lemma bytesLess_irrefl a : bytesLess a a = false.
Proof. induction a as [|x a IH]; [done|]. simpl. by rewrite Z.ltb_irrefl. Qed.

Lemma bytesLess_app p a b : bytesLess (p ++ a) (p ++ b) = bytesLess a b.
Proof. induction p as [|x p IH]; [done|]. simpl. by rewrite Z.ltb_irrefl. Qed.

Lemma bytesLess_trans a b c : bytesLess a b = true -> bytesLess b c = true -> bytesLess a c = true.
Proof.
  revert b c. induction a as [|x a IH]; intros [|y b] [|z c]; simpl; try done.
  destruct (Z.ltb_spec x y), (Z.ltb_spec y z), (Z.ltb_spec x z); try done; try lia;
    destruct (Z.ltb_spec y x), (Z.ltb_spec z y), (Z.ltb_spec z x); try done; try lia. apply IH.
Qed.

Lemma bytesLess_total a b : bytesLess a b = true \/ a = b \/ bytesLess b a = true.
Proof.
  revert b. induction a as [|x a IH]; intros [|y b]; simpl; auto.
  destruct (Z.ltb_spec x y), (Z.ltb_spec y x); auto; try lia.
  assert (x = y) as <- by lia. destruct (IH b) as [?|[->|?]]; auto.
Qed.

Lemma bytesLess_asym a b : bytesLess a b = true -> bytesLess b a = false.
Proof.
  intros H. destruct (bytesLess b a) eqn:E; [|done].
  pose proof (bytesLess_trans _ _ _ H E) as Hc. by rewrite bytesLess_irrefl in Hc.
Qed.

(** Parts of equal length are compared one after the other. *)
Lemma bytesLess_parts a b a' b' : length a = length a' ->
  bytesLess (a ++ b) (a' ++ b') = if decide (a = a') then bytesLess b b' else bytesLess a a'.
Proof.
  revert a'. induction a as [|x a IH]; intros [|y a']; try done. simpl. intros [= Hl].
  destruct (Z.ltb_spec x y), (Z.ltb_spec y x); try lia.
  - rewrite decide_False; [done|]. intros [=]. lia.
  - rewrite decide_False; [done|]. intros [=]. lia.
  - assert (x = y) as <- by lia. rewrite IH by done. do 2 case_decide; naive_solver.
Qed.

(** ** Fixed-width integers *)

Lemma be64_length v : length (be64 v) = 8%nat.
Proof. done. Qed.

(** The base-256 digits of a number, the highest of [n] first. *)
Fixpoint digits256 (n : nat) (v : Z) : bytes :=
  match n with
  | O => []
  | S n => v / 256 ^ Z.of_nat n mod 256 :: digits256 n v
  end.

Lemma be64_digits v : be64 v = digits256 8 v.
Proof.
  unfold be64. cbn [fmap list_fmap seq digits256].
  change 255 with (Z.ones 8). rewrite !Z.land_ones, !Z.shiftr_div_pow2 by lia. done.
Qed.

Lemma mod_digit v n :
  v mod 256 ^ Z.of_nat (S n) = v / 256 ^ Z.of_nat n mod 256 * 256 ^ Z.of_nat n + v mod 256 ^ Z.of_nat n.
Proof.
  rewrite Nat2Z.inj_succ, Z.pow_succ_r, Z.mul_comm by lia.
  rewrite Z.rem_mul_r by lia. lia.
Qed.

Lemma digits256_less n v w :
  bytesLess (digits256 n v) (digits256 n w) = (v mod 256 ^ Z.of_nat n <? w mod 256 ^ Z.of_nat n).
Proof.
  induction n as [|n IH]; [by rewrite !Z.mod_1_r|].
  cbn [digits256 bytesLess]. rewrite IH, !mod_digit.
  assert (Hp : 0 < 256 ^ Z.of_nat n) by lia. revert Hp. generalize (256 ^ Z.of_nat n). intros p Hp.
  pose proof (Z.mod_pos_bound v p Hp). pose proof (Z.mod_pos_bound w p Hp).
  generalize dependent (v mod p). generalize dependent (w mod p).
  generalize (v / p mod 256) (w / p mod 256). intros x y r Hr q Hq.
  destruct (Z.ltb_spec x y), (Z.ltb_spec y x), (Z.ltb_spec q r); try lia;
    symmetry; first [apply Z.ltb_lt; nia | apply Z.ltb_ge; nia].
Qed.

Lemma be64_less v w : uint64 v -> uint64 w -> bytesLess (be64 v) (be64 w) = (v <? w).
Proof.
  intros Hv Hw. rewrite !be64_digits, digits256_less.
  change (256 ^ Z.of_nat 8) with two64. by rewrite !Z.mod_small.
Qed.

Lemma be64_inj v w : uint64 v -> uint64 w -> be64 v = be64 w -> v = w.
Proof.
  intros Hv Hw Heq. pose proof (be64_less v w Hv Hw) as H1. pose proof (be64_less w v Hw Hv) as H2.
  rewrite Heq, bytesLess_irrefl in H1, H2. lia.
Qed.

Lemma decode_digits n v acc :
  foldl (fun acc x => acc * 256 + x) acc (digits256 n v) = acc * 256 ^ Z.of_nat n + v mod 256 ^ Z.of_nat n.
Proof.
  revert acc. induction n as [|n IH]; intros acc; [rewrite Z.mod_1_r; simpl; lia|].
  cbn [digits256 foldl]. rewrite IH, mod_digit.
  rewrite Nat2Z.inj_succ, Z.pow_succ_r by lia. lia.
Qed.

Lemma be64_decode_be64 v : uint64 v -> be64_decode (be64 v) = v.
Proof.
  intros Hv. unfold be64_decode. rewrite be64_digits, decode_digits.
  change (256 ^ Z.of_nat 8) with two64. rewrite Z.mod_small by done. lia.
Qed.

(** ** Inverted times *)

Lemma invertTimestamp_eq ts : int64 ts -> invertTimestamp ts = MaxInt64 - ts.
Proof. intros. unfold invertTimestamp. int_lia. Qed.

Lemma invertTimestamp_range ts : uint64 (invertTimestamp ts).
Proof. apply wrap_uint64_range. Qed.

Lemma invertTimestamp_lt a b : int64 a -> int64 b -> invertTimestamp a < invertTimestamp b <-> b < a.
Proof. intros Ha Hb. rewrite !invertTimestamp_eq by done. lia. Qed.

(** ** Hexadecimal *)

Lemma is_lower_hex_hexByte c : is_lower_hex c = true ->
  byte_ok (hexByte c) /\ hexByte c < 16 /\ hex_digit (hexByte c) = c.
Proof.
  assert (H : forallb (fun n => let c := ascii_of_nat n in
     implb (is_lower_hex c) ((0 <=? hexByte c) && (hexByte c <? 16) && bool_decide (hex_digit (hexByte c) = c)))
     (seq 0 256) = true) by (vm_compute; reflexivity).
  rewrite forallb_forall in H. specialize (H (nat_of_ascii c)).
  cbv beta zeta in H. rewrite ascii_nat_embedding in H. intros Hc. rewrite Hc in H. cbn [implb] in H.
  assert (Hin : In (nat_of_ascii c) (seq 0 256)) by (apply in_seq; pose proof (nat_ascii_bounded c); lia).
  specialize (H Hin). rewrite !andb_true_iff, bool_decide_eq_true in H. unfold byte_ok.
  destruct H as [[H1 H2] H3]. split_and!; [lia..|done].
Qed.

Lemma hexByte_lt c : 0 <= hexByte c < 16.
Proof.
  assert (H : forallb (fun n => let c := ascii_of_nat n in (0 <=? hexByte c) && (hexByte c <? 16))
     (seq 0 256) = true) by (vm_compute; reflexivity).
  rewrite forallb_forall in H. specialize (H (nat_of_ascii c)).
  cbv beta zeta in H. rewrite ascii_nat_embedding in H.
  assert (Hin : In (nat_of_ascii c) (seq 0 256)) by (apply in_seq; pose proof (nat_ascii_bounded c); lia).
  specialize (H Hin). rewrite andb_true_iff in H. lia.
Qed.

Lemma nibbles a b : 0 <= a < 16 -> 0 <= b < 16 ->
  Z.lor (Z.land (Z.shiftl a 4) 255) b = 16 * a + b.
Proof.
  intros Ha Hb.
  assert (Hall : forallb (fun x => forallb (fun y => Z.lor (Z.land (Z.shiftl (Z.of_nat x) 4) 255) (Z.of_nat y) =? 16 * Z.of_nat x + Z.of_nat y)
     (seq 0 16)) (seq 0 16) = true) by (vm_compute; reflexivity).
  rewrite forallb_forall in Hall. specialize (Hall (Z.to_nat a) ltac:(apply in_seq; lia)).
  rewrite forallb_forall in Hall. specialize (Hall (Z.to_nat b) ltac:(apply in_seq; lia)).
  rewrite !Z2Nat.id in Hall by lia. by apply Z.eqb_eq in Hall.
Qed.

(** Decoding a valid hex string of [2n] digits: total, and undone by printing. *)
Lemma hexToBytes_valid n l : length l = (2 * n)%nat -> forallb is_lower_hex l = true ->
  exists b, hexToBytes n l = Ok b /\ length b = n /\ Forall byte_ok b /\ chars (bytesToHex b) = l.
Proof.
  revert l. induction n as [|n IH]; intros l Hl Hh.
  { destruct l; [|done]. by exists []. }
  destruct l as [|x [|y l]]; [done|simpl in Hl; lia|]. simpl in Hh. rewrite !andb_true_iff in Hh.
  destruct Hh as (Hx & Hy & Hh). destruct (IH l) as (b & Hb & Hlen & Hok & Hchars); [simpl in Hl; lia|done|].
  destruct (is_lower_hex_hexByte x Hx) as (Bx & Lx & Dx), (is_lower_hex_hexByte y Hy) as (By & Ly & Dy).
  unfold byte_ok in Bx, By. cbn [hexToBytes]. rewrite Hb. cbn [mbind Res_bind mret Res_ret].
  rewrite nibbles by lia. eexists. split; [done|]. cbn [length bytesToHex]. split; [lia|]. split.
  - constructor; [|done]. unfold byte_ok. lia.
  - unfold chars in *. simpl. rewrite Hchars. f_equal; [|f_equal].
    + rewrite <-Dx at 2. f_equal. rewrite Z.shiftr_div_pow2 by lia. change (2 ^ 4) with 16. Z.to_euclidean_division_equations. lia.
    + rewrite <-Dy at 2. f_equal. change 15 with (Z.ones 4). rewrite Z.land_ones by lia.
      change (2 ^ 4) with 16. Z.to_euclidean_division_equations. lia.
Qed.

Lemma chars_inj a b : chars a = chars b -> a = b.
Proof.
  intros H. rewrite <-(String.string_of_list_ascii_of_string a), <-(String.string_of_list_ascii_of_string b).
  unfold chars in H. by rewrite H.
Qed.

Lemma length_chars s : length (chars s) = String.length s.
Proof. unfold chars. induction s as [|c s IH]; [done|]. simpl. by rewrite IH. Qed.

(** A 32-byte value and its 64-digit string stand for each other. *)
Lemma hexToBytes32_valid s : isValidLowercaseHex s 64 = true ->
  exists b, hexToBytes32 s = Ok b /\ length b = 32%nat /\ Forall byte_ok b /\ bytesToHex b = s.
Proof.
  unfold isValidLowercaseHex. destruct (Nat.eqb_spec (String.length s) 64) as [Hl|]; [|done].
  cbn [negb]. intros Hh. destruct (hexToBytes_valid 32 (chars s)) as (b & Hb & Hlen & Hok & Hc);
    [by rewrite length_chars|done|]. exists b. split_and!; try done. by apply chars_inj.
Qed.

Lemma hex_digit_compare x y : 0 <= x < 16 -> 0 <= y < 16 ->
  Ascii.compare (hex_digit x) (hex_digit y) = Z.compare x y.
Proof.
  intros Hx Hy.
  assert (Hall : forallb (fun x => forallb (fun y =>
      bool_decide (Ascii.compare (hex_digit (Z.of_nat x)) (hex_digit (Z.of_nat y)) = Z.compare (Z.of_nat x) (Z.of_nat y)))
     (seq 0 16)) (seq 0 16) = true) by (vm_compute; reflexivity).
  rewrite forallb_forall in Hall. specialize (Hall (Z.to_nat x) ltac:(apply in_seq; lia)).
  rewrite forallb_forall in Hall. specialize (Hall (Z.to_nat y) ltac:(apply in_seq; lia)).
  rewrite !Z2Nat.id in Hall by lia. by apply bool_decide_eq_true in Hall.
Qed.

Lemma byte_nibbles v : byte_ok v -> 0 <= Z.shiftr v 4 < 16 /\ 0 <= Z.land v 15 < 16 /\
  v = 16 * Z.shiftr v 4 + Z.land v 15.
Proof.
  unfold byte_ok. intros Hv. rewrite Z.shiftr_div_pow2 by lia. change 15 with (Z.ones 4).
  rewrite Z.land_ones by lia. change (2 ^ 4) with 16. Z.to_euclidean_division_equations. lia.
Qed.

(** Hexadecimal keeps the order. *)
Lemma bytesToHex_less a b : Forall byte_ok a -> Forall byte_ok b ->
  str_ltb (bytesToHex a) (bytesToHex b) = bytesLess a b.
Proof.
  intros Ha. revert b. induction Ha as [|x a Hx Ha IH]; intros b Hb; destruct Hb as [|y b Hy Hb]; [done..|].
  cbn [bytesToHex bytesLess]. rewrite !str_ltb_cons, IH by done.
  destruct (byte_nibbles x Hx) as (H1 & H2 & H3), (byte_nibbles y Hy) as (H4 & H5 & H6).
  rewrite !hex_digit_compare by done.
  destruct (Z.compare_spec (Z.shiftr x 4) (Z.shiftr y 4)), (Z.compare_spec (Z.land x 15) (Z.land y 15)),
    (Z.ltb_spec x y), (Z.ltb_spec y x); try done; lia.
Qed.

(** ** The order of keys *)

Lemma fit_32 b : length b = 32%nat -> fit 32 b = b.
Proof. intros Hl. unfold fit. rewrite Hl, take_ge by lia. by rewrite app_nil_r. Qed.

(** A position in an index: the inverted time and the id. *)
Definition entry : Type := Z * bytes.

Definition entry_ok (p : entry) : Prop := uint64 (fst p) /\ length (snd p) = 32%nat.

(** [Less] of the cursor heaps. *)
Definition entryLess (p q : entry) : bool :=
  if negb (fst p =? fst q) then fst p <? fst q else bytesLess (snd p) (snd q).

Lemma entry_key_less p q : entry_ok p -> entry_ok q ->
  bytesLess (be64 (fst p) ++ fit 32 (snd p)) (be64 (fst q) ++ fit 32 (snd q)) = entryLess p q.
Proof.
  intros [Hp1 Hp2] [Hq1 Hq2]. rewrite !fit_32 by done. rewrite bytesLess_parts by done.
  unfold entryLess. destruct (Z.eqb_spec (fst p) (fst q)) as [->|Hne]; cbn [negb].
  - by rewrite decide_True.
  - rewrite decide_False; [by apply be64_less|]. by intros ?%be64_inj.
Qed.

(** The bytes of a valid id. *)
Definition id_bytes (s : string) : bytes := match hexToBytes32 s with Ok b => b | _ => [] end.

Lemma id_bytes_ok s : isValidLowercaseHex s 64 = true ->
  hexToBytes32 s = Ok (id_bytes s) /\ length (id_bytes s) = 32%nat /\ Forall byte_ok (id_bytes s) /\
  bytesToHex (id_bytes s) = s.
Proof.
  intros (b & Hb & Hrest)%hexToBytes32_valid. unfold id_bytes. by rewrite Hb.
Qed.

Lemma id_bytes_less a b : isValidLowercaseHex a 64 = true -> isValidLowercaseHex b 64 = true ->
  bytesLess (id_bytes a) (id_bytes b) = str_ltb a b.
Proof.
  intros (_ & _ & Ha & Hha)%id_bytes_ok (_ & _ & Hb & Hhb)%id_bytes_ok.
  rewrite <-bytesToHex_less by done. by rewrite Hha, Hhb.
Qed.

Lemma id_bytes_inj a b : isValidLowercaseHex a 64 = true -> isValidLowercaseHex b 64 = true ->
  id_bytes a = id_bytes b -> a = b.
Proof. intros (_ & _ & _ & Ha)%id_bytes_ok (_ & _ & _ & Hb)%id_bytes_ok Heq. by rewrite <-Ha, Heq, Hb. Qed.

(** What the storage relies on about the events it is given: hex ids and a time
    in whole seconds, as the parser makes them. *)
Record event_ok (e : Event) : Prop := {
  eo_ID : isValidLowercaseHex (ev_ID e) 64 = true;
  eo_Pubkey : isValidLowercaseHex (ev_Pubkey e) 64 = true;
  eo_time : ev_CreatedAt e = time_Unix (Unix (ev_CreatedAt e));
  eo_range : unix_in_range (Unix (ev_CreatedAt e));
  eo_kind : int64 (ev_Kind e)
}.

(** The position of an event. *)
Definition event_entry (e : Event) : entry :=
  (invertTimestamp (Unix (ev_CreatedAt e)), id_bytes (ev_ID e)).

(** ** Ranges of keys *)

(** [incrementBytes] from the first byte on: the incremented bytes and whether no
    carry is left. *)
Fixpoint increment_fwd (b : bytes) : bytes * bool :=
  match b with
  | [] => ([], false)
  | x :: b =>
      let '(b', done) := increment_fwd b in
      if done then (x :: b', true) else if x <? 255 then (x + 1 :: b', true) else (0 :: b', false)
  end.

Lemma increment_rev_snoc r x : increment_rev (r ++ [x]) =
  let '(r', done) := increment_rev r in
  if done then (r' ++ [x], true) else if x <? 255 then (r' ++ [x + 1], true) else (r' ++ [0], false).
Proof.
  induction r as [|y r IH]; cbn [app increment_rev].
  - by destruct (x <? 255).
  - destruct (y <? 255); [done|]. rewrite IH. destruct (increment_rev r) as [r' d].
    destruct d; [done|]. by destruct (x <? 255).
Qed.

Lemma increment_rev_fwd b : increment_rev (reverse b) = (reverse (increment_fwd b).1, (increment_fwd b).2).
Proof.
  induction b as [|x b IH]; [done|]. rewrite reverse_cons, increment_rev_snoc, IH. cbn [increment_fwd].
  destruct (increment_fwd b) as [b' d]. cbn [fst snd].
  destruct d; [|destruct (x <? 255)]; cbn [fst snd]; by rewrite reverse_cons.
Qed.

Lemma incrementBytes_fwd b : incrementBytes b =
  let '(b', done) := increment_fwd b in if done then b' else b' ++ [0].
Proof.
  unfold incrementBytes. rewrite increment_rev_fwd. destruct (increment_fwd b) as [b' d]. cbn [fst snd].
  by rewrite reverse_involutive.
Qed.

(** Incrementing the digits of a number is adding one. *)
Lemma increment_digits n v :
  increment_fwd (digits256 n v) = (digits256 n (v + 1), negb (v mod 256 ^ Z.of_nat n =? 256 ^ Z.of_nat n - 1)).
Proof.
  induction n as [|n IH]; [cbn; by rewrite Z.mod_1_r|]. cbn [digits256 increment_fwd]. rewrite IH, mod_digit.
  rewrite Nat2Z.inj_succ, Z.pow_succ_r by lia.
  assert (Hp : 0 < 256 ^ Z.of_nat n) by lia. revert Hp. generalize (256 ^ Z.of_nat n). intros p Hp.
  pose proof (Z.mod_pos_bound v p Hp). pose proof (Z.mod_pos_bound (v / p) 256 ltac:(lia)).
  destruct (Z.eqb_spec (v mod p) (p - 1)) as [Hr|Hr]; cbn [negb].
  - assert (Hdiv : (v + 1) / p = v / p + 1).
    { rewrite (Z.div_mod v p) at 1 by lia. rewrite Hr. symmetry. apply (Z.div_unique _ _ _ 0); nia. }
    rewrite Hdiv. destruct (Z.ltb_spec (v / p mod 256) 255) as [Hx|Hx].
    + rewrite (Z.add_mod (v / p) 1 256) by lia.
      change (1 mod 256) with 1. rewrite (Z.mod_small (v / p mod 256 + 1)) by lia.
      f_equal. symmetry. apply negb_true_iff, Z.eqb_neq. nia.
    + assert (Hx' : v / p mod 256 = 255) by lia. rewrite (Z.add_mod (v / p) 1 256), Hx' by lia. change ((255 + 1 mod 256) mod 256) with 0.
      f_equal. symmetry. apply negb_false_iff, Z.eqb_eq. nia.
  - assert (Hdiv : (v + 1) / p = v / p).
    { symmetry. apply (Z.div_unique _ _ _ (v mod p + 1)); [lia|]. rewrite (Z.div_mod v p) at 1 by lia. lia. }
    rewrite Hdiv. f_equal. symmetry. apply negb_true_iff, Z.eqb_neq. nia.
Qed.

(** The upper bound of the range of a field hash. *)
Lemma incrementBytes_field p h : 0 <= p < 255 -> uint64 h ->
  incrementBytes (p :: be64 h) = if h =? two64 - 1 then p + 1 :: be64 0 else p :: be64 (h + 1).
Proof.
  intros Hp Hh. rewrite incrementBytes_fwd. cbn [increment_fwd]. rewrite !be64_digits, increment_digits.
  change (256 ^ Z.of_nat 8) with two64. rewrite Z.mod_small by done.
  destruct (Z.eqb_spec h (two64 - 1)) as [->|]; cbn [negb]; [|done].
  rewrite (proj2 (Z.ltb_lt p 255)) by lia. done.
Qed.

(** A key against a bound that is no longer than its own prefix. *)
Lemma bytesLess_prefix a r b : length a = length b -> bytesLess (a ++ r) b = bytesLess a b.
Proof.
  intros Hl. rewrite <-(app_nil_r b) at 1. rewrite bytesLess_parts by done. case_decide as E; [|done].
  subst. rewrite bytesLess_irrefl. by destruct r.
Qed.
