(* ===== verification/Heap.v ===== *)
(** * The heaps of the Pebble cursors

    container/heap of the standard library, which the query cursors use through
    [Less] and [Swap]: [Init], [Push], [Pop] and [Fix] on the slice, with the two
    sifting loops.  Their contract, minimum first and nothing lost, is what the
    cursors rely on. *)

From S2P Require Import Prelude.

Section Heap.

Context {A : Type} (less : A -> A -> bool).

(** [h.Less(i, j)] and [h.Swap(i, j)]; the loops keep the indices in range. *)
Definition heap_less (h : list A) (i j : nat) : bool :=
  match h !! i, h !! j with Some x, Some y => less x y | _, _ => false end.

Definition heap_swap (h : list A) (i j : nat) : list A :=
  match h !! i, h !! j with Some x, Some y => <[j := x]> (<[i := y]> h) | _, _ => h end.

(** [h.Push(x)] and [h.Pop()], which work at the end of the slice. *)
Definition slice_Push (h : list A) (x : A) : list A := h ++ [x].
Definition slice_Pop (h : list A) : list A * option A :=
  let n := length h in (take (n - 1) h, h !! (n - 1)%nat).

(** [down]: the loop from [i], and where it ends. *)
Fixpoint down_loop (fuel : nat) (h : list A) (i n : nat) : list A * nat :=
  match fuel with
  | O => (h, i)
  | S fuel =>
      let j1 := (2 * i + 1)%nat in
      if (n <=? j1)%nat then (h, i)
      else
        let j2 := (j1 + 1)%nat in
        let j := if (j2 <? n)%nat && heap_less h j2 j1 then j2 else j1 in
        if negb (heap_less h j i) then (h, i) else down_loop fuel (heap_swap h i j) j n
  end.

Definition heap_down (h : list A) (i0 n : nat) : list A * bool :=
  let '(h, i) := down_loop n h i0 n in (h, (i0 <? i)%nat).

(** [up] *)
Fixpoint up_loop (fuel : nat) (h : list A) (j : nat) : list A :=
  match fuel with
  | O => h
  | S fuel =>
      let i := ((j - 1) / 2)%nat in
      if (i =? j)%nat || negb (heap_less h j i) then h else up_loop fuel (heap_swap h i j) i
  end.

Definition heap_up (h : list A) (j : nat) : list A := up_loop (S j) h j.

(** [Init] sifts down the inner nodes, the last first. *)
Fixpoint init_loop (i : nat) (h : list A) : list A :=
  match i with
  | O => h
  | S i => init_loop i (fst (heap_down h i (length h)))
  end.

Definition heap_Init (h : list A) : list A := init_loop (length h / 2) h.

Definition heap_Push (h : list A) (x : A) : list A := heap_up (slice_Push h x) (length h).

(** [Pop] of a non-empty heap: the slice and the element removed. *)
Definition heap_Pop (h : list A) : list A * option A :=
  let n := (length h - 1)%nat in
  slice_Pop (fst (heap_down (heap_swap h 0 n) 0 n)).

Definition heap_Fix (h : list A) (i : nat) : list A :=
  match heap_down h i (length h) with
  | (h, true) => h
  | (h, false) => heap_up h i
  end.

(** ** The order *)

(** [less] is a strict weak order: [le] is its total preorder. *)
Definition le (x y : A) : Prop := less y x = false.

Class WeakOrder : Prop := {
  less_asym : forall x y, less x y = true -> less y x = false;
  le_trans : forall x y z, le x y -> le y z -> le x z
}.

Context `{WeakOrder}.

Lemma le_refl x : le x x.
Proof. unfold le. destruct (less x x) eqn:E; [|done]. by rewrite (less_asym _ _ E) in E. Qed.

Lemma less_le x y : less x y = true -> le x y.
Proof. apply less_asym. Qed.

Definition parent (j : nat) : nat := ((j - 1) / 2)%nat.

(** Node [j] is in order with its parent. *)
Definition in_place (h : list A) (j : nat) : Prop :=
  forall x y, h !! j = Some x -> h !! parent j = Some y -> le y x.

(** The first [n] elements form a heap below the nodes from [lo] on. *)
Definition heap_from (lo n : nat) (h : list A) : Prop :=
  forall j, (0 < j < n)%nat -> (lo <= parent j)%nat -> in_place h j.

Definition is_heap (h : list A) : Prop := heap_from 0 (length h) h.

(** *** Swapping *)

Lemma heap_swap_length h i j : length (heap_swap h i j) = length h.
Proof. unfold heap_swap. repeat case_match; by rewrite ?length_insert. Qed.

Lemma heap_swap_lookup h i j k : (i < length h)%nat -> (j < length h)%nat ->
  heap_swap h i j !! k = if decide (k = j) then h !! i else if decide (k = i) then h !! j else h !! k.
Proof.
  intros [x Hi]%lookup_lt_is_Some_2 [y Hj]%lookup_lt_is_Some_2. unfold heap_swap. rewrite Hi, Hj.
  destruct (decide (k = j)) as [->|Hne].
  - rewrite list_lookup_insert_eq; [done|]. rewrite length_insert. by apply lookup_lt_Some in Hj.
  - rewrite list_lookup_insert_ne by done. case_decide; [subst|by rewrite list_lookup_insert_ne].
    rewrite list_lookup_insert_eq; [done|]. by apply lookup_lt_Some in Hi.
Qed.

Lemma heap_swap_Permutation h i j : heap_swap h i j ≡ₚ h.
Proof.
  unfold heap_swap. destruct (h !! i) as [x|] eqn:Hi; [|done]. destruct (h !! j) as [y|] eqn:Hj; [|done].
  by apply Permutation_insert_swap.
Qed.

(** *** Parents and children *)

Lemma parent_cases j : (0 < j)%nat -> (j = 2 * parent j + 1 \/ j = 2 * parent j + 2)%nat.
Proof.
  intros Hj. unfold parent. pose proof (Nat.div_mod_eq (j - 1) 2).
  pose proof (Nat.mod_upper_bound (j - 1) 2). lia.
Qed.

Lemma parent_lt j : (0 < j)%nat -> (parent j < j)%nat.
Proof. intros Hj. pose proof (parent_cases j Hj). lia. Qed.

Lemma parent_left i : parent (2 * i + 1) = i.
Proof. pose proof (parent_cases (2 * i + 1) ltac:(lia)). lia. Qed.

Lemma parent_right i : parent (2 * i + 2) = i.
Proof. pose proof (parent_cases (2 * i + 2) ltac:(lia)). lia. Qed.

Lemma heap_less_spec h i j x y : h !! i = Some x -> h !! j = Some y -> heap_less h i j = less x y.
Proof. intros Hi Hj. unfold heap_less. by rewrite Hi, Hj. Qed.

(** *** Sifting down *)

(** The heap with a hole at [i]: everything is in place but the children of [i],
    which are in order with the parent of [i]. *)
Record hole (lo n : nat) (h : list A) (i : nat) : Prop := {
  ho_lo : (lo <= i)%nat;
  ho_place : forall j, (0 < j < n)%nat -> (lo <= parent j)%nat -> parent j <> i -> in_place h j;
  ho_over : forall j x y, (0 < j < n)%nat -> parent j = i -> (0 < i)%nat -> (lo <= parent i)%nat ->
    h !! j = Some x -> h !! parent i = Some y -> le y x
}.

(** The hole is filled when the children of [i] are in place. *)
Lemma hole_closed lo n h i : hole lo n h i ->
  (forall j, (0 < j < n)%nat -> parent j = i -> in_place h j) -> heap_from lo n h.
Proof.
  intros [Hlo Hp _] Hc j Hj Hl. destruct (decide (parent j = i)); [by apply Hc|by apply Hp].
Qed.

(** Swapping [i] with its smaller child [c] moves the hole to [c]. *)
Lemma hole_swap lo n h i c x y : (n <= length h)%nat -> hole lo n h i ->
  (0 < c < n)%nat -> parent c = i -> h !! c = Some x -> h !! i = Some y -> less x y = true ->
  (forall s z, (0 < s < n)%nat -> parent s = i -> h !! s = Some z -> le x z) ->
  hole lo n (heap_swap h i c) c.
Proof.
  intros Hn [Hlo Hp Ho] Hc Hpc Hx Hy Hless Hmin. pose proof (parent_lt c ltac:(lia)) as Hci.
  constructor; [lia| |].
  - intros j Hj Hl Hne u v. rewrite !heap_swap_lookup by lia.
    destruct (decide (j = c)) as [->|Hjc].
    { rewrite Hpc. rewrite decide_False, decide_True by lia. intros. simplify_eq. by apply less_le. }
    destruct (decide (parent j = c)) as [|Hjp]; [done|].
    destruct (decide (j = i)) as [->|Hji].
    { pose proof (parent_lt i ltac:(lia)). rewrite !(decide_False (P := parent i = _)) by lia.
      rewrite Hx. intros [= <-] Hv. eapply (Ho c); eauto with lia. }
    destruct (decide (parent j = i)) as [Hpi|Hpi].
    { intros Hu Hv. simplify_eq. by eapply Hmin. }
    intros Hu Hv. by eapply (Hp j).
  - intros j u v Hj Hpj _ Hlc. rewrite !heap_swap_lookup by lia.
    pose proof (parent_lt j ltac:(lia)). rewrite Hpc.
    rewrite !(decide_False (P := j = _)), (decide_False (P := i = c)), decide_True by lia.
    intros Hu Hv. rewrite Hx in Hv. injection Hv as <-. eapply (Hp j); [lia|lia|lia|done|by rewrite Hpj].
Qed.

Lemma down_loop_spec lo n fuel h i : (n <= length h)%nat -> (n <= fuel + i)%nat -> hole lo n h i ->
  heap_from lo n (fst (down_loop fuel h i n)) /\
  fst (down_loop fuel h i n) ≡ₚ h /\
  length (fst (down_loop fuel h i n)) = length h /\
  (forall k, (n <= k)%nat -> fst (down_loop fuel h i n) !! k = h !! k) /\
  (i <= snd (down_loop fuel h i n))%nat.
Proof.
  revert h i. induction fuel as [|fuel IH]; intros h i Hn Hf Hh; cbn [down_loop].
  { split_and!; try done. eapply hole_closed; [done|]. intros j Hj Hp. pose proof (parent_lt j ltac:(lia)). lia. }
  destruct (Nat.leb_spec n (2 * i + 1)) as [Hle|Hgt].
  { split_and!; try done. eapply hole_closed; [done|]. intros j Hj Hp. pose proof (parent_cases j ltac:(lia)). lia. }
  destruct (lookup_lt_is_Some_2 h i ltac:(lia)) as [y Hy].
  destruct (lookup_lt_is_Some_2 h (2 * i + 1) ltac:(lia)) as [x1 Hx1].
  set (c := if _ && _ then _ else _).
  assert (Hc : (0 < c < n)%nat /\ parent c = i /\ exists x, h !! c = Some x /\
            forall s z, (0 < s < n)%nat -> parent s = i -> h !! s = Some z -> le x z).
  { assert (Hs : forall s, (0 < s < n)%nat -> parent s = i -> s = (2 * i + 1)%nat \/ s = (2 * i + 2)%nat)
      by (intros s Hs Hp; pose proof (parent_cases s ltac:(lia)); lia).
    unfold c. replace (2 * i + 1 + 1)%nat with (2 * i + 2)%nat by lia.
    destruct (Nat.ltb_spec (2 * i + 2) n) as [Hr|Hr]; cbn [andb].
    - destruct (lookup_lt_is_Some_2 h (2 * i + 2) ltac:(lia)) as [x2 Hx2].
      rewrite (heap_less_spec _ _ _ _ _ Hx2 Hx1). destruct (less x2 x1) eqn:E.
      + split; [lia|]. split; [apply parent_right|]. exists x2. split; [done|].
        intros s z Hsn Hp Hz. destruct (Hs s Hsn Hp) as [->| ->]; simplify_eq; [by apply less_le|apply le_refl].
      + split; [lia|]. split; [apply parent_left|]. exists x1. split; [done|].
        intros s z Hsn Hp Hz. destruct (Hs s Hsn Hp) as [->| ->]; simplify_eq; [apply le_refl|done].
    - split; [lia|]. split; [apply parent_left|]. exists x1. split; [done|].
      intros s z Hsn Hp Hz. destruct (Hs s Hsn Hp) as [->| ->]; [simplify_eq; apply le_refl|lia]. }
  destruct Hc as (Hcn & Hpc & x & Hx & Hmin). rewrite (heap_less_spec _ _ _ _ _ Hx Hy).
  destruct (less x y) eqn:E; cbn [negb].
  - pose proof (parent_lt c ltac:(lia)).
    destruct (IH (heap_swap h i c) c) as (H1 & H2 & H3 & H4 & H5).
    + by rewrite heap_swap_length.
    + lia.
    + by eapply hole_swap.
    + split; [done|]. split; [by rewrite H2, heap_swap_Permutation|]. split; [by rewrite H3, heap_swap_length|].
      split; [|lia]. intros k Hk. rewrite H4, heap_swap_lookup by lia. by rewrite !decide_False by lia.
  - split_and!; try done. eapply hole_closed; [done|]. intros j Hj Hp u v Hu Hv.
    rewrite Hp in Hv. cbn [fst] in Hu, Hv. rewrite Hy in Hv. injection Hv as <-.
    eapply le_trans; [exact E|]. by eapply Hmin.
Qed.

(** *** Sifting up *)

(** The heap with a hole at [j] seen from below: everything is in place but [j]
    itself, whose children are in order with its parent. *)
Record hole_up (n : nat) (h : list A) (j : nat) : Prop := {
  hu_place : forall k, (0 < k < n)%nat -> k <> j -> in_place h k;
  hu_over : forall k x y, (0 < k < n)%nat -> parent k = j -> (0 < j)%nat ->
    h !! k = Some x -> h !! parent j = Some y -> le y x
}.

Lemma up_loop_spec fuel h j : (j < fuel)%nat -> (j < length h)%nat -> hole_up (length h) h j ->
  is_heap (up_loop fuel h j) /\ up_loop fuel h j ≡ₚ h.
Proof.
  revert h j. induction fuel as [|fuel IH]; intros h j Hf Hj [Hp Ho]; [lia|]. cbn [up_loop].
  fold (parent j). destruct (Nat.eqb_spec (parent j) j) as [Heq|Hne]; cbn [orb].
  { split; [|done]. intros k Hk _. apply Hp; [done|]. intros ->. pose proof (parent_lt j ltac:(lia)). lia. }
  assert (Hj0 : (0 < j)%nat) by (destruct j; [done|lia]). pose proof (parent_lt j Hj0) as Hlt.
  destruct (lookup_lt_is_Some_2 h j Hj) as [x Hx], (lookup_lt_is_Some_2 h (parent j) ltac:(lia)) as [y Hy].
  rewrite (heap_less_spec _ _ _ _ _ Hx Hy). destruct (less x y) eqn:E; cbn [negb].
  - destruct (IH (heap_swap h (parent j) j) (parent j)) as [H1 H2]; [lia|by rewrite heap_swap_length; lia| |].
    + rewrite heap_swap_length. constructor.
      * intros k Hk Hkp u v. rewrite !heap_swap_lookup by lia.
        destruct (decide (k = j)) as [->|Hkj].
        { rewrite decide_False, decide_True by lia. rewrite Hx, Hy. intros [= <-] [= <-]. by apply less_le. }
        rewrite (decide_False (P := k = parent j)) by done.
        destruct (decide (parent k = j)) as [Hpk|Hpk].
        { rewrite Hy. intros Hu [= <-]. by eapply Ho. }
        destruct (decide (parent k = parent j)) as [Hpp|Hpp].
        { rewrite Hx. intros Hu [= <-]. eapply le_trans; [by apply less_le|].
          eapply (Hp k); [lia|done|done|by rewrite Hpp]. }
        intros Hu Hv. by eapply (Hp k).
      * intros k u v Hk Hpk Hpj. pose proof (parent_lt k ltac:(lia)). pose proof (parent_lt (parent j) Hpj).
        rewrite !heap_swap_lookup by lia.
        rewrite !(decide_False (P := parent (parent j) = _)) by lia.
        assert (Htop : forall w, h !! parent (parent j) = Some w -> le w y).
        { intros w Hw. eapply (Hp (parent j)); [lia|lia|done|done]. }
        destruct (decide (k = j)) as [->|Hkj].
        { rewrite Hy. intros [= <-] Hv. by apply Htop. }
        rewrite (decide_False (P := k = parent j)) by lia. intros Hu Hv.
        eapply le_trans; [by apply Htop|]. eapply (Hp k); [lia|done|done|by rewrite Hpk].
    + split; [done|]. by rewrite H2, heap_swap_Permutation.
  - split; [|done]. intros k Hk _. destruct (decide (k = j)) as [->|]; [|by apply Hp].
    intros u v Hu Hv. rewrite Hx in Hu. rewrite Hy in Hv. by simplify_eq.
Qed.

(** ** The contract *)

Lemma heap_Push_spec h x : is_heap h -> is_heap (heap_Push h x) /\ heap_Push h x ≡ₚ x :: h.
Proof.
  intros Hh. unfold heap_Push, slice_Push, heap_up.
  destruct (up_loop_spec (S (length h)) (h ++ [x]) (length h)) as [H1 H2].
  - lia.
  - rewrite length_app. simpl. lia.
  - constructor; rewrite length_app; cbn [length].
    + intros k Hk Hne u v. pose proof (parent_lt k ltac:(lia)).
      rewrite !lookup_app_l by lia. apply (Hh k); lia.
    + intros k u v Hk Hpk. pose proof (parent_lt k ltac:(lia)). lia.
  - split; [done|]. rewrite H2. by rewrite Permutation_app_comm.
Qed.

Lemma init_loop_spec i h : heap_from i (length h) h ->
  is_heap (init_loop i h) /\ init_loop i h ≡ₚ h.
Proof.
  revert h. induction i as [|i IH]; intros h Hh; [done|]. cbn [init_loop]. unfold heap_down.
  destruct (down_loop_spec i (length h) (length h) h i) as (H1 & H2 & H3 & _); [lia|lia| |].
  - constructor; [lia| |].
    + intros j Hj Hl Hne. apply Hh; lia.
    + intros j x y Hj Hp Hi Hl. pose proof (parent_lt i Hi). lia.
  - destruct (down_loop (length h) h i (length h)) as [h' k]. cbn [fst] in *.
    destruct (IH h') as [H4 H5]; [by rewrite H3|]. split; [done|]. by rewrite H5.
Qed.

Lemma heap_Init_spec h : is_heap (heap_Init h) /\ heap_Init h ≡ₚ h.
Proof.
  apply init_loop_spec. intros j Hj Hl. pose proof (parent_cases j ltac:(lia)).
  pose proof (Nat.div_mod_eq (length h) 2). pose proof (Nat.mod_upper_bound (length h) 2). lia.
Qed.

(** The root is a minimum. *)
Lemma heap_root_le h x j y : is_heap h -> h !! 0%nat = Some x -> h !! j = Some y -> le x y.
Proof.
  intros Hh Hx. revert y. induction (lt_wf j) as [j _ IH]. intros y Hy.
  destruct (decide (j = 0)%nat) as [->|Hj]; [simplify_eq; apply le_refl|].
  pose proof (parent_lt j ltac:(lia)) as Hp. pose proof (lookup_lt_Some _ _ _ Hy).
  destruct (lookup_lt_is_Some_2 h (parent j) ltac:(lia)) as [z Hz].
  eapply le_trans; [by eapply IH|]. eapply (Hh j); [lia|lia|done|done].
Qed.

Lemma heap_root_min h x y : is_heap h -> h !! 0%nat = Some x -> y ∈ h -> le x y.
Proof. intros Hh Hx (j & Hj)%list_elem_of_lookup. by eapply heap_root_le. Qed.

(** The heap but for a changed root. *)
Lemma root_hole n h : (forall j, (0 < j < n)%nat -> parent j <> 0%nat -> in_place h j) -> hole 0 n h 0.
Proof. intros Hp. constructor; [lia| |lia]. intros j Hj _ Hne. by apply Hp. Qed.

Lemma heap_Fix_root_spec x h y : is_heap (x :: h) ->
  is_heap (heap_Fix (y :: h) 0) /\ heap_Fix (y :: h) 0 ≡ₚ y :: h.
Proof.
  intros Hh. unfold heap_Fix, heap_down.
  destruct (down_loop_spec 0 (length (y :: h)) (length (y :: h)) (y :: h) 0) as (H1 & H2 & H3 & _ & _); [lia|lia| |].
  - apply root_hole. intros j Hj Hp u v Hu Hv. eapply (Hh j); [done|lia| |].
    + destruct j; [lia|done].
    + by destruct (parent j).
  - destruct (down_loop _ _ _ _) as [h' k]. cbn [fst] in *.
    assert (Hheap : is_heap h') by (unfold is_heap; by rewrite H3).
    destruct k; [|done]. unfold heap_up. cbn. done.
Qed.

(** The root may have changed since: [Pop] does not look at it. *)
Lemma heap_Pop_spec z x h : is_heap (z :: h) ->
  exists h', heap_Pop (x :: h) = (h', Some x) /\ is_heap h' /\ h' ≡ₚ h.
Proof.
  intros Hh. unfold heap_Pop, heap_down. set (n := (length (x :: h) - 1)%nat).
  assert (Hn : n = length h) by (unfold n; simpl; lia).
  destruct (down_loop_spec 0 n n (heap_swap (x :: h) 0 n) 0) as (H1 & H2 & H3 & H4 & _).
  - rewrite heap_swap_length. simpl. lia.
  - lia.
  - apply root_hole. intros j Hj Hp u v. pose proof (parent_lt j ltac:(lia)).
    rewrite !heap_swap_lookup by (simpl; lia). rewrite !decide_False by lia.
    intros Hu Hv. eapply (Hh j); [simpl; lia|lia|destruct j; [lia|done]|]. by destruct (parent j).
  - destruct (down_loop n (heap_swap (x :: h) 0 n) 0 n) as [h' k]. cbn [fst] in *.
    rewrite heap_swap_length in H3.
    assert (Hlast : h' !! n = Some x).
    { rewrite H4, heap_swap_lookup by (simpl; lia). by rewrite decide_True. }
    exists (take n h'). unfold slice_Pop. rewrite H3. fold n. rewrite Hlast. split; [done|]. split.
    + intros j Hj _ u v. rewrite length_take in Hj. pose proof (parent_lt j ltac:(lia)).
      rewrite !lookup_take_lt by lia. apply (H1 j); lia.
    + apply (Permutation_cons_inv (a := x)). rewrite heap_swap_Permutation in H2. rewrite <-H2.
      rewrite Permutation_cons_append, <-(take_S_r h' n x) by done.
      by rewrite take_ge by (rewrite H3; simpl; lia).
Qed.

End Heap.
