(* ===== verification/PebbleCursor.v ===== *)
(** * The query cursors of the Pebble storage (pebble_storage.go)

    [queryCursor] as a class, with its implementations as instances: a single
    Pebble iterator, a slice, the union of cursors on a heap and their
    intersection by a sort-merge join.  A cursor that keeps the laws stands for a
    list in query order: the union for the merge of its parts' lists, the
    intersection for their common elements. *)

From S2P Require Import Prelude GoTime Text Bytes Event Storage PebbleKeys Heap.

(** ** The interface *)

(** [InvertedTS] and [EventID] together are [head].  [fuel] bounds the rounds of
    an intersection's join; [None]: it ran out. *)
Class Cursor (C : Type) : Type := {
  Valid : C -> bool;
  head : C -> entry;
  Next : nat -> C -> option (C * bool);
  SeekGE : nat -> entry -> C -> option (C * bool)
}.

(** *** The iterator of Pebble *)

(** The methods of [pebble.Iterator] the code calls, and what it documents of
    them: an iterator goes through the keys of its bounds in byte order. *)
Class PebbleIterator (I : Type) : Type := {
  it_First : I -> I * bool;
  it_Next : I -> I * bool;
  it_SeekGE : bytes -> I -> I * bool;
  it_Key : I -> bytes
}.

(** [indexCursor] *)
Record indexCursor (I : Type) : Type := mkIndexCursor {
  ic_iter : I;
  ic_seekPrefix : bytes;
  ic_timestampOffset : nat;
  ic_eventIDOffset : nat;
  ic_curInvertedTS : Z;
  ic_curEventID : bytes;
  ic_curValid : bool
}.
Arguments mkIndexCursor {I}.
Arguments ic_iter {I}.
Arguments ic_seekPrefix {I}.
Arguments ic_timestampOffset {I}.
Arguments ic_eventIDOffset {I}.
Arguments ic_curInvertedTS {I}.
Arguments ic_curEventID {I}.
Arguments ic_curValid {I}.

Definition slice (lo hi : nat) (b : bytes) : bytes := take (hi - lo) (drop lo b).

(** [readCurrent] after the iterator moved to [it]; the layouts guarantee that
    the key is long enough. *)
Definition readCurrent {I} `{PebbleIterator I} (c : indexCursor I) (it : I) : indexCursor I :=
  let key := it_Key it in
  mkIndexCursor it (ic_seekPrefix c) (ic_timestampOffset c) (ic_eventIDOffset c)
    (be64_decode (slice (ic_timestampOffset c) (ic_timestampOffset c + 8) key))
    (fit 32 (slice (ic_eventIDOffset c) (ic_eventIDOffset c + 32) key)) true.

Definition set_iter {I} (c : indexCursor I) (it : I) (valid : bool) : indexCursor I :=
  mkIndexCursor it (ic_seekPrefix c) (ic_timestampOffset c) (ic_eventIDOffset c)
    (ic_curInvertedTS c) (ic_curEventID c) valid.

Definition newIndexCursor {I} `{PebbleIterator I} (it : I) (seekPrefix : bytes)
    (timestampOffset eventIDOffset : nat) : indexCursor I :=
  let c := mkIndexCursor it seekPrefix timestampOffset eventIDOffset 0 [] false in
  let '(it, ok) := it_First it in
  if ok then readCurrent c it else set_iter c it false.

(** The outcome of a move of the iterator. *)
Definition index_moved {I} `{PebbleIterator I} (c : indexCursor I) (r : I * bool) : indexCursor I * bool :=
  let '(it, ok) := r in
  if ok then (readCurrent c it, true) else (set_iter c it false, false).

Definition index_seek_key {I} (c : indexCursor I) (p : entry) : bytes :=
  ic_seekPrefix c ++ be64 (fst p) ++ fit 32 (snd p).

#[export] Instance indexCursor_Cursor {I} `{PebbleIterator I} : Cursor (indexCursor I) := {|
  Valid c := ic_curValid c;
  head c := (ic_curInvertedTS c, ic_curEventID c);
  Next _ c := Some (index_moved c (it_Next (ic_iter c)));
  SeekGE _ p c := Some (index_moved c (it_SeekGE (index_seek_key c p) (ic_iter c)))
|}.

(** *** A sorted slice *)

Record sliceCursor : Type := mkSliceCursor { sc_entries : list entry; sc_pos : nat }.

Definition newSliceCursor (entries : list entry) : sliceCursor := mkSliceCursor entries 0.

(** [sort.Search]: the first index at which the predicate holds; on the sorted
    slice binary search finds it. *)
Fixpoint first_index (p : entry -> bool) (l : list entry) : nat :=
  match l with
  | [] => 0
  | e :: l => if p e then 0 else S (first_index p l)
  end.

(** The predicate of [SeekGE]. *)
Definition entry_at_least (p e : entry) : bool :=
  if negb (fst e =? fst p) then fst p <=? fst e else negb (bytesLess (snd e) (snd p)).

Definition slice_to (c : sliceCursor) (pos : nat) : sliceCursor * bool :=
  (mkSliceCursor (sc_entries c) pos, (pos <? length (sc_entries c))%nat).

#[export] Instance sliceCursor_Cursor : Cursor sliceCursor := {|
  Valid c := (sc_pos c <? length (sc_entries c))%nat;
  head c := nth (sc_pos c) (sc_entries c) (0, []);
  Next _ c := Some (slice_to c (S (sc_pos c)));
  SeekGE _ p c :=
    Some (slice_to c (sc_pos c + first_index (entry_at_least p) (drop (sc_pos c) (sc_entries c))))
|}.

(** *** Either of two implementations *)

Definition on_left {A B} (r : A * bool) : (A + B) * bool := (inl (fst r), snd r).
Definition on_right {A B} (r : B * bool) : (A + B) * bool := (inr (fst r), snd r).

#[export] Instance sum_Cursor {A B} `{Cursor A} `{Cursor B} : Cursor (A + B) := {|
  Valid c := match c with inl c => Valid c | inr c => Valid c end;
  head c := match c with inl c => head c | inr c => head c end;
  Next n c := match c with inl c => on_left <$> Next n c | inr c => on_right <$> Next n c end;
  SeekGE n p c := match c with inl c => on_left <$> SeekGE n p c | inr c => on_right <$> SeekGE n p c end
|}.

(** *** The union *)

(** [queryCursorHeap.Less] *)
Definition cursorLess {C} `{Cursor C} (a b : C) : bool := entryLess (head a) (head b).

Record unionCursor (C : Type) : Type := mkUnionCursor { uc_h : list C }.
Arguments mkUnionCursor {C}.
Arguments uc_h {C}.

Definition newUnionCursor {C} `{Cursor C} (cursors : list C) : unionCursor C :=
  mkUnionCursor (heap_Init cursorLess (List.filter Valid cursors)).

Definition union_done {C} (h : list C) : unionCursor C * bool :=
  (mkUnionCursor h, (0 <? length h)%nat).

Definition union_next {C} `{Cursor C} (n : nat) (c : unionCursor C) : option (unionCursor C * bool) :=
  match uc_h c with
  | [] => Some (c, false)
  | x :: h =>
      '(x, ok) ← Next n x;
      Some (union_done (if ok : bool then heap_Fix cursorLess (x :: h) 0
                        else fst (heap_Pop cursorLess (x :: h))))
  end.

(** The cursors that are still valid after the seek. *)
Fixpoint union_seek_all {C} `{Cursor C} (n : nat) (p : entry) (h : list C) : option (list C) :=
  match h with
  | [] => Some []
  | x :: h =>
      '(x, ok) ← SeekGE n p x;
      h ← union_seek_all n p h;
      Some (if ok : bool then x :: h else h)
  end.

Definition union_seek {C} `{Cursor C} (n : nat) (p : entry) (c : unionCursor C) : option (unionCursor C * bool) :=
  h ← union_seek_all n p (uc_h c);
  Some (union_done (if (0 <? length h)%nat then heap_Init cursorLess h else h)).

#[export] Instance unionCursor_Cursor {C} `{Cursor C} : Cursor (unionCursor C) := {|
  Valid c := (0 <? length (uc_h c))%nat;
  head c := match uc_h c with x :: _ => head x | [] => (0, []) end;
  Next := union_next;
  SeekGE := union_seek
|}.

(** *** The intersection *)

Record intersectCursor (C : Type) : Type := mkIntersectCursor { xc_cursors : list C; xc_valid : bool }.
Arguments mkIntersectCursor {C}.
Arguments xc_cursors {C}.
Arguments xc_valid {C}.

(** The loop that finds the cursor furthest ahead: [best] at [besti] so far. *)
Fixpoint max_loop {C} `{Cursor C} (besti : nat) (best : entry) (i : nat) (cs : list C) : nat * entry :=
  match cs with
  | [] => (besti, best)
  | c :: cs => if entryLess best (head c) then max_loop i (head c) (S i) cs else max_loop besti best (S i) cs
  end.

(** The loop that makes the others catch up with [m]: the cursors, and [None] when
    one ran out, otherwise whether all are at [m]. *)
Fixpoint catch_up {C} `{Cursor C} (n : nat) (maxIdx : nat) (m : entry) (i : nat) (cs : list C)
    : option (list C * option bool) :=
  match cs with
  | [] => Some ([], Some true)
  | c :: cs =>
      if (i =? maxIdx)%nat || bool_decide (head c = m) then
        '(cs, r) ← catch_up n maxIdx m (S i) cs; Some (c :: cs, r)
      else
        '(c, ok) ← SeekGE n m c;
        if negb ok then Some (c :: cs, None)
        else
          '(cs, r) ← catch_up n maxIdx m (S i) cs;
          Some (c :: cs, if bool_decide (head c = m) then r else match r with Some _ => Some false | None => None end)
  end.

(** [findMatch]; [fuel] bounds its rounds. *)
Fixpoint findMatch {C} `{Cursor C} (n fuel : nat) (cs : list C) : option (list C * bool) :=
  match fuel with
  | O => None
  | S fuel =>
      if existsb (fun c => negb (Valid c)) cs then Some (cs, false)
      else
        match cs with
        | [] => Some (cs, false)
        | c :: rest =>
            let '(maxIdx, m) := max_loop 0 (head c) 1 rest in
            '(cs, r) ← catch_up n maxIdx m 0 cs;
            match r with
            | None => Some (cs, false)
            | Some true => Some (cs, true)
            | Some false => findMatch n fuel cs
            end
        end
  end.

Definition intersect_of {C} (r : list C * bool) : intersectCursor C * bool :=
  (mkIntersectCursor (fst r) (snd r), snd r).

Definition newIntersectCursor {C} `{Cursor C} (n : nat) (cursors : list C) : option (intersectCursor C) :=
  (fun r => fst (intersect_of r)) <$> findMatch n n cursors.

Definition intersect_next {C} `{Cursor C} (n : nat) (c : intersectCursor C)
    : option (intersectCursor C * bool) :=
  if negb (xc_valid c) then Some (c, false)
  else
    match xc_cursors c with
    | [] => Some (c, false)
    | x :: rest =>
        '(x, ok) ← Next n x;
        if negb ok then Some (mkIntersectCursor (x :: rest) false, false)
        else intersect_of <$> findMatch n n (x :: rest)
    end.

(** The loop of [SeekGE] over the cursors, up to one that runs out. *)
Fixpoint intersect_seek_all {C} `{Cursor C} (n : nat) (p : entry) (cs : list C) : option (list C * bool) :=
  match cs with
  | [] => Some ([], true)
  | c :: cs =>
      '(c, ok) ← SeekGE n p c;
      if negb ok then Some (c :: cs, false)
      else '(cs, ok) ← intersect_seek_all n p cs; Some (c :: cs, ok)
  end.

Definition intersect_seek {C} `{Cursor C} (n : nat) (p : entry) (c : intersectCursor C)
    : option (intersectCursor C * bool) :=
  '(cs, ok) ← intersect_seek_all n p (xc_cursors c);
  if negb ok then Some (mkIntersectCursor cs false, false)
  else intersect_of <$> findMatch n n cs.

#[export] Instance intersectCursor_Cursor {C} `{Cursor C} : Cursor (intersectCursor C) := {|
  Valid c := xc_valid c;
  head c := match xc_cursors c with x :: _ => head x | [] => (0, []) end;
  Next := intersect_next;
  SeekGE := intersect_seek
|}.

(** ** The order of entries *)

Notation entryLe := (le entryLess).

Lemma entryLess_trans p q r : entryLess p q = true -> entryLess q r = true -> entryLess p r = true.
Proof.
  unfold entryLess. destruct (Z.eqb_spec (fst p) (fst q)), (Z.eqb_spec (fst q) (fst r)), (Z.eqb_spec (fst p) (fst r));
    cbn [negb]; rewrite ?Z.ltb_lt; try lia. apply bytesLess_trans.
Qed.

Lemma entryLess_total p q : entryLess p q = true \/ p = q \/ entryLess q p = true.
Proof.
  unfold entryLess. destruct p as [t1 i1], q as [t2 i2]; cbn [fst snd].
  destruct (Z.eqb_spec t1 t2) as [->|Hne].
  - rewrite Z.eqb_refl. cbn [negb]. destruct (bytesLess_total i1 i2) as [?|[->|?]]; auto.
  - rewrite (proj2 (Z.eqb_neq t2 t1)) by done. cbn [negb]. rewrite !Z.ltb_lt. lia.
Qed.

Lemma entryLess_irrefl p : entryLess p p = false.
Proof. unfold entryLess. rewrite Z.eqb_refl. apply bytesLess_irrefl. Qed.

Lemma entryLess_asym p q : entryLess p q = true -> entryLess q p = false.
Proof.
  intros H. destruct (entryLess q p) eqn:E; [|done].
  pose proof (entryLess_trans _ _ _ H E) as Hc. by rewrite entryLess_irrefl in Hc.
Qed.

Lemma entryLe_cases p q : entryLe p q -> p = q \/ entryLess p q = true.
Proof. unfold le. intros H. destruct (entryLess_total p q) as [?|[?|?]]; [auto..|congruence]. Qed.

Lemma entryLe_antisym p q : entryLe p q -> entryLe q p -> p = q.
Proof. intros [?|H]%entryLe_cases Hq; [done|]. unfold le in Hq. congruence. Qed.

Lemma entryLe_less_trans p q r : entryLe p q -> entryLess q r = true -> entryLess p r = true.
Proof. intros [->|H]%entryLe_cases; [done|]. by apply entryLess_trans. Qed.

#[export] Instance entryLess_weak : WeakOrder entryLess.
Proof.
  constructor; [apply entryLess_asym|]. intros p q r Hpq [->|Hqr]%entryLe_cases; [done|].
  unfold le. apply entryLess_asym. by eapply entryLe_less_trans.
Qed.

#[export] Instance cursorLess_weak {C} `{Cursor C} : WeakOrder (cursorLess (C := C)).
Proof.
  constructor.
  - intros x y. apply entryLess_asym.
  - intros x y z Hxy Hyz. unfold le, cursorLess in *. by eapply (le_trans entryLess).
Qed.

Lemma entryLe_refl p : entryLe p p.
Proof. apply entryLess_irrefl. Qed.

(** ** Sorted lists of entries *)

Definition nonempty {A} (l : list A) : bool := match l with [] => false | _ => true end.

(** What is left of a list from [p] on. *)
Fixpoint drop_below (p : entry) (l : list entry) : list entry :=
  match l with
  | [] => []
  | q :: l' => if entryLess q p then drop_below p l' else l
  end.

Lemma drop_below_app p pre l : Forall (fun q => entryLess q p = true) pre ->
  drop_below p (pre ++ l) = drop_below p l.
Proof. induction 1 as [|q pre Hq _ IH]; [done|]. simpl. by rewrite Hq. Qed.

Lemma drop_below_split p l : exists pre, l = pre ++ drop_below p l /\ Forall (fun q => entryLess q p = true) pre.
Proof.
  induction l as [|q l (pre & Hl & Hpre)]; [by exists []|]. simpl.
  destruct (entryLess q p) eqn:E; [|by exists []].
  exists (q :: pre). split; [by rewrite Hl at 1|]. by constructor.
Qed.

Lemma drop_below_length p l : (length (drop_below p l) <= length l)%nat.
Proof. destruct (drop_below_split p l) as (pre & Hl & _). rewrite Hl at 2. rewrite length_app. lia. Qed.

Lemma drop_below_sorted p l : StronglySorted entryLe l -> StronglySorted entryLe (drop_below p l).
Proof.
  intros Hs. destruct (drop_below_split p l) as (pre & Hl & _). rewrite Hl in Hs.
  by apply StronglySorted_app in Hs as (_ & _ & ?).
Qed.

Lemma drop_below_ge p l q : StronglySorted entryLe l -> q ∈ drop_below p l -> entryLe p q.
Proof.
  induction 1 as [|x l Hs IH Hall]; [by intros ?%not_elem_of_nil|]. simpl.
  destruct (entryLess x p) eqn:E; [done|]. intros [->|Hin]%elem_of_cons; [done|].
  rewrite Forall_forall in Hall. eapply (le_trans entryLess); [exact E|by apply Hall].
Qed.

(** ** The laws *)

(** A well-formed cursor stands for the list of entries it has still to give;
    [need] is the fuel its moves take. *)
Class CursorLaws (C : Type) `{Cursor C} : Type := {
  wf : C -> Prop;
  rem : C -> list entry;
  need : C -> nat;
  cl_ok : forall c, wf c -> Forall entry_ok (rem c);
  cl_sorted : forall c, wf c -> StronglySorted entryLe (rem c);
  cl_valid : forall c, wf c -> Valid c = nonempty (rem c);
  cl_head : forall c x l, wf c -> rem c = x :: l -> head c = x;
  cl_next : forall n c x l, wf c -> rem c = x :: l -> (need c <= n)%nat -> exists c',
    Next n c = Some (c', nonempty l) /\ wf c' /\ rem c' = l /\ (need c' <= need c)%nat
}.

(** A seek is a move forward when [p] is [ahead]: after everything the cursor has
    already given. *)
Class SeekLaws (C : Type) `{CursorLaws C} : Type := {
  ahead : C -> entry -> Prop;
  sl_head : forall c x l p, wf c -> rem c = x :: l -> entryLess x p = true -> ahead c p;
  sl_next : forall n c x l c' b p, wf c -> rem c = x :: l -> (need c <= n)%nat -> Next n c = Some (c', b) ->
    entryLess x p = true -> ahead c' p;
  sl_seek : forall n c p, wf c -> ahead c p -> entry_ok p -> (need c <= n)%nat -> exists c',
    SeekGE n p c = Some (c', nonempty (drop_below p (rem c))) /\ wf c' /\
    rem c' = drop_below p (rem c) /\ (need c' <= need c)%nat /\
    (forall q, entryLe p q -> ahead c' q)
}.

(** *** The iterator *)

(** What Pebble documents of an iterator: [it_keys] are the keys within its bounds
    in byte order, [it_rest] those from its position on. *)
Class IteratorLaws (I : Type) `{PebbleIterator I} : Type := {
  it_keys : I -> list bytes;
  it_rest : I -> list bytes;
  il_first : forall i, exists i', it_First i = (i', nonempty (it_keys i)) /\
    it_keys i' = it_keys i /\ it_rest i' = it_keys i;
  il_next : forall i k l, it_rest i = k :: l -> exists i', it_Next i = (i', nonempty l) /\
    it_keys i' = it_keys i /\ it_rest i' = l;
  il_seek : forall i k, exists i' pre, it_keys i = pre ++ it_rest i' /\
    it_SeekGE k i = (i', nonempty (it_rest i')) /\ it_keys i' = it_keys i /\
    Forall (fun k' => bytesLess k' k = true) pre /\
    (forall k' l, it_rest i' = k' :: l -> bytesLess k' k = false);
  il_key : forall i k l, it_rest i = k :: l -> it_Key i = k;
  il_sorted : forall i, StronglySorted (fun a b => bytesLess a b = true) (it_keys i)
}.

Section Index.

Context {I : Type} `{IteratorLaws I}.
Implicit Types c : indexCursor I.

(** The entries behind the keys of an index. *)
Definition key_of (prefix : bytes) (p : entry) : bytes := prefix ++ be64 (fst p) ++ fit 32 (snd p).

Lemma key_of_less prefix p q : entry_ok p -> entry_ok q ->
  bytesLess (key_of prefix p) (key_of prefix q) = entryLess p q.
Proof. intros Hp Hq. unfold key_of. rewrite bytesLess_app. by apply entry_key_less. Qed.

Lemma key_of_inj prefix p q : entry_ok p -> entry_ok q -> key_of prefix p = key_of prefix q -> p = q.
Proof.
  intros Hp Hq Heq. destruct (entryLess_total p q) as [Hl|[?|Hl]]; [|done|];
    rewrite <-(key_of_less prefix) in Hl by done; by rewrite Heq, bytesLess_irrefl in Hl.
Qed.

Definition decode (c : indexCursor I) (key : bytes) : entry :=
  (be64_decode (slice (ic_timestampOffset c) (ic_timestampOffset c + 8) key),
   fit 32 (slice (ic_eventIDOffset c) (ic_eventIDOffset c + 32) key)).

(** The offsets of the cursor point behind its prefix. *)
Definition offsets_ok (c : indexCursor I) : Prop :=
  ic_timestampOffset c = length (ic_seekPrefix c) /\ ic_eventIDOffset c = (length (ic_seekPrefix c) + 8)%nat.

Lemma decode_key_of c p : offsets_ok c -> entry_ok p -> decode c (key_of (ic_seekPrefix c) p) = p.
Proof.
  intros [Ht He] [Hp1 Hp2]. unfold decode, key_of, slice. rewrite Ht, He.
  replace (length (ic_seekPrefix c) + 8 - length (ic_seekPrefix c))%nat with 8%nat by lia.
  replace (length (ic_seekPrefix c) + 8 + 32 - (length (ic_seekPrefix c) + 8))%nat with 32%nat by lia.
  rewrite <-drop_drop, drop_app_length, (fit_32 (snd p)) by done.
  rewrite (take_app_length' (be64 (fst p))), (drop_app_length' (be64 (fst p))) by done.
  rewrite be64_decode_be64 by done. rewrite take_ge by lia. rewrite fit_32 by done. by destruct p.
Qed.

(** The keys of a well-formed index cursor are those of [pre ++ l], of which [l]
    is left. *)
Definition index_split (c : indexCursor I) (pre l : list entry) : Prop :=
  it_keys (ic_iter c) = key_of (ic_seekPrefix c) <$> (pre ++ l) /\
  it_rest (ic_iter c) = key_of (ic_seekPrefix c) <$> l /\
  Forall entry_ok (pre ++ l).

Record index_wf (c : indexCursor I) : Prop := {
  iw_offsets : offsets_ok c;
  iw_split : exists pre l, index_split c pre l;
  iw_valid : ic_curValid c = nonempty (it_rest (ic_iter c));
  iw_current : forall k l, it_rest (ic_iter c) = k :: l -> (ic_curInvertedTS c, ic_curEventID c) = decode c k
}.

Definition index_rem (c : indexCursor I) : list entry := decode c <$> it_rest (ic_iter c).

Lemma index_split_rem c pre l : offsets_ok c -> index_split c pre l -> index_rem c = l.
Proof.
  intros Ho (_ & Hr & Hok). unfold index_rem. rewrite Hr, <-list_fmap_compose.
  clear Hr. apply Forall_app in Hok as [_ Hok]. induction Hok as [|p l Hp _ IH]; [done|].
  rewrite fmap_cons. f_equal; [by apply decode_key_of|exact IH].
Qed.

Lemma index_entries_sorted c pre l : index_split c pre l -> StronglySorted (fun p q => entryLess p q = true) (pre ++ l).
Proof.
  intros (Hk & _ & Hok). pose proof (il_sorted (ic_iter c)) as Hs. rewrite Hk in Hs. clear Hk.
  revert Hs Hok. generalize (pre ++ l) as es. intros es. induction es as [|p es IH]; [constructor|].
  intros Hs Hok. apply Forall_cons in Hok as [Hp Hok]. rewrite fmap_cons in Hs.
  apply StronglySorted_inv in Hs as [Hs Hall]. rewrite Forall_fmap in Hall.
  constructor; [by apply IH|]. apply Forall_forall. intros q Hq.
  pose proof (proj1 (Forall_forall _ _) Hok q Hq) as Hokq. pose proof (proj1 (Forall_forall _ _) Hall q Hq) as Hq'.
  unfold compose in Hq'. by rewrite key_of_less in Hq'.
Qed.


Lemma less_le_sorted l : StronglySorted (fun p q => entryLess p q = true) l -> StronglySorted entryLe l.
Proof.
  induction 1 as [|p l Hs IH Hall]; constructor; [done|].
  eapply Forall_impl; [exact Hall|]. intros q Hq. by apply entryLess_asym.
Qed.

(** Where a well-formed index cursor stands: [pre] given, [index_rem c] to come. *)
Lemma index_view c : index_wf c -> exists pre,
  index_split c pre (index_rem c) /\
  StronglySorted (fun p q => entryLess p q = true) (pre ++ index_rem c).
Proof.
  intros [Ho (pre & l & Hs) _ _]. rewrite (index_split_rem c pre l Ho Hs).
  exists pre. split; [done|]. by eapply index_entries_sorted.
Qed.

(** A cursor whose iterator was moved over the same keys. *)
Lemma index_moved_wf c it pre l :
  offsets_ok c -> it_keys it = key_of (ic_seekPrefix c) <$> (pre ++ l) ->
  it_rest it = key_of (ic_seekPrefix c) <$> l -> Forall entry_ok (pre ++ l) ->
  let c' := (index_moved c (it, nonempty (it_rest it))).1 in
  index_wf c' /\ index_split c' pre l /\ index_rem c' = l.
Proof.
  intros Ho Hsplit Hrest Hok. cbv zeta. cbn [index_moved].
  set (c' := fst _).
  assert (Hoff : offsets_ok c') by (unfold c'; destruct (it_rest it); apply Ho).
  assert (Hit : ic_iter c' = it) by (unfold c'; by destruct (it_rest it)).
  assert (Hpre : ic_seekPrefix c' = ic_seekPrefix c) by (unfold c'; by destruct (it_rest it)).
  assert (Hs : index_split c' pre l) by (unfold index_split; rewrite Hit, Hpre; by split_and!).
  split; [|split; [done|by eapply index_split_rem]].
  constructor; [done|by exists pre, l| |].
  - rewrite Hit. unfold c'. by destruct (it_rest it).
  - rewrite Hit. intros k l' Hk. unfold c'. rewrite Hk. cbn. unfold decode. cbn. by rewrite (il_key it k l' Hk).
Qed.

Definition index_ahead (c : indexCursor I) (p : entry) : Prop :=
  forall pre, index_split c pre (index_rem c) -> Forall (fun q => entryLess q p = true) pre.

(** How [pre] is determined. *)
Lemma index_split_unique c pre pre' l : index_split c pre l -> index_split c pre' l -> pre = pre'.
Proof.
  intros (H1 & _ & Hok1) (H2 & _ & Hok2). rewrite H1, !fmap_app in H2. apply app_inv_tail in H2.
  clear H1. apply Forall_app in Hok1 as [Hok1 _], Hok2 as [Hok2 _].
  revert pre' H2 Hok2. induction Hok1 as [|p pre Hp _ IH]; intros [|q pre'] Heq Hok2; try done.
  rewrite !fmap_cons in Heq. injection Heq as Hpq Heq. apply Forall_cons in Hok2 as [Hq Hok2].
  f_equal; [by eapply key_of_inj|by apply IH].
Qed.

Lemma index_next n c x l : index_wf c -> index_rem c = x :: l -> exists c' pre,
  Next n c = Some (c', nonempty l) /\ index_wf c' /\ index_rem c' = l /\
  index_split c pre (x :: l) /\ index_split c' (pre ++ [x]) l.
Proof.
  intros Hwf Hrem. destruct (index_view c Hwf) as (pre & Hs & _). rewrite Hrem in Hs.
  pose proof Hs as (Hk & Hr & Hok). rewrite fmap_cons in Hr.
  destruct (il_next _ _ _ Hr) as (it & Hnext & Hkeys & Hrest).
  assert (Hne : nonempty (it_rest it) = nonempty l) by (rewrite Hrest; by destruct l).
  destruct (index_moved_wf c it (pre ++ [x]) l (iw_offsets _ Hwf)) as (Hwf' & Hs' & Hrem');
    [by rewrite Hkeys, Hk, <-app_assoc|done|by rewrite <-app_assoc|].
  exists (index_moved c (it, nonempty (it_rest it))).1, pre. split; [|by split_and!].
  cbn [Next indexCursor_Cursor]. rewrite Hnext.
  assert (Hl : nonempty (key_of (ic_seekPrefix c) <$> l) = nonempty l) by (by destruct l).
  rewrite Hl, Hne. destruct l; done.
Qed.

Lemma index_seek n c p : index_wf c -> index_ahead c p -> entry_ok p -> exists c' pre,
  SeekGE n p c = Some (c', nonempty (drop_below p (index_rem c))) /\ index_wf c' /\
  index_rem c' = drop_below p (index_rem c) /\ index_split c' pre (index_rem c') /\
  Forall (fun q => entryLess q p = true) pre.
Proof.
  intros Hwf Ha Hp. destruct (index_view c Hwf) as (pre & Hs & _). specialize (Ha pre Hs).
  pose proof Hs as (Hk & Hr & Hok).
  destruct (il_seek (ic_iter c) (index_seek_key c p)) as (it & ks & Hsplit & Hseek & Hkeys & Hbelow & Hfirst).
  change (index_seek_key c p) with (key_of (ic_seekPrefix c) p) in *.
  set (key := key_of (ic_seekPrefix c)) in *.
  rewrite Hk in Hsplit.
  assert (Hcut : exists es1 es2, pre ++ index_rem c = es1 ++ es2 /\ ks = key <$> es1 /\ it_rest it = key <$> es2).
  { apply fmap_app_inv in Hsplit as (es1 & es2 & -> & -> & ->). by exists es1, es2. }
  destruct Hcut as (es1 & es2 & Hes & -> & Hrest). rewrite Hes in Hok.
  assert (Hok1 : Forall entry_ok es1) by (by apply Forall_app in Hok as [? _]).
  assert (Hok2 : Forall entry_ok es2) by (by apply Forall_app in Hok as [_ ?]).
  assert (Hlow : Forall (fun q => entryLess q p = true) es1).
  { rewrite Forall_fmap in Hbelow. rewrite Forall_forall in Hbelow, Hok1 |- *. intros q Hq.
    specialize (Hbelow q Hq). unfold compose, key in Hbelow. by rewrite key_of_less in Hbelow by auto. }
  assert (Hdrop : drop_below p (index_rem c) = es2).
  { rewrite <-(drop_below_app p pre), Hes, drop_below_app by done.
    destruct es2 as [|q es2]; [done|]. simpl. rewrite fmap_cons in Hrest.
    specialize (Hfirst _ _ Hrest). unfold key in Hfirst. rewrite key_of_less in Hfirst; [by rewrite Hfirst| |done].
    by apply Forall_cons in Hok2 as [? _]. }
  destruct (index_moved_wf c it es1 es2 (iw_offsets _ Hwf)) as (Hwf' & Hs' & Hrem');
    [by rewrite Hkeys, Hk, Hes|done|done|].
  exists (index_moved c (it, nonempty (it_rest it))).1, es1. rewrite Hdrop. split; [|by rewrite Hrem'; split_and!].
  cbn [SeekGE indexCursor_Cursor]. change (index_seek_key c p) with (key p). rewrite Hseek, Hrest.
  by destruct es2.
Qed.

#[export] Program Instance index_laws : CursorLaws (indexCursor I) := {|
  wf := index_wf; rem := index_rem; need := fun _ => 0%nat
|}.
Next Obligation.
  intros c Hwf. destruct (index_view c Hwf) as (pre & (_ & _ & Hok) & _). by apply Forall_app in Hok as [_ ?].
Qed.
Next Obligation.
  intros c Hwf. destruct (index_view c Hwf) as (pre & _ & Hs).
  apply less_le_sorted in Hs. by apply StronglySorted_app in Hs as (_ & _ & ?).
Qed.
Next Obligation.
  intros c Hwf. cbn. rewrite (iw_valid _ Hwf). unfold index_rem. by destruct (it_rest _).
Qed.
Next Obligation.
  intros c x l Hwf Hrem. cbn. unfold index_rem in Hrem. destruct (it_rest (ic_iter c)) as [|k ks] eqn:E; [done|].
  rewrite (iw_current _ Hwf k ks E). by injection Hrem as <- _.
Qed.
Next Obligation.
  intros n c x l Hwf Hrem _. destruct (index_next n c x l Hwf Hrem) as (c' & pre & H1 & H2 & H3 & _). by exists c'.
Qed.

#[export] Program Instance index_seek_laws : SeekLaws (indexCursor I) := {| ahead := index_ahead |}.
Next Obligation.
  intros c x l p Hwf Hrem Hx pre Hs. pose proof (index_entries_sorted _ _ _ Hs) as Hsorted. cbn in Hrem.
  rewrite Hrem in Hsorted. apply StronglySorted_app in Hsorted as (Hc & _ & _).
  apply Forall_forall. intros q Hq. eapply entryLess_trans; [apply (Hc q x); [done|by left]|done].
Qed.
Next Obligation.
  intros n c x l c' b p Hwf Hrem _ Hnext Hx pre Hs. cbn in Hwf, Hrem.
  destruct (index_next n c x l Hwf Hrem) as (c1 & pre1 & Hn1 & _ & Hrem1 & Hs0 & Hs1). rewrite Hnext in Hn1.
  injection Hn1 as <- _. rewrite Hrem1 in Hs. rewrite (index_split_unique _ _ _ _ Hs Hs1).
  pose proof (index_entries_sorted _ _ _ Hs0) as Hsorted. apply StronglySorted_app in Hsorted as (Hc & _ & _).
  apply Forall_app. split; [|by constructor]. apply Forall_forall. intros q Hq.
  eapply entryLess_trans; [apply (Hc q x); [done|by left]|done].
Qed.
Next Obligation.
  intros n c p Hwf Ha Hp _. cbn in *. destruct (index_seek n c p Hwf Ha Hp) as (c' & pre & H1 & H2 & H3 & H4 & H5).
  exists c'. split_and!; try done. intros q Hq pre' Hs. rewrite (index_split_unique _ _ _ _ Hs H4).
  eapply Forall_impl; [exact H5|]. intros r Hr. cbn in Hr.
  destruct (entryLe_cases p q Hq) as [->|Hpq]; [done|]. by eapply entryLess_trans.
Qed.

(** What the constructor yields: all entries to come, and none given. *)
Lemma newIndexCursor_spec (it : I) prefix es :
  it_keys it = key_of prefix <$> es -> Forall entry_ok es ->
  let c := newIndexCursor it prefix (length prefix) (length prefix + 8) in
  wf c /\ rem c = es /\ forall p, ahead c p.
Proof.
  intros Hkeys Hok c. destruct (il_first it) as (it' & Hf & Hk' & Hr').
  pose (c0 := mkIndexCursor it prefix (length prefix) (length prefix + 8) 0 [] false).
  assert (Hc : c = (index_moved c0 (it', nonempty (it_rest it'))).1).
  { unfold c, newIndexCursor. rewrite Hf, <-Hr'. by destruct (it_rest it'). }
  destruct (index_moved_wf c0 it' [] es) as (Hwf & Hs & Hrem); [done|by rewrite Hk', Hkeys|by rewrite Hr', Hkeys|done|].
  rewrite <-Hc in *. split; [done|]. split; [done|]. intros p pre Hpre. change (index_rem c) with (rem c) in Hpre.
  cbn [rem index_laws] in Hpre. rewrite Hrem in Hpre. rewrite (index_split_unique _ _ _ _ Hpre Hs). constructor.
Qed.

End Index.
