(* ===== verification/PebbleJoin.v ===== *)
(** * The laws of the composed cursors (pebble_storage.go)

    A slice, either of two cursors, the union and the intersection keep the laws
    of PebbleCursor.v when their parts do: the union stands for the sorted merge
    of its parts, the intersection for the entries of its first part that all
    others have too. *)

From S2P Require Import Prelude GoTime Text Bytes Event Storage PebbleKeys Heap PebbleCursor.

(** ** The slice *)

Record slice_wf (c : sliceCursor) : Prop := {
  sw_ok : Forall entry_ok (sc_entries c);
  sw_sorted : StronglySorted entryLe (sc_entries c)
}.

Definition slice_rem (c : sliceCursor) : list entry := drop (sc_pos c) (sc_entries c).

Lemma entry_at_least_spec p e : entry_at_least p e = negb (entryLess e p).
Proof.
  unfold entry_at_least, entryLess. destruct (Z.eqb_spec (fst e) (fst p)); cbn [negb]; [done|].
  by rewrite Z.leb_antisym.
Qed.

Lemma drop_first_index p l : drop (first_index (entry_at_least p) l) l = drop_below p l.
Proof.
  induction l as [|e l IH]; [done|]. cbn [first_index drop_below]. rewrite entry_at_least_spec.
  by destruct (entryLess e p); cbn [negb drop].
Qed.

Lemma slice_valid c : Valid c = nonempty (slice_rem c).
Proof.
  unfold slice_rem. change (Valid c) with (sc_pos c <? length (sc_entries c))%nat. destruct (Nat.ltb_spec (sc_pos c) (length (sc_entries c))) as [Hlt|Hge].
  - destruct (drop _ _) eqn:E; [|done]. apply (f_equal length) in E. rewrite length_drop in E. simpl in E. lia.
  - by rewrite drop_ge.
Qed.

Lemma slice_rem_drop c k : slice_rem (slice_to c (sc_pos c + k)).1 = drop k (slice_rem c).
Proof. unfold slice_rem. cbn. by rewrite drop_drop. Qed.

Lemma slice_to_spec c k : slice_wf c -> let c' := (slice_to c (sc_pos c + k)).1 in
  slice_to c (sc_pos c + k) = (c', nonempty (drop k (slice_rem c))) /\ slice_wf c' /\
  slice_rem c' = drop k (slice_rem c).
Proof.
  intros [Hok Hs] c'. pose proof (slice_valid c') as Hv. pose proof (slice_rem_drop c k) as Hr.
  split; [|done]. rewrite <-Hr. fold c' in Hr |- *. by rewrite <-Hv.
Qed.

#[export] Program Instance slice_laws : CursorLaws sliceCursor := {|
  wf := slice_wf; rem := slice_rem; need := fun _ => 0%nat
|}.
Next Obligation. intros c [Hok _]. by apply Forall_drop. Qed.
Next Obligation.
  intros c [_ Hs]. unfold slice_rem. rewrite <-(take_drop (sc_pos c)) in Hs.
  by apply StronglySorted_app in Hs as (_ & _ & ?).
Qed.
Next Obligation. intros c _. apply slice_valid. Qed.
Next Obligation.
  intros c x l _ Hrem. cbn. unfold slice_rem in Hrem.
  rewrite (nth_lookup (sc_entries c)). rewrite <-(Nat.add_0_r (sc_pos c)), <-lookup_drop, Hrem. done.
Qed.
Next Obligation.
  intros n c x l Hwf Hrem _. destruct (slice_to_spec c 1 Hwf) as (H1 & H2 & H3).
  cbn in Hrem. rewrite Hrem in H1, H3. rewrite Nat.add_1_r in *. cbn [drop] in *.
  eexists. split; [cbn; by rewrite H1|]. by split_and!.
Qed.

#[export] Program Instance slice_seek_laws : SeekLaws sliceCursor := {| ahead := fun _ _ => True |}.
Solve Obligations with done.
Next Obligation.
  intros n c p Hwf _ _ _. destruct (slice_to_spec c (first_index (entry_at_least p) (slice_rem c)) Hwf) as (H1 & H2 & H3).
  rewrite drop_first_index in H1, H3. eexists. split; [cbn [SeekGE sliceCursor_Cursor]; f_equal; exact H1|]. by split_and!.
Qed.

(** ** Either of two cursors *)

Section Sum.

Context {A B : Type} `{SeekLaws A} `{SeekLaws B}.

#[export] Program Instance sum_laws : CursorLaws (A + B) := {|
  wf c := match c with inl c => wf c | inr c => wf c end;
  rem c := match c with inl c => rem c | inr c => rem c end;
  need c := match c with inl c => need c | inr c => need c end
|}.
Next Obligation. intros [c|c] Hwf; by apply (cl_ok c). Qed.
Next Obligation. intros [c|c] Hwf; by apply (cl_sorted c). Qed.
Next Obligation. intros [c|c] Hwf; by apply (cl_valid c). Qed.
Next Obligation. intros [c|c] x l Hwf Hrem; by eapply (cl_head c). Qed.
Next Obligation.
  intros n [c|c] x l Hwf Hrem Hn; destruct (cl_next n c x l Hwf Hrem Hn) as (c' & Hc & H');
    [exists (inl c')|exists (inr c')]; cbn; by rewrite Hc.
Qed.

#[export] Program Instance sum_seek_laws : SeekLaws (A + B) := {|
  ahead c p := match c with inl c => ahead c p | inr c => ahead c p end
|}.
Next Obligation. intros [c|c] x l p; apply (sl_head c). Qed.
Next Obligation.
  intros n [c|c] x l c' b p Hwf Hrem Hn Hnext Hx; cbn in *.
  - destruct (Next n c) as [[c1 b1]|] eqn:E; [|done]. injection Hnext as <- _. by eapply sl_next.
  - destruct (Next n c) as [[c1 b1]|] eqn:E; [|done]. injection Hnext as <- _. by eapply sl_next.
Qed.
Next Obligation.
  intros n [c|c] p Hwf Ha Hp Hn; destruct (sl_seek n c p Hwf Ha Hp Hn) as (c' & Hc & H');
    [exists (inl c')|exists (inr c')]; cbn; by rewrite Hc.
Qed.

End Sum.

Lemma list_filter_iff' {A} (P Q : A -> Prop) `{forall x, Decision (P x)} `{forall x, Decision (Q x)} (l : list A) :
  (forall x, x ∈ l -> P x <-> Q x) -> filter P l = filter Q l.
Proof.
  induction l as [|x l IH]; intros Hl; [done|]. rewrite !filter_cons.
  rewrite IH by set_solver. rewrite (decide_ext (P x) (Q x)) by (apply Hl; by left). done.
Qed.

(** ** The union *)

(** Sorting a list of entries: the only sorted list with its elements. *)
#[export] Instance entryLe_dec : RelDecision entryLe.
Proof. intros p q. unfold le. apply _. Defined.
#[export] Instance entryLe_total : Total entryLe.
Proof. intros p q. unfold le. destruct (entryLess_total p q) as [?%entryLess_asym|[->|?%entryLess_asym]]; auto using entryLess_irrefl. Qed.
#[export] Instance entryLe_transitive : Transitive entryLe.
Proof. intros p q r. apply (le_trans entryLess). Qed.
#[export] Instance entryLe_anti : AntiSymm (=) entryLe.
Proof. intros p q. apply entryLe_antisym. Qed.

Definition entry_sort (l : list entry) : list entry := merge_sort entryLe l.

Lemma entry_sort_unique l l' : StronglySorted entryLe l -> l ≡ₚ l' -> entry_sort l' = l.
Proof.
  intros Hs Hp. eapply (StronglySorted_unique entryLe).
  - apply StronglySorted_merge_sort; apply _.
  - done.
  - unfold entry_sort. by rewrite merge_sort_Permutation.
Qed.

Lemma entry_sort_sorted l : StronglySorted entryLe (entry_sort l).
Proof. apply StronglySorted_merge_sort; apply _. Qed.

Lemma entry_sort_Permutation l : entry_sort l ≡ₚ l.
Proof. apply merge_sort_Permutation. Qed.

(** On a sorted list, what is left from [p] on are the entries not before it. *)
Lemma drop_below_filter p l : StronglySorted entryLe l -> drop_below p l = filter (entryLe p) l.
Proof.
  induction 1 as [|q l Hs IH Hall]; [done|]. simpl. rewrite filter_cons.
  destruct (decide (entryLe p q)) as [E|E].
  2: { unfold le in E. apply not_false_iff_true in E. rewrite E. exact IH. }
  rewrite E, <-IH. f_equal. destruct l as [|r l]; [done|]. simpl.
  apply Forall_inv in Hall. pose proof (transitivity E Hall) as Hr. unfold le in Hr. by rewrite Hr.
Qed.

Section Union.

Context {C : Type} `{SeekLaws C}.
Implicit Types h : list C.

Definition union_rest (h : list C) : list entry := entry_sort (concat (rem <$> h)).
Definition union_rem (c : unionCursor C) : list entry := union_rest (uc_h c).
Definition union_need (c : unionCursor C) : nat := sum_list_with need (uc_h c).

(** All parts are live, on a heap, and a seek behind the head moves each of them
    forward. *)
Record union_wf (c : unionCursor C) : Prop := {
  uw_parts : Forall wf (uc_h c);
  uw_live : Forall (fun x => Valid x = true) (uc_h c);
  uw_heap : is_heap cursorLess (uc_h c);
  uw_ahead : forall x l p, union_rem c = x :: l -> entryLess x p = true -> Forall (fun y => ahead y p) (uc_h c)
}.

Lemma live_rem x : wf x -> Valid x = true -> exists y l, rem x = y :: l.
Proof. intros Hwf Hv. rewrite (cl_valid x Hwf) in Hv. destruct (rem x); [done|]. eauto. Qed.

Lemma union_rest_Permutation h h' : h ≡ₚ h' -> union_rest h = union_rest h'.
Proof.
  intros Hp. apply entry_sort_unique; [apply entry_sort_sorted|].
  unfold union_rest. rewrite entry_sort_Permutation. by rewrite Hp.
Qed.

(** The head of the heap is the first entry of the merge. *)
Lemma union_head x h : Forall wf (x :: h) -> Forall (fun x => Valid x = true) (x :: h) -> is_heap cursorLess (x :: h) ->
  exists l, rem x = head x :: l /\ union_rest (x :: h) = head x :: entry_sort (l ++ concat (rem <$> h)).
Proof.
  intros Hwf Hlive Hheap. pose proof (Forall_inv Hwf) as Hx. pose proof (Forall_inv Hlive) as Hv.
  destruct (live_rem x Hx Hv) as (y & l & Hrem). pose proof (cl_head x y l Hx Hrem) as Hy. subst y.
  exists l. split; [done|]. apply entry_sort_unique.
  - constructor; [apply entry_sort_sorted|]. apply Forall_forall. intros q.
    rewrite entry_sort_Permutation, elem_of_app. intros [Hq|Hq].
    + pose proof (cl_sorted x Hx) as Hs. rewrite Hrem in Hs. apply StronglySorted_inv in Hs as [_ Hs].
      by apply (proj1 (Forall_forall _ _) Hs).
    + apply list_elem_of_In, in_concat in Hq as (r & Hr & Hq). apply list_elem_of_In, list_elem_of_fmap in Hr as (z & -> & Hz).
      apply list_elem_of_In in Hq.
      pose proof (heap_root_min cursorLess (x :: h) x z Hheap eq_refl (list_elem_of_further _ _ _ Hz)) as Hle.
      pose proof (proj1 (Forall_forall _ _) Hwf z (list_elem_of_further _ _ _ Hz)) as Hwz.
      pose proof (proj1 (Forall_forall _ _) Hlive z (list_elem_of_further _ _ _ Hz)) as Hvz.
      destruct (live_rem z Hwz Hvz) as (y' & l' & Hremz). pose proof (cl_head z y' l' Hwz Hremz) as Hy. subst y'.
      etransitivity; [exact Hle|]. rewrite Hremz in Hq. apply elem_of_cons in Hq as [->|Hq]; [apply entryLess_irrefl|].
      pose proof (cl_sorted z Hwz) as Hs. rewrite Hremz in Hs. apply StronglySorted_inv in Hs as [_ Hs].
      by apply (proj1 (Forall_forall _ _) Hs).
  - rewrite entry_sort_Permutation. rewrite fmap_cons. simpl. by rewrite Hrem.
Qed.

Lemma union_valid h : Forall wf h -> Forall (fun x => Valid x = true) h -> (0 <? length h)%nat = nonempty (union_rest h).
Proof.
  intros Hwf Hlive. destruct h as [|x h]; [done|].
  destruct (live_rem x (Forall_inv Hwf) (Forall_inv Hlive)) as (y & l & Hrem).
  assert (Hy : y ∈ union_rest (x :: h)).
  { unfold union_rest. rewrite entry_sort_Permutation, fmap_cons. simpl. rewrite Hrem. by left. }
  destruct (union_rest (x :: h)); [by apply not_elem_of_nil in Hy|].
  done.
Qed.

Lemma sum_need_elem x h : x ∈ h -> (need x <= sum_list_with need h)%nat.
Proof. induction 1; cbn [sum_list_with]; lia. Qed.

Lemma sum_need_Permutation h h' : h ≡ₚ h' -> sum_list_with need h = sum_list_with need h'.
Proof. intros Hp. by rewrite Hp. Qed.

Lemma entry_sort_of_sorted l : StronglySorted entryLe l -> entry_sort l = l.
Proof. intros Hs. by apply entry_sort_unique. Qed.

(** A union of live parts is well-formed once a seek behind its head moves them
    forward. *)
Lemma union_of_heap h h' : h' ≡ₚ h -> is_heap cursorLess h' -> Forall wf h -> Forall (fun x => Valid x = true) h ->
  (forall x l p, union_rest h = x :: l -> entryLess x p = true -> Forall (fun y => ahead y p) h) ->
  let c := mkUnionCursor h' in
  union_done h' = (c, nonempty (union_rest h)) /\ union_wf c /\ union_rem c = union_rest h /\
  union_need c = sum_list_with need h.
Proof.
  intros Hp Hheap Hwf Hlive Ha c. unfold union_need, union_rem, union_done. cbn [uc_h c].
  rewrite (union_rest_Permutation h' h Hp), (sum_need_Permutation h' h Hp).
  split; [by rewrite (Permutation_length Hp), union_valid|]. split_and!; [|done..]. constructor; cbn [uc_h c].
  - by rewrite Hp.
  - by rewrite Hp.
  - done.
  - unfold union_rem. cbn [uc_h c]. rewrite (union_rest_Permutation h' h Hp). intros x l p Hr Hx. rewrite Hp. eauto.
Qed.

Lemma union_next_spec n c x l : union_wf c -> union_rem c = x :: l -> (union_need c <= n)%nat -> exists c',
  union_next n c = Some (c', nonempty l) /\ union_wf c' /\ union_rem c' = l /\ (union_need c' <= union_need c)%nat /\
  (forall p, entryLess x p = true -> Forall (fun y => ahead y p) (uc_h c')).
Proof.
  destruct c as [[|f h]]; intros [Hwf Hlive Hheap Ha] Hrem Hn; cbn [uc_h] in *.
  { change (entry_sort [] = x :: l) in Hrem. by rewrite (entry_sort_of_sorted _ (SSorted_nil _)) in Hrem. }
  destruct (union_head f h Hwf Hlive Hheap) as (lf & Hremf & Hun). unfold union_rem in Hrem, Ha. cbn [uc_h] in Hrem, Ha.
  rewrite Hun in Hrem. injection Hrem as <- Hl. apply Forall_cons in Hwf as [Hwf Hwfs], Hlive as [Hv Hvs].
  unfold union_need in Hn. cbn [uc_h] in Hn. cbn [sum_list_with] in Hn.
  destruct (cl_next n f _ _ Hwf Hremf ltac:(lia)) as (f' & Hnext & Hwf' & Hremf' & Hneed).
  assert (Ha' : forall p, entryLess (head f) p = true -> ahead f' p /\ Forall (fun y => ahead y p) h).
  { intros p Hp. specialize (Ha _ _ p Hun Hp). apply Forall_cons in Ha as [_ Ha]. split; [|done]. eapply (sl_next n f _ _ f'); eauto with lia. }
  assert (Hlater : forall y r p, l = y :: r -> entryLess y p = true -> entryLess (head f) p = true).
  { intros y r p -> Hp. eapply entryLe_less_trans; [|exact Hp].
    pose proof (entry_sort_sorted (concat (rem <$> f :: h))) as Hs. fold (union_rest (f :: h)) in Hs.
    rewrite Hun, Hl in Hs. apply StronglySorted_inv in Hs as [_ Hs]. by apply Forall_inv in Hs. }
  unfold union_next. cbn [uc_h]. rewrite Hnext. cbn [mbind option_bind].
  destruct (nonempty lf) eqn:Elf.
  - destruct (heap_Fix_root_spec cursorLess f h f' Hheap) as [Hh' Hp'].
    assert (Hrest : union_rest (f' :: h) = l).
    { rewrite <-Hl. unfold union_rest. rewrite fmap_cons. simpl. by rewrite Hremf'. }
    destruct (union_of_heap (f' :: h) _ Hp' Hh') as (Hd & Hw' & Hr' & Hn').
    + by constructor.
    + constructor; [|done]. by rewrite (cl_valid f' Hwf'), Hremf'.
    + rewrite Hrest. intros y r p Hr Hp. constructor; by apply Ha'; eauto.
    + rewrite Hrest in *. eexists. split; [by rewrite Hd|]. rewrite Hn', Hr'. split_and!; try done.
      * unfold union_need. cbn [uc_h]. cbn [sum_list_with]. lia.
      * intros p Hp. cbn [uc_h]. rewrite Hp'. constructor; by apply Ha'.
  - destruct (heap_Pop_spec cursorLess f f' h Hheap) as (h' & -> & Hh' & Hp'). cbn [fst].
    assert (Hrest : union_rest h = l) by (rewrite <-Hl; by destruct lf).
    destruct (union_of_heap h h' Hp' Hh' Hwfs Hvs) as (Hd & Hw' & Hr' & Hn').
    + rewrite Hrest. intros y r p Hr Hp. by apply Ha'; eauto.
    + rewrite Hrest in *. eexists. split; [by rewrite Hd|]. rewrite Hn', Hr'. split_and!; try done.
      * unfold union_need. cbn [uc_h]. cbn [sum_list_with]. lia.
      * intros p Hp. cbn [uc_h]. rewrite Hp'. by apply Ha'.
Qed.

Lemma filter_concat {A} (P : A -> Prop) `{forall x, Decision (P x)} (ls : list (list A)) :
  filter P (concat ls) = concat (filter P <$> ls).
Proof. induction ls as [|l ls IH]; [done|]. cbn [concat]. by rewrite filter_app, IH. Qed.

Lemma filter_sorted {A} (R : relation A) (P : A -> Prop) `{forall x, Decision (P x)} l :
  StronglySorted R l -> StronglySorted R (filter P l).
Proof.
  induction 1 as [|x l Hs IH Hall]; [constructor|]. rewrite filter_cons. case_decide; [|done].
  constructor; [done|]. apply Forall_forall. intros y [_ Hy]%list_elem_of_filter.
  by apply (proj1 (Forall_forall _ _) Hall).
Qed.

(** Seeking all parts: the live ones that remain hold what the merge has from [p] on. *)
Lemma union_seek_all_spec n p h : Forall wf h -> Forall (fun y => ahead y p) h -> entry_ok p ->
  (sum_list_with need h <= n)%nat -> exists h',
  union_seek_all n p h = Some h' /\ Forall wf h' /\ Forall (fun x => Valid x = true) h' /\
  concat (rem <$> h') = filter (entryLe p) (concat (rem <$> h)) /\
  (sum_list_with need h' <= sum_list_with need h)%nat /\
  (forall q, entryLe p q -> Forall (fun y => ahead y q) h').
Proof.
  intros Hwf Ha Hp. revert Ha. induction Hwf as [|x h Hx Hwf IH]; intros Ha Hn.
  { exists []. by split_and!. }
  apply Forall_cons in Ha as [Hax Ha]. cbn [sum_list_with] in Hn.
  destruct (sl_seek n x p Hx Hax Hp ltac:(lia)) as (x' & Hs & Hwx & Hrx & Hnx & Hqx).
  destruct (IH Ha ltac:(lia)) as (h' & Hs' & Hwf' & Hv' & Hr' & Hn' & Hq').
  cbn [union_seek_all]. rewrite Hs. cbn [mbind option_bind]. rewrite Hs'. cbn [mbind option_bind].
  rewrite fmap_cons. cbn [concat]. rewrite filter_app, <-Hr', <-drop_below_filter, <-Hrx by by apply cl_sorted.
  rewrite <-(cl_valid x' Hwx). destruct (Valid x') eqn:Ev.
  - exists (x' :: h'). split_and!; [done|by constructor|by constructor|done|cbn [sum_list_with]; lia|].
    intros q Hq. constructor; auto.
  - exists h'. split_and!; [done..| |cbn [sum_list_with]; lia|done].
    rewrite (cl_valid x' Hwx) in Ev. by destruct (rem x').
Qed.

Lemma union_seek_spec n c p : union_wf c -> Forall (fun y => ahead y p) (uc_h c) -> entry_ok p ->
  (union_need c <= n)%nat -> exists c',
  union_seek n p c = Some (c', nonempty (drop_below p (union_rem c))) /\ union_wf c' /\
  union_rem c' = drop_below p (union_rem c) /\ (union_need c' <= union_need c)%nat /\
  (forall q, entryLe p q -> Forall (fun y => ahead y q) (uc_h c')).
Proof.
  intros [Hwf Hlive Hheap _] Ha Hp Hn.
  destruct (union_seek_all_spec n p (uc_h c) Hwf Ha Hp Hn) as (h & Hs & Hwf' & Hv' & Hr' & Hn' & Hq').
  assert (Hrest : union_rest h = drop_below p (union_rem c)).
  { unfold union_rem, union_rest. rewrite drop_below_filter, Hr' by apply entry_sort_sorted.
    apply entry_sort_unique; [apply filter_sorted, entry_sort_sorted|]. by rewrite entry_sort_Permutation. }
  assert (Hinv : forall x l q, union_rest h = x :: l -> entryLess x q = true -> Forall (fun y => ahead y q) h).
  { intros x l q Hx Hq. apply Hq'. rewrite Hrest in Hx.
    apply entryLess_asym. eapply entryLe_less_trans; [|exact Hq].
    eapply drop_below_ge; [apply entry_sort_sorted|]. unfold union_rem, union_rest in Hx. rewrite Hx. by left. }
  assert (Hheap' : exists h2, (if (0 <? length h)%nat then heap_Init cursorLess h else h) = h2 /\
            is_heap cursorLess h2 /\ h2 ≡ₚ h).
  { destruct h as [|y h]; [exists []; split_and!; [done| |done]; intros j Hj; simpl in Hj; lia|].
    eexists. split; [done|]. apply heap_Init_spec. apply _. }
  destruct Hheap' as (h2 & Heq & Hh2 & Hp2). unfold union_seek. rewrite Hs. cbn [mbind option_bind]. rewrite Heq.
  destruct (union_of_heap h h2 Hp2 Hh2 Hwf' Hv' Hinv) as (Hd & Hw & Hr & Hne).
  eexists. split; [by rewrite Hd, Hrest|]. rewrite Hr, Hne. split_and!; [done|done|done|].
  intros q Hq. cbn [uc_h]. rewrite Hp2. auto.
Qed.

#[export] Program Instance union_laws : CursorLaws (unionCursor C) := {|
  wf := union_wf; rem := union_rem; need := union_need
|}.
Next Obligation.
  intros c [Hwf _ _ _]. unfold union_rem, union_rest. rewrite entry_sort_Permutation.
  apply Forall_concat, Forall_fmap. eapply Forall_impl; [exact Hwf|]. intros x Hx. by apply cl_ok.
Qed.
Next Obligation. intros c _. apply entry_sort_sorted. Qed.
Next Obligation. intros c [Hwf Hl _ _]. by apply union_valid. Qed.
Next Obligation.
  intros [[|f h]] x l [Hwf Hlive Hheap _] Hrem.
  - change (entry_sort [] = x :: l) in Hrem. by rewrite (entry_sort_of_sorted _ (SSorted_nil _)) in Hrem.
  - destruct (union_head f h Hwf Hlive Hheap) as (lf & _ & Hun). 
    change (union_rest (f :: h) = x :: l) in Hrem. rewrite Hun in Hrem. by injection Hrem as <- _.
Qed.
Next Obligation.
  intros n c x l Hwf Hrem Hn. destruct (union_next_spec n c x l Hwf Hrem Hn) as (c' & H1' & H2' & H3' & H4' & _).
  by exists c'.
Qed.

#[export] Program Instance union_seek_laws : SeekLaws (unionCursor C) := {|
  ahead c p := Forall (fun y => ahead y p) (uc_h c)
|}.
Next Obligation. intros c x l p Hwf Hrem Hx. by eapply (uw_ahead c Hwf). Qed.
Next Obligation.
  intros n c x l c' b p Hwf Hrem Hn Hnext Hx.
  destruct (union_next_spec n c x l Hwf Hrem Hn) as (c1 & Hc1 & _ & _ & _ & Ha).
  cbn in Hnext. rewrite Hnext in Hc1. injection Hc1 as <- _. by apply Ha.
Qed.
Next Obligation.
  intros n c p Hwf Ha Hp Hn. by apply union_seek_spec.
Qed.

(** What the constructor yields from fresh parts. *)
Lemma newUnionCursor_spec (cs : list C) : Forall wf cs -> Forall (fun y => forall p, ahead y p) cs ->
  let c := newUnionCursor cs in
  wf c /\ rem c = union_rest cs /\ need c = sum_list_with need (List.filter Valid cs) /\ forall p, ahead c p.
Proof.
  intros Hwf Ha c. destruct (heap_Init_spec cursorLess (List.filter Valid cs)) as [Hh Hp].
  assert (Hin : forall y, y ∈ List.filter Valid cs -> wf y /\ Valid y = true /\ forall p, ahead y p).
  { intros y (Hy & Hv)%list_elem_of_In%filter_In. apply list_elem_of_In in Hy.
    split_and!; [by apply (proj1 (Forall_forall _ _) Hwf)|done|by apply (proj1 (Forall_forall _ _) Ha)]. }
  assert (Hrest : union_rest (List.filter Valid cs) = union_rest cs).
  { unfold union_rest. f_equal. clear -Hwf. induction Hwf as [|y cs Hy Hwf IH]; [done|]. cbn [List.filter].
    rewrite (fmap_cons rem y). cbn [concat]. destruct (Valid y) eqn:E; [by rewrite fmap_cons; cbn [concat]; rewrite IH|].
    rewrite (cl_valid y Hy) in E. rewrite IH. by destruct (rem y). }
  destruct (union_of_heap (List.filter Valid cs) (heap_Init cursorLess (List.filter Valid cs)) Hp Hh) as (_ & Hw & Hr & Hn).
  - apply Forall_forall. apply Hin.
  - apply Forall_forall. apply Hin.
  - intros x l p _ _. apply Forall_forall. intros y Hy. by apply Hin.
  - split; [exact Hw|]. split; [by rewrite <-Hrest; exact Hr|]. split; [exact Hn|].
    intros p. cbn. rewrite Hp. apply Forall_forall. intros y Hy. by apply Hin.
Qed.

End Union.

(** ** The intersection *)

Section Intersect.

Context {C : Type} `{SeekLaws C}.
Implicit Types cs : list C.

Definition common (cs : list C) (q : entry) : Prop := Forall (fun c => q ∈ rem c) cs.

#[export] Instance common_dec cs q : Decision (common cs q).
Proof. unfold common. apply _. Defined.

(** The entries of the first cursor that all have. *)
Definition join_rest (cs : list C) : list entry :=
  match cs with [] => [] | c :: _ => filter (common cs) (rem c) end.

Definition total (cs : list C) : nat := sum_list_with (fun c => length (rem c)) cs.

Definition live (c : C) : Prop := wf c /\ Valid c = true.

Lemma live_view c : live c -> exists l, rem c = head c :: l.
Proof.
  intros [Hwf Hv]. destruct (live_rem c Hwf Hv) as (y & l & Hrem). exists l.
  by rewrite (cl_head c y l Hwf Hrem).
Qed.

(** *** The cursor furthest ahead *)

Lemma max_loop_spec besti best i cs : forall k m, max_loop besti best i cs = (k, m) ->
  entryLe best m /\ Forall (fun c => entryLe (head c) m) cs /\
  ((k = besti /\ m = best) \/ exists j c, cs !! j = Some c /\ k = (i + j)%nat /\ m = head c).
Proof.
  revert besti best i. induction cs as [|c cs IH]; intros besti best i k m; cbn [max_loop].
  { intros [= <- <-]. split_and!; [apply entryLe_refl|constructor|auto]. }
  destruct (entryLess best (head c)) eqn:E; intros Heq; destruct (IH _ _ _ _ _ Heq) as (H1' & H2' & H3').
  - split_and!; [|by constructor|].
    + etransitivity; [by apply entryLess_asym|exact H1'].
    + right. destruct H3' as [[-> ->]|(j & c' & Hj & -> & ->)]; [exists 0%nat, c|exists (S j), c'];
        split_and!; try done; lia.
  - split_and!; [done| |].
    + constructor; [|done]. etransitivity; [exact E|exact H1'].
    + destruct H3' as [[-> ->]|(j & c' & Hj & -> & ->)]; [by left|right]. exists (S j), c'. split_and!; try done; lia.
Qed.

(** *** The others catch up *)

(** [c'] is [c] after a seek to [m]. *)
Definition caught (m : entry) (c c' : C) : Prop :=
  wf c' /\ rem c' = drop_below m (rem c) /\ (need c' <= need c)%nat.

Lemma caught_id m c : live c -> entryLe (head c) m -> head c = m -> caught m c c.
Proof.
  intros Hl Hle Heq. destruct (live_view c Hl) as [l Hr]. destruct Hl as [Hwf _]. split_and!; [done| |done].
  rewrite Hr. simpl. by rewrite Heq, entryLess_irrefl.
Qed.

(** A cursor the intersection seeks: its head is before [m]. *)
Lemma seek_step n m c : live c -> entryLe (head c) m -> head c <> m -> entry_ok m -> (need c <= n)%nat ->
  exists c', SeekGE n m c = Some (c', nonempty (rem c')) /\ caught m c c' /\ (length (rem c') < length (rem c))%nat.
Proof.
  intros Hl [|Hlt]%entryLe_cases Hne Hm Hn; [done|]. destruct (live_view c Hl) as [l Hr]. destruct Hl as [Hwf _].
  destruct (sl_seek n c m Hwf (sl_head c _ _ m Hwf Hr Hlt) Hm Hn) as (c' & Hs & Hw & Hrem & Hneed & _).
  exists c'. rewrite Hs, Hrem. split_and!; try done.
  rewrite Hr. simpl. rewrite Hlt. pose proof (drop_below_length m l). lia.
Qed.

Definition caught_up (m : entry) (cs cs' : list C) (r : option bool) : Prop :=
  match r with
  | None => Forall wf cs' /\ length cs' = length cs /\ (sum_list_with need cs' <= sum_list_with need cs)%nat /\
      (total cs' <= total cs)%nat /\ exists c, c ∈ cs /\ drop_below m (rem c) = []
  | Some b => Forall2 (caught m) cs cs' /\ Forall live cs' /\
      (b = true -> Forall (fun c => head c = m) cs') /\ (b = false -> (total cs' < total cs)%nat)
  end.

Lemma caught_sums m cs cs' : Forall2 (caught m) cs cs' ->
  (sum_list_with need cs' <= sum_list_with need cs)%nat /\ (total cs' <= total cs)%nat.
Proof.
  unfold total. induction 1 as [|c c' cs cs' (_ & Hr & Hn) _ [IH1 IH2]]; [done|]. cbn [sum_list_with].
  pose proof (drop_below_length m (rem c)). rewrite Hr. lia.
Qed.

Lemma catch_up_spec n maxIdx m i cs : Forall live cs -> Forall (fun c => entryLe (head c) m) cs -> entry_ok m ->
  (sum_list_with need cs <= n)%nat ->
  (forall j c, cs !! j = Some c -> (i + j)%nat = maxIdx -> head c = m) ->
  exists cs' r, catch_up n maxIdx m i cs = Some (cs', r) /\ caught_up m cs cs' r.
Proof.
  intros Hl Hle Hm. revert i Hle. induction Hl as [|c cs Hc Hl IH]; intros i Hle Hn Hmax; cbn [catch_up].
  { exists [], (Some true). split; [done|]. split_and!; [constructor|constructor|intros _; constructor|done]. }
  apply Forall_cons in Hle as [Hlec Hle]. cbn [sum_list_with] in Hn.
  assert (Hnext : exists cs' r, catch_up n maxIdx m (S i) cs = Some (cs', r) /\ caught_up m cs cs' r).
  { apply IH; [done|lia|]. intros j c' Hj Hij. apply (Hmax (S j) c'); [done|lia]. }
  destruct Hnext as (cs' & r & Hcs & Hr).
  destruct ((i =? maxIdx)%nat || bool_decide (head c = m)) eqn:Eat.
  - assert (Heq : head c = m).
    { apply orb_prop in Eat as [Ei%Nat.eqb_eq|Ei%bool_decide_eq_true]; [|done]. apply (Hmax 0%nat c); [done|lia]. }
    rewrite Hcs. exists (c :: cs'), r. split; [done|]. pose proof (caught_id m c Hc Hlec Heq) as Hid.
    destruct r as [b|]; cbn [caught_up] in *.
    + destruct Hr as (Hr1 & Hr2 & Hr3 & Hr4). split_and!; [by constructor|by constructor| |].
      * intros ->. constructor; auto.
      * intros ->. unfold total in *. cbn [sum_list_with]. specialize (Hr4 eq_refl). lia.
    + destruct Hr as (Hr1 & Hr2 & Hr3 & Hr4 & c0 & Hc0 & Hd). unfold total in *. cbn [sum_list_with length].
      split_and!; [constructor; [apply Hc|done]|lia|lia|lia|]. exists c0. split; [by right|done].
  - apply orb_false_iff in Eat as [_ Hne%bool_decide_eq_false].
    destruct (seek_step n m c Hc Hlec Hne Hm ltac:(lia)) as (c' & Hs & (Hw & Hrem & Hneed) & Hlen).
    rewrite Hs. cbn [mbind option_bind]. destruct (rem c') as [|y l] eqn:Er; cbn [nonempty negb].
    + exists (c' :: cs), None. split; [done|]. cbn [caught_up]. unfold total. cbn [sum_list_with length]. rewrite Er.
      split_and!; [constructor; [done|]|done|lia|simpl; lia|exists c; split; [by left|by rewrite <-Hrem]].
      eapply Forall_impl; [exact Hl|]. by intros x [? _].
    + assert (Hlive : live c') by (split; [done|by rewrite (cl_valid c' Hw), Er]).
      rewrite Hcs. cbn [mbind option_bind]. eexists (c' :: cs'), _. split; [done|].
      assert (Hct : caught m c c') by (split_and!; [done|by rewrite Er|done]).
      case_bool_decide as Eh; destruct r as [b|]; cbn [caught_up] in *.
      * destruct Hr as (Hr1 & Hr2 & Hr3 & Hr4). split_and!; [by constructor|by constructor| |].
        -- intros ->. constructor; auto.
        -- intros ->. unfold total in *. cbn [sum_list_with]. rewrite Er. specialize (Hr4 eq_refl). lia.
      * destruct Hr as (Hr1 & Hr2 & Hr3 & Hr4 & c0 & Hc0 & Hd). unfold total in *. cbn [sum_list_with length]. rewrite Er.
        split_and!; [by constructor|lia|lia|lia|]. exists c0. split; [by right|done].
      * destruct Hr as (Hr1 & Hr2 & Hr3 & Hr4). split_and!; [by constructor|by constructor|done|].
        intros _. destruct (caught_sums _ _ _ Hr1). unfold total in *. cbn [sum_list_with]. rewrite Er. lia.
      * destruct Hr as (Hr1 & Hr2 & Hr3 & Hr4 & c0 & Hc0 & Hd). unfold total in *. cbn [sum_list_with length]. rewrite Er.
        split_and!; [by constructor|lia|lia|lia|]. exists c0. split; [by right|done].
Qed.

(** *** Finding a match *)

Lemma common_elem cs q : common cs q <-> forall c, c ∈ cs -> q ∈ rem c.
Proof. apply Forall_forall. Qed.

Lemma rem_ge c q : live c -> q ∈ rem c -> entryLe (head c) q.
Proof.
  intros Hl Hq. destruct (live_view c Hl) as [l Hr]. pose proof (cl_sorted c (proj1 Hl)) as Hs. rewrite Hr in Hs, Hq.
  apply StronglySorted_inv in Hs as [_ Hall]. apply elem_of_cons in Hq as [->|Hq]; [apply entryLe_refl|].
  by apply (proj1 (Forall_forall _ _) Hall).
Qed.

(** Seeking to the head of one of the cursors loses nothing. *)
Lemma common_caught m cs cs' q : Forall live cs -> (exists c, c ∈ cs /\ head c = m) -> Forall2 (caught m) cs cs' ->
  common cs q <-> entryLe m q /\ common cs' q.
Proof.
  intros Hl (c0 & Hc0 & <-) Hc. pose proof (proj1 (Forall_forall _ _) Hl) as Hlive.
  assert (Hd : forall c c', c ∈ cs -> caught (head c0) c c' -> rem c' = filter (entryLe (head c0)) (rem c)).
  { intros c c' Hin (_ & -> & _). apply drop_below_filter, cl_sorted. by apply Hlive. }
  rewrite !common_elem. split.
  - intros Hq. assert (Hle : entryLe (head c0) q) by (apply rem_ge; auto). split; [done|].
    intros c' (j & Hj)%list_elem_of_lookup. destruct (Forall2_lookup_r _ _ _ _ _ Hc Hj) as (c & Hcj & Hcc).
    apply list_elem_of_lookup_2 in Hcj. rewrite (Hd c c' Hcj Hcc), list_elem_of_filter. auto.
  - intros [Hle Hq] c Hin. apply list_elem_of_lookup in Hin as [j Hj].
    destruct (Forall2_lookup_l _ _ _ _ _ Hc Hj) as (c' & Hcj & Hcc).
    apply list_elem_of_lookup_2 in Hcj, Hj. specialize (Hq c' Hcj). rewrite (Hd c c' Hj Hcc) in Hq.
    by apply list_elem_of_filter in Hq as [_ ?].
Qed.

Lemma join_rest_caught m cs cs' : Forall live cs -> (exists c, c ∈ cs /\ head c = m) -> Forall2 (caught m) cs cs' ->
  join_rest cs' = join_rest cs.
Proof.
  intros Hl Hm Hc. pose proof (fun q => common_caught m cs cs' q Hl Hm Hc) as Hcom.
  destruct Hc as [|c c' cs cs' Hcc Hc]; [done|]. unfold join_rest.
  destruct Hcc as (_ & -> & _). apply Forall_cons in Hl as [[Hwf _] _].
  rewrite drop_below_filter by by apply cl_sorted. rewrite list_filter_filter.
  apply list_filter_iff. intros q. rewrite Hcom. tauto.
Qed.

(** All cursors at the same entry. *)
Definition matched (m : entry) (cs : list C) : Prop := Forall live cs /\ Forall (fun c => head c = m) cs.

Lemma join_rest_matched m c cs : matched m (c :: cs) -> exists l,
  rem c = m :: l /\ join_rest (c :: cs) = m :: filter (common (c :: cs)) l.
Proof.
  intros [Hl Hh]. destruct (live_view c (Forall_inv Hl)) as [l Hr]. pose proof (Forall_inv Hh) as Hc. cbn beta in Hc.
  rewrite Hc in Hr. exists l. split; [done|]. unfold join_rest. rewrite Hr, filter_cons_True; [done|].
  apply common_elem. intros c' Hin. pose proof (proj1 (Forall_forall _ _) Hl c' Hin) as Hlc.
  pose proof (proj1 (Forall_forall _ _) Hh c' Hin) as Hhc. cbn beta in Hhc.
  destruct (live_view c' Hlc) as [l' ->]. rewrite Hhc. by left.
Qed.

Lemma join_rest_dead c cs : Forall wf cs -> c ∈ cs -> rem c = [] -> join_rest cs = [].
Proof.
  intros _ Hin Hr. destruct (join_rest cs) as [|q l] eqn:E; [done|]. exfalso.
  assert (Hq : q ∈ join_rest cs) by (rewrite E; by left). destruct cs as [|c1 cs]; [done|]. unfold join_rest in Hq.
  apply list_elem_of_filter in Hq as [Hq _]. rewrite common_elem in Hq. specialize (Hq c Hin). rewrite Hr in Hq.
  by apply not_elem_of_nil in Hq.
Qed.

(** What [findMatch] leaves: no match, or all cursors at the first common entry. *)
Definition found (cs cs' : list C) (b : bool) : Prop :=
  Forall wf cs' /\ length cs' = length cs /\ (sum_list_with need cs' <= sum_list_with need cs)%nat /\
  (total cs' <= total cs)%nat /\ b = nonempty (join_rest cs) /\
  (b = true -> join_rest cs' = join_rest cs /\ exists m, matched m cs').

Lemma common_rest_dead m cs x : Forall live cs -> (exists c, c ∈ cs /\ head c = m) -> x ∈ cs ->
  drop_below m (rem x) = [] -> join_rest cs = [].
Proof.
  intros Hl (c0 & Hc0 & <-) Hx Hd. destruct (join_rest cs) as [|q l] eqn:E; [done|]. exfalso.
  assert (Hq : q ∈ join_rest cs) by (rewrite E; by left). destruct cs as [|c1 cs]; [done|]. unfold join_rest in Hq.
  apply list_elem_of_filter in Hq as [Hq _]. rewrite common_elem in Hq.
  pose proof (proj1 (Forall_forall _ _) Hl) as Hlive.
  rewrite drop_below_filter in Hd by (apply cl_sorted; by apply Hlive).
  pose proof (rem_ge c0 q (Hlive _ Hc0) (Hq _ Hc0)) as Hge.
  by apply (filter_nil_not_elem_of (entryLe (head c0)) (rem x) q Hd Hge), Hq.
Qed.

Lemma max_loop_head c rest : forall k m, max_loop 0 (head c) 1 rest = (k, m) ->
  Forall (fun x => entryLe (head x) m) (c :: rest) /\ (exists x, x ∈ c :: rest /\ head x = m) /\
  forall j x, (c :: rest) !! j = Some x -> j = k -> head x = m.
Proof.
  intros k m Heq. destruct (max_loop_spec _ _ _ _ _ _ Heq) as (H1' & H2' & H3').
  split; [by constructor|]. destruct H3' as [[-> ->]|(j & x & Hj & -> & ->)].
  - split; [exists c; split; [by left|done]|]. intros j x Hj ->. by injection Hj as <-.
  - split; [exists x; split; [right; by eapply list_elem_of_lookup_2|done]|].
    intros j' x' Hj' ->. simpl in Hj'. by simplify_eq.
Qed.

Lemma not_live_dead cs : Forall wf cs ->
  existsb (fun c => negb (Valid c)) cs = false -> Forall live cs.
Proof.
  intros Hwf He. apply Forall_forall. intros c Hc. split; [by apply (proj1 (Forall_forall _ _) Hwf)|].
  destruct (Valid c) eqn:E; [done|]. assert (existsb (fun c => negb (Valid c)) cs = true); [|congruence].
  apply existsb_exists. exists c. rewrite E. split; [by apply list_elem_of_In|done].
Qed.

Lemma findMatch_spec n fuel cs : Forall wf cs -> cs <> [] -> (sum_list_with need cs <= n)%nat ->
  (total cs < fuel)%nat -> exists cs' b, findMatch n fuel cs = Some (cs', b) /\ found cs cs' b.
Proof.
  revert cs. induction fuel as [|fuel IH]; intros cs Hwf Hne Hn Hf; [lia|]. cbn [findMatch].
  destruct (existsb _ cs) eqn:E.
  { exists cs, false. split; [done|]. apply existsb_exists in E as (c & Hc & Hv). apply list_elem_of_In in Hc.
    pose proof (proj1 (Forall_forall _ _) Hwf c Hc) as Hwc. rewrite (cl_valid c Hwc) in Hv.
    split_and!; [done..| |done]. rewrite (join_rest_dead c); [done..|]. by destruct (rem c). }
  pose proof (not_live_dead cs Hwf E) as Hl. destruct cs as [|c rest]; [done|].
  destruct (max_loop 0 (head c) 1 rest) as [k m] eqn:Em.
  destruct (max_loop_head c rest k m Em) as (Hle & Hmax & Hk).
  assert (Hm : entry_ok m).
  { destruct Hmax as (x & Hx & <-). pose proof (proj1 (Forall_forall _ _) Hl x Hx) as Hlx.
    destruct (live_view x Hlx) as [l Hr]. pose proof (cl_ok x (proj1 Hlx)) as Hok. rewrite Hr in Hok. by apply Forall_inv in Hok. }
  destruct (catch_up_spec n k m 0 (c :: rest) Hl Hle Hm Hn) as (cs' & r & Hc & Hr); [intros j x Hj Hjk; by eapply Hk|].
  rewrite Hc. cbn [mbind option_bind]. destruct r as [b|].
  - destruct Hr as (Hr1 & Hr2 & Hr3 & Hr4). destruct (caught_sums _ _ _ Hr1) as [Hs1 Hs2].
    pose proof (join_rest_caught m _ _ Hl Hmax Hr1) as Hj. pose proof (Forall2_length _ _ _ Hr1) as Hlen.
    assert (Hwf' : Forall wf cs') by (eapply Forall_impl; [exact Hr2|]; by intros x [? _]).
    destruct b.
    + exists cs', true. split; [done|]. assert (Hmt : matched m cs') by (split; auto).
      split_and!; [done|done|done|done| |eauto]. rewrite <-Hj. destruct cs' as [|c' cs']; [done|].
      destruct (join_rest_matched m c' cs' Hmt) as (l & _ & ->). done.
    + destruct (IH cs') as (cs2 & b & Hfind & Hw & Hlen2 & Hs3 & Hs4 & Hb & Hmatch).
      * done.
      * by destruct cs'.
      * lia.
      * specialize (Hr4 eq_refl). lia.
      * exists cs2, b. split; [done|]. unfold found. rewrite <-Hj. split_and!; [done|lia|lia|lia|done|done].
  - destruct Hr as (Hw & Hlen & Hs1 & Hs2 & x & Hx & Hd). exists cs', false. split; [done|].
    split_and!; [done..| |done]. pose proof (common_rest_dead m (c :: rest) x Hl Hmax Hx Hd) as ->. done.
Qed.

(** *** The laws *)

Record intersect_wf (c : intersectCursor C) : Prop := {
  xw_parts : Forall wf (xc_cursors c);
  xw_some : xc_cursors c <> [];
  xw_match : xc_valid c = true -> exists m, matched m (xc_cursors c)
}.

Definition intersect_rem (c : intersectCursor C) : list entry :=
  if xc_valid c then join_rest (xc_cursors c) else [].

(** One round of the join more than there are entries. *)
Definition intersect_need (c : intersectCursor C) : nat :=
  S (total (xc_cursors c) + sum_list_with need (xc_cursors c)).

(** What the constructor yields. *)
Lemma findMatch_intersect n cs : Forall wf cs -> cs <> [] ->
  (S (total cs + sum_list_with need cs) <= n)%nat -> exists c',
  intersect_of <$> findMatch n n cs = Some (c', nonempty (join_rest cs)) /\ intersect_wf c' /\
  intersect_rem c' = join_rest cs /\ (intersect_need c' <= S (total cs + sum_list_with need cs))%nat.
Proof.
  intros Hwf Hne Hn.
  destruct (findMatch_spec n n cs Hwf Hne ltac:(lia) ltac:(lia)) as (cs' & b & Hf & Hw & Hlen & Hs & Ht & -> & Hm).
  rewrite Hf. exists (mkIntersectCursor cs' (nonempty (join_rest cs))). split; [done|].
  assert (Hcs : cs' <> []) by (by destruct cs', cs). split_and!.
  - constructor; cbn; [done..|]. intros Hv. by apply Hm.
  - unfold intersect_rem. cbn. destruct (nonempty (join_rest cs)) eqn:E; [by apply Hm|]. by destruct (join_rest cs).
  - unfold intersect_need. cbn [xc_cursors]. lia.
Qed.

Lemma intersect_next_spec n c x l : intersect_wf c -> intersect_rem c = x :: l -> (intersect_need c <= n)%nat ->
  exists c', intersect_next n c = Some (c', nonempty l) /\ intersect_wf c' /\ intersect_rem c' = l /\
  (intersect_need c' <= intersect_need c)%nat.
Proof.
  destruct c as [[|f cs] v]; intros [Hwf Hne Hm] Hrem Hn; unfold intersect_rem in Hrem;
    unfold intersect_need in Hn; cbn [xc_cursors xc_valid] in *; [done|].
  destruct v; [|done]. cbn [sum_list_with] in Hn.
  destruct (Hm eq_refl) as [m Hmt]. destruct (join_rest_matched m f cs Hmt) as (lf & Hrf & Hj).
  rewrite Hj in Hrem. injection Hrem as <- Hl. apply Forall_cons in Hwf as [Hf Hwf].
  destruct (cl_next n f m lf Hf Hrf ltac:(lia)) as (f' & Hnext & Hwf' & Hrem' & Hneed).
  assert (Hrest : join_rest (f' :: cs) = l).
  { rewrite <-Hl. unfold join_rest. rewrite Hrem'. apply list_filter_iff'. intros q Hq.
    unfold common. rewrite !Forall_cons, Hrem', Hrf. set_solver. }
  assert (Htot : (total (f' :: cs) < total (f :: cs))%nat).
  { unfold total. cbn [sum_list_with]. rewrite Hrem', Hrf. simpl. lia. }
  unfold intersect_next. cbn [xc_valid xc_cursors negb]. rewrite Hnext. cbn [mbind option_bind].
  destruct lf as [|y lf]; cbn [nonempty negb].
  - cbn in Hl. subst l. exists (mkIntersectCursor (f' :: cs) false). split_and!; [done| |done|].
    + constructor; cbn; [by constructor|done|done].
    + unfold intersect_need. cbn [xc_cursors sum_list_with]. lia.
  - destruct (findMatch_intersect n (f' :: cs)) as (c' & Hc & Hw & Hr & Hnd).
    + by constructor.
    + done.
    + cbn [sum_list_with] in *. lia.
    + exists c'. rewrite Hc, Hr, Hrest. split_and!; [done..|]. unfold intersect_need in *.
      cbn [xc_cursors sum_list_with] in *. lia.
Qed.

#[export] Program Instance intersect_laws : CursorLaws (intersectCursor C) := {|
  wf := intersect_wf; rem := intersect_rem; need := intersect_need
|}.
Next Obligation.
  intros c [Hwf _ _]. unfold intersect_rem. destruct (xc_valid c); [|constructor].
  destruct (xc_cursors c) as [|f cs]; [constructor|]. apply Forall_forall. intros q [_ Hq]%list_elem_of_filter.
  pose proof (cl_ok f (Forall_inv Hwf)) as Hok. by apply (proj1 (Forall_forall _ _) Hok).
Qed.
Next Obligation.
  intros c [Hwf _ _]. unfold intersect_rem. destruct (xc_valid c); [|constructor].
  destruct (xc_cursors c) as [|f cs]; [constructor|]. apply filter_sorted. apply cl_sorted. by apply Forall_inv in Hwf.
Qed.
Next Obligation.
  intros [[|f cs] v] [Hwf Hne Hm]; cbn [xc_cursors xc_valid] in *; [done|]. destruct v; [|done].
  change (true = nonempty (join_rest (f :: cs))).
  destruct (Hm eq_refl) as [m Hmt]. destruct (join_rest_matched m f cs Hmt) as (l & _ & ->). done.
Qed.
Next Obligation.
  intros [[|f cs] v] x l [Hwf Hne Hm] Hrem; cbn [xc_cursors xc_valid] in *; [done|]. destruct v; [|done].
  change (join_rest (f :: cs) = x :: l) in Hrem.
  destruct (Hm eq_refl) as [m Hmt]. destruct (join_rest_matched m f cs Hmt) as (l' & Hrf & Hj). rewrite Hj in Hrem.
  injection Hrem as <- _. apply (cl_head f m l'); [by apply Forall_inv in Hwf|done].
Qed.
Next Obligation. intros n c x l. apply intersect_next_spec. Qed.

(** What the constructor yields from its parts. *)
Lemma newIntersectCursor_spec n cs : Forall wf cs -> cs <> [] ->
  (S (total cs + sum_list_with need cs) <= n)%nat -> exists c,
  newIntersectCursor n cs = Some c /\ wf c /\ rem c = join_rest cs /\
  (need c <= S (total cs + sum_list_with need cs))%nat.
Proof.
  intros Hwf Hne Hn. destruct (findMatch_intersect n cs Hwf Hne Hn) as (c & Hc & Hw & Hr & Hnd).
  exists c. unfold newIntersectCursor. destruct (findMatch n n cs) as [r|]; [|done]. cbn in *.
  injection Hc as <- _. done.
Qed.

End Intersect.
