(* ===== verification/PebbleStore.v ===== *)
(** * Storing events in Pebble (pebble_storage.go)

    [Store], the processing of deletion requests and the removal of an event with
    its indexes, on a database given as a class: reads, atomic batches and
    iterators over a range of keys, as Pebble documents them.  The JSON form of a
    stored event is a class too, which EventJSON.v implements.  The lock of the
    storage makes each call atomic. *)

From S2P Require Import Prelude GoTime Text Bytes Event Filter Storage PebbleKeys Heap PebbleCursor.

(** ** What the storage uses *)

(** [db.Get]: the value, [pebble.ErrNotFound] or another error. *)
Inductive GetResult : Type :=
| Found (v : bytes)
| NotFound
| GetError (e : string).

(** The operations a batch collects. *)
Inductive BatchOp : Type :=
| BatchSet (k v : bytes)
| BatchDelete (k : bytes).

(** [pebble.DB]; a snapshot of it is the database as it was.  [None]: no error.
    The slice [Get] returns is valid until its closer is closed: [db_Closed d v n] is
    what the slice of the value [v] shows when it is read for the [n]th time after
    that, and can be anything. *)
Class PebbleDB (D I : Type) `{PebbleIterator I} : Type := {
  db_Get : D -> bytes -> GetResult;
  db_Commit : D -> list BatchOp -> D * option string;
  db_NewIter : D -> bytes -> bytes -> I + string;
  db_Closed : D -> bytes -> nat -> bytes
}.

(** [json.Marshal] and [json.Unmarshal] on events. *)
Class EventCodec : Type := {
  marshal_event : Event -> Res bytes;
  unmarshal_event : bytes -> Res Event
}.

Definition apply_op (m : gmap bytes bytes) (op : BatchOp) : gmap bytes bytes :=
  match op with BatchSet k v => <[k := v]> m | BatchDelete k => delete k m end.

Definition apply_batch (ops : list BatchOp) (m : gmap bytes bytes) : gmap bytes bytes :=
  foldl apply_op m ops.

(** What Pebble documents: a read finds what the database holds, a batch takes
    effect as a whole or, when the commit fails, perhaps not at all, and an
    iterator visits the keys within its bounds. *)
Class PebbleLaws (D I : Type) `{PebbleDB D I, !IteratorLaws I} : Type := {
  db_view : D -> gmap bytes bytes;
  pl_Get : forall d k, match db_Get d k with
    | Found v => db_view d !! k = Some v
    | NotFound => db_view d !! k = None
    | GetError _ => True
    end;
  pl_Commit : forall d ops d' err, db_Commit d ops = (d', err) ->
    db_view d' = apply_batch ops (db_view d) \/ (err <> None /\ db_view d' = db_view d);
  pl_NewIter : forall d lo hi it, db_NewIter d lo hi = inl it -> forall k,
    k ∈ it_keys it <-> is_Some (db_view d !! k) /\ bytesLess k lo = false /\ bytesLess k hi = true
}.

(** What survives being written and read. *)
Class EventCodecLaws `{EventCodec} : Type := {
  storable : Event -> Prop;
  codec_roundtrip : forall e, storable e -> exists b, marshal_event e = Ok b /\ unmarshal_event b = Ok e
}.

(** ** Reading *)

#[export] Instance Res_fmap : FMap Res := fun A B f r => r ≫= fun a => Ok (f a).

(** [hashAddress] *)
Definition hashAddress (addr : string) : bytes := sha256 (bytes_of addr).

(** [deletionRecordData] *)
Record deletionRecordData : Type := mkDeletionRecordData { dr_pubkey : string; dr_createdAt : Z }.

Section Store.

Context {D I : Type} `{PebbleDB D I} `{EventCodec}.

(** [fmt.Errorf] with a wrapped error. *)
Definition wrap_err {A} (what : string) (r : Res A) : Res A :=
  match r with Err e => Err (what +:+ ": " +:+ e) | r => r end.

(** A read whose error is wrapped. *)
Definition get_value (d : D) (what : string) (key : bytes) : Res (option bytes) :=
  wrap_err what match db_Get d key with
  | Found v => Ok (Some v)
  | NotFound => Ok None
  | GetError e => Err e
  end.

(** [getDeletionRecord] *)
Definition getDeletionRecord (d : D) (prefix : Z) (keyData : bytes) : Res (option deletionRecordData) :=
  value ← get_value d "get deletion record" (makeDeletionKey prefix keyData);
  mret match value with
  | None => None
  | Some value =>
      if negb (length value =? 40)%nat then None
      else Some (mkDeletionRecordData (bytesToHex (take 32 value)) (wrap_int64 (be64_decode (drop 32 value))))
  end.

(** The two lookups of an event differ in the text of an error only. *)
Definition get_event (d : D) (what : string) (eventID : bytes) : Res (option Event) :=
  value ← get_value d what (makeEventKey eventID);
  match value with
  | None => Ok None
  | Some value => event ← wrap_err "unmarshal event" (unmarshal_event value); mret (Some event)
  end.

(** [getEventByID] *)
Definition getEventByID (d : D) (eventID : bytes) : Res (option Event) := get_event d "get event" eventID.

(** [getEventByIDFromSnapshot] *)
Definition getEventByIDFromSnapshot (snapshot : D) (eventID : bytes) : Res (option Event) :=
  get_event snapshot "get event from snapshot" eventID.

(** ** The index keys of an event *)

(** The body of the loops over the tags that write and delete the tag indexes. *)
Definition tag_hash (tag : Tag) : option Z :=
  match tag with
  | name :: value :: _ => match chars name with [c] => Some (fieldHashTag c value) | _ => None end
  | _ => None
  end.

Definition field_hashes (event : Event) : list Z :=
  fieldHashAuthor (ev_Pubkey event) :: fieldHashKind (ev_Kind event) :: omap tag_hash (tags event).

(** The created_at key and the field keys. *)
Definition index_keys (event : Event) (eventID : bytes) : list bytes :=
  let invertedTS := invertTimestamp (Unix (ev_CreatedAt event)) in
  makeCreatedAtKey invertedTS eventID ::
  ((fun h => makeFieldKey h invertedTS eventID) <$> field_hashes event).

(** A slice, as it is read time after time; a live one does not change. *)
Definition slice : Type := nat -> bytes.
Definition live (b : bytes) : slice := fun _ => b.

(** The index keys, with the id read anew for each. *)
Definition index_keys_of (event : Event) (eventID : slice) : list bytes :=
  let invertedTS := invertTimestamp (Unix (ev_CreatedAt event)) in
  makeCreatedAtKey invertedTS (eventID 0%nat) ::
  imap (fun i h => makeFieldKey h invertedTS (eventID (S i))) (field_hashes event).

(** [deleteEventFromBatch]: what it adds to the batch. *)
Definition deleteEventFromBatch (d : D) (eventID : slice) : Res (list BatchOp) :=
  event ← getEventByID d (eventID 0%nat);
  mret match event with
  | None => []
  | Some event =>
      BatchDelete (makeEventKey (eventID 1%nat)) :: (BatchDelete <$> index_keys_of event (fun n => eventID (2 + n)%nat))
  end.

(** ** Deletion requests *)

(** The value of a deletion record. *)
Definition deletion_value (pubkeyBytes : bytes) (event : Event) : bytes :=
  fit 32 pubkeyBytes ++ be64 (wrap_uint64 (Unix (ev_CreatedAt event))).

(** The case of an e tag. *)
Definition kind5_e (d : D) (event : Event) (value : bytes) (eventID : string) : Res (list BatchOp) :=
  if negb (String.length eventID =? 64)%nat then Ok []
  else
    eventIDBytes ← hexToBytes32 eventID;
    targetEvent ← getEventByID d eventIDBytes;
    dels ← match targetEvent with
           | Some target =>
               if String.eqb (ev_Pubkey target) (ev_Pubkey event) && negb (ev_Kind target =? 5)
               then deleteEventFromBatch d (live eventIDBytes) else Ok []
           | None => Ok []
           end;
    mret (BatchSet (makeDeletionKey prefixDeletedID eventIDBytes) value :: dels).

(** The case of an a tag.  The value of the address key is closed before it is used. *)
Definition kind5_a (d : D) (event : Event) (value : bytes) (addr : string) : Res (list BatchOp) :=
  let addrHash := hashAddress addr in
  let addrKey := makeAddrKey addrHash in
  existingID ← get_value d "get address for deletion" addrKey;
  dels ← match existingID with
         | Some existingID =>
             let existingID := db_Closed d existingID in
             targetEvent ← wrap_err "get event for address deletion" (getEventByID d (existingID 0%nat));
             match targetEvent with
             | Some target =>
                 if String.eqb (ev_Pubkey target) (ev_Pubkey event)
                    && negb (After (ev_CreatedAt target) (ev_CreatedAt event))
                 then dels ← wrap_err "delete event by address" (deleteEventFromBatch d (fun n => existingID (S n))); mret (dels ++ [BatchDelete addrKey])
                 else Ok []
             | None => Ok []
             end
         | None => Ok []
         end;
  mret (BatchSet (makeDeletionKey prefixDeletedAddr addrHash) value :: dels).

(** The body of the loop over the tags. *)
Definition kind5_tag_ops (d : D) (event : Event) (value : bytes) (tag : Tag) : Res (list BatchOp) :=
  match tag with
  | name :: arg :: _ =>
      if String.eqb name "e" then kind5_e d event value arg
      else if String.eqb name "a" then kind5_a d event value arg
      else Ok []
  | _ => Ok []
  end.

Fixpoint kind5_ops (d : D) (event : Event) (value : bytes) (ts : list Tag) : Res (list BatchOp) :=
  match ts with
  | [] => Ok []
  | t :: ts =>
      ops ← kind5_tag_ops d event value t;
      rest ← kind5_ops d event value ts;
      mret (ops ++ rest)
  end.

(** [batch.Commit] with its error wrapped. *)
Definition commit (d : D) (what : string) (ops : list BatchOp) : D * Res unit :=
  match db_Commit d ops with
  | (d, None) => (d, Ok ())
  | (d, Some e) => (d, Err (what +:+ ": " +:+ e))
  end.

(** [processKind5] *)
Definition processKind5 (d : D) (event : Event) : D * Res unit :=
  let ops :=
    pubkeyBytes ← hexToBytes32 (ev_Pubkey event);
    kind5_ops d event (deletion_value pubkeyBytes event) (tags event) in
  match ops with
  | Ok ops => commit d "commit kind 5 batch" ops
  | Err e => (d, Err e)
  | Panic w => (d, Panic w)
  end.

(** ** Store *)

(** The checks before anything is written: whether the event is refused. *)
Definition store_refused (d : D) (event : Event) (eventIDBytes : bytes) : Res bool :=
  existing ← get_value d "check duplicate" (makeEventKey eventIDBytes);
  match existing with
  | Some _ => Ok true
  | None =>
      rec ← getDeletionRecord d prefixDeletedID eventIDBytes;
      if match rec with Some rec => String.eqb (dr_pubkey rec) (ev_Pubkey event) | None => false end then Ok true
      else if bool_decide (eventType event = EventTypeEphemeral) then Ok true
      else if String.eqb (address event) "" then Ok false
      else
        rec ← getDeletionRecord d prefixDeletedAddr (hashAddress (address event));
        mret match rec with
        | Some rec => String.eqb (dr_pubkey rec) (ev_Pubkey event) && (Unix (ev_CreatedAt event) <=? dr_createdAt rec)
        | None => false
        end
  end.

(** The event that is replaced: [None] refuses the new event, [Some oldEventID]
    goes on. *)
Definition find_replaced (d : D) (event : Event) : Res (option (option bytes)) :=
  existingID ← get_value d "check replaceable" (makeAddrKey (hashAddress (address event)));
  match existingID with
  | None => Ok (Some None)
  | Some existingID =>
      existingEvent ← wrap_err "get existing replaceable event" (getEventByID d existingID);
      mret match existingEvent with
      | None => Some None
      | Some existing =>
          if Before (ev_CreatedAt event) (ev_CreatedAt existing) then None
          else if Equal (ev_CreatedAt event) (ev_CreatedAt existing) && negb (str_ltb (ev_ID event) (ev_ID existing))
          then None
          else Some (Some existingID)
      end
  end.

(** What is written for an event. *)
Definition write_ops (event : Event) (eventIDBytes eventJSON : bytes) : list BatchOp :=
  BatchSet (makeEventKey eventIDBytes) eventJSON ::
  ((fun k => BatchSet k []) <$> index_keys event eventIDBytes) ++
  (if has_address event then [BatchSet (makeAddrKey (hashAddress (address event))) eventIDBytes] else []).

(** The second half of [Store]: the batch that replaces and writes. *)
Definition store_batch (d : D) (event : Event) (eventIDBytes : bytes) : Res (option (list BatchOp)) :=
  old ← (if has_address event then find_replaced d event else Ok (Some None));
  match old with
  | None => Ok None
  | Some old =>
      eventJSON ← wrap_err "marshal event" (marshal_event event);
      dels ← match old with Some oldEventID => deleteEventFromBatch d (live oldEventID) | None => Ok [] end;
      mret (Some (dels ++ write_ops event eventIDBytes eventJSON))
  end.

Definition store_write (d : D) (event : Event) (eventIDBytes : bytes) : D * Res bool :=
  match store_batch d event eventIDBytes with
  | Ok None => (d, Ok false)
  | Ok (Some ops) =>
      match commit d "commit batch" ops with
      | (d, Ok _) => (d, Ok true)
      | (d, Err e) => (d, Err e)
      | (d, Panic w) => (d, Panic w)
      end
  | Err e => (d, Err e)
  | Panic w => (d, Panic w)
  end.

(** What [Store] begins with: the bytes of the id, and whether the event is refused. *)
Definition store_checks (d : D) (event : Event) : Res (bytes * bool) :=
  eventIDBytes ← hexToBytes32 (ev_ID event);
  refused ← store_refused d event eventIDBytes;
  mret (eventIDBytes, refused).

(** [PebbleStorage.Store] *)
Definition Store (d : D) (event : option Event) : D * Res bool :=
  match event with
  | None => (d, Ok false)
  | Some event =>
      match store_checks d event with
      | Ok (_, true) => (d, Ok false)
      | Ok (eventIDBytes, false) =>
          if ev_Kind event =? 5 then
            match processKind5 d event with
            | (d, Ok _) => store_write d event eventIDBytes
            | (d, Err e) => (d, Err e)
            | (d, Panic w) => (d, Panic w)
            end
          else store_write d event eventIDBytes
      | Err e => (d, Err e)
      | Panic w => (d, Panic w)
      end
  end.

(** The database while [Store] is under way, once the deletions of a deletion request
    are committed and before the request is; else it is the one [Store] began with. *)
Definition store_half_way (d : D) (event : Event) : D :=
  match store_checks d event with
  | Ok (_, false) => if ev_Kind event =? 5 then (processKind5 d event).1 else d
  | _ => d
  end.

End Store.
