(* ===== verification/PebbleRows.v ===== *)
(** * What the Pebble storage holds (pebble_storage.go)

    The rows of an event, and the invariant of the database: its keys are exactly
    the rows of the events it holds, beside address pointers and deletion records.
    Batches that write or remove an event keep it. *)

From S2P Require Import Prelude GoTime Text Bytes Event Filter Storage PebbleKeys Heap PebbleCursor PebbleStore.

(** ** Batches *)

Lemma apply_batch_app ops ops' m : apply_batch (ops ++ ops') m = apply_batch ops' (apply_batch ops m).
Proof. apply foldl_app. Qed.

Lemma apply_batch_cons op ops m : apply_batch (op :: ops) m = apply_batch ops (apply_op m op).
Proof. reflexivity. Qed.

Lemma apply_deletes ks m k :
  apply_batch (BatchDelete <$> ks) m !! k = if decide (k ∈ ks) then None else m !! k.
Proof.
  revert m. induction ks as [|k0 ks IH]; intros m; [done|]. rewrite fmap_cons, apply_batch_cons, IH. cbn [apply_op].
  destruct (decide (k ∈ ks)), (decide (k ∈ k0 :: ks)); try done; try set_solver.
  - assert (k = k0) as -> by set_solver. apply lookup_delete_eq.
  - apply lookup_delete_ne. set_solver.
Qed.

(** Writing rows that give each key one value. *)
Lemma apply_sets rs m k : (forall k v v', (k, v) ∈ rs -> (k, v') ∈ rs -> v = v') ->
  (forall v, (k, v) ∈ rs -> apply_batch ((fun r => BatchSet r.1 r.2) <$> rs) m !! k = Some v) /\
  (k ∉ rs.*1 -> apply_batch ((fun r => BatchSet r.1 r.2) <$> rs) m !! k = m !! k).
Proof.
  revert m. induction rs as [|[k0 v0] rs IH]; intros m Hf; [split; [by intros ? ?%not_elem_of_nil|done]|].
  rewrite fmap_cons, apply_batch_cons. cbn [apply_op fst snd].
  destruct (IH (<[k0 := v0]> m)) as [IH1 IH2]; [intros; by eapply Hf; right|]. split.
  - intros v Hv. destruct (decide (k ∈ rs.*1)) as [Hin|Hin].
    + apply list_elem_of_fmap in Hin as ([k' v'] & -> & Hin). cbn [fst] in *. rewrite (IH1 _ Hin).
      f_equal. eapply Hf; [by right|done].
    + rewrite IH2 by done. apply elem_of_cons in Hv as [Hv|Hv].
      * simplify_eq. apply lookup_insert_eq.
      * exfalso. apply Hin. apply list_elem_of_fmap. by exists (k, v).
  - rewrite fmap_cons. intros Hin. apply not_elem_of_cons in Hin as [Hne Hin]. cbn [fst] in Hne.
    rewrite IH2 by done. by apply lookup_insert_ne.
Qed.

Section Rows.

Context `{EventCodecLaws}.

Definition stored_ok (e : Event) : Prop := event_ok e /\ storable e.

Definition json_of (e : Event) : bytes := match marshal_event e with Ok b => b | _ => [] end.
Definition idb (e : Event) : bytes := id_bytes (ev_ID e).

(** The rows of an event. *)
Definition rows (e : Event) : list (bytes * bytes) :=
  (makeEventKey (idb e), json_of e) :: ((fun k => (k, [])) <$> index_keys e (idb e)).

(** The address pointers and the deletion records. *)
Definition other_row (k v : bytes) : Prop :=
  (exists h, k = prefixAddr :: h /\ length v = 32%nat) \/
  (exists p h, (p = prefixDeletedID \/ p = prefixDeletedAddr) /\ k = p :: h).

(** A database that holds exactly the events of [L]. *)
Record rows_ok (m : gmap bytes bytes) (L : list Event) : Prop := {
  ro_ids : distinct_ids L;
  ro_events : forall e, e ∈ L -> stored_ok e;
  ro_sound : forall k v, m !! k = Some v -> (exists e, e ∈ L /\ (k, v) ∈ rows e) \/ other_row k v;
  ro_complete : forall e k v, e ∈ L -> (k, v) ∈ rows e -> m !! k = Some v
}.

(** *** The id in a key *)

Definition key_id (k : bytes) : bytes := drop (length k - 32) k.

Lemma key_id_app p id : length id = 32%nat -> key_id (p ++ id) = id.
Proof.
  intros Hl. unfold key_id. rewrite length_app, Hl. replace (length p + 32 - 32)%nat with (length p) by lia.
  apply drop_app_length.
Qed.

Lemma idb_length e : event_ok e -> length (idb e) = 32%nat.
Proof. intros He. by destruct (id_bytes_ok _ (eo_ID e He)) as (_ & ? & _). Qed.

Lemma event_key_eq id : length id = 32%nat -> makeEventKey id = [prefixEvent] ++ id.
Proof. intros Hl. unfold makeEventKey. by rewrite fit_32. Qed.

Lemma elem_of_index_keys e id k : length id = 32%nat -> k ∈ index_keys e id <->
  exists p, k = p ++ be64 (invertTimestamp (Unix (ev_CreatedAt e))) ++ id /\
    (p = [prefixCreatedAt] \/ exists h, h ∈ field_hashes e /\ p = prefixField :: be64 h).
Proof.
  intros Hl. unfold index_keys, makeCreatedAtKey, makeFieldKey. rewrite elem_of_cons, list_elem_of_fmap, fit_32 by done. split.
  - intros [->|(h & -> & Hh)]; [exists [prefixCreatedAt]; auto|].
    exists (prefixField :: be64 h). split; [done|]. right. eauto.
  - intros (p & -> & [->|(h & Hh & ->)]); [by left|]. right. exists h. done.
Qed.

Lemma elem_of_rows e k v : event_ok e -> (k, v) ∈ rows e <->
  (k = [prefixEvent] ++ idb e /\ v = json_of e) \/ (k ∈ index_keys e (idb e) /\ v = []).
Proof.
  intros He. unfold rows. rewrite elem_of_cons, list_elem_of_fmap, event_key_eq by by apply idb_length. split.
  - intros [Hk|(k' & Hk & Hin)]; simplify_eq; auto.
  - intros [[-> ->]|[Hk ->]]; [by left|right; eauto].
Qed.

Lemma rows_key_id e k v : event_ok e -> (k, v) ∈ rows e -> key_id k = idb e.
Proof.
  intros He. pose proof (idb_length e He) as Hl. rewrite elem_of_rows by done.
  intros [[-> _]|[(p & -> & _)%elem_of_index_keys _]]; [by apply key_id_app| |done].
  rewrite app_assoc. by apply key_id_app.
Qed.

Lemma rows_first e k v : event_ok e -> (k, v) ∈ rows e -> exists x t, k = x :: t /\
  (x = prefixEvent /\ v = json_of e \/ (x = prefixCreatedAt \/ x = prefixField) /\ v = []).
Proof.
  intros He. pose proof (idb_length e He) as Hl. rewrite elem_of_rows by done.
  intros [[-> ->]|[(p & -> & Hp)%elem_of_index_keys ->]]; [eexists _, _; split; [done|by left]| |done].
  destruct Hp as [->|(h & _ & ->)]; eexists _, _; (split; [done|]); auto.
Qed.

Lemma rows_functional e k v v' : event_ok e -> (k, v) ∈ rows e -> (k, v') ∈ rows e -> v = v'.
Proof.
  intros He H1 H2. destruct (rows_first _ _ _ He H1) as (x & t & -> & Hx), (rows_first _ _ _ He H2) as (y & u & Hy & Hy').
  injection Hy as <- <-. unfold prefixEvent, prefixCreatedAt, prefixField in *. naive_solver lia.
Qed.

Lemma rows_not_other e k v v' : event_ok e -> (k, v) ∈ rows e -> ~ other_row k v'.
Proof.
  intros He Hin. destruct (rows_first _ _ _ He Hin) as (x & t & -> & Hx).
  unfold other_row, prefixEvent, prefixCreatedAt, prefixField, prefixAddr, prefixDeletedID, prefixDeletedAddr in *.
  naive_solver lia.
Qed.

(** Rows of different events have different keys. *)
Lemma rows_same_id e e' k v v' : event_ok e -> event_ok e' -> (k, v) ∈ rows e -> (k, v') ∈ rows e' -> ev_ID e = ev_ID e'.
Proof.
  intros He He' Hk Hk'. apply rows_key_id in Hk, Hk'; [|done..]. rewrite Hk in Hk'.
  apply id_bytes_inj in Hk'; [done|apply He|apply He'].
Qed.

Lemma idb_same e e' : event_ok e -> event_ok e' -> idb e = idb e' -> ev_ID e = ev_ID e'.
Proof. intros He He' Heq. apply id_bytes_inj in Heq; [done|apply He|apply He']. Qed.

(** *** Keeping the invariant *)

Implicit Types m : gmap bytes bytes.

Lemma rows_ok_other m L k v : other_row k v -> rows_ok m L -> rows_ok (<[k := v]> m) L.
Proof.
  intros Ho [Hi He Hs Hc]. constructor; [done..| |].
  - intros k' v'. destruct (decide (k = k')) as [<-|Hne]; [rewrite lookup_insert_eq; intros [= <-]; by right|].
    rewrite lookup_insert_ne by done. apply Hs.
  - intros e k' v' Hin Hr. rewrite lookup_insert_ne; [by eapply Hc|]. intros <-.
    eapply rows_not_other; [by apply He|exact Hr|exact Ho].
Qed.

Lemma rows_ok_delete_addr m L h : rows_ok m L -> rows_ok (delete (prefixAddr :: h) m) L.
Proof.
  intros [Hi He Hs Hc]. constructor; [done..| |].
  - intros k v (_ & Hk)%lookup_delete_Some. by apply Hs.
  - intros e k v Hin Hr. rewrite lookup_delete_ne; [by eapply Hc|]. intros <-.
    destruct (rows_first _ _ _ (proj1 (He e Hin)) Hr) as (x & t & [= <- <-] & Hx).
    unfold prefixEvent, prefixCreatedAt, prefixField, prefixAddr in Hx. lia.
Qed.

(** The keys that [deleteEventFromBatch] removes. *)
Definition row_keys (e : Event) : list bytes := makeEventKey (idb e) :: index_keys e (idb e).

Lemma elem_of_row_keys e k : k ∈ row_keys e <-> exists v, (k, v) ∈ rows e.
Proof.
  unfold row_keys, rows. rewrite elem_of_cons. split.
  - intros [->|Hk]; [eexists; by left|]. exists []. right. apply list_elem_of_fmap. eauto.
  - intros (v & [Hk|(k' & Hk & Hin)%list_elem_of_fmap]%elem_of_cons); simplify_eq; auto.
Qed.

Lemma apply_delete_rows m e k : apply_batch (BatchDelete <$> row_keys e) m !! k =
  if decide (k ∈ row_keys e) then None else m !! k.
Proof. apply apply_deletes. Qed.

Definition without (e : Event) (L : list Event) : list Event :=
  List.filter (fun x => negb (String.eqb (ev_ID x) (ev_ID e))) L.

Lemma elem_of_without e L x : x ∈ without e L <-> x ∈ L /\ ev_ID x <> ev_ID e.
Proof.
  unfold without. rewrite list_elem_of_In, filter_In, <-list_elem_of_In, negb_true_iff, String.eqb_neq. done.
Qed.

Lemma rows_ok_delete m L e : rows_ok m L -> event_ok e ->
  (forall x, x ∈ L -> ev_ID x = ev_ID e -> x = e) ->
  rows_ok (apply_batch (BatchDelete <$> row_keys e) m) (without e L).
Proof.
  intros [Hi Hst Hs Hc] He Hsame. constructor.
  - by apply distinct_ids_filter.
  - intros x [Hx _]%elem_of_without. by apply Hst.
  - intros k v. rewrite apply_delete_rows. case_decide as Hk; [done|]. intros Hv.
    destruct (Hs k v Hv) as [(x & Hx & Hr)|Ho]; [left|by right].
    exists x. split; [|done]. apply elem_of_without. split; [done|]. intros Hid. apply Hk.
    rewrite <-(Hsame x Hx Hid). apply elem_of_row_keys. eauto.
  - intros x k v [Hx Hne]%elem_of_without Hr. rewrite apply_delete_rows. rewrite decide_False; [by eapply Hc|].
    intros (v' & Hk)%elem_of_row_keys. apply Hne. eapply rows_same_id; [by apply Hst|done|exact Hr|exact Hk].
Qed.

(** What [Store] writes for an event, without the address pointer. *)
Lemma rows_ok_add m L e : rows_ok m L -> stored_ok e -> (forall x, x ∈ L -> ev_ID x <> ev_ID e) ->
  rows_ok (apply_batch ((fun r => BatchSet r.1 r.2) <$> rows e) m) (L ++ [e]).
Proof.
  intros [Hi Hst Hs Hc] He Hnew.
  assert (Hf : forall k v v', (k, v) ∈ rows e -> (k, v') ∈ rows e -> v = v').
  { intros k v v'. apply rows_functional, He. }
  constructor.
  - unfold distinct_ids in *. rewrite fmap_app. apply NoDup_app. split_and!; [done| |apply NoDup_singleton].
    intros id (x & -> & Hx)%list_elem_of_fmap ?%list_elem_of_singleton. by eapply Hnew.
  - intros x [Hx|Hx%list_elem_of_singleton]%elem_of_app; [by auto|by subst x].
  - intros k v Hv. destruct (apply_sets (rows e) m k Hf) as [H1 H2].
    destruct (decide (k ∈ (rows e).*1)) as [Hk|Hk].
    + apply list_elem_of_fmap in Hk as ([k' v'] & -> & Hk). cbn [fst] in *. rewrite (H1 _ Hk) in Hv. injection Hv as <-.
      left. exists e. split; [set_solver|done].
    + rewrite H2 in Hv by done. destruct (Hs k v Hv) as [(x & Hx & Hr)|Ho]; [left|by right].
      exists x. split; [set_solver|done].
  - intros x k v [Hx|Hx%list_elem_of_singleton]%elem_of_app Hr; destruct (apply_sets (rows e) m k Hf) as [H1 H2].
    + rewrite H2; [by eapply Hc|]. intros ([k' v'] & Hkk & Hk)%list_elem_of_fmap. cbn in Hkk. subst k'.
      eapply (Hnew x Hx). eapply rows_same_id; [by apply Hst|apply He|exact Hr|exact Hk].
    + subst x. by apply H1.
Qed.

Lemma rows_ok_empty : rows_ok ∅ [].
Proof. constructor; [constructor|by intros e ?%not_elem_of_nil|done|by intros e k v ?%not_elem_of_nil]. Qed.

End Rows.
