(* ===== verification/PebbleInv.v ===== *)
(** * The Pebble storage keeps its invariant (pebble_storage.go)

    Every branch of [Store], errors and failed commits included, leaves a database
    that holds exactly the rows of some events: those it held, less the ones the
    request deletes or replaces, and the stored one. *)

From S2P Require Import Prelude GoTime Text Bytes Event Filter Storage PebbleKeys Heap PebbleCursor PebbleStore PebbleRows.

(** ** Inverting successful computations *)

Lemma wrap_err_Ok {A} what (r : Res A) a : wrap_err what r = Ok a -> r = Ok a.
Proof. by destruct r. Qed.

(** [inv_ok]: take a successful chain of binds apart. *)
Ltac inv_ok :=
  repeat match goal with
  | H : (_ ≫= _) = Ok _ |- _ => apply bind_Ok in H as (? & ? & H)
  | H : wrap_err _ _ = Ok _ |- _ => apply wrap_err_Ok in H
  | H : mret _ = Ok _ |- _ => injection H as <-
  | H : Ok _ = Ok _ |- _ => injection H as <-
  end.

Section Inv.

Context {D I : Type} `{PebbleLaws D I, EventCodecLaws}.
Implicit Types d : D.

(** ** Reads *)

Lemma get_value_Ok d what k v : get_value d what k = Ok v -> db_view d !! k = v.
Proof.
  unfold get_value. pose proof (pl_Get d k) as Hg. intros Hv%wrap_err_Ok.
  destruct (db_Get d k); by simplify_eq.
Qed.

(** The event behind an id. *)
Definition event_at (L : list Event) (ib : bytes) (r : option Event) : Prop :=
  match r with
  | Some e => e ∈ L /\ idb e = ib
  | None => forall e, e ∈ L -> idb e <> ib
  end.

Lemma get_event_Ok d L what ib r : rows_ok (db_view d) L -> length ib = 32%nat ->
  get_event d what ib = Ok r -> event_at L ib r.
Proof.
  intros [Hi He Hs Hc] Hl Hget. unfold get_event in Hget. inv_ok.
  match goal with Hv : get_value _ _ _ = _ |- _ => apply get_value_Ok in Hv; rename Hv into Hv1 end.
  destruct x as [v|]; inv_ok; cbn [event_at].
  - rewrite event_key_eq in Hv1 by done. destruct (Hs _ _ Hv1) as [(e & Hin & Hr)|Ho].
    + destruct (He e Hin) as [Hok Hst]. destruct (codec_roundtrip e Hst) as (b & Hm & Hu).
      pose proof (rows_key_id e _ _ Hok Hr) as Hk. rewrite key_id_app in Hk by done.
      apply elem_of_rows in Hr; [|done]. destruct Hr as [[_ ->]|[Hkeys _]].
      * unfold json_of in *. rewrite Hm in *. assert (x = e) as -> by congruence. by split.
      * apply elem_of_index_keys in Hkeys as (p & Hp & Hpp); [|by apply idb_length].
        destruct Hpp as [->|(h & _ & ->)]; discriminate Hp.
    + destruct Ho as [(h & Hh & _)|(p & h & Hp & Hh)]; [discriminate Hh|]. injection Hh as Hh _.
      unfold prefixEvent, prefixDeletedID, prefixDeletedAddr in *. lia.
  - intros e Hin <-. pose proof (Hc e (makeEventKey (idb e)) (json_of e) Hin) as Hr.
    rewrite Hr in Hv1; [done|]. unfold rows. by left.
Qed.

(** The event an id stands for is the only one. *)
Lemma event_at_same m L ib e x : rows_ok m L -> event_at L ib (Some e) -> x ∈ L -> idb x = ib -> x = e.
Proof.
  intros Hr [Hin Hid] Hx Hxi. eapply distinct_ids_eq; [apply Hr|done|done|].
  apply idb_same; [by apply Hr|by apply Hr|congruence].
Qed.

Lemma addr_value m L h v : rows_ok m L -> m !! (prefixAddr :: h) = Some v -> length v = 32%nat.
Proof.
  intros Hr Hv. destruct (ro_sound _ _ Hr _ _ Hv) as [(e & Hin & Hrow)|[(h' & _ & ?)|(p & h' & Hp & Hk)]]; [|done|].
  - destruct (rows_first _ _ _ (proj1 (ro_events _ _ Hr e Hin)) Hrow) as (x & t & [= <- <-] & Hx).
    unfold prefixEvent, prefixCreatedAt, prefixField, prefixAddr in Hx. lia.
  - injection Hk as Hk _. unfold prefixAddr, prefixDeletedID, prefixDeletedAddr in *. lia.
Qed.

(** ** Slices *)

Lemma index_keys_of_live e id : index_keys_of e (live id) = index_keys e id.
Proof.
  unfold index_keys_of, index_keys, live. cbv zeta. f_equal. generalize (field_hashes e). intros hs.
  induction hs as [|h hs IH]; [done|]. cbn [imap fmap list_fmap]. f_equal. exact IH.
Qed.

Lemma deleteEventFromBatch_ext d s1 s2 : (forall n, s1 n = s2 n) -> deleteEventFromBatch d s1 = deleteEventFromBatch d s2.
Proof.
  intros Hs. unfold deleteEventFromBatch. rewrite (Hs 0%nat). destruct (getEventByID d (s2 0%nat)) as [[e|]| |]; [|done..].
  cbn [mbind Res_bind]. unfold index_keys_of. rewrite (Hs 1%nat), (Hs (2 + 0)%nat). do 4 f_equal.
  apply imap_ext. intros i h _. by rewrite Hs.
Qed.

(** What is read after its close is still there.  Pebble does not promise it; only a
    deletion request that names an address relies on it. *)
Definition closed_intact : Prop := forall d v n, db_Closed d v n = v.
Definition names_address (e : Event) : Prop := exists arg rest, ("a"%string :: arg :: rest) ∈ tags e.
Definition store_ok (e : Event) : Prop := stored_ok e /\ (ev_Kind e = 5 -> names_address e -> closed_intact).

(** What [deleteEventFromBatch] collects. *)
Lemma deleteEventFromBatch_Ok d L ib ops : rows_ok (db_view d) L -> length ib = 32%nat ->
  deleteEventFromBatch d (live ib) = Ok ops ->
  exists r, event_at L ib r /\ ops = match r with Some e => BatchDelete <$> row_keys e | None => [] end.
Proof.
  intros Hr Hl Hd. unfold deleteEventFromBatch, getEventByID in Hd. inv_ok.
  match goal with Hg : get_event _ _ _ = Ok ?r |- _ =>
    pose proof (get_event_Ok _ _ _ _ _ Hr Hl Hg) as Ha; exists r end.
  split; [done|]. destruct x as [e|]; [|done]. destruct Ha as [Hin <-]. unfold row_keys. rewrite <-index_keys_of_live. done.
Qed.

(** ** Deletion requests *)

(** The events of the database a tag of a deletion request removes. *)
Definition kind5_hits (d : D) (ev : Event) (t : Tag) : Event -> bool :=
  match t with
  | name :: arg :: _ =>
      if String.eqb name "e" then fun x =>
        (String.length arg =? 64)%nat &&
        match hexToBytes32 arg with Ok b => bool_decide (idb x = b) | _ => false end &&
        (String.eqb (ev_Pubkey x) (ev_Pubkey ev) && negb (ev_Kind x =? 5))
      else if String.eqb name "a" then fun x =>
        bool_decide (db_view d !! makeAddrKey (hashAddress arg) = Some (idb x)) &&
        (String.eqb (ev_Pubkey x) (ev_Pubkey ev) && negb (After (ev_CreatedAt x) (ev_CreatedAt ev)))
      else fun _ => false
  | _ => fun _ => false
  end.

(** A batch that leaves the events that [hits] does not remove, whatever part of
    the events is left by then. *)
Definition removes (L : list Event) (hits : Event -> bool) (ops : list BatchOp) : Prop :=
  forall m L1, rows_ok m L1 -> (forall x, x ∈ L1 -> x ∈ L) ->
  rows_ok (apply_batch ops m) (List.filter (fun x => negb (hits x)) L1).

Lemma filter_id {A} (p : A -> bool) l : (forall x, x ∈ l -> p x = true) -> List.filter p l = l.
Proof.
  induction l as [|x l IH]; intros Hp; [done|]. cbn [List.filter]. rewrite Hp by by left. f_equal. apply IH.
  intros y Hy. apply Hp. by right.
Qed.

Lemma filter_filter {A} (p q : A -> bool) l : List.filter p (List.filter q l) = List.filter (fun x => q x && p x) l.
Proof.
  induction l as [|x l IH]; [done|]. cbn [List.filter]. destruct (q x); cbn [List.filter andb]; by rewrite IH.
Qed.

Lemma filter_ext_in' {A} (p q : A -> bool) l : (forall x, x ∈ l -> p x = q x) -> List.filter p l = List.filter q l.
Proof. intros Hp. apply filter_ext_in. intros x Hx. apply Hp. by apply list_elem_of_In. Qed.

Lemma removes_none L hits ops : (forall x, x ∈ L -> hits x = false) ->
  (forall m L1, rows_ok m L1 -> rows_ok (apply_batch ops m) L1) -> removes L hits ops.
Proof.
  intros Hh Hops m L1 Hm Hsub. rewrite filter_id; [by apply Hops|]. intros x Hx. by rewrite Hh by auto.
Qed.

Lemma removes_nil L hits : (forall x, x ∈ L -> hits x = false) -> removes L hits [].
Proof. intros Hh. by apply removes_none. Qed.

Lemma removes_app L h1 h2 ops1 ops2 : removes L h1 ops1 -> removes L h2 ops2 ->
  removes L (fun x => h1 x || h2 x) (ops1 ++ ops2).
Proof.
  intros H1' H2' m L1 Hm Hsub. rewrite apply_batch_app.
  assert (Hs' : forall x, x ∈ List.filter (fun x => negb (h1 x)) L1 -> x ∈ L).
  { intros x (Hx & _)%list_elem_of_In%filter_In. apply Hsub. by apply list_elem_of_In. }
  specialize (H2' _ _ (H1' m L1 Hm Hsub) Hs'). rewrite filter_filter in H2'.
  erewrite filter_ext_in'; [exact H2'|]. intros x _. by rewrite negb_orb.
Qed.

(** Setting a row that is not one of an event. *)
Lemma removes_set L hits k v ops : other_row k v -> removes L hits ops -> removes L hits (BatchSet k v :: ops).
Proof.
  intros Ho Hr m L1 Hm Hsub. rewrite apply_batch_cons. apply Hr; [|done]. by apply rows_ok_other.
Qed.

(** Removing one event. *)
Lemma removes_event m0 L ib e hits : rows_ok m0 L -> event_at L ib (Some e) ->
  (forall x, x ∈ L -> hits x = bool_decide (idb x = ib)) -> removes L hits (BatchDelete <$> row_keys e).
Proof.
  intros Hm0 Ha Hh m L1 Hm Hsub. destruct Ha as [Hin Hid].
  assert (Hok : forall x, x ∈ L -> event_ok x) by (intros; by apply Hm0).
  assert (Heq : List.filter (fun x => negb (hits x)) L1 = without e L1).
  { apply filter_ext_in'. intros x Hx. f_equal. rewrite Hh by auto. apply eq_true_iff_eq.
    rewrite bool_decide_eq_true, String.eqb_eq, <-Hid. split; [|by unfold idb; intros ->]. apply idb_same; auto. }
  rewrite Heq. apply rows_ok_delete; [done|by apply Hok|]. intros x Hx Hxid.
  eapply distinct_ids_eq; [apply Hm0|by apply Hsub|done|done].
Qed.

Lemma removes_delete_addr L hits ops h : removes L hits ops -> removes L hits (ops ++ [BatchDelete (makeAddrKey h)]).
Proof.
  intros Hr m L1 Hm Hsub. rewrite apply_batch_app. cbn [apply_batch foldl apply_op]. apply rows_ok_delete_addr. by apply Hr.
Qed.

Lemma removes_ext L h1 h2 ops : (forall x, x ∈ L -> h1 x = h2 x) -> removes L h1 ops -> removes L h2 ops.
Proof.
  intros Hh Hr m L1 Hm Hsub. erewrite filter_ext_in'; [by apply Hr|]. intros x Hx. cbv beta. by rewrite Hh by auto.
Qed.

Lemma hexToBytes32_length s b : hexToBytes32 s = Ok b -> length b = 32%nat.
Proof.
  unfold hexToBytes32. generalize (chars s) as l. generalize 32%nat as n. revert b.
  intros b n. revert b. induction n as [|n IH]; intros b l Hb; [by injection Hb as <-|].
  destruct l as [|x [|y l]]; [done..|]. cbn [hexToBytes] in Hb. inv_ok. cbn [length]. f_equal. by eapply IH.
Qed.

Lemma deletion_key_other p h v : p = prefixDeletedID \/ p = prefixDeletedAddr -> other_row (makeDeletionKey p h) v.
Proof. intros Hp. right. unfold makeDeletionKey. eauto. Qed.

(** A closed value that is intact. *)
Lemma deleteEventFromBatch_closed d v : closed_intact ->
  deleteEventFromBatch d (fun n => db_Closed d v (S n)) = deleteEventFromBatch d (live v).
Proof. intros Hc. apply deleteEventFromBatch_ext. intros n. apply Hc. Qed.

(** One tag. *)
Lemma kind5_tag_ops_removes d L ev value t ops : rows_ok (db_view d) L ->
  (forall arg rest, t = "a"%string :: arg :: rest -> closed_intact) ->
  kind5_tag_ops d ev value t = Ok ops -> removes L (kind5_hits d ev t) ops.
Proof.
  intros Hr Hclosed Hops. destruct t as [|name [|arg t]]; [injection Hops as <-; apply removes_nil; intros x Hx; done..|].
  cbn [kind5_tag_ops kind5_hits] in *. destruct (String.eqb name "e"); [|destruct (String.eqb_spec name "a") as [->|]].
  - unfold kind5_e in Hops. destruct (Nat.eqb_spec (String.length arg) 64) as [Hl|Hl]; cbn [negb andb] in *.
    2: { injection Hops as <-. by apply removes_nil. }
    apply bind_Ok in Hops as (ib & Hib & Hops). rewrite Hib. pose proof (hexToBytes32_length _ _ Hib) as Hlen.
    apply bind_Ok in Hops as (r & Hget & Hops). apply bind_Ok in Hops as (dels & Hdels & Hops). injection Hops as <-.
    pose proof (get_event_Ok _ _ _ _ _ Hr Hlen Hget) as Ha.
    apply removes_set; [apply deletion_key_other; by left|]. destruct r as [e|].
    + destruct (String.eqb (ev_Pubkey e) (ev_Pubkey ev) && negb (ev_Kind e =? 5)) eqn:E.
      * destruct (deleteEventFromBatch_Ok _ _ _ _ Hr Hlen Hdels) as (r & Ha' & ->).
        destruct r as [e'|]; [|destruct Ha as [Hin Hid]; by destruct (Ha' e Hin)].
        eapply removes_event; [exact Hr|exact Ha'|]. intros x Hx. case_bool_decide as Hxi; [|done].
        by rewrite (event_at_same _ _ _ _ _ Hr Ha Hx Hxi), E.
      * injection Hdels as <-. apply removes_nil. intros x Hx. case_bool_decide as Hxi; [|done].
        by rewrite (event_at_same _ _ _ _ _ Hr Ha Hx Hxi), E.
    + injection Hdels as <-. apply removes_nil. intros x Hx. case_bool_decide as Hxi; [|done].
      by destruct (Ha x Hx).
  - unfold kind5_a in Hops. apply bind_Ok in Hops as (r & Hget & Hops).
    apply bind_Ok in Hops as (dels & Hdels & Hops). injection Hops as <-.
    apply removes_set; [apply deletion_key_other; by right|]. apply get_value_Ok in Hget. rewrite Hget.
    destruct r as [ib|]; [|injection Hdels as <-; by apply removes_nil]. cbv zeta in Hdels.
    rewrite (deleteEventFromBatch_closed d ib), (Hclosed arg t eq_refl) in Hdels by by apply (Hclosed arg t).
    pose proof (addr_value _ _ _ _ Hr Hget) as Hlen.
    apply bind_Ok in Hdels as (r & Hev%wrap_err_Ok & Hdels). pose proof (get_event_Ok _ _ _ _ _ Hr Hlen Hev) as Ha.
    assert (Hhit : forall x, bool_decide (Some ib = Some (idb x)) = bool_decide (idb x = ib)).
    { intros x. apply bool_decide_ext. split; [by intros [=]|by intros ->]. }
    destruct r as [e|].
    + destruct (String.eqb (ev_Pubkey e) (ev_Pubkey ev) && negb (After (ev_CreatedAt e) (ev_CreatedAt ev))) eqn:E.
      * apply bind_Ok in Hdels as (ops & Hd%wrap_err_Ok & Hdels). injection Hdels as <-. apply removes_delete_addr.
        destruct (deleteEventFromBatch_Ok _ _ _ _ Hr Hlen Hd) as (r & Ha' & ->).
        destruct r as [e'|]; [|destruct Ha as [Hin Hid]; by destruct (Ha' e Hin)].
        eapply removes_event; [exact Hr|exact Ha'|]. intros x Hx. rewrite Hhit. case_bool_decide as Hxi; [|done].
        by rewrite (event_at_same _ _ _ _ _ Hr Ha Hx Hxi), E.
      * injection Hdels as <-. apply removes_nil. intros x Hx. rewrite Hhit. case_bool_decide as Hxi; [|done].
        by rewrite (event_at_same _ _ _ _ _ Hr Ha Hx Hxi), E.
    + injection Hdels as <-. apply removes_nil. intros x Hx. rewrite Hhit. case_bool_decide as Hxi; [|done].
      by destruct (Ha x Hx).
  - injection Hops as <-. by apply removes_nil.
Qed.

(** All tags. *)
Lemma kind5_ops_removes d L ev value ts ops : rows_ok (db_view d) L ->
  (forall arg rest, ("a"%string :: arg :: rest) ∈ ts -> closed_intact) ->
  kind5_ops d ev value ts = Ok ops -> removes L (fun x => existsb (fun t => kind5_hits d ev t x) ts) ops.
Proof.
  intros Hr. revert ops. induction ts as [|t ts IH]; intros ops Hclosed Hops; [injection Hops as <-; by apply removes_nil|].
  cbn [kind5_ops] in Hops. apply bind_Ok in Hops as (ops1 & H1' & Hops). apply bind_Ok in Hops as (ops2 & H2' & Hops).
  injection Hops as <-. apply (removes_app L (kind5_hits d ev t)); [eapply kind5_tag_ops_removes; [done| |done]|apply IH; [|done]].
  - intros arg rest ->. apply (Hclosed arg rest). by left.
  - intros arg rest Hin. apply (Hclosed arg rest). by right.
Qed.

(** The commit of a batch: as a whole, or a failure that may have done nothing. *)
Lemma commit_cases d what ops d' r : commit d what ops = (d', r) ->
  (db_view d' = apply_batch ops (db_view d) /\ (r = Ok () \/ exists e, r = Err e)) \/
  (db_view d' = db_view d /\ exists e, r = Err e).
Proof.
  unfold commit. intros Hc. destruct (db_Commit d ops) as [d1 err] eqn:E. apply pl_Commit in E.
  destruct err as [e|]; simplify_eq; destruct E as [E|[E1 E2]]; eauto; done.
Qed.

(** The events a deletion request leaves. *)
Definition kind5_left (d : D) (ev : Event) (L : list Event) : list Event :=
  List.filter (fun x => negb (existsb (fun t => kind5_hits d ev t x) (tags ev))) L.

Lemma processKind5_rows d L ev d' r : rows_ok (db_view d) L -> (names_address ev -> closed_intact) -> processKind5 d ev = (d', r) ->
  (r = Ok () /\ rows_ok (db_view d') (kind5_left d ev L)) \/
  (r <> Ok () /\ (rows_ok (db_view d') L \/ rows_ok (db_view d') (kind5_left d ev L))).
Proof.
  intros Hr Hclosed Hp. unfold processKind5 in Hp.
  destruct (hexToBytes32 (ev_Pubkey ev)) as [pk|e|w]; cbn [mbind Res_bind] in Hp; [|simplify_eq; auto..].
  destruct (kind5_ops _ _ _ _) as [ops|e|w] eqn:E; [|simplify_eq; auto..].
  pose proof (kind5_ops_removes _ _ _ _ _ _ Hr (fun arg rest Hin => Hclosed (ex_intro _ arg (ex_intro _ rest Hin))) E _ _ Hr (fun x Hx => Hx)) as Hk.
  destruct (commit_cases _ _ _ _ _ Hp) as [[Hv [->|[e ->]]]|[Hv [e ->]]]; rewrite Hv; auto.
Qed.

(** ** Writing an event *)

(** What [find_replaced] finds behind the pointer of the address. *)
Definition replaced_by (d : D) (L : list Event) (e : Event) (r : option (option bytes)) : Prop :=
  let ptr := db_view d !! makeAddrKey (hashAddress (address e)) in
  match r with
  | Some (Some oid) => ptr = Some oid /\ exists old, event_at L oid (Some old) /\ ev_lt e old
  | Some None => ptr = None \/ exists oid, ptr = Some oid /\ event_at L oid None
  | None => exists old, old ∈ L /\ ptr = Some (idb old) /\ ~ ev_lt e old
  end.

Lemma supersedes_spec e old :
  (if Before (ev_CreatedAt e) (ev_CreatedAt old) then true
   else Equal (ev_CreatedAt e) (ev_CreatedAt old) && negb (str_ltb (ev_ID e) (ev_ID old))) = false <-> ev_lt e old.
Proof.
  unfold ev_lt, str_lt. rewrite Before_After.
  destruct (After_total (ev_CreatedAt e) (ev_CreatedAt old)) as [Ha|[Ht|Ha]].
  - assert (After (ev_CreatedAt old) (ev_CreatedAt e) = false) as ->.
    { destruct (After (ev_CreatedAt old) (ev_CreatedAt e)) eqn:E; [|done].
      pose proof (After_trans _ _ _ Ha E) as Hc. by rewrite After_irrefl in Hc. }
    assert (Equal (ev_CreatedAt e) (ev_CreatedAt old) = false) as ->; [|naive_solver].
    apply not_true_iff_false. intros Heq%Equal_spec. rewrite Heq, After_irrefl in Ha. done.
  - rewrite Ht, After_irrefl, Equal_refl. cbn [andb]. rewrite negb_false_iff. naive_solver.
  - rewrite Ha. split; [done|]. intros [Hb|[Hb _]].
    + pose proof (After_trans _ _ _ Ha Hb) as Hc. by rewrite After_irrefl in Hc.
    + rewrite Hb, After_irrefl in Ha. done.
Qed.

Lemma find_replaced_Ok d L e r : rows_ok (db_view d) L -> find_replaced d e = Ok r -> replaced_by d L e r.
Proof.
  intros Hr Hf. unfold find_replaced in Hf. apply bind_Ok in Hf as (v & Hv%get_value_Ok & Hf). unfold replaced_by.
  rewrite Hv. destruct v as [ib|]; [|injection Hf as <-; by left].
  pose proof (addr_value _ _ _ _ Hr Hv) as Hlen. apply bind_Ok in Hf as (x & Hx%wrap_err_Ok & Hf).
  pose proof (get_event_Ok _ _ _ _ _ Hr Hlen Hx) as Ha. injection Hf as <-.
  destruct x as [old|]; [|right; eauto]. pose proof (supersedes_spec e old) as Hsup.
  destruct (Before _ _); [exists old; destruct Ha as [? <-]; split_and!; [done..|]; intros Hl; by apply Hsup in Hl|].
  destruct (_ && _); [exists old; destruct Ha as [? <-]; split_and!; [done..|]; intros Hl; by apply Hsup in Hl|].
  split; [done|]. exists old. split; [done|]. by apply Hsup.
Qed.

(** The keys a batch touches. *)
Definition op_key (op : BatchOp) : bytes := match op with BatchSet k _ => k | BatchDelete k => k end.

Lemma apply_untouched ops m k : k ∉ op_key <$> ops -> apply_batch ops m !! k = m !! k.
Proof.
  revert m. induction ops as [|op ops IH]; intros m Hk; [done|]. rewrite fmap_cons in Hk.
  apply not_elem_of_cons in Hk as [Hne Hk]. rewrite apply_batch_cons, IH by done.
  destruct op as [k' v|k']; cbn in *; [by apply lookup_insert_ne|by apply lookup_delete_ne].
Qed.

(** The keys of rows are none of the pointers and records. *)
Lemma row_keys_first e k : event_ok e -> k ∈ row_keys e -> ~ other_row k (replicate 32 0).
Proof. intros He (v & Hv)%elem_of_row_keys. by eapply rows_not_other. Qed.

Lemma write_ops_rows e b : event_ok e -> marshal_event e = Ok b -> write_ops e (idb e) b =
  ((fun r => BatchSet r.1 r.2) <$> rows e) ++
  (if has_address e then [BatchSet (makeAddrKey (hashAddress (address e))) (idb e)] else []).
Proof.
  intros He Hm. unfold write_ops, rows, json_of. rewrite Hm, fmap_cons, <-list_fmap_compose. done.
Qed.

(** What a successful [store_batch] does. *)
Record batch_writes (d : D) (L : list Event) (e : Event) (ops : list BatchOp) (L' : list Event) : Prop := {
  bw_rows : rows_ok (apply_batch ops (db_view d)) (L' ++ [e]);
  bw_left : (L' = L /\ (has_address e = true -> replaced_by d L e (Some None))) \/
    exists old, has_address e = true /\ L' = without old L /\ old ∈ L /\ replaced_by d L e (Some (Some (idb old))) ;
  bw_other : forall k, other_row k (replicate 32 0) -> apply_batch ops (db_view d) !! k =
    if has_address e && bool_decide (k = makeAddrKey (hashAddress (address e))) then Some (idb e) else db_view d !! k
}.

Lemma write_rows_other m e k : event_ok e -> other_row k (replicate 32 0) ->
  apply_batch ((fun r => BatchSet r.1 r.2) <$> rows e) m !! k = m !! k.
Proof.
  intros He Ho. apply apply_untouched. intros Hk. rewrite <-list_fmap_compose in Hk.
  apply list_elem_of_fmap in Hk as ([k' v'] & -> & Hk). cbn in Ho. by eapply (rows_not_other e).
Qed.

Lemma delete_rows_other m e k : event_ok e -> other_row k (replicate 32 0) ->
  apply_batch (BatchDelete <$> row_keys e) m !! k = m !! k.
Proof.
  intros He Ho. rewrite apply_deletes. apply decide_False. intros Hk. by eapply row_keys_first.
Qed.

Lemma addr_op_other (b : bool) k0 v m k :
  apply_batch (if b then [BatchSet k0 v] else []) m !! k = if b && bool_decide (k = k0) then Some v else m !! k.
Proof.
  destruct b; [|done]. cbn. case_bool_decide as Hk; [subst; apply lookup_insert_eq|by apply lookup_insert_ne].
Qed.

Lemma addr_op_rows (b : bool) h v m L : length v = 32%nat -> rows_ok m L ->
  rows_ok (apply_batch (if b then [BatchSet (makeAddrKey h) v] else []) m) L.
Proof.
  intros Hl Hr. destruct b; [|done]. apply rows_ok_other; [|done]. left. unfold makeAddrKey. eauto.
Qed.

Lemma store_batch_writes d L e b dels L' : rows_ok (db_view d) L -> stored_ok e -> marshal_event e = Ok b ->
  (forall x, x ∈ L' -> ev_ID x <> ev_ID e) -> rows_ok (apply_batch dels (db_view d)) L' ->
  (forall k, other_row k (replicate 32 0) -> apply_batch dels (db_view d) !! k = db_view d !! k) ->
  rows_ok (apply_batch (dels ++ write_ops e (idb e) b) (db_view d)) (L' ++ [e]) /\
  forall k, other_row k (replicate 32 0) -> apply_batch (dels ++ write_ops e (idb e) b) (db_view d) !! k =
    if has_address e && bool_decide (k = makeAddrKey (hashAddress (address e))) then Some (idb e) else db_view d !! k.
Proof.
  intros Hr He Hm Hnew Hdel Hother. destruct He as [Hok Hst]. rewrite (write_ops_rows e b Hok Hm), !apply_batch_app. split.
  - apply addr_op_rows; [by apply idb_length|]. by apply rows_ok_add.
  - intros k Hk. rewrite addr_op_other, write_rows_other by done. by rewrite Hother.
Qed.

Lemma store_batch_Ok d L e r : rows_ok (db_view d) L -> stored_ok e -> (forall x, x ∈ L -> ev_ID x <> ev_ID e) ->
  store_batch d e (idb e) = Ok r ->
  match r with
  | None => has_address e = true /\ replaced_by d L e None
  | Some ops => exists L', batch_writes d L e ops L'
  end.
Proof.
  intros Hr He Hnew Hs. unfold store_batch in Hs. apply bind_Ok in Hs as (old & Hold & Hs).
  assert (Hrep : if has_address e then replaced_by d L e old else old = Some None).
  { destruct (has_address e); [by apply find_replaced_Ok|by injection Hold]. }
  clear Hold. destruct old as [old|]; [|injection Hs as <-; by destruct (has_address e)].
  apply bind_Ok in Hs as (b & Hb%wrap_err_Ok & Hs). apply bind_Ok in Hs as (dels & Hd & Hs). injection Hs as <-.
  destruct old as [oid|].
  - destruct (has_address e) eqn:Ha; [|done]. destruct Hrep as [Hp (old & Hat & Hlt)].
    pose proof Hat as [Hin Hid]. pose proof (proj1 (ro_events _ _ Hr old Hin)) as Hoko.
    destruct (deleteEventFromBatch_Ok d L oid dels Hr) as (r & Hat' & ->); [rewrite <-Hid; by apply idb_length|done|].
    destruct r as [old'|]; [|by destruct (Hat' old Hin)].
    destruct Hat' as [Hin' Hid']. assert (old' = old) as -> by (by eapply event_at_same).
    destruct (store_batch_writes d L e b (BatchDelete <$> row_keys old) (without old L)) as [H1' H2']; [done..| | | |].
    + intros x [Hx _]%elem_of_without. auto.
    + apply rows_ok_delete; [done|done|]. intros x Hx Hxid. eapply distinct_ids_eq; [apply Hr|done..].
    + intros k. by apply delete_rows_other.
    + exists (without old L). constructor; [done| |by rewrite Ha in *]. right. exists old. split_and!; [done..|].
      rewrite Hid. split; [done|]. eauto.
  - injection Hd as <-. destruct (store_batch_writes d L e b [] L) as [H1' H2']; [done..|].
    exists L. constructor; [done| |done]. left. split; [done|]. intros Ha. by rewrite Ha in Hrep.
Qed.

(** ** Store *)

(** A deletion record as it is read back. *)
Definition decode_record (v : option bytes) : option deletionRecordData :=
  match v with
  | None => None
  | Some value =>
      if negb (length value =? 40)%nat then None
      else Some (mkDeletionRecordData (bytesToHex (take 32 value)) (wrap_int64 (be64_decode (drop 32 value))))
  end.

Definition id_record (d : D) (id : bytes) : option deletionRecordData :=
  decode_record (db_view d !! makeDeletionKey prefixDeletedID id).
Definition addr_record (d : D) (addr : string) : option deletionRecordData :=
  decode_record (db_view d !! makeDeletionKey prefixDeletedAddr (hashAddress addr)).

Definition peb_id_deleted (d : D) (e : Event) : Prop :=
  exists rec, id_record d (idb e) = Some rec /\ dr_pubkey rec = ev_Pubkey e.

Definition peb_addr_deleted (d : D) (e : Event) : Prop :=
  address e <> "" /\ exists rec, addr_record d (address e) = Some rec /\
    dr_pubkey rec = ev_Pubkey e /\ Unix (ev_CreatedAt e) <= dr_createdAt rec.

(** The events that pass the checks. *)
Definition peb_admissible (d : D) (L : list Event) (e : Event) : Prop :=
  (forall x, x ∈ L -> ev_ID x <> ev_ID e) /\ ~ peb_id_deleted d e /\
  eventType e <> EventTypeEphemeral /\ ~ peb_addr_deleted d e.

Lemma getDeletionRecord_Ok d p k r : getDeletionRecord d p k = Ok r ->
  r = decode_record (db_view d !! makeDeletionKey p k).
Proof.
  unfold getDeletionRecord. intros Hg. apply bind_Ok in Hg as (v & Hv%get_value_Ok & Hg). rewrite Hv.
  injection Hg as <-. by destruct v.
Qed.

Lemma store_refused_Ok d L e b : rows_ok (db_view d) L -> event_ok e ->
  store_refused d e (idb e) = Ok b -> b = false <-> peb_admissible d L e.
Proof.
  intros Hr He Hs. unfold store_refused in Hs. apply bind_Ok in Hs as (v & Hv%get_value_Ok & Hs).
  unfold peb_admissible, peb_id_deleted, peb_addr_deleted, id_record, addr_record.
  destruct v as [v|].
  { injection Hs as <-. split; [done|]. intros (Hnew & _). exfalso.
    rewrite event_key_eq in Hv by by apply idb_length.
    destruct (ro_sound _ _ Hr _ _ Hv) as [(x & Hx & Hrow)|Ho].
    - apply (Hnew x Hx). apply idb_same; [by apply Hr|done|].
      apply rows_key_id in Hrow; [|by apply Hr]. rewrite key_id_app in Hrow; [done|by apply idb_length].
    - unfold other_row, prefixEvent, prefixAddr, prefixDeletedID, prefixDeletedAddr in Ho. cbn in Ho. naive_solver lia. }
  assert (Hnew : forall x, x ∈ L -> ev_ID x <> ev_ID e).
  { intros x Hx Hid. pose proof (ro_complete _ _ Hr x (makeEventKey (idb x)) (json_of x) Hx (list_elem_of_here _ _)) as Hc.
    unfold idb in *. rewrite Hid in Hc. congruence. }
  apply bind_Ok in Hs as (rec & Hrec%getDeletionRecord_Ok & Hs). rewrite <-Hrec.
  destruct (match rec with Some rec => String.eqb (dr_pubkey rec) (ev_Pubkey e) | None => false end) eqn:E1.
  { injection Hs as <-. split; [done|]. intros (_ & Hn & _). exfalso. apply Hn.
    destruct rec as [rec|]; [|done]. exists rec. by apply String.eqb_eq in E1. }
  assert (Hid : ~ (exists rec', rec = Some rec' /\ dr_pubkey rec' = ev_Pubkey e)).
  { intros (rec' & -> & Hpk). by rewrite Hpk, String.eqb_refl in E1. }
  case_bool_decide as Heph; [injection Hs as <-; naive_solver|].
  destruct (String.eqb_spec (address e) "") as [Ha|Ha]; [injection Hs as <-; naive_solver|].
  apply bind_Ok in Hs as (rec2 & Hrec2%getDeletionRecord_Ok & Hs). rewrite <-Hrec2. injection Hs as <-.
  destruct rec2 as [rec2|]; [|naive_solver].
  rewrite andb_false_iff, String.eqb_neq, Z.leb_gt. split.
  - intros Hn. split_and!; [done..|]. intros (_ & rec' & [= <-] & Hpk & Ht). destruct Hn; [done|lia].
  - intros (_ & _ & _ & Hn). destruct (decide (dr_pubkey rec2 = ev_Pubkey e)); [|by left].
    destruct (Z.le_gt_cases (Unix (ev_CreatedAt e)) (dr_createdAt rec2)); [|by right]. exfalso. apply Hn. eauto.
Qed.

(** How a failing store leaves the events.  Each of its batches takes effect as a
    whole or not at all: nothing has happened; or a deletion request has removed what
    it hits, and no more; or all is done, and only the last commit reported an error. *)
Inductive failed_left (d : D) (L : list Event) (e : Event) : list Event -> Prop :=
| fl_nothing : failed_left d L e L
| fl_half : ev_Kind e = 5 -> failed_left d L e (kind5_left d e L)
| fl_stored ops L' : ev_Kind e <> 5 -> batch_writes d L e ops L' -> failed_left d L e (L' ++ [e])
| fl_kind5 : ev_Kind e = 5 -> failed_left d L e (kind5_left d e L ++ [e]).

(** What a store does, by the situation. *)
Inductive pebble_outcome (d : D) (L : list Event) (e : Event) : D -> Res bool -> list Event -> Prop :=
| po_refused : ~ peb_admissible d L e -> pebble_outcome d L e d (Ok false) L
| po_kept :
    peb_admissible d L e -> has_address e = true -> replaced_by d L e None ->
    pebble_outcome d L e d (Ok false) L
| po_stored d' ops L' :
    peb_admissible d L e -> ev_Kind e <> 5 -> batch_writes d L e ops L' ->
    db_view d' = apply_batch ops (db_view d) -> pebble_outcome d L e d' (Ok true) (L' ++ [e])
| po_kind5 d1 d' ops :
    peb_admissible d L e -> ev_Kind e = 5 -> processKind5 d e = (d1, Ok ()) ->
    batch_writes d1 (kind5_left d e L) e ops (kind5_left d e L) ->
    db_view d' = apply_batch ops (db_view d1) -> pebble_outcome d L e d' (Ok true) (kind5_left d e L ++ [e])
| po_failed d' r L' :
    is_ok r = false -> failed_left d L e L' -> pebble_outcome d L e d' r L'.

Lemma store_write_outcome d L e d' r : rows_ok (db_view d) L -> stored_ok e ->
  (forall x, x ∈ L -> ev_ID x <> ev_ID e) -> store_write d e (idb e) = (d', r) ->
  (r = Ok false /\ d' = d /\ has_address e = true /\ replaced_by d L e None) \/
  (exists ops L', r = Ok true /\ batch_writes d L e ops L' /\ db_view d' = apply_batch ops (db_view d)) \/
  (is_ok r = false /\ (rows_ok (db_view d') L \/
    exists ops L', batch_writes d L e ops L' /\ rows_ok (db_view d') (L' ++ [e]))).
Proof.
  intros Hr He Hnew Hs. unfold store_write in Hs. destruct (store_batch d e (idb e)) as [o|err|w] eqn:E.
  2,3: simplify_eq; auto.
  apply (store_batch_Ok d L) in E; [|done..]. destruct o as [ops|]; [|simplify_eq; left; naive_solver].
  destruct E as [L' Hw]. right. destruct (commit d "commit batch" ops) as [d1 r1] eqn:Ec.
  destruct (commit_cases _ _ _ _ _ Ec) as [[Hv [->|[err ->]]]|[Hv [err ->]]]; simplify_eq.
  - left. eauto.
  - right. split; [done|]. right. exists ops, L'. rewrite Hv. split; [done|apply Hw].
  - right. split; [done|]. left. by rewrite Hv.
Qed.

Lemma kind5_no_has_address e : ev_Kind e = 5 -> has_address e = false.
Proof. unfold has_address. intros Hk. by rewrite (kind5_regular e Hk). Qed.

Lemma elem_of_kind5_left d ev L x : x ∈ kind5_left d ev L -> x ∈ L.
Proof. unfold kind5_left. rewrite list_elem_of_In, filter_In, <-list_elem_of_In. by intros [? _]. Qed.

Lemma kind5_writes d L e ops L' : ev_Kind e = 5 -> batch_writes d L e ops L' -> L' = L.
Proof.
  intros Hk Hw. destruct (bw_left _ _ _ _ _ Hw) as [[-> _]|(old & Ha & _)]; [done|]. by rewrite kind5_no_has_address in Ha.
Qed.

Lemma Store_pebble_outcome d L e d' r : rows_ok (db_view d) L -> store_ok e -> Store d (Some e) = (d', r) ->
  exists L', pebble_outcome d L e d' r L' /\ rows_ok (db_view d') L'.
Proof.
  intros Hr [He Hclosed] Hs. cbn [Store] in Hs. unfold store_checks in Hs. destruct (id_bytes_ok _ (eo_ID e (proj1 He))) as (Hid & _). rewrite Hid in Hs.
  cbn [mbind Res_bind] in Hs. fold (idb e) in Hs.
  destruct (store_refused d e (idb e)) as [b|err|w] eqn:E; cbn [mbind Res_bind mret Res_ret] in Hs.
  2,3: simplify_eq; exists L; split; [apply po_failed; [done|apply fl_nothing]|done].
  pose proof (store_refused_Ok d L e b Hr (proj1 He) E) as Hb. destruct b.
  { simplify_eq. exists L. split; [|done]. apply po_refused. intros Hadm. by apply Hb in Hadm. }
  pose proof (proj1 Hb eq_refl) as Hadm. pose proof Hadm as (Hnew & _). destruct (Z.eqb_spec (ev_Kind e) 5) as [Hk|Hk].
  - destruct (processKind5 d e) as [d1 r1] eqn:Ep.
    destruct (processKind5_rows d L e d1 r1 Hr (Hclosed Hk) Ep) as [[-> Hr1]|[Hne Hr1]].
    + assert (Hnew1 : forall x, x ∈ kind5_left d e L -> ev_ID x <> ev_ID e).
      { intros x Hx. apply Hnew. by eapply elem_of_kind5_left. }
      destruct (store_write_outcome d1 _ e d' r Hr1 He Hnew1 Hs) as
        [(-> & -> & Ha & _)|[(ops & L' & -> & Hw & Hv)|(Hnok & Hleft)]].
      * by rewrite kind5_no_has_address in Ha.
      * pose proof (kind5_writes _ _ _ _ _ Hk Hw) as ->. exists (kind5_left d e L ++ [e]). split; [by eapply po_kind5|]. rewrite Hv. apply Hw.
      * destruct Hleft as [Hr'|(ops & L' & Hw & Hr')].
        -- exists (kind5_left d e L). split; [apply po_failed; [done|by apply fl_half]|done].
        -- pose proof (kind5_writes _ _ _ _ _ Hk Hw) as ->. exists (kind5_left d e L ++ [e]).
           split; [apply po_failed; [done|by apply fl_kind5]|done].
    + assert (Hnok : is_ok r = false /\ d' = d1) by (destruct r1 as [[]| |]; by simplify_eq). destruct Hnok as [Hnok ->].
      destruct Hr1 as [Hr1|Hr1]; [exists L|exists (kind5_left d e L)]; (split; [|exact Hr1]); apply po_failed; [done|apply fl_nothing|done|by apply fl_half].
  - destruct (store_write_outcome d L e d' r Hr He Hnew Hs) as
      [(-> & -> & Ha & Hrep)|[(ops & L' & -> & Hw & Hv)|(Hnok & [Hr'|(ops & L' & Hw & Hr')])]].
    + exists L. split; [by apply po_kept|done].
    + exists (L' ++ [e]). split; [by eapply po_stored|]. rewrite Hv. apply Hw.
    + exists L. split; [apply po_failed; [done|apply fl_nothing]|done].
    + exists (L' ++ [e]). split; [apply po_failed; [done|by eapply fl_stored]|done].
Qed.

End Inv.
Arguments closed_intact D I {_ _}.
Arguments store_ok D I {_ _ _ _} e.
