(* ===== verification/PebbleQuery.v ===== *)
(** * Querying Pebble (pebble_storage.go)

    [Query]: a tree of cursors per filter, merged on a heap, each candidate read
    back and matched against its filter again.  The snapshot is the database as it
    was when the query began.  [n] is fuel for the joins of an intersection and for
    the merge; [None] says it ran out. *)

From S2P Require Import Prelude GoTime Text Bytes Event Filter Storage PebbleKeys Heap PebbleCursor PebbleJoin.
From S2P Require Import PebbleStore PebbleRows PebbleInv.

Section Query.

Context {D I : Type} `{PebbleDB D I} `{EventCodec}.

(** ** Cursors *)

(** What [wrapCursors] returns, and what [buildFilterCursor] does. *)
Abbreviation part := (indexCursor I + unionCursor (indexCursor I))%type.
Abbreviation tree := (sliceCursor + (part + intersectCursor part))%type.

(** The bounds of both kinds of index cursor: a prefix of the keys, the bound above
    all of them, and the times of the filter. *)
Definition lower_bound (prefix : bytes) (filter : ReqFilter) : bytes :=
  match f_Until filter with Some u => prefix ++ be64 (invertTimestamp u) | None => prefix end.
Definition upper_bound (prefix upper : bytes) (filter : ReqFilter) : bytes :=
  match f_Since filter with
  | Some s => prefix ++ be64 (wrap_uint64 (invertTimestamp s + 1))
  | None => upper
  end.

Definition new_iter (snapshot : D) (what : string) (lower upper : bytes) : Res I :=
  match db_NewIter snapshot lower upper with inl it => Ok it | inr e => Err (what +:+ ": " +:+ e) end.

(** [newFieldIndexCursor] *)
Definition newFieldIndexCursor (snapshot : D) (hash : Z) (filter : ReqFilter) : Res (indexCursor I) :=
  let prefix := prefixField :: be64 hash in
  it ← new_iter snapshot "create field iterator" (lower_bound prefix filter)
         (upper_bound prefix (incrementBytes prefix) filter);
  mret (newIndexCursor it prefix 9 17).

(** [newCreatedAtCursor] *)
Definition newCreatedAtCursor (snapshot : D) (filter : ReqFilter) : Res (indexCursor I) :=
  let prefix := [prefixCreatedAt] in
  it ← new_iter snapshot "create created_at iterator" (lower_bound prefix filter)
         (upper_bound prefix [prefixCreatedAt + 1] filter);
  mret (newIndexCursor it prefix 1 9).

(** The loop of [buildIDsCursor]. *)
Fixpoint ids_entries (snapshot : D) (ids : list string) : Res (list entry) :=
  match ids with
  | [] => Ok []
  | id :: ids =>
      if negb (String.length id =? 64)%nat then ids_entries snapshot ids
      else
        eventIDBytes ← hexToBytes32 id;
        event ← wrap_err "get event by id" (getEventByIDFromSnapshot snapshot eventIDBytes);
        rest ← ids_entries snapshot ids;
        mret match event with
        | None => rest
        | Some event => (invertTimestamp (Unix (ev_CreatedAt event)), eventIDBytes) :: rest
        end
  end.

(** [buildIDsCursor]; the sorted slice is unique. *)
Definition buildIDsCursor (snapshot : D) (ids : list string) : Res (option sliceCursor) :=
  entries ← ids_entries snapshot ids;
  mret (if (length entries =? 0)%nat then None else Some (newSliceCursor (entry_sort entries))).

(** [wrapCursors] *)
Definition wrapCursors (cursors : list (indexCursor I)) : part :=
  match cursors with [c] => inl c | _ => inr (newUnionCursor cursors) end.

Fixpoint index_cursors (snapshot : D) (filter : ReqFilter) (hashes : list Z) : Res (list (indexCursor I)) :=
  match hashes with
  | [] => Ok []
  | h :: hashes =>
      c ← newFieldIndexCursor snapshot h filter;
      cs ← index_cursors snapshot filter hashes;
      mret (c :: cs)
  end.

(** One condition: a cursor over the hashes of its values, if there are any. *)
Definition condition (snapshot : D) (filter : ReqFilter) (hashes : list Z) : Res (list part) :=
  cursors ← index_cursors snapshot filter hashes;
  mret (if (0 <? length cursors)%nat then [wrapCursors cursors] else []).

Fixpoint conditions (snapshot : D) (filter : ReqFilter) (groups : list (list Z)) : Res (list part) :=
  match groups with
  | [] => Ok []
  | g :: groups => c ← condition snapshot filter g; cs ← conditions snapshot filter groups; mret (c ++ cs)
  end.

(** The hashes of each condition; [order] is the order in which [range] visits the
    map of the tags. *)
Definition author_hashes (filter : ReqFilter) : list Z :=
  fieldHashAuthor <$> List.filter (fun a => (String.length a =? 64)%nat) (elems (f_Authors filter)).

Definition tag_hashes (filter : ReqFilter) (tagName : string) : list Z :=
  match chars tagName, f_Tags filter !! tagName with
  | [c], Some tagValues => fieldHashTag c <$> tagValues
  | _, _ => []
  end.

Definition condition_hashes (order : MapOrder) (filter : ReqFilter) : list (list Z) :=
  author_hashes filter :: (fieldHashKind <$> elems (f_Kinds filter)) ::
  (tag_hashes filter <$> map_range order (f_Tags filter)).

(** [buildFilterCursor]; the inner [None] is the nil cursor. *)
Definition buildFilterCursor (n : nat) (order : MapOrder) (snapshot : D) (filter : ReqFilter)
    : option (Res (option tree)) :=
  if (0 <? length (elems (f_IDs filter)))%nat then
    Some (option_map inl <$> buildIDsCursor snapshot (elems (f_IDs filter)))
  else
    match conditions snapshot filter (condition_hashes order filter) with
    | Ok [] => Some ((fun c => Some (inr (inl (inl c)))) <$> newCreatedAtCursor snapshot filter)
    | Ok [c] => Some (Ok (Some (inr (inl c))))
    | Ok cs => (fun c => Ok (Some (inr (inr c)))) <$> newIntersectCursor n cs
    | Err e => Some (Err e)
    | Panic w => Some (Panic w)
    end.

(** ** The merge of the filters *)

(** [filterCursorPair] *)
Record filterCursorPair : Type := mkFilterCursorPair { fc_cursor : tree; fc_filter : ReqFilter }.

(** [filterCursorHeap.Less] *)
Definition pairLess (a b : filterCursorPair) : bool := cursorLess (fc_cursor a) (fc_cursor b).

(** The loop that builds the heap. *)
Fixpoint build_heap (n : nat) (order : MapOrder) (snapshot : D) (filters : list ReqFilter)
    (fh : list filterCursorPair) : option (Res (list filterCursorPair)) :=
  match filters with
  | [] => Some (Ok fh)
  | filter :: filters =>
      c ← buildFilterCursor n order snapshot filter;
      match wrap_err "build filter cursor" c with
      | Ok (Some cursor) =>
          build_heap n order snapshot filters
            (if Valid cursor then heap_Push pairLess fh (mkFilterCursorPair cursor filter) else fh)
      | Ok None => build_heap n order snapshot filters fh
      | Err e => Some (Err e)
      | Panic w => Some (Panic w)
      end
  end.

(** The events a run yields, and how it ends. *)
Definition yielding (e : Event) (r : list Event * Res unit) : list Event * Res unit := (e :: fst r, snd r).

(** The candidate of a cursor: the event it yields, if it is new and matches. *)
Definition candidate (snapshot : D) (seen : gset string) (p : filterCursorPair) : Res (option Event) :=
  let eventID := snd (head (fc_cursor p)) in
  if bool_decide (bytesToHex eventID ∈ seen) then Ok None
  else
    event ← wrap_err "query event" (getEventByIDFromSnapshot snapshot eventID);
    mret match event with
    | Some event => if Match (Some (fc_filter p)) (Some event) then Some event else None
    | None => None
    end.

(** The loop over the heap, for a consumer that does not stop; one that stops sees
    a prefix. *)
Fixpoint query_loop (fuel n : nat) (snapshot : D) (limit count : Z) (seen : gset string)
    (fh : list filterCursorPair) : option (list Event * Res unit) :=
  match fuel with
  | O => None
  | S fuel =>
      if (length fh =? 0)%nat then Some ([], Ok ())
      else if (0 <=? limit) && (limit <=? count) then Some ([], Ok ())
      else
        match heap_Pop pairLess fh with
        | (_, None) => Some ([], Ok ())
        | (fh, Some p) =>
            let eventIDHex := bytesToHex (snd (head (fc_cursor p))) in
            match candidate snapshot seen p with
            | Err e => Some ([], Err e)
            | Panic w => Some ([], Panic w)
            | Ok yielded =>
                '(cursor, ok) ← Next n (fc_cursor p);
                let fh := if ok : bool then heap_Push pairLess fh (mkFilterCursorPair cursor (fc_filter p)) else fh in
                match yielded with
                | None => query_loop fuel n snapshot limit count seen fh
                | Some e =>
                    yielding e <$> query_loop fuel n snapshot limit (count + 1) ({[eventIDHex]} ∪ seen) fh
                end
            end
        end
  end.

(** [PebbleStorage.Query] on the snapshot. *)
Definition Query (n : nat) (order : MapOrder) (snapshot : D) (filters : list ReqFilter)
    : option (list Event * Res unit) :=
  if (length filters =? 0)%nat then Some ([], Ok ())
  else
    fh ← build_heap n order snapshot filters [];
    match fh with
    | Ok fh => query_loop n n snapshot (query_limit filters) 0 ∅ fh
    | Err e => Some ([], Err e)
    | Panic w => Some ([], Panic w)
    end.

(** [PebbleStorage.len]; an iterator that cannot be made counts nothing. *)
Fixpoint count_keys (fuel : nat) (it : I) (valid : bool) : nat :=
  match fuel with
  | O => 0
  | S fuel => if valid then let '(it, valid) := it_Next it in S (count_keys fuel it valid) else 0
  end.

Definition pebble_len (n : nat) (d : D) : nat :=
  match db_NewIter d [prefixEvent] [prefixEvent + 1] with
  | inl it => let '(it, valid) := it_First it in count_keys n it valid
  | inr _ => 0
  end.

End Query.
