(* ===== verification/PebbleFaults.v ===== *)
(** * Where a Pebble query can fail (pebble_storage.go)

    A query reports an error, or panics, only where an iterator cannot be made or an
    event cannot be read: neither its cursors nor its merge add any. *)

From S2P Require Import Prelude GoTime Text Bytes Event Filter Storage PebbleKeys Heap PebbleCursor PebbleJoin.
From S2P Require Import PebbleStore PebbleQuery.

(** The two ways in which a result is none. *)
Inductive Fault : Type := IsError | IsPanic.

Definition free (k : Fault) {A} (r : Res A) : Prop :=
  match k, r with IsError, Err _ | IsPanic, Panic _ => False | _, _ => True end.

Section Free.

Context (k : Fault).

Lemma free_ok {A} (a : A) : free k (Ok a).
Proof. by destruct k. Qed.

Lemma free_bind {A B} (r : Res A) (f : A -> Res B) : free k r -> (forall a, free k (f a)) -> free k (r ≫= f).
Proof. intros Hr Hf. destruct r as [a|e|w]; [apply Hf|by destruct k..]. Qed.

Lemma free_wrap {A} what (r : Res A) : free k r -> free k (wrap_err what r).
Proof. destruct k, r; done. Qed.

End Free.

Create HintDb free.
#[export] Hint Resolve free_ok free_bind free_wrap : free.

(** Two characters a byte are enough. *)
Lemma hexToBytes_enough n : forall hex, length hex = (2 * n)%nat -> exists b, hexToBytes n hex = Ok b.
Proof.
  induction n as [|n IH]; intros hex Hl; cbn [hexToBytes]; [by eexists|].
  destruct hex as [|a [|b hex]]; [cbn in Hl; lia..|]. destruct (IH hex) as [r ->]; [cbn in Hl; lia|]. by eexists.
Qed.

Section Query.

Context {D I : Type} `{PebbleDB D I} `{EventCodec} (k : Fault) (d : D).

(** Iterators can be made, and events can be read. *)
Record reads_well : Prop := {
  rw_opens : k = IsError -> forall lo hi, exists it, db_NewIter d lo hi = inl it;
  rw_reads : forall eventID, free k (getEventByIDFromSnapshot d eventID)
}.

Hypothesis Hwell : reads_well.

Lemma free_new_iter what lo hi : free k (new_iter d what lo hi).
Proof.
  pose proof (rw_opens Hwell) as Ho. unfold new_iter. destruct k; [destruct (Ho eq_refl lo hi) as [it ->]; done|].
  by destruct (db_NewIter d lo hi).
Qed.
Hint Resolve free_new_iter : free.

Lemma free_ids_entries ids : free k (ids_entries d ids).
Proof.
  induction ids as [|id ids IH]; cbn [ids_entries]; [apply free_ok|].
  destruct (Nat.eqb_spec (String.length id) 64) as [Hl|]; [cbn [negb]|done].
  destruct (hexToBytes_enough 32 (chars id)) as [b Hb]; [by rewrite chars_length, Hl|].
  unfold hexToBytes32. rewrite Hb. cbn [mbind Res_bind].
  apply free_bind; [apply free_wrap, (rw_reads Hwell)|intros r]. apply free_bind; [done|intros; apply free_ok].
Qed.

Lemma free_index_cursors filter hs : free k (index_cursors d filter hs).
Proof.
  induction hs as [|h hs IH]; cbn [index_cursors]; [apply free_ok|]. unfold newFieldIndexCursor.
  repeat (apply free_bind; intros; auto with free).
Qed.

Lemma free_conditions filter gs : free k (conditions d filter gs).
Proof.
  induction gs as [|g gs IH]; cbn [conditions]; [apply free_ok|]. unfold condition.
  repeat (apply free_bind; intros; auto using free_index_cursors with free).
Qed.

Lemma free_buildFilterCursor n o filter r : buildFilterCursor n o d filter = Some r -> free k r.
Proof.
  unfold buildFilterCursor. destruct (0 <? _)%nat.
  - intros [= <-]. unfold buildIDsCursor. repeat (apply free_bind; intros; auto using free_ids_entries with free).
  - pose proof (free_conditions filter (condition_hashes o filter)) as Hq.
    destruct (conditions d filter (condition_hashes o filter)) as [[|c [|c' cs]]|e|w].
    + intros [= <-]. unfold newCreatedAtCursor. repeat (apply free_bind; intros; auto with free).
    + intros [= <-]. apply free_ok.
    + destruct (newIntersectCursor n _); [intros [= <-]; apply free_ok|done].
    + by intros [= <-].
    + by intros [= <-].
Qed.

Lemma free_build_heap n o filters : forall fh r, build_heap n o d filters fh = Some r -> free k r.
Proof.
  induction filters as [|f filters IH]; intros fh r; cbn [build_heap]; [intros [= <-]; apply free_ok|].
  intros (c & Hc & Hr)%bind_Some_iff. pose proof (free_wrap k "build filter cursor" c (free_buildFilterCursor _ _ _ _ Hc)) as Hq.
  destruct (wrap_err _ c) as [[c'|]|e|w]; [by apply IH in Hr..|by injection Hr as <-|by injection Hr as <-].
Qed.

Lemma free_candidate seen p : free k (candidate d seen p).
Proof.
  unfold candidate. case_bool_decide; [apply free_ok|]. apply free_bind; [apply free_wrap, (rw_reads Hwell)|intros; apply free_ok].
Qed.

Lemma free_query_loop fuel n limit : forall count seen fh run,
  query_loop fuel n d limit count seen fh = Some run -> free k (snd run).
Proof.
  induction fuel as [|fuel IH]; intros count seen fh run; [done|]. cbn [query_loop].
  destruct (length fh =? 0)%nat; [intros [= <-]; apply free_ok|]. destruct (_ && _); [intros [= <-]; apply free_ok|].
  destruct (heap_Pop pairLess fh) as [h [p|]]; [|intros [= <-]; apply free_ok]. pose proof (free_candidate seen p) as Hq.
  destruct (candidate d seen p) as [y|err|w]; [|by intros [= <-]..].
  intros ([cursor ok] & _ & Hrun)%bind_Some_iff. destruct y as [e|]; [|by eapply IH].
  apply fmap_Some in Hrun as (run' & Hrun' & ->). by eapply (IH _ _ _ _ Hrun').
Qed.

Lemma free_Query n o filters run : PebbleQuery.Query n o d filters = Some run -> free k (snd run).
Proof.
  unfold PebbleQuery.Query. destruct (length filters =? 0)%nat; [intros [= <-]; apply free_ok|].
  intros (fh & Hfh & Hrun)%bind_Some_iff. pose proof (free_build_heap _ _ _ _ _ Hfh) as Hq.
  destruct fh as [fh|e|w]; [by eapply free_query_loop|by injection Hrun as <-..].
Qed.

End Query.

(** ** What it yields can be read *)

Section Yield.

Context {D I : Type} `{PebbleDB D I} `{EventCodec} (d : D).

(** The event was found under some id. *)
Definition readable_event (e : Event) : Prop := exists eventID, getEventByIDFromSnapshot d eventID = Ok (Some e).

Lemma candidate_readable seen p e : candidate d seen p = Ok (Some e) -> readable_event e.
Proof.
  unfold candidate. case_bool_decide; [done|]. intros ([x|] & Hx & Hc)%bind_Ok; [|done].
  destruct (Match _ _); [|done]. injection Hc as ->. exists (snd (head (fc_cursor p))).
  by destruct (getEventByIDFromSnapshot d _); [injection Hx as ->| |].
Qed.

Lemma query_loop_readable fuel n limit : forall count seen fh run,
  query_loop fuel n d limit count seen fh = Some run -> Forall readable_event (fst run).
Proof.
  induction fuel as [|fuel IH]; intros count seen fh run; [done|]. cbn [query_loop].
  destruct (length fh =? 0)%nat; [by intros [= <-]|]. destruct (_ && _); [by intros [= <-]|].
  destruct (heap_Pop pairLess fh) as [h [p|]]; [|by intros [= <-]].
  destruct (candidate d seen p) as [y|err|w] eqn:E; [|by intros [= <-]..].
  intros ([cursor ok] & _ & Hrun)%bind_Some_iff. destruct y as [e|]; [|by eapply IH].
  apply fmap_Some in Hrun as (run' & Hrun' & ->). cbn [yielding fst]. constructor; [by eapply candidate_readable|].
  by eapply (IH _ _ _ _ Hrun').
Qed.

Lemma Query_readable n o filters run : PebbleQuery.Query n o d filters = Some run -> Forall readable_event (fst run).
Proof.
  unfold PebbleQuery.Query. destruct (length filters =? 0)%nat; [by intros [= <-]|].
  intros ([fh|e|w] & Hfh & Hrun)%bind_Some_iff; [by eapply query_loop_readable|by injection Hrun as <-..].
Qed.

End Yield.
