(* ===== verification/PebbleReliable.v ===== *)
(** * A Pebble storage on a database that does not fail (pebble_storage.go)

    On a database whose reads, commits and iterators succeed, a store of a
    well-formed event and a query succeed: the storage adds no error of its own.
    On any database that holds the rows of some events neither panics. *)

From S2P Require Import Prelude GoTime Text Bytes Event Filter Storage PebbleKeys Heap PebbleCursor PebbleJoin.
From S2P Require Import PebbleStore PebbleRows PebbleInv PebbleQuery PebbleFaults.

(** No operation of the database fails. *)
Record reliable (D I : Type) `{PebbleDB D I} : Prop := {
  rl_Get : forall (d : D) k err, db_Get d k <> GetError err;
  rl_Commit : forall (d : D) ops, (db_Commit d ops).2 = None;
  rl_NewIter : forall (d : D) lo hi, exists it, db_NewIter d lo hi = inl it
}.
Arguments reliable D I {_ _}.

Section Reliable.

Context {D I : Type} `{PebbleLaws D I, EventCodecLaws} (k : Fault) (Hrel : k = IsError -> reliable D I).
Implicit Types d : D.

Lemma free_get_value d what key : free k (get_value d what key).
Proof.
  unfold get_value. apply free_wrap. destruct (db_Get d key) as [v| |err] eqn:E; [apply free_ok..|].
  destruct k; [|done]. by destruct (rl_Get _ _ (Hrel eq_refl) d key err).
Qed.

(** A stored event can be read, whatever id it is asked for. *)
Lemma free_get_event d L what id : rows_ok (db_view d) L -> free k (get_event d what id).
Proof.
  intros Hr. unfold get_event. destruct (get_value d what (makeEventKey id)) as [v|err|w] eqn:E;
    [|by pose proof (free_get_value d what (makeEventKey id)) as Hf; rewrite E in Hf..].
  apply get_value_Ok in E. cbn [mbind Res_bind]. destruct v as [v|]; [|apply free_ok].
  destruct (ro_sound _ _ Hr _ _ E) as [(x & Hx & Hrow)|Ho].
  - destruct (ro_events _ _ Hr x Hx) as [Hok Hst]. destruct (rows_first _ _ _ Hok Hrow) as (q & t & [= <- <-] & Hcase).
    destruct Hcase as [[_ ->]|[[?|?] _]]; [|done..]. destruct (codec_roundtrip x Hst) as (b & Hm & Hu).
    unfold json_of. rewrite Hm, Hu. apply free_ok.
  - unfold other_row, makeEventKey, prefixEvent, prefixAddr, prefixDeletedID, prefixDeletedAddr in Ho. naive_solver lia.
Qed.

Lemma reliable_reads d L : rows_ok (db_view d) L -> reads_well k d.
Proof. intros Hr. split; [intros Hk; apply (Hrel Hk)|intros id; by eapply free_get_event]. Qed.

(** [free_steps]: the binds of a computation one after the other. *)
Ltac free_steps :=
  repeat (first [apply free_get_value | by eapply free_get_event | by auto | apply free_bind; intros | apply free_wrap
                | apply free_ok | progress case_match]).

Lemma free_delete d L id : rows_ok (db_view d) L -> free k (deleteEventFromBatch d id).
Proof. intros Hr. unfold deleteEventFromBatch, getEventByID. free_steps. Qed.

Lemma free_hex s : String.length s = 64%nat -> free k (hexToBytes32 s).
Proof.
  intros Hl. destruct (hexToBytes_enough 32 (chars s)) as [b Hb]; [by rewrite chars_length, Hl|].
  unfold hexToBytes32. rewrite Hb. apply free_ok.
Qed.

Lemma free_kind5_ops d L ev value ts : rows_ok (db_view d) L -> free k (kind5_ops d ev value ts).
Proof.
  intros Hr. pose proof (fun id => free_delete d L id Hr) as Hdel.
  induction ts as [|t ts IH]; cbn [kind5_ops]; [apply free_ok|]. apply free_bind; [|intros; apply free_bind; [done|intros; apply free_ok]].
  unfold kind5_tag_ops, kind5_e, kind5_a, getEventByID. destruct t as [|name [|arg rest]]; [apply free_ok..|].
  destruct (String.eqb name "e").
  - destruct (Nat.eqb_spec (String.length arg) 64); [cbn [negb]|apply free_ok].
    apply free_bind; [by apply free_hex|intros]. free_steps.
  - destruct (String.eqb name "a"); free_steps.
Qed.

Lemma free_commit d what ops : free k (commit d what ops).2.
Proof.
  unfold commit. pose proof (fun Hk => rl_Commit _ _ (Hrel Hk) d ops) as Hc.
  destruct (db_Commit d ops) as [d' [err|]]; [|apply free_ok]. destruct k; [by specialize (Hc eq_refl)|done].
Qed.

Lemma free_processKind5 d L ev : rows_ok (db_view d) L -> event_ok ev -> free k (processKind5 d ev).2.
Proof.
  intros Hr He. unfold processKind5. destruct (id_bytes_ok _ (eo_Pubkey ev He)) as [-> _]. cbn [mbind Res_bind].
  pose proof (free_kind5_ops d L ev (deletion_value (id_bytes (ev_Pubkey ev)) ev) (tags ev) Hr) as Hf.
  destruct (kind5_ops _ _ _ _) as [ops|err|w]; [apply free_commit|done..].
Qed.

Lemma free_store_write d L e b : rows_ok (db_view d) L -> stored_ok e -> free k (store_write d e b).2.
Proof.
  intros Hr [He Hst]. assert (Hb : free k (store_batch d e b)).
  { destruct (codec_roundtrip e Hst) as (json & Hm & _). pose proof (fun id => free_delete d L id Hr) as Hdel.
    unfold store_batch, find_replaced, getEventByID. rewrite Hm. cbn [wrap_err]. free_steps. }
  unfold store_write. destruct (store_batch d e b) as [[ops|]|err|w]; [|apply free_ok|done..].
  pose proof (free_commit d "commit batch" ops) as Hc. by destruct (commit d "commit batch" ops) as [d' [[]|err|w]].
Qed.

Lemma free_store_refused d e b : free k (store_refused d e b).
Proof. unfold store_refused, getDeletionRecord. free_steps. Qed.

Lemma free_Store d L e : rows_ok (db_view d) L -> store_ok D I e -> free k (PebbleStore.Store d (Some e)).2.
Proof.
  intros Hr [He Hclosed]. cbn [PebbleStore.Store]. unfold store_checks. destruct (id_bytes_ok _ (eo_ID e (proj1 He))) as [-> _]. cbn [mbind Res_bind].
  pose proof (free_store_refused d e (id_bytes (ev_ID e))) as Hf.
  destruct (store_refused d e (id_bytes (ev_ID e))) as [[|]|err|w]; [apply free_ok| |done..]. cbn [mbind Res_bind mret Res_ret].
  destruct (Z.eqb_spec (ev_Kind e) 5) as [H5|]; [|by eapply free_store_write].
  pose proof (free_processKind5 d L e Hr (proj1 He)) as Hk5. destruct (processKind5 d e) as [d1 r1] eqn:E.
  destruct (processKind5_rows d L e d1 r1 Hr (Hclosed H5) E) as [[-> Hr1]|[Hne _]]; [by eapply free_store_write|].
  by destruct r1 as [[]| |].
Qed.

End Reliable.

(** Neither error nor panic. *)
Lemma free_both {A} (r : Res A) : free IsError r -> free IsPanic r -> exists a, r = Ok a.
Proof. destruct r as [a| |]; [by exists a|done..]. Qed.

Section Total.

Context {D I : Type} `{PebbleLaws D I, EventCodecLaws} (Hrel : reliable D I).
Implicit Types d : D.

Lemma Store_reliable d L e : rows_ok (db_view d) L -> store_ok D I e -> exists b, (PebbleStore.Store d (Some e)).2 = Ok b.
Proof. intros Hr He. apply free_both; by eapply free_Store. Qed.

Lemma Query_reliable d L n o filters evs r : rows_ok (db_view d) L ->
  PebbleQuery.Query n o d filters = Some (evs, r) -> r = Ok ().
Proof.
  intros Hr Hq. assert (Hf : forall k, free k r).
  { intros k. exact (free_Query k d (reliable_reads k (fun _ => Hrel) d L Hr) n o filters (evs, r) Hq). }
  by destruct (free_both r (Hf IsError) (Hf IsPanic)) as [[] ->].
Qed.

End Total.
