(* ===== verification/PebbleIndex.v ===== *)
(** * The cursors of a filter (pebble_storage.go)

    On a database that holds the rows of some events, an index cursor stands for
    the events that have the field in the times of the filter, and the cursor of a
    filter for candidates among which are all events the filter matches. *)

From S2P Require Import Prelude GoTime Text Bytes Event Filter Storage PebbleKeys Heap PebbleCursor PebbleJoin.
From S2P Require Import PebbleStore PebbleRows PebbleInv PebbleQuery.

(** ** Ranges of keys *)

Definition in_range (lo hi k : bytes) : Prop := bytesLess k lo = false /\ bytesLess k hi = true.

(** The times [lower_bound] and [upper_bound] leave, on inverted times. *)
Definition in_window (f : ReqFilter) (ts : Z) : Prop :=
  (forall u, f_Until f = Some u -> invertTimestamp u <= ts) /\
  (forall s, f_Since f = Some s -> ts < invertTimestamp s + 1).

(** The times of a filter the storage answers: 64-bit integers, and not the least
    one, whose bound wraps around. *)
Record times_ok (f : ReqFilter) : Prop := {
  to_since : forall s, f_Since f = Some s -> int64 s /\ s <> MinInt64;
  to_until : forall u, f_Until f = Some u -> int64 u
}.

Lemma invert_succ s : int64 s -> s <> MinInt64 ->
  wrap_uint64 (invertTimestamp s + 1) = invertTimestamp s + 1.
Proof. intros Hs Hne. rewrite invertTimestamp_eq by done. int_lia. Qed.

(** A key against a bound of time below the same prefix. *)
Lemma bytesLess_time P ts id t : uint64 ts -> uint64 t ->
  bytesLess (P ++ be64 ts ++ id) (P ++ be64 t) = (ts <? t).
Proof.
  intros Hts Ht. rewrite bytesLess_app, bytesLess_prefix by done. by apply be64_less.
Qed.

Lemma bytesLess_self P r : bytesLess (P ++ r) P = false.
Proof. induction P as [|x P IH]; [by destruct r|]. cbn. by rewrite Z.ltb_irrefl. Qed.

(** The keys below a prefix, in its bounds. *)
Lemma key_in_range f P upper ts id : times_ok f -> uint64 ts -> bytesLess (P ++ be64 ts ++ id) upper = true ->
  in_range (lower_bound P f) (upper_bound P upper f) (P ++ be64 ts ++ id) <-> in_window f ts.
Proof.
  intros [Hs Hu] Hts Hup. unfold in_range, lower_bound, upper_bound, in_window.
  assert (Hlo : bytesLess (P ++ be64 ts ++ id) match f_Until f with Some u => P ++ be64 (invertTimestamp u) | None => P end = false
    <-> forall u, f_Until f = Some u -> invertTimestamp u <= ts).
  { destruct (f_Until f) as [u|]; [|rewrite bytesLess_self; naive_solver].
    rewrite bytesLess_time, Z.ltb_ge; [naive_solver|done|apply invertTimestamp_range]. }
  assert (Hhi : bytesLess (P ++ be64 ts ++ id)
      match f_Since f with Some s => P ++ be64 (wrap_uint64 (invertTimestamp s + 1)) | None => upper end = true
    <-> forall s, f_Since f = Some s -> ts < invertTimestamp s + 1).
  { destruct (f_Since f) as [s|]; [|naive_solver]. destruct (Hs s eq_refl) as [Hi Hne].
    rewrite bytesLess_time, Z.ltb_lt; [|done|apply wrap_uint64_range]. rewrite invert_succ by done. naive_solver. }
  by rewrite Hlo, Hhi.
Qed.

(** Keys in the bounds of a prefix are not before it, and before the bound above it
    or another key below it. *)
Lemma in_range_lower f P upper k : in_range (lower_bound P f) (upper_bound P upper f) k ->
  exists x, bytesLess k (P ++ x) = false.
Proof.
  intros [Hlo _]. unfold lower_bound in Hlo. destruct (f_Until f); [eauto|]. exists []. by rewrite app_nil_r.
Qed.

Lemma in_range_upper f P upper k : in_range (lower_bound P f) (upper_bound P upper f) k ->
  bytesLess k upper = true \/ exists x, bytesLess k (P ++ x) = true.
Proof. intros [_ Hhi]. unfold upper_bound in Hhi. destruct (f_Since f); eauto. Qed.

Lemma bytesLess_head x k y l : bytesLess (x :: k) (y :: l) = false -> y <= x.
Proof. cbn. destruct (Z.ltb_spec x y); [done|]. lia. Qed.

Lemma bytesLess_head' x k y l : bytesLess (x :: k) (y :: l) = true -> x <= y.
Proof. cbn. destruct (Z.ltb_spec x y), (Z.ltb_spec y x); try done; lia. Qed.

Lemma bytesLess_same x a b : bytesLess (x :: a) (x :: b) = bytesLess a b.
Proof. cbn. by rewrite Z.ltb_irrefl. Qed.

(** The hash of a field key in the bounds of a hash. *)
Lemma field_in_range f h h' r : uint64 h -> uint64 h' ->
  in_range (lower_bound (prefixField :: be64 h) f)
    (upper_bound (prefixField :: be64 h) (incrementBytes (prefixField :: be64 h)) f) (prefixField :: be64 h' ++ r) ->
  h' = h.
Proof.
  intros Hh Hh' Hr. destruct (in_range_lower _ _ _ _ Hr) as [x Hlo]. destruct (in_range_upper _ _ _ _ Hr) as [Hup|[y Hup]].
  - rewrite incrementBytes_field in Hup by (unfold prefixField; lia || done).
    assert (Hle : h' <= h).
    { destruct (Z.eqb_spec h (two64 - 1)); [unfold uint64 in *; lia|]. rewrite bytesLess_same, bytesLess_prefix, be64_less in Hup by (done || (unfold uint64 in *; lia)). lia. }
    rewrite <-app_comm_cons, bytesLess_same, bytesLess_parts in Hlo by done. case_decide as E; [by apply be64_inj|].
    rewrite be64_less in Hlo by done. unfold uint64 in *. lia.
  - rewrite <-app_comm_cons, bytesLess_same, bytesLess_parts in Hlo, Hup by done. case_decide as E; [by apply be64_inj|].
    rewrite be64_less in Hlo, Hup by done. unfold uint64 in *. lia.
Qed.

(** ** The hashes *)

Lemma fnvHash_range s : uint64 (fnvHash s).
Proof.
  unfold fnvHash. assert (H : uint64 fnv_offset) by (unfold fnv_offset; int_lia). revert H.
  generalize fnv_offset as h. induction (chars s) as [|c l IH]; intros h Hh; [done|]. cbn. apply IH, wrap_uint64_range.
Qed.

Lemma field_hashes_range e h : h ∈ field_hashes e -> uint64 h.
Proof.
  unfold field_hashes. rewrite !elem_of_cons, list_elem_of_omap.
  intros [->|[->|(t & _ & Ht)]]; [apply fnvHash_range..|].
  destruct t as [|n [|v t]]; [done..|]. cbn in Ht. destruct (chars n) as [|c [|]]; simplify_eq. apply fnvHash_range.
Qed.

(** ** The order of entries is the order of query results *)

Lemma event_time_eq a b : event_ok a -> event_ok b ->
  Unix (ev_CreatedAt a) = Unix (ev_CreatedAt b) <-> ev_CreatedAt a = ev_CreatedAt b.
Proof. intros Ha Hb. split; [|by intros ->]. intros Heq. rewrite (eo_time a Ha), (eo_time b Hb). by rewrite Heq. Qed.

Lemma event_After a b : event_ok a -> event_ok b ->
  After (ev_CreatedAt a) (ev_CreatedAt b) = (Unix (ev_CreatedAt b) <? Unix (ev_CreatedAt a)).
Proof.
  intros Ha Hb. rewrite (eo_time a Ha) at 1. rewrite (eo_time b Hb) at 1. apply After_time_Unix; [apply Ha|apply Hb].
Qed.

Lemma event_entry_less a b : event_ok a -> event_ok b ->
  entryLess (event_entry a) (event_entry b) = true <-> ev_lt a b.
Proof.
  intros Ha Hb. unfold entryLess, event_entry, ev_lt. cbn [fst snd].
  assert (Ha' : int64 (Unix (ev_CreatedAt a))) by apply wrap_int64_range.
  assert (Hb' : int64 (Unix (ev_CreatedAt b))) by apply wrap_int64_range.
  rewrite !invertTimestamp_eq, id_bytes_less, <-event_time_eq, event_After by (done || apply Ha || apply Hb).
  unfold str_lt. rewrite Z.ltb_lt. destruct (Z.eqb_spec (MaxInt64 - Unix (ev_CreatedAt a)) (MaxInt64 - Unix (ev_CreatedAt b)));
    cbn [negb]; rewrite ?Z.ltb_lt; split; intros Hc; try lia.
  - right. split; [lia|done].
  - destruct Hc as [Hc|[_ Hc]]; [lia|done].
Qed.

Lemma event_entry_le a b : event_ok a -> event_ok b -> entryLe (event_entry a) (event_entry b) ->
  ev_ID a <> ev_ID b -> ev_lt a b.
Proof.
  intros Ha Hb Hle Hne. apply entryLe_cases in Hle as [Heq|Hlt]; [|by apply event_entry_less].
  exfalso. apply Hne. apply (f_equal snd) in Heq. cbn [snd event_entry] in Heq. apply id_bytes_inj in Heq; [done|apply Ha|apply Hb].
Qed.

Section Index.

Context {D I : Type} `{PebbleLaws D I, EventCodecLaws}.
Implicit Types (d : D) (L : list Event).

Lemma event_entry_ok e : event_ok e -> entry_ok (event_entry e).
Proof. intros He. split; [apply invertTimestamp_range|by apply idb_length]. Qed.

Lemma event_key_of P e : event_ok e ->
  key_of P (event_entry e) = P ++ be64 (invertTimestamp (Unix (ev_CreatedAt e))) ++ idb e.
Proof. intros He. unfold key_of, event_entry. cbn [fst snd]. rewrite fit_32; [done|by apply idb_length]. Qed.

Lemma fit_length n b : length (fit n b) = n.
Proof. unfold fit. rewrite length_app, length_take, length_replicate. lia. Qed.

(** Keys of other rows within bounds below one prefix byte. *)
Lemma view_first m L k v : rows_ok m L -> m !! k = Some v ->
  (exists e, e ∈ L /\ (k, v) ∈ rows e) \/ exists x r, k = x :: r /\ (x = 3 \/ x = 4 \/ x = 5).
Proof.
  intros Hr Hv. destruct (ro_sound _ _ Hr _ _ Hv) as [?|[(h & -> & _)|(p & h & Hp & ->)]]; [by left|right..].
  - eexists _, _. split; [done|]. auto.
  - eexists _, _. split; [done|]. unfold prefixDeletedID, prefixDeletedAddr in Hp. naive_solver.
Qed.

(** The keys of an index in the bounds of a filter: field index and time index. *)
Lemma field_keys d L f h k : rows_ok (db_view d) L -> times_ok f -> uint64 h ->
  is_Some (db_view d !! k) /\
  in_range (lower_bound (prefixField :: be64 h) f)
    (upper_bound (prefixField :: be64 h) (incrementBytes (prefixField :: be64 h)) f) k <->
  exists e, e ∈ L /\ (h ∈ field_hashes e /\ in_window f (fst (event_entry e))) /\
    k = key_of (prefixField :: be64 h) (event_entry e).
Proof.
  intros Hr Hf Hh. assert (Hup : forall r, bytesLess ((prefixField :: be64 h) ++ r) (incrementBytes (prefixField :: be64 h)) = true).
  { intros r. rewrite incrementBytes_field by (unfold prefixField; lia || done). destruct (Z.eqb_spec h (two64 - 1)) as [->|Hne].
    - done.
    - rewrite <-app_comm_cons, bytesLess_same, bytesLess_prefix, be64_less by (done || (unfold uint64 in *; lia)). lia. }
  split.
  - intros [[v Hv] Hk]. destruct (view_first _ _ _ _ Hr Hv) as [(e & Hin & Hrow)|(x & r & -> & Hx)].
    + pose proof (proj1 (ro_events _ _ Hr e Hin)) as He. pose proof (idb_length e He) as Hl.
      assert (Hcase : exists h', h' ∈ field_hashes e /\ k = (prefixField :: be64 h') ++ be64 (fst (event_entry e)) ++ idb e).
      { apply elem_of_rows in Hrow; [|done]. destruct Hrow as [[-> _]|[(p & -> & [->|(h' & Hh' & ->)])%elem_of_index_keys _]];
          [exfalso..|eauto|done]; destruct (in_range_lower _ _ _ _ Hk) as [y Hy]; apply bytesLess_head in Hy;
          unfold prefixEvent, prefixCreatedAt, prefixField in Hy; lia. }
      destruct Hcase as (h' & Hin' & ->). assert (h' = h) as ->.
      { rewrite <-app_comm_cons in Hk. by apply field_in_range in Hk; [|done|eapply field_hashes_range]. }
      exists e. split; [done|]. rewrite event_key_of by done. split; [|done]. split; [done|].
      eapply key_in_range; [done|apply invertTimestamp_range|apply Hup|exact Hk].
    + exfalso. destruct (in_range_lower _ _ _ _ Hk) as [y Hy]. apply bytesLess_head in Hy. unfold prefixField in Hy. lia.
  - intros (e & Hin & [Hh' Hw] & ->). pose proof (proj1 (ro_events _ _ Hr e Hin)) as He. rewrite event_key_of by done. split.
    + exists []. apply (ro_complete _ _ Hr e); [done|]. apply elem_of_rows; [done|]. right. split; [|done].
      apply elem_of_index_keys; [by apply idb_length|]. eauto 6.
    + apply key_in_range; [done|apply invertTimestamp_range|apply Hup|done].
Qed.

Lemma created_keys d L f k : rows_ok (db_view d) L -> times_ok f ->
  is_Some (db_view d !! k) /\
  in_range (lower_bound [prefixCreatedAt] f) (upper_bound [prefixCreatedAt] [prefixCreatedAt + 1] f) k <->
  exists e, e ∈ L /\ in_window f (fst (event_entry e)) /\ k = key_of [prefixCreatedAt] (event_entry e).
Proof.
  intros Hr Hf. split.
  - intros [[v Hv] Hk]. destruct (in_range_lower _ _ _ _ Hk) as [y Hlo].
    assert (Hhi : forall x r, k = x :: r -> x <= 2).
    { intros x r ->. destruct (in_range_upper _ _ _ _ Hk) as [Hup|[z Hup]]; [|by apply bytesLess_head' in Hup].
      pose proof (bytesLess_head' _ _ _ _ Hup) as Hle. unfold prefixCreatedAt in *.
      destruct (decide (x = 2 + 1)) as [->|]; [|lia]. rewrite bytesLess_same in Hup. by destruct r. }
    destruct (view_first _ _ _ _ Hr Hv) as [(e & Hin & Hrow)|(x & r & -> & Hx)]; [|specialize (Hhi x r eq_refl); lia].
    pose proof (proj1 (ro_events _ _ Hr e Hin)) as He. pose proof (idb_length e He) as Hl. exists e. split; [done|].
    assert (Hkey : k = [prefixCreatedAt] ++ be64 (fst (event_entry e)) ++ idb e).
    { apply elem_of_rows in Hrow; [|done]. destruct Hrow as [[-> _]|[(p & -> & [->|(h' & Hh' & ->)])%elem_of_index_keys _]];
        [|done| |done].
      - apply bytesLess_head in Hlo. unfold prefixEvent, prefixCreatedAt in Hlo. lia.
      - rewrite <-app_comm_cons in Hhi. specialize (Hhi _ _ eq_refl). unfold prefixField in Hhi. lia. }
    rewrite Hkey in *. rewrite event_key_of by done. split; [|done].
    eapply key_in_range; [done|apply invertTimestamp_range| |exact Hk]. done.
  - intros (e & Hin & Hw & ->). pose proof (proj1 (ro_events _ _ Hr e Hin)) as He. rewrite event_key_of by done. split.
    + exists []. apply (ro_complete _ _ Hr e); [done|]. apply elem_of_rows; [done|]. right. split; [|done].
      apply elem_of_index_keys; [by apply idb_length|]. eauto 6.
    + apply key_in_range; [done|apply invertTimestamp_range|done|done].
Qed.

(** A cursor that stands for the entries of the events that [Q] holds of. *)
Definition stands_for {C} `{CursorLaws C} (L : list Event) (c : C) (Q : Event -> Prop) : Prop :=
  wf c /\ forall p, p ∈ rem c <-> exists e, e ∈ L /\ Q e /\ p = event_entry e.

Lemma keys_entries L P (keys : list bytes) (Q : Event -> Prop) : (forall e, e ∈ L -> event_ok e) ->
  (forall k, k ∈ keys <-> exists e, e ∈ L /\ Q e /\ k = key_of P (event_entry e)) ->
  exists es, keys = key_of P <$> es /\ Forall entry_ok es /\
    forall p, p ∈ es <-> exists e, e ∈ L /\ Q e /\ p = event_entry e.
Proof.
  intros Hok Hk.
  assert (Hes : exists es, keys = key_of P <$> es /\ Forall (fun p => exists e, e ∈ L /\ Q e /\ p = event_entry e) es).
  { assert (Hall : forall k, k ∈ keys -> exists e, e ∈ L /\ Q e /\ k = key_of P (event_entry e)) by (intros; by apply Hk).
    clear Hk. induction keys as [|k keys IH]; [by exists []|].
    destruct IH as (es & -> & Hes); [intros; apply Hall; by right|]. destruct (Hall k) as (e & He & HQ & ->); [by left|].
    exists (event_entry e :: es). split; [done|]. constructor; eauto. }
  destruct Hes as (es & -> & Hes). exists es. split; [done|].
  assert (Hsound : forall p, p ∈ es -> exists e, e ∈ L /\ Q e /\ p = event_entry e) by by apply Forall_forall.
  split.
  - apply Forall_forall. intros p (e & He & _ & ->)%Hsound. by apply event_entry_ok, Hok.
  - intros p. split; [by apply Hsound|]. intros (e & He & HQ & ->).
    assert (Hin : key_of P (event_entry e) ∈ key_of P <$> es) by (apply Hk; eauto).
    apply list_elem_of_fmap in Hin as (q & Heq & Hq). destruct (Hsound q Hq) as (e' & He' & _ & ->).
    apply key_of_inj in Heq as ->; [done|by apply event_entry_ok, Hok..].
Qed.

Lemma new_index_spec d L what P lo hi Q it : rows_ok (db_view d) L -> new_iter d what lo hi = Ok it ->
  (forall k, is_Some (db_view d !! k) /\ in_range lo hi k <-> exists e, e ∈ L /\ Q e /\ k = key_of P (event_entry e)) ->
  let c := newIndexCursor it P (length P) (length P + 8) in
  stands_for L c Q /\ need c = 0%nat /\ forall p, ahead c p.
Proof.
  intros Hr Hit Hk c. unfold new_iter in Hit. destruct (db_NewIter d lo hi) as [it'|] eqn:E; [|done]. injection Hit as ->.
  pose proof (pl_NewIter d lo hi it E) as Hkeys.
  destruct (keys_entries L P (it_keys it) Q) as (es & Hes & Hok & Hmem).
  - intros e He. by apply Hr.
  - intros k. rewrite Hkeys, <-Hk. unfold in_range. done.
  - destruct (newIndexCursor_spec it P es Hes Hok) as (Hwf & Hrem & Ha). split; [|done].
    split; [done|]. intros p. fold c in Hrem. rewrite Hrem. apply Hmem.
Qed.

(** The events behind the cursor of a hash. *)
Definition hash_events (f : ReqFilter) (h : Z) (e : Event) : Prop :=
  h ∈ field_hashes e /\ in_window f (fst (event_entry e)).

Lemma newFieldIndexCursor_spec d L f h c : rows_ok (db_view d) L -> times_ok f -> uint64 h ->
  newFieldIndexCursor d h f = Ok c ->
  stands_for L c (hash_events f h) /\ need c = 0%nat /\ forall p, ahead c p.
Proof.
  intros Hr Hf Hh Hc. unfold newFieldIndexCursor in Hc. apply bind_Ok in Hc as (it & Hit & Hc). injection Hc as <-.
  eapply new_index_spec; [exact Hr|exact Hit|]. intros k. by apply field_keys.
Qed.

Lemma newCreatedAtCursor_spec d L f c : rows_ok (db_view d) L -> times_ok f ->
  newCreatedAtCursor d f = Ok c ->
  stands_for L c (fun e => in_window f (fst (event_entry e))) /\ need c = 0%nat /\ forall p, ahead c p.
Proof.
  intros Hr Hf Hc. unfold newCreatedAtCursor in Hc. apply bind_Ok in Hc as (it & Hit & Hc). injection Hc as <-.
  eapply new_index_spec; [exact Hr|exact Hit|]. intros k. by apply created_keys.
Qed.

(** ** Conditions *)

Definition hashes_events (f : ReqFilter) (hs : list Z) (e : Event) : Prop := exists h, h ∈ hs /\ hash_events f h e.

Definition fresh_cursor {C} `{SeekLaws C} (c : C) : Prop := need c = 0%nat /\ forall p, ahead c p.

Lemma index_cursors_spec d L f hs cs : rows_ok (db_view d) L -> times_ok f -> (forall h, h ∈ hs -> uint64 h) ->
  index_cursors d f hs = Ok cs ->
  Forall2 (fun h c => stands_for L c (hash_events f h) /\ fresh_cursor c) hs cs.
Proof.
  intros Hr Hf. revert cs. induction hs as [|h hs IH]; intros cs Hh Hcs; [injection Hcs as <-; constructor|].
  cbn [index_cursors] in Hcs. apply bind_Ok in Hcs as (c & Hc & Hcs). apply bind_Ok in Hcs as (cs' & Hcs' & Hcs).
  injection Hcs as <-. constructor; [|apply IH; [intros; apply Hh; by right|done]].
  destruct (newFieldIndexCursor_spec d L f h c Hr Hf (Hh h (list_elem_of_here _ _)) Hc) as (H1' & H2' & H3'). done.
Qed.

Lemma stands_for_ext {C} `{CursorLaws C} L (c : C) (Q Q' : Event -> Prop) :
  (forall e, e ∈ L -> Q e <-> Q' e) -> stands_for L c Q -> stands_for L c Q'.
Proof.
  intros HQ [Hwf Hm]. split; [done|]. intros p. rewrite Hm. split; intros (e & He & Hq & ->); exists e;
    (split; [done|]); (split; [by apply HQ|done]).
Qed.

Lemma elem_of_union_rest {C} `{CursorLaws C} (cs : list C) p : p ∈ union_rest cs <-> exists c, c ∈ cs /\ p ∈ rem c.
Proof.
  unfold union_rest. rewrite entry_sort_Permutation, list_elem_of_In, in_concat. split.
  - intros (l & (c & -> & Hc)%list_elem_of_In%list_elem_of_fmap & Hp). exists c. split; [done|by apply list_elem_of_In].
  - intros (c & Hc & Hp). exists (rem c). rewrite <-!list_elem_of_In. split; [|done]. apply list_elem_of_fmap. eauto.
Qed.

Lemma sum_need_zero {C} `{CursorLaws C} (cs : list C) : (forall c, c ∈ cs -> need c = 0%nat) -> sum_list_with need cs = 0%nat.
Proof.
  induction cs as [|c cs IH]; intros Hz; [done|]. cbn [sum_list_with]. rewrite Hz by by left.
  rewrite IH; [done|]. intros c' Hc'. apply Hz. by right.
Qed.

Lemma wrapCursors_spec L f hs cs : cs <> [] ->
  Forall2 (fun h c => stands_for L c (hash_events f h) /\ fresh_cursor c) hs cs ->
  stands_for L (wrapCursors cs) (hashes_events f hs) /\ fresh_cursor (wrapCursors cs).
Proof.
  intros Hne Hcs.
  assert (Hex : forall c, c ∈ cs -> exists h, h ∈ hs /\ stands_for L c (hash_events f h) /\ fresh_cursor c).
  { intros c (i & Hi)%list_elem_of_lookup. destruct (Forall2_lookup_r _ _ _ _ _ Hcs Hi) as (h & Hh & Hc).
    exists h. split; [by eapply list_elem_of_lookup_2|done]. }
  assert (Hex' : forall h, h ∈ hs -> exists c, c ∈ cs /\ stands_for L c (hash_events f h)).
  { intros h (i & Hi)%list_elem_of_lookup. destruct (Forall2_lookup_l _ _ _ _ _ Hcs Hi) as (c & Hc & [Hs _]).
    exists c. split; [by eapply list_elem_of_lookup_2|done]. }
  destruct cs as [|c [|c' cs]]; [done| |].
  - apply Forall2_cons_inv_r in Hcs as (h & hs' & [Hs Hf] & ->%Forall2_nil_inv_r & ->). split; [|done].
    destruct Hs as [Hwf Hm]. split; [done|]. intros p. etransitivity; [apply Hm|].
    split; intros (e & He & Hq & ->); exists e; (split; [done|]); (split; [|done]).
    + exists h. split; [by left|done].
    + by destruct Hq as (h' & ->%list_elem_of_singleton & ?).
  - set (all := c :: c' :: cs) in *. change (wrapCursors all) with (inr (newUnionCursor all) : indexCursor I + unionCursor (indexCursor I)).
    destruct (newUnionCursor_spec all) as (Hwf & Hrem & Hneed & Ha).
    + apply Forall_forall. intros x Hx. by destruct (Hex x Hx) as (h & _ & [Hw _] & _).
    + apply Forall_forall. intros x Hx. by destruct (Hex x Hx) as (h & _ & _ & [_ Ha]).
    + split; [split; [done|]|split; [|done]].
      * intros p. change (p ∈ rem (newUnionCursor all) <-> exists e, e ∈ L /\ hashes_events f hs e /\ p = event_entry e).
        rewrite Hrem, elem_of_union_rest. split.
        -- intros (x & Hx & Hp). destruct (Hex x Hx) as (h & Hh & [_ Hm] & _).
           destruct (proj1 (Hm p) Hp) as (e & He & Hq & Heq). exists e. split; [done|]. split; [by exists h|done].
        -- intros (e & He & (h & Hh & Hq) & ->). destruct (Hex' h Hh) as (x & Hx & [_ Hm]).
           exists x. split; [done|]. apply Hm. eauto.
      * change (need (newUnionCursor all) = 0%nat). rewrite Hneed. apply sum_need_zero. intros x Hx.
        apply list_elem_of_In, filter_In in Hx as [Hx _]. apply list_elem_of_In in Hx.
        by destruct (Hex x Hx) as (h & _ & _ & [Hz _]).
Qed.

Definition nonempty_hashes (gs : list (list Z)) : list (list Z) := List.filter nonempty gs.

Lemma conditions_spec d L f gs ps : rows_ok (db_view d) L -> times_ok f ->
  (forall hs h, hs ∈ gs -> h ∈ hs -> uint64 h) -> conditions d f gs = Ok ps ->
  Forall2 (fun hs p => stands_for L p (hashes_events f hs) /\ fresh_cursor p) (nonempty_hashes gs) ps.
Proof.
  intros Hr Hf. revert ps. induction gs as [|hs gs IH]; intros ps Hh Hps; [injection Hps as <-; constructor|].
  cbn [conditions] in Hps. apply bind_Ok in Hps as (p & Hp & Hps). apply bind_Ok in Hps as (ps' & Hps' & Hps).
  injection Hps as <-. specialize (IH ps' ltac:(intros; eapply Hh; [by right|done]) Hps').
  unfold condition in Hp. apply bind_Ok in Hp as (cs & Hcs & Hp). injection Hp as <-.
  pose proof (index_cursors_spec d L f hs cs Hr Hf (fun h => Hh hs h (list_elem_of_here _ _)) Hcs) as Hall.
  destruct cs as [|c cs]; destruct hs as [|h hs]; try by inversion Hall.
  cbn [nonempty_hashes List.filter nonempty]. change (0 <? length (c :: cs))%nat with true. cbn iota. cbn [app].
  constructor; [|done]. by apply wrapCursors_spec.
Qed.

(** ** The hashes of a matching event *)

Lemma fieldHashTag_range c v : uint64 (fieldHashTag c v).
Proof. apply fnvHash_range. Qed.

Lemma condition_hashes_range o f hs h : hs ∈ condition_hashes o f -> h ∈ hs -> uint64 h.
Proof.
  unfold condition_hashes, author_hashes, tag_hashes. rewrite !elem_of_cons, list_elem_of_fmap.
  intros [->|[->|(k & -> & _)]].
  - intros (a & -> & _)%list_elem_of_fmap. apply fnvHash_range.
  - intros (a & -> & _)%list_elem_of_fmap. apply fnvHash_range.
  - destruct (chars k) as [|c [|]]; try by intros ?%not_elem_of_nil. destruct (f_Tags f !! k); [|by intros ?%not_elem_of_nil].
    intros (a & -> & _)%list_elem_of_fmap. apply fnvHash_range.
Qed.

Lemma hex64_length s : isValidLowercaseHex s 64 = true -> String.length s = 64%nat.
Proof. unfold isValidLowercaseHex. by destruct (Nat.eqb_spec (String.length s) 64). Qed.

Lemma matching_hashes o f e hs : event_ok e -> matches f e -> hs ∈ condition_hashes o f -> hs <> [] ->
  exists h, h ∈ hs /\ h ∈ field_hashes e.
Proof.
  intros He Hm Hin Hne. unfold condition_hashes in Hin. rewrite !elem_of_cons, list_elem_of_fmap in Hin.
  destruct Hin as [->|[->|(k & -> & Hk)]].
  - destruct (matches_authors _ _ Hm) as [Hnil|Ha].
    { unfold author_hashes in Hne. by rewrite Hnil in Hne. }
    exists (fieldHashAuthor (ev_Pubkey e)). split; [|by left]. apply list_elem_of_fmap. eexists. split; [done|].
    apply list_elem_of_In, filter_In. split; [by apply list_elem_of_In|].
    apply Nat.eqb_eq, hex64_length, He.
  - destruct (matches_kinds _ _ Hm) as [Hnil|Ha]; [by rewrite Hnil in Hne|].
    exists (fieldHashKind (ev_Kind e)). split; [|right; by left]. apply list_elem_of_fmap. eauto.
  - unfold tag_hashes in *. destruct (chars k) as [|c [|]] eqn:Ec; try done.
    destruct (f_Tags f !! k) as [vs|] eqn:Ev; [|done].
    destruct (matches_tags _ _ Hm k vs Ev) as (v & Hv & rest & Ht); [by intros ->|].
    exists (fieldHashTag c v). split; [apply list_elem_of_fmap; eauto|]. right. right.
    apply list_elem_of_omap. eexists. split; [exact Ht|]. cbn. by rewrite Ec.
Qed.

Lemma matching_window f e : times_ok f -> matches f e -> in_window f (fst (event_entry e)).
Proof.
  intros [Hs Hu] Hm. assert (Hi : int64 (Unix (ev_CreatedAt e))) by apply wrap_int64_range.
  cbn [fst event_entry]. split.
  - intros u Hu'. pose proof (matches_until _ _ Hm u Hu'). rewrite !invertTimestamp_eq by eauto. lia.
  - intros s Hs'. pose proof (matches_since _ _ Hm s Hs'). destruct (Hs s Hs'). rewrite !invertTimestamp_eq by done. lia.
Qed.

(** ** The cursor of a filter *)

(** Candidates: entries of events, with all events the filter matches. *)
Definition candidates_of (L : list Event) (f : ReqFilter) (l : list entry) : Prop :=
  (forall p, p ∈ l -> exists e, e ∈ L /\ p = event_entry e) /\
  (forall e, e ∈ L -> matches f e -> event_entry e ∈ l).

Lemma ids_entries_spec d L ids es : rows_ok (db_view d) L -> ids_entries d ids = Ok es ->
  (forall p, p ∈ es -> exists e, e ∈ L /\ p = event_entry e) /\
  (forall e, e ∈ L -> ev_ID e ∈ ids -> event_entry e ∈ es).
Proof.
  intros Hr. revert es. induction ids as [|id ids IH]; intros es Hes; [injection Hes as <-; set_solver|].
  cbn [ids_entries] in Hes. destruct (Nat.eqb_spec (String.length id) 64) as [Hl|Hl]; cbn [negb] in Hes.
  - apply bind_Ok in Hes as (b & Hb & Hes). apply bind_Ok in Hes as (x & Hx%wrap_err_Ok & Hes).
    apply bind_Ok in Hes as (rest & Hrest & Hes). injection Hes as <-. destruct (IH rest Hrest) as [IH1 IH2].
    pose proof (get_event_Ok _ _ _ _ _ Hr (hexToBytes32_length _ _ Hb) Hx) as Ha.
    assert (Hid : forall e, e ∈ L -> ev_ID e = id -> idb e = b).
    { intros e He <-. destruct (id_bytes_ok _ (eo_ID e (proj1 (ro_events _ _ Hr e He)))) as (Hhex & _). unfold idb. congruence. }
    destruct x as [e0|].
    + destruct Ha as [He0 Hb0]. assert (Hent : (invertTimestamp (Unix (ev_CreatedAt e0)), b) = event_entry e0) by by rewrite <-Hb0.
      rewrite Hent. split.
      * intros p [->|Hp]%elem_of_cons; eauto.
      * intros e He [Heq|Hin]%elem_of_cons; [|right; auto]. apply elem_of_cons. left.
        by rewrite (event_at_same _ _ b e0 e Hr (conj He0 Hb0) He (Hid e He Heq)).
    + split; [done|]. intros e He [Heq|Hin]%elem_of_cons; [|auto]. by destruct (Ha e He (Hid e He Heq)).
  - destruct (IH es Hes) as [IH1 IH2]. split; [done|]. intros e He [Heq|Hin]%elem_of_cons; [|auto].
    destruct Hl. rewrite <-Heq. apply hex64_length. by apply (ro_events _ _ Hr e He).
Qed.

Lemma buildIDsCursor_spec d L f c : rows_ok (db_view d) L -> elems (f_IDs f) <> [] ->
  buildIDsCursor d (elems (f_IDs f)) = Ok c ->
  match c with
  | Some c => wf c /\ candidates_of L f (rem c) /\ need c = 0%nat
  | None => forall e, e ∈ L -> ~ matches f e
  end.
Proof.
  intros Hr Hne Hc. unfold buildIDsCursor in Hc. apply bind_Ok in Hc as (es & Hes & Hc). injection Hc as <-.
  destruct (ids_entries_spec d L _ es Hr Hes) as [H1' H2'].
  assert (Hm : forall e, e ∈ L -> matches f e -> event_entry e ∈ es).
  { intros e He Hm. apply H2'; [done|]. by destruct (matches_ids _ _ Hm). }
  destruct (Nat.eqb_spec (length es) 0) as [Hl|Hl].
  - apply length_zero_iff_nil in Hl as ->. intros e He Hme. by apply (Hm e He), not_elem_of_nil in Hme.
  - assert (Hok : Forall entry_ok es).
    { apply Forall_forall. intros p (e & He & ->)%H1'. by apply event_entry_ok, (ro_events _ _ Hr e He). }
    split; [|split; [|done]].
    + constructor; cbn; [by rewrite entry_sort_Permutation|apply entry_sort_sorted].
    + change (rem (newSliceCursor (entry_sort es))) with (entry_sort es). unfold candidates_of.
      setoid_rewrite entry_sort_Permutation. done.
Qed.

End Index.
