(* ===== verification/PebbleFuel.v ===== *)
(** * The work of a Pebble query

    How many entries the cursors of a query can hold: an index scan at most one for
    each row of the database, a union or an intersection at most those of its parts.
    The fuel of a query follows: rows times conditions. *)

From S2P Require Import Prelude GoTime Text Bytes Event Filter Storage PebbleKeys Heap PebbleCursor PebbleJoin.
From S2P Require Import PebbleStore PebbleQuery.

(** The values a filter asks the indexes for. *)
Definition filter_values (o : MapOrder) (f : ReqFilter) : nat := sum_list_with length (condition_hashes o f).

(** The fuel for one filter and for a query, on a database of [rows] rows. *)
Definition filter_fuel (rows : nat) (o : MapOrder) (f : ReqFilter) : nat :=
  S (length (elems (f_IDs f)) + 2 * (rows * S (filter_values o f))).
Definition query_fuel (rows : nat) (o : MapOrder) (filters : list ReqFilter) : nat :=
  S (sum_list_with (filter_fuel rows o) filters).

Lemma sorted_keys_NoDup (keys : list bytes) : StronglySorted (fun a b => bytesLess a b = true) keys -> NoDup keys.
Proof.
  induction 1 as [|k keys Hs IH Hk]; constructor; [|done]. intros Hin.
  pose proof (proj1 (Forall_forall _ _) Hk k Hin) as Hkk. cbv beta in Hkk. by rewrite bytesLess_irrefl in Hkk.
Qed.

Section Work.

Context {D I : Type} `{PebbleLaws D I}.
Implicit Types d : D.

Abbreviation part := (indexCursor I + unionCursor (indexCursor I))%type.

Lemma iterator_keys d lo hi it : db_NewIter d lo hi = inl it -> (length (it_keys it) <= size (db_view d))%nat.
Proof.
  intros Hit. rewrite <-length_map_to_list, <-(length_fmap fst (map_to_list (db_view d))).
  apply submseteq_length, NoDup_submseteq; [apply sorted_keys_NoDup, il_sorted|].
  intros k ([v Hv] & _)%(pl_NewIter d lo hi it Hit). apply list_elem_of_fmap. exists (k, v).
  split; [done|]. by apply elem_of_map_to_list.
Qed.

Lemma newIndexCursor_length (it : I) P a b : length (rem (newIndexCursor it P a b)) = length (it_keys it).
Proof.
  change (length (index_rem (newIndexCursor it P a b)) = length (it_keys it)).
  unfold index_rem, newIndexCursor. rewrite length_fmap. destruct (il_first it) as (it' & -> & _ & <-).
  by destruct (nonempty (it_rest it')).
Qed.

Lemma new_iter_length d what lo hi it P a b : new_iter d what lo hi = Ok it ->
  (length (rem (newIndexCursor it P a b)) <= size (db_view d))%nat.
Proof.
  unfold new_iter. destruct (db_NewIter d lo hi) as [it'|] eqn:E; [|done]. intros [= ->].
  rewrite newIndexCursor_length. by eapply iterator_keys.
Qed.

Lemma field_cursor_length d h f c : newFieldIndexCursor d h f = Ok c -> (length (rem c) <= size (db_view d))%nat.
Proof. unfold newFieldIndexCursor. intros (it & Hit & [= <-])%bind_Ok. by eapply new_iter_length. Qed.

Lemma created_at_cursor_length d f c : newCreatedAtCursor d f = Ok c -> (length (rem c) <= size (db_view d))%nat.
Proof. unfold newCreatedAtCursor. intros (it & Hit & [= <-])%bind_Ok. by eapply new_iter_length. Qed.

Lemma index_cursors_total d f hs : forall cs, index_cursors d f hs = Ok cs -> (total cs <= size (db_view d) * length hs)%nat.
Proof.
  induction hs as [|h hs IH]; intros cs; cbn [index_cursors]; [by intros [= <-]; unfold total; cbn; lia|].
  intros (c & Hc & (cs' & Hcs & [= <-])%bind_Ok)%bind_Ok. apply field_cursor_length in Hc. apply IH in Hcs.
  unfold total in *. cbn [sum_list_with length]. lia.
Qed.

Lemma union_rest_length {C} `{CursorLaws C} (cs : list C) : length (union_rest cs) = total cs.
Proof.
  unfold union_rest. rewrite entry_sort_Permutation. unfold total.
  induction cs as [|c cs IH]; [done|]. rewrite fmap_cons. cbn [concat sum_list_with]. rewrite length_app. by rewrite IH.
Qed.

Lemma filter_total {C} `{CursorLaws C} (p : C -> bool) cs : (total (List.filter p cs) <= total cs)%nat.
Proof. unfold total. induction cs as [|c cs IH]; [done|]. cbn. destruct (p c); cbn; lia. Qed.

Lemma wrapCursors_length (cs : list (indexCursor I)) : (length (rem (wrapCursors cs)) <= total cs)%nat.
Proof.
  assert (Hu : (length (rem (newUnionCursor cs)) <= total cs)%nat).
  { change (rem (newUnionCursor cs)) with (union_rest (heap_Init cursorLess (List.filter Valid cs))).
    rewrite (union_rest_Permutation _ _ (proj2 (heap_Init_spec cursorLess (List.filter Valid cs)))).
    rewrite union_rest_length. apply filter_total. }
  destruct cs as [|c [|c' cs]]; [exact Hu| |exact Hu]. unfold total. cbn. change (rem (inl c : part)) with (rem c). lia.
Qed.

Lemma conditions_total d f gs : forall ps, conditions d f gs = Ok ps ->
  (total ps <= size (db_view d) * sum_list_with length gs)%nat.
Proof.
  induction gs as [|g gs IH]; intros ps; cbn [conditions]; [by intros [= <-]; unfold total; cbn; lia|].
  intros (p & (cs & Hcs & [= <-])%bind_Ok & (ps' & Hps & [= <-])%bind_Ok)%bind_Ok.
  apply index_cursors_total in Hcs. apply IH in Hps. pose proof (wrapCursors_length cs) as Hw.
  unfold total in *. rewrite sum_list_with_app. destruct (0 <? length cs)%nat; cbn [sum_list_with]; lia.
Qed.

Lemma join_rest_length {C} `{CursorLaws C} (cs : list C) : (length (join_rest cs) <= total cs)%nat.
Proof. destruct cs as [|c cs]; [done|]. cbn [join_rest]. unfold total. cbn. etransitivity; [apply length_filter|lia]. Qed.

Lemma ids_entries_length `{EventCodec} d ids : forall es, ids_entries d ids = Ok es -> (length es <= length ids)%nat.
Proof.
  induction ids as [|id ids IH]; intros es; cbn [ids_entries]; [by intros [= <-]|].
  destruct (negb _); [intros Hes; apply IH in Hes; cbn [length]; lia|].
  intros (b & _ & (x & _ & (rest & Hr & [= <-])%bind_Ok)%bind_Ok)%bind_Ok. apply IH in Hr. destruct x; cbn [length]; lia.
Qed.

Lemma ids_cursor_length `{EventCodec} d ids c : buildIDsCursor d ids = Ok (Some c) -> (length (rem c) <= length ids)%nat.
Proof.
  unfold buildIDsCursor. intros (es & Hes & Hc)%bind_Ok. apply ids_entries_length in Hes.
  destruct (length es =? 0)%nat; [done|]. injection Hc as <-. change (length (entry_sort es) <= length ids)%nat.
  by rewrite entry_sort_Permutation.
Qed.

End Work.
