(* ===== verification/PebbleQuerySpec.v ===== *)
(** * What a query on Pebble yields (pebble_storage.go)

    On a database that holds the rows of some events, [Query] answers as the
    storage interface promises, with fuel enough to end. *)

From S2P Require Import Prelude GoTime Text Bytes Event Filter Storage PebbleKeys Heap PebbleCursor PebbleJoin.
From S2P Require Import PebbleStore PebbleRows PebbleInv PebbleQuery PebbleIndex PebbleFuel.

Section QuerySpec.

Context {D I : Type} `{PebbleLaws D I, EventCodecLaws}.
Implicit Types (d : D) (L : list Event).

Abbreviation part := (indexCursor I + unionCursor (indexCursor I))%type.
Abbreviation tree := (sliceCursor + (part + intersectCursor part))%type.

(** ** The cursor of a filter *)

(** A cursor that yields the candidates of a filter, with fuel [N]. *)
Definition filter_cursor (L : list Event) (f : ReqFilter) (N : nat) (t : tree) : Prop :=
  wf t /\ candidates_of L f (rem t) /\ (need t + length (rem t) <= N)%nat.

Lemma filter_cursor_le L f N N' t : (N <= N')%nat -> filter_cursor L f N t -> filter_cursor L f N' t.
Proof. intros Hle (? & ? & ?). split_and!; [done..|lia]. Qed.

(** A part that stands for a condition of the filter has all matching events. *)
Lemma condition_complete L f o (ps : list part) e : (forall e, e ∈ L -> event_ok e) -> times_ok f ->
  Forall2 (fun hs (p : part) => stands_for L p (hashes_events f hs) /\ fresh_cursor p) (nonempty_hashes (condition_hashes o f)) ps ->
  e ∈ L -> matches f e -> forall p : part, p ∈ ps -> event_entry e ∈ rem p.
Proof.
  intros Hok Hf Hps He Hm p (i & Hi)%list_elem_of_lookup.
  destruct (Forall2_lookup_r _ _ _ _ _ Hps Hi) as (hs & Hhs & [_ Hrem] & _).
  apply list_elem_of_lookup_2 in Hhs. apply list_elem_of_In, filter_In in Hhs as [Hhs Hne].
  destruct (matching_hashes o f e hs (Hok e He) Hm) as (h & Hh & Hfe); [by apply list_elem_of_In|by intros ->|].
  apply Hrem. exists e. split; [done|]. split; [|done]. exists h. split; [done|]. split; [done|]. by apply matching_window.
Qed.

Lemma stands_for_sound {C} `{CursorLaws C} L (c : C) Q p : stands_for L c Q -> p ∈ rem c -> exists e, e ∈ L /\ p = event_entry e.
Proof. intros [_ Hrem] Hp. apply Hrem in Hp as (e & He & _ & ->). eauto. Qed.

Lemma one_condition L f o (p : part) : (forall e, e ∈ L -> event_ok e) -> times_ok f ->
  Forall2 (fun hs (p : part) => stands_for L p (hashes_events f hs) /\ fresh_cursor p) (nonempty_hashes (condition_hashes o f)) [p] ->
  filter_cursor L f (length (rem p)) (inr (inl p)).
Proof.
  intros Hok Hf Hps. pose proof (condition_complete L f o [p]) as Hc.
  apply Forall2_cons_inv_r in Hps as Hps'. destruct Hps' as (hs & hs' & [Hs [Hz _]] & _).
  split; [apply Hs|]. split.
  - change (rem (inr (inl p) : tree)) with (rem p).
    split; [intros q Hq; by apply (stands_for_sound L p (hashes_events f hs))|]. intros e He Hm. apply (Hc e Hok Hf Hps He Hm p). by left.
  - change (need (inr (inl p) : tree)) with (need p). rewrite Hz. done.
Qed.

Lemma many_conditions n L f o (ps : list part) : (forall e, e ∈ L -> event_ok e) -> times_ok f -> ps <> [] ->
  Forall2 (fun hs (p : part) => stands_for L p (hashes_events f hs) /\ fresh_cursor p) (nonempty_hashes (condition_hashes o f)) ps ->
  (S (total ps) <= n)%nat -> exists c, newIntersectCursor n ps = Some c /\
  filter_cursor L f (S (total ps) + length (join_rest ps)) (inr (inr c)).
Proof.
  intros Hok Hf Hne Hps Hn.
  assert (Hparts : forall p, p ∈ ps -> wf p /\ need p = 0%nat /\ forall q, q ∈ rem p -> exists e, e ∈ L /\ q = event_entry e).
  { intros p (i & Hi)%list_elem_of_lookup. destruct (Forall2_lookup_r _ _ _ _ _ Hps Hi) as (hs & _ & Hs & [Hz _]).
    split; [apply Hs|]. split; [done|]. intros q Hq. by apply (stands_for_sound L p (hashes_events f hs)). }
  assert (Hz : sum_list_with need ps = 0%nat) by (apply sum_need_zero; intros p Hp; by apply Hparts).
  destruct (newIntersectCursor_spec n ps) as (c & Hc & Hwf & Hrem & Hneed); [|done|lia|].
  { apply Forall_forall. intros p Hp. by apply Hparts. }
  exists c. split; [done|]. split; [exact Hwf|].
  change (rem (inr (inr c) : tree)) with (rem c). change (need (inr (inr c) : tree)) with (need c). rewrite Hrem. split; [split|lia].
  - intros q Hq. destruct ps as [|p ps]; [done|]. apply list_elem_of_filter in Hq as [_ Hq].
    by eapply Hparts; [left|].
  - intros e He Hm. pose proof (condition_complete L f o ps e Hok Hf Hps He Hm) as Hall.
    destruct ps as [|p ps]; [done|]. apply list_elem_of_filter. split; [|apply Hall; by left].
    by apply common_elem.
Qed.

Lemma buildFilterCursor_spec d L o f : rows_ok (db_view d) L -> times_ok f ->
  let N := filter_fuel (size (db_view d)) o f in
  forall n, (N <= n)%nat -> exists r, buildFilterCursor n o d f = Some r /\
  match r with
  | Ok (Some t) => filter_cursor L f N t
  | Ok None => forall e, e ∈ L -> ~ matches f e
  | _ => True
  end.
Proof.
  intros Hr Hf N n Hn. assert (Hok : forall e, e ∈ L -> event_ok e) by (intros e He; by apply (ro_events _ _ Hr e He)).
  unfold N, filter_fuel in *. unfold buildFilterCursor. destruct (Nat.ltb_spec 0 (length (elems (f_IDs f)))) as [Hids|Hids].
  - destruct (buildIDsCursor d (elems (f_IDs f))) as [c|e|w] eqn:E; [|by eexists..].
    assert (Hne : elems (f_IDs f) <> []) by (by intros Hnil; rewrite Hnil in Hids; simpl in Hids; lia).
    pose proof (buildIDsCursor_spec d L f c Hr Hne E) as Hc. destruct c as [c|]; [|by eexists].
    destruct Hc as (Hwf & Hcand & Hz). pose proof (ids_cursor_length d _ c E) as Hlen. eexists. split; [done|].
    split; [done|]. split; [done|]. change (need (inl c : tree)) with (need c). rewrite Hz.
    change (rem (inl c : tree)) with (rem c). lia.
  - destruct (conditions d f (condition_hashes o f)) as [ps|e|w] eqn:E; [|by eexists..].
    pose proof (conditions_spec d L f _ ps Hr Hf (condition_hashes_range o f) E) as Hps.
    pose proof (conditions_total d f _ ps E) as Htot. fold (filter_values o f) in Htot.
    destruct ps as [|p [|p' ps]].
    + destruct (newCreatedAtCursor d f) as [c|e|w] eqn:Ec; [|by eexists..].
      destruct (newCreatedAtCursor_spec d L f c Hr Hf Ec) as ([Hwf Hm] & Hz & _).
      pose proof (created_at_cursor_length d f c Ec) as Hlen.
      eexists. split; [done|]. split; [done|]. split.
      * split; [intros q Hq; change (rem (inr (inl (inl c)) : tree)) with (rem c) in Hq;
          apply Hm in Hq as (e & He & _ & ->); eauto|].
        intros e He Hme. apply Hm. exists e. split; [done|]. split; [by apply matching_window|done].
      * change (need (inr (inl (inl c)) : tree)) with (need c). change (rem (inr (inl (inl c)) : tree)) with (rem c).
        rewrite Hz. lia.
    + eexists. split; [done|]. eapply filter_cursor_le; [|by eapply one_condition].
      unfold total in Htot. cbn [sum_list_with] in Htot. lia.
    + pose proof (join_rest_length (p :: p' :: ps)) as Hj.
      destruct (many_conditions n L f o (p :: p' :: ps)) as (c & Hc & Hfc); [done|done|done|done|lia|].
      rewrite Hc. eexists. split; [done|]. eapply filter_cursor_le; [|exact Hfc]. lia.
Qed.

(** ** The merge *)

#[export] Instance pairLess_weak : WeakOrder (pairLess (I := I)).
Proof.
  constructor.
  - intros x y. apply (less_asym cursorLess).
  - intros x y z. apply (le_trans cursorLess).
Qed.

(** What is left behind a pair, and the events it can still yield. *)
Definition behind (p : filterCursorPair) : list entry := rem (fc_cursor p).

Definition pair_ok (L : list Event) (n : nat) (p : filterCursorPair) : Prop :=
  wf (fc_cursor p) /\ Valid (fc_cursor p) = true /\ (need (fc_cursor p) <= n)%nat /\
  forall q, q ∈ behind p -> exists e, e ∈ L /\ q = event_entry e.

Definition heap_ok (L : list Event) (n : nat) (fh : list filterCursorPair) : Prop :=
  Forall (pair_ok L n) fh /\ is_heap pairLess fh.

Definition heap_total (fh : list filterCursorPair) : nat := sum_list_with (fun p => length (behind p)) fh.

Definition wanted (L : list Event) (seen : gset string) (fh : list filterCursorPair) (e : Event) : Prop :=
  e ∈ L /\ ev_ID e ∉ seen /\ exists p, p ∈ fh /\ event_entry e ∈ behind p /\ matches (fc_filter p) e.

(** What the merge yields of the wanted events. *)
Record merged (limit count : Z) (want : Event -> Prop) (evs : list Event) (r : Res unit) : Prop := {
  me_sorted : StronglySorted ev_lt evs;
  me_sound : forall e, e ∈ evs -> want e;
  me_complete : forall e, want e -> e ∈ evs \/
    ((forall x, x ∈ evs -> ev_lt x e) /\ (r = Ok () -> 0 <= limit /\ limit <= count + Z.of_nat (length evs)));
  me_limit : 0 <= limit -> count <= limit -> count + Z.of_nat (length evs) <= limit
}.

Lemma pair_view L n p : pair_ok L n p -> exists l, behind p = head (fc_cursor p) :: l /\ StronglySorted entryLe (behind p).
Proof.
  intros (Hwf & Hv & _). pose proof (cl_valid _ Hwf) as Hne. rewrite Hv in Hne. unfold behind.
  destruct (rem (fc_cursor p)) as [|q l] eqn:E; [done|]. exists l.
  rewrite (cl_head _ _ _ Hwf E). split; [done|]. rewrite <-E. by apply cl_sorted.
Qed.

(** The first pair has the least entry. *)
Lemma heap_least L n p fh q x : heap_ok L n (p :: fh) -> q ∈ p :: fh -> x ∈ behind q -> entryLe (head (fc_cursor p)) x.
Proof.
  intros [Hp Hh] Hq Hx. pose proof (heap_root_min pairLess (p :: fh) p q Hh eq_refl Hq) as Hle.
  pose proof (proj1 (Forall_forall _ _) Hp q Hq) as Hqok. destruct (pair_view L n q Hqok) as (l & Hl & Hs).
  etransitivity; [exact Hle|]. rewrite Hl in Hx, Hs. apply elem_of_cons in Hx as [->|Hx]; [apply entryLess_irrefl|].
  apply StronglySorted_inv in Hs as [_ Hs]. by apply (proj1 (Forall_forall _ _) Hs).
Qed.

Lemma wanted_ext L seen fh fh' e : (forall p, p ∈ fh <-> p ∈ fh') -> wanted L seen fh e <-> wanted L seen fh' e.
Proof. intros Hp. unfold wanted. setoid_rewrite Hp. done. Qed.

Lemma merged_ext limit count (w w' : Event -> Prop) evs r : (forall e, w e <-> w' e) ->
  merged limit count w evs r -> merged limit count w' evs r.
Proof.
  intros Hw [Hs Hso Hc Hl]. constructor; [done| | |done].
  - intros e He. by apply Hw, Hso.
  - intros e He. apply Hc. by apply Hw.
Qed.

(** The merge ends before it yields anything. *)
Lemma merged_stop limit count want r :
  (r = Ok () -> (forall e, ~ want e) \/ (0 <= limit /\ limit <= count)) -> merged limit count want [] r.
Proof.
  intros Hr. constructor.
  - constructor.
  - by intros e ?%not_elem_of_nil.
  - intros e He. right. split; [by intros x ?%not_elem_of_nil|]. intros Hok. destruct (Hr Hok) as [Hn|Hl]; [by destruct (Hn e)|].
    cbn [length]. lia.
  - cbn [length]. lia.
Qed.

(** The merge yields [e] and goes on. *)
Lemma merged_yield limit count (want want' : Event -> Prop) e evs r : want e ->
  (0 <= limit -> count < limit) ->
  (forall x, want x -> x = e \/ want' x) -> (forall x, want' x -> want x /\ ev_lt e x) ->
  merged limit (count + 1) want' evs r -> merged limit count want (e :: evs) r.
Proof.
  intros He Hlim Hw Hw' [Hs Hso Hc Hl]. constructor.
  - constructor; [done|]. apply Forall_forall. intros x Hx. by apply Hw', Hso.
  - intros x [->|Hx]%elem_of_cons; [done|]. by apply Hw', Hso.
  - intros x Hx. destruct (Hw x Hx) as [->|Hx']; [left; by left|].
    destruct (Hc x Hx') as [Hin|[Hall Hlen]]; [left; by right|right]. split.
    + intros y [->|Hy]%elem_of_cons; [by apply Hw'|by apply Hall].
    + intros Hok. specialize (Hlen Hok). cbn [length]. lia.
  - intros H0' H1'. specialize (Hl H0'). cbn [length]. lia.
Qed.

(** The heap after its first pair moved on. *)
Definition advanced (fh : list filterCursorPair) (c : tree) (f : ReqFilter) (l : list entry) : list filterCursorPair :=
  if nonempty l then heap_Push pairLess fh (mkFilterCursorPair c f) else fh.

Lemma advanced_elem fh c f l p : is_heap pairLess fh ->
  p ∈ advanced fh c f l <-> p ∈ fh \/ (nonempty l = true /\ p = mkFilterCursorPair c f).
Proof.
  intros Hh. unfold advanced. destruct (nonempty l); [|naive_solver].
  destruct (heap_Push_spec pairLess fh (mkFilterCursorPair c f) Hh) as [_ ->]. rewrite elem_of_cons. naive_solver.
Qed.

Lemma advanced_ok L n fh c f l : heap_ok L n fh -> wf c -> rem c = l -> (need c <= n)%nat ->
  (forall q, q ∈ l -> exists e, e ∈ L /\ q = event_entry e) ->
  heap_ok L n (advanced fh c f l) /\ (heap_total (advanced fh c f l) <= heap_total fh + length l)%nat.
Proof.
  intros [Hp Hh] Hwf Hrem Hn Hl. unfold advanced. destruct (nonempty l) eqn:E; [|split; [done|lia]].
  destruct (heap_Push_spec pairLess fh (mkFilterCursorPair c f) Hh) as [Hh' Hperm]. split; [split; [|done]|].
  - rewrite Hperm. constructor; [|done]. split; [done|]. cbn [fc_cursor]. rewrite (cl_valid _ Hwf), Hrem. split; [done|].
    split; [done|]. intros q Hq. apply Hl. by rewrite <-Hrem.
  - unfold heap_total. rewrite Hperm. cbn [sum_list_with]. unfold behind at 1. cbn [fc_cursor]. rewrite Hrem. lia.
Qed.

Lemma step_wanted L seen z fh h c q l x : h ≡ₚ fh -> is_heap pairLess h -> behind z = q :: l -> rem c = l ->
  (wanted L seen (advanced h c (fc_filter z) l) x -> wanted L seen (z :: fh) x) /\
  (wanted L seen (z :: fh) x ->
   wanted L seen (advanced h c (fc_filter z) l) x \/ (event_entry x = q /\ matches (fc_filter z) x)).
Proof.
  intros Hp Hh Hz Hc. unfold wanted. split.
  - intros (Hx & Hseen & p & Hin & Hb & Hm). split; [done|]. split; [done|].
    apply advanced_elem in Hin; [|done]. rewrite Hp in Hin. destruct Hin as [Hin|[_ ->]]; [exists p; split; [by right|done]|].
    exists z. split; [by left|]. split; [|done]. rewrite Hz. unfold behind in Hb. cbn [fc_cursor] in Hb. rewrite Hc in Hb. by right.
  - intros (Hx & Hseen & p & Hin & Hb & Hm). apply elem_of_cons in Hin as [->|Hin].
    + rewrite Hz in Hb. apply elem_of_cons in Hb as [Hb|Hb]; [by right|left]. split; [done|]. split; [done|].
      exists (mkFilterCursorPair c (fc_filter z)). split.
      * apply advanced_elem; [done|]. right. split; [|done]. by destruct l; [apply not_elem_of_nil in Hb|].
      * split; [|done]. unfold behind. cbn [fc_cursor]. by rewrite Hc.
    + left. split; [done|]. split; [done|]. exists p. split; [|done]. apply advanced_elem; [done|]. left. by rewrite Hp.
Qed.

(** The candidate of the first pair. *)
Lemma candidate_spec d L n seen z : rows_ok (db_view d) L -> pair_ok L n z -> exists e,
  e ∈ L /\ head (fc_cursor z) = event_entry e /\ bytesToHex (snd (head (fc_cursor z))) = ev_ID e /\
  (is_ok (candidate d seen z) = true -> candidate d seen z =
   Ok (if bool_decide (ev_ID e ∈ seen) then None
       else if Match (Some (fc_filter z)) (Some e) then Some e else None)).
Proof.
  intros Hr Hz. destruct (pair_view L n z Hz) as (l & Hl & _). destruct Hz as (Hwf & Hv & _ & Hs).
  destruct (Hs (head (fc_cursor z))) as (e & He & Heq); [rewrite Hl; by left|].
  pose proof (proj1 (ro_events _ _ Hr e He)) as Hok. destruct (id_bytes_ok _ (eo_ID e Hok)) as (_ & Hlen & _ & Hhex).
  exists e. split; [done|]. split; [done|]. rewrite Heq. cbn [snd event_entry]. split; [done|].
  unfold candidate. rewrite Heq. cbn [snd event_entry]. rewrite Hhex. case_bool_decide; [done|]. intros Hisok.
  destruct (wrap_err "query event" (getEventByIDFromSnapshot d (id_bytes (ev_ID e)))) as [r|err|w] eqn:E; [|done|done].
  apply wrap_err_Ok in E. pose proof (get_event_Ok _ _ _ _ _ Hr Hlen E) as Ha. cbn [mbind Res_bind mret Res_ret].
  destruct r as [e'|]; [|by destruct (Ha e He)]. by rewrite (event_at_same _ _ _ e' e Hr Ha He eq_refl).
Qed.

Lemma entry_same L e e' : (forall x, x ∈ L -> event_ok x) -> distinct_ids L -> e ∈ L -> e' ∈ L ->
  event_entry e = event_entry e' -> e = e'.
Proof.
  intros Hok Hd He He' Heq. eapply distinct_ids_eq; [exact Hd|done|done|].
  apply (f_equal snd) in Heq. cbn [snd event_entry] in Heq. apply id_bytes_inj in Heq; [done|by apply Hok..].
Qed.

Lemma query_loop_spec fuel n d L limit count seen fh :
  rows_ok (db_view d) L -> heap_ok L n fh -> (heap_total fh < fuel)%nat -> exists evs r,
  query_loop fuel n d limit count seen fh = Some (evs, r) /\ merged limit count (wanted L seen fh) evs r.
Proof.
  intros Hr. assert (Hok : forall x, x ∈ L -> event_ok x) by (intros x Hx; by apply (ro_events _ _ Hr x Hx)).
  revert count seen fh. induction fuel as [|fuel IH]; intros count seen fh Hfh Hf; [lia|]. cbn [query_loop].
  destruct fh as [|z fh].
  { exists [], (Ok ()). split; [done|]. apply merged_stop. left. intros e (_ & _ & p & Hp & _). by apply not_elem_of_nil in Hp. }
  change (length (z :: fh) =? 0)%nat with false. cbv iota. destruct ((0 <=? limit) && (limit <=? count)) eqn:Elim.
  { exists [], (Ok ()). split; [done|]. apply merged_stop. right. lia. }
  destruct Hfh as [Hpairs Hheap]. destruct (heap_Pop_spec pairLess z z fh Hheap) as (h & -> & Hh & Hperm).
  pose proof (Forall_inv Hpairs) as Hz. pose proof (Forall_inv_tail Hpairs) as Hfh.
  destruct (candidate_spec d L n seen z Hr Hz) as (e & He & Hhead & Hhex & Hcand).
  destruct (candidate d seen z) as [y|err|w] eqn:Ec.
  2,3: eexists [], _; split; [done|]; by apply merged_stop.
  specialize (Hcand eq_refl). injection Hcand as Hy. rewrite Hhex.
  destruct (pair_view L n z Hz) as (l & Hl & _). pose proof Hz as (Hwf & _ & Hneed & Hsound).
  destruct (cl_next n (fc_cursor z) _ l Hwf Hl Hneed) as (c & Hnext & Hwf' & Hrem' & Hneed').
  rewrite Hnext. cbn [mbind option_bind].
  destruct (advanced_ok L n h c (fc_filter z) l) as [Hadv Htot]; [split; [by rewrite Hperm|done]|done|done|lia| |].
  { intros q Hq. apply Hsound. rewrite Hl. by right. }
  assert (Hless : (heap_total (advanced h c (fc_filter z) l) < fuel)%nat).
  { assert (Heq : heap_total h = heap_total fh) by (unfold heap_total; by rewrite Hperm).
    rewrite Heq in Htot. unfold heap_total in Hf at 1. cbn [sum_list_with] in Hf. rewrite Hl in Hf. cbn [length] in Hf.
    unfold heap_total in *. lia. }
  fold (advanced h c (fc_filter z) l).
  pose proof (fun x => step_wanted L seen z fh h c _ l x Hperm Hh Hl Hrem') as Hstep.
  assert (Hlater : forall x, x ∈ L -> event_entry x = head (fc_cursor z) -> x = e).
  { intros x Hx Hxe. apply (entry_same L); [done|apply Hr|done|done|congruence]. }
  destruct y as [e'|].
  - case_bool_decide as Hseen; [done|]. destruct (Match (Some (fc_filter z)) (Some e)) eqn:Em; [|done]. injection Hy as ->.
    apply Match_matches in Em.
    destruct (IH (count + 1) ({[ev_ID e]} ∪ seen) _ Hadv Hless) as (evs & r & Hrun & Hmer).
    exists (e :: evs), r. rewrite Hrun. split; [done|]. eapply merged_yield; [| | | |exact Hmer].
    + split; [done|]. split; [done|]. exists z. split; [by left|]. split; [rewrite Hl, Hhead; by left|done].
    + lia.
    + intros x Hx. destruct (proj2 (Hstep x) Hx) as [(Hx1 & Hx2 & Hx3)|[Hxe _]]; [|left; apply Hlater; [apply Hx|done]].
      destruct (decide (ev_ID x = ev_ID e)) as [Hid|Hid]; [left; by eapply distinct_ids_eq; [apply Hr|..]|right].
      split; [done|]. split; [set_solver|done].
    + intros x (Hx1 & Hx2 & Hx3). assert (Hw : wanted L seen (z :: fh) x) by (apply Hstep; split; [done|]; split; [set_solver|done]).
      split; [done|]. destruct Hw as (_ & _ & p & Hp & Hb & _).
      apply event_entry_le; [by apply Hok|by apply Hok| |set_solver]. rewrite <-Hhead. by eapply heap_least.
  - destruct (IH count seen _ Hadv Hless) as (evs & r & Hrun & Hmer). exists evs, r. split; [done|].
    eapply merged_ext; [|exact Hmer]. intros x. split; [apply Hstep|]. intros Hx.
    destruct (proj2 (Hstep x) Hx) as [?|[Hxe Hm]]; [done|]. exfalso.
    assert (x = e) as -> by (apply Hlater; [apply Hx|done]). apply Match_matches in Hm. rewrite Hm in Hy.
    case_bool_decide as Hseen; [|done]. by destruct Hx as (_ & Hn & _).
Qed.

(** ** The heap of the filters *)

Lemma build_heap_spec d L o filters : rows_ok (db_view d) L -> (forall f, f ∈ filters -> times_ok f) ->
  let N := sum_list_with (filter_fuel (size (db_view d)) o) filters in
  forall n fh, (N <= n)%nat -> heap_ok L n fh -> exists r, build_heap n o d filters fh = Some r /\
  match r with
  | Ok fh' => heap_ok L n fh' /\ (heap_total fh' <= heap_total fh + N)%nat /\
      (forall p, p ∈ fh' -> p ∈ fh \/ fc_filter p ∈ filters) /\ (forall p, p ∈ fh -> p ∈ fh') /\
      (forall f e, f ∈ filters -> e ∈ L -> matches f e ->
       exists p, p ∈ fh' /\ fc_filter p = f /\ event_entry e ∈ behind p)
  | _ => True
  end.
Proof.
  intros Hr. induction filters as [|f filters IH]; intros Hf.
  { intros N n fh _ Hfh. exists (Ok fh). split; [done|]. split_and!; [done|lia|auto|auto|].
    by intros f e ?%not_elem_of_nil. }
  pose proof (IH (fun f' Hin => Hf f' (list_elem_of_further _ _ _ Hin))) as HN1. cbv zeta in HN1.
  pose proof (buildFilterCursor_spec d L o f Hr (Hf f (list_elem_of_here _ _))) as HN2. cbv zeta in HN2.
  intros N n fh Hn Hfh. unfold N in *. cbn [sum_list_with] in Hn |- *. destruct (HN2 n ltac:(lia)) as (rc & Hbuild & Hrc).
  cbn [build_heap]. rewrite Hbuild. cbn [mbind option_bind]. destruct rc as [[t|]|err|w]; cbn [wrap_err].
  - destruct Hrc as (Hwf & [Hsound Hcomplete] & Hneed).
    pose proof (advanced_ok L n fh t f (rem t) Hfh Hwf eq_refl ltac:(lia) Hsound) as [Hok' Htot'].
    pose proof (fun p => advanced_elem fh t f (rem t) p (proj2 Hfh)) as Helem.
    rewrite (cl_valid t Hwf). fold (advanced fh t f (rem t)).
    destruct (HN1 n _ ltac:(lia) Hok') as (r & Hrun & Hres). exists r. split; [done|].
    destruct r as [fh'|err|w]; [|done..]. destruct Hres as (R1 & R2 & R3 & R4 & R5). split_and!; [done|lia| | |].
    + intros p Hp. destruct (R3 p Hp) as [Hp'|Hp']; [|right; by right]. apply Helem in Hp' as [?|[_ ->]]; [by left|].
      right. by left.
    + intros p Hp. apply R4, Helem. by left.
    + intros f' e [->|Hf']%elem_of_cons He Hm; [|by apply R5]. pose proof (Hcomplete e He Hm) as Hin.
      exists (mkFilterCursorPair t f). split; [|done]. apply R4, Helem. right. split; [|done].
      by destruct (rem t); [apply not_elem_of_nil in Hin|].
  - destruct (HN1 n fh ltac:(lia) Hfh) as (r & Hrun & Hres). exists r. split; [done|].
    destruct r as [fh'|err|w]; [|done..]. destruct Hres as (R1 & R2 & R3 & R4 & R5). split_and!; [done|lia| |done|].
    + intros p Hp. destruct (R3 p Hp); [by left|right; by right].
    + intros f' e [->|Hf']%elem_of_cons He Hm; [by destruct (Hrc e He)|by apply R5].
  - by eexists.
  - by eexists.
Qed.

(** ** Answers *)

(** A sorted list that lacks nothing below its elements is a prefix. *)
Lemma sorted_prefix (evs l : list Event) : StronglySorted ev_lt evs -> StronglySorted ev_lt l ->
  (forall e, e ∈ evs -> e ∈ l) -> (forall x y, x ∈ l -> y ∈ evs -> ev_lt x y -> x ∈ evs) -> evs `prefix_of` l.
Proof.
  intros Hs Hl. revert evs Hs. induction Hl as [|a l Hl IH Ha]; intros evs Hs Hsub Hdown.
  { destruct evs as [|b evs]; [done|]. by destruct (not_elem_of_nil b (Hsub b (list_elem_of_here _ _))). }
  destruct evs as [|b evs]; [apply prefix_nil|]. apply StronglySorted_inv in Hs as [Hs Hb].
  assert (b = a) as ->.
  { pose proof (Hsub b (list_elem_of_here _ _)) as Hin. apply elem_of_cons in Hin as [?|Hin]; [done|].
    pose proof (proj1 (Forall_forall _ _) Ha b Hin) as Hab.
    pose proof (Hdown a b (list_elem_of_here _ _) (list_elem_of_here _ _) Hab) as Hin'.
    apply elem_of_cons in Hin' as [?|Hin']; [done|]. pose proof (proj1 (Forall_forall _ _) Hb a Hin') as Hba.
    destruct (ev_lt_irrefl a). by etransitivity. }
  apply prefix_cons, IH; [done| |].
  - intros e He. pose proof (Hsub e (list_elem_of_further _ _ _ He)) as Hin. apply elem_of_cons in Hin as [->|?]; [|done].
    pose proof (proj1 (Forall_forall _ _) Hb a He) as Haa. by destruct (ev_lt_irrefl a).
  - intros x y Hx Hy Hxy. pose proof (Hdown x y (list_elem_of_further _ _ _ Hx) (list_elem_of_further _ _ _ Hy) Hxy) as Hin.
    apply elem_of_cons in Hin as [->|?]; [|done]. pose proof (proj1 (Forall_forall _ _) Ha a Hx) as Haa. by destruct (ev_lt_irrefl a).
Qed.

Definition asked (L : list Event) (filters : list ReqFilter) (e : Event) : Prop :=
  e ∈ L /\ exists f, f ∈ filters /\ matches f e.

Lemma merged_answer L filters evs : merged (query_limit filters) 0 (asked L filters) evs (Ok ()) ->
  query_answer L filters evs.
Proof.
  intros [Hs Hso Hc Hl]. constructor; [done|done| |].
  - intros e He Hf. destruct (Hc e (conj He Hf)) as [?|[Hall Hlen]]; [by left|right]. specialize (Hlen eq_refl).
    split; [|done]. specialize (Hl (proj1 Hlen)). lia.
  - intros H0'. specialize (Hl H0'). lia.
Qed.

(** A merge that an error cut short yields a prefix of an answer. *)
Lemma merged_prefix L filters evs r : distinct_ids L -> merged (query_limit filters) 0 (asked L filters) evs r ->
  exists l, query_answer L filters l /\ evs `prefix_of` l.
Proof.
  intros Hd [Hs Hso Hc Hl]. destruct (Query_answer (mkInMemoryStorage L ∅ ∅) filters Hd) as (l & _ & Hq).
  cbn [events] in Hq. exists l. split; [done|]. destruct Hq as [Qs Qso Qc Ql].
  assert (Hdown : forall x y, x ∈ l -> y ∈ evs -> ev_lt x y -> x ∈ evs).
  { intros x y Hx Hy Hxy. destruct (Hc x (Qso x Hx)) as [?|[Hall _]]; [done|]. destruct (ev_lt_irrefl x).
    etransitivity; [exact Hxy|by apply Hall]. }
  apply sorted_prefix; [done|done| |done]. intros e He. destruct (Hso e He) as [HeL Hf].
  destruct (Qc e HeL Hf) as [?|[Hlen Hall]]; [done|]. exfalso.
  assert (Hsub : e :: l ⊆ evs).
  { intros x [->|Hx]%elem_of_cons; [done|]. apply (Hdown x e Hx He). by apply Hall. }
  assert (Hnd : NoDup (e :: l)).
  { constructor; [intros Hin; by apply (ev_lt_irrefl e), Hall|]. clear -Qs. induction Qs as [|a l Hs IH Ha]; constructor; [|done].
    intros Hin. by apply (ev_lt_irrefl a), (proj1 (Forall_forall _ _) Ha). }
  pose proof (submseteq_length _ _ (NoDup_submseteq _ _ Hnd Hsub)) as Hle. cbn [length] in Hle.
  assert (H0' : 0 <= query_limit filters) by lia. specialize (Hl H0' H0'). lia.
Qed.

Lemma asked_wanted L n filters fh e :
  heap_ok L n fh -> (forall p, p ∈ fh -> fc_filter p ∈ filters) ->
  (forall f e, f ∈ filters -> e ∈ L -> matches f e -> exists p, p ∈ fh /\ fc_filter p = f /\ event_entry e ∈ behind p) ->
  wanted L ∅ fh e <-> asked L filters e.
Proof.
  intros _ Hp Hc. split.
  - intros (He & _ & p & Hin & _ & Hm). split; [done|]. eauto.
  - intros (He & f & Hf & Hm). split; [done|]. split; [set_solver|]. destruct (Hc f e Hf He Hm) as (p & Hin & <- & Hb). eauto.
Qed.

(** [Query] ends, and yields an answer, or a prefix of one before an error. *)
Lemma Query_pebble_answer d L o filters : rows_ok (db_view d) L -> (forall f, f ∈ filters -> times_ok f) ->
  forall n, (query_fuel (size (db_view d)) o filters <= n)%nat -> exists evs r, Query n o d filters = Some (evs, r) /\
  (exists l, query_answer L filters l /\ evs `prefix_of` l) /\ (r = Ok () -> query_answer L filters evs).
Proof.
  intros Hr Hf. pose proof (ro_ids _ _ Hr) as Hd. unfold Query. destruct filters as [|f filters].
  { intros n _. exists [], (Ok ()). split; [done|].
    assert (Hq : query_answer L [] []); [|split; [by exists []|done]].
    constructor; [constructor|by intros e ?%not_elem_of_nil|by intros e _ (f & ?%not_elem_of_nil & _)|done]. }
  change (length (f :: filters) =? 0)%nat with false. cbv iota. set (fs := f :: filters) in *.
  pose proof (build_heap_spec d L o fs Hr Hf) as HN. cbv zeta in HN. intros n Hn. unfold query_fuel in Hn.
  assert (Hnil : heap_ok L n []) by (split; [constructor|intros j Hj; simpl in Hj; lia]).
  destruct (HN n [] ltac:(lia) Hnil) as (r & Hrun & Hres). rewrite Hrun. cbn [mbind option_bind].
  destruct r as [fh|err|w].
  - destruct Hres as (R1 & R2 & R3 & _ & R5).
    destruct (query_loop_spec n n d L (query_limit fs) 0 ∅ fh Hr R1) as (evs & r & Hloop & Hmer).
    { change (heap_total []) with 0%nat in R2. lia. }
    assert (Hmer' : merged (query_limit fs) 0 (asked L fs) evs r).
    { eapply merged_ext; [|exact Hmer]. intros e. eapply asked_wanted; [exact R1| |exact R5].
      intros p Hp. destruct (R3 p Hp) as [Hp'|?]; [by apply not_elem_of_nil in Hp'|done]. }
    exists evs, r. split; [done|]. split; [by eapply merged_prefix|]. intros ->. by apply merged_answer.
  - destruct (Query_answer (mkInMemoryStorage L ∅ ∅) fs Hd) as (l & _ & Hq). exists [], (Err err).
    split; [done|]. split; [|done]. exists l. split; [done|apply prefix_nil].
  - destruct (Query_answer (mkInMemoryStorage L ∅ ∅) fs Hd) as (l & _ & Hq). exists [], (Panic w).
    split; [done|]. split; [|done]. exists l. split; [done|apply prefix_nil].
Qed.

End QuerySpec.
