(* ===== verification/PebbleSim.v ===== *)
(** * The Pebble storage simulates the in-memory one (pebble_storage.go, storage.go)

    A Pebble database and an in-memory storage correspond when they hold the same
    events and the same deletion records, and each address pointer leads to the
    event of that address.  Events are vetted: their ids identify them, the hash of
    the addresses in use does not collide, and deletion requests name well-formed
    targets.  Then both storages answer every [Store] alike and keep
    corresponding. *)

From S2P Require Import Prelude GoTime Text Bytes Event Filter Storage PebbleKeys Heap PebbleCursor PebbleStore.
From S2P Require Import PebbleRows PebbleInv PebbleQuery PebbleIndex.

(** ** Deletion requests in memory *)

(** The events a tag of a request removes in memory. *)
Definition mem_hits (ev : Event) (t : Tag) (x : Event) : bool :=
  match t with
  | name :: arg :: _ =>
      if String.eqb name "e" then
        negb (ev_Kind x =? 5) && String.eqb (ev_ID x) arg && String.eqb (ev_Pubkey x) (ev_Pubkey ev)
      else if String.eqb name "a" then
        String.eqb (address x) arg && String.eqb (ev_Pubkey x) (ev_Pubkey ev)
          && negb (After (ev_CreatedAt x) (ev_CreatedAt ev))
      else false
  | _ => false
  end.

(** The id and the address a tag writes a record for. *)
Definition names_id (t : Tag) (id : string) : bool :=
  match t with name :: arg :: _ => String.eqb name "e" && String.eqb arg id | _ => false end.
Definition names_addr (t : Tag) (a : string) : bool :=
  match t with
  | name :: arg :: _ => negb (String.eqb name "e") && String.eqb name "a" && String.eqb arg a
  | _ => false
  end.

Definition mem_record (ev : Event) : deletionRecord := mkDeletionRecord (ev_Pubkey ev) (ev_CreatedAt ev).

Lemma kind5_tag_events ev s t x : x ∈ events (kind5_tag ev s t) <-> x ∈ events s /\ mem_hits ev t x = false.
Proof.
  destruct t as [|name [|arg t]]; [cbn; tauto..|]. unfold kind5_tag, mem_hits.
  change ((length (name :: arg :: t) <? 2)%nat) with false. cbv iota. cbn [nth].
  destruct (String.eqb name "e"); [|destruct (String.eqb name "a")]; cbn [events]; [| |tauto];
    rewrite DeleteFunc_elem; [|done].
  by destruct (ev_Kind x =? 5), (String.eqb (ev_ID x) arg).
Qed.

Lemma kind5_tag_ids ev s t id : deletedIDs (kind5_tag ev s t) !! id =
  if names_id t id then Some (mem_record ev) else deletedIDs s !! id.
Proof.
  destruct t as [|name [|arg t]]; [done..|]. unfold kind5_tag, names_id.
  change ((length (name :: arg :: t) <? 2)%nat) with false. cbv iota. cbn [nth].
  destruct (String.eqb name "e"); [|by destruct (String.eqb name "a")]. cbn [deletedIDs andb].
  destruct (String.eqb_spec arg id) as [->|Hne]; [apply lookup_insert_eq|by apply lookup_insert_ne].
Qed.

Lemma kind5_tag_addrs ev s t a : deletedAddrs (kind5_tag ev s t) !! a =
  if names_addr t a then Some (mem_record ev) else deletedAddrs s !! a.
Proof.
  destruct t as [|name [|arg t]]; [done..|]. unfold kind5_tag, names_addr.
  change ((length (name :: arg :: t) <? 2)%nat) with false. cbv iota. cbn [nth].
  destruct (String.eqb name "e"); [done|]. destruct (String.eqb name "a"); [|done]. cbn [deletedAddrs andb negb].
  destruct (String.eqb_spec arg a) as [->|Hne]; [apply lookup_insert_eq|by apply lookup_insert_ne].
Qed.

Lemma and_iff_compat_l' (P Q R : Prop) : (P -> (Q <-> R)) -> P /\ Q <-> P /\ R.
Proof. tauto. Qed.

Lemma mem_kind5 ev ts : forall s,
  (forall x, x ∈ events (fold_left (kind5_tag ev) ts s) <->
     x ∈ events s /\ existsb (fun t => mem_hits ev t x) ts = false) /\
  (forall id, deletedIDs (fold_left (kind5_tag ev) ts s) !! id =
     if existsb (fun t => names_id t id) ts then Some (mem_record ev) else deletedIDs s !! id) /\
  (forall a, deletedAddrs (fold_left (kind5_tag ev) ts s) !! a =
     if existsb (fun t => names_addr t a) ts then Some (mem_record ev) else deletedAddrs s !! a).
Proof.
  induction ts as [|t ts IH]; intros s; [naive_solver|]. cbn [fold_left existsb].
  destruct (IH (kind5_tag ev s t)) as (IH1 & IH2 & IH3). split_and!.
  - intros x. rewrite IH1, kind5_tag_events, orb_false_iff. tauto.
  - intros id. rewrite IH2, kind5_tag_ids. by destruct (names_id t id), (existsb _ ts).
  - intros a. rewrite IH3, kind5_tag_addrs. by destruct (names_addr t a), (existsb _ ts).
Qed.

Lemma hex64_length' s : isValidLowercaseHex s 64 = true -> String.length s = 64%nat.
Proof. unfold isValidLowercaseHex. by destruct (Nat.eqb_spec (String.length s) 64). Qed.

(** ** The keys a deletion request touches beside the rows *)

Section Sim.

Context {D I : Type} `{PebbleLaws D I, EventCodecLaws}.
Implicit Types (d : D) (L : list Event).

(** The key of the deletion record a tag writes. *)
Definition record_key (t : Tag) : option bytes :=
  match t with
  | name :: arg :: _ =>
      if String.eqb name "e" then
        if (String.length arg =? 64)%nat then
          match hexToBytes32 arg with Ok b => Some (makeDeletionKey prefixDeletedID b) | _ => None end
        else None
      else if String.eqb name "a" then Some (makeDeletionKey prefixDeletedAddr (hashAddress arg))
      else None
  | _ => None
  end.

(** The tag removes the event behind this address pointer. *)
Definition unpoints (d : D) (L : list Event) (ev : Event) (t : Tag) (k : bytes) : Prop :=
  exists arg rest x, t = "a"%string :: arg :: rest /\ k = makeAddrKey (hashAddress arg) /\ x ∈ L /\
    db_view d !! k = Some (idb x) /\ kind5_hits d ev t x = true.

(** A key that is not of a row, through a batch. *)
Definition touches (ops : list BatchOp) (value : bytes) (writes : bytes -> bool) (unpointed : bytes -> Prop) : Prop :=
  forall m k, other_row k (replicate 32 0) ->
    apply_batch ops m !! k = (if writes k then Some value else m !! k) \/
    (apply_batch ops m !! k = None /\ unpointed k).

Lemma touches_set ops value p h : (forall m k, other_row k (replicate 32 0) -> apply_batch ops m !! k = m !! k) ->
  touches (BatchSet (makeDeletionKey p h) value :: ops) value (fun k => bool_decide (Some (makeDeletionKey p h) = Some k)) (fun _ => False).
Proof.
  intros Hops m k Hk. left. rewrite apply_batch_cons, Hops by done. cbn [apply_op].
  case_bool_decide as Heq; [injection Heq as ->; apply lookup_insert_eq|]. apply lookup_insert_ne. congruence.
Qed.

Lemma touches_app ops1 ops2 value w1 w2 u1 u2 : touches ops1 value w1 u1 -> touches ops2 value w2 u2 ->
  (forall k, u1 k -> w2 k = false) ->
  touches (ops1 ++ ops2) value (fun k => w1 k || w2 k) (fun k => u1 k \/ u2 k).
Proof.
  intros H1' H2' Hd m k Hk. rewrite apply_batch_app. destruct (H2' (apply_batch ops1 m) k Hk) as [E2|[E2 Hu]]; [|auto].
  rewrite E2. destruct (H1' m k Hk) as [E1|[E1 Hu]].
  - left. rewrite E1. by destruct (w1 k), (w2 k).
  - right. rewrite Hd by done. auto.
Qed.

(** Deletion keys and address keys differ. *)
Lemma addr_key_not_record h p h' : p = prefixDeletedID \/ p = prefixDeletedAddr -> makeAddrKey h <> makeDeletionKey p h'.
Proof. intros Hp Heq. injection Heq as Heq _. unfold prefixAddr, prefixDeletedID, prefixDeletedAddr in *. lia. Qed.

Lemma record_key_prefix t k : record_key t = Some k -> exists p h, (p = prefixDeletedID \/ p = prefixDeletedAddr) /\ k = makeDeletionKey p h.
Proof.
  destruct t as [|name [|arg t]]; [done..|]. cbn [record_key]. destruct (String.eqb name "e").
  - destruct (_ =? 64)%nat; [|done]. destruct (hexToBytes32 arg); intros; simplify_eq; eauto.
  - destruct (String.eqb name "a"); intros; simplify_eq; eauto.
Qed.

Lemma deletes_other d L ib ops m k : rows_ok (db_view d) L -> length ib = 32%nat ->
  deleteEventFromBatch d (live ib) = Ok ops -> other_row k (replicate 32 0) -> apply_batch ops m !! k = m !! k.
Proof.
  intros Hr Hl Hd Hk. destruct (deleteEventFromBatch_Ok d L ib ops Hr Hl Hd) as (r & Ha & ->).
  destruct r as [e|]; [|done]. apply delete_rows_other; [|done]. by apply (ro_events _ _ Hr e), Ha.
Qed.

Lemma kind5_tag_touches d L ev value t ops : rows_ok (db_view d) L ->
  (forall arg rest, t = "a"%string :: arg :: rest -> closed_intact D I) ->
  kind5_tag_ops d ev value t = Ok ops ->
  touches ops value (fun k => bool_decide (record_key t = Some k)) (unpoints d L ev t).
Proof.
  intros Hr Hclosed Hops. destruct t as [|name [|arg t]]; [injection Hops as <-; intros m k _; by left..|].
  cbn [kind5_tag_ops] in Hops. destruct (String.eqb_spec name "e") as [->|Hne].
  - unfold kind5_e in Hops. destruct (Nat.eqb_spec (String.length arg) 64) as [Hl|Hl]; cbn [negb] in Hops.
    2: { injection Hops as <-. intros m k _. left. unfold record_key. by rewrite String.eqb_refl, (proj2 (Nat.eqb_neq _ _) Hl). }
    apply bind_Ok in Hops as (ib & Hib & Hops). pose proof (hexToBytes32_length _ _ Hib) as Hlen.
    apply bind_Ok in Hops as (r & _ & Hops). apply bind_Ok in Hops as (dels & Hdels & Hops). injection Hops as <-.
    assert (Hkey : record_key ("e"%string :: arg :: t) = Some (makeDeletionKey prefixDeletedID ib)).
    { unfold record_key. by rewrite String.eqb_refl, (proj2 (Nat.eqb_eq _ _) Hl), Hib. }
    rewrite Hkey. intros m k Hk. left. destruct (touches_set dels value prefixDeletedID ib) with (m := m) (k := k) as [E|[_ []]]; [|done|exact E].
    intros m' k' Hk'. destruct r as [e|]; [|by injection Hdels as <-].
    destruct (_ && _); [|by injection Hdels as <-]. by eapply deletes_other.
  - destruct (String.eqb_spec name "a") as [->|Hna]; [|injection Hops as <-; intros m k _; left; cbn;
      by rewrite (proj2 (String.eqb_neq _ _) Hne), (proj2 (String.eqb_neq _ _) Hna)].
    unfold kind5_a in Hops. apply bind_Ok in Hops as (r & Hget%get_value_Ok & Hops).
    apply bind_Ok in Hops as (dels & Hdels & Hops). injection Hops as <-.
    change (record_key ("a"%string :: arg :: t)) with (Some (makeDeletionKey prefixDeletedAddr (hashAddress arg))).
    assert (Hnone : dels = [] -> touches (BatchSet (makeDeletionKey prefixDeletedAddr (hashAddress arg)) value :: dels) value
      (fun k => bool_decide (Some (makeDeletionKey prefixDeletedAddr (hashAddress arg)) = Some k)) (unpoints d L ev ("a"%string :: arg :: t))).
    { intros -> m k Hk. left. by destruct (touches_set [] value prefixDeletedAddr (hashAddress arg) (fun m k _ => eq_refl) m k Hk) as [E|[_ []]]. }
    destruct r as [ib|]; [|injection Hdels as <-; by apply Hnone]. pose proof (addr_value _ _ _ _ Hr Hget) as Hlen. cbv zeta in Hdels.
    rewrite (deleteEventFromBatch_closed d ib), (Hclosed arg t eq_refl) in Hdels by by apply (Hclosed arg t).
    apply bind_Ok in Hdels as (r & Hev%wrap_err_Ok & Hdels). pose proof (get_event_Ok _ _ _ _ _ Hr Hlen Hev) as Ha.
    destruct r as [e|]; [|injection Hdels as <-; by apply Hnone].
    destruct (String.eqb (ev_Pubkey e) (ev_Pubkey ev) && negb (After (ev_CreatedAt e) (ev_CreatedAt ev))) eqn:E;
      [|injection Hdels as <-; by apply Hnone].
    apply bind_Ok in Hdels as (ops & Hd%wrap_err_Ok & Hdels). injection Hdels as <-.
    intros m k Hk. rewrite app_comm_cons, apply_batch_app. cbn [apply_batch foldl apply_op].
    destruct (decide (k = makeAddrKey (hashAddress arg))) as [->|Hne'].
    + right. split; [apply lookup_delete_eq|]. exists arg, t, e. split_and!; [done|done|apply Ha| |].
      * rewrite Hget. f_equal. symmetry. apply Ha.
      * cbn [kind5_hits]. change (String.eqb "a" "e") with false. change (String.eqb "a" "a") with true. cbv beta iota.
        rewrite E, Hget. destruct Ha as [_ ->]. by rewrite bool_decide_true.
    + left. rewrite lookup_delete_ne by done. change (foldl apply_op (apply_op m ?o) ops) with (apply_batch (o :: ops) m).
      destruct (touches_set ops value prefixDeletedAddr (hashAddress arg)) with (m := m) (k := k) as [E'|[_ []]]; [|done|exact E'].
      intros m' k' Hk'. by eapply deletes_other.
Qed.

Lemma kind5_touches d L ev value ts ops : rows_ok (db_view d) L ->
  (forall arg rest, ("a"%string :: arg :: rest) ∈ ts -> closed_intact D I) -> kind5_ops d ev value ts = Ok ops ->
  touches ops value (fun k => existsb (fun t => bool_decide (record_key t = Some k)) ts)
    (fun k => exists t, t ∈ ts /\ unpoints d L ev t k).
Proof.
  intros Hr. revert ops. induction ts as [|t ts IH]; intros ops Hclosed Hops; [injection Hops as <-; intros m k _; by left|].
  cbn [kind5_ops] in Hops. apply bind_Ok in Hops as (ops1 & H1' & Hops). apply bind_Ok in Hops as (ops2 & H2' & Hops).
  injection Hops as <-.
  assert (Ht1 : touches ops1 value (fun k => bool_decide (record_key t = Some k)) (unpoints d L ev t)).
  { apply kind5_tag_touches; [done| |done]. intros arg rest ->. apply (Hclosed arg rest). by left. }
  assert (Hclosed' : forall arg rest, ("a"%string :: arg :: rest) ∈ ts -> closed_intact D I).
  { intros arg rest Hin. apply (Hclosed arg rest). by right. }
  pose proof (touches_app _ _ _ _ _ _ _ Ht1 (IH ops2 Hclosed' H2')) as Happ. intros m k Hk.
  destruct (Happ) with (m := m) (k := k) as [E|[E [Hu|(t' & Ht' & Hu)]]]; [| |left; exact E|right..].
  - intros k' (arg & rest & x & _ & -> & _). apply not_true_iff_false. intros (t' & _ & Heq%bool_decide_eq_true)%existsb_exists.
    apply record_key_prefix in Heq as (p & h & Hp & Heq). by eapply addr_key_not_record.
  - done.
  - split; [done|]. exists t. split; [by left|done].
  - split; [done|]. exists t'. split; [by right|done].
Qed.

(** ** Vetted events *)

Record vetting (vetted : Event -> Prop) (known : string -> Prop) : Prop := {
  vt_ok : forall e, vetted e -> store_ok D I e;
  vt_ids : forall e e', vetted e -> vetted e' -> ev_ID e = ev_ID e' -> e = e';
  vt_hash : forall a b, known a -> known b -> hashAddress a = hashAddress b -> a = b;
  vt_addr : forall e, vetted e -> known (address e);
  vt_e : forall e arg rest, vetted e -> ev_Kind e = 5 -> ("e"%string :: arg :: rest) ∈ tags e ->
    String.length arg = 64%nat -> isValidLowercaseHex arg 64 = true /\ arg <> ev_ID e;
  vt_a : forall e arg rest, vetted e -> ev_Kind e = 5 -> ("a"%string :: arg :: rest) ∈ tags e ->
    known arg /\ arg <> ""
}.

Context (vetted : Event -> Prop) (known : string -> Prop) (Hvet : vetting vetted known).

(** ** Corresponding states *)

Definition rec_of (r : deletionRecord) : deletionRecordData :=
  mkDeletionRecordData (dr_Pubkey r) (Unix (dr_CreatedAt r)).

Record corresponds (d : D) (L : list Event) (s : InMemoryStorage) : Prop := {
  co_rows : rows_ok (db_view d) L;
  co_events : forall e, e ∈ L <-> e ∈ events s;
  co_wf : storage_wf s;
  co_vetted : forall e, e ∈ L -> vetted e;
  co_ids : forall id, isValidLowercaseHex id 64 = true ->
    id_record d (id_bytes id) = rec_of <$> deletedIDs s !! id;
  co_addrs : forall a, known a -> addr_record d a = rec_of <$> deletedAddrs s !! a;
  co_times : forall a r, deletedAddrs s !! a = Some r -> exists k, event_ok k /\ dr_CreatedAt r = ev_CreatedAt k;
  co_pointed : forall e, e ∈ L -> has_address e = true ->
    db_view d !! makeAddrKey (hashAddress (address e)) = Some (idb e);
  co_pointer : forall a ib, known a -> db_view d !! makeAddrKey (hashAddress a) = Some ib ->
    exists e, vetted e /\ idb e = ib /\ address e = a
}.

Lemma hashAddress_length a : length (hashAddress a) = 32%nat.
Proof. apply sha256_length. Qed.

Lemma addr_key_inj a b : known a -> known b ->
  makeAddrKey (hashAddress a) = makeAddrKey (hashAddress b) -> a = b.
Proof.
  intros Ha Hb Heq. unfold makeAddrKey in Heq. rewrite !fit_32 in Heq by apply hashAddress_length.
  apply (vt_hash _ _ Hvet a b Ha Hb). by apply (f_equal tail) in Heq.
Qed.

Lemma record_key_inj p p' h h' : length h = 32%nat -> length h' = 32%nat ->
  makeDeletionKey p h = makeDeletionKey p' h' -> p = p' /\ h = h'.
Proof. intros Hh Hh'. unfold makeDeletionKey. rewrite !fit_32 by done. by intros [= -> ->]. Qed.

Lemma vetted_event_ok e : vetted e -> event_ok e.
Proof. intros He. apply (vt_ok _ _ Hvet e He). Qed.

Lemma vetted_idb e e' : vetted e -> vetted e' -> idb e = idb e' -> e = e'.
Proof.
  intros He He' Heq. apply (vt_ids _ _ Hvet); [done..|]. by apply idb_same; [apply vetted_event_ok..|].
Qed.

(** The event an address pointer leads to has that address. *)
Lemma pointed_address d L s a x : corresponds d L s -> known a -> x ∈ L ->
  db_view d !! makeAddrKey (hashAddress a) = Some (idb x) <-> has_address x = true /\ address x = a \/
    (has_address x = false /\ db_view d !! makeAddrKey (hashAddress a) = Some (idb x)).
Proof.
  intros Hc Ha Hx. split; [|intros [[Hh <-]|[_ ?]]; [by eapply co_pointed|done]]. intros Hp.
  destruct (has_address x) eqn:Hh; [left|by right]. split; [done|].
  destruct (co_pointer _ _ _ Hc a _ Ha Hp) as (e & He & Hid & <-).
  by rewrite (vetted_idb e x He (co_vetted _ _ _ Hc x Hx) Hid).
Qed.

Lemma pointer_address d L s a x : corresponds d L s -> known a -> x ∈ L ->
  db_view d !! makeAddrKey (hashAddress a) = Some (idb x) -> address x = a.
Proof.
  intros Hc Ha Hx Hp. destruct (co_pointer _ _ _ Hc a _ Ha Hp) as (e & He & Hid & <-).
  by rewrite (vetted_idb e x He (co_vetted _ _ _ Hc x Hx) Hid).
Qed.

(** ** Deletion requests *)

Lemma hex_id arg x : isValidLowercaseHex arg 64 = true -> event_ok x -> hexToBytes32 arg = Ok (idb x) <-> ev_ID x = arg.
Proof.
  intros Hh Hx. destruct (id_bytes_ok arg Hh) as (-> & _). split; [|by intros <-].
  intros [= Heq]. symmetry. apply id_bytes_inj in Heq; [done|done|apply Hx].
Qed.

Lemma hits_agree d L s ev t x : corresponds d L s -> vetted ev -> ev_Kind ev = 5 -> t ∈ tags ev -> x ∈ L ->
  kind5_hits d ev t x = mem_hits ev t x.
Proof.
  intros Hc Hev Hk Ht Hx. pose proof (vetted_event_ok x (co_vetted _ _ _ Hc x Hx)) as Hok.
  destruct t as [|name [|arg t]]; [done..|]. unfold kind5_hits, mem_hits.
  destruct (String.eqb_spec name "e") as [->|_]; [|destruct (String.eqb_spec name "a") as [->|_]; [|done]].
  - assert (Heq : (String.length arg =? 64)%nat && match hexToBytes32 arg with Ok b => bool_decide (idb x = b) | _ => false end
                  = String.eqb (ev_ID x) arg).
    { destruct (Nat.eqb_spec (String.length arg) 64) as [Hl|Hl]; cbn [andb].
      - destruct (vt_e _ _ Hvet ev arg t Hev Hk Ht Hl) as [Hh _]. pose proof (hex_id arg x Hh Hok) as Hx'.
        destruct (id_bytes_ok arg Hh) as (Hb & _). rewrite Hb in *. apply eq_true_iff_eq.
        rewrite bool_decide_eq_true, String.eqb_eq, <-Hx'. split; [by intros ->|by intros [= ->]].
      - symmetry. apply String.eqb_neq. intros <-. by apply Hl, hex64_length', Hok. }
    rewrite Heq. by destruct (String.eqb (ev_ID x) arg), (String.eqb (ev_Pubkey x) (ev_Pubkey ev)), (ev_Kind x =? 5).
  - destruct (vt_a _ _ Hvet ev arg t Hev Hk Ht) as [Hkn Hne]. rewrite andb_assoc. f_equal. f_equal.
    apply eq_true_iff_eq. rewrite bool_decide_eq_true, String.eqb_eq. split.
    + by eapply pointer_address.
    + intros <-. eapply co_pointed; [done|done|]. by apply has_address_spec.
Qed.

Lemma decode_deletion_value ev : event_ok ev ->
  decode_record (Some (deletion_value (id_bytes (ev_Pubkey ev)) ev)) = Some (rec_of (mem_record ev)).
Proof.
  intros He. destruct (id_bytes_ok _ (eo_Pubkey ev He)) as (_ & Hl & _ & Hhex). unfold decode_record, deletion_value.
  rewrite fit_32, length_app, Hl by done. change ((32 + length (be64 (wrap_uint64 (Unix (ev_CreatedAt ev)))))%nat =? 40)%nat with true.
  cbn [negb]. rewrite take_app_length', drop_app_length' by done. rewrite Hhex, be64_decode_be64 by apply wrap_uint64_range.
  unfold rec_of, mem_record. cbn [dr_Pubkey dr_CreatedAt]. f_equal. f_equal.
  pose proof (wrap_int64_range (t_sec (ev_CreatedAt ev) - unixToInternal)) as Hu. fold (Unix (ev_CreatedAt ev)) in Hu.
  clear -Hu. int_lia.
Qed.

Lemma id_bytes_length s : isValidLowercaseHex s 64 = true -> length (id_bytes s) = 32%nat.
Proof. intros Hs. by destruct (id_bytes_ok s Hs) as (_ & ? & _). Qed.

Lemma existsb_bool_ext {A} (p q : A -> bool) l : (forall x, x ∈ l -> p x = q x) -> existsb p l = existsb q l.
Proof.
  induction l as [|x l IH]; intros Hp; [done|]. cbn [existsb]. rewrite Hp by by left. f_equal. apply IH.
  intros y Hy. apply Hp. by right.
Qed.

Lemma record_names_id ev t id : vetted ev -> ev_Kind ev = 5 -> t ∈ tags ev -> isValidLowercaseHex id 64 = true ->
  bool_decide (record_key t = Some (makeDeletionKey prefixDeletedID (id_bytes id))) = names_id t id.
Proof.
  intros Hev Hk Ht Hid. apply eq_true_iff_eq. rewrite bool_decide_eq_true. pose proof (id_bytes_length id Hid) as Hl.
  destruct t as [|name [|arg t]]; [done..|]. cbn [record_key names_id].
  destruct (String.eqb_spec name "e") as [->|_]; cbn [andb].
  - rewrite String.eqb_eq. split.
    + destruct (Nat.eqb_spec (String.length arg) 64) as [Ha|]; [|done].
      destruct (vt_e _ _ Hvet ev arg t Hev Hk Ht Ha) as [Hh _]. destruct (id_bytes_ok arg Hh) as (-> & Hla & _).
      intros Heq%(inj Some). apply record_key_inj in Heq as [_ Heq]; [|done..]. by apply id_bytes_inj in Heq.
    + intros ->. rewrite (proj2 (Nat.eqb_eq _ _) (hex64_length' id Hid)). by destruct (id_bytes_ok id Hid) as (-> & _).
  - destruct (String.eqb name "a"); [|done]. split; [|done]. intros Heq%(inj Some).
    apply record_key_inj in Heq as [Heq _]; [done|apply hashAddress_length|done].
Qed.

Lemma record_names_addr ev t a : vetted ev -> ev_Kind ev = 5 -> t ∈ tags ev -> known a ->
  bool_decide (record_key t = Some (makeDeletionKey prefixDeletedAddr (hashAddress a))) = names_addr t a.
Proof.
  intros Hev Hk Ht Ha. apply eq_true_iff_eq. rewrite bool_decide_eq_true.
  destruct t as [|name [|arg t]]; [done..|]. cbn [record_key names_addr].
  destruct (String.eqb_spec name "e") as [->|_]; cbn [andb negb].
  - split; [|done]. destruct (Nat.eqb_spec (String.length arg) 64) as [Hl|]; [|done].
    destruct (hexToBytes32 arg) as [b| |] eqn:E; [|done..]. apply hexToBytes32_length in E. intros Heq%(inj Some).
    apply record_key_inj in Heq as [Heq _]; [done|done|apply hashAddress_length].
  - destruct (String.eqb_spec name "a") as [->|_]; [|done]. cbn [andb]. rewrite String.eqb_eq. split; [|by intros ->].
    intros Heq. destruct (vt_a _ _ Hvet ev arg t Hev Hk Ht) as [Hkn _]. apply (vt_hash _ _ Hvet arg a Hkn Ha).
    apply (inj Some) in Heq. by apply record_key_inj in Heq as [_ Heq]; [|apply hashAddress_length..].
Qed.

Lemma deletion_key_other' p h : p = prefixDeletedID \/ p = prefixDeletedAddr -> other_row (makeDeletionKey p h) (replicate 32 0).
Proof. apply deletion_key_other. Qed.

Lemma addr_key_other h : other_row (makeAddrKey h) (replicate 32 0).
Proof. left. unfold makeAddrKey. eauto. Qed.

(** What a processed deletion request leaves of the keys beside the rows. *)
Lemma processKind5_touches d L ev d' : rows_ok (db_view d) L -> event_ok ev -> (names_address ev -> closed_intact D I) -> processKind5 d ev = (d', Ok ()) ->
  forall k, other_row k (replicate 32 0) ->
    db_view d' !! k = (if existsb (fun t => bool_decide (record_key t = Some k)) (tags ev)
                       then Some (deletion_value (id_bytes (ev_Pubkey ev)) ev) else db_view d !! k) \/
    (db_view d' !! k = None /\ exists t, t ∈ tags ev /\ unpoints d L ev t k).
Proof.
  intros Hr Hev Hclosed Hp k Hk. unfold processKind5 in Hp. destruct (id_bytes_ok _ (eo_Pubkey ev Hev)) as (Hpk & _).
  rewrite Hpk in Hp. cbn [mbind Res_bind] in Hp. destruct (kind5_ops _ _ _ _) as [ops| |] eqn:E; [|done..].
  destruct (commit_cases _ _ _ _ _ Hp) as [[-> _]|[_ [err Herr]]]; [|done].
  apply (kind5_touches d L ev _ _ ops Hr); [|done|done].
  intros arg rest Hin. apply Hclosed. by exists arg, rest.
Qed.

(** The records after a processed deletion request. *)
Lemma processKind5_record d L ev d' p h : rows_ok (db_view d) L -> event_ok ev -> (names_address ev -> closed_intact D I) ->
  p = prefixDeletedID \/ p = prefixDeletedAddr -> processKind5 d ev = (d', Ok ()) ->
  decode_record (db_view d' !! makeDeletionKey p h) =
  if existsb (fun t => bool_decide (record_key t = Some (makeDeletionKey p h))) (tags ev)
  then Some (rec_of (mem_record ev)) else decode_record (db_view d !! makeDeletionKey p h).
Proof.
  intros Hr Hev Hclosed Hp Hk5. destruct (processKind5_touches d L ev d' Hr Hev Hclosed Hk5 _ (deletion_key_other' p h Hp)) as [->|[_ Hu]].
  - destruct (existsb _ _); [by apply decode_deletion_value|done].
  - destruct Hu as (t & _ & arg & rest & x & _ & Heq & _). symmetry in Heq. by apply addr_key_not_record in Heq.
Qed.

(** The pointers after it. *)
Lemma processKind5_pointer d L ev d' h : rows_ok (db_view d) L -> event_ok ev -> (names_address ev -> closed_intact D I) -> processKind5 d ev = (d', Ok ()) ->
  db_view d' !! makeAddrKey h = db_view d !! makeAddrKey h \/
  (db_view d' !! makeAddrKey h = None /\ exists t, t ∈ tags ev /\ unpoints d L ev t (makeAddrKey h)).
Proof.
  intros Hr Hev Hclosed Hk5. destruct (processKind5_touches d L ev d' Hr Hev Hclosed Hk5 _ (addr_key_other h)) as [->|]; [left|by right].
  destruct (existsb _ _) eqn:E; [|done]. apply existsb_exists in E as (t & _ & Ht%bool_decide_eq_true).
  apply record_key_prefix in Ht as (p & h' & Hp & Heq). by apply addr_key_not_record in Heq.
Qed.

Lemma elem_of_kind5_left_iff d ev L x :
  x ∈ kind5_left d ev L <-> x ∈ L /\ existsb (fun t => kind5_hits d ev t x) (tags ev) = false.
Proof. unfold kind5_left. by rewrite list_elem_of_In, filter_In, <-list_elem_of_In, negb_true_iff. Qed.

Lemma corresponds_kind5 d L s ev d' : corresponds d L s -> vetted ev -> ev_Kind ev = 5 ->
  processKind5 d ev = (d', Ok ()) -> rows_ok (db_view d') (kind5_left d ev L) ->
  corresponds d' (kind5_left d ev L) (Storage.processKind5 s ev).
Proof.
  intros Hc Hev Hk Hp Hr'. pose proof (vetted_event_ok ev Hev) as Hok. pose proof (co_rows _ _ _ Hc) as Hr.
  destruct (mem_kind5 ev (tags ev) s) as (Hme & Hmi & Hma). change (fold_left (kind5_tag ev) (tags ev) s) with (Storage.processKind5 s ev) in *.
  assert (Hsub : forall x, x ∈ kind5_left d ev L -> x ∈ L) by (intros x; apply elem_of_kind5_left).
  pose proof (proj2 (vt_ok _ _ Hvet ev Hev) Hk) as Hclosed.
  constructor; [done|..].
  - intros x. rewrite Hme, elem_of_kind5_left_iff, <-(co_events _ _ _ Hc). apply and_iff_compat_l'. intros Hx.
    erewrite existsb_bool_ext; [done|]. intros t Ht. by eapply hits_agree.
  - by apply processKind5_wf, Hc.
  - intros x Hx. by apply (co_vetted _ _ _ Hc), Hsub.
  - intros id Hid. unfold id_record. rewrite (processKind5_record d L ev d'), Hmi by auto.
    rewrite (existsb_bool_ext _ (fun t => names_id t id)) by (intros t Ht; by apply record_names_id with (ev := ev)).
    destruct (existsb _ _); [done|]. by apply (co_ids _ _ _ Hc).
  - intros a Ha. unfold addr_record. rewrite (processKind5_record d L ev d'), Hma by auto.
    rewrite (existsb_bool_ext _ (fun t => names_addr t a)) by (intros t Ht; by apply record_names_addr with (ev := ev)).
    destruct (existsb _ _); [done|]. by apply (co_addrs _ _ _ Hc).
  - intros a r. rewrite Hma. destruct (existsb _ _); [intros [= <-]; by exists ev|]. apply (co_times _ _ _ Hc).
  - intros x [Hx Hnot]%elem_of_kind5_left_iff Ha. pose proof (co_pointed _ _ _ Hc x Hx Ha) as Hptr.
    destruct (processKind5_pointer d L ev d' (hashAddress (address x)) Hr Hok Hclosed Hp) as [->|[_ (t & Ht & Hu)]]; [done|].
    destruct Hu as (arg & rest & y & -> & Heq & Hy & Hpy & Hhit). rewrite Hptr in Hpy. injection Hpy as Hpy.
    apply vetted_idb in Hpy as <-; [|by apply (co_vetted _ _ _ Hc)..].
    exfalso. eapply not_true_iff_false; [exact Hnot|]. apply existsb_exists. eexists. split; [by apply list_elem_of_In|done].
  - intros a ib Ha Hptr. destruct (processKind5_pointer d L ev d' (hashAddress a) Hr Hok Hclosed Hp) as [Heq|[Heq _]].
    + rewrite Heq in Hptr. by apply (co_pointer _ _ _ Hc).
    + congruence.
Qed.

(** ** Writing an event *)

Lemma vetted_stored e : vetted e -> store_ok D I e.
Proof. apply (vt_ok _ _ Hvet). Qed.

Lemma write_record d L e ops L' p h : batch_writes d L e ops L' -> p = prefixDeletedID \/ p = prefixDeletedAddr ->
  apply_batch ops (db_view d) !! makeDeletionKey p h = db_view d !! makeDeletionKey p h.
Proof.
  intros Hw Hp. rewrite (bw_other _ _ _ _ _ Hw) by by apply deletion_key_other'.
  rewrite bool_decide_false; [by rewrite andb_false_r|]. intros Heq. symmetry in Heq. by apply addr_key_not_record in Heq.
Qed.

Lemma corresponds_write d L s e ops L' d' s' : corresponds d L s -> vetted e -> batch_writes d L e ops L' ->
  db_view d' = apply_batch ops (db_view d) -> storage_wf s' -> (forall x, x ∈ L' ++ [e] <-> x ∈ events s') ->
  deletedIDs s' = deletedIDs s -> deletedAddrs s' = deletedAddrs s ->
  (has_address e = true -> forall x, x ∈ L' -> address x <> address e) ->
  corresponds d' (L' ++ [e]) s'.
Proof.
  intros Hc He Hw Hv Hwf Hin Hids Haddrs Hfree.
  assert (Hsub : forall x, x ∈ L' -> x ∈ L).
  { intros x Hx. destruct (bw_left _ _ _ _ _ Hw) as [[-> _]|(old & _ & -> & _)]; [done|]. by apply elem_of_without in Hx as [? _]. }
  assert (Hptr : forall a, known a -> db_view d' !! makeAddrKey (hashAddress a) =
    if has_address e && bool_decide (a = address e) then Some (idb e) else db_view d !! makeAddrKey (hashAddress a)).
  { intros a Ha. rewrite Hv, (bw_other _ _ _ _ _ Hw) by apply addr_key_other.
    assert (bool_decide (makeAddrKey (hashAddress a) = makeAddrKey (hashAddress (address e))) = bool_decide (a = address e)) as ->; [|done].
    apply bool_decide_ext. split; [|by intros ->]. apply addr_key_inj; [done|by apply (vt_addr _ _ Hvet)]. }
  constructor.
  - rewrite Hv. apply Hw.
  - done.
  - done.
  - intros x [Hx| ->%list_elem_of_singleton]%elem_of_app; [|done]. by apply (co_vetted _ _ _ Hc), Hsub.
  - intros id Hid. unfold id_record. rewrite Hv, (write_record _ _ _ _ _ _ _ Hw), Hids by auto. by apply (co_ids _ _ _ Hc).
  - intros a Ha. unfold addr_record. rewrite Hv, (write_record _ _ _ _ _ _ _ Hw), Haddrs by auto. by apply (co_addrs _ _ _ Hc).
  - intros a r. rewrite Haddrs. apply (co_times _ _ _ Hc).
  - intros x Hx Ha. rewrite Hptr.
    2: { apply (vt_addr _ _ Hvet). apply elem_of_app in Hx as [Hx| ->%list_elem_of_singleton]; [by apply (co_vetted _ _ _ Hc), Hsub|done]. }
    apply elem_of_app in Hx as [Hx| ->%list_elem_of_singleton]; [|by rewrite Ha, bool_decide_true].
    destruct (has_address e) eqn:Hae; cbn [andb]; [|by apply (co_pointed _ _ _ Hc), Ha; apply Hsub].
    rewrite bool_decide_false by by apply Hfree. apply (co_pointed _ _ _ Hc); [by apply Hsub|done].
  - intros a ib Ha. rewrite Hptr by done. destruct (has_address e && bool_decide (a = address e)) eqn:E; [|by apply (co_pointer _ _ _ Hc)].
    apply andb_true_iff in E as [_ ->%bool_decide_eq_true]. intros [= <-]. by exists e.
Qed.

(** The event behind the pointer of an address. *)
Lemma replaced_by_address d L s e old : corresponds d L s -> vetted e -> has_address e = true ->
  old ∈ L -> db_view d !! makeAddrKey (hashAddress (address e)) = Some (idb old) -> address old = address e.
Proof. intros Hc He Ha Ho Hp. eapply pointer_address; [done|by apply (vt_addr _ _ Hvet)|done|done]. Qed.

Lemma replaced_by_none d L s e x : corresponds d L s -> has_address e = true -> replaced_by d L e (Some None) ->
  x ∈ L -> address x <> address e.
Proof.
  intros Hc Ha Hrep Hx Heq. assert (Hax : has_address x = true) by (apply has_address_spec; rewrite Heq; by apply has_address_spec).
  pose proof (co_pointed _ _ _ Hc x Hx Hax) as Hp. rewrite Heq in Hp. destruct Hrep as [Hn|(oid & Hn & Hno)].
  - congruence.
  - rewrite Hn in Hp. injection Hp as ->. by apply (Hno x Hx).
Qed.

(** After a write no other event has the address. *)
Lemma write_frees_address d L s e ops L' x : corresponds d L s -> vetted e -> batch_writes d L e ops L' ->
  has_address e = true -> x ∈ L' -> address x <> address e.
Proof.
  intros Hc He Hw Ha Hx. destruct (bw_left _ _ _ _ _ Hw) as [[-> Hrep]|(old & _ & -> & Hold & Hp & _)].
  - eapply replaced_by_none; eauto.
  - apply elem_of_without in Hx as [Hx Hne]. intros Heq. apply Hne.
    pose proof (replaced_by_address _ _ _ _ _ Hc He Ha Hold Hp) as Hao.
    f_equal. apply (sw_addresses s); [by apply Hc|by apply (co_events _ _ _ Hc)..| |congruence].
    rewrite Heq. by apply has_address_spec.
Qed.

(** ** Admission *)

Lemma id_deleted_agree d L s e : corresponds d L s -> vetted e -> peb_id_deleted d e <-> id_deleted s e.
Proof.
  intros Hc He. unfold peb_id_deleted, id_deleted, deletion_by, idb.
  rewrite (co_ids _ _ _ Hc) by apply (eo_ID e), (vetted_event_ok e He).
  destruct (deletedIDs s !! ev_ID e) as [r|]; cbn [fmap option_fmap option_map]; [|split; [naive_solver|by intros [? ?]]].
  destruct (String.eqb_spec (dr_Pubkey r) (ev_Pubkey e)) as [Hpk|Hpk]; split.
  - eauto.
  - intros _. by exists (rec_of r).
  - by intros (rec & [= <-] & ?).
  - by intros [? ?].
Qed.

Lemma addr_deleted_agree d L s e : corresponds d L s -> vetted e -> peb_addr_deleted d e <-> addr_deleted s e.
Proof.
  intros Hc He. unfold peb_addr_deleted, addr_deleted, deletion_by. apply and_iff_compat_l.
  rewrite (co_addrs _ _ _ Hc) by by apply (vt_addr _ _ Hvet).
  destruct (deletedAddrs s !! address e) as [r|] eqn:E; cbn [fmap option_fmap option_map]; [|naive_solver].
  destruct (co_times _ _ _ Hc _ _ E) as (k & Hk & Ht).
  assert (Haf : After (ev_CreatedAt e) (dr_CreatedAt r) = false <-> Unix (ev_CreatedAt e) <= Unix (dr_CreatedAt r)).
  { rewrite Ht, event_After, Z.ltb_ge; [done|by apply vetted_event_ok|done]. }
  destruct (String.eqb_spec (dr_Pubkey r) (ev_Pubkey e)) as [Hpk|Hpk]; split.
  - intros (rec & [= <-] & _ & Hle). exists r. by rewrite Haf.
  - intros (rec & [= <-] & Hle). exists (rec_of r). by rewrite <-Haf.
  - by intros (rec & [= <-] & ? & _).
  - by intros (rec & ? & _).
Qed.

Lemma admissible_agree d L s e : corresponds d L s -> vetted e ->
  peb_admissible d L e <-> admissible s e /\ eventType e <> EventTypeEphemeral.
Proof.
  intros Hc He. unfold peb_admissible, admissible. rewrite (id_deleted_agree d L s), (addr_deleted_agree d L s) by done.
  assert (Hin : (forall x, x ∈ L -> ev_ID x <> ev_ID e) <-> (forall x, x ∈ events s -> ev_ID x <> ev_ID e)).
  { split; intros Hx x Hx'; apply Hx; by apply (co_events _ _ _ Hc). }
  tauto.
Qed.

(** ** Store

    Every store that does not fail is one the in-memory storage makes, with the
    same result. *)

Lemma Storage_kind5_spared s e : vetted e -> ev_Kind e = 5 -> ~ id_deleted s e ->
  ~ id_deleted (Storage.processKind5 s e) e.
Proof.
  intros He Hk Hn. unfold id_deleted, deletion_by in *. destruct (mem_kind5 e (tags e) s) as (_ & Hmi & _).
  change (fold_left (kind5_tag e) (tags e) s) with (Storage.processKind5 s e) in Hmi. rewrite Hmi.
  destruct (existsb _ _) eqn:E; [|done]. exfalso. apply existsb_exists in E as (t & Ht%list_elem_of_In & Hname).
  pose proof (vetted_event_ok e He) as Hok. destruct t as [|name [|arg t]]; [done..|]. cbn [names_id] in Hname.
  apply andb_true_iff in Hname as [->%String.eqb_eq ->%String.eqb_eq].
  destruct (vt_e _ _ Hvet e (ev_ID e) t He Hk Ht) as [_ Hne]; [by apply hex64_length', Hok|done].
Qed.

(** An event that is refused in memory. *)
Lemma store_not_admissible s e : ~ (admissible s e /\ eventType e <> EventTypeEphemeral) -> store_event s e = (s, false).
Proof.
  intros Hn. destruct (decide (eventType e = EventTypeEphemeral)) as [Ht|Ht].
  - pose proof (store_event_outcome s e) as Hout. pose proof (ephemeral_no_address e Ht) as Ha.
    destruct (store_event s e) as [s' b]. cbn [fst snd] in Hout.
    destruct Hout; try done; try congruence; by rewrite kind5_regular in Ht.
  - apply store_event_rejected. tauto.
Qed.

Lemma store_event_kept s e old : storage_wf s -> admissible s e -> has_address e = true -> old ∈ events s ->
  address old = address e -> ~ ev_lt e old -> store_event s e = (s, false).
Proof.
  intros Hwf Hadm Ha Hold Hao Hlt. pose proof (store_event_outcome s e) as Hout.
  destruct (store_event s e) as [s' b]. cbn [fst snd] in Hout.
  destruct Hout as [|Hadm' Ht| |l1 e0 l2 Hadm' _ Hes Hae _ Hlt0|Hadm' Hk|Hadm' Hk|Hadm' _ _ Hfree]; [done..| | | |].
  - assert (e0 = old) as ->; [|done]. apply (sw_addresses s Hwf); [rewrite Hes; set_solver|done| |congruence].
    rewrite Hae. by apply has_address_spec.
  - apply kind5_no_address in Hk. by apply has_address_spec in Ha.
  - apply kind5_no_address in Hk. by apply has_address_spec in Ha.
  - by destruct (Hfree Ha old Hold).
Qed.

Lemma replaced_elems L l1 old l2 e x : distinct_ids (l1 ++ old :: l2) -> (forall y, y ∈ L <-> y ∈ l1 ++ old :: l2) ->
  x ∈ without old L ++ [e] <-> x ∈ l1 ++ e :: l2.
Proof.
  intros Hd Hin. assert (Hold : x ∈ l1 \/ x ∈ l2 -> ev_ID x <> ev_ID old).
  { intros Hx. unfold distinct_ids in Hd. rewrite fmap_app, fmap_cons in Hd.
    apply NoDup_app in Hd as (_ & Hd1 & [Hd2 _]%NoDup_cons).
    destruct Hx as [Hx|Hx]; intros Heq; [apply (Hd1 (ev_ID x)); [by apply list_elem_of_fmap_2|rewrite Heq; by left]|].
    apply Hd2. rewrite <-Heq. by apply list_elem_of_fmap_2. }
  rewrite elem_of_app, elem_of_without, Hin, list_elem_of_singleton, !elem_of_app, !elem_of_cons.
  assert (x = old -> ev_ID x = ev_ID old) by by intros ->. naive_solver.
Qed.

Lemma simulate_stored d L s e ops L' d' : corresponds d L s -> vetted e -> peb_admissible d L e -> ev_Kind e <> 5 ->
  batch_writes d L e ops L' -> db_view d' = apply_batch ops (db_view d) ->
  exists s', Storage.Store s (Some e) = (s', Ok true) /\ corresponds d' (L' ++ [e]) s'.
Proof.
  intros Hc He Hadm Hk Hw Hv. apply (admissible_agree d L s e Hc He) in Hadm as [Hadm Ht].
  pose proof (co_wf _ _ _ Hc) as Hwf. pose proof (Store_wf s (Some e) Hwf) as Hwf'.
  pose proof (fun Ha x => write_frees_address d L s e ops L' x Hc He Hw Ha) as Hfree.
  pose proof (store_event_outcome s e) as Hout. cbn [Storage.Store] in *.
  destruct (store_event s e) as [s' b]. cbn [fst snd] in *.
  assert (Hgoal : b = true -> deletedIDs s' = deletedIDs s -> deletedAddrs s' = deletedAddrs s ->
    (forall x, x ∈ L' ++ [e] <-> x ∈ events s') ->
    exists s'0, (s', Ok b) = (s'0, Ok true) /\ corresponds d' (L' ++ [e]) s'0).
  { intros -> Hi Ha Hin. exists s'. split; [done|]. by eapply corresponds_write. }
  destruct Hout as [|_ Ht'|e0 _ Ha He0 Hae Hnlt|l1 e0 l2 _ Ha Hes Hae Hl1 Hlt| | |_ _ _ Hno]; [done|done| | |done|done|].
  - (* an older event at the address that is kept *)
    exfalso. destruct (bw_left _ _ _ _ _ Hw) as [[-> Hrep]|(old & _ & _ & Hold & Hp & old' & [Hold' Hid] & Hlt)].
    + apply (Hfree Ha e0); [by apply (co_events _ _ _ Hc)|done].
    + assert (old' = old) as -> by (apply vetted_idb; [by apply (co_vetted _ _ _ Hc)..|done]).
      assert (e0 = old) as ->; [|done]. pose proof (replaced_by_address _ _ _ _ _ Hc He Ha Hold Hp) as Hao.
      apply (sw_addresses s Hwf); [done|by apply (co_events _ _ _ Hc)|rewrite Hae; by apply has_address_spec|congruence].
  - apply Hgoal; [done..|]. intros x. cbn [events set_events].
    assert (He0 : e0 ∈ events s) by (rewrite Hes; set_solver).
    destruct (bw_left _ _ _ _ _ Hw) as [[-> Hrep]|(old & _ & -> & Hold & Hp & _)].
    + destruct (Hfree Ha e0); [by apply (co_events _ _ _ Hc)|done].
    + assert (e0 = old) as ->.
      { pose proof (replaced_by_address _ _ _ _ _ Hc He Ha Hold Hp) as Hao.
        apply (sw_addresses s Hwf); [done|by apply (co_events _ _ _ Hc)|rewrite Hae; by apply has_address_spec|congruence]. }
      apply replaced_elems; [rewrite <-Hes; apply Hwf|]. intros y. rewrite <-Hes. apply Hc.
  - apply Hgoal; [done..|]. intros x. cbn [events set_events].
    destruct (bw_left _ _ _ _ _ Hw) as [[-> _]|(old & Ha & _ & Hold & Hp & _)].
    + rewrite !elem_of_app. by rewrite (co_events _ _ _ Hc).
    + destruct (Hno Ha old); [by apply (co_events _ _ _ Hc)|]. by eapply replaced_by_address.
Qed.

Lemma simulate_kind5 d L s e d1 ops d' : corresponds d L s -> vetted e -> peb_admissible d L e -> ev_Kind e = 5 ->
  processKind5 d e = (d1, Ok ()) -> batch_writes d1 (kind5_left d e L) e ops (kind5_left d e L) ->
  db_view d' = apply_batch ops (db_view d1) ->
  exists s', Storage.Store s (Some e) = (s', Ok true) /\ corresponds d' (kind5_left d e L ++ [e]) s'.
Proof.
  intros Hc He Hadm Hk Hp Hw Hv. apply (admissible_agree d L s e Hc He) in Hadm as [Hadm Ht].
  pose proof (Store_wf s (Some e) (co_wf _ _ _ Hc)) as Hwf'.
  destruct (processKind5_rows d L e d1 (Ok ()) (co_rows _ _ _ Hc) (proj2 (vt_ok _ _ Hvet e He) Hk) Hp) as [[_ Hr1]|[? _]]; [|done].
  pose proof (corresponds_kind5 d L s e d1 Hc He Hk Hp Hr1) as Hc1.
  pose proof (store_event_outcome s e) as Hout. cbn [Storage.Store] in *.
  destruct (store_event s e) as [s' b]. cbn [fst snd] in *. pose proof (kind5_no_has_address e Hk) as Hna.
  destruct Hout as [|? Ht'| |l1 e0 l2 ? Ha|_ _ Hself|_ _ Hself|]; try done; [congruence..| |].
  - by destruct (Storage_kind5_spared s e He Hk (proj1 Hadm)).
  - eexists. split; [done|]. eapply corresponds_write; [exact Hc1|done..| |done|done|congruence].
    intros x. cbn [events set_events]. rewrite !elem_of_app. by rewrite (co_events _ _ _ Hc1).
Qed.

Lemma Store_simulates_in_memory d L s e d' b : corresponds d L s -> vetted e -> Store d (Some e) = (d', Ok b) ->
  exists L' s', Storage.Store s (Some e) = (s', Ok b) /\ corresponds d' L' s'.
Proof.
  intros Hc He Hs.
  destruct (Store_pebble_outcome d L e d' (Ok b) (co_rows _ _ _ Hc) (vetted_stored e He) Hs) as (L' & Hout & _).
  inversion Hout as [Hn|Hadm Ha Hrep|? ops ? Hadm Hk Hw Hv|d1 ? ops Hadm Hk Hp Hw Hv|]; subst; try done.
  - exists L', s. split; [|done]. cbn [Storage.Store]. rewrite store_not_admissible; [done|].
    by rewrite <-(admissible_agree d' L' s e Hc He).
  - exists L', s. split; [|done]. cbn [Storage.Store]. apply (admissible_agree d' L' s e Hc He) in Hadm as [Hadm _].
    destruct Hrep as (old & Hold & Hp & Hlt). rewrite (store_event_kept s e old); [done|by apply Hc|done..| | |done].
    + by apply (co_events _ _ _ Hc).
    + by eapply replaced_by_address.
  - eexists. by eapply simulate_stored.
  - eexists. by eapply simulate_kind5.
Qed.

End Sim.
Arguments vetting D I {_ _ _ _} vetted known.
