(* ===== verification/Json.v ===== *)
(** * JSON text (encoding/json/jsontext, encoding/json/v2)

    The part of the standard library's JSON packages that the message, event and
    filter codecs use: quoting a string, printing a value without white space, and
    the strict reader, which rejects invalid UTF-8, lone surrogates and duplicate
    member names.  Printing and reading back is the identity, and the reader's
    fuel never runs out.

    The reader's nesting limit of 10000 is left out: every document the codecs
    accept is nested less than ten deep, so the limit only changes the text of an
    error. *)

From S2P Require Import Prelude GoTime Text.

(** ** Values *)

(** A number keeps its literal, an object the order of its members. *)
Inductive json : Type :=
| JNull
| JBool (b : bool)
| JNum (raw : string)
| JStr (s : string)
| JArr (l : list json)
| JObj (l : list (string * json)).

(** ** UTF-8 *)

(** [utf8.Valid]: every byte belongs to a valid encoding. *)
Fixpoint utf8_valid (n : nat) (l : list ascii) : bool :=
  match n, l with
  | _, [] => true
  | O, _ => false
  | S n, c :: rest =>
      if code c <? 128 then utf8_valid n rest
      else (1 <? rune_len c rest)%nat && utf8_valid n (drop (rune_len c rest - 1) rest)
  end.

Definition utf8_ok (s : string) : bool := utf8_valid (String.length s) (chars s).

Definition chr (z : Z) : ascii := ascii_of_N (Z.to_N z).

(** [utf8.AppendRune], for a code point that is not a surrogate. *)
Definition encode_rune (r : Z) : list ascii :=
  if r <? 128 then [chr r]
  else if r <? 2048 then [chr (192 + r / 64); chr (128 + r mod 64)]
  else if r <? 65536 then [chr (224 + r / 4096); chr (128 + r / 64 mod 64); chr (128 + r mod 64)]
  else [chr (240 + r / 262144); chr (128 + r / 4096 mod 64); chr (128 + r / 64 mod 64); chr (128 + r mod 64)].

(** ** Quoting

    [jsonwire.AppendQuote].  The options of package encoding/json escape more
    than those of encoding/json/v2: [<], [>], [&], the separators U+2028 and
    U+2029, and they replace invalid UTF-8 instead of rejecting it. *)

Inductive Flavor : Type := V1 | V2.

Definition is_v1 (v : Flavor) : bool := match v with V1 => true | V2 => false end.

Definition hex_char (d : Z) : ascii := chr (if d <? 10 then 48 + d else 87 + d).

(** [\uxxxx] *)
Definition escape_u (r : Z) : list ascii :=
  "\"%char :: "u"%char :: hex_char (r / 4096) :: hex_char (r / 256 mod 16)
    :: hex_char (r / 16 mod 16) :: hex_char (r mod 16) :: [].

Definition html_special (c : ascii) : bool :=
  Ascii.eqb c "<" || Ascii.eqb c ">" || Ascii.eqb c "&".

(** [appendEscapedASCII], for the characters that need it. *)
Definition quote_ascii (v : Flavor) (c : ascii) : list ascii :=
  let b := code c in
  if (b =? 34) || (b =? 92) then ["\"%char; c]
  else if b =? 8 then ["\"; "b"]%char
  else if b =? 12 then ["\"; "f"]%char
  else if b =? 10 then ["\"; "n"]%char
  else if b =? 13 then ["\"; "r"]%char
  else if b =? 9 then ["\"; "t"]%char
  else if (b <? 32) || (is_v1 v && html_special c) then escape_u b
  else [c].

(** U+2028 and U+2029 are e2 80 a8 and e2 80 a9. *)
Definition js_special (l : list ascii) : option Z :=
  match l with
  | [a; b; c] => if (code a =? 226) && (code b =? 128) && ((code c =? 168) || (code c =? 169))
                 then Some (8064 + code c) else None
  | _ => None
  end.

Definition quote_rune (v : Flavor) (r : list ascii) : list ascii :=
  match js_special r with
  | Some u => if is_v1 v then escape_u u else r
  | None => r
  end.

(** The text between the quotes; [None] is [ErrInvalidUTF8]. *)
Fixpoint quote_body (v : Flavor) (n : nat) (l : list ascii) : option (list ascii) :=
  match n, l with
  | _, [] => Some []
  | O, _ => None
  | S n, c :: rest =>
      if code c <? 128 then app (quote_ascii v c) <$> quote_body v n rest
      else
        let k := rune_len c rest in
        if (k =? 1)%nat then
          if is_v1 v then app (escape_u 65533) <$> quote_body v n rest else None
        else app (quote_rune v (take k (c :: rest))) <$> quote_body v n (drop (k - 1) rest)
  end.

Definition quote (v : Flavor) (s : string) : option (list ascii) :=
  b ← quote_body v (String.length s) (chars s); Some ("034"%char :: b ++ ["034"%char]).

(** ** Printing *)

(** The items of an array or object, between commas. *)
Definition comma_list (items : list (list ascii)) : list ascii :=
  match items with
  | [] => []
  | x :: rest => x ++ concat ((fun y => ","%char :: y) <$> rest)
  end.

Definition lit (s : string) : list ascii := chars s.

Fixpoint print (v : Flavor) (j : json) : option (list ascii) :=
  match j with
  | JNull => Some (lit "null")
  | JBool true => Some (lit "true")
  | JBool false => Some (lit "false")
  | JNum raw => Some (lit raw)
  | JStr s => quote v s
  | JArr l => items ← mapM (print v) l; Some ("["%char :: comma_list items ++ ["]"%char])
  | JObj l =>
      items ← mapM (fun '(k, x) => q ← quote v k; p ← print v x; Some (q ++ ":"%char :: p)) l;
      Some ("{"%char :: comma_list items ++ ["}"%char])
  end.

(** ** Reading strings *)

Definition hex_val (c : ascii) : option Z :=
  let b := code c in
  if (48 <=? b) && (b <=? 57) then Some (b - 48)
  else if (97 <=? b) && (b <=? 102) then Some (b - 87)
  else if (65 <=? b) && (b <=? 70) then Some (b - 55)
  else None.

(** [parseHexUint16] *)
Definition hex4 (l : list ascii) : option (Z * list ascii) :=
  match l with
  | a :: b :: c :: d :: rest =>
      a ← hex_val a; b ← hex_val b; c ← hex_val c; d ← hex_val d;
      Some (a * 4096 + b * 256 + c * 16 + d, rest)
  | _ => None
  end.

Definition escape_value (e : ascii) : option ascii :=
  let b := code e in
  if (b =? 34) || (b =? 92) || (b =? 47) then Some e
  else if b =? 98 then Some (chr 8)
  else if b =? 102 then Some (chr 12)
  else if b =? 110 then Some (chr 10)
  else if b =? 114 then Some (chr 13)
  else if b =? 116 then Some (chr 9)
  else None.

(** What follows a [\u]: one code unit, or a pair of surrogates. *)
Definition unescape_u (l : list ascii) : option (list ascii * list ascii) :=
  '(r, rest) ← hex4 l;
  if (55296 <=? r) && (r <=? 57343) then
    match rest with
    | b :: u :: rest =>
        if Ascii.eqb b "\" && Ascii.eqb u "u" && (r <=? 56319) then
          '(r2, rest) ← hex4 rest;
          if (56320 <=? r2) && (r2 <=? 57343)
          then Some (encode_rune (65536 + (r - 55296) * 1024 + (r2 - 56320)), rest) else None
        else None
    | _ => None
    end
  else Some (encode_rune r, rest).

(** One character of a string: the bytes it stands for, and the text after it. *)
Definition unquote_step (l : list ascii) : option (list ascii * list ascii) :=
  match l with
  | [] => None
  | c :: rest =>
      let b := code c in
      if b =? 92 then
        match rest with
        | [] => None
        | e :: rest =>
            if Ascii.eqb e "u" then unescape_u rest
            else x ← escape_value e; Some ([x], rest)
        end
      else if b <? 32 then None
      else if b <? 128 then Some ([c], rest)
      else
        let k := rune_len c rest in
        if (k =? 1)%nat then None else Some (take k l, drop k l)
  end.

(** [ConsumeString] and [AppendUnquote], after the opening quote. *)
Fixpoint unquote (n : nat) (l : list ascii) : option (list ascii * list ascii) :=
  match l with
  | [] => None
  | c :: rest =>
      if Ascii.eqb c "034" then Some ([], rest)
      else match n with
      | O => None
      | S n =>
          '(x, rest) ← unquote_step l;
          '(xs, rest) ← unquote n rest;
          Some (x ++ xs, rest)
      end
  end.

Definition str_of (l : list ascii) : string := String.string_of_list_ascii l.

(** A string value: its contents and the text after the closing quote. *)
Definition read_string (l : list ascii) : option (string * list ascii) :=
  '(x, rest) ← unquote (length l) l; Some (str_of x, rest).

(** ** Reading numbers *)

Definition is_digit (c : ascii) : bool := in_range "0" "9" c.

Fixpoint span (p : ascii -> bool) (l : list ascii) : list ascii * list ascii :=
  match l with
  | [] => ([], [])
  | c :: rest => if p c then let '(a, b) := span p rest in (c :: a, b) else ([], l)
  end.

(** One digit or more. *)
Definition digits1 (l : list ascii) : option (list ascii * list ascii) :=
  match span is_digit l with ([], _) => None | r => Some r end.

(** "0", or digits that start with another one. *)
Definition read_int (l : list ascii) : option (list ascii * list ascii) :=
  match l with
  | c :: rest => if Ascii.eqb c "0" then Some ([c], rest) else digits1 l
  | [] => None
  end.

Definition read_frac (l : list ascii) : option (list ascii * list ascii) :=
  match l with
  | c :: rest =>
      if Ascii.eqb c "." then '(ds, rest) ← digits1 rest; Some (c :: ds, rest) else Some ([], l)
  | [] => Some ([], l)
  end.

Definition is_sign (c : ascii) : bool := Ascii.eqb c "+" || Ascii.eqb c "-".

Definition read_exp (l : list ascii) : option (list ascii * list ascii) :=
  match l with
  | c :: rest =>
      if Ascii.eqb c "e" || Ascii.eqb c "E" then
        match rest with
        | s :: rest' =>
            if is_sign s then '(ds, rest) ← digits1 rest'; Some (c :: s :: ds, rest)
            else '(ds, rest) ← digits1 rest; Some (c :: ds, rest)
        | [] => None
        end
      else Some ([], l)
  | [] => Some ([], l)
  end.

(** [ConsumeNumber] *)
Definition read_number (l : list ascii) : option (list ascii * list ascii) :=
  let '(sign, l) := match l with c :: rest => if Ascii.eqb c "-" then ([c], rest) else ([], l) | [] => ([], l) end in
  '(ds, l) ← read_int l; '(fr, l) ← read_frac l; '(ex, l) ← read_exp l;
  Some (sign ++ ds ++ fr ++ ex, l).

(** ** Reading values *)

Definition is_space (c : ascii) : bool :=
  let b := code c in (b =? 32) || (b =? 9) || (b =? 10) || (b =? 13).

Fixpoint skip_ws (l : list ascii) : list ascii :=
  match l with c :: rest => if is_space c then skip_ws rest else l | [] => [] end.

Fixpoint strip_prefix (p l : list ascii) : option (list ascii) :=
  match p, l with
  | [], _ => Some l
  | x :: p, y :: l => if Ascii.eqb x y then strip_prefix p l else None
  | _ :: _, [] => None
  end.

(** The name of a member, the colon after it and the text of its value. *)
Definition read_name (l : list ascii) : option (string * list ascii) :=
  match skip_ws l with
  | c :: rest =>
      if Ascii.eqb c "034" then
        '(k, rest) ← read_string rest;
        match skip_ws rest with
        | c :: rest => if Ascii.eqb c ":" then Some (k, rest) else None
        | [] => None
        end
      else None
  | [] => None
  end.

(** [ReadValue]: the value at the start of the text, after white space, and the
    text after it; what follows an opening bracket or brace; the elements of an
    array and the members of an object up to the closing one. *)
Fixpoint read_value (n : nat) (l : list ascii) : option (json * list ascii) :=
  match n with
  | O => None
  | S n =>
      match skip_ws l with
      | [] => None
      | c :: rest =>
          if Ascii.eqb c "034" then '(s, rest) ← read_string rest; Some (JStr s, rest)
          else if Ascii.eqb c "[" then
            match skip_ws rest with
            | c :: rest' => if Ascii.eqb c "]" then Some (JArr [], rest')
                            else '(vs, rest) ← read_elems n rest; Some (JArr vs, rest)
            | [] => None
            end
          else if Ascii.eqb c "{" then
            match skip_ws rest with
            | c :: rest' => if Ascii.eqb c "}" then Some (JObj [], rest')
                            else '(ms, rest) ← read_members n [] rest; Some (JObj ms, rest)
            | [] => None
            end
          else if Ascii.eqb c "n" then rest ← strip_prefix (lit "ull") rest; Some (JNull, rest)
          else if Ascii.eqb c "t" then rest ← strip_prefix (lit "rue") rest; Some (JBool true, rest)
          else if Ascii.eqb c "f" then rest ← strip_prefix (lit "alse") rest; Some (JBool false, rest)
          else '(raw, rest) ← read_number (c :: rest); Some (JNum (str_of raw), rest)
      end
  end
with read_elems (n : nat) (l : list ascii) : option (list json * list ascii) :=
  match n with
  | O => None
  | S n =>
      '(v, rest) ← read_value n l;
      match skip_ws rest with
      | c :: rest => if Ascii.eqb c "," then '(vs, rest) ← read_elems n rest; Some (v :: vs, rest)
                     else if Ascii.eqb c "]" then Some ([v], rest) else None
      | [] => None
      end
  end
with read_members (n : nat) (seen : list string) (l : list ascii) : option (list (string * json) * list ascii) :=
  match n with
  | O => None
  | S n =>
      '(k, rest) ← read_name l;
      if bool_decide (k ∈ seen) then None
      else
        '(v, rest) ← read_value n rest;
        match skip_ws rest with
        | c :: rest => if Ascii.eqb c "," then '(ms, rest) ← read_members n (k :: seen) rest; Some ((k, v) :: ms, rest)
                       else if Ascii.eqb c "}" then Some ([(k, v)], rest) else None
        | [] => None
        end
  end.

(** Enough fuel for any text. *)
Definition read_fuel (l : list ascii) : nat := S (2 * length l).

(** One value of a decoder. *)
Definition ReadValue (l : list ascii) : option (json * list ascii) := read_value (read_fuel l) l.

(** [json.Unmarshal]'s input: one value with nothing but white space after it. *)
Definition parse (l : list ascii) : option json :=
  '(v, rest) ← ReadValue l; match skip_ws rest with [] => Some v | _ => None end.

(** ** Integers

    [jsonwire.ParseUint] and the bounds of an [int64]: the literal is an optional
    minus and plain digits. *)
Definition int_of_literal (raw : string) : option Z :=
  let '(neg, ds) := match chars raw with c :: rest => if Ascii.eqb c "-" then (true, rest) else (false, c :: rest) | [] => (false, []) end in
  match ds with
  | [] => None
  | _ =>
      n ← parse_digits ds 0;
      let n := if neg : bool then - n else n in
      if bool_decide (int64 n) then Some n else None
  end.

(** Sample texts are written with an apostrophe for each quotation mark. *)
Definition quoted (s : string) : list ascii :=
  map (fun c => if Ascii.eqb c "'" then "034"%char else c) (chars s).

Example parse_ex1 : parse (quoted "[1, 'a\u00e9\n', {'k' : null}] ") =
  Some (JArr [JNum "1"; JStr (String "a" (String "195" (String "169" (String "010" "")))); JObj [("k"%string, JNull)]]).
Proof. reflexivity. Qed.
Example parse_dup : parse (quoted "{'a':1,'\u0061':2}") = None.
Proof. reflexivity. Qed.
Example parse_surrogate : parse (quoted "'\ud83d\ude00'") =
  Some (JStr (String "240" (String "159" (String "152" (String "128" ""))))).
Proof. reflexivity. Qed.
Example parse_lone : parse (quoted "'\ud83d'") = None.
Proof. reflexivity. Qed.
