(* ===== verification/JsonStrings.v ===== *)
(** * Quoted strings read back (encoding/json/jsontext)

    Every valid UTF-8 string can be quoted, under the options of either package,
    and the reader gives it back; the reader's fuel is the length of the text. *)

From S2P Require Import Prelude GoTime Text Json.

(** ** Inverting optional computations *)

(** [inv_some]: take a successful chain of binds apart. *)
Ltac inv_some :=
  repeat match goal with
  | H : (_ ≫= _) = Some _ |- _ => apply bind_Some_iff in H as (? & ? & H)
  | p : (_ * _)%type |- _ => destruct p
  | H : Some _ = Some _ |- _ => progress simplify_eq/=
  | H : None = Some _ |- _ => discriminate H
  end.

(** ** Runes *)

Lemma rune_len_cases c rest : (rune_len c rest = 1 \/ rune_len c rest = 2 \/ rune_len c rest = 3 \/ rune_len c rest = 4)%nat.
Proof. unfold rune_len. repeat case_match; auto. Qed.

(** A longer rune starts above ASCII and is all there. *)
Lemma rune_len_long c rest : (rune_len c rest <> 1)%nat -> 128 <= code c /\ (rune_len c rest <= S (length rest))%nat.
Proof.
  unfold rune_len. destruct (Z.ltb_spec (code c) 128); [done|]. intros Hne. split; [done|].
  destruct rest as [|x [|y [|z rest]]]; cbn [nth_error length] in *; repeat case_match; try lia; done.
Qed.

(** The length of a rune does not depend on what follows it. *)
Lemma rune_len_prefix c rest t : (rune_len c rest <> 1)%nat ->
  rune_len c (take (rune_len c rest - 1) rest ++ t) = rune_len c rest.
Proof.
  unfold rune_len. generalize (code c <? 128), ((194 <=? code c) && (code c <=? 223)),
    ((224 <=? code c) && (code c <=? 239)), ((240 <=? code c) && (code c <=? 244)),
    (if code c =? 224 then 160 else 128), (if code c =? 237 then 159 else 191),
    (if code c =? 240 then 144 else 128), (if code c =? 244 then 143 else 191).
  intros b1 b2 b3 b4 l1 h1 l2 h2. destruct b1, b2, b3, b4; try done;
    (destruct rest as [|x [|y [|z rest]]]; cbn [nth_error];
     repeat match goal with |- context [cont ?l ?h ?x] => destruct (cont l h x) eqn:? end;
     cbn [andb take Nat.sub app nth_error]; try done; intros _;
     repeat match goal with H : ?b = true |- context [?b] => rewrite H end; done).
Qed.

(** ** One character *)

Lemma js_special_spec l u : js_special l = Some u -> (u = 8232 \/ u = 8233) /\ encode_rune u = l.
Proof.
  destruct l as [|a [|b [|c [|]]]]; try done. unfold js_special. intros Hj.
  destruct (_ && _) eqn:E; [|done]. injection Hj as <-.
  apply andb_true_iff in E as [[Ha%Z.eqb_eq Hb%Z.eqb_eq]%andb_true_iff Hc%orb_true_iff].
  assert (Hchr : forall x, chr (code x) = x) by (intros x; unfold chr, code; by rewrite N2Z.id, ascii_N_embedding).
  assert (a = chr 226 /\ b = chr 128) as [-> ->] by (rewrite <-Ha, <-Hb; auto).
  destruct Hc as [Hc%Z.eqb_eq|Hc%Z.eqb_eq]; rewrite Hc; (split; [lia|rewrite <-(Hchr c), Hc; reflexivity]).
Qed.

(** Every ASCII character, quoted, is read back. *)
Lemma unquote_ascii v c l : code c < 128 -> unquote_step (quote_ascii v c ++ l) = Some ([c], l).
Proof.
  intros Hc. destruct c as [[] [] [] [] [] [] [] []]; try (exfalso; revert Hc; vm_compute; discriminate);
    clear Hc; destruct v; reflexivity.
Qed.

Lemma unquote_rune v c rest l : (rune_len c rest <> 1)%nat ->
  unquote_step (quote_rune v (take (rune_len c rest) (c :: rest)) ++ l) = Some (take (rune_len c rest) (c :: rest), l).
Proof.
  intros Hk. destruct (rune_len_long c rest Hk) as [Hc Hlen]. unfold quote_rune.
  set (k := rune_len c rest) in *.
  assert (Hplain : unquote_step (take k (c :: rest) ++ l) = Some (take k (c :: rest), l)).
  { destruct k as [|k'] eqn:Ek; [destruct (rune_len_cases c rest) as [|[|[]]]; lia|]. cbn [take app].
    unfold unquote_step. rewrite (proj2 (Z.eqb_neq (code c) 92)) by lia.
    rewrite (proj2 (Z.ltb_ge (code c) 32)), (proj2 (Z.ltb_ge (code c) 128)) by lia.
    assert (Hp : rune_len c (take k' rest ++ l) = S k').
    { unfold k in Ek. rewrite <-Ek in Hk. pose proof (rune_len_prefix c rest l Hk) as Hp. rewrite Ek in Hp.
      cbn [Nat.sub] in Hp. by rewrite Nat.sub_0_r in Hp. }
    rewrite Hp, (proj2 (Nat.eqb_neq _ _)) by lia. cbn [take drop].
    assert (Ht : length (take k' rest) = k') by (rewrite length_take; lia).
    by rewrite take_app_length', drop_app_length' by done. }
  destruct (js_special _) as [u|] eqn:E; [|done]. destruct (is_v1 v); [|done].
  apply js_special_spec in E as [[->| ->] <-]; reflexivity.
Qed.

(** A quoted character never starts with the closing quote. *)
Lemma quote_ascii_head v c : exists x l, quote_ascii v c = x :: l /\ Ascii.eqb x "034" = false.
Proof.
  destruct c as [[] [] [] [] [] [] [] []], v; vm_compute; eauto.
Qed.

Lemma quote_rune_head v c rest : (rune_len c rest <> 1)%nat ->
  exists x l, quote_rune v (take (rune_len c rest) (c :: rest)) = x :: l /\ Ascii.eqb x "034" = false.
Proof.
  intros Hk. destruct (rune_len_long c rest Hk) as [Hc _]. unfold quote_rune.
  assert (Hne : exists x l, take (rune_len c rest) (c :: rest) = x :: l /\ Ascii.eqb x "034" = false).
  { destruct (rune_len c rest) as [|k] eqn:E; [destruct (rune_len_cases c rest) as [|[|[]]]; lia|].
    exists c, (take k rest). split; [done|]. apply Ascii.eqb_neq. by intros ->. }
  destruct (js_special _); [|done]. destruct (is_v1 v); [|done]. unfold escape_u. eauto.
Qed.

(** ** Fuel *)

Lemma hex4_length l r rest : hex4 l = Some (r, rest) -> (length rest < length l)%nat.
Proof. destruct l as [|a [|b [|c [|d l]]]]; try done. cbn [hex4]. intros Hh. inv_some. cbn [length]. lia. Qed.

Lemma unescape_u_length l x rest : unescape_u l = Some (x, rest) -> (length rest < length l)%nat.
Proof.
  unfold unescape_u. intros Hu. apply bind_Some_iff in Hu as ([r rest1] & Hh%hex4_length & Hu).
  destruct (_ && _); [|by injection Hu as <- <-].
  destruct rest1 as [|b [|u rest1]]; [done..|]. destruct (_ && _); [|done].
  apply bind_Some_iff in Hu as ([r2 rest2] & Hh2%hex4_length & Hu). destruct (_ && _); [|done].
  injection Hu as _ <-. cbn [length] in Hh. lia.
Qed.

Lemma unquote_step_length l x rest : unquote_step l = Some (x, rest) -> (length rest < length l)%nat.
Proof.
  destruct l as [|c l]; [done|]. unfold unquote_step. cbv zeta. destruct (code c =? 92).
  - destruct l as [|e l]; [done|]. destruct (Ascii.eqb e "u").
    + intros Hu%unescape_u_length. cbn [length] in *. lia.
    + intros Hu. inv_some. cbn [length]. lia.
  - destruct (code c <? 32); [done|]. destruct (code c <? 128); [intros [= _ <-]; cbn; lia|].
    destruct (Nat.eqb_spec (rune_len c l) 1) as [|Hne]; [done|]. intros [= _ <-].
    rewrite length_drop. cbn [length]. destruct (rune_len_cases c l) as [|[|[]]]; lia.
Qed.

Lemma unquote_length n : forall l x rest, unquote n l = Some (x, rest) -> (length rest < length l)%nat.
Proof.
  induction n as [|n IH]; intros [|c l] x rest; cbn [unquote]; try done; (destruct (Ascii.eqb c "034"); [intros [= _ <-]; cbn; lia|]); [done|].
  intros Hu. apply bind_Some_iff in Hu as ([y r] & Hs%unquote_step_length & Hu).
  apply bind_Some_iff in Hu as ([ys r'] & Hr%IH & Hu). injection Hu as _ <-. lia.
Qed.

(** The length of the text is enough. *)
Lemma unquote_enough n : forall l, (length l <= n)%nat -> forall n', (length l <= n')%nat -> unquote n' l = unquote n l.
Proof.
  induction n as [|n IH]; intros [|c l] Hl [|n'] Hl'; cbn [length unquote] in *; try done; try lia.
  destruct (Ascii.eqb c "034"); [done|]. destruct (unquote_step (c :: l)) as [[x r]|] eqn:E; [|done].
  apply unquote_step_length in E. cbn [mbind option_bind length] in *. by rewrite (IH r) by lia.
Qed.

Lemma unquote_more n : forall l r n', unquote n l = Some r -> (n <= n')%nat -> unquote n' l = Some r.
Proof.
  induction n as [|n IH]; intros [|c l] r [|n'] Hu Hn; cbn [unquote] in *; try done; try lia;
    (destruct (Ascii.eqb c "034"); [done|]); [done|].
  destruct (unquote_step (c :: l)) as [[x r']|]; [|done]. cbn [mbind option_bind] in *.
  apply bind_Some_iff in Hu as ([xs r2] & Hu & Heq). rewrite (IH _ _ n' Hu) by lia. done.
Qed.

(** ** Strings *)

Lemma unquote_cons n q x rest t xs rest' : (exists c l, q = c :: l /\ Ascii.eqb c "034" = false) ->
  unquote_step (q ++ rest) = Some (x, rest) -> unquote n rest = Some (xs, rest') ->
  t = q ++ rest -> unquote (S n) t = Some (x ++ xs, rest').
Proof.
  intros (c & l & -> & Hc) Hs Hu ->. cbn [app unquote]. rewrite Hc. cbn [app] in Hs. rewrite Hs. cbn [mbind option_bind].
  by rewrite Hu.
Qed.

Lemma quote_body_reads v rest m : forall l n, utf8_valid m l = true -> (length l <= n)%nat -> (length l <= m)%nat -> exists b,
  quote_body v n l = Some b /\ unquote n (b ++ "034"%char :: rest) = Some (l, rest).
Proof.
  induction m as [|m IH]; intros [|c l] n Hv Hn Hm; cbn [length] in *; try lia; [by exists []; destruct n..|].
  destruct n as [|n]; [lia|]. cbn [utf8_valid quote_body] in *. destruct (Z.ltb_spec (code c) 128) as [Hc|Hc].
  - destruct (IH l n Hv ltac:(lia) ltac:(lia)) as (b & Hb & Hu). rewrite Hb. cbn [fmap option_fmap option_map].
    eexists. split; [done|]. eapply (unquote_cons n (quote_ascii v c) [c]); [apply quote_ascii_head|by apply unquote_ascii|exact Hu|].
    by rewrite <-app_assoc.
  - apply andb_true_iff in Hv as [Hk%Nat.ltb_lt Hv].
    destruct (IH (drop (rune_len c l - 1) l) n Hv ltac:(rewrite length_drop; lia) ltac:(rewrite length_drop; lia)) as (b & Hb & Hu).
    rewrite (proj2 (Nat.eqb_neq _ _)) by lia. rewrite Hb. cbn [fmap option_fmap option_map]. eexists. split; [done|].
    assert (Hsplit : c :: l = take (rune_len c l) (c :: l) ++ drop (rune_len c l - 1) l).
    { rewrite <-(take_drop (rune_len c l) (c :: l)) at 1. f_equal. destruct (rune_len c l); [lia|]. cbn [drop]. f_equal. lia. }
    assert (Hne : rune_len c l <> 1%nat) by lia. rewrite Hsplit at 2.
    eapply (unquote_cons n _ _ _ _ _ _ (quote_rune_head v c l Hne) (unquote_rune v c l _ Hne) Hu). by rewrite <-app_assoc.
Qed.

Lemma str_of_chars s : str_of (chars s) = s.
Proof. apply String.string_of_list_ascii_of_string. Qed.

Lemma chars_str_of l : chars (str_of l) = l.
Proof. apply String.list_ascii_of_string_of_list_ascii. Qed.

Lemma quote_reads v s : utf8_ok s = true -> exists q, quote v s = Some ("034"%char :: q) /\
  forall rest, read_string (q ++ rest) = Some (s, rest).
Proof.
  intros Hs. unfold utf8_ok in Hs. assert (Hl : (length (chars s) <= String.length s)%nat) by by rewrite chars_length.
  destruct (quote_body_reads v [] _ _ _ Hs Hl Hl) as (b & Hb & _). unfold quote. rewrite Hb. cbn [mbind option_bind].
  eexists. split; [done|]. intros rest. rewrite <-app_assoc. cbn [app].
  destruct (quote_body_reads v rest _ _ _ Hs Hl Hl) as (b' & Hb' & Hu). rewrite Hb in Hb'. injection Hb' as <-.
  unfold read_string. rewrite (unquote_enough (length (b ++ "034"%char :: rest) + String.length s)) by lia.
  rewrite (unquote_more _ _ _ _ Hu) by lia. cbn [mbind option_bind]. by rewrite str_of_chars.
Qed.

Lemma read_string_length l s rest : read_string l = Some (s, rest) -> (length rest < length l)%nat.
Proof. unfold read_string. intros Hr. apply bind_Some_iff in Hr as ([x r] & Hu%unquote_length & Hr). by injection Hr as _ <-. Qed.
