(* ===== verification/JsonRoundtrip.v ===== *)
(** * Printed values read back (encoding/json/jsontext)

    The reader ends on every text, whatever its fuel beyond twice the length, and
    reading a printed value gives the value. *)

From S2P Require Import Prelude GoTime Text Json JsonStrings.

(** ** Numbers *)

(** The text after a number that is complete. *)
Definition number_end (rest : list ascii) : bool :=
  match rest with
  | [] => true
  | c :: _ => negb (is_digit c || Ascii.eqb c "." || Ascii.eqb c "e" || Ascii.eqb c "E")
  end.

(** Either the number ended before the end of its text, or what follows ends it. *)
Definition ends (r rest : list ascii) : Prop := r <> [] \/ number_end rest = true.

(** A reader that gives the same number whatever follows it. *)
Definition stable (f : list ascii -> option (list ascii * list ascii)) : Prop :=
  forall l x r rest, f l = Some (x, r) -> ends r rest -> f (l ++ rest) = Some (x, r ++ rest).

(** It does not skip over anything. *)
Definition consumes (f : list ascii -> option (list ascii * list ascii)) : Prop :=
  forall l x r, f l = Some (x, r) -> l = x ++ r.

Lemma number_end_cons c rest : number_end (c :: rest) = true ->
  is_digit c = false /\ Ascii.eqb c "." = false /\ Ascii.eqb c "e" = false /\ Ascii.eqb c "E" = false.
Proof. unfold number_end. rewrite negb_true_iff, !orb_false_iff. tauto. Qed.

Lemma span_stable l a b rest : span is_digit l = (a, b) -> ends b rest -> span is_digit (l ++ rest) = (a, b ++ rest).
Proof.
  revert a b. induction l as [|c l IH]; intros a b Hs He; cbn [span app] in *.
  - injection Hs as <- <-. destruct He as [|He]; [done|]. destruct rest as [|c rest]; [done|].
    apply number_end_cons in He as (Hd & _). cbn [span app]. by rewrite Hd.
  - destruct (is_digit c); [|by injection Hs as <- <-].
    destruct (span is_digit l) as [a1 b1]. injection Hs as <- <-. by rewrite (IH a1 b1).
Qed.

Lemma span_app p l a b : span p l = (a, b) -> l = a ++ b.
Proof.
  revert a b. induction l as [|c l IH]; intros a b Hs; cbn [span] in Hs; [by injection Hs as <- <-|].
  destruct (p c); [|by injection Hs as <- <-]. destruct (span p l) as [a1 b1]. injection Hs as <- <-.
  cbn [app]. by rewrite <-(IH a1 b1).
Qed.

Lemma digits1_stable : stable digits1.
Proof.
  intros l x r rest. unfold digits1. destruct (span is_digit l) as [a b] eqn:E. intros Hd He.
  assert (Heq : (a, b) = (x, r) /\ a <> []) by (destruct a; by simplify_eq).
  destruct Heq as [[= -> ->] Hne]. rewrite (span_stable _ _ _ _ E He). by destruct x.
Qed.

Lemma digits1_consumes : consumes digits1.
Proof.
  intros l x r. unfold digits1. destruct (span is_digit l) as [a b] eqn:E. apply span_app in E as ->.
  destruct a; intros [= <- <-]. done.
Qed.

Lemma ends_app x r rest : ends r rest -> ends (x ++ r) rest.
Proof. intros [Hr|Hr]; [left|by right]. intros [_ ?]%app_nil. done. Qed.

Lemma read_int_stable : stable read_int.
Proof.
  intros [|c l] x r rest; [done|]. cbn [read_int app]. destruct (Ascii.eqb c "0"); [by intros [= <- <-]|].
  apply digits1_stable.
Qed.

Lemma read_int_consumes : consumes read_int.
Proof.
  intros [|c l] x r; [done|]. cbn [read_int]. destruct (Ascii.eqb c "0"); [by intros [= <- <-]|]. apply digits1_consumes.
Qed.

Lemma read_frac_stable : stable read_frac.
Proof.
  intros [|c l] x r rest; cbn [read_frac app].
  - intros [= <- <-] [|He]; [done|]. destruct rest as [|c rest]; [done|]. apply number_end_cons in He as (_ & Hd & _).
    cbn [read_frac app]. by rewrite Hd.
  - destruct (Ascii.eqb c "."); [|by intros [= <- <-]]. intros Hf He.
    apply bind_Some_iff in Hf as ([ds r'] & Hd & Hf). injection Hf as <- <-.
    by rewrite (digits1_stable _ _ _ _ Hd He).
Qed.

Lemma read_frac_consumes : consumes read_frac.
Proof.
  intros [|c l] x r; cbn [read_frac]; [by intros [= <- <-]|]. destruct (Ascii.eqb c "."); [|by intros [= <- <-]].
  intros Hf. apply bind_Some_iff in Hf as ([ds r'] & Hd%digits1_consumes & Hf). injection Hf as <- <-. by subst l.
Qed.

Lemma read_exp_stable : stable read_exp.
Proof.
  intros [|c l] x r rest; cbn [read_exp app].
  - intros [= <- <-] [|He]; [done|]. destruct rest as [|c rest]; [done|]. apply number_end_cons in He as (_ & _ & Hd & Hd').
    cbn [read_exp app]. by rewrite Hd, Hd'.
  - destruct (_ || _); [|by intros [= <- <-]]. destruct l as [|s l]; [done|]. cbn [app].
    destruct (is_sign s); intros Hf He; apply bind_Some_iff in Hf as ([ds r'] & Hd & Hf); injection Hf as <- <-.
    + by rewrite (digits1_stable _ _ _ _ Hd He).
    + change (s :: l ++ rest) with ((s :: l) ++ rest). by rewrite (digits1_stable _ _ _ _ Hd He).
Qed.

Lemma read_exp_consumes : consumes read_exp.
Proof.
  intros [|c l] x r; cbn [read_exp]; [by intros [= <- <-]|]. destruct (_ || _); [|by intros [= <- <-]].
  destruct l as [|s l]; [done|]. destruct (is_sign s); intros Hf;
    apply bind_Some_iff in Hf as ([ds r'] & Hd%digits1_consumes & Hf); injection Hf as <- <-; cbn [app]; by rewrite Hd.
Qed.

Lemma read_number_stable : stable read_number.
Proof.
  intros l x r rest. unfold read_number.
  assert (Hsign : forall sign l', (match l with c :: rest => if Ascii.eqb c "-" then ([c], rest) else ([], l) | [] => ([], l) end) = (sign, l') ->
    l' <> [] -> (match l ++ rest with c :: tl => if Ascii.eqb c "-" then ([c], tl) else ([], l ++ rest) | [] => ([], l ++ rest) end) = (sign, l' ++ rest)).
  { intros sign l' Hs Hne. destruct l as [|c l]; [by simplify_eq|]. cbn [app]. revert Hs. by destruct (Ascii.eqb c "-"); intros; simplify_eq. }
  destruct (match l with c :: rest => if Ascii.eqb c "-" then ([c], rest) else ([], l) | [] => ([], l) end) as [sign l'].
  intros Hr He. apply bind_Some_iff in Hr as ([ds l1] & H1 & Hr). apply bind_Some_iff in Hr as ([fr l2] & H2 & Hr).
  apply bind_Some_iff in Hr as ([ex l3] & H3 & Hr). injection Hr as <- <-.
  rewrite (Hsign sign l' eq_refl); [|by intros ->].
  pose proof (read_frac_consumes _ _ _ H2) as C2. pose proof (read_exp_consumes _ _ _ H3) as C3.
  rewrite (read_int_stable _ _ _ rest H1); [|subst; by apply ends_app, ends_app]. cbn [mbind option_bind].
  rewrite (read_frac_stable _ _ _ rest H2); [|subst; by apply ends_app]. cbn [mbind option_bind].
  by rewrite (read_exp_stable _ _ _ rest H3).
Qed.

Lemma read_number_consumes : consumes read_number.
Proof.
  intros l x r. unfold read_number.
  destruct (match l with c :: rest => if Ascii.eqb c "-" then ([c], rest) else ([], l) | [] => ([], l) end) as [sign l'] eqn:E.
  intros Hr. apply bind_Some_iff in Hr as ([ds l1] & H1%read_int_consumes & Hr).
  apply bind_Some_iff in Hr as ([fr l2] & H2%read_frac_consumes & Hr).
  apply bind_Some_iff in Hr as ([ex l3] & H3%read_exp_consumes & Hr). injection Hr as <- <-.
  assert (l = sign ++ l') as ->; [|by subst; rewrite <-!app_assoc].
  destruct l as [|c l]; [by simplify_eq|]. revert E. by destruct (Ascii.eqb c "-"); intros; simplify_eq.
Qed.

Lemma digits1_nonempty l x r : digits1 l = Some (x, r) -> x <> [].
Proof. unfold digits1. destruct (span is_digit l) as [[|] ?]; naive_solver. Qed.

Lemma read_number_length l x r : read_number l = Some (x, r) -> (length r < length l)%nat.
Proof.
  intros Hr. pose proof (read_number_consumes _ _ _ Hr) as ->. rewrite length_app.
  assert (x <> []) as Hx; [|destruct x; [done|cbn; lia]]. revert Hr. unfold read_number.
  destruct (match x ++ r with c :: tl => if Ascii.eqb c "-" then ([c], tl) else ([], x ++ r) | [] => ([], x ++ r) end) as [sign l'].
  intros Hr. apply bind_Some_iff in Hr as ([ds l1] & H1 & Hr). apply bind_Some_iff in Hr as ([fr l2] & _ & Hr).
  apply bind_Some_iff in Hr as ([ex l3] & _ & Hr). injection Hr as <- <-.
  assert (ds <> []).
  { destruct l' as [|c l']; [done|]. cbn [read_int] in H1. destruct (Ascii.eqb c "0"); [by simplify_eq|].
    by apply digits1_nonempty in H1. }
  destruct sign, ds; done.
Qed.

(** ** The reader ends *)

Lemma skip_ws_length l : (length (skip_ws l) <= length l)%nat.
Proof. induction l as [|c l IH]; [done|]. cbn [skip_ws]. destruct (is_space c); cbn [length]; lia. Qed.

Lemma skip_ws_cons l c r : skip_ws l = c :: r -> (length r < length l)%nat.
Proof. intros Hs. pose proof (skip_ws_length l) as Hl. rewrite Hs in Hl. cbn [length] in Hl. lia. Qed.

Lemma strip_prefix_length p l r : strip_prefix p l = Some r -> (length r <= length l)%nat.
Proof.
  revert l. induction p as [|x p IH]; intros [|y l]; cbn [strip_prefix]; try done; [by intros [= <-]..|].
  destruct (Ascii.eqb x y); [|done]. intros Hs%IH. cbn [length]. lia.
Qed.

Lemma read_name_length l k r : read_name l = Some (k, r) -> (length r < length l)%nat.
Proof.
  unfold read_name. destruct (skip_ws l) as [|c l1] eqn:E; [done|]. apply skip_ws_cons in E. destruct (Ascii.eqb c "034"); [|done].
  intros Hr. apply bind_Some_iff in Hr as ([s l2] & Hs%read_string_length & Hr).
  destruct (skip_ws l2) as [|c' l3] eqn:E'; [done|]. apply skip_ws_cons in E'. destruct (Ascii.eqb c' ":"); [|done].
  injection Hr as _ <-. lia.
Qed.

(** The three readers consume something. *)
Lemma read_length n :
  (forall l v r, read_value n l = Some (v, r) -> (length r < length l)%nat) /\
  (forall l vs r, read_elems n l = Some (vs, r) -> (length r < length l)%nat) /\
  (forall seen l ms r, read_members n seen l = Some (ms, r) -> (length r < length l)%nat).
Proof.
  induction n as [|n (IHv & IHe & IHm)]; [done|]. split_and!.
  - intros l v r. cbn [read_value]. destruct (skip_ws l) as [|c l1] eqn:E; [done|]. apply skip_ws_cons in E.
    destruct (Ascii.eqb c "034"); [intros Hr; apply bind_Some_iff in Hr as ([s l2] & Hs%read_string_length & [= _ <-]); lia|].
    destruct (Ascii.eqb c "[").
    { destruct (skip_ws l1) as [|c' l2] eqn:E1; [done|]. apply skip_ws_cons in E1. destruct (Ascii.eqb c' "]"); [intros [= _ <-]; lia|].
      intros Hr. apply bind_Some_iff in Hr as ([vs l3] & Hs%IHe & [= _ <-]). lia. }
    destruct (Ascii.eqb c "{").
    { destruct (skip_ws l1) as [|c' l2] eqn:E1; [done|]. apply skip_ws_cons in E1. destruct (Ascii.eqb c' "}"); [intros [= _ <-]; lia|].
      intros Hr. apply bind_Some_iff in Hr as ([vs l3] & Hs%IHm & [= _ <-]). lia. }
    do 3 (case_match; [intros Hr; apply bind_Some_iff in Hr as (l2 & Hs%strip_prefix_length & [= _ <-]); lia|]).
    intros Hr. apply bind_Some_iff in Hr as ([raw l2] & Hs%read_number_length & [= _ <-]). cbn [length] in Hs. lia.
  - intros l vs r. cbn [read_elems]. intros Hr. apply bind_Some_iff in Hr as ([v l1] & Hv%IHv & Hr).
    destruct (skip_ws l1) as [|c l2] eqn:E; [done|]. apply skip_ws_cons in E.
    destruct (Ascii.eqb c ","); [apply bind_Some_iff in Hr as ([vs' l3] & Hs%IHe & [= _ <-]); lia|].
    destruct (Ascii.eqb c "]"); [injection Hr as _ <-; lia|done].
  - intros seen l ms r. cbn [read_members]. intros Hr. apply bind_Some_iff in Hr as ([k l0] & Hk%read_name_length & Hr).
    destruct (bool_decide _); [done|]. apply bind_Some_iff in Hr as ([v l1] & Hv%IHv & Hr).
    destruct (skip_ws l1) as [|c l2] eqn:E; [done|]. apply skip_ws_cons in E.
    destruct (Ascii.eqb c ","); [apply bind_Some_iff in Hr as ([vs' l3] & Hs%IHm & [= _ <-]); lia|].
    destruct (Ascii.eqb c "}"); [injection Hr as _ <-; lia|done].
Qed.

Lemma bind_ext_some {A B} (m : option A) (f g : A -> option B) : (forall a, m = Some a -> f a = g a) -> (m ≫= f) = (m ≫= g).
Proof. destruct m; cbn; auto. Qed.

(** With twice the length of the text, more fuel changes nothing. *)
Lemma read_enough n : forall n',
  (forall l, (S (2 * length l) <= n)%nat -> (S (2 * length l) <= n')%nat -> read_value n l = read_value n' l) /\
  (forall l, (2 + 2 * length l <= n)%nat -> (2 + 2 * length l <= n')%nat -> read_elems n l = read_elems n' l) /\
  (forall seen l, (2 + 2 * length l <= n)%nat -> (2 + 2 * length l <= n')%nat -> read_members n seen l = read_members n' seen l).
Proof.
  induction n as [|n IH]; intros n'; [split_and!; lia|]. destruct n' as [|n']; [split_and!; lia|].
  destruct (IH n') as (IHv & IHe & IHm). split_and!.
  - intros l Hn Hn'. cbn [read_value]. destruct (skip_ws l) as [|c l1] eqn:E; [done|]. apply skip_ws_cons in E.
    destruct (Ascii.eqb c "034"); [done|]. destruct (Ascii.eqb c "["); [|destruct (Ascii.eqb c "{"); [|done]];
      (destruct (skip_ws l1) as [|c' l2] eqn:E1; [done|]; destruct (Ascii.eqb c' _); [done|]).
    + by rewrite (IHe l1) by lia.
    + by rewrite (IHm [] l1) by lia.
  - intros l Hn Hn'. cbn [read_elems]. rewrite (IHv l) by lia. apply bind_ext_some. intros [v l1] Hv.
    apply (proj1 (read_length n')) in Hv. destruct (skip_ws l1) as [|c l2] eqn:E; [done|]. apply skip_ws_cons in E.
    by rewrite (IHe l2) by lia.
  - intros seen l Hn Hn'. cbn [read_members]. apply bind_ext_some. intros [k l0] Hk%read_name_length.
    destruct (bool_decide _); [done|]. rewrite (IHv l0) by lia. apply bind_ext_some. intros [v l1] Hv.
    apply (proj1 (read_length n')) in Hv. destruct (skip_ws l1) as [|c l2] eqn:E; [done|]. apply skip_ws_cons in E.
    by rewrite (IHm (k :: seen) l2) by lia.
Qed.

Lemma ReadValue_enough n l : (read_fuel l <= n)%nat -> read_value n l = ReadValue l.
Proof. intros Hn. unfold ReadValue. apply read_enough; unfold read_fuel in *; lia. Qed.

(** A result does not change with more fuel. *)
Lemma bind_more {A B} (m m' : option A) (f g : A -> option B) b :
  (forall a, m = Some a -> m' = Some a) -> (forall a, f a = Some b -> g a = Some b) ->
  (m ≫= f) = Some b -> (m' ≫= g) = Some b.
Proof. intros Hm Hf Hb. apply bind_Some_iff in Hb as (a & Ha & Hb). by rewrite (Hm a Ha); apply Hf. Qed.

Lemma read_more n : forall n', (n <= n')%nat ->
  (forall l r, read_value n l = Some r -> read_value n' l = Some r) /\
  (forall l r, read_elems n l = Some r -> read_elems n' l = Some r) /\
  (forall seen l r, read_members n seen l = Some r -> read_members n' seen l = Some r).
Proof.
  induction n as [|n IH]; intros n' Hn; [done|]. destruct n' as [|n']; [lia|].
  destruct (IH n' ltac:(lia)) as (IHv & IHe & IHm). split_and!.
  - intros l r. cbn [read_value]. destruct (skip_ws l) as [|c l1]; [done|].
    destruct (Ascii.eqb c "034"); [done|]. destruct (Ascii.eqb c "["); [|destruct (Ascii.eqb c "{"); [|done]];
      (destruct (skip_ws l1) as [|c' l2]; [done|]; destruct (Ascii.eqb c' _); [done|]).
    + apply bind_more; [apply IHe|done].
    + apply bind_more; [apply IHm|done].
  - intros l r. cbn [read_elems]. apply bind_more; [apply IHv|]. intros [v l1]. destruct (skip_ws l1) as [|c l2]; [done|].
    destruct (Ascii.eqb c ","); [|done]. apply bind_more; [apply IHe|done].
  - intros seen l r. cbn [read_members]. apply bind_more; [done|]. intros [k l0]. destruct (bool_decide _); [done|].
    apply bind_more; [apply IHv|]. intros [v l1]. destruct (skip_ws l1) as [|c l2]; [done|].
    destruct (Ascii.eqb c ","); [|done]. apply bind_more; [apply IHm|done].
Qed.

Lemma ReadValue_some n l r : read_value n l = Some r -> ReadValue l = Some r.
Proof.
  intros Hr. rewrite <-(ReadValue_enough (n + read_fuel l)) by lia. by apply (read_more n); [lia|].
Qed.

(** ** Printing and reading back *)

(** A literal of the number grammar. *)
Definition number_ok (raw : string) : Prop := read_number (chars raw) = Some (chars raw, []).

(** Strings are valid UTF-8, numbers are literals, member names differ. *)
Fixpoint json_ok (j : json) : Prop :=
  match j with
  | JNull | JBool _ => True
  | JNum raw => number_ok raw
  | JStr s => utf8_ok s = true
  | JArr l => (fix go l := match l with [] => True | x :: l => json_ok x /\ go l end) l
  | JObj l => NoDup l.*1 /\ (fix go l := match l with [] => True | (k, x) :: l => (utf8_ok k = true /\ json_ok x) /\ go l end) l
  end.

(** Induction under arrays and objects. *)
Lemma json_nested_ind (P : json -> Prop) :
  P JNull -> (forall b, P (JBool b)) -> (forall raw, P (JNum raw)) -> (forall s, P (JStr s)) ->
  (forall l, Forall P l -> P (JArr l)) -> (forall l, Forall (fun kv => P kv.2) l -> P (JObj l)) -> forall j, P j.
Proof.
  intros Hnull Hbool Hnum Hstr Harr Hobj. fix IH 1. intros [|b|raw|s|l|l]; [exact Hnull|apply Hbool|apply Hnum|apply Hstr|..].
  - apply Harr. induction l as [|x l IHl]; constructor; [apply IH|exact IHl].
  - apply Hobj. induction l as [|[k x] l IHl]; constructor; [apply IH|exact IHl].
Qed.

(** What reading a text gives back, with the text not taken for the end of an
    array or object. *)
Definition reads_back (p : list ascii) (j : json) : Prop :=
  (exists c t, p = c :: t /\ is_space c = false /\ Ascii.eqb c "]" = false) /\
  forall rest, number_end rest = true -> exists n, read_value n (p ++ rest) = Some (j, rest).

Lemma skip_ws_head c l : is_space c = false -> skip_ws (c :: l) = c :: l.
Proof. intros Hc. cbn [skip_ws]. by rewrite Hc. Qed.

Lemma number_head raw : number_ok raw -> exists c t, chars raw = c :: t /\ (is_digit c = true \/ c = "-"%char).
Proof.
  unfold number_ok, read_number. destruct (chars raw) as [|c t] eqn:E; [done|]. intros Hr. exists c, t. split; [done|].
  destruct (Ascii.eqb_spec c "-"); [by right|]. left. cbn [read_int] in Hr. destruct (Ascii.eqb_spec c "0") as [->|_]; [done|].
  unfold digits1 in Hr. cbn [span] in Hr. by destruct (is_digit c).
Qed.

Lemma digit_head c : is_digit c = true \/ c = "-"%char ->
  is_space c = false /\ Ascii.eqb c "034" = false /\ Ascii.eqb c "[" = false /\ Ascii.eqb c "]" = false /\ Ascii.eqb c "{" = false /\
  Ascii.eqb c "n" = false /\ Ascii.eqb c "t" = false /\ Ascii.eqb c "f" = false.
Proof.
  intros Hc. destruct c as [[] [] [] [] [] [] [] []]; try done; exfalso; destruct Hc as [Hc|Hc]; discriminate Hc.
Qed.

Lemma reads_number raw : number_ok raw -> reads_back (chars raw) (JNum raw).
Proof.
  intros Hr. destruct (number_head raw Hr) as (c & t & Hct & Hc). apply digit_head in Hc as (H1 & H2 & H3 & H4 & H5 & H6 & H7 & H8).
  split; [by exists c, t|]. intros rest He. exists 1%nat. rewrite Hct. cbn [app read_value].
  rewrite skip_ws_head by done. rewrite H2, H3, H5, H6, H7, H8.
  change (c :: t ++ rest) with ((c :: t) ++ rest). rewrite <-Hct.
  rewrite (read_number_stable _ _ _ rest Hr) by by right. cbn [mbind option_bind app]. by rewrite str_of_chars.
Qed.

Lemma reads_string v s : utf8_ok s = true -> exists q, quote v s = Some q /\ reads_back q (JStr s).
Proof.
  intros Hs. destruct (quote_reads v s Hs) as (q & Hq & Hread). exists ("034"%char :: q). split; [done|].
  split; [by exists "034"%char, q|]. intros rest _. exists 1%nat. cbn [app read_value].
  rewrite skip_ws_head by done. change (Ascii.eqb "034" "034") with true. cbv beta iota. by rewrite Hread.
Qed.

Lemma comma_list_cons x y l : comma_list (x :: y :: l) = x ++ ","%char :: comma_list (y :: l).
Proof. done. Qed.

(** The elements of an array, up to the bracket. *)
Lemma reads_elems l ps rest : Forall2 reads_back ps l -> l <> [] ->
  exists n, read_elems n (comma_list ps ++ "]"%char :: rest) = Some (l, rest).
Proof.
  induction 1 as [|p x ps l [_ Hp] Hps IH]; [done|]. intros _. destruct Hps as [|p2 x2 ps l Hp2 Hps].
  - destruct (Hp ("]"%char :: rest) eq_refl) as [n Hn]. exists (S n). cbn [comma_list fmap list_fmap concat read_elems].
    rewrite app_nil_r, Hn. done.
  - destruct (IH ltac:(done)) as [m Hm]. rewrite comma_list_cons, <-app_assoc. cbn [app].
    destruct (Hp (","%char :: comma_list (p2 :: ps) ++ "]"%char :: rest) eq_refl) as [n Hn]. exists (S (n + m)). cbn [read_elems].
    rewrite (proj1 (read_more n (n + m) ltac:(lia)) _ _ Hn). cbn [mbind option_bind]. rewrite skip_ws_head by done.
    change (Ascii.eqb "," ",") with true. cbv beta iota.
    by rewrite (proj1 (proj2 (read_more m (n + m) ltac:(lia))) _ _ Hm).
Qed.

Lemma reads_array ps l : Forall2 reads_back ps l -> reads_back ("["%char :: comma_list ps ++ ["]"%char]) (JArr l).
Proof.
  intros Hps. split; [eexists _, _; split_and!; [done|done|done]|]. intros rest _. cbn [app]. rewrite <-app_assoc. cbn [app].
  destruct Hps as [|p x ps l Hp Hps]; [by exists 1%nat|].
  destruct (reads_elems (x :: l) (p :: ps) rest) as [n Hn]; [by constructor|done|]. exists (S n). cbn [read_value].
  rewrite skip_ws_head by done. change (Ascii.eqb "[" "034") with false. change (Ascii.eqb "[" "[") with true. cbv beta iota.
  destruct Hp as [(c & t & -> & Hsp & Hc) _]. cbn [comma_list app] in *. rewrite skip_ws_head, Hc by done. by rewrite Hn.
Qed.

(** A member: its quoted name, the colon and the value. *)
Definition member_reads (p : list ascii) (kv : string * json) : Prop :=
  exists q t, p = "034"%char :: q ++ ":"%char :: t /\ (forall rest, read_string (q ++ rest) = Some (kv.1, rest)) /\ reads_back t kv.2.

Lemma reads_members l ps rest : forall seen, Forall2 member_reads ps l -> l <> [] -> NoDup l.*1 ->
  (forall k, k ∈ l.*1 -> k ∉ seen) ->
  exists n, read_members n seen (comma_list ps ++ "}"%char :: rest) = Some (l, rest).
Proof.
  intros seen Hps. revert seen. induction Hps as [|p [k x] ps l (q & t & -> & Hq & _ & Hp) Hps IH]; intros seen Hne Hnd Hseen; [done|].
  rewrite fmap_cons in Hnd. apply NoDup_cons in Hnd as [Hk Hnd]. cbn [fst snd] in *.
  assert (Hname : forall r, read_name ("034"%char :: q ++ ":"%char :: r) = Some (k, r)).
  { intros r. unfold read_name. rewrite skip_ws_head by done. change (Ascii.eqb "034" "034") with true. cbv beta iota.
    rewrite Hq. cbn [mbind option_bind]. by rewrite skip_ws_head. }
  assert (Hnot : bool_decide (k ∈ seen) = false) by (apply bool_decide_eq_false; apply Hseen; by left).
  destruct Hps as [|p2 x2 ps l Hp2 Hps].
  - destruct (Hp ("}"%char :: rest) eq_refl) as [n Hn]. exists (S n). cbn [comma_list fmap list_fmap concat read_members].
    rewrite app_nil_r. cbn [app]. rewrite <-app_assoc. cbn [app]. rewrite Hname. cbn [mbind option_bind]. rewrite Hnot, Hn. done.
  - destruct (IH (k :: seen)) as [m Hm]; [done|done| |].
    { intros k' Hk'. rewrite not_elem_of_cons. split; [by intros ->|]. apply Hseen. by right. }
    rewrite comma_list_cons. cbn [app]. rewrite <-!app_assoc. cbn [app].
    destruct (Hp (","%char :: comma_list (p2 :: ps) ++ "}"%char :: rest) eq_refl) as [n Hn]. exists (S (n + m)). cbn [read_members].
    rewrite Hname. cbn [mbind option_bind]. rewrite Hnot.
    rewrite (proj1 (read_more n (n + m) ltac:(lia)) _ _ Hn). cbn [mbind option_bind]. rewrite skip_ws_head by done.
    change (Ascii.eqb "," ",") with true. cbv beta iota.
    by rewrite (proj2 (proj2 (read_more m (n + m) ltac:(lia))) _ _ _ Hm).
Qed.

Lemma reads_object ps l : Forall2 member_reads ps l -> NoDup l.*1 -> reads_back ("{"%char :: comma_list ps ++ ["}"%char]) (JObj l).
Proof.
  intros Hps Hnd. split; [eexists _, _; split_and!; [done|done|done]|]. intros rest _. cbn [app]. rewrite <-app_assoc. cbn [app].
  destruct Hps as [|p x ps l Hp Hps]; [by exists 1%nat|].
  destruct (reads_members (x :: l) (p :: ps) rest []) as [n Hn]; [by constructor|done|done|by intros k _ ?%not_elem_of_nil|].
  exists (S n). cbn [read_value]. rewrite skip_ws_head by done. change (Ascii.eqb "{" "034") with false.
  change (Ascii.eqb "{" "[") with false. change (Ascii.eqb "{" "{") with true. cbv beta iota.
  destruct Hp as (q & t & -> & _). cbn [comma_list app] in *. rewrite skip_ws_head by done.
  change (Ascii.eqb "034" "}") with false. cbv beta iota. by rewrite Hn.
Qed.

Lemma mapM_cons_some {A B} (f : A -> option B) x l y ys :
  f x = Some y -> mapM f l = Some ys -> mapM f (x :: l) = Some (y :: ys).
Proof. intros Hx Hl. cbn. by rewrite Hx; cbn; rewrite Hl. Qed.

Lemma print_reads v j : json_ok j -> exists p, print v j = Some p /\ reads_back p j.
Proof.
  induction j as [|b|raw|s|l IH|l IH] using json_nested_ind; cbn [json_ok]; intros Hok.
  - eexists. split; [done|]. split; [by eexists _, _|]. intros rest _. by exists 1%nat.
  - destruct b; (eexists; split; [done|]; split; [by eexists _, _|]; intros rest _; by exists 1%nat).
  - exists (chars raw). split; [done|]. by apply reads_number.
  - by apply reads_string.
  - assert (exists ps, mapM (print v) l = Some ps /\ Forall2 reads_back ps l) as (ps & Hps & Hrb).
    { induction IH as [|x l IHx IHl IHgo]; [by exists []|]. destruct Hok as [Hx Hl].
      destruct (IHx Hx) as (p & Hp & Hr). destruct (IHgo Hl) as (ps & Hps & Hrs).
      exists (p :: ps). split; [by apply mapM_cons_some|by constructor]. }
    cbn [print]. rewrite Hps. cbn [mbind option_bind]. eexists. split; [done|]. by apply reads_array.
  - destruct Hok as [Hnd Hok]. set (f := fun '(k, x) => q ← quote v k; p ← print v x; Some (q ++ ":"%char :: p)).
    assert (exists ps, mapM f l = Some ps /\ Forall2 member_reads ps l) as (ps & Hps & Hrb).
    { clear Hnd. induction IH as [|[k x] l IHx IHl IHgo]; [by exists []|]. destruct Hok as [[Hk Hx] Hl]. cbn [snd] in IHx.
      destruct (IHx Hx) as (p & Hp & Hr). destruct (IHgo Hl) as (ps & Hps & Hrs). destruct (quote_reads v k Hk) as (q & Hq & Hqr).
      exists (("034"%char :: q ++ ":"%char :: p) :: ps). split; [|constructor; [|done]; by exists q, p].
      apply mapM_cons_some; [|done]. unfold f. rewrite Hq. cbn [mbind option_bind]. rewrite Hp. done. }
    cbn [print]. fold f. rewrite Hps. cbn [mbind option_bind]. eexists. split; [done|]. by apply reads_object.
Qed.

(** A printed value, before anything that does not continue a number. *)
Lemma print_ReadValue v j rest : json_ok j -> number_end rest = true ->
  exists p, print v j = Some p /\ ReadValue (p ++ rest) = Some (j, rest).
Proof.
  intros Hj He. destruct (print_reads v j Hj) as (p & Hp & _ & Hr). exists p. split; [done|].
  destruct (Hr rest He) as [n Hn]. by eapply ReadValue_some.
Qed.

Lemma print_parse v j : json_ok j -> exists p, print v j = Some p /\ parse p = Some j.
Proof.
  intros Hj. destruct (print_ReadValue v j [] Hj eq_refl) as (p & Hp & Hr). exists p. split; [done|].
  rewrite app_nil_r in Hr. unfold parse. by rewrite Hr.
Qed.

(** ** Printed integers *)

Lemma pretty_char_digit y : (y < 10)%N ->
  is_digit (pretty_N_char y) = true /\ digit_value (pretty_N_char y) = Some (Z.of_N y) /\ (pretty_N_char y = "0"%char -> y = 0%N).
Proof.
  intros Hy. assert (y = 0 \/ y = 1 \/ y = 2 \/ y = 3 \/ y = 4 \/ y = 5 \/ y = 6 \/ y = 7
          \/ y = 8 \/ y = 9)%N as Hcases by lia.
  destruct_or? Hcases; subst y; (split_and!; [done|done|discriminate || done]).
Qed.

Lemma pretty_digits x acc : exists ds, chars (pretty_N_go x acc) = ds ++ chars acc /\ Forall (fun c => is_digit c = true) ds /\
  (forall l, parse_digits (ds ++ l) 0 = parse_digits l (Z.of_N x)) /\
  (x <> 0%N -> exists c t, ds = c :: t /\ c <> "0"%char).
Proof.
  revert acc. induction x as [x IH] using (well_founded_induction N.lt_wf_0). intros acc.
  destruct (decide (x = 0%N)) as [->|Hx]; [by exists []; rewrite pretty_N_go_0|].
  rewrite pretty_N_go_step by lia.
  destruct (IH (x / 10)%N ltac:(by apply N.div_lt; lia) (String (pretty_N_char (x mod 10)) acc)) as (ds & Hds & Hdig & Hval & Hhead).
  destruct (pretty_char_digit (x mod 10)%N) as (Hd & Hv & Hz); [by apply N.mod_lt|].
  exists (ds ++ [pretty_N_char (x mod 10)]). split_and!.
  - by rewrite Hds, <-app_assoc.
  - apply Forall_app. split; [done|]. by constructor.
  - intros l. rewrite <-app_assoc, Hval. cbn [app parse_digits]. rewrite Hv. f_equal. pose proof (N.div_mod x 10 ltac:(done)) as Hdm. lia.
  - intros _. destruct (decide (x / 10 = 0)%N) as [E|E].
    + assert (ds = []) as ->.
      { rewrite E, pretty_N_go_0 in Hds. destruct ds as [|c t]; [done|]. apply (f_equal length) in Hds. cbn in Hds. rewrite length_app in Hds. cbn in Hds. lia. }
      cbn [app]. eexists _, _. split; [done|]. intros Heq%Hz. pose proof (N.div_mod x 10 ltac:(done)). lia.
    + destruct (Hhead E) as (c & t & -> & Hc). by eexists c, _.
Qed.

Lemma span_all p l : Forall (fun c => p c = true) l -> span p l = (l, []).
Proof. induction 1 as [|c l Hc Hl IH]; [done|]. cbn [span]. by rewrite Hc, IH. Qed.

Lemma fmt_d_N n : chars (fmt_d (Z.of_N n)) = chars (if decide (n = 0%N) then "0"%string else pretty_N_go n "").
Proof. destruct n as [|p]; [done|]. done. Qed.

(** A printed integer: an optional minus, then digits without a leading zero. *)
Lemma fmt_d_literal z : exists ds, chars (fmt_d z) = (if z <? 0 then "-"%char :: ds else ds) /\
  Forall (fun c => is_digit c = true) ds /\ parse_digits ds 0 = Some (Z.abs z) /\ read_int ds = Some (ds, []).
Proof.
  assert (Hpos : forall n, exists ds, chars (fmt_d (Z.of_N n)) = ds /\ Forall (fun c => is_digit c = true) ds /\
    parse_digits ds 0 = Some (Z.of_N n) /\ read_int ds = Some (ds, [])).
  { intros n. rewrite fmt_d_N. case_decide as Hn; [subst; exists ["0"%char]; split_and!; [done|by repeat constructor|done|done]|].
    destruct (pretty_digits n "") as (ds & Hds & Hdig & Hval & Hhead). rewrite app_nil_r in Hds. exists ds. split_and!; [done|done| |].
    - specialize (Hval []). by rewrite app_nil_r in Hval.
    - destruct (Hhead Hn) as (c & t & -> & Hc). cbn [read_int]. rewrite (proj2 (Ascii.eqb_neq c "0") Hc).
      unfold digits1. by rewrite span_all. }
  destruct (Z.ltb_spec z 0) as [Hz|Hz].
  - destruct (Hpos (Z.to_N (- z))) as (ds & Hds & H1 & H2 & H3). rewrite Z2N.id in Hds, H2 by lia. exists ds. split_and!; [|done| |done].
    + rewrite fmt_d_neg, chars_app by done. rewrite Hds. done.
    + rewrite H2. f_equal. lia.
  - destruct (Hpos (Z.to_N z)) as (ds & Hds & H1 & H2 & H3). rewrite Z2N.id in Hds, H2 by lia. exists ds. split_and!; [done|done| |done].
    rewrite H2. f_equal. lia.
Qed.

Lemma digit_not_minus c : is_digit c = true -> Ascii.eqb c "-" = false.
Proof. intros Hc. apply Ascii.eqb_neq. by intros ->. Qed.

Lemma number_ok_fmt z : number_ok (fmt_d z).
Proof.
  unfold number_ok, read_number. destruct (fmt_d_literal z) as (ds & -> & Hdig & _ & Hr).
  destruct (z <? 0).
  - change (Ascii.eqb "-" "-") with true. cbv beta iota. rewrite Hr. cbn. by rewrite app_nil_r.
  - destruct ds as [|c t]; [done|]. rewrite (digit_not_minus c) by by inversion Hdig. rewrite Hr. cbn. by rewrite app_nil_r.
Qed.

Lemma int_of_fmt z : int64 z -> int_of_literal (fmt_d z) = Some z.
Proof.
  intros Hz. unfold int_of_literal. destruct (fmt_d_literal z) as (ds & -> & Hdig & Hval & Hr).
  assert (ds <> []) as Hne by (by intros ->). destruct (Z.ltb_spec z 0) as [Hlt|Hlt].
  - change (Ascii.eqb "-" "-") with true. cbv beta iota. destruct ds as [|c t]; [done|]. rewrite Hval. cbn [mbind option_bind].
    replace (- Z.abs z) with z by lia. by rewrite bool_decide_true.
  - destruct ds as [|c t]; [done|]. rewrite (digit_not_minus c) by by inversion Hdig. rewrite Hval. cbn [mbind option_bind].
    replace (Z.abs z) with z by lia. by rewrite bool_decide_true.
Qed.
