(* ===== verification/JsonTyping.v ===== *)
(** * What the reader accepts is well formed (encoding/json/jsontext)

    Every string the reader gives is valid UTF-8, escapes included, every number is
    a literal and the names of an object differ; so whatever was read can be
    printed and read again. *)

From S2P Require Import Prelude GoTime Text Json JsonStrings JsonRoundtrip.

(** ** UTF-8 *)

(** The bytes of one character. *)
Definition utf8_unit (u : list ascii) : Prop :=
  exists c r, u = c :: r /\ ((code c < 128 /\ r = []) \/ (128 <= code c /\ rune_len c r = length u /\ rune_len c r <> 1%nat)).

Lemma utf8_valid_more n : forall l n', utf8_valid n l = true -> (n <= n')%nat -> utf8_valid n' l = true.
Proof.
  induction n as [|n IH]; intros [|c l] [|n'] Hv Hn; try done; try lia. cbn [utf8_valid] in *.
  destruct (code c <? 128); [apply IH; [done|lia]|]. apply andb_true_iff in Hv as [-> Hv]. apply IH; [done|lia].
Qed.

Lemma utf8_valid_unit u l n : utf8_unit u -> utf8_valid n l = true -> utf8_valid (S n) (u ++ l) = true.
Proof.
  intros (c & r & -> & [[Hc ->]|(Hc & Hlen & Hne)]) Hl; cbn [app utf8_valid].
  - by rewrite (proj2 (Z.ltb_lt _ _) Hc).
  - rewrite (proj2 (Z.ltb_ge _ _) Hc). cbn [length] in Hlen.
    assert (Htake : take (rune_len c r - 1) r = r) by (apply take_ge; lia).
    pose proof (rune_len_prefix c r l Hne) as Hp. rewrite Htake in Hp. rewrite Hp, Hlen.
    cbn [Nat.sub]. rewrite Nat.sub_0_r, drop_app_length, Hl, andb_true_r. apply Nat.ltb_lt. lia.
Qed.

Lemma code_chr z : 0 <= z < 256 -> code (chr z) = z.
Proof.
  intros Hz. unfold code, chr. rewrite N_ascii_embedding by lia. lia.
Qed.

Ltac code_lia := rewrite ?code_chr by (Z.to_euclidean_division_equations; lia); Z.to_euclidean_division_equations; lia.

(** [AppendRune] writes one character. *)
Lemma encode_rune_unit r : 0 <= r < 1114112 -> ~ 55296 <= r <= 57343 -> utf8_unit (encode_rune r).
Proof.
  intros Hr Hs. unfold encode_rune. destruct (Z.ltb_spec r 128); [|destruct (Z.ltb_spec r 2048); [|destruct (Z.ltb_spec r 65536)]].
  - eexists _, _. split; [done|]. left. split; [code_lia|done].
  - eexists _, _. split; [done|]. right. split; [code_lia|]. unfold rune_len. cbn [nth_error length].
    rewrite !(proj2 (Z.ltb_ge _ _)), !(proj2 (Z.leb_le _ _)) by code_lia. unfold cont.
    by rewrite !(proj2 (Z.leb_le _ _)) by code_lia.
  - eexists _, _. split; [done|]. right. split; [code_lia|]. unfold rune_len. cbn [nth_error length].
    rewrite (proj2 (Z.ltb_ge _ _)) by code_lia. rewrite (proj2 (Z.leb_gt _ 223)) by code_lia. rewrite andb_false_r.
    rewrite !(proj2 (Z.leb_le _ _)) by code_lia. unfold cont. cbn [andb].
    rewrite (proj2 (Z.leb_le 128 (code (chr (128 + r mod 64))))), (proj2 (Z.leb_le (code (chr (128 + r mod 64))) 191)) by code_lia.
    assert (Hlo : (if code (chr (224 + r / 4096)) =? 224 then 160 else 128) <= code (chr (128 + r / 64 mod 64))).
    { destruct (Z.eqb_spec (code (chr (224 + r / 4096))) 224) as [E|E]; [rewrite code_chr in E by (Z.to_euclidean_division_equations; lia)|]; code_lia. }
    assert (Hhi : code (chr (128 + r / 64 mod 64)) <= (if code (chr (224 + r / 4096)) =? 237 then 159 else 191)).
    { destruct (Z.eqb_spec (code (chr (224 + r / 4096))) 237) as [E|E]; [rewrite code_chr in E by (Z.to_euclidean_division_equations; lia)|]; code_lia. }
    by rewrite (proj2 (Z.leb_le _ _) Hlo), (proj2 (Z.leb_le _ _) Hhi).
  - eexists _, _. split; [done|]. right. split; [code_lia|]. unfold rune_len. cbn [nth_error length].
    rewrite (proj2 (Z.ltb_ge _ _)) by code_lia. rewrite (proj2 (Z.leb_gt _ 223)), (proj2 (Z.leb_gt _ 239)) by code_lia. rewrite !andb_false_r.
    rewrite (proj2 (Z.leb_le 240 _)), (proj2 (Z.leb_le _ 244)) by code_lia. unfold cont. cbn [andb].
    rewrite (proj2 (Z.leb_le 128 (code (chr (128 + r mod 64))))), (proj2 (Z.leb_le (code (chr (128 + r mod 64))) 191)) by code_lia.
    rewrite (proj2 (Z.leb_le 128 (code (chr (128 + r / 64 mod 64))))), (proj2 (Z.leb_le (code (chr (128 + r / 64 mod 64))) 191)) by code_lia.
    assert (Hlo : (if code (chr (240 + r / 262144)) =? 240 then 144 else 128) <= code (chr (128 + r / 4096 mod 64))).
    { destruct (Z.eqb_spec (code (chr (240 + r / 262144))) 240) as [E|E]; [rewrite code_chr in E by (Z.to_euclidean_division_equations; lia)|]; code_lia. }
    assert (Hhi : code (chr (128 + r / 4096 mod 64)) <= (if code (chr (240 + r / 262144)) =? 244 then 143 else 191)).
    { destruct (Z.eqb_spec (code (chr (240 + r / 262144))) 244) as [E|E]; [rewrite code_chr in E by (Z.to_euclidean_division_equations; lia)|]; code_lia. }
    by rewrite (proj2 (Z.leb_le _ _) Hlo), (proj2 (Z.leb_le _ _) Hhi).
Qed.

Lemma hex_val_range c z : hex_val c = Some z -> 0 <= z < 16.
Proof. unfold hex_val. repeat case_match; intros; simplify_eq; rewrite ?andb_true_iff, ?Z.leb_le in *; lia. Qed.

Lemma hex4_range l r rest : hex4 l = Some (r, rest) -> 0 <= r < 65536.
Proof.
  destruct l as [|a [|b [|c [|d l]]]]; try done. cbn [hex4]. intros Hh. inv_some.
  repeat match goal with H : hex_val _ = Some _ |- _ => apply hex_val_range in H end. lia.
Qed.

Lemma unescape_u_unit l u rest : unescape_u l = Some (u, rest) -> utf8_unit u.
Proof.
  unfold unescape_u. intros Hu. apply bind_Some_iff in Hu as ([r l1] & Hh%hex4_range & Hu).
  destruct ((55296 <=? r) && (r <=? 57343)) eqn:Esur.
  - destruct l1 as [|b [|v l1]]; [done..|]. destruct (Ascii.eqb b "\" && Ascii.eqb v "u" && (r <=? 56319)) eqn:Ehigh; [|done].
    apply bind_Some_iff in Hu as ([r2 l2] & Hh2%hex4_range & Hu). destruct ((56320 <=? r2) && (r2 <=? 57343)) eqn:Elow; [|done].
    injection Hu as <- <-. rewrite ?andb_true_iff, ?Z.leb_le in *. apply encode_rune_unit; lia.
  - injection Hu as <- <-. apply andb_false_iff in Esur. rewrite !Z.leb_gt in Esur. apply encode_rune_unit; lia.
Qed.

Lemma unquote_step_unit l u rest : unquote_step l = Some (u, rest) -> utf8_unit u.
Proof.
  destruct l as [|c l]; [done|]. unfold unquote_step. cbv zeta. destruct (code c =? 92).
  - destruct l as [|e l]; [done|]. destruct (Ascii.eqb e "u"); [apply unescape_u_unit|].
    intros Hu. apply bind_Some_iff in Hu as (x & Hx & [= <- <-]). exists x, []. split; [done|]. left. split; [|done].
    unfold escape_value in Hx. repeat case_match; simplify_eq; try done. rewrite ?orb_true_iff, ?Z.eqb_eq in *. lia.
  - destruct (code c <? 32); [done|]. destruct (Z.ltb_spec (code c) 128).
    + intros [= <- <-]. exists c, []. split; [done|]. by left.
    + destruct (Nat.eqb_spec (rune_len c l) 1) as [|Hne]; [done|]. intros [= <- <-].
      destruct (rune_len_long c l Hne) as [Hc Hlen]. destruct (rune_len c l) as [|k] eqn:E; [destruct (rune_len_cases c l) as [|[|[]]]; lia|].
      cbn [take]. eexists _, _. split; [done|]. right. split; [done|]. rewrite <-E in Hne. pose proof (rune_len_prefix c l [] Hne) as Hp.
      rewrite E in Hp. cbn [Nat.sub] in Hp. rewrite Nat.sub_0_r, app_nil_r in Hp. cbn [length]. rewrite Hp, length_take. split; [lia|congruence].
Qed.

Lemma unquote_utf8 n : forall l x rest, unquote n l = Some (x, rest) -> utf8_valid (length x) x = true.
Proof.
  induction n as [|n IH]; intros [|c l] x rest; cbn [unquote]; try done; (destruct (Ascii.eqb c "034"); [by intros [= <- _]|]); [done|].
  intros Hu. apply bind_Some_iff in Hu as ([y r] & Hs%unquote_step_unit & Hu). apply bind_Some_iff in Hu as ([ys r'] & Hr%IH & [= <- <-]).
  eapply utf8_valid_more; [by apply utf8_valid_unit|]. destruct Hs as (c' & t & -> & _). rewrite length_app. cbn [length]. lia.
Qed.

Lemma read_string_utf8 l s rest : read_string l = Some (s, rest) -> utf8_ok s = true.
Proof.
  unfold read_string. intros Hr. apply bind_Some_iff in Hr as ([x r] & Hu%unquote_utf8 & [= <- <-]).
  unfold utf8_ok. by rewrite <-chars_length, chars_str_of.
Qed.

(** ** Numbers *)

(** The text after the digits of a number. *)
Definition no_digit (rest : list ascii) : Prop := match rest with [] => True | c :: _ => is_digit c = false end.

Lemma digits1_prefix l x r rest : digits1 l = Some (x, r) -> no_digit rest -> digits1 (x ++ rest) = Some (x, rest).
Proof.
  unfold digits1. intros Hd Hr. destruct (span is_digit l) as [a b] eqn:E.
  assert (a = x /\ a <> []) as [-> Hne] by (destruct a; by simplify_eq). clear Hd.
  assert (Hs : span is_digit (x ++ rest) = (x, rest)).
  { clear Hne. revert x b E. induction l as [|c l IH]; intros x b E; cbn [span] in E.
    - injection E as <- <-. destruct rest as [|c rest]; [done|]. cbn [app span]. by rewrite Hr.
    - destruct (is_digit c) eqn:Hc.
      + destruct (span is_digit l) as [a1 b1]. injection E as <- <-. cbn [app span]. rewrite Hc. by rewrite (IH a1 b1).
      + injection E as <- <-. destruct rest as [|c' rest]; [done|]. cbn [app span]. by rewrite Hr. }
  rewrite Hs. by destruct x.
Qed.

Lemma read_int_prefix l x r rest : read_int l = Some (x, r) -> no_digit rest ->
  read_int (x ++ rest) = Some (x, rest) /\ forall c t, x = c :: t -> is_digit c = true.
Proof.
  destruct l as [|c l]; [done|]. cbn [read_int]. destruct (Ascii.eqb c "0") eqn:Hc.
  - intros [= <- _] _. cbn [app read_int]. rewrite Hc. split; [done|]. intros c' t [= <- _]. apply Ascii.eqb_eq in Hc as ->. done.
  - intros Hd Hr. pose proof (digits1_prefix _ _ _ _ Hd Hr) as Hp. pose proof (digits1_consumes _ _ _ Hd) as Hx.
    pose proof (digits1_nonempty _ _ _ Hd) as Hne. destruct x as [|c' t]; [done|]. injection Hx as <- ->.
    cbn [app] in *. cbn [read_int]. rewrite Hc. split; [done|]. intros c2 t2 [= <- _].
    unfold digits1 in Hd. cbn [span] in Hd. by destruct (is_digit c).
Qed.

Lemma read_frac_prefix l x r rest : read_frac l = Some (x, r) -> no_digit rest ->
  (forall c t, rest = c :: t -> Ascii.eqb c "." = false) ->
  read_frac (x ++ rest) = Some (x, rest) /\ no_digit (x ++ rest).
Proof.
  intros Hf Hr Hdot. assert (Hnil : read_frac ([] ++ rest) = Some ([], rest) /\ no_digit ([] ++ rest)).
  { split; [|done]. destruct rest as [|c rest]; [done|]. cbn. by rewrite (Hdot c rest). }
  destruct l as [|c l]; cbn [read_frac] in Hf; [by injection Hf as <- _|].
  destruct (Ascii.eqb c ".") eqn:Hc; [|by injection Hf as <- _].
  apply bind_Some_iff in Hf as ([ds r'] & Hd & [= <- _]). split.
  - cbn [app read_frac]. rewrite Hc. by rewrite (digits1_prefix _ _ _ _ Hd Hr).
  - apply Ascii.eqb_eq in Hc as ->. done.
Qed.

Lemma read_exp_prefix l x r : read_exp l = Some (x, r) -> read_exp x = Some (x, []) /\ no_digit x /\
  (forall c t, x = c :: t -> Ascii.eqb c "." = false).
Proof.
  destruct l as [|c l]; cbn [read_exp]; [by intros [= <- _]|]. destruct (Ascii.eqb c "e" || Ascii.eqb c "E") eqn:Hc; [|by intros [= <- _]].
  assert (Hce : is_digit c = false /\ Ascii.eqb c "." = false) by (apply orb_true_iff in Hc as [->%Ascii.eqb_eq| ->%Ascii.eqb_eq]; done).
  destruct Hce as [Hdig Hdot]. assert (Hhead : forall t, no_digit (c :: t) /\ forall c' t', c :: t = c' :: t' -> Ascii.eqb c' "." = false).
  { intros t. split; [done|]. by intros c' t' [= <- _]. }
  destruct l as [|s l]; [done|]. destruct (is_sign s) eqn:Hs; intros He; apply bind_Some_iff in He as ([ds r'] & Hd & [= <- _]).
  - split; [|apply Hhead]. cbn [read_exp]. rewrite Hc, Hs. pose proof (digits1_prefix _ _ _ [] Hd I) as Hp. rewrite app_nil_r in Hp. by rewrite Hp.
  - split; [|apply Hhead]. cbn [read_exp]. rewrite Hc. pose proof (digits1_prefix _ _ _ [] Hd I) as Hp. rewrite app_nil_r in Hp.
    pose proof (digits1_consumes _ _ _ Hd) as Hx. pose proof (digits1_nonempty _ _ _ Hd) as Hne.
    destruct ds as [|s' ds]; [done|]. injection Hx as <- _. rewrite Hs, Hp. done.
Qed.

Lemma read_number_literal l x r : read_number l = Some (x, r) -> read_number x = Some (x, []).
Proof.
  unfold read_number at 1.
  destruct (match l with c :: tl => if Ascii.eqb c "-" then ([c], tl) else ([], l) | [] => ([], l) end) as [sign l'] eqn:E.
  intros Hr. apply bind_Some_iff in Hr as ([ds l1] & H1 & Hr). apply bind_Some_iff in Hr as ([fr l2] & H2 & Hr).
  apply bind_Some_iff in Hr as ([ex l3] & H3 & Hr). injection Hr as <- <-.
  destruct (read_exp_prefix _ _ _ H3) as (P3 & Hd3 & Hdot).
  destruct (read_frac_prefix _ _ _ ex H2 Hd3 Hdot) as [P2 Hd2].
  destruct (read_int_prefix _ _ _ (fr ++ ex) H1 Hd2) as [P1 Hhead].
  assert (Hgo : (let '(ds0, l0) := (ds, fr ++ ex) in '(fr0, l0) ← read_frac l0; '(ex0, l0) ← read_exp l0;
      Some (sign ++ ds0 ++ fr0 ++ ex0, l0)) = Some (sign ++ ds ++ fr ++ ex, [])).
  { cbv beta iota. rewrite P2. cbn [mbind option_bind]. by rewrite P3. }
  assert (Hsign : sign = [] \/ sign = ["-"%char]).
  { destruct l as [|c l]; [injection E as <- _; by left|]. destruct (Ascii.eqb_spec c "-") as [->|_]; injection E as <- _; auto. }
  unfold read_number. destruct Hsign as [->| ->]; cbn [app].
  - destruct ds as [|c ds]; [by destruct l' as [|c0 l']; [done|]; cbn in H1; destruct (Ascii.eqb c0 "0"); [|apply digits1_nonempty in H1]|].
    cbn [app] in *. rewrite (digit_not_minus c) by by eapply Hhead. rewrite P1. cbn [mbind option_bind]. exact Hgo.
  - change (Ascii.eqb "-" "-") with true. cbv beta iota. rewrite P1. cbn [mbind option_bind]. exact Hgo.
Qed.

(** ** Values *)

Lemma json_ok_arr l : json_ok (JArr l) <-> Forall json_ok l.
Proof.
  cbn [json_ok]. induction l as [|x l IH]; [split; [constructor|done]|]. rewrite Forall_cons, IH. done.
Qed.

Lemma json_ok_obj l : json_ok (JObj l) <-> NoDup l.*1 /\ Forall (fun kv => utf8_ok kv.1 = true /\ json_ok kv.2) l.
Proof.
  cbn [json_ok]. apply and_iff_compat_l. induction l as [|[k x] l IH]; [split; [constructor|done]|]. rewrite Forall_cons, IH. done.
Qed.

Lemma read_name_utf8 l k r : read_name l = Some (k, r) -> utf8_ok k = true.
Proof.
  unfold read_name. destruct (skip_ws l) as [|c l1]; [done|]. destruct (Ascii.eqb c "034"); [|done].
  intros Hr. apply bind_Some_iff in Hr as ([s l2] & Hs%read_string_utf8 & Hr). destruct (skip_ws l2) as [|c' l3]; [done|].
  destruct (Ascii.eqb c' ":"); [|done]. by injection Hr as <- _.
Qed.

Lemma read_ok n :
  (forall l v r, read_value n l = Some (v, r) -> json_ok v) /\
  (forall l vs r, read_elems n l = Some (vs, r) -> Forall json_ok vs) /\
  (forall seen l ms r, read_members n seen l = Some (ms, r) ->
    (NoDup ms.*1 /\ forall k, k ∈ ms.*1 -> k ∉ seen) /\ Forall (fun kv => utf8_ok kv.1 = true /\ json_ok kv.2) ms).
Proof.
  induction n as [|n (IHv & IHe & IHm)]; [done|]. split_and!.
  - intros l v r. cbn [read_value]. destruct (skip_ws l) as [|c l1]; [done|].
    destruct (Ascii.eqb c "034"); [intros Hr; by apply bind_Some_iff in Hr as ([s l2] & Hs%read_string_utf8 & [= <- _])|].
    destruct (Ascii.eqb c "[").
    { destruct (skip_ws l1) as [|c' l2]; [done|]. destruct (Ascii.eqb c' "]"); [by intros [= <- _]|].
      intros Hr. apply bind_Some_iff in Hr as ([vs l3] & Hs%IHe & [= <- _]). by apply json_ok_arr. }
    destruct (Ascii.eqb c "{").
    { destruct (skip_ws l1) as [|c' l2]; [done|]. destruct (Ascii.eqb c' "}"); [intros [= <- _]; split; [constructor|done]|].
      intros Hr. apply bind_Some_iff in Hr as ([vs l3] & Hs%IHm & [= <- _]). apply json_ok_obj. split; apply Hs. }
    do 3 (case_match; [intros Hr; by apply bind_Some_iff in Hr as (l2 & _ & [= <- _])|]).
    intros Hr. apply bind_Some_iff in Hr as ([raw l2] & Hs%read_number_literal & [= <- _]). cbn [json_ok]. unfold number_ok.
    by rewrite chars_str_of.
  - intros l vs r. cbn [read_elems]. intros Hr. apply bind_Some_iff in Hr as ([v l1] & Hv%IHv & Hr).
    destruct (skip_ws l1) as [|c l2]; [done|].
    destruct (Ascii.eqb c ","); [apply bind_Some_iff in Hr as ([vs' l3] & Hs%IHe & [= <- _]); by constructor|].
    destruct (Ascii.eqb c "]"); [injection Hr as <- _; by repeat constructor|done].
  - intros seen l ms r. cbn [read_members]. intros Hr. apply bind_Some_iff in Hr as ([k l0] & Hk%read_name_utf8 & Hr).
    case_bool_decide as Hseen; [done|]. apply bind_Some_iff in Hr as ([v l1] & Hv%IHv & Hr).
    destruct (skip_ws l1) as [|c l2]; [done|]. destruct (Ascii.eqb c ",").
    + apply bind_Some_iff in Hr as ([ms' l3] & ((Hnd & Hnot) & Hms)%IHm & [= <- _]). split; [|by constructor]. rewrite fmap_cons. cbn [fst]. split.
      * constructor; [|done]. intros Hin. apply (Hnot k Hin). by left.
      * intros k' [->|Hin]%elem_of_cons; [done|]. intros Hs. apply (Hnot k' Hin). by right.
    + destruct (Ascii.eqb c "}"); [|done]. injection Hr as <- _. split; [|by repeat constructor]. cbn [fmap list_fmap fst]. split.
      * apply NoDup_singleton.
      * by intros k' ->%list_elem_of_singleton.
Qed.

Lemma ReadValue_ok l v r : ReadValue l = Some (v, r) -> json_ok v.
Proof. apply (read_ok (read_fuel l)). Qed.

Lemma parse_ok l v : parse l = Some v -> json_ok v.
Proof.
  unfold parse. intros Hp. apply bind_Some_iff in Hp as ([v' r] & Hr%ReadValue_ok & Hp).
  destruct (skip_ws r); [by injection Hp as <-|done].
Qed.
