(* ===== verification/EventJson.v ===== *)
(** * Events as JSON (event.go)

    Marshalling and strict unmarshalling of events and tags, the canonical text an
    event's id is the hash of, and the check of id and signature.  Schnorr
    signatures are a parameter.

    The code reads a member's raw text before it decodes it; here the value is read
    once.  The raw text decides only whether [created_at] holds one of [.eE], and
    a value other than a number is refused in either case. *)

From S2P Require Import Prelude GoTime Text Bytes Event PebbleKeys Json JsonStrings JsonRoundtrip JsonTyping.

(** ** The wire form *)

Record eventWire : Type := mkEventWire {
  w_ID : string;
  w_Pubkey : string;
  w_CreatedAt : Z;
  w_Kind : Z;
  w_Tags : option (list Tag);
  w_Content : string;
  w_Sig : string
}.

Definition zeroWire : eventWire := mkEventWire "" "" 0 0 None "" "".

Definition wire_of (e : Event) : eventWire :=
  mkEventWire (ev_ID e) (ev_Pubkey e) (Unix (ev_CreatedAt e)) (ev_Kind e) (ev_Tags e) (ev_Content e) (ev_Sig e).

Definition of_wire (w : eventWire) : Event :=
  mkEvent (w_ID w) (w_Pubkey w) (time_Unix (w_CreatedAt w)) (w_Kind w) (w_Tags w) (w_Content w) (w_Sig w).

(** ** Marshalling *)

Definition JInt (z : Z) : json := JNum (fmt_d z).

(** A tag without elements is a nil slice, the only empty tag the reader makes; the
    options of encoding/json print it as null. *)
Definition tag_json (v : Flavor) (t : Tag) : json :=
  match t with
  | [] => if is_v1 v then JNull else JArr []
  | _ => JArr (JStr <$> t)
  end.

Definition tags_json (v : Flavor) (ts : option (list Tag)) : json := JArr (tag_json v <$> default [] ts).

(** [MarshalJSONTo]: nil tags are written as an empty array. *)
Definition event_json (v : Flavor) (e : Event) : json :=
  let w := wire_of e in
  JObj [("id"%string, JStr (w_ID w)); ("pubkey"%string, JStr (w_Pubkey w)); ("created_at"%string, JInt (w_CreatedAt w));
        ("kind"%string, JInt (w_Kind w)); ("tags"%string, tags_json v (w_Tags w)); ("content"%string, JStr (w_Content w));
        ("sig"%string, JStr (w_Sig w))].

Definition marshal (v : Flavor) (j : json) : Res (list ascii) :=
  match print v j with Some p => Ok p | None => Err "invalid UTF-8" end.

(** ** Unmarshalling *)

(** Into a string: null is the zero value. *)
Definition string_of_json (j : json) : Res string :=
  match j with JStr s => Ok s | JNull => Ok ""%string | _ => Err "cannot unmarshal into Go string" end.

Definition int64_of_json (j : json) : Res Z :=
  match j with
  | JNum raw => match int_of_literal raw with Some z => Ok z | None => Err "cannot unmarshal into Go int64" end
  | JNull => Ok 0
  | _ => Err "cannot unmarshal into Go int64"
  end.

(** The loop over the elements of a tag. *)
Definition tag_element (j : json) : Res string :=
  match j with
  | JNull => Err "tag elements must be non-null strings"
  | JStr s => Ok s
  | _ => Err "invalid tag element"
  end.

(** [Tag.UnmarshalJSONFrom] *)
Definition Tag_UnmarshalJSONFrom (j : json) : Res Tag :=
  match j with JArr l => mapM tag_element l | _ => Err "expected array for tag" end.

Definition tags_of_json (j : json) : Res (option (list Tag)) :=
  match j with
  | JArr l => ts ← mapM Tag_UnmarshalJSONFrom l; mret (Some ts)
  | JNull => Ok None
  | _ => Err "cannot unmarshal into Go []Tag"
  end.

(** One member, under [RejectUnknownMembers]. *)
Definition set_member (w : eventWire) (kv : string * json) : Res eventWire :=
  let '(k, j) := kv in
  let '(mkEventWire i p c n t x s) := w in
  if String.eqb k "id" then i ← string_of_json j; mret (mkEventWire i p c n t x s)
  else if String.eqb k "pubkey" then p ← string_of_json j; mret (mkEventWire i p c n t x s)
  else if String.eqb k "created_at" then c ← int64_of_json j; mret (mkEventWire i p c n t x s)
  else if String.eqb k "kind" then n ← int64_of_json j; mret (mkEventWire i p c n t x s)
  else if String.eqb k "tags" then t ← tags_of_json j; mret (mkEventWire i p c n t x s)
  else if String.eqb k "content" then x ← string_of_json j; mret (mkEventWire i p c n t x s)
  else if String.eqb k "sig" then s ← string_of_json j; mret (mkEventWire i p c n t x s)
  else Err "unknown object member name".

Fixpoint set_members (w : eventWire) (ms : list (string * json)) : Res eventWire :=
  match ms with [] => Ok w | kv :: ms => w ← set_member w kv; set_members w ms end.

(** [bytes.ContainsAny(raw, ".eE")] *)
Definition contains_any (raw : string) : bool :=
  existsb (fun c => Ascii.eqb c "." || Ascii.eqb c "e" || Ascii.eqb c "E") (chars raw).

(** The checks of the counting loop on one member. *)
Definition check_member (kv : string * json) : Res unit :=
  let '(k, j) := kv in
  match j with
  | JNull => Err "field must not be null"
  | JNum raw => if String.eqb k "created_at" && contains_any raw then Err "created_at must be an integer" else Ok ()
  | _ => Ok ()
  end.

(** The counting loop: how many members there are. *)
Fixpoint count_members (ms : list (string * json)) : Res nat :=
  match ms with [] => Ok O | kv :: ms => _ ← check_member kv; n ← count_members ms; mret (S n) end.

(** [Event.UnmarshalJSONFrom], on the value read. *)
Definition Event_UnmarshalJSONFrom (j : json) : Res Event :=
  match j with
  | JObj ms =>
      count ← count_members ms;
      if negb (count =? 7)%nat then Err "event must have exactly 7 fields"
      else w ← set_members zeroWire ms; mret (of_wire w)
  | _ => Err "expected object"
  end.

(** ** Ids and signatures *)

(** [Serialize]; [None] is the nil event. *)
Definition Serialize (oe : option Event) : Res (list ascii) :=
  match oe with
  | None => Err "nil event"
  | Some e =>
      pubkeyJSON ← marshal V2 (JStr (ev_Pubkey e));
      tagsJSON ← marshal V2 (tags_json V2 (ev_Tags e));
      contentJSON ← marshal V2 (JStr (ev_Content e));
      mret (lit "[0," ++ pubkeyJSON ++ lit "," ++ chars (fmt_d (Unix (ev_CreatedAt e))) ++ lit "," ++
            chars (fmt_d (ev_Kind e)) ++ lit "," ++ tagsJSON ++ lit "," ++ contentJSON ++ lit "]")
  end.

(** [hex.DecodeString] *)
Fixpoint DecodeString (l : list ascii) : Res bytes :=
  match l with
  | [] => Ok []
  | a :: b :: rest =>
      match hex_val a, hex_val b with
      | Some x, Some y => r ← DecodeString rest; mret (x * 16 + y :: r)
      | _, _ => Err "encoding/hex: invalid byte"
      end
  | [_] => Err "encoding/hex: odd length hex string"
  end.

(** Package schnorr. *)
Class Schnorr : Type := {
  SchnorrPubKey : Type;
  SchnorrSignature : Type;
  ParsePubKey : bytes -> Res SchnorrPubKey;
  ParseSignature : bytes -> Res SchnorrSignature;
  sig_Verify : SchnorrSignature -> bytes -> SchnorrPubKey -> bool
}.

(** The id of the serialized text: [hex.EncodeToString] prints as [bytesToHex]. *)
Definition id_of_text (serialized : list ascii) : string := bytesToHex (sha256 (code <$> serialized)).

Section Verify.

Context `{Schnorr}.

(** [Verify] *)
Definition Verify (oe : option Event) : Res bool :=
  match oe with
  | None => Err "nil event"
  | Some e =>
      serialized ← Serialize (Some e);
      if negb (String.eqb (ev_ID e) (id_of_text serialized)) then Ok false
      else
        pubkeyBytes ← DecodeString (chars (ev_Pubkey e));
        pubkey ← ParsePubKey pubkeyBytes;
        sigBytes ← DecodeString (chars (ev_Sig e));
        sig ← ParseSignature sigBytes;
        idBytes ← DecodeString (chars (ev_ID e));
        mret (sig_Verify sig idBytes pubkey)
  end.

End Verify.

(** ** Reading back a marshalled event *)

(** What survives being written and read: valid UTF-8, whole seconds, tags that
    are there and not empty. *)
Record portable (e : Event) : Prop := {
  pt_ID : utf8_ok (ev_ID e) = true;
  pt_Pubkey : utf8_ok (ev_Pubkey e) = true;
  pt_time : ev_CreatedAt e = time_Unix (Unix (ev_CreatedAt e));
  pt_kind : int64 (ev_Kind e);
  pt_tags : exists ts, ev_Tags e = Some ts /\ Forall (fun t => t <> [] /\ Forall (fun s => utf8_ok s = true) t) ts;
  pt_Content : utf8_ok (ev_Content e) = true;
  pt_Sig : utf8_ok (ev_Sig e) = true
}.

Lemma mapM_Ok_fmap {A B C} (f : B -> Res C) (g : A -> B) (h : A -> C) l :
  Forall (fun a => f (g a) = Ok (h a)) l -> mapM f (g <$> l) = Ok (h <$> l).
Proof. induction 1 as [|a l Ha Hl IH]; [done|]. cbn in *. rewrite Ha. cbn. by rewrite IH. Qed.

Lemma tag_reads v t : is_v1 v = false \/ t <> [] -> Tag_UnmarshalJSONFrom (tag_json v t) = Ok t.
Proof.
  destruct t as [|x t]; [intros [Hv|]; [by destruct v|done]|]. intros _. unfold tag_json, Tag_UnmarshalJSONFrom.
  rewrite (mapM_Ok_fmap _ _ id); [by rewrite list_fmap_id|]. by apply Forall_true.
Qed.

Lemma tags_read v ts : Forall (fun t => is_v1 v = false \/ t <> []) ts -> tags_of_json (tags_json v (Some ts)) = Ok (Some ts).
Proof.
  intros Hts. unfold tags_of_json, tags_json. cbn [default from_option]. rewrite (mapM_Ok_fmap _ _ id); [by rewrite list_fmap_id|].
  eapply Forall_impl; [exact Hts|]. intros t. apply tag_reads.
Qed.

Lemma JInt_reads z : int64 z -> int64_of_json (JInt z) = Ok z.
Proof. intros Hz. unfold int64_of_json, JInt. by rewrite int_of_fmt. Qed.

Lemma literal_plain z : contains_any (fmt_d z) = false.
Proof.
  unfold contains_any. destruct (fmt_d_literal z) as (ds & -> & Hd & _).
  assert (Hds : existsb (fun c => Ascii.eqb c "." || Ascii.eqb c "e" || Ascii.eqb c "E") ds = false).
  { induction Hd as [|c l Hc Hl IH]; [done|]. cbn [existsb]. rewrite IH, orb_false_r.
    destruct c as [[] [] [] [] [] [] [] []]; try done; discriminate Hc. }
  by destruct (z <? 0).
Qed.

Lemma count_members_ok ms : Forall (fun kv => check_member kv = Ok ()) ms -> count_members ms = Ok (length ms).
Proof. induction 1 as [|kv ms Hkv Hms IH]; [done|]. cbn [count_members length]. rewrite Hkv. cbn [mbind Res_bind]. by rewrite IH. Qed.

Lemma set_members_cons w w' kv ms : set_member w kv = Ok w' -> set_members w (kv :: ms) = set_members w' ms.
Proof. intros Hw. cbn [set_members]. by rewrite Hw. Qed.

Lemma set_int i p c n t x s z : int64 z ->
  set_member (mkEventWire i p c n t x s) ("created_at"%string, JInt z) = Ok (mkEventWire i p z n t x s) /\
  set_member (mkEventWire i p c n t x s) ("kind"%string, JInt z) = Ok (mkEventWire i p c z t x s).
Proof.
  intros Hz. split.
  - transitivity (z' ← int64_of_json (JInt z); mret (mkEventWire i p z' n t x s) : Res eventWire); [done|]. by rewrite JInt_reads.
  - transitivity (z' ← int64_of_json (JInt z); mret (mkEventWire i p c z' t x s) : Res eventWire); [done|]. by rewrite JInt_reads.
Qed.

Lemma set_tags i p c n t x s j ts : tags_of_json j = Ok ts ->
  set_member (mkEventWire i p c n t x s) ("tags"%string, j) = Ok (mkEventWire i p c n ts x s).
Proof.
  intros Hj. transitivity (t ← tags_of_json j; mret (mkEventWire i p c n t x s) : Res eventWire); [done|]. by rewrite Hj.
Qed.

Lemma event_json_reads' v e ts : ev_CreatedAt e = time_Unix (Unix (ev_CreatedAt e)) -> int64 (ev_Kind e) ->
  ev_Tags e = Some ts -> Forall (fun t => is_v1 v = false \/ t <> []) ts -> Event_UnmarshalJSONFrom (event_json v e) = Ok e.
Proof.
  intros Ht Hk Hts Htags. unfold Event_UnmarshalJSONFrom, event_json.
  assert (Hint : forall k z, check_member (k, JInt z) = Ok ()).
  { intros k z. unfold check_member, JInt. by rewrite literal_plain, andb_false_r. }
  rewrite count_members_ok by (repeat (constructor; [done || apply Hint|]); constructor).
  cbn [length mbind Res_bind Nat.eqb negb]. unfold zeroWire.
  do 2 (erewrite set_members_cons; [|reflexivity]).
  assert (Hu : int64 (Unix (ev_CreatedAt e))) by apply wrap_int64_range.
  cbn [wire_of w_ID w_Pubkey w_CreatedAt w_Kind w_Tags w_Content w_Sig].
  rewrite (set_members_cons _ _ _ _ (proj1 (set_int _ _ _ _ _ _ _ _ Hu))).
  rewrite (set_members_cons _ _ _ _ (proj2 (set_int _ _ _ _ _ _ _ _ Hk))).
  rewrite (set_members_cons _ (mkEventWire (ev_ID e) (ev_Pubkey e) (Unix (ev_CreatedAt e)) (ev_Kind e) (Some ts) "" "")).
  2: { rewrite Hts. by apply set_tags, tags_read. }
  do 2 (erewrite set_members_cons; [|reflexivity]).
  cbn [set_members mbind Res_bind]. unfold of_wire. cbn. rewrite <-Ht, <-Hts. by destruct e.
Qed.

Lemma event_json_reads v e : portable e -> Event_UnmarshalJSONFrom (event_json v e) = Ok e.
Proof.
  intros [_ _ Ht Hk (ts & Hts & Htags) _ _]. eapply event_json_reads'; [done..|].
  eapply Forall_impl; [exact Htags|]. intros t [? _]. by right.
Qed.

(** ** The text of an event *)

Lemma tags_json_ok v ts : Forall (fun t => Forall (fun s => utf8_ok s = true) t) ts -> json_ok (tags_json v (Some ts)).
Proof.
  intros Hts. unfold tags_json. apply json_ok_arr. cbn [default from_option]. apply Forall_fmap.
  eapply Forall_impl; [exact Hts|]. intros [|x t] Ht; [by unfold compose, tag_json; destruct (is_v1 v)|].
  unfold compose, tag_json. apply json_ok_arr, Forall_fmap. exact Ht.
Qed.

Lemma JInt_ok z : json_ok (JInt z).
Proof. apply number_ok_fmt. Qed.

(** What can be written: valid UTF-8. *)
Record printable (e : Event) : Prop := {
  pr_strings : Forall (fun s => utf8_ok s = true) [ev_ID e; ev_Pubkey e; ev_Content e; ev_Sig e];
  pr_tags : forall ts, ev_Tags e = Some ts -> Forall (fun t => Forall (fun s => utf8_ok s = true) t) ts
}.

Lemma portable_printable e : portable e -> printable e.
Proof.
  intros [H1' H2' Ht Hk (ts & Hts & Htags) H3' H4']. split; [by repeat constructor|]. intros ts' Hts'.
  assert (ts' = ts) as -> by congruence. eapply Forall_impl; [exact Htags|]. by intros t [_ ?].
Qed.

Lemma event_json_ok v e : printable e -> json_ok (event_json v e).
Proof.
  intros [Hs Htags]. rewrite !Forall_cons in Hs. destruct Hs as (H1' & H2' & H3' & H4' & _).
  unfold event_json. apply json_ok_obj. split.
  { apply (bool_decide_unpack _). vm_compute. exact I. }
  cbn [wire_of w_ID w_Pubkey w_CreatedAt w_Kind w_Tags w_Content w_Sig].
  assert (Hj : json_ok (tags_json v (ev_Tags e))).
  { destruct (ev_Tags e) as [ts|]; [by apply tags_json_ok, Htags|by apply (tags_json_ok v [])]. }
  repeat (apply Forall_cons; split; [split; [reflexivity|first [exact Hj|apply JInt_ok|done]]|]). constructor.
Qed.

(** [json.Marshal] of an event. *)
Definition marshal_text (v : Flavor) (e : Event) : Res (list ascii) := marshal v (event_json v e).

(** [json.Unmarshal] into an event. *)
Definition unmarshal_text (l : list ascii) : Res Event :=
  match parse l with Some j => Event_UnmarshalJSONFrom j | None => Err "invalid JSON" end.

Lemma marshal_reads v e : portable e -> exists l, marshal_text v e = Ok l /\ unmarshal_text l = Ok e.
Proof.
  intros He. destruct (print_parse v _ (event_json_ok v e (portable_printable e He))) as (p & Hp & Hparse).
  exists p. unfold marshal_text, marshal, unmarshal_text. rewrite Hp, Hparse. split; [done|]. by apply event_json_reads.
Qed.

(** ** The canonical text *)

Definition serial_json (e : Event) : json :=
  JArr [JInt 0; JStr (ev_Pubkey e); JInt (Unix (ev_CreatedAt e)); JInt (ev_Kind e); tags_json V2 (ev_Tags e); JStr (ev_Content e)].

Lemma Serialize_print e : Serialize (Some e) = marshal V2 (serial_json e).
Proof.
  unfold Serialize, marshal. set (tj := tags_json V2 (ev_Tags e)).
  change (print V2 (serial_json e)) with
    (items ← mapM (print V2) [JInt 0; JStr (ev_Pubkey e); JInt (Unix (ev_CreatedAt e)); JInt (ev_Kind e); tj; JStr (ev_Content e)];
     Some ("["%char :: comma_list items ++ ["]"%char])).
  unfold mapM. cbn [print JInt]. destruct (quote V2 (ev_Pubkey e)) as [p|]; [|done].
  destruct (print V2 tj) as [t|]; [|done]. destruct (quote V2 (ev_Content e)) as [c|]; [|done].
  cbn [mbind option_bind Res_bind mret option_ret Res_ret comma_list fmap list_fmap concat]. f_equal.
  unfold lit at 1 2 3 4 5 6. rewrite app_nil_r, <-!app_assoc. done.
Qed.

(** A value without arrays nested beyond need is determined by its text. *)
Lemma print_inj v j j' p : json_ok j -> json_ok j' -> print v j = Some p -> print v j' = Some p -> j = j'.
Proof.
  intros Hj Hj' Hp Hp'. destruct (print_parse v j Hj) as (q & Hq & Hr). destruct (print_parse v j' Hj') as (q' & Hq' & Hr').
  congruence.
Qed.

Lemma JInt_inj z z' : JInt z = JInt z' -> z = z'.
Proof.
  unfold JInt. intros [= Heq]. destruct (fmt_d_literal z) as (ds & Hds & Hd & Hv & _), (fmt_d_literal z') as (ds' & Hds' & Hd' & Hv' & _).
  rewrite Heq, Hds' in Hds. assert (Hminus : forall l t, Forall (fun c => is_digit c = true) l -> l <> "-"%char :: t).
  { intros l t Hl ->. inversion Hl as [|? ? Hm]. discriminate Hm. }
  destruct (Z.ltb_spec z 0), (Z.ltb_spec z' 0).
  - injection Hds as ->. rewrite Hv in Hv'. injection Hv'. lia.
  - by destruct (Hminus ds' ds).
  - by destruct (Hminus ds ds').
  - subst ds'. rewrite Hv in Hv'. injection Hv'. lia.
Qed.

Lemma tag_json_inj t t' : tag_json V2 t = tag_json V2 t' -> t = t'.
Proof.
  assert (Heq : forall t, tag_json V2 t = JArr (JStr <$> t)) by by intros [|].
  rewrite !Heq. intros [= Hl]. by apply list_fmap_eq_inj in Hl; [|intros ? ? [=]].
Qed.

(** What a canonical text says of an event. *)
Definition same_content (e e' : Event) : Prop :=
  ev_Pubkey e = ev_Pubkey e' /\ Unix (ev_CreatedAt e) = Unix (ev_CreatedAt e') /\ ev_Kind e = ev_Kind e' /\
  tags e = tags e' /\ ev_Content e = ev_Content e'.

Lemma serial_json_inj e e' : serial_json e = serial_json e' -> same_content e e'.
Proof.
  unfold serial_json, tags_json. intros Heq. unfold JInt in Heq.
  assert (Hi : forall z z', fmt_d z = fmt_d z' -> z = z') by (intros z z' Hz; apply JInt_inj; unfold JInt; by rewrite Hz).
  injection Heq as Hp Hc Hk Ht Hx. unfold same_content, tags. split_and!; [done|by apply Hi|by apply Hi| |done].
  apply (list_fmap_eq_inj (tag_json V2)) in Ht; [done|]. intros a b. apply tag_json_inj.
Qed.
