(* ===== verification/EventParse.v ===== *)
(** * Which documents are events (event.go)

    The strict unmarshalling of an event, member by member: it accepts exactly the
    objects with the seven members, in any order, each present, not null and of
    its type.  Whatever it accepts can be stored and sent again. *)

From S2P Require Import Prelude GoTime Text Bytes Event PebbleKeys Json JsonStrings JsonRoundtrip JsonTyping EventJson.

(** ** Members *)

(** The value of a field, of any of its types. *)
Inductive fval : Type :=
| FStr (s : string)
| FInt (z : Z)
| FTags (ts : option (list Tag)).

Definition member_names : list string := ["id"; "pubkey"; "created_at"; "kind"; "tags"; "content"; "sig"]%string.

Definition is_string_member (k : string) : bool :=
  String.eqb k "id" || String.eqb k "pubkey" || String.eqb k "content" || String.eqb k "sig".
Definition is_int_member (k : string) : bool := String.eqb k "created_at" || String.eqb k "kind".

(** What the value of a member means. *)
Definition decode_member (k : string) (j : json) : Res fval :=
  if is_string_member k then s ← string_of_json j; mret (FStr s)
  else if is_int_member k then z ← int64_of_json j; mret (FInt z)
  else if String.eqb k "tags" then ts ← tags_of_json j; mret (FTags ts)
  else Err "unknown object member name".

Definition get_field (w : eventWire) (k : string) : fval :=
  if String.eqb k "id" then FStr (w_ID w)
  else if String.eqb k "pubkey" then FStr (w_Pubkey w)
  else if String.eqb k "created_at" then FInt (w_CreatedAt w)
  else if String.eqb k "kind" then FInt (w_Kind w)
  else if String.eqb k "tags" then FTags (w_Tags w)
  else if String.eqb k "content" then FStr (w_Content w)
  else FStr (w_Sig w).

Definition put_field (w : eventWire) (k : string) (v : fval) : eventWire :=
  let '(mkEventWire i p c n t x s) := w in
  match v with
  | FStr a => if String.eqb k "id" then mkEventWire a p c n t x s
              else if String.eqb k "pubkey" then mkEventWire i a c n t x s
              else if String.eqb k "content" then mkEventWire i p c n t a s
              else mkEventWire i p c n t x a
  | FInt z => if String.eqb k "created_at" then mkEventWire i p z n t x s else mkEventWire i p c z t x s
  | FTags ts => mkEventWire i p c n ts x s
  end.

Lemma elem_of_names k : k ∈ member_names <->
  k = "id"%string \/ k = "pubkey"%string \/ k = "created_at"%string \/ k = "kind"%string \/ k = "tags"%string \/
  k = "content"%string \/ k = "sig"%string.
Proof. unfold member_names. rewrite !elem_of_cons, elem_of_nil. tauto. Qed.

Lemma set_member_decode w k j : set_member w (k, j) = (v ← decode_member k j; mret (put_field w k v)).
Proof.
  destruct w. unfold set_member, decode_member, is_string_member, is_int_member.
  destruct (String.eqb_spec k "id") as [->|]; [by destruct (string_of_json j)|].
  destruct (String.eqb_spec k "pubkey") as [->|]; [by destruct (string_of_json j)|].
  destruct (String.eqb_spec k "created_at") as [->|]; [by destruct (int64_of_json j)|].
  destruct (String.eqb_spec k "kind") as [->|]; [by destruct (int64_of_json j)|].
  destruct (String.eqb_spec k "tags") as [->|]; [by destruct (tags_of_json j)|].
  destruct (String.eqb_spec k "content") as [->|]; [by destruct (string_of_json j)|].
  by destruct (String.eqb_spec k "sig") as [->|]; [destruct (string_of_json j)|].
Qed.

Lemma decode_known k j v : decode_member k j = Ok v -> k ∈ member_names.
Proof.
  rewrite elem_of_names. unfold decode_member, is_string_member, is_int_member.
  repeat match goal with |- context [String.eqb k ?s] => destruct (String.eqb_spec k s); [tauto|] end. done.
Qed.

Lemma get_put w k j v k' : decode_member k j = Ok v -> k' ∈ member_names ->
  get_field (put_field w k v) k' = if decide (k' = k) then v else get_field w k'.
Proof.
  intros Hd Hk'. pose proof (decode_known _ _ _ Hd) as Hk. apply elem_of_names in Hk, Hk'. destruct w.
  assert (Hv : match v with FStr _ => is_string_member k | FInt _ => negb (is_string_member k) && is_int_member k | FTags _ => String.eqb k "tags" end = true).
  { revert Hd. unfold decode_member. destruct (is_string_member k); [by destruct (string_of_json j); intros [= <-]|].
    destruct (is_int_member k); [by destruct (int64_of_json j); intros [= <-]|].
    destruct (String.eqb k "tags"); [by destruct (tags_of_json j); intros [= <-]|done]. }
  clear Hd. destruct_or! Hk; subst k; destruct v; try discriminate Hv; destruct_or! Hk'; subst k'; reflexivity.
Qed.

Lemma wire_ext w w' : (forall k, k ∈ member_names -> get_field w k = get_field w' k) -> w = w'.
Proof.
  intros Hk. assert (Hn : Forall (fun k => get_field w k = get_field w' k) member_names) by by apply Forall_forall.
  unfold member_names in Hn. rewrite !Forall_cons in Hn. destruct w, w', Hn as (H1 & H2 & H3 & H4 & H5 & H6 & H7 & _).
  injection H1 as ->. injection H2 as ->. injection H3 as ->. injection H4 as ->. injection H5 as ->. injection H6 as ->.
  by injection H7 as ->.
Qed.

(** The loop over the members sets each field named, to what its value means. *)
Lemma set_members_spec ms : forall w w', NoDup ms.*1 ->
  set_members w ms = Ok w' <->
  (forall k j, (k, j) ∈ ms -> decode_member k j = Ok (get_field w' k)) /\
  (forall k, k ∈ member_names -> k ∉ ms.*1 -> get_field w' k = get_field w k).
Proof.
  induction ms as [|[k j] ms IH]; intros w w' Hnd; cbn [set_members].
  - split; [intros [= <-]; split; [set_solver|done]|]. intros [_ Hf]. f_equal. symmetry. apply wire_ext.
    intros k Hk. apply Hf; [done|]. apply not_elem_of_nil.
  - rewrite fmap_cons in Hnd. apply NoDup_cons in Hnd as [Hk Hnd]. cbn [fst] in Hk. rewrite set_member_decode. split.
    + intros Hs. destruct (decode_member k j) as [v| |] eqn:Hd; [|done..]. cbn [mbind Res_bind mret Res_ret] in Hs.
      apply IH in Hs as [Hms Hf]; [|done]. pose proof (decode_known _ _ _ Hd) as Hkn. split.
      * intros k2 j2 [[= -> ->]|Hin]%elem_of_cons; [|by apply Hms]. rewrite Hd. f_equal.
        rewrite (Hf k) by done. by rewrite (get_put _ _ _ _ _ Hd), decide_True.
      * intros k2 Hk2 Hnot. rewrite fmap_cons in Hnot. apply not_elem_of_cons in Hnot as [Hne Hnot]. rewrite Hf by done.
        by rewrite (get_put _ _ _ _ _ Hd), decide_False.
    + intros [Hms Hf]. pose proof (Hms k j (list_elem_of_here _ _)) as Hd. rewrite Hd. cbn [mbind Res_bind mret Res_ret].
      apply IH; [done|]. split; [intros k2 j2 Hin; apply Hms; by right|].
      intros k2 Hk2 Hnot. rewrite (get_put _ _ _ _ _ Hd) by done. case_decide as Heq; [by subst|]. apply Hf; [done|].
      rewrite fmap_cons. by apply not_elem_of_cons.
Qed.

(** ** The checks *)

Lemma parse_digits_plain ds : forall acc n, parse_digits ds acc = Some n ->
  existsb (fun c => Ascii.eqb c "." || Ascii.eqb c "e" || Ascii.eqb c "E") ds = false.
Proof.
  induction ds as [|c ds IH]; intros acc n Hp; [done|]. cbn [parse_digits existsb] in *. unfold digit_value in Hp.
  destruct (in_range "0" "9" c) eqn:Hc; [|done]. rewrite (IH _ _ Hp), orb_false_r.
  destruct c as [[] [] [] [] [] [] [] []]; try done; discriminate Hc.
Qed.

Lemma literal_int_plain raw z : int_of_literal raw = Some z -> contains_any raw = false.
Proof.
  unfold int_of_literal, contains_any. destruct (chars raw) as [|c l]; [done|]. destruct (Ascii.eqb_spec c "-") as [->|Hc].
  - destruct l as [|c l]; [done|]. intros Hi. apply bind_Some_iff in Hi as (n & Hp%parse_digits_plain & _). exact Hp.
  - intros Hi. apply bind_Some_iff in Hi as (n & Hp%parse_digits_plain & _). exact Hp.
Qed.

Lemma int_of_literal_range raw z : int_of_literal raw = Some z -> int64 z.
Proof.
  unfold int_of_literal. destruct (match chars raw with [] => (false, []) | c :: rest => _ end) as [neg ds].
  destruct ds as [|c ds]; [done|]. intros Hi. apply bind_Some_iff in Hi as (n & _ & Hi). case_bool_decide; by simplify_eq.
Qed.

Lemma check_member_ok k j v : decode_member k j = Ok v -> check_member (k, j) = Ok () <-> j <> JNull.
Proof.
  intros Hd. destruct j as [|b|raw|s|l|l]; try (split; done). split; [done|]. intros _. cbn [check_member].
  destruct (String.eqb_spec k "created_at") as [->|]; [|done]. cbn [andb].
  change (decode_member "created_at" (JNum raw)) with (z ← int64_of_json (JNum raw); mret (FInt z) : Res fval) in Hd.
  cbn [int64_of_json] in Hd. destruct (int_of_literal raw) as [z|] eqn:E; [|done]. by rewrite (literal_int_plain _ _ E).
Qed.

Lemma count_members_Ok ms n : count_members ms = Ok n <-> n = length ms /\ forall kv, kv ∈ ms -> check_member kv = Ok ().
Proof.
  revert n. induction ms as [|kv ms IH]; intros n; cbn [count_members length].
  - split; [intros [= <-]; split; [done|]; by intros kv ?%not_elem_of_nil|]. by intros [-> _].
  - split.
    + intros Hc. destruct (check_member kv) as [[]| |] eqn:E; [|done..]. cbn [mbind Res_bind mret Res_ret] in Hc.
      destruct (count_members ms) as [m| |]; [|done..]. injection Hc as <-. destruct (proj1 (IH m) eq_refl) as [-> Hms].
      split; [done|]. intros kv' [->|Hin]%elem_of_cons; [done|]. by apply Hms.
    + intros [-> Hms]. rewrite (Hms kv) by by left. cbn [mbind Res_bind mret Res_ret].
      rewrite (proj2 (IH (length ms))); [done|]. split; [done|]. intros kv' Hin. apply Hms. by right.
Qed.

(** An object with the seven members, each decoding to its field. *)
Record event_document (ms : list (string * json)) (w : eventWire) : Prop := {
  ed_names : ms.*1 ≡ₚ member_names;
  ed_members : forall k j, (k, j) ∈ ms -> j <> JNull /\ decode_member k j = Ok (get_field w k)
}.

Lemma names_NoDup : NoDup member_names.
Proof. apply (bool_decide_unpack _). vm_compute. exact I. Qed.

Lemma unmarshal_members ms e : NoDup ms.*1 ->
  Event_UnmarshalJSONFrom (JObj ms) = Ok e <-> exists w, e = of_wire w /\ event_document ms w.
Proof.
  intros Hnd. cbn [Event_UnmarshalJSONFrom]. split.
  - destruct (count_members ms) as [n| |] eqn:Hc; [|done..]. cbn [mbind Res_bind]. apply count_members_Ok in Hc as [-> Hchk].
    destruct (Nat.eqb_spec (length ms) 7) as [Hl|]; [|done]. cbn [negb].
    destruct (set_members zeroWire ms) as [w| |] eqn:Hs; [|done..]. intros [= <-]. exists w. split; [done|].
    apply set_members_spec in Hs as [Hms _]; [|done]. constructor.
    + apply submseteq_length_Permutation; [|by rewrite length_fmap, Hl]. apply NoDup_submseteq; [done|].
      intros k ([k' j] & -> & Hin)%list_elem_of_fmap. eapply decode_known. by apply Hms.
    + intros k j Hin. pose proof (Hms k j Hin) as Hd. split; [|done]. by apply (check_member_ok k j _ Hd), Hchk.
  - intros (w & -> & [Hnames Hms]).
    assert (Hlen : length ms = 7%nat) by by rewrite <-(length_fmap fst ms), Hnames.
    rewrite (proj2 (count_members_Ok ms 7)). 2: { split; [done|]. intros [k j] Hin. destruct (Hms k j Hin) as [Hnn Hd]. by apply (check_member_ok k j _ Hd). }
    cbn [mbind Res_bind]. change (negb (7 =? 7)%nat) with false. cbv iota.
    rewrite (proj2 (set_members_spec ms zeroWire w Hnd)); [done|]. split; [intros k j Hin; by apply Hms|].
    intros k Hk Hnot. destruct Hnot. by rewrite Hnames.
Qed.

(** ** Parsed events *)

Lemma parse_event l e : unmarshal_text l = Ok e -> exists ms w, json_ok (JObj ms) /\ parse l = Some (JObj ms) /\
  e = of_wire w /\ event_document ms w.
Proof.
  unfold unmarshal_text. destruct (parse l) as [j|] eqn:Hp; [|done]. pose proof (parse_ok _ _ Hp) as Hj.
  destruct j as [|b|raw|s|vs|ms]; try done. intros Hu. apply unmarshal_members in Hu as (w & -> & Hd); [eauto 6|].
  by apply json_ok_obj in Hj as [? _].
Qed.

(** The value a document has under a name. *)
Lemma document_member ms w k : json_ok (JObj ms) -> event_document ms w -> k ∈ member_names ->
  exists j, json_ok j /\ j <> JNull /\ decode_member k j = Ok (get_field w k).
Proof.
  intros [_ Hms]%json_ok_obj [Hnames Hdec] Hk. rewrite <-Hnames in Hk.
  apply list_elem_of_fmap in Hk as ([k' j] & -> & Hin). exists j. rewrite Forall_forall in Hms.
  split; [by apply (Hms (k', j))|]. by apply Hdec.
Qed.

Lemma string_member_utf8 ms w k s : json_ok (JObj ms) -> event_document ms w -> k ∈ member_names ->
  is_string_member k = true -> get_field w k = FStr s -> utf8_ok s = true.
Proof.
  intros Hj Hd Hk Hs Hg. destruct (document_member ms w k Hj Hd Hk) as (j & Hok & Hnn & Hdec). rewrite Hg in Hdec.
  unfold decode_member in Hdec. rewrite Hs in Hdec. destruct j; try done. cbn in Hdec, Hok. by injection Hdec as <-.
Qed.

Lemma int_member_range ms w k z : json_ok (JObj ms) -> event_document ms w -> k ∈ member_names ->
  is_string_member k = false -> is_int_member k = true -> get_field w k = FInt z -> int64 z.
Proof.
  intros Hj Hd Hk Hs Hi Hg. destruct (document_member ms w k Hj Hd Hk) as (j & Hok & Hnn & Hdec). rewrite Hg in Hdec.
  unfold decode_member in Hdec. rewrite Hs, Hi in Hdec. destruct j as [|b|raw|s|l|l]; try done. cbn [int64_of_json] in Hdec.
  destruct (int_of_literal raw) as [z'|] eqn:E; [|done]. injection Hdec as <-. by eapply int_of_literal_range.
Qed.

Lemma mapM_Ok_Forall {A B} (f : A -> Res B) (P : A -> Prop) (Q : B -> Prop) l : forall l',
  (forall a b, P a -> f a = Ok b -> Q b) -> Forall P l -> mapM f l = Ok l' -> Forall Q l'.
Proof.
  intros l' Hf. revert l'. induction l as [|a l IH]; intros l' Hl Hm; [injection Hm as <-; constructor|].
  apply Forall_cons in Hl as [Ha Hl]. cbn in Hm. destruct (f a) as [b| |] eqn:E; [|done..]. cbn in Hm.
  change (mapM f l) with (mapM f l) in Hm. destruct (mapM f l) as [bs| |] eqn:E2; [|done..]. injection Hm as <-.
  constructor; [by eapply Hf|by apply IH].
Qed.

Lemma tags_utf8 j ts : json_ok j -> tags_of_json j = Ok (Some ts) -> Forall (Forall (fun s => utf8_ok s = true)) ts.
Proof.
  destruct j as [|b|raw|s|l|l]; try done. intros Hj%json_ok_arr Ht. cbn [tags_of_json] in Ht.
  destruct (mapM Tag_UnmarshalJSONFrom l) as [ts'| |] eqn:E; [|done..]. injection Ht as <-.
  eapply mapM_Ok_Forall; [|exact Hj|exact E]. intros a t Ha Htag. destruct a as [|b|raw|s|l'|l']; try done.
  apply json_ok_arr in Ha. eapply mapM_Ok_Forall; [|exact Ha|exact Htag]. intros x y Hx Hy.
  destruct x; try done. by injection Hy as <-.
Qed.

Lemma tags_member ms w : json_ok (JObj ms) -> event_document ms w ->
  exists ts, w_Tags w = Some ts /\ Forall (Forall (fun s => utf8_ok s = true)) ts.
Proof.
  intros Hj Hd. assert (Hk : "tags"%string ∈ member_names) by (apply elem_of_names; tauto).
  destruct (document_member ms w _ Hj Hd Hk) as (j & Hok & Hnn & Hdec).
  change (decode_member "tags" j) with (ts ← tags_of_json j; mret (FTags ts) : Res fval) in Hdec.
  change (get_field w "tags") with (FTags (w_Tags w)) in Hdec.
  destruct (tags_of_json j) as [ts| |] eqn:E; [|done..]. injection Hdec as <-. destruct ts as [ts|].
  - exists ts. split; [done|]. by eapply tags_utf8.
  - destruct j as [|b|raw|s|l|l]; try done. cbn [tags_of_json] in E. by destruct (mapM _ l).
Qed.

(** What the parser guarantees of an event. *)
Record parsed_event (e : Event) : Prop := {
  pe_strings : Forall (fun s => utf8_ok s = true) [ev_ID e; ev_Pubkey e; ev_Content e; ev_Sig e];
  pe_time : exists c, int64 c /\ ev_CreatedAt e = time_Unix c;
  pe_kind : int64 (ev_Kind e);
  pe_tags : exists ts, ev_Tags e = Some ts /\ Forall (Forall (fun s => utf8_ok s = true)) ts
}.

Lemma document_parsed ms w : json_ok (JObj ms) -> event_document ms w -> parsed_event (of_wire w).
Proof.
  intros Hj Hd.
  assert (Hs : forall k s, k ∈ member_names -> is_string_member k = true -> get_field w k = FStr s -> utf8_ok s = true).
  { intros k s. by apply string_member_utf8 with (ms := ms). }
  constructor.
  - cbn. repeat constructor.
    + apply (Hs "id"%string); [apply elem_of_names; tauto|done|done].
    + apply (Hs "pubkey"%string); [apply elem_of_names; tauto|done|done].
    + apply (Hs "content"%string); [apply elem_of_names; tauto|done|done].
    + apply (Hs "sig"%string); [apply elem_of_names; tauto|done|done].
  - exists (w_CreatedAt w). split; [|done].
    eapply (int_member_range ms w "created_at"); [done|done|apply elem_of_names; tauto|done..].
  - eapply (int_member_range ms w "kind"); [done|done|apply elem_of_names; tauto|done..].
  - by eapply tags_member.
Qed.

Lemma unmarshal_parsed l e : unmarshal_text l = Ok e -> parsed_event e.
Proof. intros (ms & w & Hj & _ & -> & Hd)%parse_event. by eapply document_parsed. Qed.

Lemma parsed_printable e : parsed_event e -> printable e.
Proof.
  intros [Hs _ _ (ts & Hts & Htu)]. split; [done|]. intros ts' Hts'. by assert (ts' = ts) as -> by congruence.
Qed.

(** A parsed event that passes [Valid] can be written and read. *)
Lemma parsed_portable e : parsed_event e -> Valid (Some e) = true -> portable e.
Proof.
  intros [Hs (c & Hc & Ht) Hk (ts & Hts & Htu)] Hv. rewrite !Forall_cons in Hs. destruct Hs as (Hi & Hp & Hx & Hg & _).
  constructor; try done.
  - rewrite Ht. by rewrite Unix_time_Unix.
  - exists ts. split; [done|]. unfold Valid in Hv. rewrite Hts in Hv. rewrite !guard_true in Hv.
    destruct Hv as (_ & _ & _ & Htags%negb_false_iff & _). rewrite forallb_forall in Htags. rewrite Forall_forall in *.
    intros t Hin. split; [|by apply Htu]. intros ->. apply list_elem_of_In, Htags in Hin. done.
Qed.

(** ** An event that cannot be read back *)

Lemma set_members_each ms : forall w w', set_members w ms = Ok w' -> forall kv, kv ∈ ms -> exists w1 w2, set_member w1 kv = Ok w2.
Proof.
  induction ms as [|kv0 ms IH]; intros w w' Hs kv Hkv; [by apply elem_of_nil in Hkv|]. cbn [set_members] in Hs.
  apply bind_Ok in Hs as (w1 & H1 & Hs). apply elem_of_cons in Hkv as [->|Hkv]; [by eauto|by eapply IH].
Qed.

Lemma tags_null_fails ts : [] ∈ ts -> forall o, tags_of_json (tags_json V1 (Some ts)) <> Ok o.
Proof.
  intros Hin o. unfold tags_of_json, tags_json. cbn [default from_option]. rewrite bind_Ok. intros (l & Hl & _).
  assert (Hall : forall l (js : list json), mapM Tag_UnmarshalJSONFrom js = Ok l -> forall j, j ∈ js -> exists t, Tag_UnmarshalJSONFrom j = Ok t).
  { clear. intros l js. revert l. induction js as [|j0 js IH]; intros l Hl j Hj; [by apply elem_of_nil in Hj|].
    cbn in Hl. apply bind_Ok in Hl as (t & Ht & Hl). apply bind_Ok in Hl as (ts & Hts & _).
    apply elem_of_cons in Hj as [->|Hj]; [by eauto|by eapply IH]. }
  destruct (Hall l _ Hl JNull) as [t Ht]; [|done]. apply list_elem_of_fmap. by exists [].
Qed.

(** Every parsed event can be written; under the options of encoding/json one with an
    empty tag cannot be read back. *)
Lemma parsed_writes v e : parsed_event e -> exists l, marshal_text v e = Ok l /\ parse l = Some (event_json v e).
Proof.
  intros Hp. destruct (print_parse v _ (event_json_ok v e (parsed_printable e Hp))) as (l & Hl & Hparse).
  exists l. unfold marshal_text, marshal. by rewrite Hl.
Qed.

Lemma empty_tag_unreadable e ts : ev_Tags e = Some ts -> [] ∈ ts -> forall e', Event_UnmarshalJSONFrom (event_json V1 e) <> Ok e'.
Proof.
  intros Hts Hin e' E. cbn [Event_UnmarshalJSONFrom event_json] in E. apply bind_Ok in E as (n & _ & E). destruct (negb _); [done|].
  apply bind_Ok in E as (w & Hw & _).
  destruct (set_members_each _ _ _ Hw ("tags"%string, tags_json V1 (Some ts))) as (w1 & w2 & Hs).
  { cbn [wire_of w_Tags]. rewrite Hts. set_solver. }
  destruct w1. cbn [set_member] in Hs. apply bind_Ok in Hs as (o & Ho & _). by eapply tags_null_fails.
Qed.

Lemma parsed_reads v e ts : parsed_event e -> ev_Tags e = Some ts -> is_v1 v = false \/ [] ∉ ts ->
  Event_UnmarshalJSONFrom (event_json v e) = Ok e.
Proof.
  intros [_ (c & Hc & Ht) Hk _] Hts Hv. eapply event_json_reads'; [|done..|].
  - rewrite Ht. by rewrite Unix_time_Unix.
  - apply Forall_forall. intros t Hin. destruct Hv as [|Hno]; [by left|right]. by intros ->.
Qed.
