(* ===== verification/FilterJson.v ===== *)
(** * Filters as JSON (filter.go)

    The strict unmarshalling of a filter, with its tag members and the rejection
    of null at any depth, and its marshalling through a map, whose order Go leaves
    open. *)

From S2P Require Import Prelude GoTime Text Event Filter Json JsonStrings JsonRoundtrip JsonTyping EventJson EventParse.

(** ** Unmarshalling *)

(** [containsJSONNull] *)
Fixpoint containsJSONNull (j : json) : bool :=
  match j with
  | JNull => true
  | JArr l => existsb containsJSONNull l
  | JObj l => existsb (fun '(_, x) => containsJSONNull x) l
  | _ => false
  end.

(** Into a slice: null is the nil slice. *)
Definition slice_of_json {A} (f : json -> Res A) (j : json) : Res (option (list A)) :=
  match j with
  | JArr l => xs ← mapM f l; mret (Some xs)
  | JNull => Ok None
  | _ => Err "cannot unmarshal into Go slice"
  end.

(** Into a pointer: null is the nil pointer. *)
Definition pointer_of_json {A} (f : json -> Res A) (j : json) : Res (option A) :=
  match j with JNull => Ok None | _ => x ← f j; mret (Some x) end.

Definition wrap_invalid {A} (key : string) (r : Res A) : Res A :=
  match r with Err e => Err ("invalid " +:+ key +:+ ": " +:+ e) | r => r end.

(** The tag letter of a key such as [#e]. *)
Definition tag_key (key : string) : option ascii :=
  match chars key with
  | [h; c] => if Ascii.eqb h "#" && isTagLetter c then Some c else None
  | _ => None
  end.

(** The switch over the key. *)
Definition set_filter_member (f : ReqFilter) (kv : string * json) : Res ReqFilter :=
  let '(key, raw) := kv in
  let '(mkReqFilter ids authors kinds ts since until limit search) := f in
  if containsJSONNull raw then Err "field must not contain null"
  else if String.eqb key "ids" then
    ids ← wrap_invalid key (slice_of_json string_of_json raw); mret (mkReqFilter ids authors kinds ts since until limit search)
  else if String.eqb key "authors" then
    authors ← wrap_invalid key (slice_of_json string_of_json raw); mret (mkReqFilter ids authors kinds ts since until limit search)
  else if String.eqb key "kinds" then
    kinds ← wrap_invalid key (slice_of_json int64_of_json raw); mret (mkReqFilter ids authors kinds ts since until limit search)
  else if String.eqb key "since" then
    since ← wrap_invalid key (pointer_of_json int64_of_json raw); mret (mkReqFilter ids authors kinds ts since until limit search)
  else if String.eqb key "until" then
    until ← wrap_invalid key (pointer_of_json int64_of_json raw); mret (mkReqFilter ids authors kinds ts since until limit search)
  else if String.eqb key "limit" then
    limit ← wrap_invalid key (pointer_of_json int64_of_json raw); mret (mkReqFilter ids authors kinds ts since until limit search)
  else if String.eqb key "search" then
    search ← wrap_invalid key (pointer_of_json string_of_json raw); mret (mkReqFilter ids authors kinds ts since until limit search)
  else match tag_key key with
  | Some c =>
      values ← wrap_invalid key (slice_of_json string_of_json raw);
      mret (mkReqFilter ids authors kinds (<[String c "" := elems values]> ts) since until limit search)
  | None => Err ("unknown filter field: " +:+ key)
  end.

Fixpoint set_filter_members (f : ReqFilter) (ms : list (string * json)) : Res ReqFilter :=
  match ms with [] => Ok f | kv :: ms => f ← set_filter_member f kv; set_filter_members f ms end.

(** [ReqFilter.UnmarshalJSONFrom] on a fresh filter.  A value that is not an object
    has no end brace: the loop runs into the end of the text. *)
Definition ReqFilter_UnmarshalJSONFrom (j : json) : Res ReqFilter :=
  match j with JObj ms => set_filter_members emptyFilter ms | _ => Err "unexpected end of value" end.

(** ** Marshalling *)

Definition opt_member {A} (k : string) (f : A -> json) (o : option A) : list (string * json) :=
  match o with Some a => [(k, f a)] | None => [] end.

Definition strings_json (l : list string) : json := JArr (JStr <$> l).
Definition ints_json (l : list Z) : json := JArr (JInt <$> l).
Definition tag_member (kv : string * list string) : string * json := (String "#" kv.1, strings_json kv.2).

(** The entries of the map [MarshalJSON] builds. *)
Definition filter_members (f : ReqFilter) : list (string * json) :=
  opt_member "ids" strings_json (f_IDs f) ++ opt_member "authors" strings_json (f_Authors f) ++
  opt_member "kinds" ints_json (f_Kinds f) ++ (tag_member <$> map_to_list (f_Tags f)) ++
  opt_member "since" JInt (f_Since f) ++ opt_member "until" JInt (f_Until f) ++
  opt_member "limit" JInt (f_Limit f) ++ opt_member "search" JStr (f_Search f).

(** [ReqFilter.MarshalJSON]; [order] is the order the map is ranged over in. *)
Definition ReqFilter_MarshalJSON (order : list (string * json) -> list (string * json)) (f : ReqFilter) : Res (list ascii) :=
  marshal V2 (JObj (order (filter_members f))).

(** ** Fields *)

(** The fields a member can name. *)
Inductive filter_field : Type :=
| FIDs | FAuthors | FKinds | FSince | FUntil | FLimit | FSearch
| FTag (c : ascii).

#[export] Instance filter_field_eq_dec : EqDecision filter_field.
Proof. solve_decision. Defined.

Definition field_name (x : filter_field) : string :=
  match x with
  | FIDs => "ids" | FAuthors => "authors" | FKinds => "kinds" | FSince => "since" | FUntil => "until"
  | FLimit => "limit" | FSearch => "search" | FTag c => String "#" (String c "")
  end.

Definition known_field (x : filter_field) : Prop := match x with FTag c => isTagLetter c = true | _ => True end.

(** What a field can hold; a tag that is not there and one without values differ. *)
Inductive filter_value : Type :=
| VStrings (o : option (list string))
| VInts (o : option (list Z))
| VInt (o : option Z)
| VString (o : option string).

Definition get_filter (f : ReqFilter) (x : filter_field) : filter_value :=
  match x with
  | FIDs => VStrings (f_IDs f) | FAuthors => VStrings (f_Authors f) | FKinds => VInts (f_Kinds f)
  | FSince => VInt (f_Since f) | FUntil => VInt (f_Until f) | FLimit => VInt (f_Limit f)
  | FSearch => VString (f_Search f) | FTag c => VStrings (f_Tags f !! String c "")
  end.

(** The value a member of that name sets the field to. *)
Definition decode_filter (x : filter_field) (j : json) : Res filter_value :=
  match x with
  | FIDs | FAuthors => v ← slice_of_json string_of_json j; mret (VStrings v)
  | FTag _ => v ← slice_of_json string_of_json j; mret (VStrings (Some (elems v)))
  | FKinds => v ← slice_of_json int64_of_json j; mret (VInts v)
  | FSince | FUntil | FLimit => v ← pointer_of_json int64_of_json j; mret (VInt v)
  | FSearch => v ← pointer_of_json string_of_json j; mret (VString v)
  end.

Lemma field_name_inj x y : field_name x = field_name y -> x = y.
Proof. destruct x, y; cbn; intros Heq; try discriminate Heq; try done. by injection Heq as ->. Qed.

Lemma tag_key_spec key c : tag_key key = Some c <-> key = field_name (FTag c) /\ isTagLetter c = true.
Proof.
  unfold tag_key, field_name. split.
  - intros Hk. rewrite <-(str_of_chars key). destruct (chars key) as [|h [|d [|]]]; try done.
    destruct (Ascii.eqb_spec h "#") as [->|]; [|done]. cbn [andb] in Hk. destruct (isTagLetter d) eqn:Hd; [|done].
    injection Hk as ->. done.
  - intros [-> Hc]. cbn. by rewrite Hc.
Qed.

Definition put_filter (f : ReqFilter) (x : filter_field) (v : filter_value) : ReqFilter :=
  let '(mkReqFilter ids authors kinds ts since until limit search) := f in
  match x, v with
  | FIDs, VStrings v => mkReqFilter v authors kinds ts since until limit search
  | FAuthors, VStrings v => mkReqFilter ids v kinds ts since until limit search
  | FKinds, VInts v => mkReqFilter ids authors v ts since until limit search
  | FTag c, VStrings v => mkReqFilter ids authors kinds (<[String c "" := elems v]> ts) since until limit search
  | FSince, VInt v => mkReqFilter ids authors kinds ts v until limit search
  | FUntil, VInt v => mkReqFilter ids authors kinds ts since v limit search
  | FLimit, VInt v => mkReqFilter ids authors kinds ts since until v search
  | FSearch, VString v => mkReqFilter ids authors kinds ts since until limit v
  | _, _ => f
  end.

Lemma wrap_invalid_Ok {A} k (r : Res A) a : wrap_invalid k r = Ok a <-> r = Ok a.
Proof. by destruct r. Qed.

(** One member sets the field it names, to what its value means. *)
Lemma set_filter_member_Ok f kv f' : set_filter_member f kv = Ok f' <->
  containsJSONNull kv.2 = false /\ exists x v, known_field x /\ kv.1 = field_name x /\ decode_filter x kv.2 = Ok v /\
    f' = put_filter f x v.
Proof.
  destruct kv as [key raw], f as [ids authors kinds ts since until limit search]. unfold set_filter_member. cbn [fst snd].
  destruct (containsJSONNull raw); [split; [done|by intros [? _]]|].
  assert (Hgo : forall x, known_field x -> key = field_name x -> forall r : Res ReqFilter,
    (r = Ok f' <-> exists v, decode_filter x raw = Ok v /\ f' = put_filter (mkReqFilter ids authors kinds ts since until limit search) x v) ->
    r = Ok f' <-> false = false /\ exists x v, known_field x /\ key = field_name x /\ decode_filter x raw = Ok v /\
      f' = put_filter (mkReqFilter ids authors kinds ts since until limit search) x v).
  { intros x Hx Hk r Hr. rewrite Hr. split; [intros (v & ? & ?); split; [done|]; by exists x, v|].
    intros (_ & y & v & _ & Hy & Hd & ->). assert (y = x) as -> by (apply field_name_inj; congruence). eauto. }
  assert (Hb : forall A (r : Res A) (g : A -> ReqFilter) (h : A -> filter_value) x,
    decode_filter x raw = (v ← r; mret (h v)) ->
    (forall v, put_filter (mkReqFilter ids authors kinds ts since until limit search) x (h v) = g v) ->
    (v ← wrap_invalid key r; mret (g v)) = Ok f' <->
    exists v, decode_filter x raw = Ok v /\ f' = put_filter (mkReqFilter ids authors kinds ts since until limit search) x v).
  { intros A r g h x -> Hput. destruct r as [a|e|w]; cbn [wrap_invalid mbind Res_bind mret Res_ret].
    - split; [intros [= <-]; eexists; split; [done|]; by rewrite Hput|]. intros (v & [= <-] & ->). by rewrite Hput.
    - split; [done|]. by intros (? & ? & _).
    - split; [done|]. by intros (? & ? & _). }
  destruct (String.eqb_spec key "ids") as [->|H1]; [apply (Hgo FIDs); [done..|]; by apply (Hb _ _ _ VStrings)|].
  destruct (String.eqb_spec key "authors") as [->|H2]; [apply (Hgo FAuthors); [done..|]; by apply (Hb _ _ _ VStrings)|].
  destruct (String.eqb_spec key "kinds") as [->|H3]; [apply (Hgo FKinds); [done..|]; by apply (Hb _ _ _ VInts)|].
  destruct (String.eqb_spec key "since") as [->|H4]; [apply (Hgo FSince); [done..|]; by apply (Hb _ _ _ VInt)|].
  destruct (String.eqb_spec key "until") as [->|H5]; [apply (Hgo FUntil); [done..|]; by apply (Hb _ _ _ VInt)|].
  destruct (String.eqb_spec key "limit") as [->|H6]; [apply (Hgo FLimit); [done..|]; by apply (Hb _ _ _ VInt)|].
  destruct (String.eqb_spec key "search") as [->|H7]; [apply (Hgo FSearch); [done..|]; by apply (Hb _ _ _ VString)|].
  destruct (tag_key key) as [c|] eqn:Ht.
  - pose proof Ht as [-> Hc]%tag_key_spec. apply (Hgo (FTag c)); [done..|]. by apply (Hb _ _ _ (fun v => VStrings (Some (elems v)))).
  - split; [done|]. intros (_ & x & v & Hx & -> & _). destruct x as [| | | | | | |c]; try done.
    rewrite (proj2 (tag_key_spec (field_name (FTag c)) c)) in Ht; [done|]. by split.
Qed.

Lemma get_put_filter f x j v y : decode_filter x j = Ok v ->
  get_filter (put_filter f x v) y = if decide (y = x) then v else get_filter f y.
Proof.
  intros Hd. destruct f as [ids authors kinds ts since until limit search].
  assert (Hv : match x with FIDs | FAuthors => exists a, v = VStrings a | FKinds => exists a, v = VInts a
    | FTag _ => exists a, v = VStrings (Some a) | FSearch => exists a, v = VString a | _ => exists a, v = VInt a end).
  { destruct x; unfold decode_filter in Hd; apply bind_Ok in Hd as (a & _ & [= <-]); eauto. }
  clear Hd. destruct x as [| | | | | | |c]; destruct Hv as [a ->]; destruct y as [| | | | | | |c']; try reflexivity.
  cbn [put_filter get_filter f_Tags elems default from_option]. destruct (decide (FTag c' = FTag c)) as [[= ->]|Hne].
  - by rewrite lookup_insert_eq.
  - rewrite lookup_insert_ne; [done|]. intros [= ->]. by apply Hne.
Qed.

Lemma put_filter_other f x v s : (forall c, s <> String c "") -> f_Tags (put_filter f x v) !! s = f_Tags f !! s.
Proof.
  intros Hs. destruct f, x, v; cbn; try done. apply lookup_insert_ne. intros <-. by apply (Hs c).
Qed.

Lemma filter_ext' f f' : (forall x, get_filter f x = get_filter f' x) ->
  (forall s, (forall c, s <> String c "") -> f_Tags f !! s = f_Tags f' !! s) -> f = f'.
Proof.
  intros Hx Hs. pose proof (Hx FIDs) as [= H1]. pose proof (Hx FAuthors) as [= H2]. pose proof (Hx FKinds) as [= H3].
  pose proof (Hx FSince) as [= H4]. pose proof (Hx FUntil) as [= H5]. pose proof (Hx FLimit) as [= H6]. pose proof (Hx FSearch) as [= H7].
  assert (Hm : f_Tags f = f_Tags f').
  { apply map_eq. intros s. destruct s as [|c [|c' s]]; [by apply Hs| |by apply Hs].
    pose proof (Hx (FTag c)) as Hc. cbn in Hc. by injection Hc. }
  destruct f, f'; cbn in *. by subst.
Qed.

(** The loop sets each field named and leaves the others. *)
Lemma set_filter_members_spec ms : forall f f', NoDup ms.*1 ->
  set_filter_members f ms = Ok f' <->
  (forall k j, (k, j) ∈ ms -> containsJSONNull j = false /\
     exists x, known_field x /\ k = field_name x /\ decode_filter x j = Ok (get_filter f' x)) /\
  (forall x, field_name x ∉ ms.*1 -> get_filter f' x = get_filter f x) /\
  (forall s, (forall c, s <> String c "") -> f_Tags f' !! s = f_Tags f !! s).
Proof.
  induction ms as [|[k j] ms IH]; intros f f' Hnd; cbn [set_filter_members].
  - split; [intros [= <-]; split_and!; [by intros k j ?%not_elem_of_nil|done..]|]. intros (_ & Hx & Hs). f_equal. symmetry.
    apply filter_ext'; [|done]. intros x. apply Hx, not_elem_of_nil.
  - rewrite fmap_cons in Hnd. apply NoDup_cons in Hnd as [Hk Hnd]. cbn [fst] in Hk. rewrite bind_Ok. split.
    + intros (f1 & Hf1 & Hs). apply set_filter_member_Ok in Hf1 as (Hnull & x & v & Hx & Hkx & Hd & ->). cbn [fst snd] in *.
      apply IH in Hs as (Hms & Hf & Ho); [|done].
      assert (Hgx : get_filter f' x = v) by (rewrite Hf by (by rewrite <-Hkx); by rewrite (get_put_filter _ _ _ _ _ Hd), decide_True).
      split_and!.
      * intros k2 j2 [[= -> ->]|Hin]%elem_of_cons; [|by apply Hms]. split; [done|]. exists x. by rewrite Hgx.
      * intros y Hy. rewrite fmap_cons in Hy. apply not_elem_of_cons in Hy as [Hne Hy]. rewrite Hf by done.
        rewrite (get_put_filter _ _ _ _ _ Hd), decide_False; [done|]. intros ->. by apply Hne.
      * intros s Hs. rewrite Ho by done. by apply put_filter_other.
    + intros (Hms & Hf & Ho). destruct (Hms k j (list_elem_of_here _ _)) as (Hnull & x & Hx & Hkx & Hd).
      exists (put_filter f x (get_filter f' x)). split.
      * apply set_filter_member_Ok. split; [done|]. by exists x, (get_filter f' x).
      * apply IH; [done|]. split_and!; [intros k2 j2 Hin; apply Hms; by right| |].
        -- intros y Hy. rewrite (get_put_filter _ _ _ _ _ Hd). case_decide as Heq; [by subst|]. apply Hf.
           rewrite fmap_cons. apply not_elem_of_cons. split; [|done]. cbn [fst]. rewrite Hkx. by intros ->%field_name_inj.
        -- intros s Hs. rewrite put_filter_other by done. by apply Ho.
Qed.

(** ** Reading back a marshalled filter *)

(** What the reader produces and a filter can be marshalled from: valid UTF-8,
    integers of the machine, tag letters. *)
Record filter_portable (f : ReqFilter) : Prop := {
  fp_strings : Forall (fun s => utf8_ok s = true) (elems (f_IDs f) ++ elems (f_Authors f) ++ elems (option_map (fun s => [s]) (f_Search f)));
  fp_ints : Forall int64 (elems (f_Kinds f) ++ elems (option_map (fun z => [z]) (f_Since f)) ++
    elems (option_map (fun z => [z]) (f_Until f)) ++ elems (option_map (fun z => [z]) (f_Limit f)));
  fp_tags : forall k l, f_Tags f !! k = Some l -> (exists c, k = String c "" /\ isTagLetter c = true) /\ Forall (fun s => utf8_ok s = true) l
}.

Lemma strings_null l : containsJSONNull (strings_json l) = false.
Proof. unfold strings_json. cbn [containsJSONNull]. induction l as [|s l IH]; [done|exact IH]. Qed.

Lemma ints_null l : containsJSONNull (ints_json l) = false.
Proof. unfold ints_json. cbn [containsJSONNull]. induction l as [|s l IH]; [done|exact IH]. Qed.

Lemma strings_read l : slice_of_json string_of_json (strings_json l) = Ok (Some l).
Proof.
  unfold slice_of_json, strings_json. rewrite (mapM_Ok_fmap _ _ id); [by rewrite list_fmap_id|]. by apply Forall_true.
Qed.

Lemma ints_read l : Forall int64 l -> slice_of_json int64_of_json (ints_json l) = Ok (Some l).
Proof.
  intros Hl. unfold slice_of_json, ints_json. rewrite (mapM_Ok_fmap _ _ id); [by rewrite list_fmap_id|].
  eapply Forall_impl; [exact Hl|]. intros z. apply JInt_reads.
Qed.

Lemma elem_of_opt_member {A} k (g : A -> json) o kv : kv ∈ opt_member k g o <-> exists a, o = Some a /\ kv = (k, g a).
Proof. destruct o as [a|]; cbn; [rewrite list_elem_of_singleton|rewrite elem_of_nil]; naive_solver. Qed.

(** The field behind each entry of the map. *)
Definition member_field (f : ReqFilter) (x : filter_field) (j : json) : Prop :=
  match x with
  | FIDs => exists l, f_IDs f = Some l /\ j = strings_json l
  | FAuthors => exists l, f_Authors f = Some l /\ j = strings_json l
  | FKinds => exists l, f_Kinds f = Some l /\ j = ints_json l
  | FSince => exists z, f_Since f = Some z /\ j = JInt z
  | FUntil => exists z, f_Until f = Some z /\ j = JInt z
  | FLimit => exists z, f_Limit f = Some z /\ j = JInt z
  | FSearch => exists s, f_Search f = Some s /\ j = JStr s
  | FTag c => exists l, f_Tags f !! String c "" = Some l /\ j = strings_json l
  end.

Lemma elem_of_filter_members f kv : filter_portable f ->
  kv ∈ filter_members f <-> exists x, kv.1 = field_name x /\ member_field f x kv.2.
Proof.
  intros Hp. unfold filter_members. rewrite !elem_of_app, !elem_of_opt_member, list_elem_of_fmap. split.
  - intros [(a & Ha & ->)|[(a & Ha & ->)|[(a & Ha & ->)|[([k l] & -> & Hin%elem_of_map_to_list)|[(a & Ha & ->)|[(a & Ha & ->)|[(a & Ha & ->)|(a & Ha & ->)]]]]]]].
    + exists FIDs. cbn. eauto.
    + exists FAuthors. cbn. eauto.
    + exists FKinds. cbn. eauto.
    + destruct (fp_tags f Hp k l Hin) as [(c & -> & _) _]. exists (FTag c). cbn. eauto.
    + exists FSince. cbn. eauto.
    + exists FUntil. cbn. eauto.
    + exists FLimit. cbn. eauto.
    + exists FSearch. cbn. eauto.
  - destruct kv as [k j]. cbn [fst snd]. intros (x & -> & Hm). destruct x as [| | | | | | |c]; cbn in Hm;
      destruct Hm as (a & Ha & ->); [eauto 10..|]. right; right; right; left. exists (String c "", a).
    split; [done|]. by apply elem_of_map_to_list.
Qed.

Lemma fp_int f z : filter_portable f -> f_Since f = Some z \/ f_Until f = Some z \/ f_Limit f = Some z -> int64 z.
Proof.
  intros [_ Hi _] Hz. rewrite Forall_forall in Hi. apply Hi. rewrite !elem_of_app.
  destruct Hz as [Hz|[Hz|Hz]]; rewrite Hz; cbn; rewrite list_elem_of_singleton; auto.
Qed.

Lemma fp_kinds f l : filter_portable f -> f_Kinds f = Some l -> Forall int64 l.
Proof. intros [_ Hi _] Hl. apply Forall_app in Hi as [Hi _]. by rewrite Hl in Hi. Qed.

Lemma decode_member_field f x j : filter_portable f -> member_field f x j ->
  containsJSONNull j = false /\ decode_filter x j = Ok (get_filter f x).
Proof.
  intros Hp Hm. assert (Hint : forall z, int64 z -> pointer_of_json int64_of_json (JInt z) = Ok (Some z)).
  { intros z Hz. unfold pointer_of_json. change (match JInt z with JNull => _ | _ => _ end) with (x ← int64_of_json (JInt z); mret (Some x) : Res (option Z)).
    by rewrite JInt_reads. }
  destruct x as [| | | | | | |c]; cbn in Hm; destruct Hm as (a & Ha & ->); cbn [decode_filter get_filter]; rewrite Ha;
    (split; [solve [apply strings_null|apply ints_null|done]|]).
  - by rewrite strings_read.
  - by rewrite strings_read.
  - rewrite ints_read; [done|]. by eapply fp_kinds.
  - rewrite Hint; [done|]. eapply fp_int; eauto.
  - rewrite Hint; [done|]. eapply fp_int; eauto.
  - rewrite Hint; [done|]. eapply fp_int; eauto.
  - done.
  - by rewrite strings_read.
Qed.

Lemma opt_member_NoDup {A} k (g : A -> json) o : NoDup (opt_member k g o).*1.
Proof. destruct o; cbn; [apply NoDup_singleton|constructor]. Qed.

(** The keys of the map differ, as those of any map. *)
Lemma filter_members_NoDup f : NoDup (filter_members f).*1.
Proof.
  unfold filter_members. rewrite !fmap_app.
  assert (Hopt : forall A k (g : A -> json) o s, s ∈ (opt_member k g o).*1 -> s = k).
  { intros A k g o s ([k' j] & -> & Hin)%list_elem_of_fmap. by apply elem_of_opt_member in Hin as (a & _ & [= ->]). }
  assert (Htags : forall s, s ∈ (tag_member <$> map_to_list (f_Tags f)).*1 -> exists t, s = String "#" t).
  { intros s ([k j] & -> & Hin)%list_elem_of_fmap. apply list_elem_of_fmap in Hin as ([k' l] & [= -> ->] & _). by exists k'. }
  repeat (apply NoDup_app; split_and!; [apply opt_member_NoDup|
    intros s Hs Hin; apply Hopt in Hs; subst s; rewrite ?elem_of_app in Hin;
    destruct_or? Hin; first [apply Hopt in Hin; discriminate Hin|apply Htags in Hin as [t Hin]; discriminate Hin]|]).
  apply NoDup_app. split_and!.
  - rewrite <-list_fmap_compose. change (fst ∘ tag_member) with (fun kv : string * list string => String "#" kv.1).
    assert (((fun kv : string * list string => String "#" kv.1) <$> map_to_list (f_Tags f)) =
      String "#" <$> (map_to_list (f_Tags f)).*1) as -> by by rewrite <-list_fmap_compose.
    assert (Inj eq eq (String "#")) by (intros a b Hab; by injection Hab). apply (NoDup_fmap_2 _).
    apply NoDup_fst_map_to_list.
  - intros s (t & ->)%Htags Hin. rewrite ?elem_of_app in Hin. destruct_or? Hin; apply Hopt in Hin; discriminate Hin.
  - repeat (apply NoDup_app; split_and!; [apply opt_member_NoDup|
      intros s Hs Hin; apply Hopt in Hs; subst s; rewrite ?elem_of_app in Hin;
      destruct_or? Hin; apply Hopt in Hin; discriminate Hin|]). apply opt_member_NoDup.
Qed.

Lemma filter_reads f ms : filter_portable f -> ms ≡ₚ filter_members f -> ReqFilter_UnmarshalJSONFrom (JObj ms) = Ok f.
Proof.
  intros Hp Hms. cbn [ReqFilter_UnmarshalJSONFrom].
  assert (Hin : forall kv, kv ∈ ms <-> exists x, kv.1 = field_name x /\ member_field f x kv.2).
  { intros kv. rewrite Hms. by apply elem_of_filter_members. }
  apply set_filter_members_spec; [rewrite Hms; apply filter_members_NoDup|]. split_and!.
  - intros k j Hkj. apply Hin in Hkj as (x & Hk & Hm). cbn [fst snd] in *.
    destruct (decode_member_field f x j Hp Hm) as [Hnull Hd]. split; [done|]. exists x. split_and!; [|done..].
    destruct x as [| | | | | | |c]; try done. destruct Hm as (l & Hl & _). by destruct (fp_tags f Hp _ _ Hl) as [(c' & [= ->] & ?) _].
  - intros x Hx. assert (Hno : forall j, ~ member_field f x j).
    { intros j Hm. apply Hx. apply list_elem_of_fmap. exists (field_name x, j). split; [done|]. apply Hin. eauto. }
    destruct x as [| | | | | | |c]; cbn [get_filter emptyFilter f_IDs f_Authors f_Kinds f_Since f_Until f_Limit f_Search f_Tags].
    1: destruct (f_IDs f) eqn:E. 3: destruct (f_Authors f) eqn:E. 5: destruct (f_Kinds f) eqn:E. 7: destruct (f_Since f) eqn:E.
    9: destruct (f_Until f) eqn:E. 11: destruct (f_Limit f) eqn:E. 13: destruct (f_Search f) eqn:E.
    15: rewrite lookup_empty; destruct (f_Tags f !! String c "") eqn:E.
    all: try done; exfalso; eapply Hno; cbn; rewrite E; eauto.
  - intros s Hs. cbn. rewrite lookup_empty. destruct (f_Tags f !! s) as [l|] eqn:E; [|done].
    destruct (fp_tags f Hp _ _ E) as [(c & -> & _) _]. by destruct (Hs c).
Qed.

Lemma utf8_ok_cons c s : code c < 128 -> utf8_ok s = true -> utf8_ok (String c s) = true.
Proof.
  intros Hc Hs. unfold utf8_ok in *. cbn [String.length chars String.list_ascii_of_string utf8_valid].
  by rewrite (proj2 (Z.ltb_lt _ _) Hc).
Qed.

Lemma tag_letter_ascii c : isTagLetter c = true -> code c < 128.
Proof. unfold isTagLetter, in_range. rewrite orb_true_iff, !andb_true_iff, !Z.leb_le. change (code "z") with 122. change (code "Z") with 90. lia. Qed.

Lemma member_field_ok f x j : filter_portable f -> member_field f x j -> utf8_ok (field_name x) = true /\ json_ok j.
Proof.
  intros Hp Hm. pose proof (fp_strings f Hp) as Hs. rewrite !Forall_app in Hs. destruct Hs as (H1 & H2 & H3).
  assert (Hstr : forall l, Forall (fun s => utf8_ok s = true) l -> json_ok (strings_json l)).
  { intros l Hl. apply json_ok_arr, Forall_fmap. exact Hl. }
  assert (Hint : forall l, json_ok (ints_json l)).
  { intros l. apply json_ok_arr, Forall_fmap. apply Forall_true. intros z. apply number_ok_fmt. }
  destruct x as [| | | | | | |c]; cbn in Hm; destruct Hm as (a & Ha & ->); (split; [try reflexivity|try apply number_ok_fmt; auto]).
  - apply Hstr. by rewrite Ha in H1.
  - apply Hstr. by rewrite Ha in H2.
  - rewrite Ha in H3. by inversion H3.
  - destruct (fp_tags f Hp _ _ Ha) as [(c' & [= <-] & Hc) _]. cbn [field_name].
    apply utf8_ok_cons; [done|]. apply utf8_ok_cons; [by apply tag_letter_ascii|done].
  - apply Hstr. by destruct (fp_tags f Hp _ _ Ha).
Qed.

(** The text of a filter, whatever order the map was ranged over in, is read back. *)
Lemma filter_marshal_reads order f : (forall ms, order ms ≡ₚ ms) -> filter_portable f ->
  exists l j, ReqFilter_MarshalJSON order f = Ok l /\ parse l = Some j /\ ReqFilter_UnmarshalJSONFrom j = Ok f.
Proof.
  intros Ho Hp. set (ms := order (filter_members f)).
  assert (Hok : json_ok (JObj ms)).
  { apply json_ok_obj. split; [unfold ms; rewrite Ho; apply filter_members_NoDup|]. apply Forall_forall. intros kv Hin.
    unfold ms in Hin. rewrite Ho in Hin. apply elem_of_filter_members in Hin as (x & Hk & Hm); [|done]. rewrite Hk.
    by apply (member_field_ok f). }
  destruct (print_parse V2 _ Hok) as (p & Hpr & Hpa). exists p, (JObj ms). unfold ReqFilter_MarshalJSON, marshal. fold ms.
  rewrite Hpr. split_and!; [done|done|]. apply filter_reads; [done|]. apply Ho.
Qed.

(** ** Parsed filters *)

Lemma strings_utf8 j o : json_ok j -> slice_of_json string_of_json j = Ok o -> Forall (fun s => utf8_ok s = true) (elems o).
Proof.
  destruct j as [|b|raw|s|l|l]; try done; cbn [slice_of_json]; [intros _ [= <-]; constructor|].
  intros Hj%json_ok_arr. rewrite bind_Ok. intros (xs & Hxs & [= <-]). cbn [elems default from_option].
  eapply mapM_Ok_Forall; [|exact Hj|exact Hxs]. intros a b Ha. destruct a; try done; cbn; by intros [= <-].
Qed.

Lemma ints_range j o : slice_of_json int64_of_json j = Ok o -> Forall int64 (elems o).
Proof.
  destruct j as [|b|raw|s|l|l]; try done; cbn [slice_of_json]; [intros [= <-]; constructor|].
  rewrite bind_Ok. intros (xs & Hxs & [= <-]). cbn [elems default from_option].
  eapply (mapM_Ok_Forall _ (fun _ => True)); [|by apply Forall_true|exact Hxs]. intros a b _. destruct a as [|b'|raw|s|l'|l']; try done; cbn.
  - intros [= <-]. by vm_compute.
  - destruct (int_of_literal raw) as [z|] eqn:E; [|done]. intros [= <-]. by eapply int_of_literal_range.
Qed.

Lemma pointer_range j o z : pointer_of_json int64_of_json j = Ok o -> o = Some z -> int64 z.
Proof.
  intros Hj ->. destruct j as [|b|raw|s|l|l]; try done. cbn in Hj. destruct (int_of_literal raw) as [z'|] eqn:E; [|done].
  injection Hj as <-. by eapply int_of_literal_range.
Qed.

Lemma pointer_utf8 j o s : json_ok j -> pointer_of_json string_of_json j = Ok o -> o = Some s -> utf8_ok s = true.
Proof. intros Hj Hp ->. destruct j as [|b|raw|s'|l|l]; try done. cbn in *. by injection Hp as <-. Qed.

(** What the reader produces. *)
Lemma filter_parsed j f : json_ok j -> ReqFilter_UnmarshalJSONFrom j = Ok f -> filter_portable f.
Proof.
  destruct j as [|b|raw|s|l|ms]; try done. intros [Hnd Hok]%json_ok_obj Hu. cbn [ReqFilter_UnmarshalJSONFrom] in Hu.
  apply set_filter_members_spec in Hu as (Hms & Hf & Ho); [|done]. rewrite Forall_forall in Hok.
  assert (Hfield : forall x, (exists j, json_ok j /\ known_field x /\ decode_filter x j = Ok (get_filter f x)) \/
    get_filter f x = get_filter emptyFilter x).
  { intros x. destruct (decide (field_name x ∈ ms.*1)) as [Hin|Hnot]; [left|right; by apply Hf].
    apply list_elem_of_fmap in Hin as ([k j] & Hk & Hin). cbn [fst] in Hk. subst k.
    destruct (Hms _ _ Hin) as (_ & y & Hy & Hxy & Hd). apply field_name_inj in Hxy as <-. exists j. split_and!; [|done..]. by apply (Hok _ Hin). }
  assert (Hs : forall x o, x = FIDs \/ x = FAuthors -> get_filter f x = VStrings o -> Forall (fun s => utf8_ok s = true) (elems o)).
  { intros x o Hx Hg. destruct (Hfield x) as [(j & Hj & _ & Hd)|Hz].
    - rewrite Hg in Hd. destruct Hx as [->| ->]; cbn [decode_filter] in Hd; apply bind_Ok in Hd as (v & Hv & [= <-]); by eapply strings_utf8.
    - rewrite Hg in Hz. destruct Hx as [->| ->]; injection Hz as ->; constructor. }
  assert (Hi : forall x o, x = FSince \/ x = FUntil \/ x = FLimit -> get_filter f x = VInt o ->
    Forall int64 (elems (option_map (fun z => [z]) o))).
  { intros x [z|] Hx Hg; [|constructor]. cbn. constructor; [|constructor]. destruct (Hfield x) as [(j & _ & _ & Hd)|Hz].
    - rewrite Hg in Hd. destruct Hx as [->|[->| ->]]; cbn [decode_filter] in Hd; apply bind_Ok in Hd as (v & Hv & [= ->]); by eapply pointer_range.
    - rewrite Hg in Hz. by destruct Hx as [->|[->| ->]]. }
  constructor.
  - rewrite !Forall_app. split_and!; [apply (Hs FIDs); auto|apply (Hs FAuthors); auto|].
    destruct (f_Search f) as [s|] eqn:E; [|constructor]. cbn. constructor; [|constructor].
    destruct (Hfield FSearch) as [(j & Hj & _ & Hd)|Hz]; cbn [get_filter] in *; rewrite E in *; [|done].
    cbn [decode_filter] in Hd. apply bind_Ok in Hd as (v & Hv & [= ->]). by eapply pointer_utf8.
  - rewrite !Forall_app. split_and!; [|apply (Hi FSince); auto|apply (Hi FUntil); auto|apply (Hi FLimit); auto].
    destruct (Hfield FKinds) as [(j & _ & _ & Hd)|Hz]; cbn [get_filter decode_filter] in *.
    + apply bind_Ok in Hd as (v & Hv & [= <-]). by eapply ints_range.
    + injection Hz as ->. constructor.
  - intros k l Hl. destruct k as [|c [|c' k]].
    + rewrite Ho in Hl by done. discriminate Hl.
    + destruct (Hfield (FTag c)) as [(j & Hj & Hc & Hd)|Hz]; cbn [get_filter decode_filter known_field] in *.
      * apply bind_Ok in Hd as (v & Hv & [= Hd]). rewrite Hl in Hd. injection Hd as <-. split; [eauto|]. by eapply strings_utf8.
      * injection Hz as Hz. rewrite Hl in Hz. discriminate Hz.
    + rewrite Ho in Hl by done. discriminate Hl.
Qed.
