(* ===== verification/MessageJson.v ===== *)
(** * Messages as JSON (message.go)

    The parser of client messages and the encoder of server messages.  A decoder is
    the text it has not read yet: inside the array of a message each further
    element follows a comma, and the parsers of EVENT, REQ, COUNT and AUTH stop at
    the closing bracket, whatever comes after it. *)

From S2P Require Import Prelude GoTime Text Event Filter Message Json JsonStrings JsonRoundtrip JsonTyping.
From S2P Require Import EventJson EventParse FilterJson.

(** ** The label *)

(** [\s] and [\w] of package regexp. *)
Definition re_space (c : ascii) : bool :=
  let b := code c in (b =? 9) || (b =? 10) || (b =? 12) || (b =? 13) || (b =? 32).
Definition re_word (c : ascii) : bool :=
  in_range "0" "9" c || in_range "A" "Z" c || in_range "a" "z" c || Ascii.eqb c "_".

Fixpoint skip_re_space (l : list ascii) : list ascii :=
  match l with c :: rest => if re_space c then skip_re_space rest else l | [] => [] end.

(** [clientMsgLabelRegexp]: the word between the first quotes. *)
Definition match_label (data : list ascii) : option string :=
  match data with
  | b :: rest =>
      if Ascii.eqb b "[" then
        match skip_re_space rest with
        | q :: rest =>
            if Ascii.eqb q "034" then
              match span re_word rest with
              | (c :: w, q :: _) => if Ascii.eqb q "034" then Some (str_of (c :: w)) else None
              | _ => None
              end
            else None
        | [] => None
        end
      else None
  | [] => None
  end.

(** ** The decoder inside the array *)

(** The two tokens before the first element that matters: the bracket and the
    label, which a matched text has as a string if at all. *)
Definition read_label (data : list ascii) : Res (list ascii) :=
  match skip_ws data with
  | b :: rest =>
      if Ascii.eqb b "[" then
        match skip_ws rest with
        | q :: rest =>
            if Ascii.eqb q "034" then
              match read_string rest with Some (_, rest) => Ok rest | None => Err "invalid string" end
            else Err "invalid character"
        | [] => Err "unexpected EOF"
        end
      else Err "invalid character"
  | [] => Err "unexpected EOF"
  end.

(** The value after a comma. *)
Definition next_value (rest : list ascii) : Res (json * list ascii) :=
  match skip_ws rest with
  | c :: rest => if Ascii.eqb c "," then match ReadValue rest with Some r => Ok r | None => Err "invalid value" end
                 else Err "missing comma"
  | [] => Err "unexpected EOF"
  end.

(** [dec.PeekKind() == ']'] *)
Definition at_end (rest : list ascii) : bool :=
  match skip_ws rest with c :: _ => Ascii.eqb c "]" | [] => false end.

(** ** Client messages *)

(** What [parseClientEventMsg] and [parseClientAuthMsg] share: all but the type. *)
Definition parse_event_msg (msgType : string) (data : list ascii) : Res ClientMsg :=
  rest ← read_label data;
  '(v, rest) ← next_value rest;
  ev ← Event_UnmarshalJSONFrom v;
  if negb (at_end rest) then Err "must have exactly 2 elements"
  else mret (mkClientMsg msgType (Some ev) "" []).

Definition parseClientEventMsg (data : list ascii) : Res ClientMsg := parse_event_msg MsgTypeEvent data.
Definition parseClientAuthMsg (data : list ascii) : Res ClientMsg := parse_event_msg MsgTypeAuth data.

(** The loop over the filters. *)
Fixpoint read_filters (n : nat) (rest : list ascii) : Res (list ReqFilter) :=
  if at_end rest then Ok []
  else match n with
  | O => Err "unexpected EOF"
  | S n =>
      '(v, rest) ← next_value rest;
      f ← ReqFilter_UnmarshalJSONFrom v;
      fs ← read_filters n rest;
      mret (f :: fs)
  end.

(** What [parseClientReqMsg] and [parseClientCountMsg] share. *)
Definition parse_req_msg (msgType : string) (data : list ascii) : Res ClientMsg :=
  rest ← read_label data;
  '(v, rest) ← next_value rest;
  subID ← string_of_json v;
  if negb (validateSubscriptionID subID) then Err "subscription_id must be non-empty"
  else
    filters ← read_filters (length rest) rest;
    if (length filters =? 0)%nat then Err "must have at least one filter"
    else mret (mkClientMsg msgType None subID filters).

Definition parseClientReqMsg (data : list ascii) : Res ClientMsg := parse_req_msg MsgTypeReq data.
Definition parseClientCountMsg (data : list ascii) : Res ClientMsg := parse_req_msg MsgTypeCount data.

Definition parseClientCloseMsg (data : list ascii) : Res ClientMsg :=
  match parse data with
  | None => Err "invalid JSON"
  | Some j =>
      arr ← slice_of_json string_of_json j;
      let arr := elems arr in
      if negb (length arr =? 2)%nat then Err "CLOSE must have exactly 2 elements"
      else if negb (validateSubscriptionID (nth 1 arr "")) then Err "subscription_id must be non-empty"
      else mret (mkClientMsg MsgTypeClose None (nth 1 arr "") [])
  end.

(** [ParseClientMsg] *)
Definition ParseClientMsg (data : list ascii) : Res ClientMsg :=
  match match_label data with
  | None => Err "invalid client message format"
  | Some msgType =>
      if String.eqb msgType MsgTypeEvent then parseClientEventMsg data
      else if String.eqb msgType MsgTypeReq then parseClientReqMsg data
      else if String.eqb msgType MsgTypeClose then parseClientCloseMsg data
      else if String.eqb msgType MsgTypeAuth then parseClientAuthMsg data
      else if String.eqb msgType MsgTypeCount then parseClientCountMsg data
      else Err ("unknown client message type: " +:+ msgType)
  end.

(** ** Server messages *)

Definition JEvent (oe : option Event) : json :=
  match oe with Some e => event_json V2 e | None => JNull end.

(** The payload of COUNT is a map; [order] is the order it is ranged over in. *)
Definition count_payload (m : ServerMsg) : list (string * json) :=
  ("count"%string, JInt (s_Count m)) ::
  match s_Approximate m with Some b => [("approximate"%string, JBool b)] | None => [] end.

(** The array [ServerMsg.MarshalJSON] writes. *)
Definition server_json (order : list (string * json) -> list (string * json)) (m : ServerMsg) : option json :=
  let ty := s_Type m in
  if String.eqb ty MsgTypeEvent then Some (JArr [JStr MsgTypeEvent; JStr (s_SubscriptionID m); JEvent (s_Event m)])
  else if String.eqb ty MsgTypeOK then
    Some (JArr [JStr MsgTypeOK; JStr (s_EventID m); JBool (s_Accepted m); JStr (s_Message m)])
  else if String.eqb ty MsgTypeEOSE then Some (JArr [JStr MsgTypeEOSE; JStr (s_SubscriptionID m)])
  else if String.eqb ty MsgTypeClosed then
    Some (JArr [JStr MsgTypeClosed; JStr (s_SubscriptionID m); JStr (s_Message m)])
  else if String.eqb ty MsgTypeNotice then Some (JArr [JStr MsgTypeNotice; JStr (s_Message m)])
  else if String.eqb ty MsgTypeCount then
    Some (JArr [JStr MsgTypeCount; JStr (s_SubscriptionID m); JObj (order (count_payload m))])
  else if String.eqb ty MsgTypeAuth then Some (JArr [JStr MsgTypeAuth; JStr (s_Message m)])
  else None.

(** [ServerMsg.MarshalJSON] *)
Definition ServerMsg_MarshalJSON (order : list (string * json) -> list (string * json)) (m : ServerMsg) : Res (list ascii) :=
  match server_json order m with
  | Some j => marshal V2 j
  | None => Err ("unknown server message type: " +:+ s_Type m)
  end.

Example parse_close_ex : ParseClientMsg (quoted "[ 'CLOSE', 's1'] ") = Ok (client_close "s1").
Proof. reflexivity. Qed.
Example parse_close_trailing : is_ok (ParseClientMsg (quoted "['CLOSE','s1']x")) = false.
Proof. reflexivity. Qed.
Example parse_req_trailing : ParseClientMsg (quoted "['REQ','s1',{}]x") = Ok (client_req "s1" [emptyFilter]).
Proof. reflexivity. Qed.
Example parse_req_null : is_ok (ParseClientMsg (quoted "['REQ','s1',{'ids':[null]}]")) = false.
Proof. reflexivity. Qed.
Example parse_close_null : is_ok (ParseClientMsg (quoted "['CLOSE',null]")) = false.
Proof. reflexivity. Qed.

(** ** What the parser accepts *)

(** A subscription id. *)
Definition sub_ok (sub : string) : Prop := sub <> "" /\ utf8_ok sub = true.

(** The messages the parser makes. *)
Inductive client_typed : ClientMsg -> Prop :=
| ct_event e : parsed_event e -> client_typed (client_event e)
| ct_auth e : parsed_event e -> client_typed (client_auth e)
| ct_req sub fs : sub_ok sub -> fs <> [] -> Forall filter_portable fs -> client_typed (client_req sub fs)
| ct_count sub fs : sub_ok sub -> fs <> [] -> Forall filter_portable fs -> client_typed (client_count sub fs)
| ct_close sub : sub_ok sub -> client_typed (client_close sub).

Lemma next_value_ok rest v rest' : next_value rest = Ok (v, rest') -> json_ok v /\ (length rest' < length rest)%nat.
Proof.
  unfold next_value. destruct (skip_ws rest) as [|c r] eqn:E; [done|]. apply skip_ws_cons in E. destruct (Ascii.eqb c ","); [|done].
  destruct (ReadValue r) as [[v' r']|] eqn:Er; [|done]. intros [= <- <-]. split; [by eapply ReadValue_ok|].
  apply (proj1 (read_length _)) in Er. lia.
Qed.

Lemma unmarshal_typed v e : json_ok v -> Event_UnmarshalJSONFrom v = Ok e -> parsed_event e.
Proof.
  intros Hv Hu. destruct v as [| | | | |ms]; try done. pose proof Hv as [Hnd _]%json_ok_obj.
  apply unmarshal_members in Hu as (w & -> & Hd); [|done]. by eapply document_parsed.
Qed.

Lemma read_filters_typed n : forall rest fs, read_filters n rest = Ok fs -> Forall filter_portable fs.
Proof.
  induction n as [|n IH]; intros rest fs; cbn [read_filters]; (destruct (at_end rest); [intros [= <-]; constructor|]); [done|].
  rewrite bind_Ok. intros ([v r] & Hv & Hf). apply next_value_ok in Hv as [Hv _].
  apply bind_Ok in Hf as (f & Hf & Hfs). apply bind_Ok in Hfs as (fs' & Hfs & [= <-]). constructor; [by eapply filter_parsed|by eapply IH].
Qed.

(** The length of the text is fuel enough for the loop over the filters. *)
Lemma read_filters_enough n : forall n' rest, (length rest <= n)%nat -> (length rest <= n')%nat ->
  read_filters n rest = read_filters n' rest.
Proof.
  assert (Hnil : forall m (r : list ascii), length r = 0%nat -> read_filters m r = Err "unexpected EOF").
  { intros m [|c r] Hl; [|done]. by destruct m. }
  induction n as [|n IH]; intros [|n'] rest Hn Hn'; [done|by rewrite !Hnil by lia..|].
  cbn [read_filters]. destruct (at_end rest); [done|]. destruct (next_value rest) as [[v r]| |] eqn:E; [|done..].
  apply next_value_ok in E as [_ Hl]. cbn [mbind Res_bind]. by rewrite (IH n' r) by lia.
Qed.

Lemma validate_sub s : validateSubscriptionID s = true <-> s <> "".
Proof. unfold validateSubscriptionID. by rewrite negb_true_iff, String.eqb_neq. Qed.

Lemma string_of_json_utf8 j s : json_ok j -> string_of_json j = Ok s -> utf8_ok s = true.
Proof. destruct j; try done; cbn; by intros ? [= <-]. Qed.

Lemma parse_event_msg_typed ty data m : parse_event_msg ty data = Ok m ->
  exists e, parsed_event e /\ m = mkClientMsg ty (Some e) "" [].
Proof.
  unfold parse_event_msg. rewrite bind_Ok. intros (rest & _ & Hm). apply bind_Ok in Hm as ([v r] & Hv & Hm).
  apply next_value_ok in Hv as [Hv _]. apply bind_Ok in Hm as (e & He & Hm). destruct (negb _); [done|].
  injection Hm as <-. exists e. split; [by eapply unmarshal_typed|done].
Qed.

Lemma parse_req_msg_typed ty data m : parse_req_msg ty data = Ok m ->
  exists sub fs, sub_ok sub /\ fs <> [] /\ Forall filter_portable fs /\ m = mkClientMsg ty None sub fs.
Proof.
  unfold parse_req_msg. rewrite bind_Ok. intros (rest & _ & Hm). apply bind_Ok in Hm as ([v r] & Hv & Hm).
  apply next_value_ok in Hv as [Hv _]. apply bind_Ok in Hm as (sub & Hsub & Hm). destruct (validateSubscriptionID sub) eqn:Hs; [|done]. cbn [negb] in Hm.
  apply bind_Ok in Hm as (fs & Hfs & Hm). destruct fs as [|f fs]; [done|]. injection Hm as <-.
  exists sub, (f :: fs). split_and!; [split; [by apply validate_sub|by eapply string_of_json_utf8]|done|by eapply read_filters_typed|done].
Qed.

Lemma parse_close_msg_typed data m : parseClientCloseMsg data = Ok m -> exists sub, sub_ok sub /\ m = client_close sub.
Proof.
  unfold parseClientCloseMsg. destruct (parse data) as [j|] eqn:Hj; [|done]. rewrite bind_Ok. intros (arr & Harr & Hm).
  apply parse_ok in Hj. apply (strings_utf8 _ _ Hj) in Harr.
  destruct (_ =? 2)%nat; [|done]. destruct (validateSubscriptionID _) eqn:Hs; [|done]. injection Hm as <-.
  eexists. split; [split; [by apply validate_sub|]|done].
  destruct (elems arr) as [|a [|b l]]; [done..|]. rewrite !Forall_cons in Harr. apply Harr.
Qed.

Lemma ParseClientMsg_typed data m : ParseClientMsg data = Ok m -> client_typed m.
Proof.
  unfold ParseClientMsg. destruct (match_label data) as [ty|]; [|done].
  destruct (String.eqb ty MsgTypeEvent); [intros (e & He & ->)%parse_event_msg_typed; by apply ct_event|].
  destruct (String.eqb ty MsgTypeReq); [intros (sub & fs & ? & ? & ? & ->)%parse_req_msg_typed; by apply ct_req|].
  destruct (String.eqb ty MsgTypeClose); [intros (sub & ? & ->)%parse_close_msg_typed; by apply ct_close|].
  destruct (String.eqb ty MsgTypeAuth); [intros (e & He & ->)%parse_event_msg_typed; by apply ct_auth|].
  destruct (String.eqb ty MsgTypeCount); [intros (sub & fs & ? & ? & ? & ->)%parse_req_msg_typed; by apply ct_count|done].
Qed.

(** ** The parser reads what NIP-01 clients write *)

(** The arrays of NIP-01: label, then elements. *)
Definition client_elements (m : ClientMsg) : list json :=
  if String.eqb (c_Type m) MsgTypeEvent || String.eqb (c_Type m) MsgTypeAuth then [JEvent (c_Event m)]
  else if String.eqb (c_Type m) MsgTypeClose then [JStr (c_SubscriptionID m)]
  else JStr (c_SubscriptionID m) :: ((fun f => JObj (filter_members f)) <$> c_Filters m).

Definition client_json (m : ClientMsg) : json := JArr (JStr (c_Type m) :: client_elements m).

(** Messages that can be written. *)
Definition client_writable (m : ClientMsg) : Prop :=
  match m with
  | mkClientMsg ty (Some e) "" [] => (ty = MsgTypeEvent \/ ty = MsgTypeAuth) /\ portable e
  | mkClientMsg ty None sub fs =>
      utf8_ok sub = true /\ sub <> "" /\
      ((ty = MsgTypeClose /\ fs = []) \/ ((ty = MsgTypeReq \/ ty = MsgTypeCount) /\ fs <> [] /\ Forall filter_portable fs))
  | _ => False
  end.

(** The text after the label: a comma before each element, then the bracket. *)
Definition elements_text (ps : list (list ascii)) (rest : list ascii) : list ascii :=
  concat ((fun y => ","%char :: y) <$> ps) ++ "]"%char :: rest.

Definition prints (ps : list (list ascii)) (js : list json) : Prop :=
  Forall2 (fun p j => print V2 j = Some p /\ reads_back p j) ps js.

Lemma prints_ok js : Forall json_ok js -> exists ps, prints ps js.
Proof.
  induction 1 as [|j js Hj Hjs (ps & Hps)]; [by exists []; constructor|].
  destruct (print_reads V2 j Hj) as (p & Hp & Hr). exists (p :: ps). by constructor.
Qed.

Lemma prints_print ps js : prints ps js -> mapM (print V2) js = Some ps.
Proof. induction 1 as [|p j ps js [Hp _] Hps IH]; [done|]. by apply mapM_cons_some. Qed.

Lemma message_text ty ps js p : prints ps js -> print V2 (JArr (JStr ty :: js)) = Some p ->
  forall q, quote V2 ty = Some q -> p = "["%char :: q ++ concat ((fun y => ","%char :: y) <$> ps) ++ ["]"%char].
Proof.
  intros Hps Hp q Hq. cbn [print] in Hp. rewrite (mapM_cons_some (print V2) (JStr ty) js q ps Hq (prints_print _ _ Hps)) in Hp.
  cbn [mbind option_bind comma_list] in Hp. injection Hp as <-. by rewrite <-app_assoc.
Qed.

Lemma elements_number_end ps rest : number_end (elements_text ps rest) = true.
Proof. by destruct ps. Qed.

Lemma next_element p j ps rest : reads_back p j -> next_value (elements_text (p :: ps) rest) = Ok (j, elements_text ps rest).
Proof.
  intros [_ Hr]. unfold elements_text. cbn [fmap list_fmap concat app]. rewrite <-app_assoc. unfold next_value.
  rewrite skip_ws_head by done. change (Ascii.eqb "," ",") with true. cbv iota.
  destruct (Hr (elements_text ps rest) (elements_number_end ps rest)) as [n Hn]. unfold elements_text in Hn.
  by rewrite (ReadValue_some _ _ _ Hn).
Qed.

Lemma at_end_elements ps rest : at_end (elements_text ps rest) = match ps with [] => true | _ => false end.
Proof. by destruct ps. Qed.

Lemma read_filters_elements fs ps rest n : Forall filter_portable fs ->
  prints ps ((fun f => JObj (filter_members f)) <$> fs) -> (length ps <= n)%nat -> read_filters n (elements_text ps rest) = Ok fs.
Proof.
  intros Hfs. revert ps n. induction Hfs as [|f fs Hf Hfs IH]; intros ps n Hps Hn; inversion Hps as [|p j ps' js [_ Hp] Hps']; subst.
  - by destruct n.
  - cbn [length] in Hn. destruct n as [|n]; [lia|]. cbn [read_filters]. rewrite at_end_elements, (next_element _ _ _ _ Hp).
    cbn [mbind Res_bind]. rewrite (filter_reads f) by done. cbn [mbind Res_bind]. rewrite (IH ps' n) by (done || lia). done.
Qed.

Lemma elements_text_length ps rest : (length ps <= length (elements_text ps rest))%nat.
Proof.
  unfold elements_text. rewrite length_app.
  assert (length ps <= length (concat ((fun y => ","%char :: y) <$> ps)))%nat; [|lia].
  induction ps as [|p ps IH]; [done|]. rewrite fmap_cons. cbn [concat length app]. rewrite length_app. lia.
Qed.

(** The five labels, as they are written and matched. *)
Definition is_label (ty : string) : Prop :=
  ty = MsgTypeEvent \/ ty = MsgTypeReq \/ ty = MsgTypeClose \/ ty = MsgTypeAuth \/ ty = MsgTypeCount.

Lemma label_text ty rest : is_label ty -> exists q, quote V2 ty = Some q /\
  match_label ("["%char :: q ++ rest) = Some ty /\ read_label ("["%char :: q ++ rest) = Ok rest.
Proof.
  intros Hty. assert (Hu : utf8_ok ty = true) by (destruct_or! Hty; by subst).
  destruct (quote_reads V2 ty Hu) as (q & Hq & Hread). exists ("034"%char :: q). split; [done|]. split.
  - destruct_or! Hty; subst ty; injection Hq as <-; reflexivity.
  - change (match read_string (q ++ rest) with Some (_, rest) => Ok rest | None => Err "invalid string" end = Ok rest).
    by rewrite Hread.
Qed.

Lemma filter_json_ok f : filter_portable f -> json_ok (JObj (filter_members f)).
Proof.
  intros Hp. apply json_ok_obj. split; [apply filter_members_NoDup|]. apply Forall_forall. intros kv Hin.
  apply elem_of_filter_members in Hin as (x & Hk & Hm); [|done]. rewrite Hk. by apply (member_field_ok f).
Qed.

Lemma parse_event_msg_reads ty msgType e rest q p : is_label ty -> quote V2 ty = Some q -> portable e ->
  print V2 (event_json V2 e) = Some p -> reads_back p (event_json V2 e) ->
  parse_event_msg msgType ("["%char :: q ++ elements_text [p] rest) = Ok (mkClientMsg msgType (Some e) "" []).
Proof.
  intros Hty Hq He Hp Hr. destruct (label_text ty (elements_text [p] rest) Hty) as (q' & Hq' & _ & Hl). rewrite Hq in Hq'. injection Hq' as <-.
  unfold parse_event_msg. rewrite Hl. cbn [mbind Res_bind]. rewrite (next_element _ _ _ _ Hr). cbn [mbind Res_bind].
  rewrite (event_json_reads V2 e He). cbn [mbind Res_bind]. by rewrite at_end_elements.
Qed.

Lemma parse_req_msg_reads ty msgType sub fs rest q p ps : is_label ty -> quote V2 ty = Some q -> sub <> "" -> fs <> [] ->
  Forall filter_portable fs -> prints (p :: ps) (JStr sub :: ((fun f => JObj (filter_members f)) <$> fs)) ->
  parse_req_msg msgType ("["%char :: q ++ elements_text (p :: ps) rest) = Ok (mkClientMsg msgType None sub fs).
Proof.
  intros Hty Hq Hs Hne Hfs Hps. destruct (label_text ty (elements_text (p :: ps) rest) Hty) as (q' & Hq' & _ & Hl).
  rewrite Hq in Hq'. injection Hq' as <-. inversion Hps as [|? ? ? ? [_ Hp] Hps']; subst.
  unfold parse_req_msg. rewrite Hl. cbn [mbind Res_bind]. rewrite (next_element _ _ _ _ Hp). cbn [mbind Res_bind string_of_json].
  rewrite (proj2 (validate_sub sub) Hs). cbn [negb].
  rewrite (read_filters_elements fs ps rest) by (done || apply elements_text_length). cbn [mbind Res_bind]. by destruct fs.
Qed.

(** A message, followed by anything in the four cases that stop at the bracket. *)
Lemma client_reads m trailing : client_writable m -> (c_Type m = MsgTypeClose -> trailing = []) ->
  exists l, marshal V2 (client_json m) = Ok l /\ ParseClientMsg (l ++ trailing) = Ok m.
Proof.
  intros Hw Htr. destruct m as [ty oe sub fs].
  assert (Hgo : is_label ty -> Forall json_ok (client_elements (mkClientMsg ty oe sub fs)) ->
    (forall q ps, quote V2 ty = Some q -> prints ps (client_elements (mkClientMsg ty oe sub fs)) ->
      match_label ("["%char :: q ++ elements_text ps trailing) = Some ty ->
      parse ("["%char :: q ++ elements_text ps []) = Some (client_json (mkClientMsg ty oe sub fs)) ->
      ParseClientMsg ("["%char :: q ++ elements_text ps trailing) = Ok (mkClientMsg ty oe sub fs)) ->
    exists l, marshal V2 (client_json (mkClientMsg ty oe sub fs)) = Ok l /\ ParseClientMsg (l ++ trailing) = Ok (mkClientMsg ty oe sub fs)).
  { intros Hty Hok Hparse. destruct (prints_ok _ Hok) as [ps Hps].
    assert (Hj : json_ok (client_json (mkClientMsg ty oe sub fs))).
    { unfold client_json. apply json_ok_arr. constructor; [|done]. cbn [c_Type json_ok]. by destruct_or! Hty; subst. }
    destruct (print_parse V2 _ Hj) as (p & Hp & Hpp). exists p. unfold marshal. rewrite Hp. split; [done|].
    destruct (label_text ty (elements_text ps trailing) Hty) as (q & Hq & Hm & _).
    pose proof (message_text ty ps _ p Hps Hp q Hq) as ->. rewrite <-app_comm_cons, <-!app_assoc. cbn [app].
    change ("["%char :: q ++ concat ((fun y => ","%char :: y) <$> ps) ++ "]"%char :: trailing) with ("["%char :: q ++ elements_text ps trailing).
    by apply Hparse. }
  destruct oe as [e|].
  - destruct sub; [|done]. destruct fs; [|done]. destruct Hw as [Hty He]. apply Hgo; [destruct Hty as [->| ->]; unfold is_label; tauto| |].
    + destruct Hty as [->| ->]; (constructor; [by apply event_json_ok, portable_printable|constructor]).
    + intros q ps Hq Hps Hm _. unfold ParseClientMsg. rewrite Hm.
      destruct Hty as [->| ->]; inversion Hps as [|p j ps' js [Hp Hr] Hnil]; inversion Hnil; subst.
      * apply (parse_event_msg_reads MsgTypeEvent MsgTypeEvent e _ q p); try done. by left.
      * apply (parse_event_msg_reads MsgTypeAuth MsgTypeAuth e _ q p); try done. unfold is_label; tauto.
  - destruct Hw as (Hu & Hs & [[-> ->]|(Hty & Hne & Hfs)]).
    + apply Hgo; [unfold is_label; tauto|by repeat constructor|]. intros q ps Hq Hps Hm Hp. unfold ParseClientMsg. rewrite Hm.
      rewrite (Htr eq_refl). change (parseClientCloseMsg ("["%char :: q ++ elements_text ps []) = Ok (mkClientMsg MsgTypeClose None sub [])).
      unfold parseClientCloseMsg. rewrite Hp. cbn. by rewrite (proj2 (validate_sub sub) Hs).
    + assert (Hel : client_elements (mkClientMsg ty None sub fs) = JStr sub :: ((fun f => JObj (filter_members f)) <$> fs)).
      { by destruct Hty as [->| ->]. }
      apply Hgo; [destruct Hty as [->| ->]; unfold is_label; tauto| |].
      * rewrite Hel. constructor; [done|]. apply Forall_fmap. eapply Forall_impl; [exact Hfs|]. intros f. apply filter_json_ok.
      * intros q ps Hq Hps Hm _. unfold ParseClientMsg. rewrite Hm. rewrite Hel in Hps.
        assert (exists p ps', ps = p :: ps') as (p & ps' & ->) by (inversion Hps; eauto).
        destruct Hty as [->| ->].
        -- apply (parse_req_msg_reads MsgTypeReq MsgTypeReq sub fs _ q p ps'); try done. unfold is_label; tauto.
        -- apply (parse_req_msg_reads MsgTypeCount MsgTypeCount sub fs _ q p ps'); try done. unfold is_label; tauto.
Qed.

(** ** Server messages are read back *)

(** The messages whose strings and event can be written. *)
Definition server_writable (m : ServerMsg) : Prop :=
  utf8_ok (s_SubscriptionID m) = true /\ utf8_ok (s_EventID m) = true /\ utf8_ok (s_Message m) = true /\
  (forall e, s_Event m = Some e -> printable e) /\
  (s_Type m = MsgTypeEvent \/ s_Type m = MsgTypeOK \/ s_Type m = MsgTypeEOSE \/ s_Type m = MsgTypeClosed \/
   s_Type m = MsgTypeNotice \/ s_Type m = MsgTypeCount \/ s_Type m = MsgTypeAuth).

Lemma server_json_reads order m : (forall ms, order ms ≡ₚ ms) -> server_writable m ->
  exists j l, server_json order m = Some j /\ ServerMsg_MarshalJSON order m = Ok l /\ parse l = Some j.
Proof.
  intros Ho (Hsub & Hid & Hmsg & Hev & Hty).
  assert (Hgo : exists j, server_json order m = Some j /\ json_ok j).
  { unfold server_json. destruct_or! Hty; rewrite Hty; (eexists; split; [reflexivity|]); apply json_ok_arr;
      repeat (apply Forall_cons; split; [try (done || (cbn [json_ok]; done))|]); try apply Forall_nil_2.
    - destruct (s_Event m) as [e|] eqn:E; [|done]. apply event_json_ok. by apply Hev.
    - apply json_ok_obj. unfold count_payload. rewrite Ho. split.
      + apply (bool_decide_unpack _). by destruct (s_Approximate m).
      + assert (Hp : Forall (fun kv => utf8_ok kv.1 = true /\ json_ok kv.2) (("count"%string, JInt (s_Count m)) ::
          match s_Approximate m with Some b => [("approximate"%string, JBool b)] | None => [] end)).
        { constructor; [split; [done|apply number_ok_fmt]|]. destruct (s_Approximate m); by repeat constructor. }
        exact Hp. }
  destruct Hgo as (j & Hj & Hok). destruct (print_parse V2 j Hok) as (l & Hl & Hp). exists j, l.
  unfold ServerMsg_MarshalJSON, marshal. rewrite Hj, Hl. done.
Qed.
