(* ===== verification/CodecSpec.v ===== *)
(** * What the JSON codecs promise (event.go, filter.go, message.go)

    Round trips of values, events, filters and messages; which documents are
    events; what a parsed message guarantees; and what an id commits to. *)

From S2P Require Import Prelude GoTime Text Bytes Event Filter Message PebbleKeys Json JsonStrings JsonRoundtrip.
From S2P Require Import JsonTyping EventJson EventParse FilterJson MessageJson.

(** ** Example documents *)

Module CodecExamples.

Definition hex64 (c : ascii) : string := str_of (replicate 64 c).
Definition note : Event :=
  mkEvent (hex64 "a") (hex64 "1") (time_Unix 1700000000) 1 (Some [["t"; "x"]%string; ["p"%string; hex64 "2"; ""%string]])
    (String "h" (String "195" (String "169" "<br>"))) (str_of (replicate 128 "f"%char)).

Lemma note_portable : portable note.
Proof.
  constructor; try (vm_compute; reflexivity); [split; vm_compute; discriminate|].
  eexists. split; [reflexivity|]. repeat (apply Forall_cons; split; [split; [discriminate|]|]); try apply Forall_nil_2;
    repeat (apply Forall_cons; split; [vm_compute; reflexivity|]); apply Forall_nil_2.
Qed.

Definition search : ReqFilter :=
  mkReqFilter None (Some [hex64 "1"]) (Some [1; -5]) {["t"%string := ["x"; "y"]%string]} None (Some 1700000000) (Some 10) (Some "caf"%string).

Lemma search_portable : filter_portable search.
Proof.
  constructor.
  - cbn [search f_IDs f_Authors f_Search elems default from_option option_map app].
    repeat (apply Forall_cons; split; [vm_compute; reflexivity|]); apply Forall_nil_2.
  - cbn [search f_Kinds f_Since f_Until f_Limit elems default from_option option_map app].
    repeat (apply Forall_cons; split; [split; vm_compute; discriminate|]); apply Forall_nil_2.
  - intros k l Hl. cbn [search f_Tags] in Hl. apply lookup_singleton_Some in Hl as [<- <-]. split; [by exists "t"%char|].
    repeat (apply Forall_cons; split; [vm_compute; reflexivity|]); apply Forall_nil_2.
Qed.

End CodecExamples.

(** ** Values *)

(** The JSON reader ends on every text and needs no more steps than twice its
    length: with that fuel or any more, it gives the same result. *)
Theorem reader_terminates (l : list ascii) (n : nat) : (read_fuel l <= n)%nat -> read_value n l = ReadValue l.
Proof. apply ReadValue_enough. Qed.

Lemma reader_terminates_witness : read_value 1000 (quoted "[1,{'a':[null,true]}]") = ReadValue (quoted "[1,{'a':[null,true]}]").
Proof. apply reader_terminates. vm_compute. repeat constructor. Defined.

(** A JSON value survives printing and reading, under the options of either
    JSON package, escapes and nesting included; and everything the reader accepts
    is such a value: its strings are valid UTF-8, its numbers literals, its member
    names distinct. *)
Theorem json_roundtrip (v : Flavor) (text : list ascii) (j : json) :
  parse text = Some j -> json_ok j /\ exists p, print v j = Some p /\ parse p = Some j.
Proof. intros Hp. pose proof (parse_ok _ _ Hp) as Hj. split; [done|]. by apply print_parse. Qed.

Lemma json_roundtrip_witness :
  let j := JArr [JNum "-1.5e3"; JStr (String "<" (String "226" (String "128" (String "168" (String "010" ""))))); JObj [("k"%string, JNull)]] in
  json_ok j /\ exists p, print V1 j = Some p /\ parse p = Some j.
Proof.
  apply (json_roundtrip V1 (quoted " [ -1.5e3, '\u003C\u2028\n' ,{'\u006b':null}]")). vm_compute. reflexivity.
Defined.

(** ** Events *)

(** The documents accepted as events are exactly the objects with the seven
    members id, pubkey, created_at, kind, tags, content and sig, in any order, none
    null, the strings strings, the integers plain int64 literals, the tags arrays
    of arrays of strings; and the event is what the members say. *)
Theorem event_documents (ms : list (string * json)) (e : Event) : NoDup ms.*1 ->
  Event_UnmarshalJSONFrom (JObj ms) = Ok e <-> exists w, e = of_wire w /\ event_document ms w.
Proof. apply unmarshal_members. Qed.

Lemma event_documents_witness :
  let ms := reverse [("id"%string, JStr "i"); ("pubkey"%string, JStr "p"); ("created_at"%string, JNum "-7"); ("kind"%string, JNum "1");
    ("tags"%string, JArr [JArr [JStr "t"]]); ("content"%string, JStr "c"); ("sig"%string, JStr "s")] in
  let e := mkEvent "i" "p" (time_Unix (-7)) 1 (Some [["t"%string]]) "c" "s" in
  Event_UnmarshalJSONFrom (JObj ms) = Ok e /\ exists w, e = of_wire w /\ event_document ms w.
Proof.
  intros ms e. assert (Hu : Event_UnmarshalJSONFrom (JObj ms) = Ok e) by (vm_compute; reflexivity).
  split; [exact Hu|]. apply (event_documents ms e); [|exact Hu]. apply (bool_decide_unpack _). vm_compute. exact I.
Defined.

(** C22: every event that is parsed from JSON, with whatever ids, keys and tags (the
    relay does not ask for more), can be marshalled under the options of either JSON
    package, and the text is read back as the same event, with one exception: written
    under the options of encoding/json, as the Pebble storage writes it, an event with
    an empty tag cannot be read back at all. *)
Theorem parsed_event_roundtrip (v : Flavor) (text : list ascii) (e : Event) :
  unmarshal_text text = Ok e ->
  exists l ts, marshal_text v e = Ok l /\ ev_Tags e = Some ts /\
    if is_v1 v && bool_decide ([] ∈ ts) then forall e', unmarshal_text l <> Ok e' else unmarshal_text l = Ok e.
Proof.
  intros Hp%unmarshal_parsed. destruct (parsed_writes v e Hp) as (l & Hl & Hparse).
  destruct (pe_tags e Hp) as (ts & Hts & _). exists l, ts. split; [done|]. split; [done|]. unfold unmarshal_text. rewrite Hparse.
  destruct (is_v1 v) eqn:Hv; cbn [andb]; [case_bool_decide as Hin|].
  - assert (v = V1) as -> by by destruct v. by eapply empty_tag_unreadable.
  - eapply parsed_reads; eauto.
  - eapply parsed_reads; eauto.
Qed.

Definition with_tags (e : Event) (ts : list Tag) : Event :=
  mkEvent (ev_ID e) (ev_Pubkey e) (ev_CreatedAt e) (ev_Kind e) (Some ts) (ev_Content e) (ev_Sig e).

(** A text is read as the event [e]. *)
Definition text_of_event (e : Event) : list ascii := match marshal_text V2 e with Ok l => l | _ => [] end.

Lemma parsed_event_roundtrip_witness :
  (exists l, marshal_text V1 CodecExamples.note = Ok l /\ unmarshal_text l = Ok CodecExamples.note) /\
  (exists l, marshal_text V1 (with_tags CodecExamples.note [[]]) = Ok l /\ forall e', unmarshal_text l <> Ok e').
Proof.
  split.
  - destruct (parsed_event_roundtrip V1 (text_of_event CodecExamples.note) CodecExamples.note) as (l & ts & Hl & Hts & Hr);
      [vm_compute; reflexivity|]. exists l. split; [exact Hl|]. injection Hts as <-. exact Hr.
  - destruct (parsed_event_roundtrip V1 (text_of_event (with_tags CodecExamples.note [[]])) (with_tags CodecExamples.note [[]]))
      as (l & ts & Hl & Hts & Hr); [vm_compute; reflexivity|]. exists l. split; [exact Hl|]. injection Hts as <-. exact Hr.
Defined.

(** ** Ids *)

Lemma be64_bytes v : Forall byte_ok (be64 v).
Proof.
  unfold be64. apply Forall_fmap. apply Forall_true. intros i. unfold compose, byte_ok. change 255 with (Z.ones 8).
  rewrite Z.land_ones by lia. apply Z.mod_pos_bound. done.
Qed.

Lemma sha256_bytes m : Forall byte_ok (sha256 m).
Proof.
  unfold sha256. cbv zeta. generalize (sha_blocks (length (be_words (sha_pad m))) sha_init (be_words (sha_pad m))). intros s.
  unfold sha_sum, be32. rewrite !Forall_app. split_and!; apply Forall_drop, be64_bytes.
Qed.

Lemma bytesToHex_inj a b : Forall byte_ok a -> Forall byte_ok b -> bytesToHex a = bytesToHex b -> a = b.
Proof.
  intros Ha Hb Heq. pose proof (bytesToHex_less a b Ha Hb) as H1. pose proof (bytesToHex_less b a Hb Ha) as H2.
  rewrite Heq in H1, H2. pose proof (str_lt_irrefl (bytesToHex b)) as Hirr. unfold str_lt in Hirr.
  destruct (bytesLess_total a b) as [H|[H|H]]; [|done|]; congruence.
Qed.

(** A string that can be quoted without options is valid UTF-8. *)
Lemma quote_body_utf8 n : forall l b, quote_body V2 n l = Some b -> utf8_valid n l = true.
Proof.
  induction n as [|n IH]; intros [|c l] b Hq; cbn [quote_body utf8_valid] in *; try done. destruct (code c <? 128).
  - apply fmap_Some in Hq as (x & Hx & _). by eapply IH.
  - destruct (Nat.eqb_spec (rune_len c l) 1) as [|Hne]; [done|]. apply fmap_Some in Hq as (x & Hx & _).
    rewrite (IH _ _ Hx), andb_true_r. apply Nat.ltb_lt. destruct (rune_len_cases c l) as [|[|[|]]]; lia.
Qed.

Lemma quote_utf8 s q : quote V2 s = Some q -> utf8_ok s = true.
Proof. unfold quote. intros Hq. apply bind_Some_iff in Hq as (b & Hb & _). by eapply quote_body_utf8. Qed.

Lemma mapM_print_Forall l ps : mapM (print V2) l = Some ps -> Forall (fun j => exists p, print V2 j = Some p) l.
Proof.
  revert ps. induction l as [|j l IH]; intros ps Hm; [constructor|]. cbn in Hm.
  apply bind_Some_iff in Hm as (p & Hp & Hm). apply bind_Some_iff in Hm as (ps' & Hps & _). constructor; [eauto|by eapply IH].
Qed.

Lemma strings_printed t p : print V2 (tag_json V2 t) = Some p -> json_ok (tag_json V2 t).
Proof.
  assert (Heq : tag_json V2 t = JArr (JStr <$> t)) by by destruct t. rewrite Heq. cbn [print]. intros Hp.
  apply bind_Some_iff in Hp as (ps & Hps & _). apply json_ok_arr. apply mapM_print_Forall in Hps.
  rewrite Forall_fmap in *. eapply Forall_impl; [exact Hps|]. intros s [q Hq]. by eapply quote_utf8.
Qed.

(** A canonical text is one of a well-formed value. *)
Lemma Serialize_ok e t : Serialize (Some e) = Ok t -> json_ok (serial_json e) /\ print V2 (serial_json e) = Some t.
Proof.
  rewrite Serialize_print. unfold marshal. destruct (print V2 (serial_json e)) as [p|] eqn:Hp; [|done]. intros [= <-]. split; [|done].
  unfold serial_json in *. cbn [print] in Hp. apply bind_Some_iff in Hp as (ps & Hps & _). apply mapM_print_Forall in Hps.
  rewrite !Forall_cons in Hps. destruct Hps as (_ & [q1 Hq1] & _ & _ & [q2 Hq2] & [q3 Hq3] & _).
  apply json_ok_arr. repeat (apply Forall_cons; split); try apply Forall_nil_2; try apply number_ok_fmt.
  - by eapply quote_utf8.
  - unfold tags_json in *. cbn [print] in Hq2. apply bind_Some_iff in Hq2 as (ts & Hts & _). apply mapM_print_Forall in Hts.
    apply json_ok_arr. rewrite Forall_fmap in *. eapply Forall_impl; [exact Hts|]. intros t' [q Hq]. by eapply strings_printed.
  - by eapply quote_utf8.
Qed.

Lemma Verify_id `{Schnorr} e : Verify (Some e) = Ok true -> exists t, Serialize (Some e) = Ok t /\ ev_ID e = id_of_text t.
Proof.
  cbn [Verify]. rewrite bind_Ok. intros (t & Ht & Hv). exists t. split; [done|].
  destruct (String.eqb_spec (ev_ID e) (id_of_text t)) as [|]; [done|]. cbn [negb] in Hv. done.
Qed.

(** C23: an id commits to its event: two events that verify under the same id have
    the same author, second of creation, kind, tags and content, unless their
    canonical texts are a collision of SHA-256. *)
Theorem verified_id_commits `{Schnorr} (e e' : Event) :
  Verify (Some e) = Ok true -> Verify (Some e') = Ok true -> ev_ID e = ev_ID e' ->
  same_content e e' \/ exists t t', Serialize (Some e) = Ok t /\ Serialize (Some e') = Ok t' /\ t <> t' /\
    sha256 (code <$> t) = sha256 (code <$> t').
Proof.
  intros (t & Ht & Hid)%Verify_id (t' & Ht' & Hid')%Verify_id Heq. rewrite Hid, Hid' in Heq.
  apply bytesToHex_inj in Heq; [|apply sha256_bytes..].
  destruct (decide (t = t')) as [<-|Hne]; [left|right; eauto 10].
  destruct (Serialize_ok e t Ht) as [Hj Hp], (Serialize_ok e' t Ht') as [Hj' Hp'].
  apply serial_json_inj. by eapply print_inj.
Qed.

(** A scheme that accepts every signature. *)
Definition AcceptAll : Schnorr := {|
  SchnorrPubKey := bytes; SchnorrSignature := bytes;
  ParsePubKey := fun b => Ok b; ParseSignature := fun b => Ok b; sig_Verify := fun _ _ _ => true
|}.

Definition with_id (e : Event) : Event :=
  match Serialize (Some e) with
  | Ok t => mkEvent (id_of_text t) (ev_Pubkey e) (ev_CreatedAt e) (ev_Kind e) (ev_Tags e) (ev_Content e) (ev_Sig e)
  | _ => e
  end.

Lemma verified_id_commits_witness :
  let e := with_id CodecExamples.note in
  same_content e e \/ exists t t', Serialize (Some e) = Ok t /\ Serialize (Some e) = Ok t' /\ t <> t' /\
    sha256 (code <$> t) = sha256 (code <$> t').
Proof.
  intros e. apply (@verified_id_commits AcceptAll e e); [vm_compute; reflexivity..|reflexivity].
Defined.

(** ** Filters and messages *)

(** A filter with valid strings, machine integers and letter tags is marshalled
    and read back as itself, in whatever order its map is ranged over. *)
Theorem filter_roundtrip (order : list (string * json) -> list (string * json)) (f : ReqFilter) :
  (forall ms, order ms ≡ₚ ms) -> filter_portable f ->
  exists l j, ReqFilter_MarshalJSON order f = Ok l /\ parse l = Some j /\ ReqFilter_UnmarshalJSONFrom j = Ok f.
Proof. apply filter_marshal_reads. Qed.

Lemma filter_roundtrip_witness :
  exists l j, ReqFilter_MarshalJSON reverse CodecExamples.search = Ok l /\ parse l = Some j /\
  ReqFilter_UnmarshalJSONFrom j = Ok CodecExamples.search.
Proof. apply filter_roundtrip; [intros ms; apply reverse_Permutation|exact CodecExamples.search_portable]. Defined.

(** C24: the parser understands every message a client can write: the NIP-01 text of
    an EVENT, AUTH, REQ, COUNT or CLOSE message is parsed as that message; in the
    first four cases also when anything at all follows its closing bracket. *)
Theorem client_message_roundtrip (m : ClientMsg) (trailing : list ascii) :
  client_writable m -> (c_Type m = MsgTypeClose -> trailing = []) ->
  exists l, marshal V2 (client_json m) = Ok l /\ ParseClientMsg (l ++ trailing) = Ok m.
Proof. apply client_reads. Qed.

Lemma client_message_roundtrip_witness :
  exists l, marshal V2 (client_json (client_req "sub" [CodecExamples.search])) = Ok l /\
  ParseClientMsg (l ++ lit " garbage") = Ok (client_req "sub" [CodecExamples.search]).
Proof.
  apply client_message_roundtrip; [|discriminate]. split_and!; [vm_compute; reflexivity|discriminate|]. right.
  split_and!; [by left|discriminate|]. apply Forall_cons. split; [exact CodecExamples.search_portable|apply Forall_nil_2].
Defined.

(** C25: whatever bytes arrive, a message the parser returns is one of five shapes:
    EVENT or AUTH with an event whose strings are valid UTF-8, whose integers are
    int64, whose time is a whole second and whose tags are there; REQ or COUNT with
    a subscription id, not empty and valid UTF-8, and at least one filter, each of valid strings, int64 integers
    and letter tags; CLOSE with a subscription id. *)
Theorem parsed_client_message (data : list ascii) (m : ClientMsg) : ParseClientMsg data = Ok m -> client_typed m.
Proof. apply ParseClientMsg_typed. Qed.

Lemma parsed_client_message_witness : client_typed (client_count "c" [emptyFilter]).
Proof. apply (parsed_client_message (quoted "['COUNT','c',{}]")). vm_compute. reflexivity. Defined.

(** Every message the relay makes is sent as the JSON array of its kind: it is
    marshalled, and the text reads back as that array, in whatever order the COUNT
    payload is ranged over. *)
Theorem server_message_wire (order : list (string * json) -> list (string * json)) (m : ServerMsg) :
  (forall ms, order ms ≡ₚ ms) -> server_writable m ->
  exists j l, server_json order m = Some j /\ ServerMsg_MarshalJSON order m = Ok l /\ parse l = Some j.
Proof. apply server_json_reads. Qed.

Lemma server_message_wire_witness :
  exists j l, server_json reverse (NewServerCountMsg "s" 3 (Some true)) = Some j /\
  ServerMsg_MarshalJSON reverse (NewServerCountMsg "s" 3 (Some true)) = Ok l /\ parse l = Some j.
Proof.
  apply server_message_wire; [intros ms; apply reverse_Permutation|].
  split_and!; [reflexivity..|intros e He; discriminate He|]. right; right; right; right; right; left. reflexivity.
Defined.
