(* ===== verification/NoPanic.v ===== *)
(** * The parsers of network input do not panic (message.go, event.go, filter.go)

    What a client sends reaches [ParseClientMsg], and an event [Verify]: whatever
    the bytes, they return a result or an error. *)

From S2P Require Import Prelude Text Bytes Event Filter Message Json EventJson FilterJson MessageJson.

Definition calm {A} (r : Res A) : Prop := forall w, r <> Panic w.

Lemma calm_ok {A} (a : A) : calm (Ok a).
Proof. done. Qed.
Lemma calm_err {A} e : calm (Err e : Res A).
Proof. done. Qed.
Lemma calm_bind {A B} (m : Res A) (f : A -> Res B) : calm m -> (forall a, calm (f a)) -> calm (m ≫= f).
Proof. intros Hm Hf. destruct m; [apply Hf|done|by destruct (Hm why)]. Qed.
Lemma calm_mapM {A B} (f : A -> Res B) l : (forall a, calm (f a)) -> calm (mapM f l).
Proof. intros Hf. induction l as [|a l IH]; [done|]. cbn. apply calm_bind; [done|intros b; by apply calm_bind]. Qed.
Lemma calm_wrap {A} k (r : Res A) : calm r -> calm (wrap_invalid k r).
Proof. intros Hr. destruct r; [done..|by destruct (Hr why)]. Qed.

(** Takes a computation apart along its binds and its cases. *)
Ltac calm_step :=
  match goal with
  | |- calm (Ok _) => apply calm_ok
  | |- calm (mret _) => apply calm_ok
  | |- calm (Err _) => apply calm_err
  | |- calm (_ ≫= _) => apply calm_bind; [|intros]
  | |- calm (mapM _ _) => apply calm_mapM; intros
  | |- calm (wrap_invalid _ _) => apply calm_wrap
  | |- calm (match ?x with _ => _ end) => destruct x
  | |- forall _, _ => intros
  | |- _ => solve [auto with calm]
  end.
Ltac calm_tac := repeat calm_step.

Create HintDb calm.

Lemma calm_string j : calm (string_of_json j).
Proof. unfold string_of_json. calm_tac. Qed.
Lemma calm_int64 j : calm (int64_of_json j).
Proof. unfold int64_of_json. calm_tac. Qed.
Lemma calm_tag_element j : calm (tag_element j).
Proof. unfold tag_element. calm_tac. Qed.
#[export] Hint Resolve calm_string calm_int64 calm_tag_element : calm.

Lemma calm_tags j : calm (tags_of_json j).
Proof. unfold tags_of_json, Tag_UnmarshalJSONFrom. calm_tac. Qed.
Lemma calm_slice {A} (f : json -> Res A) j : (forall x, calm (f x)) -> calm (slice_of_json f j).
Proof. intros Hf. unfold slice_of_json. calm_tac. Qed.
Lemma calm_pointer {A} (f : json -> Res A) j : (forall x, calm (f x)) -> calm (pointer_of_json f j).
Proof. intros Hf. unfold pointer_of_json. calm_tac. Qed.
#[export] Hint Resolve calm_tags calm_slice calm_pointer : calm.

Lemma calm_set_members ms : forall w, calm (set_members w ms).
Proof.
  induction ms as [|[k j] ms IH]; intros [i p c n t x s]; cbn [set_members]; [calm_tac|].
  apply calm_bind; [|done]. unfold set_member. calm_tac.
Qed.
Lemma calm_count_members ms : calm (count_members ms).
Proof. induction ms as [|[k j] ms IH]; cbn [count_members]; [done|]. unfold check_member. calm_tac. Qed.
Lemma calm_set_filter_members ms : forall f, calm (set_filter_members f ms).
Proof.
  induction ms as [|[k j] ms IH]; intros [i a ks t s u l q]; cbn [set_filter_members]; [calm_tac|].
  apply calm_bind; [|done]. unfold set_filter_member. calm_tac.
Qed.
#[export] Hint Resolve calm_set_members calm_count_members calm_set_filter_members : calm.

Lemma calm_event j : calm (Event_UnmarshalJSONFrom j).
Proof. unfold Event_UnmarshalJSONFrom. calm_tac. Qed.
Lemma calm_filter j : calm (ReqFilter_UnmarshalJSONFrom j).
Proof. unfold ReqFilter_UnmarshalJSONFrom. calm_tac. Qed.
Lemma calm_read_label d : calm (read_label d).
Proof. unfold read_label. calm_tac. Qed.
Lemma calm_next_value d : calm (next_value d).
Proof. unfold next_value. calm_tac. Qed.
#[export] Hint Resolve calm_event calm_filter calm_read_label calm_next_value : calm.

Lemma calm_read_filters n : forall d, calm (read_filters n d).
Proof. induction n as [|n IH]; intros d; cbn [read_filters]; calm_tac. Qed.
#[export] Hint Resolve calm_read_filters : calm.

Lemma ParseClientMsg_calm data : calm (ParseClientMsg data).
Proof.
  unfold ParseClientMsg, parseClientEventMsg, parseClientReqMsg, parseClientCloseMsg, parseClientAuthMsg, parseClientCountMsg,
    parse_event_msg, parse_req_msg. calm_tac.
Qed.

Lemma calm_marshal v j : calm (marshal v j).
Proof. unfold marshal. calm_tac. Qed.
Lemma calm_DecodeString n : forall l, (length l <= n)%nat -> calm (DecodeString l).
Proof.
  induction n as [|n IH]; intros [|a [|b l]] Hl; cbn [length] in Hl; cbn [DecodeString]; try lia; calm_tac.
  apply IH. lia.
Qed.
#[export] Hint Resolve calm_marshal : calm.

Lemma Verify_calm `{Schnorr} oe : (forall b, calm (ParsePubKey b)) -> (forall b, calm (ParseSignature b)) -> calm (Verify oe).
Proof.
  intros Hp Hs. assert (Hd : forall l, calm (DecodeString l)) by (intros l; by apply (calm_DecodeString (length l))).
  unfold Verify, Serialize. calm_tac.
Qed.
