(* ===== verification/RelayLoops.v ===== *)
(** * The loops of a connection (relay.go)

    [readLoop] turns frames into messages for the handler, [writeLoop] messages
    into frames.  A turn of a loop is a function of what the websocket, the clock
    and the context show it; a connection is a sequence of turns.  The gate the read
    loop is, is stated as a specification of its own ([accepted]) that the loop is
    shown to implement. *)

From S2P Require Import Prelude GoTime Text Event Filter Message RateLimit Json JsonStrings EventJson EventParse.
From S2P Require Import FilterJson MessageJson NoPanic CodecSpec Metrics Bytes.

(** ** readLoop *)

Inductive MessageType : Type := MessageText | MessageBinary.

(** What the loop makes of a frame: a label for the error counter and the text of
    the notice, or a message for the handler. *)
Inductive FrameVerdict : Type :=
| Refuse (label notice : string)
| Deliver (msg : ClientMsg).

Section ReadLoop.
Context `{Schnorr}.

Definition judge_frame (typ : MessageType) (payload : list ascii) : Res FrameVerdict :=
  match typ with
  | MessageBinary => Ok (Refuse "binary_message" "binary message not allowed")
  | MessageText =>
      if negb (utf8_ok (str_of payload)) then Ok (Refuse "invalid_utf8" "invalid UTF-8")
      else
        match ParseClientMsg payload with
        | Panic w => Panic w
        | Err _ => Ok (Refuse "parse_error" "invalid message format")
        | Ok msg =>
            if String.eqb (c_Type msg) MsgTypeEvent && bool_decide (is_Some (c_Event msg)) then
              match Verify (c_Event msg) with
              | Panic w => Panic w
              | Err _ => Ok (Refuse "verify_error" "verification error")
              | Ok valid => Ok (if valid then Deliver msg else Refuse "invalid_signature" "invalid signature")
              end
            else Ok (Deliver msg)
        end
  end.

(** What one turn observes: for [readStall] whether the context is done, the
    instant, and what wakes its sleeps; what [conn.Read] returns; and whether the
    context is done when the turn hands its message or its notice over. *)
Inductive ReadOutcome : Type :=
| ReadErr (e : string)
| Frame (typ : MessageType) (payload : list ascii).

Record ReadTurn : Type := mkReadTurn {
  rt_canceled : bool;
  rt_now : Time;
  rt_wakes : list Wake;
  rt_read : ReadOutcome;
  rt_cut : bool
}.

Inductive ReadOut : Type :=
| ToHandler (msg : ClientMsg)
| ToClient (notice : ServerMsg).

(** How a turn ends: the loop goes on, it returns, it panics, or it is still
    stalled. *)
Inductive TurnEnd : Type :=
| Continue
| Return (err : string)
| Panics (w : string)
| Stalled.

Record ReadState : Type := mkReadState {
  rs_bucket : option tokenBucket;
  rs_metrics : option relayMetrics
}.

(** The state [readLoop] begins with. *)
Definition readLoop_start (readRate : float64) (readBurst : Z) (now : Time) (m : option relayMetrics) : ReadState :=
  mkReadState (if positive readRate then Some (newTokenBucket readRate readBurst now) else None) m.

(** [sendNotice] *)
Definition sendNotice (cut : bool) (message : string) : list ReadOut :=
  if cut then [] else [ToClient (NewServerNoticeMsg message)].

Definition read_turn (s : ReadState) (t : ReadTurn) : ReadState * list ReadOut * TurnEnd :=
  let '(bucket, stalls, _, r) := readStall (rt_canceled t) (rs_bucket s) (rt_now t) (rt_wakes t) in
  let s := mkReadState bucket (add_stalls stalls <$> rs_metrics s) in
  match r with
  | Waiting => (s, [], Stalled)
  | Canceled => (s, [], Return "context canceled")
  | Proceed =>
      match rt_read t with
      | ReadErr e => (s, [], Return e)
      | Frame typ payload =>
          match judge_frame typ payload with
          | Ok (Refuse label notice) =>
              (mkReadState bucket (inc_parse_error label <$> rs_metrics s), sendNotice (rt_cut t) notice, Continue)
          | Ok (Deliver msg) =>
              let s := mkReadState bucket (inc_received msg <$> rs_metrics s) in
              if rt_cut t then (s, [], Return "context canceled") else (s, [ToHandler msg], Continue)
          | Err e => (s, [], Panics e)
          | Panic w => (s, [], Panics w)
          end
      end
  end.

(** [readLoop]: the turns until one does not go on; [read_run] also tells how many
    turns went on. *)
Fixpoint readLoop (s : ReadState) (ts : list ReadTurn) : ReadState * list ReadOut * TurnEnd :=
  match ts with
  | [] => (s, [], Continue)
  | t :: ts =>
      match read_turn s t with
      | (s, out, Continue) => let '(s, out', x) := readLoop s ts in (s, out ++ out', x)
      | (s, out, x) => (s, out, x)
      end
  end.

(** ** The gate *)

(** The messages the relay admits. *)
Definition accepted (typ : MessageType) (payload : list ascii) (msg : ClientMsg) : Prop :=
  typ = MessageText /\ utf8_ok (str_of payload) = true /\ ParseClientMsg payload = Ok msg /\
  (c_Type msg = MsgTypeEvent -> Verify (c_Event msg) = Ok true).

(** What a turn that goes on has said: it has read a frame, and the message it
    carries is handed over if it is admitted; else there is a notice, unless the
    context is done. *)
Definition answered (t : ReadTurn) (out : list ReadOut) : Prop :=
  exists typ payload, rt_read t = Frame typ payload /\
  ((exists msg, accepted typ payload msg /\ rt_cut t = false /\ out = [ToHandler msg]) \/
   ((forall msg, ~ accepted typ payload msg) /\ exists text, out = sendNotice (rt_cut t) text)).

(** What the rate limit says to a turn. *)
Definition gate (s : ReadState) (t : ReadTurn) : StallResult :=
  (readStall (rt_canceled t) (rs_bucket s) (rt_now t) (rt_wakes t)).2.

(** The reasons for which a turn does not go on, with the number of messages it has
    counted as received but not handed over: it is held by the rate limit; the
    context is done while it is; the connection fails; or the context is done when an
    admitted message is to be handed over.  A refused frame is none of them. *)
Inductive stopped (s : ReadState) (t : ReadTurn) : TurnEnd -> nat -> Prop :=
| stop_stalled : gate s t = Waiting -> stopped s t Stalled 0
| stop_canceled : gate s t = Canceled -> (rt_canceled t = true \/ exists asked, WakeDone asked ∈ rt_wakes t) ->
    stopped s t (Return "context canceled") 0
| stop_read e : gate s t = Proceed -> rt_read t = ReadErr e -> stopped s t (Return e) 0
| stop_cut typ payload msg : gate s t = Proceed -> rt_read t = Frame typ payload -> accepted typ payload msg ->
    rt_cut t = true -> stopped s t (Return "context canceled") 1.

Definition handed (out : list ReadOut) : list ClientMsg :=
  omap (fun o => match o with ToHandler msg => Some msg | ToClient _ => None end) out.

(** How the counters of frames have moved. *)
Definition counted (om om' : option relayMetrics) (refused received : Z) : Prop :=
  match om, om' with
  | Some m, Some m' =>
      total (WSParseErrors m') = total (WSParseErrors m) + refused /\
      total (MessagesReceived m') = total (MessagesReceived m) + received
  | None, None => True
  | _, _ => False
  end.

Lemma judge_deliver typ payload msg : judge_frame typ payload = Ok (Deliver msg) <-> accepted typ payload msg.
Proof.
  unfold judge_frame, accepted. destruct typ; [|split; [done|by intros [? _]]].
  destruct (utf8_ok (str_of payload)); cbn [negb]; [|naive_solver].
  destruct (ParseClientMsg payload) as [m| |] eqn:Hp; [|naive_solver..].
  pose proof (ParseClientMsg_typed _ _ Hp) as Hty.
  destruct (String.eqb_spec (c_Type m) MsgTypeEvent) as [He|He].
  - assert (exists e, c_Event m = Some e) as [e Hev] by (destruct Hty; try done; by eexists).
    rewrite Hev. cbn [andb]. rewrite bool_decide_true by done. destruct (Verify (Some e)) as [[]| |] eqn:Hv.
    + split; [intros [= <-]; split_and!; try done; by rewrite Hev|by intros (_ & _ & [= <-] & _)].
    + split; [done|]. intros (_ & _ & [= <-] & Hm). rewrite Hev, Hv in Hm. by specialize (Hm He).
    + split; [done|]. intros (_ & _ & [= <-] & Hm). rewrite Hev, Hv in Hm. by specialize (Hm He).
    + split; [done|]. intros (_ & _ & [= <-] & Hm). rewrite Hev, Hv in Hm. by specialize (Hm He).
  - cbn [andb]. split; [by intros [= <-]|by intros (_ & _ & [= <-] & _)].
Qed.

Lemma judge_calm typ payload :
  (forall b, calm (ParsePubKey b)) -> (forall b, calm (ParseSignature b)) -> exists v, judge_frame typ payload = Ok v.
Proof.
  intros Hp Hs. unfold judge_frame. destruct typ; [|by eexists]. destruct (negb _); [by eexists|].
  destruct (ParseClientMsg payload) as [m| |w] eqn:E; [|by eexists|by apply ParseClientMsg_calm in E].
  destruct (_ && _); [|by eexists].
  destruct (Verify (c_Event m)) as [b| |w] eqn:Ev; [by eexists..|by apply (Verify_calm _ Hp Hs) in Ev].
Qed.

Lemma counted_refl om : counted om om 0 0.
Proof. destruct om; [|done]. split; lia. Qed.

Lemma counted_trans om om' om'' a b c d : counted om om' a b -> counted om' om'' c d -> counted om om'' (a + c) (b + d).
Proof. destruct om, om', om''; cbn; try done. intros [] []. lia. Qed.

Lemma counted_eq om om' a b a' b' : counted om om' a b -> a = a' -> b = b' -> counted om om' a' b'.
Proof. by intros ? <- <-. Qed.

Lemma counted_stalls om n : counted om (add_stalls n <$> om) 0 0.
Proof. destruct om as [[]|]; [|done]. cbn. lia. Qed.

Lemma counted_refused om label : counted om (inc_parse_error label <$> om) 1 0.
Proof. destruct om as [[]|]; [|done]. cbn. rewrite total_Inc. lia. Qed.

Lemma counted_received om msg : counted om (inc_received msg <$> om) 0 1.
Proof. destruct om as [[]|]; [|done]. cbn. rewrite total_Inc. lia. Qed.

Definition goes_on (x : TurnEnd) : bool := match x with Continue => true | _ => false end.

Lemma stall_loop_canceled wakes : forall tb, (stall_loop tb wakes).2 = Canceled -> exists asked, WakeDone asked ∈ wakes.
Proof.
  induction wakes as [|[asked|asked now] wakes IH]; intros tb; cbn [stall_loop]; [done|intros _; exists asked; by left|].
  destruct (allow tb now) as [tb' [|]]; [done|]. specialize (IH tb'). destruct (stall_loop tb' wakes) as [[tb'' ds] r].
  cbn [snd] in *. intros [asked' Hin]%IH. exists asked'. by right.
Qed.

Lemma gate_canceled s t : gate s t = Canceled -> rt_canceled t = true \/ exists asked, WakeDone asked ∈ rt_wakes t.
Proof.
  unfold gate, readStall. destruct (rs_bucket s) as [tb|]; [|done]. destruct (rt_canceled t); [by left|].
  destruct (allow tb (rt_now t)) as [tb' [|]]; [done|]. pose proof (stall_loop_canceled (rt_wakes t) tb') as Hs.
  destruct (stall_loop tb' (rt_wakes t)) as [[tb'' ds] r]. cbn [snd] in *. auto.
Qed.

(** A turn that panics has met a scheme that does. *)
Definition stops (s : ReadState) (t : ReadTurn) (x : TurnEnd) (b : nat) : Prop :=
  (exists w, x = Panics w) \/ stopped s t x b.

Lemma read_turn_spec s t :
  let '(s', out, x) := read_turn s t in
  if goes_on x
  then answered t out /\
    counted (rs_metrics s) (rs_metrics s') (1 - Z.of_nat (length (handed out))) (Z.of_nat (length (handed out)))
  else out = [] /\ exists b, stops s t x b /\ counted (rs_metrics s) (rs_metrics s') 0 (Z.of_nat b).
Proof.
  pose proof (gate_canceled s t) as Hcan.
  assert (Hgate : forall x b, stopped s t x b -> stops s t x b) by (intros; by right).
  pose proof (stop_stalled s t) as Hs0. pose proof (stop_canceled s t) as Hs1. pose proof (stop_read s t) as Hs2.
  pose proof (stop_cut s t) as Hs3. unfold gate in *. unfold read_turn.
  destruct (readStall _ _ _ _) as [[[bucket stalls] ds] r]. cbn [snd] in *. pose proof (counted_stalls (rs_metrics s) stalls) as Hst. set (om := add_stalls stalls <$> rs_metrics s) in *.
  destruct r; cbn [goes_on]; [|split; [done|]; exists 0%nat; auto..].
  destruct (rt_read t) as [e|typ payload] eqn:Hr; cbn [goes_on]; [split; [done|]; exists 0%nat; auto|].
  destruct (judge_frame typ payload) as [[label notice|msg]|e|w] eqn:Hj; cbn [goes_on rs_metrics];
    [| |split; [done|]; exists 0%nat; split; [left; by eexists|done]..].
  - assert (Ht : handed (sendNotice (rt_cut t) notice) = []) by (unfold sendNotice; by destruct (rt_cut t)).
    rewrite Ht. split; [|exact (counted_trans _ _ _ _ _ _ _ Hst (counted_refused om label))].
    exists typ, payload. split; [done|]. right. split; [|by exists notice].
    intros msg Hm. apply judge_deliver in Hm. congruence.
  - apply judge_deliver in Hj. pose proof (counted_trans _ _ _ _ _ _ _ Hst (counted_received om msg)) as Hc.
    destruct (rt_cut t) eqn:Hcut; cbn [goes_on rs_metrics]; [split; [done|]; exists 1%nat; split; [by eapply Hgate, Hs3|done]|].
    split; [|exact Hc]. exists typ, payload. split; [done|]. left. by exists msg.
Qed.

Lemma handed_app l l' : handed (l ++ l') = handed l ++ handed l'.
Proof. apply omap_app. Qed.

(** The whole loop: the turns that went on, one by one. *)
Lemma readLoop_spec ts : forall s s' out x, readLoop s ts = (s', out, x) ->
  exists k outs b, (k <= length ts)%nat /\ Forall2 answered (take k ts) outs /\ out = concat outs /\
    (x = Continue -> k = length ts /\ b = 0%nat) /\
    (x <> Continue -> exists sk t, readLoop s (take k ts) = (sk, concat outs, Continue) /\ ts !! k = Some t /\ stops sk t x b) /\
    counted (rs_metrics s) (rs_metrics s') (Z.of_nat k - Z.of_nat (length (handed out)))
      (Z.of_nat (length (handed out)) + Z.of_nat b).
Proof.
  induction ts as [|t ts IH]; intros s s' out x; cbn [readLoop].
  { intros [= <- <- <-]. exists 0%nat, [], 0%nat. split_and!; [lia|constructor|done|done|by intros []|]. apply counted_refl. }
  pose proof (read_turn_spec s t) as Ht. destruct (read_turn s t) as [[s1 out1] x1] eqn:Et.
  destruct (goes_on x1) eqn:Hx1.
  - destruct x1; try done. destruct (readLoop s1 ts) as [[s2 out2] x2] eqn:E. intros [= <- <- <-].
    destruct Ht as [Ha Hc]. destruct (IH _ _ _ _ E) as (k & outs & b & Hk & Hf & -> & Hgo & Hstop & Hc').
    exists (S k), (out1 :: outs), b. cbn [take length concat]. split_and!; [lia|by constructor|done|naive_solver|..].
    { intros (sk & tk & Hrun & Ht & Hs)%Hstop. exists sk, tk. cbn [readLoop lookup list_lookup]. by rewrite Et, Hrun. }
    rewrite handed_app, length_app. eapply counted_eq; [exact (counted_trans _ _ _ _ _ _ _ Hc Hc')|lia..].
  - assert (Hne : x1 <> Continue) by (by intros ->).
    intros Heq. assert (s1 = s' /\ out1 = out /\ x1 = x) as (<- & <- & <-).
    { destruct x1; naive_solver. }
    destruct Ht as [-> (b & Hb & Hc)]. exists 0%nat, [], b. cbn [take length concat handed omap list_omap].
    split_and!; [lia|constructor|done|done| |by rewrite Z.sub_diag]. intros _. by exists s, t.
Qed.

Lemma read_turn_calm s t : (forall b, calm (ParsePubKey b)) -> (forall b, calm (ParseSignature b)) ->
  forall w, (read_turn s t).2 <> Panics w.
Proof.
  intros Hp Hs w. unfold read_turn. destruct (readStall _ _ _ _) as [[[bucket stalls] ds] []]; try done.
  destruct (rt_read t) as [e|typ payload]; [done|]. destruct (judge_calm typ payload Hp Hs) as [v ->].
  destruct v; [done|]. by destruct (rt_cut t).
Qed.

Lemma readLoop_calm ts : (forall b, calm (ParsePubKey b)) -> (forall b, calm (ParseSignature b)) ->
  forall s s' out x, readLoop s ts = (s', out, x) -> forall w, x <> Panics w.
Proof.
  intros Hp Hs. induction ts as [|t ts IH]; intros s s' out x; cbn [readLoop]; [by intros [= <- <- <-]|].
  pose proof (read_turn_calm s t Hp Hs) as Hc. destruct (read_turn s t) as [[s1 out1] x1]. cbn [snd] in Hc.
  destruct x1; [|by intros [= <- <- <-]..].
  destruct (readLoop s1 ts) as [[s2 out2] x2] eqn:E. intros [= <- <- <-]. by eapply IH.
Qed.

(** What the handler is handed has passed the gate. *)
Lemma answered_admitted ts outs msg : Forall2 answered ts outs -> msg ∈ handed (concat outs) ->
  client_typed msg /\ (c_Type msg = MsgTypeEvent -> exists e, c_Event msg = Some e /\ Verify (Some e) = Ok true).
Proof.
  induction 1 as [|t out ts outs Ht _ IH]; cbn [concat]; [by intros ?%elem_of_nil|].
  rewrite handed_app, elem_of_app. intros [Hm|Hm]; [|by apply IH].
  destruct Ht as (typ & payload & _ & [(msg' & (_ & _ & Hp & Hv) & _ & ->)|[_ [text ->]]]).
  - cbn in Hm. apply list_elem_of_singleton in Hm as ->. apply ParseClientMsg_typed in Hp. split; [done|].
    intros He. specialize (Hv He). destruct Hp; try done. by eexists.
  - unfold sendNotice in Hm. destruct (rt_cut t); by apply elem_of_nil in Hm.
Qed.

End ReadLoop.

(** ** writeLoop *)

(** What one turn of the loop selects: the end of the context or of the channel, a
    message with the order its maps are ranged over in and the outcome of the write,
    or a tick with the outcome of the ping. *)
Inductive WriteOutcome : Type :=
| Wrote
| WriteFailed (deadlineExceeded : bool) (e : string).

Inductive WriteInput : Type :=
| WDone
| WClosed
| WMsg (m : ServerMsg) (order : list (string * json) -> list (string * json)) (o : WriteOutcome)
| WTick (pong : option string).

(** The frames a turn writes are listed with whether the write succeeded; [None]:
    the ticker of a relay without pings never ticks. *)
Definition write_turn (pingInterval : Z) (om : option relayMetrics) (i : WriteInput)
    : option (option relayMetrics * list (list ascii * bool) * TurnEnd) :=
  match i with
  | WDone => Some (om, [], Return "context canceled")
  | WClosed => Some (om, [], Return "nil")
  | WMsg m order o =>
      match ServerMsg_MarshalJSON order m with
      | Panic w => Some (om, [], Panics w)
      | Err _ => Some (inc_write_error "marshal" <$> om, [], Continue)
      | Ok data =>
          let om := observe_write <$> om in
          match o with
          | WriteFailed deadlineExceeded e =>
              let reason := if deadlineExceeded then "timeout"%string else "other"%string in
              Some (inc_write_error reason <$> om, [(data, false)], Return ("write: " +:+ e))
          | Wrote => Some (inc_sent (s_Type m) <$> om, [(data, true)], Continue)
          end
      end
  | WTick pong =>
      if pingInterval <=? 0 then None
      else
        match pong with
        | Some e => Some (inc_write_error "ping_timeout" <$> om, [], Return ("ping timeout: " +:+ e))
        | None => Some (om, [], Continue)
        end
  end.

Fixpoint writeLoop (pingInterval : Z) (om : option relayMetrics) (ins : list WriteInput)
    : option (option relayMetrics * list (list ascii * bool) * TurnEnd) :=
  match ins with
  | [] => Some (om, [], Continue)
  | i :: ins =>
      match write_turn pingInterval om i with
      | None => None
      | Some (om, fs, Continue) =>
          '(om, fs', x) ← writeLoop pingInterval om ins;
          Some (om, fs ++ fs', x)
      | Some r => Some r
      end
  end.

(** The texts of the messages that can be marshalled. *)
Definition texts (ins : list WriteInput) : list (list ascii) :=
  omap (fun i => match i with
                 | WMsg m order _ => match ServerMsg_MarshalJSON order m with Ok t => Some t | _ => None end
                 | _ => None
                 end) ins.

Definition taken (ins : list WriteInput) : list ServerMsg :=
  omap (fun i => match i with WMsg m _ _ => Some m | _ => None end) ins.

(** How the counters of writes have moved: messages sent, writes timed, errors. *)
Definition write_counted (om om' : option relayMetrics) (sent writes errors : Z) : Prop :=
  match om, om' with
  | Some m, Some m' =>
      total (MessagesSent m') = total (MessagesSent m) + sent /\
      WSWriteDuration m' = WSWriteDuration m + writes /\
      total (WSWriteErrors m') = total (WSWriteErrors m) + errors
  | None, None => True
  | _, _ => False
  end.

Lemma write_counted_trans om om' om'' a b c a' b' c' a'' b'' c'' :
  write_counted om om' a b c -> write_counted om' om'' a' b' c' ->
  a'' = a + a' -> b'' = b + b' -> c'' = c + c' -> write_counted om om'' a'' b'' c''.
Proof. intros H1 H2 -> -> ->. destruct om, om', om''; cbn in *; try done. destruct H1 as (?&?&?), H2 as (?&?&?). lia. Qed.

Lemma write_turn_spec pi om i om' fs x : write_turn pi om i = Some (om', fs, x) ->
  if goes_on x
  then fs = (fun t => (t, true)) <$> texts [i] /\
    write_counted om om' (Z.of_nat (length fs)) (Z.of_nat (length fs)) (Z.of_nat (length (taken [i])) - Z.of_nat (length fs))
  else exists b, (b <= 1)%nat /\ write_counted om om' 0 (Z.of_nat (length fs)) (Z.of_nat b) /\
    (fs = [] \/ fs = (fun t => (t, false)) <$> texts [i] /\ length fs = 1%nat /\ b = 1%nat).
Proof.
  destruct i as [| |m order o|pong]; cbn [write_turn].
  1-2: intros [= <- <- <-]; exists 0%nat; split_and!; [lia| |by left]; destruct om; [|done]; cbn; lia.
  - unfold texts, taken. cbn [omap list_omap length].
    destruct (ServerMsg_MarshalJSON order m) as [data| |w].
    + destruct o as [|d e]; intros [= <- <- <-].
      * split; [done|]. destruct om as [[]|]; [|done]. cbn. rewrite total_Inc. lia.
      * exists 1%nat. split_and!; [lia| |by right]. destruct om as [[]|]; [|done]. cbn. rewrite total_Inc. lia.
    + intros [= <- <- <-]. split; [done|]. destruct om as [[]|]; [|done]. cbn. rewrite total_Inc. lia.
    + intros [= <- <- <-]. exists 0%nat. split_and!; [lia| |by left]. destruct om; [|done]. cbn. lia.
  - destruct (pi <=? 0); [done|]. destruct pong as [e|]; intros [= <- <- <-].
    + exists 1%nat. split_and!; [lia| |by left]. destruct om as [[]|]; [|done]. cbn. rewrite total_Inc. lia.
    + split; [done|]. destruct om; [|done]. cbn. lia.
Qed.

Lemma texts_app l l' : texts (l ++ l') = texts l ++ texts l'.
Proof. apply omap_app. Qed.

Lemma taken_app l l' : taken (l ++ l') = taken l ++ taken l'.
Proof. apply omap_app. Qed.

Lemma writeLoop_spec pi ins : forall om om' fs x, writeLoop pi om ins = Some (om', fs, x) ->
  exists k failed b, (k <= length ins)%nat /\ (b <= 1)%nat /\
    fs = ((fun t => (t, true)) <$> texts (take k ins)) ++ failed /\
    (x = Continue -> k = length ins /\ failed = [] /\ b = 0%nat) /\ (x <> Continue -> (k < length ins)%nat) /\
    (failed = [] \/ failed = (fun t => (t, false)) <$> texts (take 1 (drop k ins)) /\ length failed = 1%nat /\ b = 1%nat) /\
    write_counted om om' (Z.of_nat (length (texts (take k ins)))) (Z.of_nat (length fs))
      (Z.of_nat (length (taken (take k ins))) - Z.of_nat (length (texts (take k ins))) + Z.of_nat b).
Proof.
  induction ins as [|i ins IH]; intros om om' fs x; cbn [writeLoop].
  { intros [= <- <- <-]. exists 0%nat, [], 0%nat. split_and!; [lia|lia|done|done|by intros []|by left|]. destruct om; [|done]. cbn. lia. }
  destruct (write_turn pi om i) as [[[om1 fs1] x1]|] eqn:E; [|done]. apply write_turn_spec in E.
  destruct (goes_on x1) eqn:Hx1.
  - destruct x1; try done. rewrite bind_Some_iff. intros ([[om2 fs2] x2] & Hrun & [= <- <- <-]).
    destruct E as [-> Hc]. destruct (IH _ _ _ _ Hrun) as (k & failed & b & Hk & Hb & -> & Hgo & Hstop & Hf & Hc').
    exists (S k), failed, b. change (take (S k) (i :: ins)) with ([i] ++ take k ins). change (drop (S k) (i :: ins)) with (drop k ins).
    rewrite texts_app, taken_app, fmap_app, <-app_assoc, !length_app, !length_fmap in *. cbn [length].
    split_and!; [lia|done|done|naive_solver|naive_solver lia|done|].
    eapply write_counted_trans; [exact Hc|exact Hc'|lia..].
  - assert (Hne : x1 <> Continue) by (by intros ->).
    intros Heq. assert (om1 = om' /\ fs1 = fs /\ x1 = x) as (<- & <- & <-) by (destruct x1; naive_solver).
    destruct E as (b & Hb & Hc & Hf). exists 0%nat, fs1, b. cbn [take drop length].
    split_and!; [lia|done|done|done|lia|done|]. exact Hc.
Qed.

(** Messages the relay makes, with maps ranged over in some order. *)
Definition fine (i : WriteInput) : Prop :=
  match i with WMsg m order _ => server_writable m /\ forall ms, order ms ≡ₚ ms | _ => True end.

(** A text a client reads as the array of a message. *)
Definition reads_as (m : ServerMsg) (text : list ascii) : Prop :=
  exists order j, (forall ms, order ms ≡ₚ ms) /\ server_json order m = Some j /\ parse text = Some j.

Lemma texts_read ins : Forall fine ins -> Forall2 reads_as (taken ins) (texts ins).
Proof.
  induction 1 as [|i ins Hi _ IH]; [constructor|].
  change (i :: ins) with ([i] ++ ins). rewrite taken_app, texts_app. apply Forall2_app; [|done].
  destruct i as [| |m order o|pong]; try constructor. destruct Hi as [Hm Ho].
  destruct (server_json_reads order m Ho Hm) as (j & t & Hj & Ht & Hp).
  unfold taken, texts. cbn [omap list_omap]. rewrite Ht. constructor; [by exists order, j|constructor].
Qed.

(** ** Properties *)

Module RelayLoopExamples.
(** A client: an event, a binary frame, a subscription that is closed at once, an
    event with another id, and the end of the connection. *)
Definition text_of (m : ClientMsg) : list ascii := default [] (print V2 (client_json m)).
Definition turn (cut : bool) (o : ReadOutcome) : ReadTurn := mkReadTurn false (time_Unix 1700000000) [] o cut.
Definition good : Event := with_id CodecExamples.note.
Definition turns : list ReadTurn := [
  turn false (Frame MessageText (text_of (client_event good)));
  turn false (Frame MessageBinary (text_of (client_event good)));
  turn false (Frame MessageText (text_of (client_close "s")));
  turn false (Frame MessageText (text_of (client_event CodecExamples.note)));
  turn false (ReadErr "EOF")].
Definition start : ReadState := readLoop_start (of_int 0) 0 (time_Unix 1700000000) (newRelayMetrics true).
End RelayLoopExamples.

Example readLoop_ex : (@readLoop AcceptAll RelayLoopExamples.start RelayLoopExamples.turns).1.2 =
  [ToHandler (client_event RelayLoopExamples.good); ToClient (NewServerNoticeMsg "binary message not allowed");
   ToHandler (client_close "s"); ToClient (NewServerNoticeMsg "invalid signature")].
Proof. vm_compute. reflexivity. Qed.

Example readLoop_ends : (@readLoop AcceptAll RelayLoopExamples.start RelayLoopExamples.turns).2 = Return "EOF".
Proof. vm_compute. reflexivity. Qed.

(** C26: the read loop is a gate: whatever frames a client sends and whatever the
    clock and the context do, the handler is handed exactly the admitted messages of
    the frames read, in their order, each of a shape the parser promises and each
    EVENT with an event that verifies; every other frame is answered by one notice
    (none once the context is done), and the loop goes on.  It never panics, and it
    stops only in a turn where the rate limit holds it, the context is done while it
    is held or while an admitted message is handed over, or the connection fails; and
    with metrics on, the counters account for every frame. *)
Theorem relay_admits_verified `{Schnorr} (s : ReadState) (ts : list ReadTurn) :
  (forall b, calm (ParsePubKey b)) -> (forall b, calm (ParseSignature b)) ->
  let '(s', out, x) := readLoop s ts in
  (forall w, x <> Panics w) /\
  (forall msg, msg ∈ handed out -> client_typed msg /\
    (c_Type msg = MsgTypeEvent -> exists e, c_Event msg = Some e /\ Verify (Some e) = Ok true)) /\
  exists k outs b, (k <= length ts)%nat /\ (x = Continue -> k = length ts /\ b = 0%nat) /\
    Forall2 answered (take k ts) outs /\ out = concat outs /\
    (x <> Continue -> exists sk t, readLoop s (take k ts) = (sk, out, Continue) /\ ts !! k = Some t /\ stopped sk t x b) /\
    counted (rs_metrics s) (rs_metrics s') (Z.of_nat k - Z.of_nat (length (handed out)))
      (Z.of_nat (length (handed out)) + Z.of_nat b).
Proof.
  intros Hp Hs. destruct (readLoop s ts) as [[s' out] x] eqn:E.
  destruct (readLoop_spec ts s s' out x E) as (k & outs & b & Hk & Hf & Hout & Hgo & Hstop & Hc).
  assert (Hcalm : forall w, x <> Panics w) by by eapply readLoop_calm.
  split; [done|]. split; [intros msg Hm; rewrite Hout in Hm; by eapply answered_admitted|].
  exists k, outs, b. split_and!; try done. rewrite Hout. intros (sk & t & Hrun & Ht & [[w ?]|Hst])%Hstop; [by destruct (Hcalm w)|].
  by exists sk, t.
Qed.

Lemma relay_admits_verified_witness :
  exists k outs b, (k <= 5)%nat /\ Forall2 (@answered AcceptAll) (take k RelayLoopExamples.turns) outs /\
    concat outs = [ToHandler (client_event RelayLoopExamples.good); ToClient (NewServerNoticeMsg "binary message not allowed");
                   ToHandler (client_close "s"); ToClient (NewServerNoticeMsg "invalid signature")] /\
    exists sk t, RelayLoopExamples.turns !! k = Some t /\ @stopped AcceptAll sk t (Return "EOF") b.
Proof.
  pose proof (@relay_admits_verified AcceptAll RelayLoopExamples.start RelayLoopExamples.turns
    ltac:(by intros b w) ltac:(by intros b w)) as Hr.
  pose proof readLoop_ex as Hout. pose proof readLoop_ends as Hend.
  destruct (@readLoop AcceptAll RelayLoopExamples.start RelayLoopExamples.turns) as [[s' out] x]. cbn [fst snd] in *. subst out x.
  destruct Hr as (_ & _ & k & outs & b & Hk & _ & Hf & Ho & Hstop & _). exists k, outs, b.
  split; [exact Hk|]. split; [exact Hf|]. split; [by rewrite Ho|].
  destruct (Hstop ltac:(discriminate)) as (sk & t & _ & Ht & Hs). by exists sk, t.
Defined.

(** What the handler sends is what the client reads: the frames written are the
    texts of the messages taken from the channel, in order and without gaps, and
    each reads back as the array of its message; only the last can be a failed
    write, which ends the loop; and with metrics on, every message, write and error
    is counted. *)
Theorem relay_writes_in_order (pingInterval : Z) (om om' : option relayMetrics) (ins : list WriteInput)
    (fs : list (list ascii * bool)) (x : TurnEnd) :
  writeLoop pingInterval om ins = Some (om', fs, x) -> Forall fine ins ->
  exists k failed b, (k <= length ins)%nat /\ (b <= 1)%nat /\
    Forall2 reads_as (taken (take k ins)) (texts (take k ins)) /\
    fs = ((fun t => (t, true)) <$> texts (take k ins)) ++ failed /\
    (x = Continue -> k = length ins /\ failed = [] /\ b = 0%nat) /\
    (failed = [] \/ failed = (fun t => (t, false)) <$> texts (take 1 (drop k ins)) /\ length failed = 1%nat /\ b = 1%nat) /\
    write_counted om om' (Z.of_nat (length (taken (take k ins)))) (Z.of_nat (length fs)) (Z.of_nat b).
Proof.
  intros Hrun Hfine. destruct (writeLoop_spec _ _ _ _ _ _ Hrun) as (k & failed & b & Hk & Hb & Hfs & Hgo & _ & Hf & Hc).
  assert (Hr : Forall2 reads_as (taken (take k ins)) (texts (take k ins))) by (apply texts_read; by apply Forall_take).
  pose proof (Forall2_length _ _ _ Hr) as Hl. exists k, failed, b. split_and!; try done.
  by rewrite Hl, Z.sub_diag in *.
Qed.

Definition written_turns : list WriteInput := [
  WMsg (NewServerNoticeMsg "hello") id Wrote; WTick None;
  WMsg (NewServerCountMsg "s" 3 (Some true)) reverse Wrote; WMsg (NewServerEOSEMsg "s") id (WriteFailed true "deadline")].

Lemma relay_writes_in_order_witness :
  exists om' fs x, writeLoop 30 (newRelayMetrics true) written_turns = Some (om', fs, x) /\
  exists k failed b, (k <= length written_turns)%nat /\ (b <= 1)%nat /\
    Forall2 reads_as (taken (take k written_turns)) (texts (take k written_turns)) /\
    fs = ((fun t => (t, true)) <$> texts (take k written_turns)) ++ failed /\
    (x = Continue -> k = length written_turns /\ failed = [] /\ b = 0%nat) /\
    (failed = [] \/ failed = (fun t => (t, false)) <$> texts (take 1 (drop k written_turns)) /\ length failed = 1%nat /\ b = 1%nat) /\
    write_counted (newRelayMetrics true) om' (Z.of_nat (length (taken (take k written_turns)))) (Z.of_nat (length fs)) (Z.of_nat b).
Proof.
  eexists _, _, _. split; [vm_compute; reflexivity|].
  apply (relay_writes_in_order 30 (newRelayMetrics true) _ written_turns); [vm_compute; reflexivity|].
  repeat constructor; cbn; try done; try tauto; intros ms; apply reverse_Permutation.
Defined.

(** Only EVENT messages are verified: an AUTH passes the gate under a scheme that
    accepts no signature at all. *)
Definition RejectAll : Schnorr := {|
  SchnorrPubKey := bytes; SchnorrSignature := bytes;
  ParsePubKey := fun b => Ok b; ParseSignature := fun b => Ok b; sig_Verify := fun _ _ _ => false
|}.

Example auth_not_verified :
  @judge_frame RejectAll MessageText (RelayLoopExamples.text_of (client_auth RelayLoopExamples.good)) =
    Ok (Deliver (client_auth RelayLoopExamples.good)) /\
  @judge_frame RejectAll MessageText (RelayLoopExamples.text_of (client_event RelayLoopExamples.good)) =
    Ok (Refuse "invalid_signature" "invalid signature").
Proof. by vm_compute. Qed.
