(* ===== verification/RelayInfo.v ===== *)
(** * The relay information document (relay_info.go)

    The structs of NIP-11 and the JSON object each is marshalled to.  A member whose
    tag says [omitzero] is there when its field is not the zero value: a nil slice
    or pointer is left out, an empty slice is written. *)

From S2P Require Import Prelude Text Event Json JsonStrings JsonRoundtrip JsonTyping EventJson FilterJson.

Record RelayLimitation : Type := mkRelayLimitation {
  li_MaxMessageLength : Z;
  li_MaxSubscriptions : Z;
  li_MaxLimit : Z;
  li_MaxSubidLength : Z;
  li_MaxEventTags : Z;
  li_MaxContentLength : Z;
  li_MinPowDifficulty : Z;
  li_AuthRequired : bool;
  li_PaymentRequired : bool;
  li_RestrictedWrites : bool;
  li_CreatedAtLowerLimit : Z;
  li_CreatedAtUpperLimit : Z;
  li_DefaultLimit : Z
}.

Record RelayRetention : Type := mkRelayRetention {
  re_Kinds : option (list Z);
  re_Time : option Z;
  re_Count : option Z
}.

Record RelayFee : Type := mkRelayFee { fee_Amount : Z; fee_Unit : string }.

Record RelaySubscriptionFee : Type := mkRelaySubscriptionFee { sfee_Amount : Z; sfee_Unit : string; sfee_Period : Z }.

Record RelayPublicationFee : Type := mkRelayPublicationFee {
  pfee_Kinds : option (list Z);
  pfee_Amount : Z;
  pfee_Unit : string
}.

(** The elements of a slice of pointers may be nil. *)
Record RelayFees : Type := mkRelayFees {
  fees_Admission : option (list (option RelayFee));
  fees_Subscription : option (list (option RelaySubscriptionFee));
  fees_Publication : option (list (option RelayPublicationFee))
}.

Record RelayInfo : Type := mkRelayInfo {
  ri_Name : string;
  ri_Description : string;
  ri_Banner : string;
  ri_Icon : string;
  ri_Pubkey : string;
  ri_Self : string;
  ri_Contact : string;
  ri_SupportedNIPs : option (list Z);
  ri_Software : string;
  ri_Version : string;
  ri_PrivacyPolicy : string;
  ri_TermsOfService : string;
  ri_Limitation : option RelayLimitation;
  ri_Retention : option (list (option RelayRetention));
  ri_RelayCountries : option (list string);
  ri_LanguageTags : option (list string);
  ri_Tags : option (list string);
  ri_PostingPolicy : string;
  ri_PaymentsURL : string;
  ri_Fees : option RelayFees
}.

(** ** Members *)

Definition str_member (k s : string) : list (string * json) := if String.eqb s "" then [] else [(k, JStr s)].
Definition int_member (k : string) (z : Z) : list (string * json) := if z =? 0 then [] else [(k, JInt z)].
Definition bool_member (k : string) (b : bool) : list (string * json) := if b then [(k, JBool b)] else [].

(** A slice of pointers. *)
Definition pointers_json {A} (f : A -> json) (l : list (option A)) : json :=
  JArr ((fun o => match o with Some a => f a | None => JNull end) <$> l).

Definition RelayLimitation_json (l : RelayLimitation) : json :=
  JObj (int_member "max_message_length" (li_MaxMessageLength l) ++ int_member "max_subscriptions" (li_MaxSubscriptions l) ++
        int_member "max_limit" (li_MaxLimit l) ++ int_member "max_subid_length" (li_MaxSubidLength l) ++
        int_member "max_event_tags" (li_MaxEventTags l) ++ int_member "max_content_length" (li_MaxContentLength l) ++
        int_member "min_pow_difficulty" (li_MinPowDifficulty l) ++ bool_member "auth_required" (li_AuthRequired l) ++
        bool_member "payment_required" (li_PaymentRequired l) ++ bool_member "restricted_writes" (li_RestrictedWrites l) ++
        int_member "created_at_lower_limit" (li_CreatedAtLowerLimit l) ++
        int_member "created_at_upper_limit" (li_CreatedAtUpperLimit l) ++ int_member "default_limit" (li_DefaultLimit l)).

Definition RelayRetention_json (r : RelayRetention) : json :=
  JObj (opt_member "kinds" ints_json (re_Kinds r) ++ opt_member "time" JInt (re_Time r) ++
        opt_member "count" JInt (re_Count r)).

Definition RelayFee_json (f : RelayFee) : json :=
  JObj [("amount"%string, JInt (fee_Amount f)); ("unit"%string, JStr (fee_Unit f))].

Definition RelaySubscriptionFee_json (f : RelaySubscriptionFee) : json :=
  JObj [("amount"%string, JInt (sfee_Amount f)); ("unit"%string, JStr (sfee_Unit f)); ("period"%string, JInt (sfee_Period f))].

Definition RelayPublicationFee_json (f : RelayPublicationFee) : json :=
  JObj (opt_member "kinds" ints_json (pfee_Kinds f) ++
        [("amount"%string, JInt (pfee_Amount f)); ("unit"%string, JStr (pfee_Unit f))]).

Definition RelayFees_json (f : RelayFees) : json :=
  JObj (opt_member "admission" (pointers_json RelayFee_json) (fees_Admission f) ++
        opt_member "subscription" (pointers_json RelaySubscriptionFee_json) (fees_Subscription f) ++
        opt_member "publication" (pointers_json RelayPublicationFee_json) (fees_Publication f)).

Definition RelayInfo_json (i : RelayInfo) : json :=
  JObj (str_member "name" (ri_Name i) ++ str_member "description" (ri_Description i) ++
        str_member "banner" (ri_Banner i) ++ str_member "icon" (ri_Icon i) ++ str_member "pubkey" (ri_Pubkey i) ++
        str_member "self" (ri_Self i) ++ str_member "contact" (ri_Contact i) ++
        opt_member "supported_nips" ints_json (ri_SupportedNIPs i) ++ str_member "software" (ri_Software i) ++
        str_member "version" (ri_Version i) ++ str_member "privacy_policy" (ri_PrivacyPolicy i) ++
        str_member "terms_of_service" (ri_TermsOfService i) ++
        opt_member "limitation" RelayLimitation_json (ri_Limitation i) ++
        opt_member "retention" (pointers_json RelayRetention_json) (ri_Retention i) ++
        opt_member "relay_countries" strings_json (ri_RelayCountries i) ++
        opt_member "language_tags" strings_json (ri_LanguageTags i) ++ opt_member "tags" strings_json (ri_Tags i) ++
        str_member "posting_policy" (ri_PostingPolicy i) ++ str_member "payments_url" (ri_PaymentsURL i) ++
        opt_member "fees" RelayFees_json (ri_Fees i)).

(** ** The document is well-formed *)

Definition text_ok (s : string) : Prop := utf8_ok s = true.

(** Members with some of the names [ks], in that order. *)
Definition members (ks : list string) (ms : list (string * json)) : Prop :=
  ms.*1 `sublist_of` ks /\ Forall (fun kv => text_ok kv.1 /\ json_ok kv.2) ms.

Lemma members_app ks ks' ms ms' : members ks ms -> members ks' ms' -> members (ks ++ ks') (ms ++ ms').
Proof. intros [? ?] [? ?]. split; [rewrite fmap_app; by apply sublist_app|by apply Forall_app]. Qed.

Lemma members_obj ks ms : members ks ms -> NoDup ks -> json_ok (JObj ms).
Proof. intros [Hs Hf] Hn. apply json_ok_obj. split; [by eapply sublist_NoDup|done]. Qed.

Lemma members_one k j : text_ok k -> json_ok j -> members [k] [(k, j)].
Proof. intros Hk Hj. split; [done|by constructor]. Qed.

Lemma members_none k : members [k] [].
Proof. split; [apply sublist_nil_l|constructor]. Qed.

Lemma members_cons k ks j ms : text_ok k -> json_ok j -> members ks ms -> members (k :: ks) ((k, j) :: ms).
Proof. intros Hk Hj Hm. apply (members_app [k] ks [(k, j)] ms); [by apply members_one|done]. Qed.

Lemma members_nil : members [] [].
Proof. split; constructor. Qed.

Lemma members_str k s : text_ok k -> text_ok s -> members [k] (str_member k s).
Proof. intros Hk Hs. unfold str_member. destruct (String.eqb s ""); [apply members_none|by apply members_one]. Qed.

Lemma JInt_json_ok z : json_ok (JInt z).
Proof. apply number_ok_fmt. Qed.

Lemma members_int k z : text_ok k -> members [k] (int_member k z).
Proof. intros Hk. unfold int_member. destruct (z =? 0); [apply members_none|apply members_one; [done|apply JInt_json_ok]]. Qed.

Lemma members_bool k b : text_ok k -> members [k] (bool_member k b).
Proof. intros Hk. destruct b; [by apply members_one|apply members_none]. Qed.

Lemma members_opt {A} k (f : A -> json) o : text_ok k -> (forall a, o = Some a -> json_ok (f a)) -> members [k] (opt_member k f o).
Proof. intros Hk Hf. destruct o; [apply members_one; auto|apply members_none]. Qed.

Lemma pointers_json_ok {A} (f : A -> json) l : Forall (fun o => forall a, o = Some a -> json_ok (f a)) l -> json_ok (pointers_json f l).
Proof. intros Hl. apply json_ok_arr, Forall_fmap. eapply Forall_impl; [exact Hl|]. intros [a|] Ha; [by apply Ha|done]. Qed.

Lemma ints_json_ok l : json_ok (ints_json l).
Proof. apply json_ok_arr, Forall_fmap, Forall_true. intros z. apply JInt_json_ok. Qed.

Lemma strings_json_ok l : Forall text_ok l -> json_ok (strings_json l).
Proof. intros Hl. by apply json_ok_arr, Forall_fmap. Qed.

#[local] Hint Resolve JInt_json_ok ints_json_ok : mocrelay.

(** An object with members of different names, member by member. *)
Ltac members_tac :=
  repeat first [apply members_app | apply members_nil | apply members_cons | apply members_str | apply members_int
               | apply members_bool | apply members_opt];
  try reflexivity; intros; eauto with mocrelay.
Ltac object_tac := eapply members_obj; [members_tac|apply (bool_decide_unpack _); vm_compute; exact I].

Lemma RelayLimitation_json_ok l : json_ok (RelayLimitation_json l).
Proof. unfold RelayLimitation_json. object_tac. Qed.

Lemma RelayRetention_json_ok r : json_ok (RelayRetention_json r).
Proof. unfold RelayRetention_json. object_tac. Qed.

Lemma RelayFee_json_ok f : text_ok (fee_Unit f) -> json_ok (RelayFee_json f).
Proof. intros Hu. unfold RelayFee_json. object_tac. Qed.

Lemma RelaySubscriptionFee_json_ok f : text_ok (sfee_Unit f) -> json_ok (RelaySubscriptionFee_json f).
Proof. intros Hu. unfold RelaySubscriptionFee_json. object_tac. Qed.

Lemma RelayPublicationFee_json_ok f : text_ok (pfee_Unit f) -> json_ok (RelayPublicationFee_json f).
Proof. intros Hu. unfold RelayPublicationFee_json. object_tac. Qed.

(** The strings of a document are valid UTF-8. *)
Definition units_ok {A} (unit : A -> string) (o : option (list (option A))) : Prop :=
  forall l a, o = Some l -> Some a ∈ l -> text_ok (unit a).
Definition texts_ok (o : option (list string)) : Prop := forall l, o = Some l -> Forall text_ok l.

Record info_writable (i : RelayInfo) : Prop := {
  iw_strings : Forall text_ok [ri_Name i; ri_Description i; ri_Banner i; ri_Icon i; ri_Pubkey i; ri_Self i; ri_Contact i;
    ri_Software i; ri_Version i; ri_PrivacyPolicy i; ri_TermsOfService i; ri_PostingPolicy i; ri_PaymentsURL i];
  iw_countries : texts_ok (ri_RelayCountries i);
  iw_languages : texts_ok (ri_LanguageTags i);
  iw_tags : texts_ok (ri_Tags i);
  iw_fees : forall f, ri_Fees i = Some f -> units_ok fee_Unit (fees_Admission f) /\
    units_ok sfee_Unit (fees_Subscription f) /\ units_ok pfee_Unit (fees_Publication f)
}.

Lemma units_json_ok {A} (f : A -> json) unit (o : option (list (option A))) l :
  (forall a, text_ok (unit a) -> json_ok (f a)) -> units_ok unit o -> o = Some l -> json_ok (pointers_json f l).
Proof.
  intros Hf Ho ->. apply pointers_json_ok, Forall_forall. intros x Hx a ->. apply Hf. by eapply Ho.
Qed.

Lemma RelayFees_json_ok f : units_ok fee_Unit (fees_Admission f) -> units_ok sfee_Unit (fees_Subscription f) ->
  units_ok pfee_Unit (fees_Publication f) -> json_ok (RelayFees_json f).
Proof.
  intros Ha Hs Hp. unfold RelayFees_json. object_tac.
  - by eapply (units_json_ok _ fee_Unit); [apply RelayFee_json_ok| |].
  - by eapply (units_json_ok _ sfee_Unit); [apply RelaySubscriptionFee_json_ok| |].
  - by eapply (units_json_ok _ pfee_Unit); [apply RelayPublicationFee_json_ok| |].
Qed.

Lemma RelayInfo_json_ok i : info_writable i -> json_ok (RelayInfo_json i).
Proof.
  intros [Hs Hc Hl Ht Hf]. rewrite !Forall_cons in Hs. destruct_and! Hs.
  unfold RelayInfo_json. object_tac; try done.
  - apply RelayLimitation_json_ok.
  - apply pointers_json_ok, Forall_true. intros o r _. apply RelayRetention_json_ok.
  - by apply strings_json_ok, Hc.
  - by apply strings_json_ok, Hl.
  - by apply strings_json_ok, Ht.
  - destruct (Hf a) as (? & ? & ?); [done|]. by apply RelayFees_json_ok.
Qed.
