(* ===== verification/Relay.v ===== *)
(** * The relay (relay.go)

    What a relay answers over HTTP, the registry of its connections, and shutting
    down.  [ServeHTTP] is cut at every point where it takes the relay's lock or
    gives other goroutines a chance: a connection is in a [Phase], and the steps of
    all connections and of [Shutdown] interleave.  The loops of a connection are in
    RelayLoops.v; here a goroutine of a connection is running or has ended. *)

From S2P Require Import Prelude GoTime Text RateLimit Event Message Json JsonRoundtrip EventJson FilterJson RelayInfo Metrics RelayLoops.

(** ** HTTP *)

Record Request : Type := mkRequest {
  rq_Accept : string;
  rq_Upgrade : string;
  rq_Method : string
}.

Record Response : Type := mkResponse {
  rp_status : Z;
  rp_headers : gmap string string;
  rp_body : list ascii
}.

(** [http.Error], with the headers set so far. *)
Definition http_Error (headers : gmap string string) (error : string) (code : Z) : Response :=
  mkResponse code
    (<["X-Content-Type-Options" := "nosniff"]> (<["Content-Type" := "text/plain; charset=utf-8"]> headers))
    (chars error ++ ["010"%char]).

Definition shutting_down : Response := http_Error ∅ "relay is shutting down" 503.

Definition serveWelcome (info : option RelayInfo) : Response :=
  match info with
  | Some i =>
      if String.eqb (ri_Name i) "" then mkResponse 200 ∅ []
      else mkResponse 200 {["Content-Type" := "text/plain; charset=utf-8"]} (chars (ri_Name i))
  | None => mkResponse 200 ∅ []
  end.

Definition cors_headers : gmap string string :=
  <["Access-Control-Allow-Origin" := "*"]>
    (<["Access-Control-Allow-Headers" := "Accept"]> {["Access-Control-Allow-Methods" := "GET, OPTIONS"]}).

Definition serveNIP11 (info : RelayInfo) (method : string) : Response :=
  if String.eqb method "OPTIONS" then mkResponse 204 cors_headers []
  else if negb (String.eqb method "GET") then http_Error cors_headers "Method not allowed" 405
  else
    let headers := <["Content-Type" := "application/nostr+json"]> cors_headers in
    match marshal V2 (RelayInfo_json info) with
    | Ok data => mkResponse 200 headers data
    | _ => http_Error headers "Internal server error" 500
    end.

(** The first half of [ServeHTTP]: the answer, or [None] to go on to a websocket. *)
Definition route (closed : bool) (info : option RelayInfo) (req : Request) : option Response :=
  if closed then Some shutting_down
  else
    let welcome := if String.eqb (rq_Upgrade req) "" then Some (serveWelcome info) else None in
    match info with
    | Some i => if String.eqb (rq_Accept req) "application/nostr+json" then Some (serveNIP11 i (rq_Method req)) else welcome
    | None => welcome
    end.

(** ** Connections *)

(** Where [ServeHTTP] is: past the first check; counted by the wait group; in the
    registry; in the metrics; with its read loop, write loop and handler running or
    not; on its way out (a failed upgrade); and then the deferred calls, last
    first: out of the metrics, out of the registry. *)
Inductive Phase : Type :=
| Routed
| Tracked
| Registered (id : Z)
| Counted (id : Z)
| Serving (id : Z) (reading writing handling : bool)
| Ending (id : Z)
| Uncounted (id : Z)
| Unregistered.

(** A connection: its phase, whether its context is done, its name in the logs. *)
Record Conn : Type := mkConn {
  phase : Phase;
  canceled : bool;
  connName : string
}.

Inductive Part : Type := Reader | Writer | HandlerPart.

Record Relay : Type := mkRelay {
  connID : Z;
  cancels : gmap Z nat;
  closed : bool;
  wg : Z;
  conns : gmap nat Conn;
  metrics : option relayMetrics
}.

(** The fields a relay keeps unchanged. *)
Record RelayConfig : Type := mkRelayConfig {
  cf_info : option RelayInfo;
  cf_connIDFunc : bool;
  cf_registerer : bool;
  cf_maxMessageLength : Z;
  cf_pingInterval : Z;
  cf_pingTimeout : Z;
  cf_readRate : float64;
  cf_readBurst : Z
}.

(** [RelayOptions] but for the logger; durations in nanoseconds. *)
Record RelayOptions : Type := mkRelayOptions {
  op_MaxMessageLength : Z;
  op_PingInterval : Z;
  op_PingTimeout : Z;
  op_ReadRate : float64;
  op_ReadBurst : Z;
  op_Info : option RelayInfo;
  op_Registerer : bool;
  op_ConnIDFunc : bool
}.

Definition zeroOptions : RelayOptions := mkRelayOptions 0 0 0 (of_int 0) 0 None false false.

(** What [NewRelay] makes of its options; nil stands for the zero options. *)
Definition configure (opts : option RelayOptions) : Res RelayConfig :=
  let o := default zeroOptions opts in
  let maxMessageLength := if op_MaxMessageLength o =? 0 then 100000 else op_MaxMessageLength o in
  let pingInterval := if op_PingInterval o =? 0 then 30 * Second else op_PingInterval o in
  let pingTimeout := if op_PingTimeout o =? 0 then 10 * Second else op_PingTimeout o in
  if positive (op_ReadRate o) && (op_ReadBurst o <? 1)
  then Panic "mocrelay: RelayOptions.ReadBurst must be >= 1 when ReadRate > 0"
  else Ok (mkRelayConfig (op_Info o) (op_ConnIDFunc o) (op_Registerer o) maxMessageLength pingInterval pingTimeout
             (op_ReadRate o) (op_ReadBurst o)).

(** A relay that is made has a limit, an interval and a timeout that are not zero,
    and a bucket that can hold a token if it has one. *)
Lemma configure_spec opts cfg : configure opts = Ok cfg ->
  cf_maxMessageLength cfg <> 0 /\ cf_pingInterval cfg <> 0 /\ cf_pingTimeout cfg <> 0 /\
  (positive (cf_readRate cfg) = true -> 1 <= cf_readBurst cfg).
Proof.
  unfold configure. set (o := default zeroOptions opts). destruct (positive (op_ReadRate o) && (op_ReadBurst o <? 1)) eqn:E; [done|].
  intros [= <-]. cbn. split_and!.
  - destruct (Z.eqb_spec (op_MaxMessageLength o) 0); [done|lia].
  - destruct (Z.eqb_spec (op_PingInterval o) 0); [done|lia].
  - destruct (Z.eqb_spec (op_PingTimeout o) 0); [done|lia].
  - intros Hp. rewrite Hp in E. cbn in E. lia.
Qed.

Definition NewRelay (cfg : RelayConfig) : Relay := mkRelay 0 ∅ false 0 ∅ (newRelayMetrics (cf_registerer cfg)).

Definition set_phase (r : Relay) (c : nat) (x : Conn) (p : Phase) : Relay :=
  mkRelay (connID r) (cancels r) (closed r) (wg r) (<[c := mkConn p (canceled x) (connName x)]> (conns r)) (metrics r).

Definition set_canceled (x : Conn) : Conn := mkConn (phase x) true (connName x).

Definition update_conns (r : Relay) (m : gmap nat Conn) : Relay :=
  mkRelay (connID r) (cancels r) (closed r) (wg r) m (metrics r).

Definition update_metrics (r : Relay) (current started : Z) : Relay :=
  mkRelay (connID r) (cancels r) (closed r) (wg r) (conns r) (add_connections current started <$> metrics r).

(** [registerConn] *)
Definition registerConn (r : Relay) (c : nat) : Relay * Z :=
  let id := wrap_uint64 (connID r + 1) in
  (mkRelay id (<[id := c]> (cancels r)) (closed r) (wg r) (conns r) (metrics r), id).

(** [unregisterConn] *)
Definition unregisterConn (r : Relay) (id : Z) : Relay :=
  mkRelay (connID r) (delete id (cancels r)) (closed r) (wg r) (conns r) (metrics r).

(** The part of [Shutdown] under the lock: every cancel function is called. *)
Definition Shutdown_lock (r : Relay) : Relay :=
  mkRelay (connID r) (cancels r) true (wg r)
    (foldr (fun kv m => alter set_canceled kv.2 m) (conns r) (map_to_list (cancels r))) (metrics r).

(** The rest of [Shutdown]: it returns once the wait group is at zero or its own
    context is done; when both hold, [select] takes either.  [None]: it waits. *)
Definition Shutdown_wait (takes_done : bool) (r : Relay) (ctxErr : option string) : option (option string) :=
  match wg r =? 0, ctxErr with
  | true, None => Some None
  | true, Some e => Some (if takes_done then None else Some e)
  | false, Some e => Some (Some e)
  | false, None => None
  end.

(** ** Steps *)

(** What happens: a request arrives on a fresh connection; a connection takes its
    next step ([given] is what [ConnIDFunc] returns, [ok] whether the upgrade
    succeeds); one of its goroutines ends, for whatever reason; the context of its
    request ends; [Shutdown] takes the lock. *)
Inductive RelayEvent : Type :=
| Arrive (c : nat) (req : Request)
| Track (c : nat)
| RegisterC (c : nat) (given : string)
| CountC (c : nat)
| Accept (c : nat) (ok : bool)
| PartEnds (c : nat) (p : Part)
| UncountC (c : nat)
| UnregisterC (c : nat)
| DoneC (c : nat)
| RequestEnds (c : nat)
| ShutdownEv.

Definition part_ends (p : Part) (ph : Phase) : option Phase :=
  match p, ph with
  | Reader, Serving id true w h => Some (Serving id false w h)
  | Writer, Serving id r true h => Some (Serving id r false h)
  | HandlerPart, Serving id r w true => Some (Serving id r w false)
  | _, _ => None
  end.

(** One step, with the response it sends; [None] when it cannot happen. *)
Definition relay_step (cfg : RelayConfig) (r : Relay) (e : RelayEvent) : option (Relay * option Response) :=
  match e with
  | Arrive c req =>
      match conns r !! c with
      | Some _ => None
      | None =>
          match route (closed r) (cf_info cfg) req with
          | Some resp => Some (r, Some resp)
          | None => Some (update_conns r (<[c := mkConn Routed false ""]> (conns r)), None)
          end
      end
  | Track c =>
      match conns r !! c with
      | Some (mkConn Routed _ _ as x) =>
          if closed r then Some (update_conns r (delete c (conns r)), Some shutting_down)
          else
            let r := mkRelay (connID r) (cancels r) (closed r) (wg r + 1) (conns r) (metrics r) in
            Some (set_phase r c x Tracked, None)
      | _ => None
      end
  | RegisterC c given =>
      match conns r !! c with
      | Some (mkConn Tracked b _) =>
          let '(r, id) := registerConn r c in
          let name := if cf_connIDFunc cfg then given else fmt_d id in
          Some (update_conns r (<[c := mkConn (Registered id) b name]> (conns r)), None)
      | _ => None
      end
  | CountC c =>
      match conns r !! c with
      | Some (mkConn (Registered id) _ _ as x) => Some (set_phase (update_metrics r 1 1) c x (Counted id), None)
      | _ => None
      end
  | Accept c ok =>
      match conns r !! c with
      | Some (mkConn (Counted id) _ _ as x) =>
          Some (set_phase r c x (if ok then Serving id true true true else Ending id), None)
      | _ => None
      end
  | PartEnds c p =>
      match conns r !! c with
      | Some x =>
          match part_ends p (phase x) with
          | Some ph => Some (set_phase r c (set_canceled x) ph, None)
          | None => None
          end
      | None => None
      end
  | UncountC c =>
      match conns r !! c with
      | Some (mkConn (Ending id) _ _ as x) | Some (mkConn (Serving id false false false) _ _ as x) =>
          Some (set_phase (update_metrics r (-1) 0) c x (Uncounted id), None)
      | _ => None
      end
  | UnregisterC c =>
      match conns r !! c with
      | Some (mkConn (Uncounted id) _ _ as x) => Some (set_phase (unregisterConn r id) c x Unregistered, None)
      | _ => None
      end
  | DoneC c =>
      match conns r !! c with
      | Some (mkConn Unregistered _ _) =>
          Some (mkRelay (connID r) (cancels r) (closed r) (wg r - 1) (delete c (conns r)) (metrics r), None)
      | _ => None
      end
  | RequestEnds c =>
      match conns r !! c with
      | Some x => Some (update_conns r (<[c := set_canceled x]> (conns r)), None)
      | None => None
      end
  | ShutdownEv => Some (Shutdown_lock r, None)
  end.

Fixpoint relay_run (cfg : RelayConfig) (r : Relay) (es : list RelayEvent) : option (Relay * list Response) :=
  match es with
  | [] => Some (r, [])
  | e :: es =>
      '(r, out) ← relay_step cfg r e;
      '(r, outs) ← relay_run cfg r es;
      Some (r, option_list out ++ outs)
  end.

(** ** The invariant *)

Definition conn_id (p : Phase) : option Z :=
  match p with
  | Registered id | Counted id | Serving id _ _ _ | Ending id | Uncounted id => Some id
  | _ => None
  end.

Definition is_tracked (x : Conn) : Z := match phase x with Routed => 0 | _ => 1 end.
Definition is_counted (x : Conn) : Z := match phase x with Counted _ | Serving _ _ _ _ | Ending _ => 1 | _ => 0 end.

(** The registration of a connection: its id and its name. *)
Definition registration (m : gmap nat Conn) (c : nat) : option (Z * string) :=
  x ← m !! c; id ← conn_id (phase x); Some (id, connName x).

(** The wait group counts the connections that are tracked, the gauge those in the
    metrics. *)
Record counts_ok (r : Relay) : Prop := {
  co_wg : wg r = map_sum is_tracked (conns r);
  co_gauge : forall m, metrics r = Some m -> ConnectionsCurrent m = map_sum is_counted (conns r)
}.

(** The registry has the cancel function of exactly the registered connections,
    each under its own id, and the default names are the ids. *)
Record ids_ok (cfg : RelayConfig) (r : Relay) : Prop := {
  io_connID : 0 <= connID r;
  io_cancels : forall id c, cancels r !! id = Some c <-> exists n, registration (conns r) c = Some (id, n);
  io_ids : forall c id n, registration (conns r) c = Some (id, n) ->
    1 <= id <= connID r /\ (cf_connIDFunc cfg = false -> n = fmt_d id)
}.

Definition relay_ok (cfg : RelayConfig) (r : Relay) : Prop := counts_ok r /\ ids_ok cfg r.

Lemma cancel_all_lookup l : forall (m : gmap nat Conn) c,
  foldr (fun (kv : Z * nat) m => alter set_canceled kv.2 m) m l !! c =
  (if bool_decide (c ∈ l.*2) then set_canceled <$> m !! c else m !! c).
Proof.
  induction l as [|[id c'] l IH]; intros m c; [done|]. cbn [foldr fmap list_fmap snd].
  destruct (decide (c = c')) as [->|Hne].
  - rewrite lookup_alter_eq, IH. rewrite (bool_decide_true (c' ∈ c' :: _)) by (by left).
    destruct (bool_decide _); [|done]. by destruct (m !! c') as [[]|].
  - rewrite lookup_alter_ne, IH by done.
    by rewrite (bool_decide_ext (c ∈ l.*2) (c ∈ c' :: l.*2)) by set_solver.
Qed.

(** Shutdown cancels the contexts in the registry, and nothing else. *)
Lemma Shutdown_conns cfg r c : ids_ok cfg r ->
  conns (Shutdown_lock r) !! c =
  (if bool_decide (is_Some (registration (conns r) c)) then set_canceled <$> conns r !! c else conns r !! c).
Proof.
  intros Hi. cbn. rewrite cancel_all_lookup. erewrite bool_decide_ext; [done|].
  rewrite list_elem_of_fmap. split.
  - intros ([id c'] & -> & Hin%elem_of_map_to_list). apply (io_cancels cfg r Hi) in Hin as [n Hn]. by eexists.
  - intros [[id n] Hn]. exists (id, c). split; [done|]. apply elem_of_map_to_list, (io_cancels cfg r Hi). by exists n.
Qed.

(** What an absent connection counts for is nothing. *)
Definition of_conn (f : Conn -> Z) (ox : option Conn) : Z := match ox with Some x => f x | None => 0 end.

Lemma sum_update f (m : gmap nat Conn) c ox' :
  map_sum f (partial_alter (fun _ => ox') c m) = map_sum f m - of_conn f (m !! c) + of_conn f ox'.
Proof.
  destruct ox' as [x'|]; [exact (map_sum_insert f m c x')|].
  etransitivity; [exact (map_sum_delete f m c)|]. cbn. unfold at_key, of_conn. lia.
Qed.

(** One connection changes: the counters follow. *)
Lemma counts_update r r' c ox' : counts_ok r ->
  conns r' = partial_alter (fun _ => ox') c (conns r) ->
  wg r' = wg r - of_conn is_tracked (conns r !! c) + of_conn is_tracked ox' ->
  (forall m', metrics r' = Some m' -> exists m, metrics r = Some m /\
    ConnectionsCurrent m' = ConnectionsCurrent m - of_conn is_counted (conns r !! c) + of_conn is_counted ox') ->
  counts_ok r'.
Proof.
  intros [Hw Hg] Hc Hw' Hg'.
  assert (Hsum : forall f, map_sum f (conns r') = map_sum f (conns r) - of_conn f (conns r !! c) + of_conn f ox')
    by (intros f; rewrite Hc; apply sum_update).
  split; [by rewrite Hsum, <-Hw|]. intros m' Hm'. destruct (Hg' m' Hm') as (m & Hm & Heq). by rewrite Hsum, Heq, (Hg m Hm).
Qed.

Lemma gauge_add om current started m' : add_connections current started <$> om = Some m' ->
  exists m, om = Some m /\ ConnectionsCurrent m' = ConnectionsCurrent m + current.
Proof. destruct om as [[]|]; [|done]. intros [= <-]. eexists. split; [done|]. done. Qed.

(** No registration changes. *)
Lemma ids_same cfg r r' : ids_ok cfg r -> connID r' = connID r -> cancels r' = cancels r ->
  (forall c, registration (conns r') c = registration (conns r) c) -> ids_ok cfg r'.
Proof.
  intros [H1 H2 H3] Hid Hc Hr. split; [by rewrite Hid|intros id c; by rewrite Hc, Hr|].
  intros c id n. rewrite Hr, Hid. apply H3.
Qed.

Lemma registration_insert m c x c' : registration (<[c := x]> m) c' =
  (if decide (c' = c) then (fun id => (id, connName x)) <$> conn_id (phase x) else registration m c').
Proof.
  unfold registration. destruct (decide (c' = c)) as [->|Hne]; [|by rewrite lookup_insert_ne].
  rewrite lookup_insert_eq. cbn. by destruct (conn_id (phase x)).
Qed.

Lemma registration_delete m c c' : registration (delete c m) c' = (if decide (c' = c) then None else registration m c').
Proof.
  unfold registration. destruct (decide (c' = c)) as [->|Hne]; [by rewrite lookup_delete_eq|by rewrite lookup_delete_ne].
Qed.

Lemma registration_lookup m c x : m !! c = Some x -> registration m c = (fun id => (id, connName x)) <$> conn_id (phase x).
Proof. intros Hx. unfold registration. rewrite Hx. cbn. by destruct (conn_id (phase x)). Qed.

Lemma registration_inj cfg r c c' id n n' : ids_ok cfg r ->
  registration (conns r) c = Some (id, n) -> registration (conns r) c' = Some (id, n') -> c = c'.
Proof.
  intros Hi Hc Hc'. assert (H1 : cancels r !! id = Some c) by (apply (io_cancels cfg r Hi); eauto).
  assert (H2 : cancels r !! id = Some c') by (apply (io_cancels cfg r Hi); eauto). congruence.
Qed.

(** ** Every step keeps the invariant *)

Lemma Shutdown_sum f r : (forall x, f (set_canceled x) = f x) -> map_sum f (conns (Shutdown_lock r)) = map_sum f (conns r).
Proof.
  intros Hf. cbn. induction (map_to_list (cancels r)) as [|[id c] l IH]; [done|]. cbn [foldr snd].
  rewrite <-IH. set (m := foldr _ _ _). destruct (m !! c) as [x|] eqn:E.
  - unfold alter, map_alter. erewrite (partial_alter_ext _ (fun _ => Some (set_canceled x)));
      [|intros y Hy; rewrite E in Hy; by subst y].
    rewrite sum_update. rewrite E. cbn. rewrite Hf. lia.
  - by rewrite alter_id by (intros y Hy; congruence).
Qed.

Lemma Shutdown_ok cfg r : relay_ok cfg r -> relay_ok cfg (Shutdown_lock r).
Proof.
  intros [[Hw Hg] Hi].
  split; [split|].
  - by rewrite Shutdown_sum.
  - intros m Hm. rewrite Shutdown_sum by done. by apply Hg.
  - apply (ids_same cfg r); [done..|]. intros c. unfold registration at 1. rewrite (Shutdown_conns cfg r c Hi).
    unfold registration. destruct (bool_decide _); [|done]. by destruct (conns r !! c) as [[]|].
Qed.

Lemma ids_register cfg r c x given : ids_ok cfg r -> connID r < two64 - 1 -> conns r !! c = Some x ->
  conn_id (phase x) = None ->
  let '(r', id) := registerConn r c in
  let name := if cf_connIDFunc cfg then given else fmt_d id in
  id = connID r + 1 /\ ids_ok cfg (update_conns r' (<[c := mkConn (Registered id) (canceled x) name]> (conns r))).
Proof.
  intros Hi Hlt Hx Hp. pose proof (io_connID cfg r Hi) as H0. unfold registerConn.
  rewrite wrap_uint64_id by (unfold uint64, two64 in *; lia). split; [done|].
  assert (Hno : cancels r !! (connID r + 1) = None).
  { destruct (cancels r !! (connID r + 1)) as [c'|] eqn:E; [|done]. apply (io_cancels cfg r Hi) in E as [n Hn].
    apply (io_ids cfg r Hi) in Hn. lia. }
  assert (Hc : registration (conns r) c = None) by (by rewrite (registration_lookup _ _ x), Hp).
  split; cbn [connID cancels conns update_conns].
  - lia.
  - intros id c'. rewrite registration_insert. cbn. destruct (decide (id = connID r + 1)) as [->|Hne].
    + rewrite lookup_insert_eq. destruct (decide (c' = c)) as [->|Hcc]; [naive_solver|]. split; [congruence|].
      intros [n Hn]. apply (io_ids cfg r Hi) in Hn. lia.
    + rewrite lookup_insert_ne by done. rewrite (io_cancels cfg r Hi). destruct (decide (c' = c)) as [->|Hcc]; [|done].
      rewrite Hc. split; [by intros [n ?]|]. intros [n [= ??]]. lia.
  - intros c' id n. rewrite registration_insert. cbn. destruct (decide (c' = c)) as [->|Hcc].
    + intros [= <- <-]. split; [lia|]. by intros ->.
    + intros Hn%(io_ids cfg r Hi). split; [lia|tauto].
Qed.

Lemma ids_unregister cfg r c x id p : ids_ok cfg r -> conns r !! c = Some x -> conn_id (phase x) = Some id -> conn_id p = None ->
  ids_ok cfg (set_phase (unregisterConn r id) c x p).
Proof.
  intros Hi Hx Hid Hp. assert (Hc : registration (conns r) c = Some (id, connName x)) by (by rewrite (registration_lookup _ _ x), Hid).
  split; cbn [connID cancels conns set_phase unregisterConn].
  - apply Hi.
  - intros id' c'. rewrite registration_insert. cbn. rewrite Hp. cbn. destruct (decide (id' = id)) as [->|Hne].
    + rewrite lookup_delete_eq. split; [done|]. destruct (decide (c' = c)); [by intros [??]|].
      intros Hn. exfalso. destruct Hn as [n' Hn]. by pose proof (registration_inj _ _ _ _ _ _ _ Hi Hn Hc).
    + rewrite lookup_delete_ne by done. rewrite (io_cancels cfg r Hi). destruct (decide (c' = c)) as [->|Hcc]; [|done].
      rewrite Hc. naive_solver.
  - intros c' id' n. rewrite registration_insert. cbn. rewrite Hp. destruct (decide (c' = c)); [done|]. apply (io_ids cfg r Hi).
Qed.

(** A step of one connection that keeps its registration. *)
Lemma move_ok cfg r c x p b cl' wg' m' : relay_ok cfg r -> conns r !! c = Some x -> conn_id p = conn_id (phase x) ->
  let x' := mkConn p b (connName x) in
  let r' := mkRelay (connID r) (cancels r) cl' wg' (<[c := x']> (conns r)) m' in
  wg' = wg r - is_tracked x + is_tracked x' ->
  (forall n', m' = Some n' -> exists n, metrics r = Some n /\
    ConnectionsCurrent n' = ConnectionsCurrent n + (is_counted x' - is_counted x)) ->
  relay_ok cfg r'.
Proof.
  intros [Hco Hi] Hx Hp x' r' Hw Hg. split.
  - apply (counts_update r _ c (Some x')); [done..| |]; rewrite Hx; [done|]. intros n' Hn'.
    destruct (Hg n' Hn') as (n & Hn & ->). exists n. split; [done|]. cbn. lia.
  - apply (ids_same cfg r); [done..|]. intros c'. cbn. rewrite registration_insert. destruct (decide (c' = c)) as [->|]; [|done].
    rewrite (registration_lookup _ _ x) by done. cbn. by rewrite Hp.
Qed.

Lemma same_gauge (om : option relayMetrics) z : z = 0 ->
  forall n', om = Some n' -> exists n, om = Some n /\ ConnectionsCurrent n' = ConnectionsCurrent n + z.
Proof. intros -> n' Hn'. exists n'. split; [done|]. lia. Qed.

Lemma part_ends_spec p ph ph' : part_ends p ph = Some ph' -> conn_id ph' = conn_id ph /\
  exists id r w h r' w' h', ph = Serving id r w h /\ ph' = Serving id r' w' h'.
Proof.
  destruct ph as [| | | |id r w h| | |]; try (by destruct p).
  destruct p, r, w, h; try done; intros [= <-]; (split; [done|by repeat eexists]).
Qed.

Lemma relay_step_ok cfg r e r' out : relay_ok cfg r -> connID r < two64 - 1 -> relay_step cfg r e = Some (r', out) ->
  relay_ok cfg r' /\ connID r' <= connID r + 1.
Proof.
  intros Hok Hlt. pose proof Hok as [Hco Hi]. destruct e as [c req|c|c given|c|c ok|c p|c|c|c|c|]; cbn [relay_step].
  - destruct (conns r !! c) as [x|] eqn:Hx; [done|]. destruct (route _ _ _); intros [= <- <-]; (split; [|cbn; lia]); [done|].
    split.
    + apply (counts_update r _ c (Some (mkConn Routed false ""))); [done..| |]; rewrite Hx; cbn; [lia|].
      intros m Hm. exists m. split; [done|]. lia.
    + apply (ids_same cfg r); [done..|]. intros c'. cbn. rewrite registration_insert. destruct (decide (c' = c)) as [->|]; [|done].
      unfold registration. by rewrite Hx.
  - destruct (conns r !! c) as [[[] b n]|] eqn:Hx; try done. destruct (closed r); intros [= <- <-]; (split; [|cbn; lia]).
    + split.
      * apply (counts_update r _ c None); [done..| |]; rewrite Hx; cbn; [lia|]. intros m Hm. exists m. split; [done|]. lia.
      * apply (ids_same cfg r); [done..|]. intros c'. cbn. rewrite registration_delete. destruct (decide (c' = c)) as [->|]; [|done].
        unfold registration. by rewrite Hx.
    + eapply (move_ok cfg r c _ Tracked); [done..| |]; cbn; [lia|by apply same_gauge].
  - destruct (conns r !! c) as [[[] b n]|] eqn:Hx; try done.
    pose proof (ids_register cfg r c _ given Hi Hlt Hx eq_refl) as Hr. unfold registerConn in *.
    destruct Hr as [Hid Hids]. intros [= <- <-]. split; [|cbn; lia]. split; [|exact Hids].
    apply (counts_update r _ c (Some (mkConn (Registered (wrap_uint64 (connID r + 1))) b
      (if cf_connIDFunc cfg then given else fmt_d (wrap_uint64 (connID r + 1)))))); [done..| |]; rewrite Hx; cbn; [lia|].
    intros m Hm. exists m. split; [done|]. lia.
  - destruct (conns r !! c) as [[[] b n]|] eqn:Hx; try done. intros [= <- <-]. split; [|cbn; lia].
    eapply (move_ok cfg r c _ (Counted id)); [done..| |]; cbn; [lia|]. intros n'. apply gauge_add.
  - destruct (conns r !! c) as [[[] b n]|] eqn:Hx; try done. intros [= <- <-]. split; [|cbn; lia].
    destruct ok; (eapply (move_ok cfg r c _ _ b); [done..| |]; cbn; [lia|by apply same_gauge]).
  - destruct (conns r !! c) as [[ph b n]|] eqn:Hx; [|done]. cbn [phase]. destruct (part_ends p ph) as [ph'|] eqn:Hp; [|done].
    intros [= <- <-]. split; [|cbn; lia]. apply part_ends_spec in Hp as (Hid & i & r0 & w & h & r1 & w' & h' & -> & ->).
    eapply (move_ok cfg r c (mkConn (Serving i r0 w h) b n) _ true); [done..| |]; cbn; [lia|by apply same_gauge].
  - assert (Hgo : forall x id, conns r !! c = Some x -> conn_id (phase x) = Some id -> is_counted x = 1 -> is_tracked x = 1 ->
      relay_ok cfg (set_phase (update_metrics r (-1) 0) c x (Uncounted id))).
    { intros x id Hx Hid Hc Ht. eapply (move_ok cfg r c x (Uncounted id)); [done..| |].
      - cbn. rewrite Ht. cbn. lia.
      - cbn. rewrite Hc. cbn. intros n'. apply gauge_add. }
    destruct (conns r !! c) as [[[| | | |id [] [] []|id| |] b n]|] eqn:Hx; try done;
      intros [= <- <-]; (split; [|cbn; lia]); by apply Hgo.
  - destruct (conns r !! c) as [[[] b n]|] eqn:Hx; try done. intros [= <- <-]. split; [|cbn; lia].
    split; [|by eapply ids_unregister].
    apply (counts_update r _ c (Some (mkConn Unregistered b n))); [done..| |]; rewrite Hx; cbn; [lia|].
    intros m Hm. exists m. split; [done|]. lia.
  - destruct (conns r !! c) as [[[] b n]|] eqn:Hx; try done. intros [= <- <-]. split; [|cbn; lia]. split.
    + apply (counts_update r _ c None); [done..| |]; rewrite Hx; cbn; [lia|]. intros m Hm. exists m. split; [done|]. lia.
    + apply (ids_same cfg r); [done..|]. intros c'. cbn. rewrite registration_delete. destruct (decide (c' = c)) as [->|]; [|done].
      unfold registration. by rewrite Hx.
  - destruct (conns r !! c) as [[ph b n]|] eqn:Hx; [|done]. intros [= <- <-]. split; [|cbn; lia].
    eapply (move_ok cfg r c (mkConn ph b n) ph true); [done..| |]; cbn; [unfold is_tracked; cbn; lia|apply same_gauge; unfold is_counted; cbn; lia].
  - intros [= <- <-]. split; [by apply Shutdown_ok|cbn; lia].
Qed.

Lemma relay_run_ok cfg es : forall r r' outs, relay_ok cfg r -> connID r + Z.of_nat (length es) < two64 ->
  relay_run cfg r es = Some (r', outs) -> relay_ok cfg r' /\ connID r' <= connID r + Z.of_nat (length es).
Proof.
  induction es as [|e es IH]; intros r r' outs Hok Hlt; cbn [relay_run length] in *.
  { intros [= <- <-]. split; [done|lia]. }
  rewrite bind_Some_iff. intros ([r1 out] & Hs & Hr). apply bind_Some_iff in Hr as ([r2 outs2] & Hr & [= <- <-]).
  apply relay_step_ok in Hs as [Hok1 Hle]; [|done|lia]. apply IH in Hr as [Hok2 Hle2]; [|done|lia]. split; [done|lia].
Qed.

Lemma NewRelay_ok cfg : relay_ok cfg (NewRelay cfg).
Proof.
  split; split; cbn; try done.
  - intros m. destruct (cf_registerer cfg); [|done]. by intros [= <-].
  - intros id c. rewrite lookup_empty. split; [done|]. by intros [n Hn].
Qed.

(** The relays that runs lead to; the ids do not wrap around in [2 ^ 64 - 1]
    steps. *)
Definition reached (cfg : RelayConfig) (r : Relay) (n : nat) : Prop :=
  exists es outs, relay_run cfg (NewRelay cfg) es = Some (r, outs) /\ (length es <= n)%nat.

Lemma reached_ok cfg r n : reached cfg r n -> Z.of_nat n < two64 -> relay_ok cfg r /\ connID r <= Z.of_nat n.
Proof.
  intros (es & outs & Hr & Hl) Hn. apply relay_run_ok in Hr as [Hok Hle]; [|apply NewRelay_ok|cbn; lia].
  split; [done|]. cbn in Hle. lia.
Qed.

(** ** Shutting down *)

(** The steps a connection takes by itself. *)
Definition conn_event (e : RelayEvent) : bool :=
  match e with Arrive _ _ | RequestEnds _ | ShutdownEv => false | _ => true end.

(** How many steps a connection has left. *)
Definition b2z (b : bool) : Z := if b then 1 else 0.
Definition steps_left (x : Conn) : Z :=
  match phase x with
  | Routed => 10
  | Tracked => 9
  | Registered _ => 8
  | Counted _ => 7
  | Serving _ r w h => 3 + b2z r + b2z w + b2z h
  | Ending _ => 3
  | Uncounted _ => 2
  | Unregistered => 1
  end.

Lemma steps_left_range x : 1 <= steps_left x <= 10.
Proof. destruct x as [[| | | |id [] [] []| | |] b n]; cbn; lia. Qed.

(** What a step does to the connections of a relay that is shutting down. *)
Inductive conns_step (e : RelayEvent) (m : gmap nat Conn) : gmap nat Conn -> Prop :=
| cs_same : conn_event e = false -> conns_step e m m
| cs_move c x x' : m !! c = Some x -> steps_left x' + b2z (conn_event e) <= steps_left x ->
    canceled x' = canceled x \/ canceled x' = true /\ ((exists p, e = PartEnds c p) \/ e = RequestEnds c) ->
    conns_step e m (<[c := x']> m)
| cs_gone c x : m !! c = Some x -> conns_step e m (delete c m)
| cs_shutdown r : e = ShutdownEv -> conns r = m -> conns_step e m (conns (Shutdown_lock r)).

Lemma closed_step cfg r e r' out : closed r = true -> relay_step cfg r e = Some (r', out) ->
  closed r' = true /\ conns_step e (conns r) (conns r').
Proof.
  intros Hc. destruct e as [c req|c|c given|c|c ok|c p|c|c|c|c|]; cbn [relay_step].
  - unfold route. rewrite Hc. destruct (conns r !! c); [done|]. intros [= <- <-]. split; [done|]. by constructor.
  - destruct (conns r !! c) as [[[] b n]|] eqn:Hx; try done. rewrite Hc. intros [= <- <-]. split; [done|]. by econstructor.
  - destruct (conns r !! c) as [[[] b n]|] eqn:Hx; try done. unfold registerConn. intros [= <- <-]. split; [done|].
    eapply cs_move; [exact Hx|cbn; lia|by left].
  - destruct (conns r !! c) as [[[] b n]|] eqn:Hx; try done. intros [= <- <-]. split; [done|].
    eapply cs_move; [exact Hx|cbn; lia|by left].
  - destruct (conns r !! c) as [[[] b n]|] eqn:Hx; try done. intros [= <- <-]. split; [done|].
    eapply cs_move; [exact Hx|destruct ok; cbn; lia|by left].
  - destruct (conns r !! c) as [[ph b n]|] eqn:Hx; [|done]. cbn [phase]. destruct (part_ends p ph) as [ph'|] eqn:Hp; [|done].
    intros [= <- <-]. split; [done|]. eapply cs_move; [exact Hx| |right; split; [done|left; by exists p]].
    destruct ph as [| | | |id rd w h| | |]; try (by destruct p). destruct p, rd, w, h; try done; injection Hp as <-; cbn; lia.
  - destruct (conns r !! c) as [[[| | | |id [] [] []|id| |] b n]|] eqn:Hx; try done;
      intros [= <- <-]; (split; [done|]); (eapply cs_move; [exact Hx|cbn; lia|by left]).
  - destruct (conns r !! c) as [[[] b n]|] eqn:Hx; try done. intros [= <- <-]. split; [done|].
    eapply cs_move; [exact Hx|cbn; lia|by left].
  - destruct (conns r !! c) as [[[] b n]|] eqn:Hx; try done. intros [= <- <-]. split; [done|]. by econstructor.
  - destruct (conns r !! c) as [[ph b n]|] eqn:Hx; [|done]. intros [= <- <-]. split; [done|].
    eapply cs_move; [exact Hx|unfold steps_left; cbn; lia|right; split; [done|by right]].
  - intros [= <- <-]. split; [done|]. by eapply cs_shutdown.
Qed.

Definition remaining (r : Relay) : Z := map_sum steps_left (conns r).

Lemma conns_step_remaining e m m' : conns_step e m m' ->
  map_sum steps_left m' + b2z (conn_event e) <= map_sum steps_left m.
Proof.
  intros [He|c x x' Hx Hle _|c x Hx|r -> <-].
  - rewrite He. cbn. lia.
  - rewrite map_sum_insert. unfold at_key. rewrite Hx. lia.
  - rewrite map_sum_delete. unfold at_key. rewrite Hx. pose proof (steps_left_range x). destruct (conn_event e); cbn; lia.
  - rewrite Shutdown_sum by done. cbn. lia.
Qed.

(** What cancels the context of a connection of a closed relay. *)
Definition cancels_conn (c : nat) (e : RelayEvent) : Prop :=
  (exists p, e = PartEnds c p) \/ e = RequestEnds c \/ e = ShutdownEv.

Lemma conns_step_canceled e m m' c x' : conns_step e m m' -> m' !! c = Some x' ->
  exists x, m !! c = Some x /\ (canceled x = true -> canceled x' = true) /\
    (canceled x' = true -> canceled x = true \/ cancels_conn c e).
Proof.
  unfold cancels_conn. intros [He|c0 x x0 Hx _ Hb|c0 x Hx|r -> <-] Hc.
  - exists x'. naive_solver.
  - destruct (decide (c = c0)) as [->|Hne]; [|rewrite lookup_insert_ne in Hc by done; exists x'; naive_solver].
    rewrite lookup_insert_eq in Hc. injection Hc as ->. exists x. split; [done|].
    destruct Hb as [->|[-> Hb]]; [naive_solver|]. split; [done|]. naive_solver.
  - apply lookup_delete_Some in Hc as [_ Hc]. exists x'. naive_solver.
  - cbn in Hc. rewrite cancel_all_lookup in Hc. destruct (bool_decide _); [|exists x'; naive_solver].
    destruct (conns r !! c) as [x|]; [|done]. injection Hc as <-. exists x. naive_solver.
Qed.

Lemma closed_run cfg es : forall r r' outs, closed r = true -> relay_run cfg r es = Some (r', outs) ->
  closed r' = true /\ remaining r' + Z.of_nat (length (base.filter (fun e => conn_event e = true) es)) <= remaining r /\
  (forall c x', conns r' !! c = Some x' -> exists x, conns r !! c = Some x /\ (canceled x = true -> canceled x' = true) /\
    (canceled x' = true -> canceled x = true \/ Exists (cancels_conn c) es)).
Proof.
  induction es as [|e es IH]; intros r r' outs Hc; cbn [relay_run].
  { intros [= <- <-]. split_and!; [done|cbn; lia|]. intros c x' Hx. exists x'. naive_solver. }
  rewrite bind_Some_iff. intros ([r1 out] & Hs & Hr). apply bind_Some_iff in Hr as ([r2 outs2] & Hr & [= <- <-]).
  apply closed_step in Hs as [Hc1 Hs]; [|done]. apply IH in Hr as (Hc2 & Hle & Hx); [|done]. split_and!; [done| |].
  - apply conns_step_remaining in Hs. unfold remaining in *. rewrite filter_cons. destruct (decide _) as [He|He].
    + rewrite He in Hs. cbn in *. lia.
    + destruct (conn_event e); [done|]. cbn in *. lia.
  - intros c x' Hx'. destruct (Hx c x' Hx') as (x1 & Hx1 & Ha & Hb).
    destruct (conns_step_canceled _ _ _ _ _ Hs Hx1) as (x & Hx0 & Ha' & Hb'). exists x. split; [done|]. split; [auto|].
    intros [?|?]%Hb; [destruct Hb'; [done|by left|right; by left]|right; by right].
Qed.

(** A connection that is counted by the wait group has a next step; a running
    goroutine is one that can end. *)
Lemma tracked_steps cfg r : counts_ok r -> wg r <> 0 ->
  exists e, conn_event e = true /\ is_Some (relay_step cfg r e).
Proof.
  intros [Hw _] Hne.
  assert (Hex : exists c x, conns r !! c = Some x /\ is_tracked x = 1).
  { destruct (decide (map_Exists (fun _ x => is_tracked x = 1) (conns r))) as [(c & x & Hx)|Hno]; [by exists c, x|].
    destruct Hne. rewrite Hw. clear Hw. induction (conns r) as [|c x m Hc IH] using map_ind; [done|].
    rewrite map_sum_insert. unfold at_key. rewrite Hc, IH.
    - destruct (decide (is_tracked x = 1)) as [H1|H1]; [destruct Hno; exists c, x; by rewrite lookup_insert_eq|].
      unfold is_tracked in *. destruct (phase x); done.
    - intros (c' & x' & Hx' & H1). destruct Hno. exists c', x'. split; [|done]. rewrite lookup_insert_ne; [done|congruence]. }
  destruct Hex as (c & [ph b n] & Hx & Ht). destruct ph as [| |id|id|id rd w h|id|id|]; try done.
  - exists (RegisterC c ""). split; [done|]. cbn. rewrite Hx. by eexists.
  - exists (CountC c). split; [done|]. cbn. rewrite Hx. by eexists.
  - exists (Accept c true). split; [done|]. cbn. rewrite Hx. by eexists.
  - destruct rd; [|destruct w; [|destruct h]].
    + exists (PartEnds c Reader). split; [done|]. cbn. rewrite Hx. by eexists.
    + exists (PartEnds c Writer). split; [done|]. cbn. rewrite Hx. by eexists.
    + exists (PartEnds c HandlerPart). split; [done|]. cbn. rewrite Hx. by eexists.
    + exists (UncountC c). split; [done|]. cbn. rewrite Hx. by eexists.
  - exists (UncountC c). split; [done|]. cbn. rewrite Hx. by eexists.
  - exists (UnregisterC c). split; [done|]. cbn. rewrite Hx. by eexists.
  - exists (DoneC c). split; [done|]. cbn. rewrite Hx. by eexists.
Qed.

Lemma remaining_bound r : remaining r <= 10 * Z.of_nat (size (conns r)).
Proof.
  unfold remaining. induction (conns r) as [|c x m Hc IH] using map_ind; [done|].
  rewrite map_sum_insert. unfold at_key. rewrite Hc, map_size_insert_None by done.
  pose proof (steps_left_range x). lia.
Qed.

Lemma default_names_inj cfg r c c' id id' n : ids_ok cfg r -> cf_connIDFunc cfg = false ->
  registration (conns r) c = Some (id, n) -> registration (conns r) c' = Some (id', n) -> c = c'.
Proof.
  intros Hi Hf Hc Hc'. destruct (io_ids cfg r Hi _ _ _ Hc) as [_ Hn], (io_ids cfg r Hi _ _ _ Hc') as [_ Hn'].
  assert (Hid : id = id') by (specialize (Hn Hf); specialize (Hn' Hf); unfold fmt_d in *; apply (inj pretty); congruence).
  subst id'. by eapply registration_inj.
Qed.

(** The document is served as JSON that reads back as the relay information. *)
Lemma serveNIP11_document i : info_writable i -> exists data,
  serveNIP11 i "GET" = mkResponse 200 (<["Content-Type" := "application/nostr+json"]> cors_headers) data /\
  parse data = Some (RelayInfo_json i).
Proof.
  intros Hi. destruct (print_parse V2 _ (RelayInfo_json_ok i Hi)) as (data & Hd & Hp). exists data. split; [|done].
  unfold serveNIP11, marshal. by rewrite Hd.
Qed.

(** ** Properties *)

Module RelayExamples.
Definition cfg : RelayConfig := mkRelayConfig None false true 100000 (30 * Second) (10 * Second) (of_int 0) 0.
Definition upgrade : Request := mkRequest "" "websocket" "GET".
(** Three connections: the first is served, the second is in the wait group but
    not yet in the registry, the third has passed the first check only. *)
Definition before : list RelayEvent := [
  Arrive 0 upgrade; Arrive 1 upgrade; Track 0; RegisterC 0 ""; CountC 0; Arrive 2 upgrade; Accept 0 true; Track 1].
Definition state : Relay := match relay_run cfg (NewRelay cfg) before with Some (r, _) => r | None => NewRelay cfg end.
(** The second goes on to be served, the third is refused, the first leaves. *)
Definition after : list RelayEvent := [
  RegisterC 1 ""; Track 2; PartEnds 0 Reader; CountC 1; Accept 1 true; PartEnds 0 HandlerPart; PartEnds 0 Writer;
  UncountC 0; UnregisterC 0; DoneC 0].
Definition last : Relay := match relay_run cfg (Shutdown_lock state) after with Some (r, _) => r | None => state end.
End RelayExamples.

Example default_cfg : configure (Some (mkRelayOptions 0 0 0 (of_int 0) 0 None true false)) = Ok RelayExamples.cfg.
Proof. reflexivity. Qed.

Example shutdown_ex :
  relay_run RelayExamples.cfg (Shutdown_lock RelayExamples.state) RelayExamples.after = Some (RelayExamples.last, [shutting_down]) /\
  map_to_list (conns RelayExamples.last) = [(1%nat, mkConn (Serving 2 true true true) false "2")].
Proof. by vm_compute. Qed.

(** C27: the books of a relay are right at every step of every interleaving of its
    connections and of shutdowns: the wait group counts exactly the connections
    that will call Done, so that it never goes negative; the registry has the cancel
    function of exactly the registered connections, under distinct ids; with metrics
    on, the gauge counts those between their increment and their decrement; and the
    default connection names of registered connections are distinct (for fewer than
    2^64 steps). *)
Theorem relay_books (cfg : RelayConfig) (es : list RelayEvent) (r : Relay) (outs : list Response) :
  relay_run cfg (NewRelay cfg) es = Some (r, outs) -> Z.of_nat (length es) < two64 ->
  relay_ok cfg r /\ 0 <= wg r /\
  (cf_connIDFunc cfg = false -> forall c c' id id' n,
    registration (conns r) c = Some (id, n) -> registration (conns r) c' = Some (id', n) -> c = c').
Proof.
  intros Hr Hlt. destruct (reached_ok cfg r (length es)) as [Hok _]; [by exists es, outs|done|].
  split_and!; [done| |intros Hf c c' id id' n; by apply (default_names_inj cfg r), Hf; apply Hok].
  destruct Hok as [[-> _] _]. apply map_sum_nonneg. intros x. unfold is_tracked. destruct (phase x); lia.
Qed.

Lemma relay_books_witness :
  relay_ok RelayExamples.cfg RelayExamples.state /\ 0 <= wg RelayExamples.state /\
  (cf_connIDFunc RelayExamples.cfg = false -> forall c c' id id' n,
    registration (conns RelayExamples.state) c = Some (id, n) ->
    registration (conns RelayExamples.state) c' = Some (id', n) -> c = c').
Proof. apply (relay_books RelayExamples.cfg RelayExamples.before _ []); [vm_compute; reflexivity|reflexivity]. Defined.

(** C28: a relay drains once it is shut down: from the moment [Shutdown] has gone
    through the registry, whatever steps follow, the connections there are take at
    most ten each and none joins, and the context of each that was registered is done
    for as long as it is there.  While the wait group is not at zero, some connection
    has a step to take and [Shutdown] goes on waiting, unless its own context ends,
    whose error it then returns.  At zero no connection is left but those yet to be
    refused, and [Shutdown] returns nil, or, if its context has ended as well, either
    nil or its error. *)
Theorem shutdown_drains (cfg : RelayConfig) (es : list RelayEvent) (r : Relay) (outs : list Response)
    (es' : list RelayEvent) (r' : Relay) (outs' : list Response) :
  relay_run cfg (NewRelay cfg) es = Some (r, outs) -> relay_run cfg (Shutdown_lock r) es' = Some (r', outs') ->
  Z.of_nat (length es) + Z.of_nat (length es') < two64 - 1 ->
  Z.of_nat (length (base.filter (fun e => conn_event e = true) es')) <= 10 * Z.of_nat (size (conns r)) /\
  (forall c x', conns r' !! c = Some x' ->
    is_Some (conns r !! c) /\ (is_Some (registration (conns r) c) -> canceled x' = true)) /\
  if decide (wg r' = 0) then
    (forall c x', conns r' !! c = Some x' -> phase x' = Routed) /\
    (forall either, Shutdown_wait either r' None = Some None) /\
    (forall err, Shutdown_wait true r' (Some err) = Some None /\ Shutdown_wait false r' (Some err) = Some (Some err))
  else
    (exists e, conn_event e = true /\ is_Some (relay_step cfg r' e)) /\
    forall either, Shutdown_wait either r' None = None /\
      forall err, Shutdown_wait either r' (Some err) = Some (Some err).
Proof.
  intros Hr Hr' Hlt. destruct (closed_run cfg es' (Shutdown_lock r) r' outs' eq_refl Hr') as (_ & Hle & Hx).
  destruct (reached_ok cfg r (length es)) as [Hok Hid]; [by exists es, outs|lia|].
  assert (Hsh : relay_run cfg r (ShutdownEv :: es') = Some (r', outs')).
  { cbn [relay_run relay_step mbind option_bind]. fold (Shutdown_lock r). by rewrite Hr'. }
  destruct (relay_run_ok cfg (ShutdownEv :: es') r r' outs' Hok) as [[Hco _] _]; [cbn [length]; lia|done|].
  split_and!.
  - pose proof (remaining_bound r) as Hb. unfold remaining in *. rewrite Shutdown_sum in Hle by done.
    assert (0 <= map_sum steps_left (conns r')); [|lia].
    apply map_sum_nonneg. intros x. pose proof (steps_left_range x). lia.
  - intros c x' Hx'. destruct (Hx c x' Hx') as (x & Hc & Hup & _). rewrite (Shutdown_conns cfg r c (proj2 Hok)) in Hc.
    destruct (conns r !! c) as [x0|] eqn:E; [|by destruct (bool_decide _)]. split; [done|]. intros Hreg.
    rewrite bool_decide_true in Hc by done. injection Hc as <-. by apply Hup.
  - unfold Shutdown_wait. destruct (decide (wg r' = 0)) as [Hw|Hw].
    + rewrite Hw. split; [|done]. intros c x' Hx'. destruct Hco as [Hsum _]. rewrite Hw in Hsum. symmetry in Hsum.
      apply map_sum_zero with (k := c) (x := x') in Hsum; [|by intros x; unfold is_tracked; destruct (phase x)|done].
      unfold is_tracked in Hsum. by destruct (phase x').
    + apply Z.eqb_neq in Hw as Hw'. rewrite Hw'. split; [by apply tracked_steps|]. done.
Qed.

Lemma shutdown_drains_witness :
  Z.of_nat (length (base.filter (fun e => conn_event e = true) RelayExamples.after)) <=
    10 * Z.of_nat (size (conns RelayExamples.state)) /\
  (forall c x', conns RelayExamples.last !! c = Some x' ->
    is_Some (conns RelayExamples.state !! c) /\
    (is_Some (registration (conns RelayExamples.state) c) -> canceled x' = true)) /\
  (forall either, Shutdown_wait either RelayExamples.last None = None /\
    forall err, Shutdown_wait either RelayExamples.last (Some err) = Some (Some err)).
Proof.
  destruct (shutdown_drains RelayExamples.cfg RelayExamples.before RelayExamples.state [] RelayExamples.after RelayExamples.last
    [shutting_down]) as (H1 & H2 & H3); [vm_compute; reflexivity|vm_compute; reflexivity|reflexivity|].
  destruct (decide (wg RelayExamples.last = 0)) as [Hw|Hw]; [vm_compute in Hw; discriminate Hw|].
  split; [exact H1|]. split; [exact H2|exact (proj2 H3)].
Defined.

(** C29: which connections a shutdown closes: the context of every connection in
    the registry is done from then on, but that of a connection between its entry
    into the wait group and its entry into the registry is left open, until the
    connection itself, the client or another shutdown ends it, although
    [Shutdown] waits for it. *)
Theorem shutdown_reaches_registered (cfg : RelayConfig) (es : list RelayEvent) (r : Relay) (outs : list Response)
    (es' : list RelayEvent) (r' : Relay) (outs' : list Response) (c : nat) (x' : Conn) :
  relay_run cfg (NewRelay cfg) es = Some (r, outs) -> Z.of_nat (length es) < two64 ->
  relay_run cfg (Shutdown_lock r) es' = Some (r', outs') -> conns r' !! c = Some x' ->
  exists x, conns r !! c = Some x /\
  (is_Some (registration (conns r) c) -> canceled x' = true) /\
  (phase x = Tracked -> canceled x = false -> Forall (fun e => ~ cancels_conn c e) es' -> canceled x' = false).
Proof.
  intros Hr Hlt Hr' Hx'. destruct (reached_ok cfg r (length es)) as [[_ Hi] _]; [by exists es, outs|done|].
  destruct (closed_run cfg es' (Shutdown_lock r) r' outs') as (_ & _ & Hx); [done..|].
  destruct (Hx c x' Hx') as (x1 & Hx1 & Hup & Hdown). rewrite (Shutdown_conns cfg r c Hi) in Hx1.
  destruct (conns r !! c) as [x|] eqn:E; [|by destruct (bool_decide _)]. exists x. split; [done|].
  case_bool_decide as Hreg; cbn in Hx1; injection Hx1 as <-.
  - split; [intros _; by apply Hup|]. intros Hp. rewrite (registration_lookup _ _ x E), Hp in Hreg. by destruct Hreg.
  - split; [done|]. intros Hp Hf Hno. destruct (canceled x') eqn:Ec; [|done]. destruct (Hdown eq_refl) as [?|Hex]; [congruence|].
    exfalso. apply Exists_exists in Hex as (e & He & Hce). rewrite Forall_forall in Hno. by apply (Hno e).
Qed.

Lemma shutdown_reaches_registered_witness :
  exists x, conns RelayExamples.state !! 1%nat = Some x /\
  (is_Some (registration (conns RelayExamples.state) 1%nat) -> false = true) /\
  (phase x = Tracked -> canceled x = false -> Forall (fun e => ~ cancels_conn 1 e) RelayExamples.after -> false = false).
Proof.
  apply (shutdown_reaches_registered RelayExamples.cfg RelayExamples.before _ [] RelayExamples.after RelayExamples.last
    [shutting_down] 1 (mkConn (Serving 2 true true true) false "2")); [vm_compute; reflexivity|reflexivity|vm_compute; reflexivity..].
Defined.
