(* ===== verification/EndToEnd.v ===== *)
(** * From the socket to the storage and back

    The composition of the read loops of any number of connections
    (RelayLoops.v), the storage handlers behind them (StorageHandler.v) on one
    shared storage, and the write loops.  Each call of a storage handler takes the
    storage's lock, so calls in any order stand for every interleaving of the
    connections. *)

From S2P Require Import Prelude GoTime Text RateLimit Event Filter Message Interface Storage StorageSpec StorageHandler.
From S2P Require Import Json JsonStrings EventJson EventParse FilterJson MessageJson CodecSpec NoPanic RelayLoops.

(** ** The storage handlers *)

Section Serving.
Context {S : Type} `{StorageOps S} (h : storageHandler).

(** The calls of all handlers on the storage, each with its environment and its
    message, one after the other: the storage, and what each call sends. *)
Fixpoint serve_all (s : S) (calls : list (SendEnv * ClientMsg)) : S * list (list ServerMsg) :=
  match calls with
  | [] => (s, [])
  | (env, msg) :: calls =>
      let '(s, out, _) := storage_handle h env s msg in
      let '(s, outs) := serve_all s calls in (s, out :: outs)
  end.
End Serving.

(** Two storages that cannot be told apart are served alike. *)
Lemma serve_all_same {S T : Type} `{StorageOps S, StorageOps T} h (R : S -> T -> Prop) good asks :
  indistinguishable R good asks -> forall calls s t, R s t -> Forall (fun c => tame good asks c.2) calls ->
  R (serve_all h s calls).1 (serve_all h t calls).1 /\ (serve_all h s calls).2 = (serve_all h t calls).2.
Proof.
  intros Hind. induction calls as [|[env msg] calls IH]; intros s t HR Hc; cbn [serve_all]; [done|].
  apply Forall_cons in Hc as [Hm Hc]. pose proof (storage_handle_same h R good asks Hind env s t msg HR Hm) as Hstep.
  destruct (storage_handle h env s msg) as [[s1 out] err], (storage_handle h env t msg) as [[t1 out'] err'].
  destruct Hstep as (HR1 & <- & _). destruct (IH s1 t1 HR1 Hc) as [HR2 Hout].
  destruct (serve_all h s1 calls) as [s2 outs], (serve_all h t1 calls) as [t2 outs']. cbn [fst snd] in *. by rewrite Hout.
Qed.

(** ** What is in it is authentic *)

Section Authentic.
Context `{Schnorr}.

(** An event whose id and signature are right, as the parser makes them. *)
Definition authentic (e : Event) : Prop := Verify (Some e) = Ok true /\ parsed_event e.

(** What a storage handler relies on in a message. *)
Definition vouched (msg : ClientMsg) : Prop :=
  utf8_ok (c_SubscriptionID msg) = true /\
  (c_Type msg = MsgTypeEvent -> exists e, c_Event msg = Some e /\ authentic e).

(** A message the write loop can send, about an authentic event if about any, as an
    EVENT is. *)
Definition deliverable (m : ServerMsg) : Prop :=
  server_writable m /\ (forall e, s_Event m = Some e -> authentic e) /\ (s_Type m = MsgTypeEvent -> s_Event m <> None).

Lemma deliverable_event sub e : utf8_ok sub = true -> authentic e -> deliverable (NewServerEventMsg sub (Some e)).
Proof.
  intros Hs He. split; [|split; [by intros ? [= <-]|done]]. unfold server_writable. cbn. split_and!; try done; [|by left].
  intros ? [= <-]. apply parsed_printable, He.
Qed.

(** Messages without an event. *)
Lemma deliverable_other m : s_Event m = None -> utf8_ok (s_SubscriptionID m) = true -> utf8_ok (s_EventID m) = true ->
  utf8_ok (s_Message m) = true ->
  s_Type m = MsgTypeOK \/ s_Type m = MsgTypeEOSE \/ s_Type m = MsgTypeClosed \/ s_Type m = MsgTypeNotice \/ s_Type m = MsgTypeCount ->
  deliverable m.
Proof.
  intros He H1 H2 H3 Hty. split; [|rewrite He; split; [done|intros Ht; rewrite Ht in Hty; naive_solver]]. unfold server_writable. rewrite He. split_and!; try done. tauto.
Qed.

Context {S : Type} `{StorageLaws S} (h : storageHandler).

(** The event of a message is one the storage can be given. *)
Definition acceptable (msg : ClientMsg) : Prop := forall e, c_Event msg = Some e -> accepts (S := S) e.

Lemma terminal_deliverable m sub : utf8_ok sub = true -> m = NewServerClosedMsg sub queryTimeoutCLOSEDReason \/ m = NewServerEOSEMsg sub ->
  deliverable m.
Proof. intros Hs [->| ->]; apply deliverable_other; try done; tauto. Qed.

Lemma handleReq_deliverable env s msg : storage_ok s -> Forall authentic (contents s) -> utf8_ok (c_SubscriptionID msg) = true ->
  Forall deliverable (handleReq h env s msg).1.1.
Proof.
  intros Hs Ha Hsub. unfold handleReq. set (sub := c_SubscriptionID msg) in *. set (filters := c_Filters msg).
  destruct (String.eqb sub ""); [constructor|]. set (q := storage_Query (se_query env) s filters).
  destruct (req_loop env sub 0 (q_events q)) as [[sent n] e] eqn:Hloop.
  destruct (req_loop_spec _ _ _ _ _ _ _ Hloop) as (k & -> & _).
  assert (Hev : Forall deliverable (event_msg sub <$> take k (q_events q))).
  { apply Forall_fmap, Forall_forall. intros x Hx. apply deliverable_event; [done|].
    rewrite Forall_forall in Ha. apply Ha, (law_Query_stored (se_query env) s filters); [done|].
    by eapply elem_of_take in Hx as (i & Hi%list_elem_of_lookup_2 & _). }
  pose proof (finish_req_spec h env msg (event_msg sub <$> take k (q_events q)) (q_err q n)) as Hf.
  assert (Hfin : Forall deliverable (finish_req h env msg (event_msg sub <$> take k (q_events q)) (q_err q n)).1.1).
  { destruct (finish_req _ _ _ _ _) as [[out err] log]. destruct Hf as (t & -> & Ht & _). cbn [fst]. apply Forall_app_2; [done|].
    unfold terminal_ok in Ht. destruct err; subst t; [constructor|]. apply Forall_singleton.
    eapply terminal_deliverable; [exact Hsub|]. cbn. destruct (timed_out env (q_err q n)); [by left|by right]. }
  destruct e; [exact Hfin..|exact Hev].
Qed.

Lemma handleCount_deliverable env s msg : utf8_ok (c_SubscriptionID msg) = true ->
  Forall deliverable (handleCount h env s msg).1.1.
Proof.
  intros Hsub. unfold handleCount. set (sub := c_SubscriptionID msg) in *. destruct (String.eqb sub ""); [constructor|].
  destruct (count_loop env 0 0 _) as [n count]. unfold sendServerMsg. destruct (se_last env); [|constructor].
  apply Forall_singleton. destruct (timed_out env _); [by eapply terminal_deliverable; [|left]|].
  destruct (q_err _ n); apply deliverable_other; try done; tauto.
Qed.

Lemma handleEvent_authentic env s msg e : storage_ok s -> Forall authentic (contents s) -> c_Event msg = Some e -> authentic e -> accepts e ->
  let '(s', (out, _, _)) := handleEvent env s msg in
  storage_ok s' /\ Forall authentic (contents s') /\ Forall deliverable out.
Proof.
  intros Hs Ha He Hae Hacc. unfold handleEvent. rewrite He.
  assert (Hgiven : forall y, Some e = Some y -> accepts y) by by intros ? [= <-].
  pose proof (law_Store_ok s (Some e) Hs Hgiven) as Hok.
  pose proof (fun x => law_Store_contents s (Some e) x Hs Hgiven) as Hc.
  unfold sendServerMsg. destruct (storage_Store s (Some e)) as [s' r]. cbn [fst] in *.
  assert (Ha' : Forall authentic (contents s')).
  { rewrite Forall_forall in *. intros x Hx. destruct (Hc x Hx) as [?|[= <-]]; [by apply Ha|done]. }
  assert (Hid : utf8_ok (ev_ID e) = true) by (pose proof (pe_strings _ (proj2 Hae)) as Hstr; rewrite !Forall_cons in Hstr; apply Hstr).
  destruct (se_last env); (split_and!; [done..|]); [|constructor].
  apply Forall_singleton. destruct r as [[|]| |]; apply deliverable_other; try done; tauto.
Qed.

Lemma storage_handle_authentic env s msg : storage_ok s -> Forall authentic (contents s) -> vouched msg -> acceptable msg ->
  let '(s', out, _) := storage_handle h env s msg in
  storage_ok s' /\ Forall authentic (contents s') /\ Forall deliverable out.
Proof.
  intros Hs Ha [Hsub Hev] Hacc. unfold storage_handle. destruct (String.eqb_spec (c_Type msg) MsgTypeEvent) as [Ht|_].
  { destruct (Hev Ht) as (e & He & Hae). pose proof (handleEvent_authentic env s msg e Hs Ha He Hae (Hacc e He)) as Hh.
    by destruct (handleEvent env s msg) as [s' [[out err] log]]. }
  destruct (String.eqb (c_Type msg) MsgTypeReq).
  { pose proof (handleReq_deliverable env s msg Hs Ha Hsub) as Hd. by destruct (handleReq h env s msg) as [[out err] log]. }
  destruct (String.eqb (c_Type msg) MsgTypeCount); [|by split_and!].
  pose proof (handleCount_deliverable env s msg Hsub) as Hd. by destruct (handleCount h env s msg) as [[out err] log].
Qed.

Lemma serve_all_authentic calls : forall s, storage_ok s -> Forall authentic (contents s) -> Forall (fun c => vouched c.2 /\ acceptable c.2) calls ->
  let '(s', outs) := serve_all h s calls in
  storage_ok s' /\ Forall authentic (contents s') /\ Forall (Forall deliverable) outs.
Proof.
  induction calls as [|[env msg] calls IH]; intros s Hs Ha Hc; cbn [serve_all]; [by split_and!|].
  apply Forall_cons in Hc as [[Hm Hacc] Hc]. pose proof (storage_handle_authentic env s msg Hs Ha Hm Hacc) as Hstep.
  destruct (storage_handle h env s msg) as [[s1 out] err]. destruct Hstep as (Hs1 & Ha1 & Hout).
  specialize (IH s1 Hs1 Ha1 Hc). destruct (serve_all h s1 calls) as [s2 outs]. destruct IH as (? & ? & ?).
  split_and!; [done..|by constructor].
Qed.

(** What any read loop hands over is vouched for, and still is behind a pipeline of
    middlewares. *)
Lemma handed_vouched rs ts msg : msg ∈ handed (readLoop rs ts).1.2 -> vouched msg.
Proof.
  destruct (readLoop rs ts) as [[rs' out] x] eqn:E. destruct (readLoop_spec ts rs rs' out x E) as (k & outs & b & _ & Hf & -> & _).
  cbn [fst snd]. intros Hm. destruct (answered_admitted _ _ _ Hf Hm) as [Hty Hv]. split.
  - destruct Hty as [| |sub fs Hsub|sub fs Hsub|sub Hsub]; [done..|apply Hsub|apply Hsub|apply Hsub].
  - intros He. destruct (Hv He) as (e & Hce & Hver). exists e. split; [done|]. split; [done|].
    destruct Hty as [e' Hp|e' Hp| | |]; try done; by injection Hce as <-.
Qed.

Lemma same_msg_vouched msg msg' : same_msg msg msg' -> vouched msg -> vouched msg'.
Proof. intros [Ht He Hs _] [Hsub Hev]. split; [by rewrite Hs|]. rewrite Ht, He. exact Hev. Qed.

End Authentic.

(** The messages a handler can be given on a relay: those a read loop hands over,
    as the middlewares pass them on. *)
Definition reaches_handler `{Schnorr} (msg' : ClientMsg) : Prop :=
  exists rs ts msg, msg ∈ handed (readLoop rs ts).1.2 /\ same_msg msg msg'.

(** ** Properties *)

(** From socket to storage and back: behind the read loops of any connections
    and any pipelines that keep the contract of middlewares, whatever frames
    arrive (with events the storage accepts) and however the calls of the handlers interleave, a storage that begins
    with authentic events only (right id, right signature, the parser's shape) holds
    authentic events only, every event served is authentic, and every message the
    handlers send can be written and reads back as the array of its kind. *)
Theorem authentic_end_to_end `{Schnorr} {S : Type} `{StorageLaws S} (h : storageHandler) (s : S)
    (calls : list (SendEnv * ClientMsg)) :
  storage_ok s -> Forall authentic (contents s) -> Forall (fun c => reaches_handler c.2 /\ acceptable c.2) calls ->
  let '(s', outs) := serve_all h s calls in
  storage_ok s' /\ Forall authentic (contents s') /\
  (forall m e, m ∈ concat outs -> s_Event m = Some e -> authentic e) /\
  (forall ins, (forall m order o, WMsg m order o ∈ ins -> m ∈ concat outs /\ forall ms, order ms ≡ₚ ms) ->
    Forall2 reads_as (taken ins) (texts ins)).
Proof.
  intros Hs Ha Hc. assert (Hv : Forall (fun c : SendEnv * ClientMsg => vouched c.2 /\ acceptable c.2) calls).
  { eapply Forall_impl; [exact Hc|]. intros c [(rs & ts & msg & Hm & Hsame) Hacc]. split; [|done].
    eapply same_msg_vouched; [exact Hsame|]. by eapply handed_vouched. }
  pose proof (serve_all_authentic h calls s Hs Ha Hv) as Hall. destruct (serve_all h s calls) as [s' outs].
  destruct Hall as (Hok & Hauth & Hd).
  assert (Hd' : forall m, m ∈ concat outs -> deliverable m).
  { intros m Hm. rewrite Forall_forall in Hd. apply list_elem_of_In, in_concat in Hm as (out & Hout%list_elem_of_In & Hm%list_elem_of_In).
    specialize (Hd out Hout). rewrite Forall_forall in Hd. by apply Hd. }
  split_and!; [done..| |].
  - intros m e Hm. by apply Hd'.
  - intros ins Hins. apply texts_read, Forall_forall. intros [| |m order o|pong] Hi; try done.
    destruct (Hins _ _ _ Hi) as [Hm Ho]. split; [by apply Hd'|done].
Qed.

Module EndToEndExamples.
(** A client stores an event and asks for it. *)
Definition asked : ClientMsg := client_req "s" [emptyFilter].
Definition turns : list ReadTurn := [
  RelayLoopExamples.turn false (Frame MessageText (RelayLoopExamples.text_of (client_event RelayLoopExamples.good)));
  RelayLoopExamples.turn false (Frame MessageText (RelayLoopExamples.text_of asked))].
Definition calls : list (SendEnv * ClientMsg) :=
  [(HandlerRuns.env, client_event RelayLoopExamples.good); (HandlerRuns.env, asked)].
End EndToEndExamples.

Example serve_all_ex : (serve_all HandlerRuns.h NewInMemoryStorage EndToEndExamples.calls).2 =
  [[NewServerOKMsg (ev_ID RelayLoopExamples.good) true ""];
   [event_msg "s" RelayLoopExamples.good; NewServerEOSEMsg "s"]].
Proof. by vm_compute. Qed.

Lemma calls_reach : Forall (fun c : SendEnv * ClientMsg => @reaches_handler AcceptAll c.2) EndToEndExamples.calls.
Proof.
  assert (Hh : handed (@readLoop AcceptAll RelayLoopExamples.start EndToEndExamples.turns).1.2 =
    [client_event RelayLoopExamples.good; EndToEndExamples.asked]) by (vm_compute; reflexivity).
  assert (Hm : forall m, m ∈ [client_event RelayLoopExamples.good; EndToEndExamples.asked] -> @reaches_handler AcceptAll m).
  { intros m Hm. exists RelayLoopExamples.start, EndToEndExamples.turns, m. rewrite Hh. by split; [|split]. }
  constructor; [apply Hm; by left|]. constructor; [apply Hm; by right; left|constructor].
Qed.

Lemma authentic_end_to_end_witness :
  exists s' outs, serve_all HandlerRuns.h NewInMemoryStorage EndToEndExamples.calls = (s', outs) /\
  storage_wf s' /\ Forall (@authentic AcceptAll) (events s') /\
  (forall m e, m ∈ concat outs -> s_Event m = Some e -> @authentic AcceptAll e).
Proof.
  destruct (serve_all HandlerRuns.h NewInMemoryStorage EndToEndExamples.calls) as [s' outs] eqn:E. exists s', outs. split; [done|].
  pose proof (@authentic_end_to_end AcceptAll InMemoryStorage _ _ HandlerRuns.h NewInMemoryStorage EndToEndExamples.calls
    new_storage_wf (Forall_nil_2 _) ltac:(eapply Forall_impl; [exact calls_reach|by split])) as Ht.
  rewrite E in Ht. destruct Ht as (? & ? & ? & _). by split_and!.
Defined.
