(* ===== verification/RelayStack.v ===== *)
(** * The handlers of a relay, together (merge_handler.go, storage_handler.go, router_handler.go)

    The stack of the example relays: per connection a merge handler with a storage
    handler and a router handler as its children, on one storage and one router.
    The machines of MergeServe.v, Drain.v and Handlers.v run side by side, joined at
    the channels between them, at the storage and at the router with its lock; a
    step is a step of one goroutine.  Whatever the interleaving, every part makes a
    run of its own machine, so that its theorems hold of the whole.  The lock of the
    in-memory storage is not part of the steps; who holds it, who waits for it and
    which steps that leaves is defined at the end. *)

From S2P Require Import Prelude GoTime Text Event Filter Message Storage StorageSpec Drain StorageHandler.
From S2P Require Import Merge MergeReq MergeHandler MergeServe Router Handlers.

(** ** State *)

(** A broadcast under way: the orders in which it visits the maps, the event, the
    subscriptions it has tried, each with whether the channel had room, what it has
    sent and to which channel, and the subscriptions it has yet to try. *)
Record Sending : Type := mkSending {
  sd_conns : MapOrder;
  sd_subs : string -> MapOrder;
  sd_event : Event;
  sd_done : list (string * string * bool);
  sd_sent : list (nat * ServerMsg);
  sd_todo : list (string * string)
}.

(** What the broadcast has found, as the environment of [Broadcast]. *)
Definition found (sd : Sending) : BroadcastEnv :=
  mkBroadcastEnv (sd_conns sd) (sd_subs sd) (fun c s => bool_decide ((c, s, true) ∈ sd_done sd)).

Definition start_sending (r : Router) (conns : MapOrder) (subs : string -> MapOrder) (ev : Event) : Sending :=
  mkSending conns subs ev [] [] (attempts (mkBroadcastEnv conns subs (fun _ _ => false)) r ev).

Definition tried (sd : Sending) (a : string * string) (todo : list (string * string)) (x : nat * ServerMsg) (room : bool) : Sending :=
  mkSending (sd_conns sd) (sd_subs sd) (sd_event sd) (sd_done sd ++ [(a, room)])
    (if room then sd_sent sd ++ [x] else sd_sent sd) todo.

(** The goroutine of a router handler: not registered yet; registered under an id,
    with the message it has taken and the broadcast it is in the middle of; or
    unregistered. *)
Inductive RouterThread : Type :=
| Entering
| Serving (id : string) (hand : option ClientMsg) (sending : option Sending)
| Left.

Section Stack.

Context {S : Type} `{StorageOps S} (mh : mergeHandler) (sh : storageHandler).

(** A connection: its merge handler and the states of the two children. *)
Record Conn : Type := mkConn {
  cn_serve : Serve;
  cn_storage : Served (Env := SendEnv) (St := S);
  cn_router : RouterThread
}.

(** The channel of connection [k] is number [k] to the router.  [sk_panic]: a send
    on a closed channel. *)
Record Stack : Type := mkStack {
  sk_storage : S;
  sk_hub : Hub;
  sk_conns : list Conn;
  sk_panic : bool
}.

Definition new_stack (s : S) (reg : bool) : Stack := mkStack s (new_hub reg) [] false.

Definition new_conn (s : S) : Conn := mkConn (serve_start mh) (start_serving s) Entering.

Definition set_conn (sk : Stack) (k : nat) (cn : Conn) : Stack :=
  mkStack (sk_storage sk) (sk_hub sk) (<[k := cn]> (sk_conns sk)) (sk_panic sk).
Definition set_hub (sk : Stack) (w : Hub) : Stack := mkStack (sk_storage sk) w (sk_conns sk) (sk_panic sk).
Definition set_storage (sk : Stack) (s : S) : Stack := mkStack s (sk_hub sk) (sk_conns sk) (sk_panic sk).

Definition set_thread (cn : Conn) (t : RouterThread) : Conn := mkConn (cn_serve cn) (cn_storage cn) t.

(** ** Steps *)

(** A step of the merge handler, or of one of its children as it sees it. *)
Definition conn_serve (cn : Conn) (e : ServeEvent) : option Conn :=
  (fun st => mkConn st (cn_storage cn) (cn_router cn)) <$> serve_step mh (cn_serve cn) e.

Definition child_of (cn : Conn) (i : nat) : option Child := sv_children (cn_serve cn) !! i.

(** The context of a child has ended. *)
Definition child_ended (cn : Conn) (i : nat) : bool :=
  sv_done (cn_serve cn) || match child_of cn i with Some c => ch_canceled c | None => false end.

(** What the goroutines of the storage handler do: the draining goroutine receives,
    puts into the queue and stops; the main loop takes a message from the queue and
    handles it, sends, notices the end of its context; [ServeNostr] returns. *)
Inductive StorageAct : Type :=
| StReceive
| StQueue
| StStop
| StHandle (env : SendEnv)
| StSend
| StCancel
| StQuit
| StReturn.

Definition exit_error (x : HandlerExit) : option string :=
  match x with ExitNil => None | ExitCtx => Some ctx_err | ExitErr e => Some e end.

Definition with_state (d : Served (Env := SendEnv) (St := S)) (s : S) : Served (Env := SendEnv) (St := S) :=
  mkServed s (d_ctxDone d) (d_hand d) (d_queue d) (d_queueClosed d) (d_outgoing d) (d_pending d) (d_exit d)
    (d_received d) (d_handled d) (d_sent d).

(** A step of the receive queue and the main loop, on the storage as it is now. *)
Definition storage_drain (s : S) (cn : Conn) (e : DrainEvent) : option (S * Conn) :=
  (fun d => (d_state d, mkConn (cn_serve cn) d (cn_router cn))) <$>
    drain_step (storage_handle sh) (with_state (cn_storage cn) s) e.

Definition storage_act (s : S) (cn : Conn) (a : StorageAct) : option (S * Conn) :=
  match a with
  | StReceive =>
      c ← child_of cn 0;
      match ch_recv c with
      | m :: _ => cn ← conn_serve cn (OfChild 0 Takes); storage_drain s cn (DrainRecv m)
      | [] => None
      end
  | StQueue => storage_drain s cn DrainPut
  | StStop => storage_drain s cn DrainStop
  | StHandle env => storage_drain s cn (MainTake env)
  | StSend =>
      match d_outgoing (cn_storage cn) with
      | m :: _ => cn ← conn_serve cn (OfChild 0 (Says m)); storage_drain s cn MainSend
      | [] => None
      end
  | StCancel => if child_ended cn 0 && negb (d_ctxDone (cn_storage cn)) then storage_drain s cn CtxCancel else None
  | StQuit => storage_drain s cn MainCtx
  | StReturn =>
      x ← d_exit (cn_storage cn);
      cn ← conn_serve cn (OfChild 0 (Returns (exit_error x))); Some (s, cn)
  end.

(** What the goroutine of the router handler does: register; take a message and
    work on it ([cut]: the context ends first); stop at the end of its context; send
    the answer that comes next; begin a broadcast, try the next subscription, end it;
    unregister; return. *)
Inductive RouterAct : Type :=
| RtRegister
| RtTake
| RtTurn (cut : bool)
| RtStop
| RtSend (cut : bool)
| RtBroadcast (conns : MapOrder) (subs : string -> MapOrder)
| RtDeliver
| RtEnd
| RtUnregister
| RtReturn.

(** A broadcast holds the read lock of the router from its beginning to its end;
    whoever changes the router waits for it. *)
Definition broadcasting (cn : Conn) : bool :=
  match cn_router cn with Serving _ _ (Some _) => true | _ => false end.
Definition read_locked (sk : Stack) : bool := existsb broadcasting (sk_conns sk).

Definition writes_router (msg : ClientMsg) : bool :=
  String.eqb (c_Type msg) MsgTypeReq || String.eqb (c_Type msg) MsgTypeClose.

(** The handler's own sends, on its own channel. *)
Fixpoint say_all (cn : Conn) (out : list (nat * ServerMsg)) : option Conn :=
  match out with
  | [] => Some cn
  | (_, m) :: out => cn ← conn_serve cn (OfChild 1 (Says m)); say_all cn out
  end.

Definition serving (sk : Stack) (k : nat) (id : string) (sending : option Sending) : option Stack :=
  cn ← sk_conns sk !! k; Some (set_conn sk k (set_thread cn (Serving id None sending))).

(** Connection [k]'s broadcast tries the next subscription: it sends if the channel
    has room.  The channel may be its own. *)
Definition deliver (sk : Stack) (k : nat) (id : string) (sd : Sending) (a : string * string) (todo : list (string * string))
    : option Stack :=
  let '(to, m) := delivery (w_router (sk_hub sk)) (sd_event sd) a in
  target ← sk_conns sk !! to;
  c ← child_of target 1;
  if send_closed c then Some (mkStack (sk_storage sk) (sk_hub sk) (sk_conns sk) true)
  else if (length (ch_send c) <? childSendBuffer)%nat then
    target ← conn_serve target (OfChild 1 (Says m));
    serving (set_conn sk to target) k id (Some (tried sd a todo (to, m) true))
  else serving sk k id (Some (tried sd a todo (to, m) false)).

Definition position (sk : Stack) (id : string) : option RouterAt := snd <$> w_handlers (sk_hub sk) !! id.

(** The environment of a step that does not broadcast. *)
Definition no_broadcast : BroadcastEnv := mkBroadcastEnv range_in_order (fun _ => range_in_order) (fun _ _ => false).

Definition router_act (sk : Stack) (k : nat) (cn : Conn) (a : RouterAct) : option Stack :=
  match a, cn_router cn with
  | RtRegister, Entering =>
      if read_locked sk then None
      else
        match (Register (w_router (sk_hub sk)) k).2 with
        | Ok id =>
            '(w, _) ← hub_step (sk_hub sk) (Connect k);
            Some (set_conn (set_hub sk w) k (set_thread cn (Serving id None None)))
        | _ => None
        end
  | RtTake, Serving id None None =>
      c ← child_of cn 1;
      match position sk id, ch_recv c with
      | Some AtSelect, m :: _ =>
          cn ← conn_serve cn (OfChild 1 Takes);
          Some (set_conn sk k (set_thread cn (Serving id (Some m) None)))
      | _, _ => None
      end
  | RtTurn cut, Serving id (Some m) None =>
      if writes_router m && read_locked sk then None
      else if cut && negb (child_ended cn 1) then None
      else
        '(w, out) ← hub_step (sk_hub sk) (Turn id (InMsg m cut));
        cn ← say_all cn out;
        Some (set_conn (set_hub sk w) k (set_thread cn (Serving id None None)))
  | RtStop, Serving id None None =>
      if child_ended cn 1 then
        '(w, _) ← hub_step (sk_hub sk) (Turn id InCtxDone); Some (set_conn (set_hub sk w) k cn)
      else None
  | RtSend cut, Serving id None None =>
      match position sk id with
      | Some (ToSend _) =>
          if cut && negb (child_ended cn 1) then None
          else
            '(w, out) ← hub_step (sk_hub sk) (Go id no_broadcast cut);
            cn ← say_all cn out; Some (set_conn (set_hub sk w) k cn)
      | _ => None
      end
  | RtBroadcast conns subs, Serving id None None =>
      match position sk id with
      | Some (ToBroadcast ev) => serving sk k id (Some (start_sending (w_router (sk_hub sk)) conns subs ev))
      | _ => None
      end
  | RtDeliver, Serving id None (Some sd) =>
      match sd_todo sd with a :: todo => deliver sk k id sd a todo | [] => None end
  | RtEnd, Serving id None (Some sd) =>
      match sd_todo sd with
      | [] => '(w, _) ← hub_step (sk_hub sk) (Go id (found sd) false); serving (set_hub sk w) k id None
      | _ :: _ => None
      end
  | RtUnregister, Serving id None None =>
      if read_locked sk then None
      else '(w, _) ← hub_step (sk_hub sk) (Leave id); Some (set_conn (set_hub sk w) k (set_thread cn Left))
  | RtReturn, Left => cn ← conn_serve cn (OfChild 1 (Returns (Some ctx_err))); Some (set_conn sk k cn)
  | _, _ => None
  end.

(** What can happen: a connection comes in; on connection [k], a step of the merge
    loop, the end of the context, a step of a child's goroutine on its way out after
    its handler returned, and steps of the two handlers. *)
Inductive StackEvent : Type :=
| Accept
| MergeGo (k : nat) (e : LoopEvent)
| ConnCanceled (k : nat)
| Unwinds (k i : nat) (leaves : bool)
| StorageGo (k : nat) (a : StorageAct)
| RouterGo (k : nat) (a : RouterAct).

Definition stack_step (sk : Stack) (e : StackEvent) : option Stack :=
  match e with
  | Accept => Some (mkStack (sk_storage sk) (sk_hub sk) (sk_conns sk ++ [new_conn (sk_storage sk)]) (sk_panic sk))
  | MergeGo k e => cn ← sk_conns sk !! k; cn ← conn_serve cn (OfLoop e); Some (set_conn sk k cn)
  | ConnCanceled k => cn ← sk_conns sk !! k; cn ← conn_serve cn ContextEnds; Some (set_conn sk k cn)
  | Unwinds k i leaves =>
      cn ← sk_conns sk !! k; cn ← conn_serve cn (OfChild i (if leaves : bool then Leaves else Closes)); Some (set_conn sk k cn)
  | StorageGo k a =>
      cn ← sk_conns sk !! k; '(s, cn) ← storage_act (sk_storage sk) cn a; Some (set_conn (set_storage sk s) k cn)
  | RouterGo k a => cn ← sk_conns sk !! k; router_act sk k cn a
  end.

Fixpoint stack_run (sk : Stack) (es : list StackEvent) : option Stack :=
  match es with
  | [] => Some sk
  | e :: es => sk ← stack_step sk e; stack_run sk es
  end.

(** ** The lock of the storage *)

(** [Query] of the in-memory storage holds the read lock of the storage from its
    first event to its last, through the sends of the handler that ranges over them;
    [Store] takes the write lock.  The steps above do not wait for it; these
    definitions say who holds it, who waits for it, and which steps that leaves.
    [ql]: whether the storage has such a lock.  The Pebble storage reads a snapshot
    and has none. *)
Definition sends_event (m : ServerMsg) : bool := String.eqb (s_Type m) MsgTypeEvent.

(** A handler in the middle of the events of a REQ holds the read lock; one that has
    left its loop does not.  Where a query timeout cuts a REQ short is in the
    environment of the step that handled it. *)
Definition holds_lock (cn : Conn) : bool :=
  match child_of cn 0, d_exit (cn_storage cn) with
  | Some c, None => match ch_phase c with Running => existsb sends_event (d_outgoing (cn_storage cn)) | _ => false end
  | _, _ => false
  end.

(** The message a main loop at its select takes, and the lock it needs for it.  A
    handler that waits for a lock counts as one that has not taken its message. *)
Definition next_message (cn : Conn) : option ClientMsg :=
  if at_select (cn_storage cn) then head (d_queue (cn_storage cn)) else None.

Definition stores (m : ClientMsg) : bool :=
  String.eqb (c_Type m) MsgTypeEvent && bool_decide (is_Some (c_Event m)).
Definition queries (m : ClientMsg) : bool :=
  (String.eqb (c_Type m) MsgTypeReq || String.eqb (c_Type m) MsgTypeCount) && negb (String.eqb (c_SubscriptionID m) "").

Definition about_to (needs : ClientMsg -> bool) (cn : Conn) : bool :=
  match next_message cn with Some m => needs m | None => false end.

(** A writer waits until no reader holds the lock; a reader waits behind a waiting
    writer, as [sync.RWMutex] has it. *)
Definition waits_for_lock (ql : bool) (sk : Stack) (cn : Conn) : bool :=
  ql && existsb holds_lock (sk_conns sk) &&
  (about_to stores cn || about_to queries cn && existsb (about_to stores) (sk_conns sk)).

(** A handler that waits for the lock neither handles its message nor sees its
    context end. *)
Definition lock_lets (ql : bool) (sk : Stack) (e : StackEvent) : bool :=
  match e with
  | StorageGo k (StHandle _ | StQuit) =>
      match sk_conns sk !! k with Some cn => negb (waits_for_lock ql sk cn) | None => true end
  | _ => true
  end.

End Stack.
