(* ===== verification/RelayStackSpec.v ===== *)
(** * What the handlers of a relay keep together

    The invariant of the machine of RelayStack.v: it is its parts' machines run side
    by side, with what one hands over and the other has not yet taken in between;
    and no handler sends on a closed channel. *)

From S2P Require Import Prelude GoTime Text Event Filter Message Interface Storage StorageSpec Drain StorageHandler.
From S2P Require Import Merge MergeReq MergeHandler MergeServe MergeSafe Router Handlers LiveRace EventJson MessageJson RelayLoops EndToEnd RelayStack.

(** ** What the loop of a merge handler leaves its children *)

(** What a child's own steps change. *)
Definition handler_view (c : Child) : ChildPhase * list ClientMsg * list ServerMsg := (ch_phase c, ch_got c, ch_said c).

Lemma alter_view (i : nat) f (l : list Child) : (forall c, handler_view (f c) = handler_view c) -> handler_view <$> alter f i l = handler_view <$> l.
Proof.
  intros Hf. revert i. induction l as [|c l IH]; intros [|i]; [done..| |].
  - cbn. by rewrite Hf.
  - cbn. f_equal. apply IH.
Qed.

Lemma loop_step_view h st e st' : loop_step h st e = Some st' -> handler_view <$> sv_children st' = handler_view <$> sv_children st.
Proof.
  assert (Hret : forall i dead o1 o2 o3, handler_view <$> sv_children (retire_child st i dead o1 o2 o3) = handler_view <$> sv_children st).
  { intros. unfold retire_child. destruct (handlerClosed _ _ _ _ i) as [s results]. by apply alter_view. }
  unfold loop_step.
  destruct (sv_phase st) as [|msg i dead|msg i dead|[|r results] [|i dead]|cn|errs|w] eqn:Hp; destruct e as [|[msg'|]|i' o1 o2 o3| | | | | | |o1 o2 o3| |]; try done.
  all: try (destruct (sv_done st); [|done]; by intros [= <-]).
  all: try (by intros [= <-]).
  all: try (intros [= <-]; by apply Hret).
  - intros [= <-]. unfold client_message. by destruct (start_op msg').
  - rewrite bind_Some_iff. intros (c & Hc & Hx). destruct (live st i'); [|done]. destruct (ch_send c) as [|m ms].
    + destruct (send_closed c); [|done]. injection Hx as <-. by apply Hret.
    + injection Hx as <-. unfold child_message. destruct (processResponse _ m i') as [[s results]|w|w]; by apply alter_view.
  - intros [= <-]. unfold try_child. repeat case_match; try done. by apply alter_view.
  - rewrite bind_Some_iff. intros (c & Hc & Hx). destruct (room h c); [|done]. injection Hx as <-. by apply alter_view.
  - destruct (forallb is_gone (sv_children st)); [|done]. by intros [= <-].
Qed.

(** What a child's step adds to what its handler has taken and said. *)
Definition taken_by (c : Child) (e : ChildEvent) : list ClientMsg := match e with Takes => option_list (head (ch_recv c)) | _ => [] end.
Definition said_by (e : ChildEvent) : list ServerMsg := match e with Says m => [m] | _ => [] end.
Definition phase_after (p : ChildPhase) (e : ChildEvent) : ChildPhase :=
  match e with Takes | Says _ => p | Returns _ => Returned | Closes => Closed | Leaves => Gone end.

Lemma child_step_view c e c' : child_step c e = Some c' ->
  handler_view c' = (phase_after (ch_phase c) e, ch_got c ++ taken_by c e, ch_said c ++ said_by e).
Proof.
  unfold child_step, handler_view. destruct c as [[] cn recv send got said], e; cbn; try done.
  - destruct recv as [|m recv]; [done|]. intros [= <-]. cbn. by rewrite app_nil_r.
  - case_match; [|done]. intros [= <-]. cbn. by rewrite app_nil_r.
  - intros [= <-]. cbn. by rewrite !app_nil_r.
  - intros [= <-]. cbn. by rewrite !app_nil_r.
  - intros [= <-]. cbn. by rewrite !app_nil_r.
Qed.

Lemma view_lookup (l l' : list Child) (i : nat) c : handler_view <$> l' = handler_view <$> l -> l !! i = Some c ->
  exists c', l' !! i = Some c' /\ handler_view c' = handler_view c.
Proof.
  intros Heq Hi. assert (Hv : (handler_view <$> l') !! i = Some (handler_view c)) by (by rewrite Heq, list_lookup_fmap, Hi).
  rewrite list_lookup_fmap in Hv. by apply fmap_Some in Hv as (c' & ? & ->); eauto.
Qed.

(** ** The parts *)

(** A storage call: the connection whose handler made it, its environment, its
    message and what it sent. *)
Record StorageCall : Type := mkStorageCall {
  sc_conn : nat;
  sc_call : SendEnv * ClientMsg;
  sc_out : list ServerMsg
}.

(** The calls of connection [k]. *)
Definition calls_of (k : nat) (log : list StorageCall) : list StorageCall := filter (fun c => sc_conn c = k) log.

(** The messages the router handler of an id has worked on. *)
Definition turned (id : string) (hes : list HubEvent) : list ClientMsg :=
  omap (fun e => match e with Turn id' (InMsg m _) => if String.eqb id' id then Some m else None | _ => None end) hes.

(** What goes to a channel. *)
Definition to_channel (k : nat) (out : list (nat * ServerMsg)) : list ServerMsg :=
  omap (fun x => if (fst x =? k)%nat then Some (snd x) else None) out.

Section Parts.

Context {S : Type} `{StorageOps S} (mh : mergeHandler) (sh : storageHandler).
Notation Conn := (@Conn S).
Notation Stack := (@Stack S).
Implicit Types (cn : Conn) (sk : Stack).

(** What the handler of child [i] has seen of its connection. *)
Definition sees cn (i : nat) (v : ChildPhase * list ClientMsg * list ServerMsg) : Prop :=
  exists c, child_of cn i = Some c /\ handler_view c = v.

(** A step of a connection's merge handler, seen by the handler of child [i]. *)
Lemma conn_serve_view cn e cn' i c : conn_serve mh cn e = Some cn' -> child_of cn i = Some c ->
  sees cn' i match e with
    | OfChild j e => if decide (j = i) then (phase_after (ch_phase c) e, ch_got c ++ taken_by c e, ch_said c ++ said_by e)
                     else handler_view c
    | _ => handler_view c
    end.
Proof.
  unfold conn_serve, sees, child_of. intros (st & Hs & ->)%fmap_Some Hc. cbn.
  destruct e as [j e| |e]; cbn [serve_step] in Hs.
  - apply bind_Some_iff in Hs as (cj & Hcj & Hs). apply bind_Some_iff in Hs as (c' & Hstep & [= <-]). cbn.
    destruct (decide (j = i)) as [->|Hne]; [|rewrite list_lookup_insert_ne by done; eauto].
    rewrite list_lookup_insert_eq by (by eapply lookup_lt_Some). exists c'. split; [done|].
    assert (cj = c) as -> by congruence. by apply child_step_view.
  - injection Hs as <-. eauto.
  - by apply loop_step_view, view_lookup with (2 := Hc) in Hs.
Qed.

Lemma conn_serve_same cn e cn' : conn_serve mh cn e = Some cn' -> cn_storage cn' = cn_storage cn /\ cn_router cn' = cn_router cn.
Proof. unfold conn_serve. by intros (st & _ & ->)%fmap_Some. Qed.

(** The other handler sees nothing; a step that is not of a child nobody does. *)
Lemma serve_other cn e cn' i v : conn_serve mh cn e = Some cn' -> (forall a, e <> OfChild i a) -> sees cn i v -> sees cn' i v.
Proof.
  intros He Hi (c & Hc & <-). pose proof (conn_serve_view _ _ _ i c He Hc) as Hv. destruct e as [j e| |e]; [|done..].
  case_decide as Hd; [subst; by destruct (Hi e)|done].
Qed.

Lemma serve_says cn m cn' i p g s : conn_serve mh cn (OfChild i (Says m)) = Some cn' -> sees cn i (p, g, s) -> sees cn' i (p, g, s ++ [m]).
Proof.
  intros He (c & Hc & [= <- <- <-]). pose proof (conn_serve_view _ _ _ i c He Hc) as Hv. cbv beta iota in Hv; rewrite decide_True in Hv by done.
  cbn in Hv. by rewrite app_nil_r in Hv.
Qed.

Lemma serve_takes cn cn' i c m r p g s : conn_serve mh cn (OfChild i Takes) = Some cn' -> child_of cn i = Some c -> ch_recv c = m :: r ->
  sees cn i (p, g, s) -> sees cn' i (p, g ++ [m], s).
Proof.
  intros He Hc Hr (c0 & Hc0 & [= <- <- <-]). assert (c0 = c) as -> by congruence.
  pose proof (conn_serve_view _ _ _ i c He Hc) as Hv. cbv beta iota in Hv; rewrite decide_True in Hv by done. cbn in Hv. by rewrite Hr, app_nil_r in Hv.
Qed.

(** A child leaves its handler, and what it has taken and said stays. *)
Lemma serve_leaves cn cn' i a p g s : conn_serve mh cn (OfChild i a) = Some cn' -> said_by a = [] -> (forall c, taken_by c a = []) ->
  sees cn i (p, g, s) -> exists p', sees cn' i (p', g, s).
Proof.
  intros He Hs Ht (c & Hc & [= <- <- <-]). pose proof (conn_serve_view _ _ _ i c He Hc) as Hv. cbv beta iota in Hv; rewrite decide_True in Hv by done.
  rewrite Hs, Ht, !app_nil_r in Hv. by eexists.
Qed.

Lemma serve_running cn cn' i a g s : conn_serve mh cn (OfChild i a) = Some cn' -> sees cn i (Running, g, s) -> a = Closes \/ a = Leaves -> False.
Proof.
  unfold conn_serve. intros (st & Hs & _)%fmap_Some (c & Hc & Hv) Ha. cbn [serve_step] in Hs. apply bind_Some_iff in Hs as (c' & Hc' & Hs).
  assert (c' = c) as -> by (unfold child_of in Hc; congruence). injection Hv as Hp _ _. apply bind_Some_iff in Hs as (c'' & Hst & _). unfold child_step in Hst. rewrite Hp in Hst. by destruct Ha as [-> | ->].
Qed.

Lemma sees_unique cn i v v' : sees cn i v -> sees cn i v' -> v = v'.
Proof. intros (c & Hc & <-) (c' & Hc' & <-). congruence. Qed.

Lemma serve_snoc ses st st' st2 e : serve_run mh st ses = Some st' -> serve_step mh st' e = Some st2 -> serve_run mh st (ses ++ [e]) = Some st2.
Proof.
  revert st. induction ses as [|e0 ses IH]; intros st; cbn [serve_run app]; [intros [= ->] ->; done|].
  rewrite !bind_Some_iff. intros (st1 & H1 & H2) He. exists st1. auto.
Qed.

Definition reached_serve cn : Prop := exists ses, serve_run mh (serve_start mh) ses = Some (cn_serve cn).

Lemma conn_serve_reached cn e cn' : reached_serve cn -> conn_serve mh cn e = Some cn' -> reached_serve cn'.
Proof.
  intros [ses Hr]. unfold conn_serve. intros (st & Hs & ->)%fmap_Some. exists (ses ++ [e]). by eapply serve_snoc.
Qed.

(** The storage handler of connection [k]: it is fed by its channel and handles in
    order, and what it has said and has still to say is what its calls sent. *)
Record storage_part (log : list StorageCall) (k : nat) cn : Prop := {
  sp_order : in_order (cn_storage cn);
  sp_child : exists p, sees cn 0 (p, d_received (cn_storage cn), d_sent (cn_storage cn));
  sp_handled : d_handled (cn_storage cn) = sc_call <$> calls_of k log;
  sp_out : d_sent (cn_storage cn) ++ d_outgoing (cn_storage cn) = concat (sc_out <$> calls_of k log)
}.

(** A broadcast under way: its handler is at its place in the loop, it has tried and
    has yet to try what [Broadcast] would, and has sent what [Broadcast] would have. *)
Record sending_part (r : Router) (p : RouterAt) (sd : Sending) : Prop := {
  sg_position : p = ToBroadcast (sd_event sd);
  sg_attempts : (sd_done sd).*1 ++ sd_todo sd = attempts (found sd) r (sd_event sd);
  sg_sent : sd_sent sd = delivered (found sd) r (sd_event sd) (sd_done sd).*1
}.

(** What a handler has in hand fits its place in the loop. *)
Definition hands_part (r : Router) (p : RouterAt) (hand : option ClientMsg) (sending : option Sending) : Prop :=
  match hand, sending with
  | None, None => True
  | Some _, None => p = AtSelect
  | None, Some sd => sending_part r p sd
  | Some _, Some _ => False
  end.

(** Its router handler: what it has taken it has worked on, but for the message in
    hand; while it is registered its channel is open. *)
Definition router_part (hes : list HubEvent) (w : Hub) (k : nat) cn : Prop :=
  match cn_router cn with
  | Entering => sees cn 1 (Running, [], [])
  | Serving id hand sending => (exists p, w_handlers w !! id = Some (k, p) /\ hands_part (w_router w) p hand sending) /\
      exists said, sees cn 1 (Running, turned id hes ++ option_list hand, said)
  | Left => exists v, sees cn 1 v
  end.

(** The id under which a connection is registered, and its broadcast. *)
Definition thread_id cn : option string := match cn_router cn with Serving id _ _ => Some id | _ => None end.
Definition sending_of cn : option Sending := match cn_router cn with Serving _ _ sd => sd | _ => None end.

(** What broadcasts under way have sent. *)
Definition sent_of cn : list (nat * ServerMsg) := match sending_of cn with Some sd => sd_sent sd | None => [] end.
Definition in_flight sk : list (nat * ServerMsg) := concat (sent_of <$> sk_conns sk).

Record parts (s0 : S) (reg : bool) (n : nat) sk (hes : list HubEvent) (outs : list (nat * ServerMsg)) (log : list StorageCall)
    (t : RouterTable) : Prop := {
  pt_hub : hub_run (new_hub reg) hes = Some (sk_hub sk, outs);
  pt_table : hub_inv hes (sk_hub sk) t;
  pt_count : (connects hes <= n)%nat;
  pt_names : forall id i, Turn id i ∈ hes -> exists j, (j <= connects hes)%nat /\ id = conn_name j;
  pt_storage : serve_all sh s0 (sc_call <$> log) = (sk_storage sk, sc_out <$> log);
  pt_log : forall c, c ∈ log -> (sc_conn c < length (sk_conns sk))%nat;
  pt_outs : forall x, x ∈ outs -> (x.1 < length (sk_conns sk))%nat;
  pt_conns : forall k cn, sk_conns sk !! k = Some cn ->
    reached_serve cn /\ storage_part log k cn /\ router_part hes (sk_hub sk) k cn;
  pt_said : forall k cn p g said, sk_conns sk !! k = Some cn -> sees cn 1 (p, g, said) ->
    said ≡ₚ to_channel k outs ++ to_channel k (in_flight sk);
  pt_handlers : forall id k p, w_handlers (sk_hub sk) !! id = Some (k, p) ->
    exists cn, sk_conns sk !! k = Some cn /\ thread_id cn = Some id;
  pt_flights : forall x, x ∈ in_flight sk -> (x.1 < length (sk_conns sk))%nat;
  pt_panic : sk_panic sk = false
}.

(** ** One step *)

Lemma to_channel_app k l1 l2 : to_channel k (l1 ++ l2) = to_channel k l1 ++ to_channel k l2.
Proof. apply omap_app. Qed.

Lemma to_channel_perm k l1 l2 : l1 ≡ₚ l2 -> to_channel k l1 ≡ₚ to_channel k l2.
Proof. intros Hl. unfold to_channel. by rewrite Hl. Qed.

Lemma turned_app id l1 l2 : turned id (l1 ++ l2) = turned id l1 ++ turned id l2.
Proof. apply omap_app. Qed.

Lemma calls_of_app k l1 l2 : calls_of k (l1 ++ l2) = calls_of k l1 ++ calls_of k l2.
Proof. apply filter_app. Qed.

(** What is in flight when connection [k] is put aside. *)
Lemma in_flight_set sk k cn : sk_conns sk !! k = Some cn -> exists rest,
  in_flight sk ≡ₚ sent_of cn ++ rest /\ forall cn', in_flight (set_conn sk k cn') ≡ₚ sent_of cn' ++ rest.
Proof.
  intros Hk. exists (concat (sent_of <$> take k (sk_conns sk)) ++ concat (sent_of <$> drop (Datatypes.S k) (sk_conns sk))).
  unfold in_flight. cbn [set_conn sk_conns]. split.
  - rewrite <-(take_drop_middle _ _ _ Hk) at 1. rewrite fmap_app, concat_app. cbn. solve_Permutation.
  - intros cn'. rewrite insert_take_drop by (by eapply lookup_lt_Some). rewrite fmap_app, concat_app. cbn. solve_Permutation.
Qed.

Lemma in_flight_same sk k cn cn' : sk_conns sk !! k = Some cn -> sent_of cn' = sent_of cn ->
  in_flight (set_conn sk k cn') = in_flight sk.
Proof.
  intros Hk Hd. unfold in_flight. cbn. by rewrite list_fmap_insert, list_insert_id by (by rewrite list_lookup_fmap, Hk, Hd).
Qed.

(** While the router is not locked nobody broadcasts. *)
Lemma unlocked sk : read_locked sk = false -> forall k cn, sk_conns sk !! k = Some cn -> sending_of cn = None.
Proof.
  unfold read_locked. intros Hl k cn Hk. destruct (sending_of cn) as [sd|] eqn:E; [|done].
  assert (existsb broadcasting (sk_conns sk) = true); [|congruence]. apply existsb_exists. exists cn.
  split; [by eapply list_elem_of_In, list_elem_of_lookup_2|]. unfold sending_of in E. unfold broadcasting. by destruct (cn_router cn) as [|? ? []|].
Qed.

(** A broadcast does not notice a router that changes in its counters alone. *)
Lemma sending_part_same r r' p sd : connections r' = connections r -> sending_part r p sd -> sending_part r' p sd.
Proof.
  intros Hr [H1 H2 H3]. constructor; [done| |].
  - rewrite H2. unfold attempts, conn_attempts. by rewrite Hr.
  - rewrite H3. unfold delivered, delivery, channel_of. by rewrite Hr.
Qed.

Lemma hands_part_same r r' p hand sending : connections r' = connections r \/ sending = None ->
  hands_part r p hand sending -> hands_part r' p hand sending.
Proof. intros [Hr| ->]; [destruct hand, sending|destruct hand]; cbn; try done. by apply sending_part_same. Qed.

(** A step of connection [k] that leaves the router alone. *)
Lemma parts_local s0 reg n sk hes outs log t k cn cn' s' log' : parts s0 reg n sk hes outs log t -> sk_conns sk !! k = Some cn ->
  serve_all sh s0 (sc_call <$> log') = (s', sc_out <$> log') ->
  (forall c, c ∈ log' -> (sc_conn c < length (sk_conns sk))%nat) -> (forall j, j <> k -> calls_of j log' = calls_of j log) ->
  reached_serve cn' -> storage_part log' k cn' -> router_part hes (sk_hub sk) k cn' ->
  thread_id cn' = thread_id cn -> sent_of cn' = sent_of cn ->
  (forall p g said, sees cn' 1 (p, g, said) -> exists p0 g0, sees cn 1 (p0, g0, said)) ->
  parts s0 reg n (set_conn (set_storage sk s') k cn') hes outs log' t.
Proof.
  intros [P1 P2 P3 P4 P5 P6 P7 P8 P9 P10 P11 P12] Hk Hs Hlog Hcalls Hr Hst Hrt Hid Hdel Hsaid.
  assert (Hund : in_flight (set_conn (set_storage sk s') k cn') = in_flight sk) by (by apply (in_flight_same (set_storage sk s') k cn)).
  assert (Hlook : forall j cnj, <[k := cn']> (sk_conns sk) !! j = Some cnj ->
    (j = k /\ cnj = cn') \/ (j <> k /\ sk_conns sk !! j = Some cnj)).
  { intros j cnj. destruct (decide (j = k)) as [->|Hne]; [|by rewrite list_lookup_insert_ne by done; right].
    rewrite list_lookup_insert_eq by (by eapply lookup_lt_Some). intros [= <-]. by left. }
  assert (Hid' : forall j cnj, sk_conns sk !! j = Some cnj -> exists cnj', <[k := cn']> (sk_conns sk) !! j = Some cnj' /\ thread_id cnj' = thread_id cnj).
  { intros j cnj Hj. destruct (decide (j = k)) as [->|Hne]; [|rewrite list_lookup_insert_ne by done; eauto].
    rewrite list_lookup_insert_eq by (by eapply lookup_lt_Some). exists cn'. by assert (cnj = cn) as -> by congruence. }
  constructor; rewrite ?Hund; cbn [set_conn set_storage sk_conns sk_hub sk_storage sk_panic]; rewrite ?length_insert; try done.
  - intros j cnj [[-> ->]|[Hne Hj]]%Hlook; [done|]. destruct (P8 j cnj Hj) as (H1 & [S1 S2 S3 S4] & H3). split_and!; [done| |done].
    constructor; [done..| |]; by rewrite Hcalls.
  - intros j cnj p g said [[-> ->]|[Hne Hj]]%Hlook; [|by apply P9]. intros (p0 & g0 & Hsee)%Hsaid. by eapply P9.
  - intros id j p Hh. destruct (P10 id j p Hh) as (cnj & Hj & Hi). destruct (Hid' j cnj Hj) as (cnj' & ? & ?). exists cnj'. by split; [|congruence].
Qed.

(** The calls of a log with one more. *)
Lemma serve_all_snoc s calls env msg s1 outs s2 out x : serve_all sh s calls = (s1, outs) -> storage_handle sh env s1 msg = (s2, out, x) ->
  serve_all sh s (calls ++ [(env, msg)]) = (s2, outs ++ [out]).
Proof.
  revert s outs. induction calls as [|[env' msg'] calls IH]; intros s outs; cbn [serve_all app].
  - intros [= -> <-] Hh. by rewrite Hh.
  - destruct (storage_handle sh env' s msg') as [[s' out'] x']. destruct (serve_all sh s' calls) as [s'' outs''] eqn:E. intros [= -> <-] Hh.
    by rewrite (IH s' outs'' E Hh).
Qed.

Lemma calls_of_own k log call out : calls_of k (log ++ [mkStorageCall k call out]) = calls_of k log ++ [mkStorageCall k call out].
Proof. rewrite calls_of_app. f_equal. unfold calls_of. by rewrite filter_cons_True. Qed.

Lemma calls_of_other j k log call out : j <> k -> calls_of j (log ++ [mkStorageCall k call out]) = calls_of j log.
Proof. intros Hne. rewrite calls_of_app. unfold calls_of at 2. rewrite filter_cons_False by (cbn; congruence). by rewrite filter_nil, app_nil_r. Qed.

(** A step of the receive queue and the main loop of the storage handler; the
    merge handler's side of it has been made. *)
Lemma drain_parts log s k cn d e s' cn' : storage_drain sh s cn e = Some (s', cn') ->
  d = cn_storage cn -> in_order d -> d_handled d = sc_call <$> calls_of k log ->
  d_sent d ++ d_outgoing d = concat (sc_out <$> calls_of k log) ->
  (exists p, sees cn 0 (p, d_received d ++ received_by e,
     d_sent d ++ match e with MainSend => option_list (List.hd_error (d_outgoing d)) | _ => [] end)) ->
  cn_serve cn' = cn_serve cn /\ cn_router cn' = cn_router cn /\
  exists new, storage_part (log ++ new) k cn' /\ (forall c, c ∈ new -> sc_conn c = k) /\
    (forall j, j <> k -> calls_of j (log ++ new) = calls_of j log) /\
    (forall s0, serve_all sh s0 (sc_call <$> log) = (s, sc_out <$> log) ->
      serve_all sh s0 (sc_call <$> (log ++ new)) = (s', sc_out <$> (log ++ new))).
Proof.
  unfold storage_drain. intros (d' & Hd & [= -> ->])%fmap_Some -> Ho Hh Hout (p & Hsee). cbn [cn_serve cn_router]. split_and!; [done..|].
  destruct (drain_step_log _ _ _ _ Hd Ho) as (Ho' & Hr & Hs & Hcase). cbn [with_state d_received d_sent d_outgoing d_state d_handled] in *.
  assert (Hhead : forall l : list ServerMsg, List.hd_error l = head l) by (by intros []).
  assert (Hchild : exists p, sees (mkConn (cn_serve cn) d' (cn_router cn)) 0 (p, d_received d', d_sent d')).
  { exists p. rewrite Hr, Hs. destruct e; by rewrite ?Hhead in Hsee. }
  destruct e as [|m| | | |env| | |].
  6: { destruct Hcase as (msg & out & x & Hhandle & Hhd & Hso). exists [mkStorageCall k (env, msg) out].
    split_and!.
    - constructor; cbn [cn_storage]; [done|done|by rewrite Hhd, Hh, calls_of_own, fmap_app|].
      rewrite Hso, Hout, calls_of_own, fmap_app, concat_app. cbn. by rewrite app_nil_r.
    - by intros c ->%list_elem_of_singleton.
    - intros j Hj. by apply calls_of_other.
    - intros s0 Hs0. rewrite !fmap_app. cbn. by eapply serve_all_snoc. }
  all: destruct Hcase as (Hst & Hhd & Hso); exists []; rewrite app_nil_r; split_and!; try done;
    [constructor; cbn [cn_storage]; congruence|by intros c ?%not_elem_of_nil|by rewrite Hst].
Qed.

Lemma sees_serve cn cn' i v : cn_serve cn' = cn_serve cn -> sees cn i v -> sees cn' i v.
Proof. unfold sees, child_of. by intros ->. Qed.

Lemma router_part_sees hes w k cn : router_part hes w k cn -> exists v, sees cn 1 v.
Proof. unfold router_part. destruct (cn_router cn); [eauto|intros (_ & said & ?); eauto|done]. Qed.

Lemma router_part_mono hes w k cn cn' : router_part hes w k cn -> cn_router cn' = cn_router cn ->
  (forall v, sees cn 1 v -> sees cn' 1 v) -> router_part hes w k cn'.
Proof.
  unfold router_part. intros Hr -> Hs. destruct (cn_router cn) as [|id hand out|]; [by apply Hs| |].
  - destruct Hr as [Hp [said Hsaid]]. eauto.
  - destruct Hr as [v Hv]. eauto.
Qed.

(** What a handler has said, read backwards. *)
Lemma said_back cn cn' : (exists v, sees cn 1 v) -> (forall p g s, sees cn 1 (p, g, s) -> exists p' g', sees cn' 1 (p', g', s)) ->
  forall p g said, sees cn' 1 (p, g, said) -> exists p0 g0, sees cn 1 (p0, g0, said).
Proof.
  intros [[[p0 g0] s0] Hv] Hmono p g said Hsee. destruct (Hmono p0 g0 s0 Hv) as (p' & g' & Hv').
  pose proof (sees_unique _ _ _ _ Hsee Hv') as [= _ _ ->]. eauto.
Qed.

(** A step of connection [k] whose router handler sees nothing of it. *)
Lemma parts_unseen s0 reg n sk hes outs log t k cn cn' s' log' : parts s0 reg n sk hes outs log t -> sk_conns sk !! k = Some cn ->
  serve_all sh s0 (sc_call <$> log') = (s', sc_out <$> log') ->
  (forall c, c ∈ log' -> (sc_conn c < length (sk_conns sk))%nat) -> (forall j, j <> k -> calls_of j log' = calls_of j log) ->
  reached_serve cn' -> storage_part log' k cn' -> cn_router cn' = cn_router cn -> (forall v, sees cn 1 v -> sees cn' 1 v) ->
  parts s0 reg n (set_conn (set_storage sk s') k cn') hes outs log' t.
Proof.
  intros HP Hk Hs Hlog Hcalls Hr Hst Hrt Hsee. destruct (pt_conns _ _ _ _ _ _ _ _ HP k cn Hk) as (_ & _ & Hrp).
  eapply parts_local; try done.
  - by eapply router_part_mono.
  - unfold thread_id. by rewrite Hrt.
  - unfold sent_of, sending_of. by rewrite Hrt.
  - apply said_back; [by eapply router_part_sees|]. intros p g s Hp%Hsee. eauto.
Qed.

Lemma reached_same cn cn' : cn_serve cn' = cn_serve cn -> reached_serve cn -> reached_serve cn'.
Proof. unfold reached_serve. by intros ->. Qed.

Lemma storage_act_parts s0 reg n sk hes outs log t k cn a s' cn' : parts s0 reg n sk hes outs log t -> sk_conns sk !! k = Some cn ->
  storage_act mh sh (sk_storage sk) cn a = Some (s', cn') ->
  exists log', parts s0 reg n (set_conn (set_storage sk s') k cn') hes outs log' t.
Proof.
  intros HP Hk Ha. destruct (pt_conns _ _ _ _ _ _ _ _ HP k cn Hk) as (Hreach & [Ho [p0 Hsee] Hh Hout] & Hrp).
  assert (Hlt : (k < length (sk_conns sk))%nat) by (by eapply lookup_lt_Some).
  (* a step of the queue or the loop, after the merge handler's *)
  assert (Hdrain : forall e cn1, storage_drain sh (sk_storage sk) cn1 e = Some (s', cn') -> cn_storage cn1 = cn_storage cn ->
    cn_router cn1 = cn_router cn -> reached_serve cn1 -> (forall v, sees cn 1 v -> sees cn1 1 v) ->
    sees cn1 0 (p0, d_received (cn_storage cn) ++ received_by e,
      d_sent (cn_storage cn) ++ match e with MainSend => option_list (List.hd_error (d_outgoing (cn_storage cn))) | _ => [] end) ->
    exists log', parts s0 reg n (set_conn (set_storage sk s') k cn') hes outs log' t).
  { intros e cn1 Hd Hst1 Hrt1 Hreach1 Hsee1 Hsees.
    destruct (drain_parts log (sk_storage sk) k cn1 (cn_storage cn1) e s' cn' Hd) as (Hserve & Hrt & new & Hsp & Hnew & Hcalls & Hall);
      rewrite ?Hst1; try done; [by exists p0|].
    exists (log ++ new). apply (parts_unseen s0 reg n sk hes outs log t k cn); try done.
    - apply Hall. apply (pt_storage _ _ _ _ _ _ _ _ HP).
    - intros c [Hc|Hc]%elem_of_app; [by apply (pt_log _ _ _ _ _ _ _ _ HP)|by rewrite (Hnew c Hc)].
    - by apply (reached_same cn1).
    - congruence.
    - intros v Hv. apply (sees_serve cn1); [done|by apply Hsee1]. }
  assert (Hquiet : forall e, received_by e = [] -> e <> MainSend -> storage_drain sh (sk_storage sk) cn e = Some (s', cn') ->
    exists log', parts s0 reg n (set_conn (set_storage sk s') k cn') hes outs log' t).
  { intros e He1 He2 Hd. apply (Hdrain e cn); try done. rewrite He1. by destruct e; try done; rewrite !app_nil_r. }
  destruct a as [| | |env| | | |]; cbn [storage_act] in Ha.
  - apply bind_Some_iff in Ha as (c & Hc & Ha). destruct (ch_recv c) as [|m r] eqn:Hm; [done|].
    apply bind_Some_iff in Ha as (cn1 & H1 & Ha). destruct (conn_serve_same _ _ _ H1) as [E1 E2].
    apply (Hdrain (DrainRecv m) cn1); try done; [by eapply conn_serve_reached| |].
    + intros v. by eapply serve_other.
    + rewrite app_nil_r. by eapply serve_takes.
  - by apply (Hquiet DrainPut).
  - by apply (Hquiet DrainStop).
  - by apply (Hquiet (MainTake env)).
  - destruct (d_outgoing (cn_storage cn)) as [|m out] eqn:Hm; [done|].
    apply bind_Some_iff in Ha as (cn1 & H1 & Ha). destruct (conn_serve_same _ _ _ H1) as [E1 E2].
    apply (Hdrain MainSend cn1); try done; [by eapply conn_serve_reached| |].
    + intros v. by eapply serve_other.
    + cbn. rewrite app_nil_r. by eapply serve_says.
  - destruct (_ && _); [|done]. by apply (Hquiet CtxCancel).
  - by apply (Hquiet MainCtx).
  - apply bind_Some_iff in Ha as (x & Hx & Ha). apply bind_Some_iff in Ha as (cn1 & H1 & [= <- <-]).
    destruct (conn_serve_same _ _ _ H1) as [E1 E2]. exists log. apply (parts_unseen s0 reg n sk hes outs log t k cn); try done.
    + apply (pt_storage _ _ _ _ _ _ _ _ HP).
    + apply (pt_log _ _ _ _ _ _ _ _ HP).
    + by eapply conn_serve_reached.
    + destruct (serve_leaves _ _ _ _ _ _ _ H1 eq_refl (fun _ => eq_refl) Hsee) as [p' Hp']. constructor; rewrite ?E1; eauto.
    + intros v. by eapply serve_other.
Qed.

(** ** The router handlers *)

(** What a handler does with a message changes the router only if it is a REQ or a
    CLOSE. *)
Lemma router_take_connections id r m cut : writes_router m = false -> (router_take id r (InMsg m cut)).1.1 = r.
Proof.
  unfold writes_router. rewrite orb_false_iff. intros [H1 H2]. cbn [router_take].
  destruct (String.eqb (c_Type m) MsgTypeEvent); [by case_match|]. rewrite H1, H2. by case_match.
Qed.

Lemma Broadcast_connections env r ev : connections (Broadcast env r ev).1 = connections r.
Proof. by rewrite Broadcast_eq. Qed.

(** What a step does to the handlers. *)
Lemma hub_step_handlers w e w' out hes t : hub_step w e = Some (w', out) -> hub_inv hes w t ->
  Z.of_nat (Datatypes.S (connects hes)) < two64 -> exists id,
  (forall id', id' <> id -> w_handlers w' !! id' = w_handlers w !! id') /\
  match e with
  | Connect k => w_handlers w !! id = None /\ w_handlers w' !! id = Some (k, AtSelect) /\ out = [] /\
      (Register (w_router w) k).2 = Ok id /\ id = conn_name (Datatypes.S (connects hes))
  | Turn id' i => id = id' /\ (match i with InMsg m _ => writes_router m = false | _ => True end -> w_router w' = w_router w) /\
      exists k p, w_handlers w !! id = Some (k, AtSelect) /\ w_handlers w' !! id = Some (k, p) /\ Forall (fun x => x.1 = k) out
  | Go id' env _ => id = id' /\ connections (w_router w') = connections (w_router w) /\
      exists k p p', w_handlers w !! id = Some (k, p) /\ w_handlers w' !! id = Some (k, p') /\
      match p with
      | ToBroadcast ev => out = delivered env (w_router w) ev (attempts env (w_router w) ev)
      | _ => Forall (fun x => x.1 = k) out
      end
  | Leave id' => id = id' /\ (exists k, w_handlers w !! id = Some (k, AtExit)) /\ w_handlers w' !! id = None /\ out = []
  end.
Proof.
  intros Hs [Hrep Hh Ho Hc He] Hlt.
  assert (Hpair : forall (k : nat) (l : list ServerMsg), Forall (fun x => x.1 = k) (pair k <$> l)).
  { intros k l. apply Forall_fmap, Forall_forall. by intros m _. }
  destruct e as [k|id i|id env cut|id]; cbn [hub_step] in *.
  - destruct (Register_represents (w_router w) t k Hrep) as (r' & Heq & Hrep'); [by rewrite Hc|]. rewrite Heq in *.
    injection Hs as <- <-. cbn [w_handlers].
    exists (conn_name (Datatypes.S (connects hes))). rewrite Hc in *. split; [intros id' Hne; by rewrite lookup_insert_ne|]. split_and!; [|by rewrite lookup_insert_eq|done|done|done].
    apply eq_None_not_Some. intros [[k' p] Hx]. assert (Hsome : is_Some (rt_conns t !! conn_name (Datatypes.S (connects hes)))) by (rewrite Hh, Hx; by eexists).
    apply (rep_conns_some _ _ _ Hrep), (rep_names _ _ Hrep) in Hsome as (j & Hj & ?%conn_name_inj). lia.
  - destruct (w_handlers w !! id) as [[k []]|] eqn:Hw; try done.
    assert (Hr : match i with InMsg m _ => writes_router m = false | _ => True end -> (router_take id (w_router w) i).1.1 = w_router w)
      by (destruct i; [done..|apply router_take_connections]).
    destruct (router_take id (w_router w) i) as [[r sent] p].
    injection Hs as <- <-. cbn [w_handlers w_router]. exists id. split; [intros id' Hne; by rewrite lookup_insert_ne|].
    split; [done|]. split; [done|]. exists k, p. rewrite lookup_insert_eq. by split_and!.
  - destruct (w_handlers w !! id) as [[k p]|] eqn:Hw; [|done]. exists id.
    destruct p as [|ev|m|]; try done; cbn [router_go] in Hs.
    + pose proof (Broadcast_eq env (w_router w) ev) as Hb. destruct (Broadcast env (w_router w) ev) as [r o]. injection Hs as <- <-.
      injection Hb as -> ->. cbn [w_handlers w_router]. split; [intros id' Hne; by rewrite lookup_insert_ne|]. split_and!; [done..|].
      exists k, (ToBroadcast ev), AtSelect. by rewrite lookup_insert_eq.
    + injection Hs as <- <-. cbn [w_handlers w_router]. split; [intros id' Hne; by rewrite lookup_insert_ne|]. split_and!; [done..|].
      exists k, (ToSend m), (after_send (send_or_exit cut m) AtSelect).2. rewrite lookup_insert_eq, app_nil_r. by split_and!.
  - destruct (w_handlers w !! id) as [[k []]|] eqn:Hw; try done. injection Hs as <- <-. cbn [w_handlers]. exists id.
    split; [intros id' Hne; by rewrite lookup_delete_ne|]. rewrite lookup_delete_eq. eauto.
Qed.

(** The handlers connection [k] alone may be registered under: none or [id]. *)
Definition owns cn (id : string) : Prop := thread_id cn = None \/ thread_id cn = Some id.

Lemma hub_run_snoc w hes w1 outs e w' out : hub_run w hes = Some (w1, outs) -> hub_step w1 e = Some (w', out) ->
  hub_run w (hes ++ [e]) = Some (w', outs ++ out).
Proof. intros Hr Hs. rewrite hub_run_app, Hr. cbn. by rewrite Hs, app_nil_r. Qed.

(** A step of the hub made by connection [k] under [id]. *)
Lemma parts_hub s0 reg n sk hes outs log t k cn cn' e id w' out : parts s0 reg n sk hes outs log t -> sk_conns sk !! k = Some cn ->
  Z.of_nat (Datatypes.S n) < two64 -> hub_step (sk_hub sk) e = Some (w', out) ->
  owns cn id -> (forall j p, w_handlers (sk_hub sk) !! id = Some (j, p) -> j = k) ->
  (forall id', id' <> id -> w_handlers w' !! id' = w_handlers (sk_hub sk) !! id') ->
  (forall j p, w_handlers w' !! id = Some (j, p) -> j = k /\ thread_id cn' = Some id) ->
  (forall id', id' <> id -> turned id' [e] = []) ->
  connections (w_router w') = connections (w_router (sk_hub sk)) \/ read_locked sk = false ->
  reached_serve cn' -> storage_part log k cn' -> router_part (hes ++ [e]) w' k cn' ->
  (forall j, j <> k -> to_channel j out ++ to_channel j (in_flight (set_conn sk k cn')) ≡ₚ to_channel j (in_flight sk)) ->
  (forall p g said, sees cn' 1 (p, g, said) ->
    said ≡ₚ (to_channel k outs ++ to_channel k out) ++ to_channel k (in_flight (set_conn sk k cn'))) ->
  (forall x, x ∈ out \/ x ∈ in_flight (set_conn sk k cn') -> (x.1 < length (sk_conns sk))%nat) ->
  parts s0 reg (Datatypes.S n) (set_conn (set_hub sk w') k cn') (hes ++ [e]) (outs ++ out) log (table_after (w_handlers (sk_hub sk)) t e).
Proof.
  intros [P1 P2 P3 P4 P5 P6 P7 P8 P9 P10 P11 P12] Hk Hn Hstep Hown Hjk Hother Hnew Hturned Hsame Hreach Hsp Hrp Hsaid Hsaidk Hbound.
  assert (Hcount : (connects (hes ++ [e]) <= Datatypes.S n)%nat) by (rewrite connects_snoc; destruct (is_connect e); lia).
  assert (Hlook : forall j cnj, <[k := cn']> (sk_conns sk) !! j = Some cnj ->
    (j = k /\ cnj = cn') \/ (j <> k /\ sk_conns sk !! j = Some cnj)).
  { intros j cnj. destruct (decide (j = k)) as [->|Hne]; [|by rewrite list_lookup_insert_ne by done; right].
    rewrite list_lookup_insert_eq by (by eapply lookup_lt_Some). intros [= <-]. by left. }
  assert (Hself : <[k := cn']> (sk_conns sk) !! k = Some cn') by (apply list_lookup_insert_eq; by eapply lookup_lt_Some).
  constructor; change (in_flight (set_conn (set_hub sk w') k cn')) with (in_flight (set_conn sk k cn'));
    cbn [set_conn set_hub sk_conns sk_hub sk_storage sk_panic]; rewrite ?length_insert; try done.
  - by eapply hub_run_snoc.
  - eapply hub_step_inv; [done| |done]. int_lia.
  - intros id' i [Hin|Hin]%elem_of_app.
    + destruct (P4 id' i Hin) as (j & Hj & ->). exists j. split; [|done]. rewrite connects_snoc. lia.
    + apply list_elem_of_singleton in Hin as <-. cbn [hub_step] in Hstep. destruct (w_handlers (sk_hub sk) !! id') as [[j p]|] eqn:Hw; [|done].
      assert (Hsome : is_Some (rt_conns t !! id')) by (rewrite (hi_handlers _ _ _ P2), Hw; by eexists).
      apply (rep_conns_some _ _ _ (hi_rep _ _ _ P2)), (rep_names _ _ (hi_rep _ _ _ P2)) in Hsome as (m & Hm & ->).
      exists m. split; [|done]. rewrite connects_snoc, <-(hi_count _ _ _ P2). lia.
  - intros x [Hx|Hx]%elem_of_app; [by apply P7|by apply Hbound; left].
  - intros j cnj [[-> ->]|[Hne Hj]]%Hlook; [done|]. destruct (P8 j cnj Hj) as (H1 & H2 & H3). split_and!; [done..|].
    assert (Hfree : connections (w_router w') = connections (w_router (sk_hub sk)) \/ sending_of cnj = None).
    { destruct Hsame as [?|Hl]; [by left|right; by eapply unlocked]. }
    unfold router_part, sending_of in *. destruct (cn_router cnj) as [|id' hand sd|]; [done| |done]. destruct H3 as [(p & Hp & Hh) [said Hs]].
    assert (id' <> id) by (intros ->; by apply Hne, (Hjk j p)). rewrite Hother, turned_app, Hturned, app_nil_r by done. split; [|eauto].
    exists p. split; [done|]. by eapply hands_part_same.
  - intros j cnj p g said [[-> ->]|[Hne Hj]]%Hlook Hs; [by rewrite to_channel_app; eapply Hsaidk|].
    rewrite (P9 j cnj p g said Hj Hs), to_channel_app, <-app_assoc. by rewrite (Hsaid j Hne).
  - intros id' j p Hw. destruct (decide (id' = id)) as [->|Hne].
    + destruct (Hnew j p Hw) as [-> Hi]. eauto.
    + rewrite Hother in Hw by done. destruct (P10 id' j p Hw) as (cnj & Hj & Hi). exists cnj. split; [|done].
      rewrite list_lookup_insert_ne; [done|]. intros <-. assert (cnj = cn) as -> by congruence. destruct Hown; congruence.
  - intros x Hx. apply Hbound. by right.
Qed.

(** The handler's own sends. *)
Lemma say_all_spec cn out cn' k : say_all mh cn out = Some cn' -> Forall (fun x => x.1 = k) out ->
  cn_storage cn' = cn_storage cn /\ cn_router cn' = cn_router cn /\ (reached_serve cn -> reached_serve cn') /\
  (forall v, sees cn 0 v -> sees cn' 0 v) /\
  (forall p g s, sees cn 1 (p, g, s) -> sees cn' 1 (p, g, s ++ to_channel k out)).
Proof.
  intros Hs Hk. revert cn Hs. induction Hk as [|[j m] out Hj _ IH]; intros cn; cbn [say_all].
  - intros [= ->]. split_and!; try done. intros p g s. by rewrite app_nil_r.
  - rewrite bind_Some_iff. intros (cn1 & H1 & H2). destruct (conn_serve_same _ _ _ H1) as [E1 E2].
    destruct (IH cn1 H2) as (F1 & F2 & F3 & F4 & F5). cbn in Hj. subst j. split_and!; [congruence..| | |].
    + intros Hr. apply F3. by eapply conn_serve_reached.
    + intros v Hv. apply F4. by eapply serve_other.
    + intros p g s Hv. cbn. rewrite Nat.eqb_refl. cbn. rewrite cons_middle, app_assoc. apply F5. by eapply serve_says.
Qed.

Lemma storage_part_same log k cn cn' : storage_part log k cn -> cn_storage cn' = cn_storage cn ->
  (forall v, sees cn 0 v -> sees cn' 0 v) -> storage_part log k cn'.
Proof. intros [H1 [p H2] H3 H4] E Hs. constructor; rewrite ?E; eauto. Qed.

Lemma to_channel_none j k out : Forall (fun x : nat * ServerMsg => x.1 = k) out -> j <> k -> to_channel j out = [].
Proof.
  intros Hk Hne. induction Hk as [|[i m] out Hi _ IH]; [done|]. cbn in *. subst i. by rewrite (proj2 (Nat.eqb_neq k j)) by done.
Qed.

Lemma turned_fresh s0 reg n sk hes outs log t : parts s0 reg n sk hes outs log t ->
  turned (conn_name (Datatypes.S (connects hes))) hes = [].
Proof.
  intros HP. pose proof (pt_names _ _ _ _ _ _ _ _ HP) as Hn. revert Hn. generalize (connects hes) as b. intros b Hn.
  assert (Hall : forall e, e ∈ hes -> turned (conn_name (Datatypes.S b)) [e] = []).
  { intros [k|id [| |m cut]|id env cut|id] He; try done. cbn. destruct (String.eqb_spec id (conn_name (Datatypes.S b))) as [->|]; [|done].
    destruct (Hn _ _ He) as (j & Hj & ?%conn_name_inj). lia. }
  clear Hn HP. induction hes as [|e hes IH]; [done|]. rewrite <-(app_nil_l (e :: hes)), cons_middle, app_nil_l, turned_app, Hall by (by left). apply IH. intros e' He'. apply Hall. by right.
Qed.

(** A step of the hub under the id of connection [k] in which its router handler
    says something itself and has nothing in hand after. *)
Lemma parts_own_send s0 reg n sk hes outs log t k cn cn1 e id hand w' out : parts s0 reg n sk hes outs log t ->
  sk_conns sk !! k = Some cn -> Z.of_nat (Datatypes.S n) < two64 -> cn_router cn = Serving id hand None ->
  hub_step (sk_hub sk) e = Some (w', out) -> (exists i, e = Turn id i) \/ (exists env cut, e = Go id env cut) ->
  connections (w_router w') = connections (w_router (sk_hub sk)) \/ read_locked sk = false ->
  Forall (fun x => x.1 = k) out -> say_all mh cn out = Some cn1 -> turned id [e] = option_list hand ->
  parts s0 reg (Datatypes.S n) (set_conn (set_hub sk w') k (set_thread cn1 (Serving id None None))) (hes ++ [e]) (outs ++ out) log
    (table_after (w_handlers (sk_hub sk)) t e).
Proof.
  intros HP Hk Hn Hrt Hstep He Hsame Hout Hsay Hhand. destruct (pt_conns _ _ _ _ _ _ _ _ HP k cn Hk) as (Hreach & Hsp & Hrp).
  unfold router_part in Hrp. rewrite Hrt in Hrp. destruct Hrp as [(p0 & Hw & _) [said0 Hsee]].
  destruct (say_all_spec cn out cn1 k Hsay Hout) as (E1 & E2 & E3 & E4 & E5).
  assert (Hund : in_flight (set_conn sk k (set_thread cn1 (Serving id None None))) = in_flight sk).
  { apply (in_flight_same sk k cn); [done|]. unfold sent_of, sending_of. by rewrite Hrt. }
  destruct (hub_step_handlers _ _ _ _ hes t Hstep (pt_table _ _ _ _ _ _ _ _ HP)) as (id' & Hother & Hcase).
  { pose proof (pt_count _ _ _ _ _ _ _ _ HP). int_lia. }
  assert (Hid : id' = id /\ exists p', w_handlers w' !! id = Some (k, p')).
  { destruct He as [[i ->]|(env & cut & ->)]; destruct Hcase as (-> & _ & Hcase); (split; [done|]).
    - destruct Hcase as (k' & p & Hw0 & Hw1 & _). assert (k' = k) as -> by congruence. eauto.
    - destruct Hcase as (k' & p & p' & Hw0 & Hw1 & _). assert (k' = k) as -> by congruence. eauto. }
  destruct Hid as [-> [p' Hw']].
  apply (parts_hub s0 reg n sk hes outs log t k cn _ e id); rewrite ?Hund; try done.
  - right. unfold thread_id. by rewrite Hrt.
  - intros j p Hj. congruence.
  - intros j p Hj. split; [congruence|done].
  - intros id' Hne. destruct He as [[[| |m cut] ->]|(env & cut & ->)]; try done. cbn. by rewrite (proj2 (String.eqb_neq id id')).
  - by apply (reached_same cn1), E3.
  - apply (storage_part_same log k cn); [done..|]. intros v Hv. by apply (sees_serve cn1), E4.
  - unfold router_part. cbn [set_thread cn_router]. split; [by exists p'|]. exists (said0 ++ to_channel k out).
    apply (sees_serve cn1); [done|]. rewrite turned_app, Hhand, app_nil_r. by apply E5.
  - intros j Hj. by rewrite (to_channel_none j k out).
  - intros p g said Hs. pose proof (sees_unique _ _ _ _ Hs (sees_serve cn1 _ _ _ eq_refl (E5 _ _ _ Hsee))) as [= _ _ ->].
    rewrite (pt_said _ _ _ _ _ _ _ _ HP k cn _ _ _ Hk Hsee). solve_Permutation.
  - intros x [Hx|Hx]; [|by apply (pt_flights _ _ _ _ _ _ _ _ HP)]. rewrite Forall_forall in Hout. rewrite (Hout x Hx). by eapply lookup_lt_Some.
Qed.

(** A step that changes nothing but the thread of the router handler, while nobody
    broadcasts. *)
Lemma parts_thread_only s0 reg n sk hes outs log t k cn cn' e id w' : parts s0 reg n sk hes outs log t ->
  sk_conns sk !! k = Some cn -> Z.of_nat (Datatypes.S n) < two64 -> cn_serve cn' = cn_serve cn -> cn_storage cn' = cn_storage cn ->
  read_locked sk = false -> sending_of cn' = None ->
  hub_step (sk_hub sk) e = Some (w', []) -> owns cn id -> (forall j p, w_handlers (sk_hub sk) !! id = Some (j, p) -> j = k) ->
  (forall id', id' <> id -> w_handlers w' !! id' = w_handlers (sk_hub sk) !! id') ->
  (forall j p, w_handlers w' !! id = Some (j, p) -> j = k /\ thread_id cn' = Some id) ->
  (forall id', turned id' [e] = []) -> router_part (hes ++ [e]) w' k cn' ->
  parts s0 reg (Datatypes.S n) (set_conn (set_hub sk w') k cn') (hes ++ [e]) (outs ++ []) log (table_after (w_handlers (sk_hub sk)) t e).
Proof.
  intros HP Hk Hn E1 E2 Hlock Hd' Hstep Hown Hjk Hother Hnew Ht Hrp.
  destruct (pt_conns _ _ _ _ _ _ _ _ HP k cn Hk) as (Hreach & Hsp & Hrp0).
  assert (Hund : in_flight (set_conn sk k cn') = in_flight sk).
  { apply (in_flight_same sk k cn); [done|]. unfold sent_of. by rewrite Hd', (unlocked sk Hlock k cn Hk). }
  apply (parts_hub s0 reg n sk hes outs log t k cn _ e id); rewrite ?Hund; try done.
  - by right.
  - by apply (reached_same cn).
  - apply (storage_part_same log k cn); [done..|]. intros v. by apply sees_serve.
  - intros p g said Hs. destruct (router_part_sees _ _ _ _ Hrp0) as [[[p0 g0] said0] Hs0].
    pose proof (sees_unique _ _ _ _ Hs (sees_serve cn _ _ _ E1 Hs0)) as [= _ _ ->].
    rewrite (pt_said _ _ _ _ _ _ _ _ HP k cn _ _ _ Hk Hs0). cbn. by rewrite app_nil_r.
  - intros x [Hx|Hx]; [by apply not_elem_of_nil in Hx|by apply (pt_flights _ _ _ _ _ _ _ _ HP)].
Qed.

Lemma register_parts s0 reg n sk hes outs log t k cn sk' : parts s0 reg n sk hes outs log t -> sk_conns sk !! k = Some cn ->
  Z.of_nat (Datatypes.S n) < two64 -> router_act mh sk k cn RtRegister = Some sk' ->
  exists hes' outs' t', parts s0 reg (Datatypes.S n) sk' hes' outs' log t'.
Proof.
  intros HP Hk Hn Ha. cbn [router_act] in Ha. destruct (cn_router cn) as [| |] eqn:Hrt; [|done..].
  destruct (read_locked sk) eqn:Hlock; [done|]. destruct ((Register (w_router (sk_hub sk)) k).2) as [id| |] eqn:Hid; [|done..].
  apply bind_Some_iff in Ha as ([w' out] & Hstep & [= <-]). pose proof (pt_count _ _ _ _ _ _ _ _ HP) as Hcnt.
  destruct (hub_step_handlers _ _ _ _ hes t Hstep (pt_table _ _ _ _ _ _ _ _ HP)) as (id' & Hother & Hnone & Hw' & -> & Hid' & Hname); [int_lia|].
  assert (id' = id) as -> by congruence. do 3 eexists.
  destruct (pt_conns _ _ _ _ _ _ _ _ HP k cn Hk) as (_ & _ & Hrp). unfold router_part in Hrp. rewrite Hrt in Hrp.
  apply (parts_thread_only s0 reg n sk hes outs log t k cn _ (Connect k) id); try done.
  - left. unfold thread_id. by rewrite Hrt.
  - intros j p Hj. congruence.
  - intros j p Hj. split; [congruence|done].
  - unfold router_part. cbn. split; [by exists AtSelect|]. exists []. rewrite turned_app, Hname, (turned_fresh _ _ _ _ _ _ _ _ HP). by apply (sees_serve cn).
Qed.

Lemma unregister_parts s0 reg n sk hes outs log t k cn sk' : parts s0 reg n sk hes outs log t -> sk_conns sk !! k = Some cn ->
  Z.of_nat (Datatypes.S n) < two64 -> router_act mh sk k cn RtUnregister = Some sk' ->
  exists hes' outs' t', parts s0 reg (Datatypes.S n) sk' hes' outs' log t'.
Proof.
  intros HP Hk Hn Ha. cbn [router_act] in Ha. destruct (cn_router cn) as [|id [m|] [sd|]|] eqn:Hrt; try done.
  destruct (read_locked sk) eqn:Hlock; [done|]. apply bind_Some_iff in Ha as ([w' out] & Hstep & [= <-]).
  pose proof (pt_count _ _ _ _ _ _ _ _ HP) as Hcnt.
  destruct (hub_step_handlers _ _ _ _ hes t Hstep (pt_table _ _ _ _ _ _ _ _ HP)) as (id' & Hother & -> & [k' Hw] & Hw' & ->); [int_lia|].
  destruct (pt_conns _ _ _ _ _ _ _ _ HP k cn Hk) as (_ & _ & Hrp). pose proof (router_part_sees _ _ _ _ Hrp) as [v Hv].
  unfold router_part in Hrp. rewrite Hrt in Hrp. destruct Hrp as [(p0 & Hp0 & _) _]. do 3 eexists.
  apply (parts_thread_only s0 reg n sk hes outs log t k cn _ (Leave id) id); try done.
  - right. unfold thread_id. by rewrite Hrt.
  - intros j p Hj. congruence.
  - intros j p Hj. congruence.
  - unfold router_part. cbn. exists v. by apply (sees_serve cn).
Qed.

(** The message [RtTake] takes, and the return of the handler. *)
Lemma take_parts s0 reg n sk hes outs log t k cn sk' a : parts s0 reg n sk hes outs log t -> sk_conns sk !! k = Some cn ->
  a = RtTake \/ a = RtReturn -> router_act mh sk k cn a = Some sk' -> parts s0 reg n sk' hes outs log t.
Proof.
  intros HP Hk Ha Hact. destruct (pt_conns _ _ _ _ _ _ _ _ HP k cn Hk) as (Hreach & Hsp & Hrp). unfold router_part in Hrp.
  destruct Ha as [-> | ->]; cbn [router_act] in Hact; destruct (cn_router cn) as [|id [m|] [sd|]|] eqn:Hrt; try done.
  - apply bind_Some_iff in Hact as (c & Hc & Hact). destruct (position sk id) as [pos|] eqn:Hpos; [|done]. destruct pos; try done.
    destruct (ch_recv c) as [|m r] eqn:Hm; [done|]. apply bind_Some_iff in Hact as (cn1 & H1 & [= <-]).
    destruct Hrp as [(p & Hp & _) [said Hs]]. destruct (conn_serve_same _ _ _ H1) as [E1 E2]. cbn [option_list] in Hs. rewrite app_nil_r in Hs.
    unfold position in Hpos. rewrite Hp in Hpos. injection Hpos as ->.
    apply (parts_local s0 reg n sk hes outs log t k cn _ (sk_storage sk)); try done.
    + apply (pt_storage _ _ _ _ _ _ _ _ HP).
    + apply (pt_log _ _ _ _ _ _ _ _ HP).
    + apply (reached_same cn1); [done|]. by eapply conn_serve_reached.
    + apply (storage_part_same log k cn); [done..|]. intros v Hv. apply (sees_serve cn1); [done|]. by eapply serve_other.
    + unfold router_part. cbn. split; [by exists AtSelect|]. exists said. apply (sees_serve cn1); [done|]. by eapply serve_takes.
    + unfold thread_id. by rewrite Hrt.
    + unfold sent_of, sending_of. by rewrite Hrt.
    + apply said_back; [eauto|]. intros q g s Hp'. do 2 eexists. apply (sees_serve cn1); [done|]. by eapply serve_takes.
  - apply bind_Some_iff in Hact as (cn1 & H1 & [= <-]). destruct Hrp as [v Hv]. destruct (conn_serve_same _ _ _ H1) as [E1 E2].
    assert (Hleave : forall p g s, sees cn 1 (p, g, s) -> exists p' g', sees cn1 1 (p', g', s)).
    { intros p g s Hp. destruct (serve_leaves _ _ _ _ _ _ _ H1 eq_refl (fun _ => eq_refl) Hp) as [p' Hp']. eauto. }
    apply (parts_local s0 reg n sk hes outs log t k cn _ (sk_storage sk)); try done.
    + apply (pt_storage _ _ _ _ _ _ _ _ HP).
    + apply (pt_log _ _ _ _ _ _ _ _ HP).
    + by eapply conn_serve_reached.
    + apply (storage_part_same log k cn); [done..|]. intros v' Hv'. by eapply serve_other.
    + unfold router_part. rewrite E2, Hrt. destruct v as [[p g] s]. destruct (Hleave p g s Hv) as (p' & g' & ?). eauto.
    + unfold thread_id. by rewrite E2.
    + unfold sent_of, sending_of. by rewrite E2.
    + apply said_back; eauto.
Qed.

Lemma set_thread_same cn t : cn_router cn = t -> set_thread cn t = cn.
Proof. destruct cn. by intros <-. Qed.

(** A step in which the router handler works on a message, stops or sends. *)
Lemma work_parts s0 reg n sk hes outs log t k cn sk' a : parts s0 reg n sk hes outs log t -> sk_conns sk !! k = Some cn ->
  Z.of_nat (Datatypes.S n) < two64 -> (exists cut, a = RtTurn cut) \/ a = RtStop \/ (exists cut, a = RtSend cut) ->
  router_act mh sk k cn a = Some sk' ->
  exists hes' outs' t', parts s0 reg (Datatypes.S n) sk' hes' outs' log t'.
Proof.
  intros HP Hk Hn Ha Hact. pose proof (pt_count _ _ _ _ _ _ _ _ HP) as Hcnt.
  destruct (pt_conns _ _ _ _ _ _ _ _ HP k cn Hk) as (Hreach & Hsp & Hrp). unfold router_part in Hrp.
  assert (Hstep : forall e w' out, hub_step (sk_hub sk) e = Some (w', out) -> _) by
    (intros e w' out He; apply (hub_step_handlers _ _ _ _ hes t He (pt_table _ _ _ _ _ _ _ _ HP)); int_lia).
  destruct Ha as [[cut ->]|[->|[cut ->]]]; cbn [router_act] in Hact; destruct (cn_router cn) as [|id [m|] [sd|]|] eqn:Hrt; try done.
  - destruct (writes_router m && read_locked sk) eqn:Hlock; [done|]. destruct (cut && negb _); [done|].
    apply bind_Some_iff in Hact as ([w' out] & He & Hact). apply bind_Some_iff in Hact as (cn1 & Hsay & [= <-]).
    destruct (Hstep _ _ _ He) as (id' & _ & -> & Hr & k' & p & Hw & _ & Hout). destruct Hrp as [(p0 & Hp0 & _) _]. assert (k' = k) as -> by congruence.
    do 3 eexists. apply (parts_own_send s0 reg n sk hes outs log t k cn cn1 (Turn id (InMsg m cut)) id (Some m) w' out); try done; [by left; eexists| |].
    + destruct (writes_router m) eqn:Hwr; [by right|left]. by rewrite Hr.
    + cbn. by rewrite String.eqb_refl.
  - destruct (child_ended cn 1); [|done]. apply bind_Some_iff in Hact as ([w' out] & He & [= <-]).
    destruct (Hstep _ _ _ He) as (id' & _ & -> & Hr & _).
    assert (out = []) as ->.
    { cbn [hub_step] in He. destruct (w_handlers (sk_hub sk) !! id) as [[j []]|]; try done. cbn in He. by injection He as _ <-. }
    do 3 eexists. pose proof (parts_own_send s0 reg n sk hes outs log t k cn cn (Turn id InCtxDone) id None w' [] HP Hk Hn Hrt He
      ltac:(left; by eexists) ltac:(left; by rewrite Hr) ltac:(constructor) eq_refl eq_refl) as Hparts.
    by rewrite (set_thread_same cn) in Hparts.
  - destruct (position sk id) as [pos|] eqn:Hpos; [|done]. destruct pos as [| |m|]; try done. destruct (cut && negb _); [done|].
    apply bind_Some_iff in Hact as ([w' out] & He & Hact). apply bind_Some_iff in Hact as (cn1 & Hsay & [= <-]).
    destruct (Hstep _ _ _ He) as (id' & _ & -> & Hr & k' & p & p' & Hw & _ & Hout). destruct Hrp as [(p0 & Hp0 & _) _].
    assert (k' = k) as -> by congruence. unfold position in Hpos. rewrite Hw in Hpos. injection Hpos as ->. do 3 eexists.
    pose proof (parts_own_send s0 reg n sk hes outs log t k cn cn1 (Go id no_broadcast cut) id None w' out HP Hk Hn Hrt He
      ltac:(right; by do 2 eexists) ltac:(by left) Hout Hsay eq_refl) as Hparts.
    destruct (say_all_spec cn out cn1 k Hsay Hout) as (_ & E2 & _).
    by rewrite (set_thread_same cn1) in Hparts by congruence.
Qed.

(** *** Broadcasts *)

(** What a broadcast has found of the next subscription. *)
Lemma sending_tried r p sd a todo room : sd_todo sd = a :: todo -> sending_part r p sd ->
  sending_part r p (tried sd a todo (delivery r (sd_event sd) a) room).
Proof.
  intros Htodo [H1 H2 H3]. set (sd' := tried _ _ _ _ _).
  assert (Hnd : NoDup ((sd_done sd).*1 ++ a :: todo)) by (rewrite <-Htodo, H2; apply attempts_NoDup).
  apply NoDup_app in Hnd as (_ & Hnin & _).
  assert (Ha : a ∉ (sd_done sd).*1) by (intros Hin; apply (Hnin a Hin); by left).
  assert (Hroom : has_room (found sd') a = room).
  { unfold has_room. destruct a as [c s]. cbn. destruct room; cbn.
    - apply bool_decide_eq_true. set_solver.
    - apply bool_decide_eq_false. intros [Hin|Hin%list_elem_of_singleton]%elem_of_app; [|done]. apply Ha, list_elem_of_fmap. by exists (c, s, true). }
  assert (Hold : List.filter (has_room (found sd')) (sd_done sd).*1 = List.filter (has_room (found sd)) (sd_done sd).*1).
  { apply filter_ext_in. intros [c s] Hin%list_elem_of_In. unfold has_room. cbn. apply bool_decide_ext.
    rewrite elem_of_app, list_elem_of_singleton. split; [|by left]. intros [?|[= <- <-]]; [done|].
    exfalso. by apply Ha. }
  constructor; cbn [sd' tried sd_event sd_done sd_todo sd_sent]; [done| |].
  - rewrite fmap_app, <-app_assoc. cbn. by rewrite <-Htodo, H2.
  - assert (Hone : delivered (found sd') r (sd_event sd) [a] = if room then [delivery r (sd_event sd) a] else []).
    { unfold delivered. cbn [List.filter]. rewrite Hroom. by destruct room. }
    assert (Hdone : delivered (found sd') r (sd_event sd) (sd_done sd).*1 = sd_sent sd) by (rewrite H3; unfold delivered; by rewrite Hold).
    fold sd'. rewrite fmap_app, delivered_app. cbn [fmap list_fmap fst]. rewrite Hone, Hdone. destruct room; [done|by rewrite app_nil_r].
Qed.

(** A step that moves nothing but what is in flight and what has been said. *)
Lemma flight_parts s0 reg n sk hes outs log t sk' : parts s0 reg n sk hes outs log t ->
  sk_storage sk' = sk_storage sk -> sk_hub sk' = sk_hub sk -> sk_panic sk' = sk_panic sk ->
  length (sk_conns sk') = length (sk_conns sk) ->
  (forall j cn2, sk_conns sk' !! j = Some cn2 -> exists cn0 new, sk_conns sk !! j = Some cn0 /\
    cn_storage cn2 = cn_storage cn0 /\ thread_id cn2 = thread_id cn0 /\ (reached_serve cn0 -> reached_serve cn2) /\
    (forall v, sees cn0 0 v -> sees cn2 0 v) /\ (forall p g s, sees cn0 1 (p, g, s) -> sees cn2 1 (p, g, s ++ new)) /\
    to_channel j (in_flight sk') ≡ₚ to_channel j (in_flight sk) ++ new /\
    (router_part hes (sk_hub sk) j cn0 -> router_part hes (sk_hub sk) j cn2)) ->
  (forall x, x ∈ in_flight sk' -> (x.1 < length (sk_conns sk))%nat) ->
  parts s0 reg n sk' hes outs log t.
Proof.
  intros [P1 P2 P3 P4 P5 P6 P7 P8 P9 P10 P11 P12] E1 E2 E3 E4 Hconns Hfl.
  constructor; rewrite ?E1, ?E2, ?E3, ?E4; try done.
  - intros j cn2 Hj. destruct (Hconns j cn2 Hj) as (cn0 & new & Hj0 & F1 & F2 & F3 & F4 & F5 & F6 & F7).
    destruct (P8 j cn0 Hj0) as (Q1 & Q2 & Q3). split_and!; [by apply F3|by apply (storage_part_same log j cn0)|by apply F7].
  - intros j cn2 p g said Hj Hs. destruct (Hconns j cn2 Hj) as (cn0 & new & Hj0 & F1 & F2 & F3 & F4 & F5 & F6 & F7).
    destruct (P8 j cn0 Hj0) as (_ & _ & Q3). destruct (router_part_sees _ _ _ _ Q3) as [[[p0 g0] said0] Hs0].
    pose proof (sees_unique _ _ _ _ Hs (F5 _ _ _ Hs0)) as [= _ _ ->]. rewrite F6, (P9 j cn0 _ _ _ Hj0 Hs0). by rewrite app_assoc.
  - intros id j p Hw. destruct (P10 id j p Hw) as (cn0 & Hj & Hi). destruct (lookup_lt_is_Some_2 (sk_conns sk') j) as [cn2 Hj2].
    { rewrite E4. by eapply lookup_lt_Some. }
    destruct (Hconns j cn2 Hj2) as (cn0' & new & Hj0 & F1 & F2 & _). exists cn2. split; [done|]. congruence.
Qed.

(** The channel of a subscription the broadcast tries is open. *)
Lemma target_open s0 reg n sk hes outs log t env ev a : parts s0 reg n sk hes outs log t -> a ∈ attempts env (w_router (sk_hub sk)) ev ->
  exists cn c, sk_conns sk !! channel_of (w_router (sk_hub sk)) a.1 = Some cn /\ is_Some (thread_id cn) /\
    child_of cn 1 = Some c /\ ch_phase c = Running.
Proof.
  intros HP Ha. destruct a as [c s]. apply elem_of_attempts in Ha as (conn & _ & _ & Hconn & _). cbn [fst].
  pose proof (hi_handlers _ _ _ (pt_table _ _ _ _ _ _ _ _ HP) c) as Hc. rewrite (rep_conns _ _ (hi_rep _ _ _ (pt_table _ _ _ _ _ _ _ _ HP))) in Hc.
  unfold channel_of. rewrite Hconn in *. cbn in Hc. symmetry in Hc. apply fmap_Some in Hc as ([k' p'] & Hw & ->). cbn [fst].
  destruct (pt_handlers _ _ _ _ _ _ _ _ HP c k' p' Hw) as (cn & Hk & Hid). exists cn.
  destruct (pt_conns _ _ _ _ _ _ _ _ HP k' cn Hk) as (_ & _ & Hrp). unfold router_part, thread_id in *.
  destruct (cn_router cn) as [|id hand sd|]; [done| |done]. destruct Hrp as [_ (said & c' & Hc' & Hv)]. exists c'. injection Hv as Hv _ _. by split_and!.
Qed.

Lemma deliver_parts s0 reg n sk hes outs log t k cn id sd a todo sk' : parts s0 reg n sk hes outs log t ->
  sk_conns sk !! k = Some cn -> cn_router cn = Serving id None (Some sd) -> sd_todo sd = a :: todo ->
  deliver mh sk k id sd a todo = Some sk' -> parts s0 reg n sk' hes outs log t.
Proof.
  intros HP Hk Hrt Htodo Hd. pose proof (pt_conns _ _ _ _ _ _ _ _ HP k cn Hk) as (_ & _ & Hrp).
  unfold router_part in Hrp. rewrite Hrt in Hrp. destruct Hrp as [(p & Hw & Hsd) _]. cbn [hands_part] in Hsd.
  set (r := w_router (sk_hub sk)) in *. set (x := delivery r (sd_event sd) a) in *.
  assert (Ha : a ∈ attempts (found sd) r (sd_event sd)) by (rewrite <-(sg_attempts _ _ _ Hsd), Htodo; set_solver).
  destruct (target_open _ _ _ _ _ _ _ _ _ _ _ HP Ha) as (ct & c & Hct & Hopen & Hc & Hrun). fold r in Hct.
  unfold deliver in Hd. fold r in Hd. fold x in Hd. change (channel_of r a.1) with x.1 in Hct. destruct x as [to m] eqn:Ex. cbn [fst] in Hct.
  rewrite Hct in Hd. cbn [mbind option_bind] in Hd. rewrite Hc in Hd. cbn [mbind option_bind] in Hd. unfold send_closed in Hd. rewrite Hrun in Hd.
  (* the broadcaster *)
  assert (Hself : forall room cnk, cn_router cnk = cn_router cn -> sent_of (set_thread cnk (Serving id None (Some (tried sd a todo (to, m) room)))) =
      sent_of cnk ++ (if room : bool then [(to, m)] else [])).
  { intros room cnk E. unfold sent_of, sending_of. rewrite E, Hrt. cbn. destruct room; [done|by rewrite app_nil_r]. }
  assert (Hrpk : forall room cn0 cn2, cn_router cn0 = cn_router cn -> (forall p g s, sees cn0 1 (p, g, s) -> exists s', sees cn2 1 (p, g, s')) ->
      router_part hes (sk_hub sk) k cn0 ->
      router_part hes (sk_hub sk) k (set_thread cn2 (Serving id None (Some (tried sd a todo (to, m) room))))).
  { intros room cn0 cn2 E Hsees. unfold router_part. rewrite E, Hrt. cbn [set_thread cn_router]. intros [(q & Hq & Hsd') [said Hs]]. split.
    - exists q. split; [done|]. cbn [hands_part] in *. rewrite <-Ex. by apply sending_tried.
    - destruct (Hsees _ _ _ Hs) as [s' Hs']. exists s'. by apply (sees_serve cn2). }
  assert (Hbound : (to < length (sk_conns sk))%nat) by (by eapply lookup_lt_Some).
  destruct (length (ch_send c) <? childSendBuffer)%nat.
  - apply bind_Some_iff in Hd as (ct2 & Hsay & Hd). destruct (conn_serve_same _ _ _ Hsay) as [F1 F2].
    unfold serving in Hd. apply bind_Some_iff in Hd as (cnk & Hck & [= <-]). set (sk1 := set_conn sk to ct2) in *.
    assert (Hin1 : in_flight sk1 = in_flight sk) by (apply (in_flight_same sk to ct); [done|]; unfold sent_of, sending_of; by rewrite F2).
    assert (H1 : forall j cn1, sk_conns sk1 !! j = Some cn1 -> exists cn0 new, sk_conns sk !! j = Some cn0 /\ new = to_channel j [(to, m)] /\
      cn_router cn1 = cn_router cn0 /\ cn_storage cn1 = cn_storage cn0 /\ (reached_serve cn0 -> reached_serve cn1) /\
      (forall v, sees cn0 0 v -> sees cn1 0 v) /\ (forall p g s, sees cn0 1 (p, g, s) -> sees cn1 1 (p, g, s ++ new))).
    { intros j cn1. subst sk1. cbn. destruct (decide (j = to)) as [->|Hne].
      - rewrite list_lookup_insert_eq by done. intros [= <-]. exists ct, [m]. rewrite Nat.eqb_refl. split_and!; try done.
        + intros Hr. by eapply conn_serve_reached.
        + intros v. by eapply serve_other.
        + intros q g s. by eapply serve_says.
      - rewrite list_lookup_insert_ne by done. intros Hj. exists cn1, []. rewrite (proj2 (Nat.eqb_neq to j)) by done. split_and!; try done.
        intros q g s. by rewrite app_nil_r. }
    destruct (H1 k cnk Hck) as (cn0 & newk & Hk0 & -> & G1 & G2 & G3 & G4 & G5). assert (cn0 = cn) as -> by congruence.
    assert (Hfl : in_flight (set_conn sk1 k (set_thread cnk (Serving id None (Some (tried sd a todo (to, m) true))))) ≡ₚ in_flight sk ++ [(to, m)]).
    { destruct (in_flight_set sk1 k cnk Hck) as (rest & Hr1 & ->). rewrite <-Hin1, Hr1, Hself by done. solve_Permutation. }
    apply (flight_parts s0 reg n sk hes outs log t); try done.
    + subst sk1. cbn. by rewrite !length_insert.
    + intros j cn2. cbn [set_conn sk_conns]. intros Hj. assert (Hnew : to_channel j (in_flight sk ++ [(to, m)]) = to_channel j (in_flight sk) ++ to_channel j [(to, m)]) by apply to_channel_app.
      destruct (decide (j = k)) as [->|Hne].
      * rewrite list_lookup_insert_eq in Hj by (by eapply lookup_lt_Some). injection Hj as <-. exists cn, (to_channel k [(to, m)]).
        split_and!; try done.
        -- unfold thread_id. cbn. by rewrite Hrt.
        -- by rewrite (to_channel_perm k _ _ Hfl), Hnew.
        -- apply Hrpk; [done|]. intros q g s Hs. eauto.
      * rewrite list_lookup_insert_ne in Hj by done. destruct (H1 j cn2 Hj) as (cn0 & new & Hj0 & -> & K1 & K2 & K3 & K4 & K5).
        exists cn0, (to_channel j [(to, m)]). split_and!; try done.
        -- unfold thread_id. by rewrite K1.
        -- by rewrite (to_channel_perm j _ _ Hfl), Hnew.
        -- unfold router_part. rewrite K1. destruct (cn_router cn0) as [|id' hand' sd'|] eqn:E.
           ++ intros Hs. apply K5 in Hs. destruct (decide (j = to)) as [->|Hto]; [|cbn in Hs; by rewrite (proj2 (Nat.eqb_neq to j)) in Hs].
              exfalso. assert (cn0 = ct) as -> by congruence.
              unfold thread_id in Hopen. rewrite E in Hopen. by destruct Hopen.
           ++ intros [Hq [s Hs]]. split; [done|]. eauto.
           ++ intros [[[q g] s] Hs]. eauto.
    + intros y. rewrite Hfl. intros [Hy| ->%list_elem_of_singleton]%elem_of_app; [by apply (pt_flights _ _ _ _ _ _ _ _ HP)|done].
  - unfold serving in Hd. rewrite Hk in Hd. injection Hd as <-.
    assert (Hfl : in_flight (set_conn sk k (set_thread cn (Serving id None (Some (tried sd a todo (to, m) false))))) = in_flight sk).
    { apply (in_flight_same sk k cn); [done|]. rewrite Hself by done. by rewrite app_nil_r. }
    apply (flight_parts s0 reg n sk hes outs log t); rewrite ?Hfl; try done.
    + cbn. by rewrite length_insert.
    + intros j cn2. cbn [set_conn sk_conns]. intros Hj. destruct (decide (j = k)) as [->|Hne].
      * rewrite list_lookup_insert_eq in Hj by (by eapply lookup_lt_Some). injection Hj as <-. exists cn, []. rewrite app_nil_r. split_and!; try done.
        -- unfold thread_id. cbn. by rewrite Hrt.
        -- intros q g s. rewrite app_nil_r. by apply sees_serve.
        -- apply Hrpk; [done|]. intros q g s Hs. eauto.
      * rewrite list_lookup_insert_ne in Hj by done. exists cn2, []. rewrite app_nil_r. split_and!; try done.
        intros q g s. by rewrite app_nil_r.
    + apply (pt_flights _ _ _ _ _ _ _ _ HP).
Qed.

Lemma begin_parts s0 reg n sk hes outs log t k cn conns subs sk' : parts s0 reg n sk hes outs log t -> sk_conns sk !! k = Some cn ->
  router_act mh sk k cn (RtBroadcast conns subs) = Some sk' -> parts s0 reg n sk' hes outs log t.
Proof.
  intros HP Hk Ha. cbn [router_act] in Ha. destruct (cn_router cn) as [|id [m|] [sd|]|] eqn:Hrt; try done.
  destruct (position sk id) as [pos|] eqn:Hpos; [|done]. destruct pos as [|ev| |]; try done.
  unfold serving in Ha. rewrite Hk in Ha. injection Ha as <-.
  destruct (pt_conns _ _ _ _ _ _ _ _ HP k cn Hk) as (Hreach & Hsp & Hrp). unfold router_part in Hrp. rewrite Hrt in Hrp.
  destruct Hrp as [(p & Hp & _) [said Hs]]. unfold position in Hpos. rewrite Hp in Hpos. injection Hpos as ->.
  apply (parts_local s0 reg n sk hes outs log t k cn _ (sk_storage sk)); try done.
  - apply (pt_storage _ _ _ _ _ _ _ _ HP).
  - apply (pt_log _ _ _ _ _ _ _ _ HP).
  - by apply (storage_part_same log k cn).
  - unfold router_part. cbn [set_thread cn_router]. split; [|eauto]. exists (ToBroadcast ev). split; [done|]. by constructor.
  - unfold thread_id. cbn. by rewrite Hrt.
  - unfold sent_of, sending_of. cbn. by rewrite Hrt.
  - intros q g s Hs'. eauto.
Qed.

Lemma end_parts s0 reg n sk hes outs log t k cn sk' : parts s0 reg n sk hes outs log t -> sk_conns sk !! k = Some cn ->
  Z.of_nat (Datatypes.S n) < two64 -> router_act mh sk k cn RtEnd = Some sk' ->
  exists hes' outs' t', parts s0 reg (Datatypes.S n) sk' hes' outs' log t'.
Proof.
  intros HP Hk Hn Ha. cbn [router_act] in Ha. destruct (cn_router cn) as [|id [m|] [sd|]|] eqn:Hrt; try done.
  destruct (sd_todo sd) eqn:Htodo; [|done]. apply bind_Some_iff in Ha as ([w' out] & Hstep & Ha).
  unfold serving in Ha. cbn [set_hub sk_conns] in Ha. rewrite Hk in Ha. injection Ha as <-.
  destruct (pt_conns _ _ _ _ _ _ _ _ HP k cn Hk) as (Hreach & Hsp & Hrp). unfold router_part in Hrp. rewrite Hrt in Hrp.
  destruct Hrp as [(p & Hp & Hsd) [said Hsee]]. cbn [hands_part option_list] in *. pose proof (pt_count _ _ _ _ _ _ _ _ HP) as Hcnt.
  destruct (hub_step_handlers _ _ _ _ hes t Hstep (pt_table _ _ _ _ _ _ _ _ HP)) as (id' & Hother & -> & Hsame & k' & p0 & p' & Hw & Hw' & Hout); [int_lia|].
  assert (k' = k /\ p0 = p) as [-> ->] by (split; congruence). destruct Hsd as [-> Hatt Hsent]. cbn in Hout.
  rewrite Htodo, app_nil_r in Hatt. rewrite <-Hatt, <-Hsent in Hout. subst out. do 3 eexists.
  destruct (in_flight_set sk k cn Hk) as (rest & Hrest & Hset). specialize (Hset (set_thread cn (Serving id None None))).
  unfold sent_of, sending_of in Hrest, Hset. rewrite Hrt in Hrest. cbn in Hrest, Hset.
  assert (Hfl : forall j, to_channel j (in_flight sk) ≡ₚ to_channel j (sd_sent sd) ++ to_channel j (in_flight (set_conn sk k (set_thread cn (Serving id None None))))).
  { intros j. by rewrite (to_channel_perm j _ _ Hset), (to_channel_perm j _ _ Hrest), to_channel_app. }
  apply (parts_hub s0 reg n sk hes outs log t k cn _ (Go id (found sd) false) id); try done.
  - right. unfold thread_id. by rewrite Hrt.
  - intros j q Hj. congruence.
  - intros j q Hj. split; [congruence|done].
  - by left.
  - by apply (storage_part_same log k cn).
  - unfold router_part. cbn. split; [eauto|]. exists said. rewrite turned_app. cbn. by rewrite app_nil_r.
  - intros q g said' Hs. pose proof (sees_unique _ _ _ _ Hs (sees_serve cn _ _ _ eq_refl Hsee)) as [= _ _ ->].
    rewrite (pt_said _ _ _ _ _ _ _ _ HP k cn _ _ _ Hk Hsee), (Hfl k). by rewrite app_assoc.
  - intros x Hx. apply (pt_flights _ _ _ _ _ _ _ _ HP). rewrite Hrest. destruct Hx as [Hx|Hx]; [set_solver|].
    rewrite Hset in Hx. set_solver.
Qed.

Lemma parts_weaken s0 reg n sk hes outs log t : parts s0 reg n sk hes outs log t -> parts s0 reg (Datatypes.S n) sk hes outs log t.
Proof. intros [P1 P2 P3 P4 P5 P6 P7 P8 P9 P10 P11 P12]. constructor; try done. lia. Qed.

(** A step of the merge loop, the end of the context, a goroutine on its way out. *)
Lemma serve_parts s0 reg n sk hes outs log t k cn e cn' : parts s0 reg n sk hes outs log t -> sk_conns sk !! k = Some cn ->
  match e with OfChild _ a => a = Closes \/ a = Leaves | _ => True end -> conn_serve mh cn e = Some cn' ->
  parts s0 reg n (set_conn sk k cn') hes outs log t.
Proof.
  intros HP Hk He Hs. destruct (pt_conns _ _ _ _ _ _ _ _ HP k cn Hk) as (Hreach & [Ho [p0 Hsee0] Hh Hout] & Hrp).
  destruct (conn_serve_same _ _ _ Hs) as [E1 E2].
  assert (Hsees : forall i p g s, sees cn i (p, g, s) -> exists p', sees cn' i (p', g, s) /\ (p = Running -> p' = Running)).
  { intros i p g s Hv. destruct e as [j a| |e]; [|exists p; split; [by eapply serve_other|done]..].
    destruct (decide (j = i)) as [->|Hne]; [|exists p; split; [eapply serve_other; [exact Hs|congruence|done]|done]].
    destruct (serve_leaves cn cn' i a p g s Hs) as [p' Hp']; [by destruct He as [-> | ->]..|done|]. exists p'. split; [done|].
    intros ->. exfalso. by eapply serve_running. }
  apply (parts_local s0 reg n sk hes outs log t k cn _ (sk_storage sk)); try done.
  - apply (pt_storage _ _ _ _ _ _ _ _ HP).
  - apply (pt_log _ _ _ _ _ _ _ _ HP).
  - by eapply conn_serve_reached.
  - destruct (Hsees _ _ _ _ Hsee0) as (p' & Hp' & _). constructor; rewrite ?E1; eauto.
  - unfold router_part in *. rewrite E2. destruct (cn_router cn) as [|id hand dl|].
    + destruct (Hsees _ _ _ _ Hrp) as (p' & Hp' & Hrun). by rewrite Hrun in Hp'.
    + destruct Hrp as [Hp [said Hv]]. split; [done|]. exists said. destruct (Hsees _ _ _ _ Hv) as (p' & Hp' & Hrun). by rewrite Hrun in Hp'.
    + destruct Hrp as [[[p g] s] Hv]. destruct (Hsees _ _ _ _ Hv) as (p' & Hp' & _). eauto.
  - unfold thread_id. by rewrite E2.
  - unfold sent_of, sending_of. by rewrite E2.
  - apply said_back; [by eapply router_part_sees|]. intros p g s Hv. destruct (Hsees _ _ _ _ Hv) as (p' & Hp' & _). eauto.
Qed.

Hypothesis Htwo : mh_handlers mh = 2%nat.

Lemma calls_of_none k log : (forall c, c ∈ log -> (sc_conn c < k)%nat) -> calls_of k log = [].
Proof.
  intros Hlog. unfold calls_of. induction log as [|c log IH]; [done|]. rewrite filter_cons_False.
  - apply IH. intros c' Hc'. apply Hlog. by right.
  - intros Hk. specialize (Hlog c ltac:(by left)). lia.
Qed.

Lemma to_channel_beyond k out : (forall x : nat * ServerMsg, x ∈ out -> (x.1 < k)%nat) -> to_channel k out = [].
Proof.
  intros Hout. induction out as [|[j m] out IH]; [done|]. cbn. specialize (Hout (j, m) ltac:(by left)) as Hj. cbn in Hj.
  rewrite (proj2 (Nat.eqb_neq j k)) by lia. apply IH. intros x Hx. apply Hout. by right.
Qed.

Lemma accept_parts s0 reg n sk hes outs log t : parts s0 reg n sk hes outs log t ->
  parts s0 reg n (mkStack (sk_storage sk) (sk_hub sk) (sk_conns sk ++ [new_conn mh (sk_storage sk)]) (sk_panic sk)) hes outs log t.
Proof.
  intros [P1 P2 P3 P4 P5 P6 P7 P8 P9 P10 P11 P12]. set (sk' := mkStack _ _ _ _).
  assert (Hund : in_flight sk' = in_flight sk) by (unfold in_flight; cbn; rewrite fmap_app, concat_app; cbn; by rewrite app_nil_r).
  assert (Hlook : forall j cnj, (sk_conns sk ++ [new_conn mh (sk_storage sk)]) !! j = Some cnj ->
    sk_conns sk !! j = Some cnj \/ (j = length (sk_conns sk) /\ cnj = new_conn mh (sk_storage sk))).
  { intros j cnj [Hj|[Hj Hx]]%lookup_app_Some; [by left|]. apply list_lookup_singleton_Some in Hx as [Hz <-]. right. split; [lia|done]. }
  assert (Hkeep : forall j cnj, sk_conns sk !! j = Some cnj -> (sk_conns sk ++ [new_conn mh (sk_storage sk)]) !! j = Some cnj).
  { intros j cnj Hj. by apply lookup_app_l_Some. }
  assert (Hnew : forall i, (i < 2)%nat -> sees (new_conn mh (sk_storage sk)) i (Running, [], [])).
  { intros i Hi. exists new_child. split; [|done]. unfold child_of. cbn. by rewrite Htwo, lookup_replicate_2. }
  constructor; rewrite ?Hund; cbn [sk' sk_conns sk_hub sk_storage sk_panic]; rewrite ?length_app; try done.
  - intros c Hc. specialize (P6 c Hc). lia.
  - intros x Hx. specialize (P7 x Hx). lia.
  - intros j cnj [Hj|[-> ->]]%Hlook; [by apply P8|]. split_and!.
    + by exists [].
    + constructor; cbn; [done|exists Running; apply Hnew; lia| |]; by rewrite (calls_of_none _ log P6).
    + apply Hnew. lia.
  - intros j cnj p g said [Hj|[-> ->]]%Hlook Hs; [by apply (P9 j cnj p g)|].
    pose proof (sees_unique _ _ _ _ Hs (Hnew 1%nat ltac:(lia))) as [= -> -> ->]. cbn.
    by rewrite (to_channel_beyond _ outs P7), (to_channel_beyond _ _ P11).
  - intros id j p Hw. destruct (P10 id j p Hw) as (cnj & Hj & Hi). eauto.
  - intros x Hx. specialize (P11 x Hx). lia.
Qed.

Lemma stack_step_parts s0 reg n sk hes outs log t e sk' : parts s0 reg n sk hes outs log t -> Z.of_nat (Datatypes.S n) < two64 ->
  stack_step mh sh sk e = Some sk' -> exists hes' outs' log' t', parts s0 reg (Datatypes.S n) sk' hes' outs' log' t'.
Proof.
  intros HP Hn. destruct e as [|k e|k|k i b|k a|k a]; cbn [stack_step].
  - intros [= <-]. do 4 eexists. apply parts_weaken. by apply accept_parts.
  - rewrite bind_Some_iff. intros (cn & Hk & Hs). apply bind_Some_iff in Hs as (cn' & Hs & [= <-]).
    do 4 eexists. apply parts_weaken. by eapply (serve_parts s0 reg n sk hes outs log t k cn (OfLoop e)).
  - rewrite bind_Some_iff. intros (cn & Hk & Hs). apply bind_Some_iff in Hs as (cn' & Hs & [= <-]).
    do 4 eexists. apply parts_weaken. by eapply (serve_parts s0 reg n sk hes outs log t k cn ContextEnds).
  - rewrite bind_Some_iff. intros (cn & Hk & Hs). apply bind_Some_iff in Hs as (cn' & Hs & [= <-]).
    do 4 eexists. apply parts_weaken. eapply (serve_parts s0 reg n sk hes outs log t k cn); [done|done| |exact Hs]. destruct b; auto.
  - rewrite bind_Some_iff. intros (cn & Hk & Hs). apply bind_Some_iff in Hs as ([s' cn'] & Hs & [= <-]).
    destruct (storage_act_parts s0 reg n sk hes outs log t k cn a s' cn' HP Hk Hs) as [log' HP']. do 4 eexists. by apply parts_weaken.
  - rewrite bind_Some_iff. intros (cn & Hk & Hs).
    assert (Hgo : (exists hes' outs' t', parts s0 reg (Datatypes.S n) sk' hes' outs' log t') -> exists hes' outs' log' t', parts s0 reg (Datatypes.S n) sk' hes' outs' log' t')
      by (intros (? & ? & ? & ?); by do 4 eexists).
    destruct a as [| |cut| |cut|conns subs| | | |].
    + apply Hgo. by eapply register_parts.
    + do 4 eexists. apply parts_weaken. apply (take_parts s0 reg n sk hes outs log t k cn sk' RtTake); auto.
    + apply Hgo. apply (work_parts s0 reg n sk hes outs log t k cn sk' (RtTurn cut)); eauto.
    + apply Hgo. apply (work_parts s0 reg n sk hes outs log t k cn sk' RtStop); eauto.
    + apply Hgo. apply (work_parts s0 reg n sk hes outs log t k cn sk' (RtSend cut)); eauto.
    + do 4 eexists. apply parts_weaken. by eapply begin_parts.
    + cbn [router_act] in Hs. destruct (cn_router cn) as [|id [m0|] [sd|]|] eqn:Hrt; try done. destruct (sd_todo sd) as [|a todo] eqn:Htodo; [done|].
      do 4 eexists. apply parts_weaken. by eapply deliver_parts.
    + apply Hgo. by eapply end_parts.
    + apply Hgo. by eapply unregister_parts.
    + do 4 eexists. apply parts_weaken. apply (take_parts s0 reg n sk hes outs log t k cn sk' RtReturn); auto.
Qed.

Lemma parts_start s0 reg : parts s0 reg 0 (new_stack s0 reg) [] [] [] empty_table.
Proof.
  constructor; cbn; try done; try lia.
  - apply new_hub_inv.
  - intros id i Hi. by apply not_elem_of_nil in Hi.
  - intros c Hc. by apply not_elem_of_nil in Hc.
  - intros x Hx. by apply not_elem_of_nil in Hx.
  - intros x Hx. by apply not_elem_of_nil in Hx.
Qed.

Lemma stack_run_parts s0 reg es : forall n sk hes outs log t sk', parts s0 reg n sk hes outs log t ->
  Z.of_nat (n + length es) < two64 -> stack_run mh sh sk es = Some sk' ->
  exists hes' outs' log' t', parts s0 reg (n + length es) sk' hes' outs' log' t'.
Proof.
  induction es as [|e es IH]; intros n sk hes outs log t sk' HP Hn; cbn [stack_run length] in *.
  - intros [= <-]. rewrite Nat.add_0_r. by do 4 eexists.
  - rewrite bind_Some_iff. intros (sk1 & Hs & Hr).
    destruct (stack_step_parts s0 reg n sk hes outs log t e sk1 HP) as (hes1 & outs1 & log1 & t1 & HP1); [int_lia|done|].
    rewrite <-Nat.add_succ_comm in *. by eapply IH.
Qed.

End Parts.

(** ** Properties *)

(** C6: the handlers of a relay together are their machines side by side: whatever
    the goroutines of any number of connections do and in whatever order, the router
    has made a run of the router handlers' machine, the storage has served the calls
    of the storage handlers one after the other, and each connection's merge loop has
    made a run of its own; its storage handler has worked on what it was handed, in
    order, but for what is in its queue, and said what its calls sent, but for what
    waits to be sent; its router handler has worked on what it was handed, and its
    channel has carried what the router's machine sent to it and what the broadcasts
    still under way have.  And nobody sends on a closed channel. *)
Theorem relay_stack_refines {S : Type} `{StorageOps S} (mh : mergeHandler) (sh : storageHandler) (s0 : S) (reg : bool)
    (es : list StackEvent) (sk : Stack (S := S)) :
  mh_handlers mh = 2%nat -> Z.of_nat (length es) < two64 -> stack_run mh sh (new_stack s0 reg) es = Some sk ->
  sk_panic sk = false /\
  exists hes outs log,
    hub_run (new_hub reg) hes = Some (sk_hub sk, outs) /\
    serve_all sh s0 (sc_call <$> log) = (sk_storage sk, sc_out <$> log) /\
    forall k cn, sk_conns sk !! k = Some cn ->
      (exists ses, serve_run mh (serve_start mh) ses = Some (cn_serve cn)) /\
      exists c0 c1, sv_children (cn_serve cn) !! 0%nat = Some c0 /\ sv_children (cn_serve cn) !! 1%nat = Some c1 /\
      ch_got c0 = (snd <$> (sc_call <$> calls_of k log)) ++ d_queue (cn_storage cn) ++ option_list (d_hand (cn_storage cn)) /\
      ch_said c0 ++ d_outgoing (cn_storage cn) = concat (sc_out <$> calls_of k log) /\
      ch_said c1 ≡ₚ to_channel k outs ++ to_channel k (in_flight sk) /\
      forall id hand sending, cn_router cn = Serving id hand sending -> ch_got c1 = turned id hes ++ option_list hand.
Proof.
  intros Htwo Hn Hr. destruct (stack_run_parts mh sh Htwo s0 reg es 0 _ [] [] [] empty_table sk (parts_start mh sh s0 reg) Hn Hr)
    as (hes & outs & log & t & HP).
  split; [apply (pt_panic _ _ _ _ _ _ _ _ _ _ HP)|]. exists hes, outs, log.
  split; [apply (pt_hub _ _ _ _ _ _ _ _ _ _ HP)|]. split; [apply (pt_storage _ _ _ _ _ _ _ _ _ _ HP)|].
  intros k cn Hk. destruct (pt_conns _ _ _ _ _ _ _ _ _ _ HP k cn Hk) as (Hreach & [Ho (p0 & c0 & Hc0 & Hv0) Hh Hout] & Hrp).
  split; [done|]. injection Hv0 as _ Hg Hs. destruct (router_part_sees _ _ _ _ Hrp) as ([[p1 g1] s1] & c1 & Hc1 & Hv1).
  exists c0, c1. split_and!; try done.
  - by rewrite Hg, Ho, Hh.
  - by rewrite Hs.
  - injection Hv1 as Hp1 Hg1 Hs1. subst. apply (pt_said _ _ _ _ _ _ _ _ _ _ HP k cn (ch_phase c1) (ch_got c1) _ Hk). by exists c1.
  - intros id hand sending Hrt. unfold router_part in Hrp. rewrite Hrt in Hrp. destruct Hrp as [_ (said & c & Hc & Hv)].
    assert (c = c1) as -> by congruence. by injection Hv.
Qed.

Module StackExamples.
Definition mh : mergeHandler := NewMergeHandler 2 None.
Definition sub : ClientMsg := client_req "s" [emptyFilter].
Definition pub : ClientMsg := client_event RelayLoopExamples.good.
Definition hear (k i : nat) : list StackEvent :=
  [MergeGo k (SelectChild i range_in_order range_in_order range_in_order)].
Definition sent (k : nat) : list StackEvent := [MergeGo k SendNext; MergeGo k Resume].
Definition read (k : nat) (m : ClientMsg) : list StackEvent :=
  [MergeGo k (SelectRecv (Some m)); MergeGo k TryChild; MergeGo k TryChild; MergeGo k TryChild; MergeGo k Resume].
Definition store (k : nat) : list StackEvent :=
  [StorageGo k StReceive; StorageGo k StQueue; StorageGo k (StHandle HandlerRuns.env); StorageGo k StSend].
Definition route (k : nat) : list StackEvent := [RouterGo k RtTake; RouterGo k (RtTurn false)].
(** The first client subscribes; the second publishes an event, whose broadcast ends
    after the second has its OK. *)
Definition es : list StackEvent :=
  [Accept; Accept; RouterGo 0 RtRegister; RouterGo 1 RtRegister] ++
  read 0 sub ++ route 0 ++ [RouterGo 0 (RtSend false)] ++ store 0 ++ hear 0 0 ++ [MergeGo 0 Resume] ++ hear 0 1 ++ sent 0 ++
  read 1 pub ++ route 1 ++ [RouterGo 1 (RtBroadcast range_in_order (fun _ => range_in_order))] ++
  store 1 ++ hear 1 0 ++ [MergeGo 1 Resume] ++ hear 1 1 ++ sent 1 ++
  [RouterGo 1 RtDeliver] ++ hear 0 1 ++ sent 0 ++ [RouterGo 1 RtEnd].
End StackExamples.

Example stack_ex :
  (fun sk => (events (sk_storage sk), (fun cn => sv_sent (cn_serve cn)) <$> sk_conns sk)) <$>
    stack_run StackExamples.mh HandlerRuns.h (new_stack NewInMemoryStorage false) StackExamples.es =
  Some ([RelayLoopExamples.good],
    [[NewServerEOSEMsg "s"; event_msg "s" RelayLoopExamples.good]; [NewServerOKMsg (ev_ID RelayLoopExamples.good) true ""]]).
Proof. by vm_compute. Qed.

(** Nobody changes the router while a broadcast is under way: a third client cannot
    enter it before the second one's broadcast has ended. *)
Example stack_locked_ex :
  (fun sk => (read_locked sk, stack_step StackExamples.mh HandlerRuns.h sk (RouterGo 2 RtRegister))) <$>
    stack_run StackExamples.mh HandlerRuns.h (new_stack NewInMemoryStorage false)
      (take 29 StackExamples.es ++ [Accept]) = Some (true, None).
Proof. by vm_compute. Qed.

Lemma relay_stack_refines_witness : exists sk,
  stack_run StackExamples.mh HandlerRuns.h (new_stack NewInMemoryStorage false) StackExamples.es = Some sk /\ sk_panic sk = false.
Proof.
  destruct (stack_run StackExamples.mh HandlerRuns.h (new_stack NewInMemoryStorage false) StackExamples.es) as [sk|] eqn:E;
    [|by vm_compute in E].
  exists sk. split; [done|].
  exact (proj1 (relay_stack_refines StackExamples.mh HandlerRuns.h NewInMemoryStorage false StackExamples.es sk eq_refl
    ltac:(by vm_compute) E)).
Defined.
