(* ===== verification/RelayStackSafe.v ===== *)
(** * What the clients of a relay are sent

    The properties of the machine of RelayStack.v: behind verifying read loops,
    whatever the interleaving, the storage holds and the clients are sent only what
    is authentic, no merge handler crashes and nobody sends on a closed channel; and
    every part makes a run of its own machine. *)

From S2P Require Import Prelude GoTime Text Event Filter Message Interface Storage StorageSpec Drain StorageHandler.
From S2P Require Import Merge MergeReq MergeHandler MergeServe MergeSafe Router Handlers LiveRace Json EventJson EventParse MessageJson CodecSpec RelayLoops EndToEnd.
From S2P Require Import RelayStack RelayStackSpec.

(** ** The router *)

Section Hub.

Context `{Schnorr}.

(** Every subscription has a name that can be written. *)
Definition subs_ok (r : Router) : Prop :=
  map_Forall (fun _ conn => map_Forall (fun s _ => utf8_ok s = true) (subscriptions conn)) (connections r).

(** What a handler between two steps is about to send or broadcast. *)
Definition position_ok (p : RouterAt) : Prop :=
  match p with ToBroadcast ev => authentic ev | ToSend m => deliverable m | AtSelect | AtExit => True end.

Record hub_safe (w : Hub) : Prop := {
  hs_subs : subs_ok (w_router w);
  hs_pos : map_Forall (fun _ x => position_ok x.2) (w_handlers w)
}.

Lemma Register_subs r k : subs_ok r -> subs_ok (Register r k).1.
Proof.
  intros Hr. unfold Register. destruct (formatConnID _); [|done..]. unfold subs_ok. cbn.
  apply map_Forall_insert_2; [|done]. cbn. apply map_Forall_empty.
Qed.

Lemma Unregister_subs r c : subs_ok r -> subs_ok (Unregister r c).
Proof.
  intros Hr. unfold Unregister. destruct (connections r !! c); [|done]. unfold subs_ok. cbn.
  apply map_Forall_delete. by case_match.
Qed.

Lemma Subscribe_subs r c s fs : subs_ok r -> utf8_ok s = true -> subs_ok (Subscribe r c s fs).
Proof.
  intros Hr Hs. unfold Subscribe. destruct (connections r !! c) as [conn|] eqn:E; [|done].
  assert (Hins : subs_ok (set_subscriptions r c conn (<[s := fs]> (subscriptions conn)))).
  { unfold subs_ok. cbn. apply map_Forall_insert_2; [|done]. cbn. apply map_Forall_insert_2; [done|]. exact (Hr _ _ E). }
  by case_bool_decide.
Qed.

Lemma Unsubscribe_subs r c s : subs_ok r -> subs_ok (Unsubscribe r c s).
Proof.
  intros Hr. unfold Unsubscribe. destruct (connections r !! c) as [conn|] eqn:E; [|done]. case_bool_decide; [|done].
  unfold subs_ok. cbn. apply map_Forall_insert_2; [|done]. cbn. apply map_Forall_delete. exact (Hr _ _ E).
Qed.

Lemma attempts_named env r ev a : subs_ok r -> a ∈ attempts env r ev -> utf8_ok a.2 = true.
Proof. destruct a as [c s]. intros Hr (conn & fs & f & Hc & Hs & _)%elem_of_attempts. exact (Hr _ _ Hc _ _ Hs). Qed.

Lemma Broadcast_safe env r ev : subs_ok r -> authentic ev ->
  subs_ok (Broadcast env r ev).1 /\ Forall (fun x => deliverable x.2) (Broadcast env r ev).2.
Proof.
  intros Hr Hev. rewrite Broadcast_eq. cbn [fst snd]. split; [exact Hr|]. apply Forall_fmap, Forall_forall.
  intros a Ha%list_elem_of_In%filter_In. destruct Ha as [Ha%list_elem_of_In _].
  apply deliverable_event; [|done]. by eapply attempts_named.
Qed.

(** The messages of the clients. *)
Definition input_ok (e : HubEvent) : Prop := match e with Turn _ (InMsg m _) => vouched m | _ => True end.

Lemma send_or_exit_ok cut m : deliverable m -> Forall deliverable (send_or_exit cut m).1.
Proof. intros Hm. destruct cut; [constructor|by apply Forall_singleton]. Qed.

Lemma pair_ok (k : nat) l : Forall deliverable l -> Forall (fun x : nat * ServerMsg => deliverable x.2) (pair k <$> l).
Proof. intros Hl. by apply Forall_fmap. Qed.

Lemma authentic_id e : authentic e -> utf8_ok (ev_ID e) = true.
Proof. intros [_ Hp]. pose proof (pe_strings _ Hp) as Hs. rewrite !Forall_cons in Hs. apply Hs. Qed.

Lemma router_take_safe c r i : subs_ok r -> match i with InMsg m _ => vouched m | _ => True end ->
  let '(r', sent, p) := router_take c r i in subs_ok r' /\ Forall deliverable sent /\ position_ok p.
Proof.
  intros Hr Hi. destruct i as [| |m cut]; cbn [router_take]; [by split_and!..|]. destruct Hi as [Hsub Hev].
  destruct (String.eqb_spec (c_Type m) MsgTypeEvent) as [Ht|_].
  { destruct (Hev Ht) as (e & -> & He). pose proof (authentic_id e He) as Hid. split_and!; [done| |destruct cut; cbn; [done|exact He]].
    destruct cut; cbn; [constructor|]. apply Forall_singleton, deliverable_other; try done; tauto. }
  destruct (String.eqb (c_Type m) MsgTypeReq).
  { split_and!; [by apply Subscribe_subs|constructor|]. apply deliverable_other; try done; tauto. }
  destruct (String.eqb (c_Type m) MsgTypeClose); [split_and!; [by apply Unsubscribe_subs|constructor|done]|].
  destruct (String.eqb (c_Type m) MsgTypeCount); [|by split_and!].
  split_and!; [done| |by destruct cut]. destruct cut; cbn; [constructor|]. apply Forall_singleton, deliverable_other; try done; tauto.
Qed.

Lemma hub_step_safe w e w' out : hub_safe w -> input_ok e -> hub_step w e = Some (w', out) ->
  hub_safe w' /\ Forall (fun x => deliverable x.2) out.
Proof.
  intros [Hs Hp] Hi. destruct e as [k|c i|c env cut|c]; cbn [hub_step].
  - pose proof (Register_subs (w_router w) k Hs) as Hr. destruct (Register (w_router w) k) as [r [id| |]]; [|done..]. intros [= <- <-].
    split; [|constructor]. constructor; [done|]. by apply map_Forall_insert_2.
  - destruct (w_handlers w !! c) as [[k []]|] eqn:Hw; try done. pose proof (router_take_safe c (w_router w) i Hs Hi) as Ht.
    destruct (router_take c (w_router w) i) as [[r sent] p]. destruct Ht as (Hr & Hsent & Hpos). intros [= <- <-].
    split; [|by apply pair_ok]. constructor; [done|]. by apply map_Forall_insert_2.
  - destruct (w_handlers w !! c) as [[k p]|] eqn:Hw; [|done]. pose proof (Hp _ _ Hw) as Hpos. cbn in Hpos.
    destruct p as [|ev|m|]; try done; cbn [router_go].
    + destruct (Broadcast_safe env (w_router w) ev Hs Hpos) as [Hr Hout]. destruct (Broadcast env (w_router w) ev) as [r o]. intros [= <- <-].
      split; [|done]. constructor; [done|]. by apply map_Forall_insert_2.
    + intros [= <- <-]. split; [constructor; [done|]; by apply map_Forall_insert_2; [destruct cut|]|].
      rewrite app_nil_r. apply pair_ok. destruct cut; cbn; [constructor|by apply Forall_singleton].
  - destruct (w_handlers w !! c) as [[k []]|] eqn:Hw; try done. intros [= <- <-]. split; [|constructor].
    constructor; [by apply Unregister_subs|]. by apply map_Forall_delete.
Qed.

End Hub.

(** ** The stack *)

Section Stack.

Context `{Schnorr} {S : Type} `{StorageLaws S} (mh : mergeHandler) (sh : storageHandler).
Notation Conn := (@Conn S).
Notation Stack := (@Stack S).
Implicit Types (cn : Conn) (sk : Stack).

(** A client message that may come out of a read loop, with an event the storage
    can be given. *)
Definition good (msg : ClientMsg) : Prop := vouched msg /\ acceptable (S := S) msg.

Definition writable_text (s : string) : Prop := utf8_ok s = true.

(** What is deliverable is fit for a merge handler. *)
Lemma deliverable_fitness : fitness deliverable good writable_text.
Proof.
  constructor; unfold writable_text.
  - intros id b m Hid Hm. apply deliverable_other; try done; tauto.
  - intros sub Hs. apply deliverable_other; try done; tauto.
  - intros sub n Hs. apply deliverable_other; try done; tauto.
  - intros m [(_ & _ & Hm & _) _]. exact Hm.
  - intros m (_ & _ & Hev). exact Hev.
  - intros msg [[Hsub Hev] _]. split; [exact Hsub|]. intros Ht. destruct (Hev Ht) as (e & He & Ha). exists e.
    split; [done|]. by apply authentic_id.
  - by vm_compute.
  - by vm_compute.
Qed.

(** The states of the two children. *)
Definition storage_safe cn : Prop :=
  (Forall good (d_queue (cn_storage cn)) /\ Forall good (option_list (d_hand (cn_storage cn)))) /\
  Forall deliverable (d_outgoing (cn_storage cn)).

Definition sending_safe (sd : Sending) : Prop :=
  authentic (sd_event sd) /\ Forall (fun a => utf8_ok a.2 = true) (sd_todo sd).

Definition thread_safe cn : Prop :=
  match cn_router cn with
  | Serving _ hand sending => Forall good (option_list hand) /\ forall sd, sending = Some sd -> sending_safe sd
  | _ => True
  end.

Record conn_safe cn : Prop := {
  cs_reached : reached_serve mh cn;
  cs_serve : serve_safe deliverable good writable_text (cn_serve cn);
  cs_storage : storage_safe cn;
  cs_thread : thread_safe cn
}.

Definition store_safe (s : S) : Prop := storage_ok s /\ Forall authentic (contents s).

Record stack_safe sk : Prop := {
  sf_storage : store_safe (sk_storage sk);
  sf_hub : hub_safe (sk_hub sk);
  sf_conns : forall k cn, sk_conns sk !! k = Some cn -> conn_safe cn
}.

(** The messages that come in. *)
Definition stack_input (e : StackEvent) : Prop :=
  match e with MergeGo _ (SelectRecv (Some msg)) => good msg | _ => True end.

(** What a child has been handed comes from the client. *)
Lemma recv_good cn i c : conn_safe cn -> child_of cn i = Some c -> Forall good (ch_recv c).
Proof.
  intros [[ses Hr] Hs _ _] Hc. apply reached_inv in Hr as [_ Hch _]. destruct (Hch i c Hc) as [_ Hgot _ _].
  apply Forall_forall. intros m Hm. pose proof (ss_taken _ _ _ _ Hs) as Ht. rewrite Forall_forall in Ht. apply Ht.
  eapply elem_of_sublist; [|exact Hgot]. set_solver.
Qed.

(** A step of the merge handler. *)
Lemma conn_serve_safe cn e cn' : conn_safe cn -> conn_serve mh cn e = Some cn' -> fit_input deliverable good e -> conn_safe cn'.
Proof.
  intros Hcn Hs Hin. destruct (conn_serve_same _ _ _ _ Hs) as [E1 E2]. destruct Hcn as [Hr Hsafe [Hm Ho] Ht].
  constructor; unfold storage_safe, thread_safe in *; rewrite ?E1, ?E2; try done; [by eapply conn_serve_reached|].
  unfold conn_serve in Hs. apply fmap_Some in Hs as (st & Hst & ->). cbn. by eapply serve_step_safe; [apply deliverable_fitness| | |].
Qed.

Lemma set_conn_safe sk k cn s : stack_safe sk -> store_safe s -> conn_safe cn -> stack_safe (set_conn (set_storage sk s) k cn).
Proof.
  intros [H1' H2' H3'] Hs Hc. constructor; [done..|]. intros j cnj. cbn. destruct (decide (j = k)) as [->|Hne].
  - intros Hj. destruct (decide (k < length (sk_conns sk))%nat).
    + rewrite list_lookup_insert_eq in Hj by done. by injection Hj as <-.
    + apply lookup_lt_Some in Hj. by rewrite length_insert in Hj.
  - rewrite list_lookup_insert_ne by done. apply H3'.
Qed.

Lemma set_hub_safe sk w : stack_safe sk -> hub_safe w -> stack_safe (set_hub sk w).
Proof. intros [H1' H2' H3'] Hw. by constructor. Qed.

(** ** The storage handler *)

Lemma storage_drain_safe s cn e s' cn' : storage_drain sh s cn e = Some (s', cn') -> store_safe s -> conn_safe cn ->
  Forall good (received_by e) -> store_safe s' /\ conn_safe cn'.
Proof.
  unfold storage_drain. intros (d & Hd & [= -> ->])%fmap_Some Hs [Hr Hsafe [Hm Ho] Ht] He.
  destruct (drain_step_keeps (storage_handle sh) good deliverable store_safe (with_state (cn_storage cn) s) e d) as [K1 K2 K3]; try done.
  { intros env s1 msg [Hok Ha] [Hv Hacc]. pose proof (storage_handle_authentic sh env s1 msg Hok Ha Hv Hacc) as Hh.
    destruct (storage_handle sh env s1 msg) as [[s2 out] x]. destruct Hh as (? & ? & ?). by split; [split|]. }
Qed.

Lemma storage_act_safe s cn a s' cn' : storage_act mh sh s cn a = Some (s', cn') -> store_safe s -> conn_safe cn ->
  store_safe s' /\ conn_safe cn'.
Proof.
  intros Ha Hs Hcn. destruct a; cbn [storage_act] in Ha.
  - apply bind_Some_iff in Ha as (c & Hc & Ha). pose proof (recv_good cn 0 c Hcn Hc) as Hg. destruct (ch_recv c) as [|m r]; [done|].
    apply bind_Some_iff in Ha as (cn1 & H1' & Ha). apply Forall_cons in Hg as [Hg _].
    eapply storage_drain_safe; [exact Ha|done|exact (conn_serve_safe _ _ _ Hcn H1' I)|by apply Forall_singleton].
  - eapply storage_drain_safe; [exact Ha|done..|constructor].
  - eapply storage_drain_safe; [exact Ha|done..|constructor].
  - eapply storage_drain_safe; [exact Ha|done..|constructor].
  - destruct (cs_storage _ Hcn) as [_ Ho]. destruct (d_outgoing (cn_storage cn)) as [|m out]; [done|]. apply Forall_cons in Ho as [Hm _].
    apply bind_Some_iff in Ha as (cn1 & H1' & Ha). eapply storage_drain_safe; [exact Ha|done|exact (conn_serve_safe _ _ _ Hcn H1' Hm)|constructor].
  - destruct (_ && _); [|done]. eapply storage_drain_safe; [exact Ha|done..|constructor].
  - eapply storage_drain_safe; [exact Ha|done..|constructor].
  - apply bind_Some_iff in Ha as (x & Hx & Ha). apply bind_Some_iff in Ha as (cn1 & H1' & [= <- <-]).
    exact (conj Hs (conn_serve_safe _ _ _ Hcn H1' I)).
Qed.

(** ** The router handler *)

Lemma say_all_safe cn out cn' : say_all mh cn out = Some cn' -> conn_safe cn -> Forall (fun x : nat * ServerMsg => deliverable x.2) out ->
  conn_safe cn'.
Proof.
  intros Hs Hcn Ho. revert cn Hs Hcn. induction Ho as [|[k m] out Hm _ IH]; intros cn; cbn [say_all]; [by intros [= ->]|].
  rewrite bind_Some_iff. intros (cn1 & H1' & Hs) Hcn. exact (IH _ Hs (conn_serve_safe _ _ _ Hcn H1' Hm)).
Qed.

Lemma set_thread_safe cn id hand sending : conn_safe cn -> Forall good (option_list hand) ->
  (forall sd, sending = Some sd -> sending_safe sd) -> conn_safe (set_thread cn (Serving id hand sending)).
Proof. intros [H1' H2' H3' H4'] Hh Hs. by constructor. Qed.

Lemma set_left_safe cn : conn_safe cn -> conn_safe (set_thread cn Left).
Proof. intros [H1' H2' H3' H4']. by constructor. Qed.

Lemma serving_safe sk k id sending sk' : stack_safe sk -> serving sk k id sending = Some sk' ->
  (forall sd, sending = Some sd -> sending_safe sd) -> stack_safe sk'.
Proof.
  intros Hsk Hs Hsd. unfold serving in Hs. apply bind_Some_iff in Hs as (cn & Hk & [= <-]).
  apply (set_conn_safe sk k _ (sk_storage sk)); [done|apply Hsk|]. apply set_thread_safe; [by eapply sf_conns|constructor|done].
Qed.

Lemma deliver_safe sk k id sd a todo sk' : stack_safe sk -> deliver mh sk k id sd a todo = Some sk' ->
  authentic (sd_event sd) -> utf8_ok a.2 = true -> Forall (fun a => utf8_ok a.2 = true) todo -> stack_safe sk'.
Proof.
  intros Hsk Hd Hev Ha Htodo. unfold deliver in Hd. cbn [delivery] in Hd.
  apply bind_Some_iff in Hd as (target & Ht & Hd). apply bind_Some_iff in Hd as (c & Hc & Hd).
  destruct (send_closed c); [injection Hd as <-; destruct Hsk; by constructor|].
  destruct (_ <? _)%nat; [|eapply serving_safe; [exact Hsk|exact Hd|by intros ? [= <-]]].
  apply bind_Some_iff in Hd as (target' & Hs & Hd). eapply serving_safe; [|exact Hd|by intros ? [= <-]].
  apply (set_conn_safe sk _ _ (sk_storage sk)); [done|apply Hsk|].
  eapply conn_serve_safe; [by eapply sf_conns|exact Hs|]. by apply deliverable_event.
Qed.

Lemma router_act_safe sk k cn a sk' : stack_safe sk -> sk_conns sk !! k = Some cn -> router_act mh sk k cn a = Some sk' -> stack_safe sk'.
Proof.
  intros Hsk Hk Ha. pose proof (sf_conns _ Hsk k cn Hk) as Hcn. pose proof (cs_thread _ Hcn) as Ht. unfold thread_safe in Ht.
  assert (Hset : forall w cn1, hub_safe w -> conn_safe cn1 -> stack_safe (set_conn (set_hub sk w) k cn1)).
  { intros w cn1 Hw Hc1. apply (set_conn_safe (set_hub sk w) k _ (sk_storage sk)); [by apply set_hub_safe|apply Hsk|done]. }
  assert (Hstep : forall e w' out, hub_step (sk_hub sk) e = Some (w', out) -> input_ok e -> hub_safe w' /\ Forall (fun x => deliverable x.2) out).
  { intros e w' out He Hi. by eapply hub_step_safe; [apply Hsk| |]. }
  destruct a as [| |cut| |cut|conns subs| | | |]; cbn [router_act] in Ha; destruct (cn_router cn) as [|id [m|] [sd|]|] eqn:Hrt; try done.
  - destruct (read_locked sk); [done|]. destruct (Register _ k).2 as [id| |]; [|done..].
    apply bind_Some_iff in Ha as ([w out] & He & [= <-]). destruct (Hstep _ _ _ He I) as [Hw _].
    apply Hset; [done|]. by apply set_thread_safe; [|constructor|].
  - apply bind_Some_iff in Ha as (c & Hc & Ha). pose proof (recv_good cn 1 c Hcn Hc) as Hg. destruct (position sk id) as [[]|]; try done.
    destruct (ch_recv c) as [|m r]; [done|]. apply Forall_cons in Hg as [Hg _]. apply bind_Some_iff in Ha as (cn1 & H1' & [= <-]).
    apply (set_conn_safe sk k _ (sk_storage sk)); [done|apply Hsk|]. apply set_thread_safe; [exact (conn_serve_safe _ _ _ Hcn H1' I)| |done].
    by apply Forall_singleton.
  - destruct (_ && _); [done|]. destruct (_ && _); [done|]. apply bind_Some_iff in Ha as ([w out] & He & Ha).
    destruct Ht as [[Hm _]%Forall_cons _]. destruct (Hstep _ _ _ He (proj1 Hm)) as [Hw Ho]. apply bind_Some_iff in Ha as (cn1 & Hs & [= <-]).
    apply Hset; [done|]. by apply set_thread_safe; [eapply say_all_safe|constructor|].
  - destruct (child_ended cn 1); [|done]. apply bind_Some_iff in Ha as ([w out] & He & [= <-]). destruct (Hstep _ _ _ He I) as [Hw _].
    by apply Hset.
  - destruct (position sk id) as [[]|]; try done. destruct (_ && _); [done|]. apply bind_Some_iff in Ha as ([w out] & He & Ha).
    destruct (Hstep _ _ _ He I) as [Hw Ho]. apply bind_Some_iff in Ha as (cn1 & Hs & [= <-]). apply Hset; [done|]. by eapply say_all_safe.
  - destruct (position sk id) as [[|ev| |]|] eqn:Hpos; try done. eapply serving_safe; [done|exact Ha|]. intros sd [= <-]. split.
    + unfold position in Hpos. apply fmap_Some in Hpos as ([j p] & Hw & Hp). pose proof (hs_pos _ (sf_hub _ Hsk) _ _ Hw) as Hev. cbn in Hev, Hp. by subst p.
    + apply Forall_forall. intros x. apply attempts_named. apply Hsk.
  - destruct Ht as [_ Hsd]. destruct (Hsd sd eq_refl) as [Hev Htodo]. destruct (sd_todo sd) as [|x todo]; [done|]. apply Forall_cons in Htodo as [Hx Htodo].
    by eapply deliver_safe.
  - destruct (sd_todo sd); [|done]. apply bind_Some_iff in Ha as ([w out] & He & Ha). destruct (Hstep _ _ _ He I) as [Hw _].
    eapply serving_safe; [|exact Ha|done]. by apply set_hub_safe.
  - destruct (read_locked sk); [done|]. apply bind_Some_iff in Ha as ([w out] & He & [= <-]). destruct (Hstep _ _ _ He I) as [Hw _].
    apply Hset; [done|]. by apply set_left_safe.
  - apply bind_Some_iff in Ha as (cn1 & H1' & [= <-]). apply (set_conn_safe sk k _ (sk_storage sk)); [done|apply Hsk|].
    exact (conn_serve_safe _ _ _ Hcn H1' I).
Qed.

Lemma stack_step_safe sk e sk' : stack_safe sk -> stack_input e -> stack_step mh sh sk e = Some sk' -> stack_safe sk'.
Proof.
  intros Hsk Hin. destruct e as [|k e|k|k i b|k a|k a]; cbn [stack_step].
  - intros [= <-]. destruct Hsk as [H1' H2' H3']. constructor; [done..|]. intros k cn [Hk|[_ Hk]]%lookup_app_Some; [by eapply H3'|].
    apply list_lookup_singleton_Some in Hk as [_ <-]. constructor; [by exists []|apply safe_start|by repeat constructor|done].
  - rewrite bind_Some_iff. intros (cn & Hk & Hs). apply bind_Some_iff in Hs as (cn' & Hs & [= <-]).
    apply (set_conn_safe sk k _ (sk_storage sk)); [done|apply Hsk|]. eapply conn_serve_safe; [by eapply sf_conns|exact Hs|]. by destruct e as [|[msg|]| | | | | | | | | |].
  - rewrite bind_Some_iff. intros (cn & Hk & Hs). apply bind_Some_iff in Hs as (cn' & Hs & [= <-]).
    apply (set_conn_safe sk k _ (sk_storage sk)); [done|apply Hsk|].
    exact (conn_serve_safe _ _ _ (sf_conns _ Hsk k cn Hk) Hs I).
  - rewrite bind_Some_iff. intros (cn & Hk & Hs). apply bind_Some_iff in Hs as (cn' & Hs & [= <-]).
    apply (set_conn_safe sk k _ (sk_storage sk)); [done|apply Hsk|]. eapply conn_serve_safe; [by eapply sf_conns|exact Hs|]. by destruct b.
  - rewrite bind_Some_iff. intros (cn & Hk & Hs). apply bind_Some_iff in Hs as ([s' cn'] & Hs & [= <-]).
    destruct (storage_act_safe _ _ _ _ _ Hs) as [Hs' Hc']; [apply Hsk|by eapply sf_conns|]. by apply set_conn_safe.
  - rewrite bind_Some_iff. intros (cn & Hk & Hs). by eapply router_act_safe.
Qed.

Lemma stack_run_safe es : forall sk sk', stack_safe sk -> Forall stack_input es -> stack_run mh sh sk es = Some sk' -> stack_safe sk'.
Proof.
  induction es as [|e es IH]; intros sk sk' Hsk Hin; cbn [stack_run]; [by intros [= <-]|].
  apply Forall_cons in Hin as [He Hin]. rewrite bind_Some_iff. intros (sk1 & Hs & Hr). eapply IH; [|done|exact Hr]. by eapply stack_step_safe.
Qed.

Lemma new_stack_safe s reg : store_safe s -> stack_safe (new_stack s reg).
Proof.
  intros Hs. constructor; [done| |by intros k cn Hk]. constructor; [unfold subs_ok; cbn|]; apply map_Forall_empty.
Qed.

(** What comes out of read loops and middlewares. *)
Lemma stack_inputs (es : list StackEvent) :
  (forall k msg, MergeGo k (SelectRecv (Some msg)) ∈ es -> reaches_handler msg /\ acceptable (S := S) msg) -> Forall stack_input es.
Proof.
  intros Hin. apply Forall_forall. intros [|k e| | | |] He; cbn; try done. destruct e as [|[msg|]| | | | | | | | | |]; try done.
  destruct (Hin k msg He) as [(rs & ts & m & Hm & Hsame) Hacc]. split; [|done].
  eapply same_msg_vouched; [exact Hsame|]. by eapply handed_vouched.
Qed.

End Stack.

(** ** Properties *)

(** C7: from socket to storage and back: in a relay whose connections have a merge
    handler over a storage handler and a router handler, behind read loops and any
    pipelines that keep the contract of middlewares, whatever frames arrive (with
    events the storage accepts) and however all the goroutines interleave: a storage
    that begins with authentic events only (right id, right signature, the parser's
    shape) holds authentic events only, no merge handler crashes, every event a client
    is sent, stored or live, is authentic, and every message a client is sent can be
    written and reads back as the array of its kind. *)
Theorem relay_stack_authentic `{Schnorr} {S : Type} `{StorageLaws S} (mh : mergeHandler) (sh : storageHandler) (s0 : S) (reg : bool)
    (es : list StackEvent) (sk : Stack (S := S)) :
  storage_ok s0 -> Forall authentic (contents s0) ->
  (forall k msg, MergeGo k (SelectRecv (Some msg)) ∈ es -> reaches_handler msg /\ acceptable (S := S) msg) ->
  stack_run mh sh (new_stack s0 reg) es = Some sk ->
  storage_ok (sk_storage sk) /\ Forall authentic (contents (sk_storage sk)) /\
  forall k cn, sk_conns sk !! k = Some cn ->
    crashed (sv_phase (cn_serve cn)) = false /\
    (forall m e, m ∈ sv_sent (cn_serve cn) -> s_Event m = Some e -> authentic e) /\
    forall ins, (forall m order o, WMsg m order o ∈ ins -> m ∈ sv_sent (cn_serve cn) /\ forall ms, order ms ≡ₚ ms) ->
      Forall2 reads_as (taken ins) (texts ins).
Proof.
  intros Hok Ha Hin Hr. pose proof (stack_inputs es Hin) as Hinputs.
  destruct (stack_run_safe mh sh es _ sk (new_stack_safe mh s0 reg (conj Hok Ha)) Hinputs Hr) as [[Hok' Ha'] _ Hcs].
  split_and!; [done..|]. intros k cn Hk. destruct (cs_serve _ _ (Hcs k cn Hk)) as [_ _ _ [Hsent _] Hal].
  rewrite Forall_forall in Hsent. split_and!; [done| |].
  - intros m e Hm. by apply Hsent.
  - intros ins Hins. apply texts_read, Forall_forall. intros [| |m order o|pong] Hi; try done.
    destruct (Hins _ _ _ Hi) as [Hm Ho]. split; [by apply Hsent|done].
Qed.

(** The two messages of the example come out of a read loop. *)
Lemma example_reaches k msg : MergeGo k (SelectRecv (Some msg)) ∈ StackExamples.es -> @reaches_handler AcceptAll msg.
Proof.
  pose proof calls_reach as Hc. apply Forall_cons in Hc as [Hpub Hc]. apply Forall_cons in Hc as [Hsub _].
  intros He. assert (Hm : msg = StackExamples.pub \/ msg = StackExamples.sub).
  { unfold StackExamples.es in He. cbn in He. set_solver. }
  by destruct Hm as [->| ->].
Qed.

Lemma relay_stack_authentic_witness : exists sk,
  stack_run StackExamples.mh HandlerRuns.h (new_stack NewInMemoryStorage false) StackExamples.es = Some sk /\
  Forall (@authentic AcceptAll) (events (sk_storage sk)).
Proof.
  destruct (stack_run StackExamples.mh HandlerRuns.h (new_stack NewInMemoryStorage false) StackExamples.es) as [sk|] eqn:E;
    [|by vm_compute in E].
  exists sk. split; [done|].
  refine (proj1 (proj2 (@relay_stack_authentic AcceptAll InMemoryStorage _ _ StackExamples.mh HandlerRuns.h NewInMemoryStorage false
    StackExamples.es sk new_storage_wf (Forall_nil_2 _) _ E))).
  intros k msg He. exact (conj (example_reaches k msg He) (fun _ _ => I)).
Defined.
