(* ===== verification/RelayStackAck.v ===== *)
(** * What an OK means (merge_handler.go, storage_handler.go, router_handler.go)

    The OK a client is sent for its EVENT comes out of the merge handler, which asks
    the storage handler and the router handler.  This file follows it back: through
    the merging, which accepts only what every handler accepted, and through the
    storage handler, to a call of [Store]. *)

From S2P Require Import Prelude GoTime Text Event Filter Message Interface Storage StorageSpec Drain StorageHandler.
From S2P Require Import Merge MergeReq MergeHandler MergeServe MergeServeSpec MergeSafe Router Handlers LiveRace Json EventJson EventParse MessageJson CodecSpec RelayLoops EndToEnd.
From S2P Require Import RelayStack RelayStackSpec RelayStackSafe.

(** An OK that accepts event [id]. *)
Definition says_yes (id : string) (m : ServerMsg) : Prop := is_ok_for id m = true /\ s_Accepted m = true.

(** ** The merging *)

Lemma heard_snoc i ops o : heard i (ops ++ [o]) = heard i ops ++ heard i [o].
Proof. apply omap_app. Qed.

Lemma heard_cons i o ops : heard i (o :: ops) = heard i [o] ++ heard i ops.
Proof. apply (omap_app _ [o] ops). Qed.

(** What a pending OK has collected, [said] has said. *)
Definition backed (n : nat) (said : nat -> Prop) (entry : option pendingOK) : Prop :=
  forall p, entry = Some p -> exists vs, ok_state n vs p /\ (length vs < n)%nat /\
    forall i m, (i, Answered true m) ∈ vs -> said i.

Definition said_after (id : string) (said : nat -> Prop) (ops : list op) (i : nat) : Prop :=
  said i \/ exists m, m ∈ heard i ops /\ says_yes id m.

Lemma backed_mono n (said said' : nat -> Prop) e : (forall i, said i -> said' i) -> backed n said e -> backed n said' e.
Proof. intros Hs Hb p Hp. destruct (Hb p Hp) as (vs & H1 & H2 & H3). exists vs. eauto. Qed.

(** A merged OK accepts when every handler has accepted. *)
Lemma merged_accepts n id vs : indices n vs.*1 -> length vs = n -> s_Accepted (merged_ok id vs.*2) = true ->
  forall i, (i < n)%nat -> exists m, (i, Answered true m) ∈ vs.
Proof.
  intros Hi Hn Ha i Hlt. unfold merged_ok in Ha. destruct (existsb is_lost vs.*2) eqn:Hl; [done|]. cbn in Ha.
  assert (Hin : i ∈ vs.*1) by (eapply indices_full; [exact Hi|by rewrite length_fmap|done]).
  apply list_elem_of_fmap in Hin as ([i' v] & -> & Hv). cbn.
  rewrite forallb_forall in Ha. assert (Hv2 : In v vs.*2) by (apply list_elem_of_In, list_elem_of_fmap; by exists (i', v)).
  specialize (Ha v Hv2). destruct v as [[|] m|]; [eauto|done|].
  assert (existsb is_lost vs.*2 = true); [|congruence]. apply existsb_exists. by exists Lost.
Qed.

(** A call that says [v] about the event, from handler [i]. *)
Lemma says_ok_heard id o i v : says_ok id o = Some (i, v) -> forall m, v = Answered true m -> exists m', m' ∈ heard i [o] /\ says_yes id m'.
Proof.
  intros Hs m ->. destruct o as [| | | |o1 o2 o3 j|j msg]; cbn [says_ok] in Hs; try done. destruct (is_ok_for id msg) eqn:Hm; [|done].
  injection Hs as -> Ha _. exists msg. split; [|done]. unfold heard. cbn. rewrite Nat.eqb_refl. by left.
Qed.

Lemma ok_machine_backed n id o (said : nat -> Prop) e : (0 < n)%nat -> op_ok n o -> backed n said e ->
  backed n (said_after id said [o]) (ok_machine n id o e).1 /\
  forall m, m ∈ (ok_machine n id o e).2 -> s_Accepted m = true -> forall i, (i < n)%nat -> said_after id said [o] i.
Proof.
  intros Hpos Ho Hb. assert (Hb' : backed n (said_after id said [o]) e) by (eapply backed_mono; [|exact Hb]; by left).
  destruct (starts_event id o) eqn:Hst.
  { destruct o as [id'| | | | |]; try done. cbn in Hst. apply String.eqb_eq in Hst as ->. cbn [ok_machine].
    rewrite decide_True by done. cbn. split; [|by intros m ?%not_elem_of_nil]. intros p [= <-]. exists [].
    split_and!; [constructor; try done; [split; [constructor|done]|apply flags_fresh]|done|by intros i m ?%not_elem_of_nil]. }
  destruct e as [p|]; [|rewrite ok_machine_none by done; by split; [|intros m ?%not_elem_of_nil]].
  destruct (says_ok id o) as [[i v]|] eqn:Hs; [|rewrite ok_machine_silent by done; by split; [|intros m ?%not_elem_of_nil]].
  assert (Hi : (i < n)%nat) by (by eapply speaks_ok).
  destruct (Hb p eq_refl) as (vs & Hos & Hlen & Hsaid). destruct (ok_machine_says n id o p i v Hs) as (f & -> & Hf).
  unfold collect_ok. destruct (os_flags _ _ _ Hos) as [_ Hfl]. rewrite (Hfl i Hi). case_bool_decide as Hin; [by split; [|intros m ?%not_elem_of_nil]|].
  pose proof (ok_state_step n vs p i v f Hos Hi Hin Hf) as Hos'. cbv zeta.
  assert (Hall : forall j m, (j, Answered true m) ∈ vs ++ [(i, v)] -> said_after id said [o] j).
  { intros j m [Hj|Hj]%elem_of_app; [left; by eapply Hsaid|]. apply list_elem_of_singleton in Hj as [= -> <-]. right. by eapply says_ok_heard. }
  rewrite (os_received _ _ _ Hos'), length_app. cbn [length].
  destruct (Z.leb_spec (Z.of_nat n) (Z.of_nat (length vs + 1))); cbn.
  - split; [done|]. intros m ->%list_elem_of_singleton Ha j Hj. rewrite (finalize_merged _ _ _ _ Hos') in Ha.
    destruct (merged_accepts n id _ (os_indices _ _ _ Hos') ltac:(rewrite length_app; cbn; lia) Ha j Hj) as [m' Hm']. by eapply Hall.
  - split; [|by intros m ?%not_elem_of_nil]. intros q [= <-]. exists (vs ++ [(i, v)]). split_and!; [done| |done].
    rewrite length_app. cbn. lia.
Qed.

Lemma ok_machine_run_backed n id ops : (0 < n)%nat -> Forall (op_ok n) ops -> forall (said : nat -> Prop) e, backed n said e ->
  forall m, m ∈ (run_machine (ok_machine n id) ops e).2 -> s_Accepted m = true -> forall i, (i < n)%nat -> said_after id said ops i.
Proof.
  intros Hpos. induction 1 as [|o ops Ho Hops IH]; intros said e Hb m Hm Ha i Hi; [by apply not_elem_of_nil in Hm|].
  cbn [run_machine] in Hm. destruct (ok_machine_backed n id o said e Hpos Ho Hb) as [Hb' Hout].
  destruct (ok_machine n id o e) as [e' out]. cbn [fst snd] in *.
  specialize (IH (said_after id said [o]) e' Hb' m). destruct (run_machine (ok_machine n id) ops e') as [e'' outs]. cbn [snd] in *.
  assert (Hcons : forall j, said_after id said [o] j -> said_after id said (o :: ops) j).
  { intros j [|(m' & Hm' & ?)]; [by left|]. right. exists m'. split; [|done]. rewrite heard_cons. set_solver. }
  apply elem_of_app in Hm as [Hm|Hm]; [by apply Hcons, (Hout m)|].
  destruct (IH Hm Ha i Hi) as [Hs|(m' & Hm' & Hy)]; [by apply Hcons|]. right. exists m'. split; [|done]. rewrite heard_cons. set_solver.
Qed.

(** What the merge handler sends as accepted, each of its handlers has accepted. *)
Lemma sent_yes_said h es st id m : serve_run h (serve_start h) es = Some st -> crashed (sv_phase st) = false ->
  m ∈ sv_sent st -> says_yes id m -> forall i c, sv_children st !! i = Some c -> exists m', m' ∈ ch_said c /\ says_yes id m'.
Proof.
  intros Hr%reached_inv Hal Hm [Hok Ha] i c Hc. destruct Hr as [[Hlive Hch Hops (out & Hdo & Hout) _ _] Hci _].
  assert (Hmo : m ∈ out).
  { destruct (looping _); [rewrite Hout; set_solver|]. eapply elem_of_prefix; [|exact Hout]. done. }
  apply (do_ops_view (ok_view id) (is_ok_for id) (fun n => ok_machine n id)) in Hdo; [|intros; by apply do_op_ok_view].
  assert (Hi : (i < mh_handlers h)%nat) by (apply lookup_lt_Some in Hc; lia).
  assert (Hin : m ∈ (run_machine (ok_machine (mh_handlers h) id) (sv_ops st) None).2).
  { change (numHandlers (newMergeSession (mh_handlers h) (start_session_metrics h))) with (mh_handlers h) in Hdo.
    change (ok_view id (newMergeSession (mh_handlers h) (start_session_metrics h))) with (@None pendingOK) in Hdo.
    rewrite Hdo. cbn. apply list_elem_of_In, filter_In. split; [by apply list_elem_of_In|done]. }
  destruct (ok_machine_run_backed (mh_handlers h) id (sv_ops st) ltac:(lia) Hops (fun _ => False) None ltac:(done) m Hin Ha i Hi)
    as [[]|(m' & Hm' & Hy)].
  exists m'. split; [|done]. destruct (Hci i c Hc) as [Hsaid _ _ _]. specialize (Hsaid Hal).
  destruct (live st i); [rewrite Hsaid; set_solver|]. by eapply elem_of_prefix.
Qed.

(** ** The storage handler *)

Section Storage.

Context {S : Type} `{StorageOps S} (sh : storageHandler).

Definition not_ok (m : ServerMsg) : Prop := s_Type m <> MsgTypeOK.

Lemma handleReq_no_ok env s msg : Forall not_ok (handleReq sh env s msg).1.1.
Proof.
  unfold handleReq. set (sub := c_SubscriptionID msg). destruct (String.eqb sub ""); [constructor|].
  destruct (req_loop env sub 0 _) as [[sent n] e] eqn:Hloop. destruct (req_loop_spec _ _ _ _ _ _ _ Hloop) as (k & -> & _).
  assert (Hev : Forall not_ok (event_msg sub <$> take k (q_events (storage_Query (se_query env) s (c_Filters msg))))).
  { apply Forall_fmap, Forall_forall. by intros x _. }
  assert (Hfin : forall sent err, Forall not_ok sent -> Forall not_ok (finish_req sh env msg sent err).1.1).
  { intros out err Ho. pose proof (finish_req_spec sh env msg out err) as Hf. destruct (finish_req sh env msg out err) as [[out' err'] log].
    destruct Hf as (t & -> & Ht & _). apply Forall_app_2; [done|]. unfold terminal_ok in Ht.
    destruct err'; subst t; [constructor|]. apply Forall_singleton. by case_match. }
  destruct e; [by apply Hfin..|done].
Qed.

Lemma handleCount_no_ok env s msg : Forall not_ok (handleCount sh env s msg).1.1.
Proof.
  unfold handleCount. destruct (String.eqb _ ""); [constructor|]. destruct (count_loop env 0 0 _) as [n count].
  unfold sendServerMsg. destruct (se_last env); [|constructor]. apply Forall_singleton. by repeat case_match.
Qed.

Lemma yes_is_ok id m : says_yes id m -> s_Type m = MsgTypeOK /\ s_EventID m = id.
Proof. intros [Hm _]. unfold is_ok_for in Hm. apply andb_true_iff in Hm as [?%String.eqb_eq ?%String.eqb_eq]. done. Qed.

(** An accepting OK of the storage handler answers an EVENT that [Store] took, or
    had no need to take. *)
Lemma storage_yes_stored env s msg s' out x m id : storage_handle sh env s msg = (s', out, x) -> m ∈ out -> says_yes id m ->
  c_Type msg = MsgTypeEvent /\ exists e stored, c_Event msg = Some e /\ ev_ID e = id /\ storage_Store s (Some e) = (s', Ok stored).
Proof.
  intros Hh Hm Hy. destruct (yes_is_ok _ _ Hy) as [Hty Hid]. destruct Hy as [_ Ha].
  assert (Hno : Forall not_ok out -> False) by (rewrite Forall_forall; intros Hn; by apply (Hn m Hm)).
  unfold storage_handle in Hh. destruct (String.eqb_spec (c_Type msg) MsgTypeEvent) as [Ht|_].
  { split; [done|]. unfold handleEvent, sendServerMsg in Hh. destruct (c_Event msg) as [e|].
    - destruct (storage_Store s (Some e)) as [s2 r] eqn:Es. destruct (se_last env); injection Hh as <- <- _; [|by apply not_elem_of_nil in Hm].
      apply list_elem_of_singleton in Hm as ->. exists e. destruct r as [b| |]; [|done..]. exists b. split_and!; [done| |done]. by destruct b.
    - destruct (se_last env); injection Hh as _ <- _; [|by apply not_elem_of_nil in Hm]. by apply list_elem_of_singleton in Hm as ->. }
  exfalso. apply Hno. destruct (String.eqb (c_Type msg) MsgTypeReq).
  { pose proof (handleReq_no_ok env s msg) as Hn. destruct (handleReq sh env s msg) as [[o err] log]. by injection Hh as _ <- _. }
  destruct (String.eqb (c_Type msg) MsgTypeCount); [|injection Hh as _ <- _; constructor].
  pose proof (handleCount_no_ok env s msg) as Hn. destruct (handleCount sh env s msg) as [[o err] log]. by injection Hh as _ <- _.
Qed.

(** The calls before and after one of them. *)
Lemma serve_all_middle s0 before call after s outs : serve_all sh s0 (before ++ call :: after) = (s, outs) ->
  exists s1 s2 out x, (serve_all sh s0 before).1 = s1 /\ storage_handle sh call.1 s1 call.2 = (s2, out, x) /\
    (serve_all sh s2 after).1 = s /\ outs !! length before = Some out.
Proof.
  revert s0 outs. induction before as [|[env0 m0] before IH]; intros s0 outs; cbn [serve_all app].
  - destruct call as [env msg]. destruct (storage_handle sh env s0 msg) as [[s2 out] x] eqn:Eh. destruct (serve_all sh s2 after) as [s3 outs3] eqn:Es.
    intros [= <- <-]. exists s0, s2, out, x. by rewrite Es.
  - destruct (storage_handle sh env0 s0 m0) as [[s1 out0] x0]. destruct (serve_all sh s1 (before ++ call :: after)) as [s3 outs3] eqn:Es.
    intros [= <- <-]. destruct (IH s1 outs3 Es) as (t1 & t2 & out & x & Hb & Hh & Ha & Ho). exists t1, t2, out, x.
    destruct (serve_all sh s1 before). by split_and!.
Qed.
End Storage.

(** ** The relay *)

Section Relay.

Context `{Schnorr} {S : Type} `{StorageLaws S} (mh : mergeHandler) (sh : storageHandler).

(** The message of every call of a storage handler is one its client sent. *)
Lemma calls_taken s0 reg n sk hes outs log t c : parts mh sh s0 reg n sk hes outs log t -> c ∈ log ->
  exists cn, sk_conns sk !! sc_conn c = Some cn /\ (sc_call c).2 ∈ sv_taken (cn_serve cn).
Proof.
  intros HP Hc. destruct (lookup_lt_is_Some_2 _ _ (pt_log _ _ _ _ _ _ _ _ _ _ HP c Hc)) as [cn Hk]. exists cn. split; [done|].
  destruct (pt_conns _ _ _ _ _ _ _ _ _ _ HP _ cn Hk) as ([ses Hr] & [Ho (p & c0 & Hc0 & Hv) Hh _] & _).
  apply reached_inv in Hr as [_ Hch _]. destruct (Hch 0%nat c0 Hc0) as [_ Hgot _ _]. eapply elem_of_sublist; [|exact Hgot].
  injection Hv as _ Hg _. rewrite Hg, Ho, Hh. apply elem_of_app; left. apply elem_of_app; left. apply elem_of_app; left.
  apply list_elem_of_fmap. exists (sc_call c). split; [done|]. apply list_elem_of_fmap. exists c. split; [done|].
  unfold calls_of. by apply list_elem_of_filter.
Qed.

End Relay.

(** ** Property *)

(** C5: an OK keeps its word: in a relay whose connections have a merge handler over
    a storage handler and a router handler, behind verifying read loops, however all
    the goroutines interleave, when a client has been sent an OK that accepts an id,
    that client has sent an EVENT with an authentic event of that id, and a storage
    handler has given it to [Store], which took it or had no need to; what happened
    to the storage before and after that call are calls of storage handlers; and if
    [Store] took it, and it is no deletion request, the storage then held it. *)
Theorem relay_ok_means_stored `{Schnorr} {S : Type} `{StorageLaws S} (mh : mergeHandler) (sh : storageHandler) (s0 : S) (reg : bool)
    (es : list StackEvent) (sk : Stack (S := S)) :
  mh_handlers mh = 2%nat -> Z.of_nat (length es) < two64 ->
  storage_ok s0 -> Forall authentic (contents s0) ->
  (forall k msg, MergeGo k (SelectRecv (Some msg)) ∈ es -> reaches_handler msg /\ acceptable (S := S) msg) ->
  stack_run mh sh (new_stack s0 reg) es = Some sk ->
  forall k cn id text, sk_conns sk !! k = Some cn -> NewServerOKMsg id true text ∈ sv_sent (cn_serve cn) ->
  exists msg e before after s1 s2 stored,
    msg ∈ sv_taken (cn_serve cn) /\ c_Type msg = MsgTypeEvent /\ c_Event msg = Some e /\ ev_ID e = id /\ authentic e /\
    (serve_all sh s0 before).1 = s1 /\ storage_Store s1 (Some e) = (s2, Ok stored) /\ (serve_all sh s2 after).1 = sk_storage sk /\
    (stored = true -> ev_Kind e <> 5 -> e ∈ contents s2).
Proof.
  intros Htwo Hn Hok Ha Hin Hr k cn id text Hk Hm.
  pose proof (stack_run_safe mh sh es _ sk (new_stack_safe mh s0 reg (conj Hok Ha)) (stack_inputs es Hin) Hr) as [_ _ Hsafe].
  destruct (stack_run_parts mh sh Htwo s0 reg es 0 _ [] [] [] empty_table sk (parts_start mh sh s0 reg) Hn Hr) as (hes & outs & log & t & HP).
  assert (Hgood : forall c, c ∈ log -> good (S := S) (sc_call c).2).
  { intros c Hc. destruct (calls_taken mh sh _ _ _ _ _ _ _ _ c HP Hc) as (cn' & Hk' & Htk).
    pose proof (ss_taken _ _ _ _ (cs_serve _ _ (Hsafe _ _ Hk'))) as Hf. rewrite Forall_forall in Hf. by apply Hf. }
  destruct (pt_conns _ _ _ _ _ _ _ _ _ _ HP k cn Hk) as ([ses Hrun] & [Ho (p & c0 & Hc0 & Hv) Hh Hout] & _).
  destruct (sent_yes_said mh ses _ id _ Hrun (ss_alive _ _ _ _ (cs_serve _ _ (Hsafe k cn Hk))) Hm ltac:(split; [apply String.eqb_refl|done]) 0 c0 Hc0) as (m & Hsaid & Hy).
  injection Hv as _ _ Hs. rewrite Hs in Hsaid.
  assert (Hc : exists c, c ∈ log /\ sc_conn c = k /\ m ∈ sc_out c).
  { assert (Hm' : m ∈ concat (sc_out <$> calls_of k log)) by (rewrite <-Hout; set_solver).
    apply list_elem_of_In, in_concat in Hm' as (o & Ho'%list_elem_of_In & Hmo%list_elem_of_In).
    apply list_elem_of_fmap in Ho' as (c & -> & Hc). unfold calls_of in Hc. apply list_elem_of_filter in Hc as [? ?]. eauto. }
  destruct Hc as (c & Hc & Hck & Hmc). destruct (calls_taken mh sh _ _ _ _ _ _ _ _ c HP Hc) as (cn' & Hk' & Htk).
  rewrite Hck in Hk'. assert (cn' = cn) as -> by congruence. pose proof (Hgood c Hc) as [Hv Hacc].
  apply list_elem_of_split in Hc as (l1 & l2 & ->). pose proof (pt_storage _ _ _ _ _ _ _ _ _ _ HP) as Hst.
  rewrite fmap_app, fmap_cons in Hst. destruct (serve_all_middle sh _ _ _ _ _ _ Hst) as (s1 & s2 & out & x & Hb & Hhandle & Haft & Hlook).
  rewrite length_fmap, fmap_app, fmap_cons, list_lookup_middle in Hlook by (by rewrite length_fmap). injection Hlook as <-.
  destruct (storage_yes_stored sh _ _ _ _ _ _ m id Hhandle Hmc Hy) as (Hty & e & stored & He & Hid & Hstore).
  exists (sc_call c).2, e, (sc_call <$> l1), (sc_call <$> l2), s1, s2, stored. split_and!; try done.
  - destruct (proj2 Hv Hty) as (e' & He' & Hauth). congruence.
  - intros -> Hkind. apply (law_Store_stored s1 e s2); [|by apply Hacc|done|done].
    pose proof (serve_all_authentic sh (sc_call <$> l1) s0 Hok Ha) as Hall. destruct (serve_all sh s0 (sc_call <$> l1)) as [s1' o1].
    cbn in Hb. subst s1'. apply Hall. apply Forall_fmap, Forall_forall. intros c' Hc'. apply (Hgood c'). set_solver.
Qed.

Lemma relay_ok_means_stored_witness : exists sk cn e s1 s2 stored,
  stack_run StackExamples.mh HandlerRuns.h (new_stack NewInMemoryStorage false) StackExamples.es = Some sk /\
  sk_conns sk !! 1%nat = Some cn /\ sv_sent (cn_serve cn) = [NewServerOKMsg (ev_ID RelayLoopExamples.good) true ""] /\
  ev_ID e = ev_ID RelayLoopExamples.good /\ Store s1 (Some e) = (s2, Ok stored).
Proof.
  destruct (stack_run StackExamples.mh HandlerRuns.h (new_stack NewInMemoryStorage false) StackExamples.es) as [sk|] eqn:E;
    [|by vm_compute in E].
  destruct (sk_conns sk !! 1%nat) as [cn|] eqn:Ek; [|by vm_compute in E; injection E as <-].
  assert (Hs : sv_sent (cn_serve cn) = [NewServerOKMsg (ev_ID RelayLoopExamples.good) true ""]).
  { vm_compute in E. injection E as <-. by injection Ek as <-. }
  destruct (@relay_ok_means_stored AcceptAll InMemoryStorage _ _ StackExamples.mh HandlerRuns.h NewInMemoryStorage false
    StackExamples.es sk eq_refl ltac:(by vm_compute) new_storage_wf (Forall_nil_2 _)
    (fun k msg He => conj (example_reaches k msg He) (fun _ _ => I)) E 1%nat cn (ev_ID RelayLoopExamples.good) "" Ek
    ltac:(rewrite Hs; by left)) as (msg & e & before & after & s1 & s2 & stored & _ & _ & _ & Hid & _ & _ & Hst & _).
  exists sk, cn, e, s1, s2, stored. by split_and!.
Defined.
