(* ===== verification/RelayStackLive.v ===== *)
(** * The relay does not wedge (merge_handler.go, storage_handler.go, router_handler.go, router.go)

    The deadlock freedom of the machine of RelayStack.v: when no goroutine of the
    relay can make a step that the locks let it make, every connection is finished,
    waits for its client, has handled all it was given, or waits for the lock of the
    storage, which a connection whose client does not read holds in the middle of a
    REQ; the router is not locked, and every child whose context has ended has
    returned, but for such waits. *)

From S2P Require Import Prelude GoTime Text Event Filter Message Interface Storage StorageSpec Drain StorageHandler.
From S2P Require Import Merge MergeReq MergeHandler MergeServe MergeServeSpec Router Handlers LiveRace EventJson MessageJson RelayLoops EndToEnd.
From S2P Require Import RelayStack RelayStackSpec.

(** The steps of the relay's own goroutines: neither a client that connects, sends or
    reads, nor the end of a connection's context. *)
Definition own_act (e : StackEvent) : bool :=
  match e with
  | Accept | ConnCanceled _ | MergeGo _ (SelectRecv _) | MergeGo _ SendNext => false
  | _ => true
  end.

(** ** The receive queue of a storage handler *)

Section Open.

Context {Env St : Type} (handle : Env -> St -> ClientMsg -> St * list ServerMsg * option string).
Notation Served := (@Served Env St).

(** The queue is closed only once the handler is on its way out, and a handler that
    has sent all has no error left to return with. *)
Record drain_open (d : Served) : Prop := {
  do_closed : d_queueClosed d = true -> d_ctxDone d = true \/ is_Some (d_exit d);
  do_quiet : d_exit d = None -> d_outgoing d = [] -> d_pending d = None
}.

Lemma start_open s : drain_open (start_serving s).
Proof. by constructor. Qed.

Lemma settle_open (d : Served) : (d_queueClosed d = true -> d_ctxDone d = true \/ is_Some (d_exit d)) -> drain_open (settle d).
Proof.
  intros Hc. unfold settle. destruct (d_outgoing d) eqn:Ho; [|by constructor; [|rewrite Ho]].
  destruct (d_pending d) eqn:Hp; [|by constructor; rewrite ?Hp]. constructor; cbn; [|done]. eauto.
Qed.

Lemma drain_step_open d e d' : drain_open d -> e <> DrainEOF -> drain_step handle d e = Some d' -> drain_open d'.
Proof.
  intros [Hc Hq] He. destruct d as [s ctx hand q closed out pend ex recvd handled sent]. cbn in Hc, Hq.
  destruct e; cbn [drain_step]; intros Hstep; try done.
  - injection Hstep as <-. constructor; cbn; auto.
  - destruct hand, closed; try done. injection Hstep as <-. by constructor.
  - destruct hand as [m|], closed; try done. case_match; [|done]. injection Hstep as <-. by constructor.
  - destruct closed; [by rewrite andb_false_r in Hstep|]. destruct (ctx || bool_decide (is_Some ex)) eqn:Hs; [|done]. injection Hstep as <-.
    constructor; cbn; [|done]. intros _. apply orb_true_iff in Hs as [->|Hs]; [by left|right]. by apply bool_decide_eq_true in Hs.
  - destruct (at_select _) eqn:Hsel; [|done]. apply at_select_true in Hsel as (Hex & Hp & Ho). cbn in Hex, Hp, Ho. subst.
    destruct q as [|msg q]; [done|]. destruct (handle env s msg) as [[s2 out2] x2]. injection Hstep as <-. by apply settle_open.
  - destruct ex, out as [|m out]; try done. injection Hstep as <-. by apply settle_open.
  - destruct ex, ctx; try done. injection Hstep as <-. constructor; cbn; [|done]. auto.
  - destruct (at_select _) eqn:Hsel; [|done]. destruct q, closed; try done. injection Hstep as <-. constructor; cbn; [|done]. eauto.
Qed.

(** When a step is possible. *)
Lemma drain_can (d : Served) e :
  match e with
  | CtxCancel => True
  | DrainRecv _ => d_hand d = None /\ d_queueClosed d = false
  | DrainPut => d_hand d <> None /\ d_queueClosed d = false /\ (length (d_queue d) < simpleHandlerMsgQueueBuffer)%nat
  | MainTake _ => at_select d = true /\ d_queue d <> []
  | MainSend => d_exit d = None /\ d_outgoing d <> []
  | MainCtx => d_exit d = None /\ d_ctxDone d = true
  | _ => False
  end -> drain_step handle d e <> None.
Proof.
  destruct d as [s ctx hand q closed out pend ex recvd handled sent], e; cbn [drain_step d_hand d_queueClosed d_queue d_exit d_outgoing d_ctxDone]; try done.
  - by intros [-> ->].
  - intros (Hh & -> & Hl). destruct hand; [|done]. apply Nat.ltb_lt in Hl. by rewrite Hl.
  - intros [-> Hq]. destruct q as [|m q]; [done|]. by destruct (handle env s m) as [[? ?] ?].
  - intros [-> Ho]. by destruct out.
  - by intros [-> ->].
Qed.

End Open.

Section Live.

Context {S : Type} `{StorageOps S} (mh : mergeHandler) (sh : storageHandler) (ql : bool).
Notation Conn := (@Conn S).
Notation Stack := (@Stack S).
Implicit Types (cn : Conn) (sk : Stack).

(** The states of the storage handlers. *)
Definition storages sk : list (Served (Env := SendEnv) (St := S)) := cn_storage <$> sk_conns sk.

Lemma set_conn_storages sk k cn cn' : sk_conns sk !! k = Some cn -> cn_storage cn' = cn_storage cn ->
  storages (set_conn sk k cn') = storages sk.
Proof.
  intros Hk Hc. unfold storages. cbn. by rewrite list_fmap_insert, list_insert_id by (by rewrite list_lookup_fmap, Hk, Hc).
Qed.

Lemma say_all_same cn out cn' : say_all mh cn out = Some cn' -> cn_storage cn' = cn_storage cn.
Proof.
  revert cn. induction out as [|[j m] out IH]; intros cn; cbn [say_all]; [by intros [= ->]|].
  rewrite bind_Some_iff. intros (cn1 & H1 & H2). rewrite (IH _ H2). by apply (conn_serve_same _ _ _ _ H1).
Qed.

Lemma serving_storages sk k id sending sk' : serving sk k id sending = Some sk' -> storages sk' = storages sk.
Proof. unfold serving. intros (cn & Hk & [= <-])%bind_Some_iff. by apply (set_conn_storages sk k cn). Qed.

Lemma deliver_storages sk k id sd a todo sk' : deliver mh sk k id sd a todo = Some sk' -> storages sk' = storages sk.
Proof.
  unfold deliver. cbn [delivery]. intros (target & Ht & Hd)%bind_Some_iff. apply bind_Some_iff in Hd as (c & Hc & Hd).
  destruct (send_closed c); [by injection Hd as <-|]. destruct (_ <? _)%nat; [|by apply serving_storages in Hd].
  apply bind_Some_iff in Hd as (target' & Hs & Hd). apply serving_storages in Hd as ->.
  apply (set_conn_storages sk _ target); [done|]. by apply (conn_serve_same _ _ _ _ Hs).
Qed.

Lemma router_act_storages sk k cn a sk' : sk_conns sk !! k = Some cn -> router_act mh sk k cn a = Some sk' -> storages sk' = storages sk.
Proof.
  intros Hk Ha.
  assert (Hset : forall w cn1, cn_storage cn1 = cn_storage cn -> storages (set_conn (set_hub sk w) k cn1) = storages sk).
  { intros w cn1. by apply (set_conn_storages (set_hub sk w) k cn). }
  destruct a; cbn [router_act] in Ha; destruct (cn_router cn) as [|id [m|] [sd|]|]; try done.
  - destruct (read_locked sk); [done|]. destruct (Register _ k).2; [|done..]. apply bind_Some_iff in Ha as ([w out] & _ & [= <-]). by apply Hset.
  - apply bind_Some_iff in Ha as (c & Hc & Ha). destruct (position sk id) as [[]|], (ch_recv c); try done.
    apply bind_Some_iff in Ha as (cn1 & H1 & [= <-]). apply (set_conn_storages sk k cn); [done|]. by apply (conn_serve_same _ _ _ _ H1).
  - destruct (_ && _); [done|]. destruct (_ && _); [done|]. apply bind_Some_iff in Ha as ([w out] & _ & Ha).
    apply bind_Some_iff in Ha as (cn1 & H1 & [= <-]). apply Hset. by apply say_all_same in H1.
  - destruct (child_ended cn 1); [|done]. apply bind_Some_iff in Ha as ([w out] & _ & [= <-]). by apply Hset.
  - destruct (position sk id) as [[]|]; try done. destruct (_ && _); [done|]. apply bind_Some_iff in Ha as ([w out] & _ & Ha).
    apply bind_Some_iff in Ha as (cn1 & H1 & [= <-]). apply Hset. by apply say_all_same in H1.
  - destruct (position sk id) as [[]|]; try done. by apply serving_storages in Ha.
  - destruct (sd_todo sd); [done|]. by apply deliver_storages in Ha.
  - destruct (sd_todo sd); [|done]. apply bind_Some_iff in Ha as ([w out] & _ & Ha). by apply serving_storages in Ha as ->.
  - destruct (read_locked sk); [done|]. apply bind_Some_iff in Ha as ([w out] & _ & [= <-]). by apply Hset.
  - apply bind_Some_iff in Ha as (cn1 & H1 & [= <-]). apply (set_conn_storages sk k cn); [done|]. by apply (conn_serve_same _ _ _ _ H1).
Qed.

Lemma storage_drain_open s cn e s' cn' : storage_drain sh s cn e = Some (s', cn') -> e <> DrainEOF -> drain_open (cn_storage cn) ->
  drain_open (cn_storage cn').
Proof.
  unfold storage_drain. intros (d & Hd & [= -> ->])%fmap_Some He [Hc Hq]. eapply drain_step_open; [|exact He|exact Hd]. by constructor.
Qed.

Lemma storage_act_open s cn a s' cn' : storage_act mh sh s cn a = Some (s', cn') -> drain_open (cn_storage cn) -> drain_open (cn_storage cn').
Proof.
  intros Ha Ho. destruct a; cbn [storage_act] in Ha.
  - apply bind_Some_iff in Ha as (c & Hc & Ha). destruct (ch_recv c); [done|]. apply bind_Some_iff in Ha as (cn1 & H1 & Ha).
    eapply storage_drain_open; [exact Ha|done|]. by rewrite (proj1 (conn_serve_same _ _ _ _ H1)).
  - by eapply storage_drain_open.
  - by eapply storage_drain_open.
  - by eapply storage_drain_open.
  - destruct (d_outgoing _); [done|]. apply bind_Some_iff in Ha as (cn1 & H1 & Ha).
    eapply storage_drain_open; [exact Ha|done|]. by rewrite (proj1 (conn_serve_same _ _ _ _ H1)).
  - destruct (_ && _); [|done]. by eapply storage_drain_open.
  - by eapply storage_drain_open.
  - apply bind_Some_iff in Ha as (x & Hx & Ha). apply bind_Some_iff in Ha as (cn1 & H1 & [= <- <-]).
    by rewrite (proj1 (conn_serve_same _ _ _ _ H1)).
Qed.

Definition queues_open sk : Prop := Forall drain_open (storages sk).

Lemma stack_step_open sk e sk' : queues_open sk -> stack_step mh sh sk e = Some sk' -> queues_open sk'.
Proof.
  unfold queues_open. intros Hq. destruct e as [|k e|k|k i b|k a|k a]; cbn [stack_step].
  - intros [= <-]. unfold storages. cbn. rewrite fmap_app. apply Forall_app_2; [done|]. apply Forall_singleton, start_open.
  - rewrite bind_Some_iff. intros (cn & Hk & Hs). apply bind_Some_iff in Hs as (cn' & Hs & [= <-]).
    rewrite (set_conn_storages sk k cn); [done..|]. by apply (conn_serve_same _ _ _ _ Hs).
  - rewrite bind_Some_iff. intros (cn & Hk & Hs). apply bind_Some_iff in Hs as (cn' & Hs & [= <-]).
    rewrite (set_conn_storages sk k cn); [done..|]. by apply (conn_serve_same _ _ _ _ Hs).
  - rewrite bind_Some_iff. intros (cn & Hk & Hs). apply bind_Some_iff in Hs as (cn' & Hs & [= <-]).
    rewrite (set_conn_storages sk k cn); [done..|]. by apply (conn_serve_same _ _ _ _ Hs).
  - rewrite bind_Some_iff. intros (cn & Hk & Hs). apply bind_Some_iff in Hs as ([s' cn'] & Hs & [= <-]).
    unfold storages. cbn. rewrite list_fmap_insert. apply Forall_insert; [done|]. eapply storage_act_open; [exact Hs|].
    rewrite Forall_forall in Hq. apply Hq. apply list_elem_of_fmap. exists cn. split; [done|]. by eapply list_elem_of_lookup_2.
  - rewrite bind_Some_iff. intros (cn & Hk & Hs). by rewrite (router_act_storages sk k cn a sk').
Qed.

Lemma stack_run_open es : forall sk sk', queues_open sk -> stack_run mh sh sk es = Some sk' -> queues_open sk'.
Proof.
  induction es as [|e es IH]; intros sk sk' Hq; cbn [stack_run]; [by intros [= <-]|].
  rewrite bind_Some_iff. intros (sk1 & Hs & Hr). eapply IH; [|exact Hr]. by eapply stack_step_open.
Qed.

(** ** A relay in which nobody can move *)

(** An environment in which a message can be handled. *)
Definition any_send_env : SendEnv := mkSendEnv None (fun _ => Alive) (fun _ => None) Alive true 0 0.

Section Stuck.

Context (s0 : S) (reg : bool) (n : nat) (sk : Stack) (hes : list HubEvent) (outs : list (nat * ServerMsg)) (log : list StorageCall)
  (t : RouterTable).
Context (HP : parts mh sh s0 reg n sk hes outs log t) (Hopen : queues_open sk) (Hn : Z.of_nat (Datatypes.S n) < two64).
Context (Hstuck : forall e, own_act e = true -> lock_lets ql sk e = true -> stack_step mh sh sk e = None).

Lemma stuck_router k cn a : sk_conns sk !! k = Some cn -> router_act mh sk k cn a = None.
Proof. intros Hk. specialize (Hstuck (RouterGo k a) eq_refl eq_refl). cbn in Hstuck. by rewrite Hk in Hstuck. Qed.

Lemma stuck_storage k cn a : sk_conns sk !! k = Some cn -> waits_for_lock ql sk cn = false ->
  storage_act mh sh (sk_storage sk) cn a = None.
Proof.
  intros Hk Hw. specialize (Hstuck (StorageGo k a) eq_refl ltac:(by destruct a; cbn; rewrite ?Hk, ?Hw)). cbn [stack_step] in Hstuck. rewrite Hk in Hstuck. cbn [mbind option_bind] in Hstuck.
  by destruct (storage_act mh sh (sk_storage sk) cn a) as [[s cn']|].
Qed.

Lemma stuck_loop k cn e : sk_conns sk !! k = Some cn -> own_act (MergeGo k e) = true -> loop_step mh (cn_serve cn) e = None.
Proof.
  intros Hk Ho. specialize (Hstuck (MergeGo k e) Ho eq_refl). cbn [stack_step] in Hstuck. rewrite Hk in Hstuck. cbn [mbind option_bind] in Hstuck.
  unfold conn_serve in Hstuck. cbn [serve_step] in Hstuck. by destruct (loop_step mh (cn_serve cn) e).
Qed.

(** What a child can do, its connection can. *)
Lemma child_can cn i c e c' : child_of cn i = Some c -> child_step c e = Some c' -> exists cn', conn_serve mh cn (OfChild i e) = Some cn'.
Proof. unfold child_of, conn_serve. intros Hc He. cbn [serve_step]. rewrite Hc. cbn. rewrite He. cbn. eauto. Qed.

Lemma says_can cn i c m : child_of cn i = Some c -> ch_phase c = Running -> (length (ch_send c) < childSendBuffer)%nat ->
  exists cn', conn_serve mh cn (OfChild i (Says m)) = Some cn'.
Proof.
  intros Hc Hp Hl. eapply child_can; [exact Hc|]. unfold child_step. rewrite Hp. apply Nat.ltb_lt in Hl. by rewrite Hl.
Qed.

Lemma takes_can cn i c m r : child_of cn i = Some c -> ch_phase c = Running -> ch_recv c = m :: r ->
  exists cn', conn_serve mh cn (OfChild i Takes) = Some cn'.
Proof. intros Hc Hp Hr. eapply child_can; [exact Hc|]. unfold child_step. by rewrite Hp, Hr. Qed.

Lemma returns_can cn i c x : child_of cn i = Some c -> ch_phase c = Running -> exists cn', conn_serve mh cn (OfChild i (Returns x)) = Some cn'.
Proof. intros Hc Hp. eapply child_can; [exact Hc|]. unfold child_step. by rewrite Hp. Qed.

(** A child whose handler has returned is gone. *)
Lemma stuck_child k cn i c : sk_conns sk !! k = Some cn -> child_of cn i = Some c -> ch_phase c = Running \/ ch_phase c = Gone.
Proof.
  intros Hk Hc. destruct (ch_phase c) eqn:Hp; [by left| | |by right]; exfalso.
  - specialize (Hstuck (Unwinds k i false) eq_refl eq_refl). cbn [stack_step] in Hstuck. rewrite Hk in Hstuck. cbn [mbind option_bind] in Hstuck.
    destruct (child_can cn i c Closes (set_child_phase c Closed) Hc) as [cn' E]; [unfold child_step; by rewrite Hp|]. by rewrite E in Hstuck.
  - specialize (Hstuck (Unwinds k i true) eq_refl eq_refl). cbn [stack_step] in Hstuck. rewrite Hk in Hstuck. cbn [mbind option_bind] in Hstuck.
    destruct (child_can cn i c Leaves (set_child_phase c Gone) Hc) as [cn' E]; [unfold child_step; by rewrite Hp|]. by rewrite E in Hstuck.
Qed.

Lemma stuck_serving k cn id sending : sk_conns sk !! k = Some cn -> serving sk k id sending = None -> False.
Proof. unfold serving. by intros ->. Qed.

(** *** The lock *)

(** No broadcast is under way: its next step would be possible. *)
Lemma stuck_no_broadcast k cn : sk_conns sk !! k = Some cn -> sending_of cn = None.
Proof.
  intros Hk. destruct (sending_of cn) as [sd|] eqn:Hs; [|done]. exfalso.
  destruct (pt_conns _ _ _ _ _ _ _ _ _ _ HP k cn Hk) as (_ & _ & Hrp). unfold router_part, sending_of in *.
  destruct (cn_router cn) as [|id hand sending|] eqn:Hrt; [done| |done]. subst sending. destruct Hrp as [(p & Hw & Hsd) _].
  destruct hand; [done|]. cbn [hands_part] in Hsd. destruct (sd_todo sd) as [|a todo] eqn:Htodo.
  - pose proof (stuck_router k cn RtEnd Hk) as Hno. cbn [router_act] in Hno. rewrite Hrt, Htodo in Hno. cbn [hub_step] in Hno.
    rewrite Hw in Hno. rewrite (sg_position _ _ _ Hsd) in Hno. cbn [router_go] in Hno. destruct (Broadcast _ _ _) as [r o]. cbn in Hno.
    unfold serving in Hno. cbn in Hno. by rewrite Hk in Hno.
  - pose proof (stuck_router k cn RtDeliver Hk) as Hno. cbn [router_act] in Hno. rewrite Hrt, Htodo in Hno.
    assert (Ha : a ∈ attempts (found sd) (w_router (sk_hub sk)) (sd_event sd)) by (rewrite <-(sg_attempts _ _ _ Hsd), Htodo; set_solver).
    destruct (target_open _ _ _ _ _ _ _ _ _ _ _ _ _ HP Ha) as (ct & c & Hct & _ & Hc & Hrun).
    unfold deliver in Hno. cbn [delivery] in Hno. rewrite Hct in Hno. cbn [mbind option_bind] in Hno. rewrite Hc in Hno. cbn [mbind option_bind] in Hno.
    unfold send_closed in Hno. rewrite Hrun in Hno. destruct (Nat.ltb_spec (length (ch_send c)) childSendBuffer) as [Hl|_].
    + destruct (says_can ct 1 c (NewServerEventMsg a.2 (Some (sd_event sd))) Hc Hrun Hl) as [ct' E]. rewrite E in Hno. cbn [mbind option_bind] in Hno.
      unfold serving in Hno. cbn [set_conn sk_conns] in Hno.
      destruct (lookup_lt_is_Some_2 (<[channel_of (w_router (sk_hub sk)) a.1:=ct']> (sk_conns sk)) k) as [cnk Hck].
      { rewrite length_insert. by eapply lookup_lt_Some. }
      by rewrite Hck in Hno.
    + unfold serving in Hno. by rewrite Hk in Hno.
Qed.

Lemma stuck_unlocked : read_locked sk = false.
Proof.
  unfold read_locked. destruct (existsb broadcasting (sk_conns sk)) eqn:E; [|done]. apply existsb_exists in E as (cn & Hcn & Hb).
  apply list_elem_of_In, list_elem_of_lookup in Hcn as [k Hk]. pose proof (stuck_no_broadcast k cn Hk) as Hs.
  unfold broadcasting, sending_of in *. by destruct (cn_router cn) as [|? ? []|].
Qed.

(** *** The router handlers *)

(** What a router handler says at once is one message at most, and nothing when the
    context ends first. *)
Lemma router_take_says id r m cut : (length (router_take id r (InMsg m cut)).1.2 <= 1)%nat /\
  (cut = true -> (router_take id r (InMsg m cut)).1.2 = []).
Proof. cbn [router_take]. destruct cut; repeat case_match; split; cbn; done || lia. Qed.

Lemma say_can cn c (out : list (nat * ServerMsg)) ended : child_of cn 1 = Some c -> ch_phase c = Running -> (length out <= 1)%nat ->
  (ended = true -> out = []) -> (ended = false -> (length (ch_send c) < childSendBuffer)%nat) -> exists cn', say_all mh cn out = Some cn'.
Proof.
  intros Hc Hp Hl He Hroom. destruct out as [|[j m] [|]]; cbn [say_all]; [eauto| |cbn in Hl; lia]. destruct ended; [by specialize (He eq_refl)|].
  destruct (says_can cn 1 c m Hc Hp (Hroom eq_refl)) as [cn' ->]. cbn. eauto.
Qed.

(** A router handler that has not returned is registered and waits at its select, its
    context not ended, unless its channel is full. *)
Lemma stuck_router_child k cn c : sk_conns sk !! k = Some cn -> child_of cn 1 = Some c -> ch_phase c = Running ->
  (child_ended cn 1 = false -> (length (ch_send c) < childSendBuffer)%nat) ->
  child_ended cn 1 = false /\ ch_recv c = [] /\ exists id, cn_router cn = Serving id None None /\ position sk id = Some AtSelect.
Proof.
  intros Hk Hc Hp Hroom. pose proof (stuck_no_broadcast k cn Hk) as Hnb. pose proof stuck_unlocked as Hul.
  destruct (pt_conns _ _ _ _ _ _ _ _ _ _ HP k cn Hk) as (_ & _ & Hrp). unfold router_part, sending_of in *.
  assert (Hsay : forall out : list (nat * ServerMsg), (length out <= 1)%nat -> (child_ended cn 1 = true -> out = []) -> say_all mh cn out <> None).
  { intros out H1 H2. destruct (say_can cn c out _ Hc Hp H1 H2 Hroom) as [cn' ->]. done. }
  assert (Hcut : child_ended cn 1 && negb (child_ended cn 1) = false) by (by destruct (child_ended cn 1)).
  destruct (cn_router cn) as [|id hand sending|] eqn:Hrt.
  - exfalso. pose proof (stuck_router k cn RtRegister Hk) as Hno. cbn [router_act] in Hno. rewrite Hrt, Hul in Hno.
    pose proof (pt_table _ _ _ _ _ _ _ _ _ _ HP) as Hti. pose proof (pt_count _ _ _ _ _ _ _ _ _ _ HP) as Hcnt.
    destruct (Register_represents (w_router (sk_hub sk)) t k (hi_rep _ _ _ Hti)) as (r' & Heq & _); [rewrite (hi_count _ _ _ Hti); int_lia|].
    cbn [hub_step] in Hno. by rewrite Heq in Hno.
  - subst sending. destruct Hrp as [(p & Hw & Hh) _]. destruct hand as [m|]; cbn [hands_part] in Hh.
    { exfalso. subst p. pose proof (stuck_router k cn (RtTurn (child_ended cn 1)) Hk) as Hno. cbn [router_act] in Hno.
      rewrite Hrt, Hul, andb_false_r, Hcut in Hno. cbn [hub_step] in Hno. rewrite Hw in Hno.
      pose proof (router_take_says id (w_router (sk_hub sk)) m (child_ended cn 1)) as [Hl He].
      destruct (router_take id _ _) as [[r sent] p]. cbn [fst snd] in Hl, He. cbn [mbind option_bind] in Hno.
      destruct (say_all mh cn (pair k <$> sent)) eqn:Es; [done|]. apply (Hsay (pair k <$> sent)); [by rewrite length_fmap| |done].
      intros Hx. by rewrite He. }
    assert (Hpos : position sk id = Some p) by (unfold position; by rewrite Hw). destruct p as [|ev|m|].
    + pose proof (stuck_router k cn RtStop Hk) as Hno. cbn [router_act] in Hno. rewrite Hrt in Hno. destruct (child_ended cn 1) eqn:He.
      { exfalso. cbn [hub_step] in Hno. by rewrite Hw in Hno. }
      split; [done|]. split; [|eauto]. destruct (ch_recv c) as [|m r] eqn:Hr; [done|]. exfalso.
      pose proof (stuck_router k cn RtTake Hk) as Ht. cbn [router_act] in Ht. rewrite Hrt, Hc in Ht. cbn [mbind option_bind] in Ht. rewrite Hpos, Hr in Ht.
      destruct (takes_can cn 1 c m r Hc Hp Hr) as [cn' E]. by rewrite E in Ht.
    + exfalso. pose proof (stuck_router k cn (RtBroadcast range_in_order (fun _ => range_in_order)) Hk) as Hno. cbn [router_act] in Hno.
      rewrite Hrt, Hpos in Hno. by eapply stuck_serving.
    + exfalso. pose proof (stuck_router k cn (RtSend (child_ended cn 1)) Hk) as Hno. cbn [router_act] in Hno. rewrite Hrt, Hpos, Hcut in Hno.
      cbn [hub_step] in Hno. rewrite Hw in Hno. cbn [router_go mbind option_bind] in Hno. rewrite app_nil_r in Hno.
      destruct (say_all mh cn (pair k <$> _)) eqn:Es; [done|]. eapply Hsay; [| |exact Es].
      * rewrite length_fmap. destruct (child_ended cn 1); cbn; lia.
      * by intros ->.
    + exfalso. pose proof (stuck_router k cn RtUnregister Hk) as Hno. cbn [router_act] in Hno. rewrite Hrt, Hul in Hno. cbn [hub_step] in Hno.
      by rewrite Hw in Hno.
  - exfalso. pose proof (stuck_router k cn RtReturn Hk) as Hno. cbn [router_act] in Hno. rewrite Hrt in Hno.
    destruct (returns_can cn 1 c (Some ctx_err) Hc Hp) as [cn' E]. by rewrite E in Hno.
Qed.

(** *** The storage handlers *)

Lemma stuck_storage_child k cn c : sk_conns sk !! k = Some cn -> child_of cn 0 = Some c -> ch_phase c = Running ->
  waits_for_lock ql sk cn = false -> (child_ended cn 0 = false -> (length (ch_send c) < childSendBuffer)%nat) ->
  child_ended cn 0 = false /\ ch_recv c = [] /\
  d_hand (cn_storage cn) = None /\ d_queue (cn_storage cn) = [] /\ d_outgoing (cn_storage cn) = [].
Proof.
  intros Hk Hc Hp Hw Hroom. set (d := cn_storage cn).
  assert (Ho : drain_open d).
  { unfold queues_open, storages in Hopen. rewrite Forall_forall in Hopen. apply Hopen, list_elem_of_fmap. exists cn. split; [done|]. by eapply list_elem_of_lookup_2. }
  destruct Ho as [Hcl Hq].
  assert (Hdrain : forall e cn1, storage_drain sh (sk_storage sk) cn1 e = None -> cn_storage cn1 = d ->
    drain_step (storage_handle sh) (with_state d (sk_storage sk)) e = None).
  { intros e cn1 Hno Hd. unfold storage_drain in Hno. rewrite Hd in Hno. by destruct (drain_step _ _ e). }
  assert (Hex : d_exit d = None).
  { destruct (d_exit d) as [x|] eqn:Hx; [|done]. exfalso. pose proof (stuck_storage k cn StReturn Hk Hw) as Hno. cbn [storage_act] in Hno.
    fold d in Hno. rewrite Hx in Hno. cbn [mbind option_bind] in Hno. destruct (returns_can cn 0 c (exit_error x) Hc Hp) as [cn' E]. by rewrite E in Hno. }
  assert (Hctx : d_ctxDone d = false).
  { destruct (d_ctxDone d) eqn:E; [|done]. exfalso. by apply (drain_can (storage_handle sh) (with_state d (sk_storage sk)) MainCtx),
      (Hdrain _ cn (stuck_storage k cn StQuit Hk Hw)). }
  assert (Hend : child_ended cn 0 = false).
  { destruct (child_ended cn 0) eqn:E; [|done]. exfalso. pose proof (stuck_storage k cn StCancel Hk Hw) as Hno. cbn [storage_act] in Hno. fold d in Hno. rewrite E, Hctx in Hno.
    by apply (drain_can (storage_handle sh) (with_state d (sk_storage sk)) CtxCancel), (Hdrain _ cn Hno). }
  specialize (Hroom Hend).
  assert (Hclosed : d_queueClosed d = false).
  { destruct (d_queueClosed d) eqn:E; [|done]. destruct (Hcl eq_refl) as [|[? ?]]; congruence. }
  assert (Hout : d_outgoing d = []).
  { destruct (d_outgoing d) as [|m out] eqn:Ho; [done|]. exfalso. pose proof (stuck_storage k cn StSend Hk Hw) as Hno. cbn [storage_act] in Hno.
    fold d in Hno. rewrite Ho in Hno. destruct (says_can cn 0 c m Hc Hp Hroom) as [cn' E]. rewrite E in Hno. cbn [mbind option_bind] in Hno.
    apply (drain_can (storage_handle sh) (with_state d (sk_storage sk)) MainSend); [split; [done|cbn; by rewrite Ho]|].
    apply (Hdrain _ cn' Hno). by apply (conn_serve_same _ _ _ _ E). }
  assert (Hqueue : d_queue d = []).
  { destruct (d_queue d) as [|m q] eqn:Eq; [done|]. exfalso.
    apply (drain_can (storage_handle sh) (with_state d (sk_storage sk)) (MainTake any_send_env)).
    - unfold at_select. cbn. by rewrite Hex, Hout, (Hq Hex Hout), Eq.
    - apply (Hdrain _ cn (stuck_storage k cn (StHandle any_send_env) Hk Hw)). done. }
  assert (Hhand : d_hand d = None).
  { destruct (d_hand d) eqn:Eh; [|done]. exfalso. apply (drain_can (storage_handle sh) (with_state d (sk_storage sk)) DrainPut).
    - cbn. rewrite Eh, Hclosed, Hqueue. split_and!; [done..|]. unfold simpleHandlerMsgQueueBuffer. cbn. lia.
    - by apply (Hdrain _ cn (stuck_storage k cn StQueue Hk Hw)). }
  split_and!; try done. destruct (ch_recv c) as [|m r] eqn:Hr; [done|]. exfalso.
  pose proof (stuck_storage k cn StReceive Hk Hw) as Hno. cbn [storage_act] in Hno. rewrite Hc in Hno. cbn [mbind option_bind] in Hno. rewrite Hr in Hno.
  destruct (takes_can cn 0 c m r Hc Hp Hr) as [cn' E]. rewrite E in Hno. cbn [mbind option_bind] in Hno.
  apply (drain_can (storage_handle sh) (with_state d (sk_storage sk)) (DrainRecv m)); [done|].
  apply (Hdrain _ cn' Hno). by apply (conn_serve_same _ _ _ _ E).
Qed.

(** *** Children and loops *)

(** A child whose context has ended has returned, unless it waits for the lock of
    the storage. *)
Lemma stuck_ended k cn i c : mh_handlers mh = 2%nat -> sk_conns sk !! k = Some cn -> child_of cn i = Some c -> child_ended cn i = true ->
  ch_phase c = Gone \/ i = 0%nat /\ waits_for_lock ql sk cn = true.
Proof.
  intros Htwo Hk Hc He. destruct (stuck_child k cn i c Hk Hc) as [Hp|]; [|by left].
  destruct (pt_conns _ _ _ _ _ _ _ _ _ _ HP k cn Hk) as ([ses Hr] & _ & _). apply reached_inv in Hr as [Hsi _ _].
  assert (Hi : (i < 2)%nat) by (rewrite <-Htwo, <-(si_children _ _ _ Hsi); by eapply lookup_lt_Some).
  destruct i as [|[|]]; [| |lia].
  - destruct (waits_for_lock ql sk cn) eqn:Hw; [by right|].
    destruct (stuck_storage_child k cn c Hk Hc Hp Hw) as [Hf _]; congruence.
  - destruct (stuck_router_child k cn c Hk Hc Hp) as [Hf _]; congruence.
Qed.

(** A child that waits for its client has nothing left to take or to hand over. *)
Definition idle_child cn (i : nat) : Prop :=
  exists c, child_of cn i = Some c /\ ch_phase c = Running /\ ch_recv c = [] /\ ch_send c = [].

(** A connection that waits for its client has handled all it was given, or its
    storage handler waits for the lock of the storage. *)
Record waiting cn : Prop := {
  wt_storage : live (cn_serve cn) 0 = true -> waits_for_lock ql sk cn = true \/
    idle_child cn 0 /\ d_hand (cn_storage cn) = None /\ d_queue (cn_storage cn) = [] /\ d_outgoing (cn_storage cn) = [];
  wt_router : live (cn_serve cn) 1 = true -> idle_child cn 1 /\
    exists id, cn_router cn = Serving id None None /\ position sk id = Some AtSelect
}.

(** At the select, what the live children have said has been taken. *)
Lemma stuck_selecting k cn i c : sk_conns sk !! k = Some cn -> sv_phase (cn_serve cn) = Selecting -> child_of cn i = Some c ->
  live (cn_serve cn) i = true -> ch_phase c = Running /\ ch_send c = [].
Proof.
  intros Hk Hp Hc Hl. pose proof (stuck_loop k cn (SelectChild i range_in_order range_in_order range_in_order) Hk eq_refl) as Hno.
  unfold loop_step in Hno. rewrite Hp in Hno. unfold child_of in Hc. rewrite Hc in Hno. cbn [mbind option_bind] in Hno. rewrite Hl in Hno.
  destruct (ch_send c); [|done]. split; [|done]. destruct (stuck_child k cn i c Hk Hc) as [|Hg]; [done|].
  unfold send_closed in Hno. by rewrite Hg in Hno.
Qed.

Lemma stuck_waiting k cn : mh_handlers mh = 2%nat -> sk_conns sk !! k = Some cn -> sv_phase (cn_serve cn) = Selecting -> waiting cn.
Proof.
  intros Htwo Hk Hp. destruct (pt_conns _ _ _ _ _ _ _ _ _ _ HP k cn Hk) as ([ses Hr] & _ & _). apply reached_inv in Hr as [Hsi _ _].
  assert (Hget : forall i, (i < 2)%nat -> live (cn_serve cn) i = true ->
    exists c, child_of cn i = Some c /\ ch_phase c = Running /\ ch_send c = [] /\ (length (ch_send c) < childSendBuffer)%nat).
  { intros i Hi Hl. destruct (lookup_lt_is_Some_2 (sv_children (cn_serve cn)) i) as [c Hc]; [by rewrite (si_children _ _ _ Hsi), Htwo|].
    destruct (stuck_selecting k cn i c Hk Hp Hc Hl) as [Hrun Hs]. exists c. split_and!; [done..|].
    rewrite Hs. cbn. unfold childSendBuffer. lia. }
  constructor; intros Hl.
  - destruct (waits_for_lock ql sk cn) eqn:Hw; [by left|right]. destruct (Hget 0%nat ltac:(lia) Hl) as (c & Hc & Hrun & Hs & Hroom).
    destruct (stuck_storage_child k cn c Hk Hc Hrun Hw (fun _ => Hroom)) as (_ & Hr0 & Hd). split; [by exists c|done].
  - destruct (Hget 1%nat ltac:(lia) Hl) as (c & Hc & Hrun & Hs & Hroom).
    destruct (stuck_router_child k cn c Hk Hc Hrun (fun _ => Hroom)) as (_ & Hr1 & Hd). split; [by exists c|done].
Qed.

(** *** Who holds the lock of the storage *)

(** Where a merge loop stands when its goroutines cannot move. *)
Lemma stuck_loop_phase k cn : mh_handlers mh = 2%nat -> sk_conns sk !! k = Some cn ->
  match sv_phase (cn_serve cn) with
  | Finished _ | Crashed _ => True
  | Selecting | Forwarding (_ :: _) _ => sv_done (cn_serve cn) = false
  | Joining _ => sv_done (cn_serve cn) = false \/ waits_for_lock ql sk cn = true
  | _ => False
  end.
Proof.
  intros Htwo Hk. pose proof (fun e => stuck_loop k cn e Hk) as Hno.
  assert (Hdone : forall e, own_act (MergeGo k e) = true -> (sv_done (cn_serve cn) = true -> loop_step mh (cn_serve cn) e <> None) -> sv_done (cn_serve cn) = false).
  { intros e Ho He. destruct (sv_done (cn_serve cn)); [|done]. by destruct (He eq_refl (Hno e Ho)). }
  destruct (sv_phase (cn_serve cn)) as [|msg i dead|msg i dead|[|r results] [|i dead]|canceled|errs|w] eqn:Hp; try done.
  - apply (Hdone SelectDone eq_refl). intros Hd. unfold loop_step. by rewrite Hp, Hd.
  - specialize (Hno TryChild eq_refl). unfold loop_step in Hno. by rewrite Hp in Hno.
  - specialize (Hno TimerFires eq_refl). unfold loop_step in Hno. by rewrite Hp in Hno.
  - specialize (Hno Resume eq_refl). unfold loop_step in Hno. by rewrite Hp in Hno.
  - specialize (Hno (NextDead range_in_order range_in_order range_in_order) eq_refl). unfold loop_step in Hno. by rewrite Hp in Hno.
  - apply (Hdone SendDone eq_refl). intros Hd. unfold loop_step. by rewrite Hp, Hd.
  - apply (Hdone SendDone eq_refl). intros Hd. unfold loop_step. by rewrite Hp, Hd.
  - destruct (waits_for_lock ql sk cn) eqn:Hw; [by right|left]. apply (Hdone Join eq_refl). intros Hd. unfold loop_step. rewrite Hp.
    replace (forallb is_gone _) with true; [done|]. symmetry.
    apply forallb_forall. intros c Hc%list_elem_of_In. apply list_elem_of_lookup in Hc as [i Hc]. unfold is_gone.
    destruct (stuck_ended k cn i c Htwo Hk Hc) as [->|[_ ?]]; [unfold child_ended; by rewrite Hd|done|congruence].
Qed.

(** A connection whose client does not read, or has left without its context having
    ended (or whose merge loop has crashed). *)
Definition stalled cn : Prop :=
  match sv_phase (cn_serve cn) with
  | Forwarding (_ :: _) _ | Joining _ => sv_done (cn_serve cn) = false
  | Crashed _ => True
  | _ => False
  end.

Lemma holder_lets cn : holds_lock cn = true -> waits_for_lock ql sk cn = false.
Proof.
  unfold holds_lock, waits_for_lock, about_to, next_message, at_select. intros Hh.
  destruct (child_of cn 0), (d_exit (cn_storage cn)), (d_outgoing (cn_storage cn)); try done.
  - by destruct (ch_phase _).
  - by destruct (d_pending _); rewrite !andb_false_r.
Qed.

Lemma stuck_holder k cn : mh_handlers mh = 2%nat -> sk_conns sk !! k = Some cn -> holds_lock cn = true -> stalled cn.
Proof.
  intros Htwo Hk Hh. pose proof (holder_lets cn Hh) as Hw. pose proof (stuck_loop_phase k cn Htwo Hk) as Hp.
  destruct (pt_conns _ _ _ _ _ _ _ _ _ _ HP k cn Hk) as ([ses Hr] & _ & _).
  assert (Hf : finish_inv (cn_serve cn)) by (by apply (serve_run_ind finish_inv mh (serve_step_finish mh) ses (serve_start mh))).
  apply reached_inv in Hr as [_ Hci _]. unfold holds_lock in Hh. destruct (child_of cn 0) as [c|] eqn:Hc; [|done].
  destruct (d_exit (cn_storage cn)) eqn:Hx; [done|]. destruct (ch_phase c) eqn:Hrun; try done.
  assert (Hfull : ~ (child_ended cn 0 = false -> (length (ch_send c) < childSendBuffer)%nat)).
  { intros Hroom. destruct (stuck_storage_child k cn c Hk Hc Hrun Hw Hroom) as (_ & _ & _ & _ & Ho). by rewrite Ho in Hh. }
  assert (He : child_ended cn 0 = false) by (destruct (child_ended cn 0); [by destruct Hfull|done]).
  unfold stalled. destruct (sv_phase (cn_serve cn)) as [|msg i dead|msg i dead|[|r results] dead|canceled|errs|w] eqn:Hph; try done.
  - destruct (live (cn_serve cn) 0) eqn:Hl.
    + destruct (stuck_selecting k cn 0 c Hk Hph Hc Hl) as [_ Hs]. destruct Hfull. intros _. rewrite Hs. cbn. unfold childSendBuffer. lia.
    + pose proof (ci_canceled _ _ _ (Hci 0%nat c Hc) Hl) as Hcan. unfold child_ended in He. rewrite Hc, Hcan, orb_true_r in He. done.
  - destruct Hp as [?|?]; [done|congruence].
  - destruct (Hf _ Hph) as [Hg _]. rewrite forallb_forall in Hg.
    assert (Hin : In c (sv_children (cn_serve cn))) by (apply list_elem_of_In; by eapply list_elem_of_lookup_2).
    specialize (Hg c Hin). unfold is_gone in Hg. by rewrite Hrun in Hg.
Qed.

End Stuck.

End Live.

(** ** Property *)

(** C8: The relay does not wedge: in whatever state any run has brought the handlers
    of a relay, if no goroutine can make a step that the locks let it make, clients
    neither sending nor reading and no context ending, then the router is not locked,
    and each connection's merge loop has returned (or crashed), or waits for its
    client to read, or has seen its client's channel closed and waits for the end of
    its context, or waits for its client to send, and then (unless it has been
    retired) its router handler has handled and answered all it was handed, and so has
    its storage handler or else it waits for the lock of the storage.  It waits for that lock only while another
    connection holds it, in the middle of the events of a REQ, whose client does not
    read or has left and whose context has not ended; only such a wait keeps a child
    whose context has ended, and its merge loop, from returning.  A storage without
    such a lock ([ql] false) holds nobody up. *)
Theorem relay_stack_no_deadlock {S : Type} `{StorageOps S} (mh : mergeHandler) (sh : storageHandler) (ql : bool) (s0 : S) (reg : bool)
    (es : list StackEvent) (sk : Stack (S := S)) :
  mh_handlers mh = 2%nat -> Z.of_nat (Datatypes.S (length es)) < two64 -> stack_run mh sh (new_stack s0 reg) es = Some sk ->
  (forall e, own_act e = true -> lock_lets ql sk e = true -> stack_step mh sh sk e = None) ->
  read_locked sk = false /\
  (forall k cn, sk_conns sk !! k = Some cn -> holds_lock cn = true -> stalled cn) /\
  forall k cn, sk_conns sk !! k = Some cn ->
    (waits_for_lock ql sk cn = true ->
      ql = true /\ exists j holder, j <> k /\ sk_conns sk !! j = Some holder /\ holds_lock holder = true /\ stalled holder) /\
    (forall i c, child_of cn i = Some c -> child_ended cn i = true ->
      ch_phase c = Gone \/ i = 0%nat /\ waits_for_lock ql sk cn = true) /\
    match sv_phase (cn_serve cn) with
    | Finished _ | Crashed _ => True
    | Selecting => sv_done (cn_serve cn) = false /\ waiting ql sk cn
    | Forwarding (_ :: _) _ => sv_done (cn_serve cn) = false
    | Joining _ => sv_done (cn_serve cn) = false \/ waits_for_lock ql sk cn = true
    | _ => False
    end.
Proof.
  intros Htwo Hn Hr Hstuck.
  destruct (stack_run_parts mh sh Htwo s0 reg es 0 _ [] [] [] empty_table sk (parts_start mh sh s0 reg)) as (hes & outs & log & t & HP); [int_lia|done|].
  assert (Hopen : queues_open sk) by (eapply stack_run_open; [|exact Hr]; constructor).
  assert (Hhold : forall k cn, sk_conns sk !! k = Some cn -> holds_lock cn = true -> stalled cn).
  { intros k cn. by eapply (stuck_holder mh sh ql s0 reg (0 + length es) sk hes outs log t). }
  split; [by eapply (stuck_unlocked mh sh ql)|]. split; [done|]. intros k cn Hk. split; [|split].
  - intros Hw. destruct ql eqn:Hq; [|done]. split; [done|]. pose proof Hw as Hw'. unfold waits_for_lock in Hw'.
    destruct (existsb holds_lock (sk_conns sk)) eqn:Ex; [|done]. apply existsb_exists in Ex as (holder & Hin & Hh).
    apply list_elem_of_In, list_elem_of_lookup in Hin as [j Hj]. exists j, holder. split_and!; [|done..|by eapply Hhold].
    intros ->. assert (holder = cn) as -> by congruence. pose proof (holder_lets true sk cn Hh). congruence.
  - intros i c. by eapply (stuck_ended mh sh ql s0 reg (0 + length es) sk hes outs log t).
  - pose proof (stuck_loop_phase mh sh ql s0 reg (0 + length es) sk hes outs log t HP Hopen ltac:(done) Hstuck k cn Htwo Hk) as Hp.
    destruct (sv_phase (cn_serve cn)) eqn:Hph; try done. split; [done|].
    by eapply (stuck_waiting mh sh ql s0 reg (0 + length es) sk hes outs log t).
Qed.

Module StalledExamples.
(** The storage handler as the minimal relay makes it, without a query timeout. *)
Definition sh : storageHandler := NewStorageHandler None.
Definition notes : list Event := (fun i => HandlerRuns.note (fmt_d (Z.of_nat i)) (Z.of_nat i)) <$> seq 0 12.
Definition full : InMemoryStorage := store_all NewInMemoryStorage notes.
(** The first client subscribes to all twelve events and does not read: one waits
    for it, ten are in the channel, and the handler still has one to send.  The
    second publishes, and its storage handler finds the storage locked. *)
Definition es : list StackEvent :=
  [Accept; Accept; RouterGo 0 RtRegister; RouterGo 1 RtRegister] ++
  StackExamples.read 0 StackExamples.sub ++ StackExamples.route 0 ++ [RouterGo 0 (RtSend false)] ++
  [StorageGo 0 StReceive; StorageGo 0 StQueue; StorageGo 0 (StHandle HandlerRuns.env)] ++
  replicate 10 (StorageGo 0 StSend) ++ StackExamples.hear 0 0 ++ [StorageGo 0 StSend] ++
  StackExamples.read 1 StackExamples.pub ++ StackExamples.route 1 ++
  [RouterGo 1 (RtBroadcast range_in_order (fun _ => range_in_order)); RouterGo 1 RtDeliver; RouterGo 1 RtEnd;
   StorageGo 1 StReceive; StorageGo 1 StQueue] ++ StackExamples.hear 1 1 ++ [MergeGo 1 Resume].
(** The second client goes away. *)
Definition leaves : list StackEvent :=
  [ConnCanceled 1; RouterGo 1 RtStop; RouterGo 1 RtUnregister; RouterGo 1 RtReturn; Unwinds 1 1 false; Unwinds 1 1 true;
   StorageGo 1 StCancel; StorageGo 1 StStop; MergeGo 1 SelectDone].
End StalledExamples.

(** The facts about the states reached are computed as booleans, so that the states
    themselves are never written out. *)
#[local] Notation stalled_run :=
  (stack_run StackExamples.mh StalledExamples.sh (new_stack StalledExamples.full false) StalledExamples.es).
#[local] Notation left_run :=
  (stack_run StackExamples.mh StalledExamples.sh (new_stack StalledExamples.full false) (StalledExamples.es ++ StalledExamples.leaves)).

(** The storage handlers of a state: who holds the lock, who waits for it, and whose
    merge loop has been told to end. *)
Definition lock_view (o : option (Stack (S := InMemoryStorage))) : option (list (bool * bool * bool)) :=
  (fun sk => (fun cn => (holds_lock cn, waits_for_lock true sk cn, sv_done (cn_serve cn))) <$> sk_conns sk) <$> o.

(** As long as the first client does not read, the event of the second is not
    stored, and the second's connection is not torn down. *)
Example stalled_client_blocks_store :
  lock_view stalled_run = Some [(true, false, false); (false, true, false)] /\
  lock_view left_run = Some [(true, false, false); (false, true, true)] /\
  (fun sk => length (events (sk_storage sk))) <$> left_run = Some 12%nat.
Proof. by vm_compute. Qed.

Definition cannot_move (o : option (Stack (S := InMemoryStorage))) (e : StackEvent) : bool :=
  match o with
  | Some sk => implb (lock_lets true sk e) (match stack_step StackExamples.mh StalledExamples.sh sk e with Some _ => false | None => true end)
  | None => false
  end.

Lemma stalled_still e : own_act e = true -> cannot_move stalled_run e = true.
Proof.
  destruct e as [|k e|k|k i b|k a|k a]; intros Ho; try discriminate Ho; (destruct k as [|[|k]]; [| |try destruct a; vm_compute; reflexivity]).
  1-2: destruct e as [|m|i o1 o2 o3| | | | | | |o1 o2 o3| |]; try discriminate Ho.
  1-20: lazymatch goal with |- context [SelectChild] => destruct i as [|[|i]] | _ => idtac end; vm_compute; reflexivity.
  1-2: destruct i as [|[|i]], b; vm_compute; reflexivity.
  all: destruct a; vm_compute; reflexivity.
Qed.

Lemma stalled_stuck sk e : stalled_run = Some sk -> own_act e = true -> lock_lets true sk e = true ->
  stack_step StackExamples.mh StalledExamples.sh sk e = None.
Proof.
  intros Hr Ho Hl. pose proof (stalled_still e Ho) as Hs. rewrite Hr in Hs. unfold cannot_move in Hs. rewrite Hl in Hs.
  destruct (stack_step _ _ sk e); [discriminate Hs|reflexivity].
Qed.

Lemma relay_stack_no_deadlock_witness : exists sk holder waiter,
  stalled_run = Some sk /\ sk_conns sk = [holder; waiter] /\ read_locked sk = false /\
  stalled holder /\ waits_for_lock true sk waiter = true /\ sv_done (cn_serve waiter) = false.
Proof.
  pose proof (proj1 stalled_client_blocks_store) as Hv. destruct stalled_run as [sk|] eqn:E; [|discriminate Hv].
  destruct (relay_stack_no_deadlock StackExamples.mh StalledExamples.sh true StalledExamples.full false StalledExamples.es sk
    (eq_refl 2%nat) (eq_refl Lt) E (fun e => stalled_stuck sk e E)) as (Hl & Hh & _).
  unfold lock_view in Hv. cbn [fmap option_fmap option_map] in Hv. destruct (sk_conns sk) as [|holder [|waiter [|]]] eqn:Ek; try discriminate Hv.
  injection Hv as H1 _ _ _ H2 H3. exists sk, holder, waiter.
  split; [reflexivity|]. split; [exact Ek|]. split; [exact Hl|]. split; [exact (Hh 0%nat holder eq_refl H1)|]. split; [exact H2|exact H3].
Defined.
