(* ===== verification/Examples.v ===== *)
(** * The example relays (cmd/examples)

    The two programs that put the parts together, as data: their pipelines, merge
    handlers, relay options and metrics.  The databases they open, the listener and
    the logger are theirs and the libraries'.  The theorems say that what they
    advertise in their information documents is what their pipelines enforce. *)

From S2P Require Import Prelude GoTime Text Event Filter Message RateLimit Registry Middleware Bases Session Interface.
From S2P Require Import MergeHandler MergeServe RelayInfo RelayLoops Relay.

(** ** Options shared by both *)

Definition getenv_or (value fallback : string) : string := if String.eqb value "" then fallback else value.
Definition listen_addr (env_ADDR : string) : string := getenv_or env_ADDR ":7447".
Definition data_dir (env_DATA_DIR : string) : string := getenv_or env_DATA_DIR "data".

Definition year : Z := 60 * 60 * 24 * 365.

(** A merge of the storage handler and the router handler, with default options. *)
Definition example_handler : mergeHandler := NewMergeHandler 2 None.

Definition plain_info (name description : string) (nips : list Z) (limitation : RelayLimitation)
    (retention : option (list (option RelayRetention))) : RelayInfo :=
  mkRelayInfo name description "" "" "" "" "" (Some nips) "https://github.com/high-moctane/mocrelay" "" "" ""
    (Some limitation) retention None None None "" "" None.

Definition info_options (info : RelayInfo) (registerer : bool) : RelayOptions :=
  mkRelayOptions 0 0 0 (of_int 0) 0 (Some info) registerer false.

(** ** minimal/main.go *)

Definition minimal_bases : Res (list SimpleMiddlewareBase) :=
  b1 ← NewMaxSubscriptionsMiddlewareBase 20;
  b2 ← NewMaxSubidLengthMiddlewareBase 256;
  b3 ← NewMaxLimitMiddlewareBase 500 100;
  b4 ← NewMaxEventTagsMiddlewareBase 2000;
  b5 ← NewMaxContentLengthMiddlewareBase 100000;
  b6 ← NewCreatedAtLimitsMiddlewareBase year year;
  b7 ← NewExpirationMiddlewareBase;
  mret [b1; b2; b3; b4; b5; b6; b7].

Definition minimal_limitation : RelayLimitation := mkRelayLimitation 100000 20 500 256 2000 100000 0 false false false 0 0 100.

Definition minimal_info : RelayInfo :=
  plain_info "mocrelay-minimal" "A minimal Nostr relay example with in-memory storage" [1; 9; 11; 40; 45] minimal_limitation None.

Definition minimal_options : RelayOptions := info_options minimal_info false.

(** ** kitchen-sink/main.go *)

Definition denied_kinds : list Z := [4; 13; 14; 1059; 10050].

Definition kitchen_sink_bases : Res (list SimpleMiddlewareBase) :=
  b3 ← NewMinPowDifficultyMiddlewareBase 0 true;
  b4 ← NewMaxSubscriptionsMiddlewareBase 20;
  b5 ← NewMaxSubidLengthMiddlewareBase 256;
  b6 ← NewMaxLimitMiddlewareBase 500 100;
  b7 ← NewMaxEventTagsMiddlewareBase 2000;
  b8 ← NewMaxContentLengthMiddlewareBase 100000;
  b9 ← NewCreatedAtLimitsMiddlewareBase year year;
  b10 ← NewExpirationMiddlewareBase;
  b11 ← NewKindDenylistMiddlewareBase denied_kinds;
  mret [NewAuthMiddlewareBase "wss://relay.example.com/" None; NewProtectedEventsMiddlewareBase; b3; b4; b5; b6; b7; b8; b9; b10; b11].

Definition kitchen_sink_limitation : RelayLimitation := mkRelayLimitation 100000 20 500 256 2000 100000 0 true false false 0 0 100.

Definition kitchen_sink_info : RelayInfo :=
  plain_info "mocrelay-kitchen-sink" "A full-featured Nostr relay example" [1; 9; 11; 13; 40; 42; 45; 50; 70] kitchen_sink_limitation
    (Some [Some (mkRelayRetention (Some denied_kinds) (Some 0) None)]).

Definition kitchen_sink_options : RelayOptions := info_options kitchen_sink_info true.

(** Where a request goes, by its path; the path is clean, since [http.ServeMux]
    redirects any other first. *)
Inductive MuxTarget : Type :=
| ToRelay
| ToMetrics
| ToHealth.

Definition kitchen_sink_mux (path : string) : MuxTarget :=
  if String.eqb path "/metrics" then ToMetrics
  else if String.eqb path "/health" then ToHealth
  else ToRelay.

(** What the health check answers: its content type and its body. *)
Definition health : string * string := ("text/plain", "ok" ++ String "010" EmptyString)%string.

(** The components built with the registry, in this order. *)
Definition kitchen_sink_components : list Component := [CompositeStorageC; StorageC; RouterC; RelayC; RejectionC; AuthC].

(** Nothing is registered twice: the kitchen-sink relay is built without a panic,
    next to the collectors of the Go runtime. *)
Example kitchen_sink_registers :
  is_ok (@build_all _ RegistryExamples.NameSet (Some RegistryExamples.go_names) kitchen_sink_components) = true.
Proof. vm_compute. reflexivity. Qed.

(** ** What a message has passed *)

(** The bases a message that reaches downstream has passed one after the other. *)
Inductive passes (env : Env) : list SimpleMiddlewareBase -> ClientMsg -> Ctx -> ClientMsg -> Prop :=
| passes_nil msg c : passes env [] msg c msg
| passes_cons b bases msg c c1 m1 r c2 msg' :
    HandleClientMsg b env msg c = (c1, Ok (Some m1, r)) -> passes env bases m1 c2 msg' -> passes env (b :: bases) msg c msg'.

Lemma client_through_passes env bases : forall outer msg c c' msg' resps,
  client_through env outer bases msg c = (c', Ok (Some msg', resps)) -> passes env bases msg c msg'.
Proof.
  induction bases as [|b bases IH]; intros outer msg c c' msg' resps; cbn [client_through].
  { intros [= _ <- _]. constructor. }
  ctx_unfold. destruct (HandleClientMsg b env msg c) as [c1 [[out resp]|e|w]] eqn:Hb; try done.
  set (k := match resp with Some _ => _ | None => _ end). destruct (k c1) as [c2 [resps1|e|w]]; try done.
  destruct out as [m1|]; [|done]. destruct (client_through env (b :: outer) bases m1 c2) as [c3 [[out2 resps2]|e|w]] eqn:Hr; try done.
  intros [= _ Hout _]. subst out2. econstructor; [exact Hb|]. by eapply IH.
Qed.

Lemma judge_passed mw judge env msg c c1 m1 r : HandleClientMsg (event_base mw judge) env msg c = (c1, Ok (Some m1, r)) ->
  m1 = msg /\ forall e, c_Type msg = MsgTypeEvent -> c_Event msg = Some e -> judge env e = None.
Proof.
  cbn. unfold judge_event. destruct (String.eqb_spec (c_Type msg) MsgTypeEvent) as [Ht|Ht]; cbn [negb].
  2: { intros [= <- <- <-]. by split. }
  destruct (c_Event msg) as [e|]; [|intros [= <- <- <-]; by split]. destruct (judge env e) as [[reason m]|] eqn:Hj; [by ctx_unfold|].
  intros [= <- <- <-]. split; [done|]. by intros e' _ [= <-].
Qed.

Lemma expiration_passed env msg c c1 m1 r b : NewExpirationMiddlewareBase = Ok b ->
  HandleClientMsg b env msg c = (c1, Ok (Some m1, r)) -> m1 = msg.
Proof. intros [= <-] H. by apply (judge_passed "expiration" expiration_judge) in H as [-> _]. Qed.

Lemma maxSubs_passed n b env msg c c1 m1 r : NewMaxSubscriptionsMiddlewareBase n = Ok b ->
  HandleClientMsg b env msg c = (c1, Ok (Some m1, r)) -> m1 = msg.
Proof.
  unfold NewMaxSubscriptionsMiddlewareBase. case_match; [done|]. intros [= <-]. cbn. unfold maxSubs_client, get_maxSubs. ctx_unfold. cbn.
  destruct (ctx_maxSubs c) as [subs|]; [|done]. unfold maxSubs_handleReq, maxSubs_handleClose. ctx_unfold. cbn.
  repeat (case_match; try done); by intros [= <- <- <-].
Qed.

Lemma maxSubid_passed n b env msg c c1 m1 r : NewMaxSubidLengthMiddlewareBase n = Ok b ->
  HandleClientMsg b env msg c = (c1, Ok (Some m1, r)) ->
  m1 = msg /\ (c_Type msg = MsgTypeReq \/ c_Type msg = MsgTypeClose -> Z.of_nat (String.length (c_SubscriptionID msg)) <= n).
Proof.
  unfold NewMaxSubidLengthMiddlewareBase. case_match; [done|]. intros [= <-]. cbn. unfold maxSubidLength_client.
  destruct (_ && _) eqn:E; [by ctx_unfold|]. intros [= <- <- <-]. split; [done|].
  intros Ht. apply andb_false_iff in E as [E|E]; [|lia]. apply orb_false_iff in E as [E1%String.eqb_neq E2%String.eqb_neq]. naive_solver.
Qed.

Lemma maxLimit_passed m d b env msg c c1 m1 r : NewMaxLimitMiddlewareBase m d = Ok b ->
  HandleClientMsg b env msg c = (c1, Ok (Some m1, r)) ->
  c_Type m1 = c_Type msg /\ c_Event m1 = c_Event msg /\ c_SubscriptionID m1 = c_SubscriptionID msg /\
  (c_Type msg = MsgTypeReq -> forall f, f ∈ c_Filters m1 -> exists l, f_Limit f = Some l /\
     (1 <= l <= m \/ l < 0 /\ f ∈ c_Filters msg)).
Proof.
  unfold NewMaxLimitMiddlewareBase. destruct (Z.ltb_spec m 1); [done|]. destruct (Z.ltb_spec d 1); [done|].
  destruct (Z.ltb_spec m d); [done|]. intros [= <-]. cbn. unfold maxLimit_client.
  destruct (String.eqb_spec (c_Type msg) MsgTypeReq) as [Ht|Ht]; cbn [negb]; intros [= <- <- <-]; [|by split_and!].
  split_and!; [done..|]. cbn. intros _ f' (f & -> & Hin)%list_elem_of_fmap. destruct (f_Limit f) as [l|] eqn:Hl.
  - destruct (Z.ltb_spec l 0).
    + exists l. unfold clamp_limit. rewrite Hl. destruct (Z.eqb_spec l 0), (Z.ltb_spec m l); try lia. auto.
    + rewrite (clamp_limit_clamped m d f), Hl. eexists. split; [reflexivity|]. left. destruct l; lia.
  - rewrite (clamp_limit_clamped m d f), Hl. eexists. split; [reflexivity|]. left. lia.
Qed.

Lemma protected_passed env msg c c1 m1 r : HandleClientMsg NewProtectedEventsMiddlewareBase env msg c = (c1, Ok (Some m1, r)) -> m1 = msg.
Proof.
  cbn. unfold protected_client. ctx_unfold. cbn. repeat (case_match; try done); by intros [= <- <- <-].
Qed.

(** Who is authenticated on the connection. *)
Definition authorised (c : Ctx) (msg : ClientMsg) : Prop :=
  exists state, ctx_auth c = Some state /\
  (c_Type msg = MsgTypeEvent -> forall e, c_Event msg = Some e -> ev_Pubkey e ∈ as_authedPubkeys state) /\
  (c_Type msg = MsgTypeReq -> as_authedPubkeys state <> ∅).

Lemma auth_passed url opt env msg c c1 m1 r : HandleClientMsg (NewAuthMiddlewareBase url opt) env msg c = (c1, Ok (Some m1, r)) ->
  m1 = msg /\ authorised c msg.
Proof.
  cbn. unfold auth_client, get_auth. ctx_unfold. cbn. destruct (ctx_auth c) as [state|] eqn:Ha; [|done].
  destruct (String.eqb_spec (c_Type msg) MsgTypeAuth) as [Ht|Ht].
  { unfold handleAuth, refuse_auth, count_auth. ctx_unfold. cbn. repeat (case_match; try done). }
  destruct (String.eqb_spec (c_Type msg) MsgTypeEvent) as [He|He].
  { destruct (c_Event msg) as [e|] eqn:Hev; [|done]. unfold isAuthedPubkey. case_bool_decide as Hin; cbn [negb]; [|done].
    intros [= <- <- <-]. split; [done|]. exists state. split_and!; [done|intros _ e' He'; assert (e' = e) as -> by congruence; done|]. intros Hr. by rewrite He in Hr. }
  destruct (String.eqb_spec (c_Type msg) MsgTypeReq) as [Hr|Hr].
  { unfold isAuthed. case_bool_decide as Hin; cbn [negb]; [done|]. intros [= <- <- <-]. split; [done|]. by exists state. }
  intros [= <- <- <-]. split; [done|]. by exists state.
Qed.

(** ** What the information document promises *)

(** Its limits, for [msg'] that has reached downstream as what [msg] became; a filter
    with a negative limit is left as the client wrote it. *)
Definition held_to (lim : RelayLimitation) (msg msg' : ClientMsg) : Prop :=
  (c_Type msg' = MsgTypeEvent -> forall e, c_Event msg' = Some e ->
     Z.of_nat (length (tags e)) <= li_MaxEventTags lim /\ RuneCountInString (ev_Content e) <= li_MaxContentLength lim) /\
  (c_Type msg' = MsgTypeReq -> Z.of_nat (String.length (c_SubscriptionID msg')) <= li_MaxSubidLength lim /\
     forall f, f ∈ c_Filters msg' -> exists l, f_Limit f = Some l /\
       (1 <= l <= li_MaxLimit lim \/ l < 0 /\ f ∈ c_Filters msg)).

(** The kinds a relay does not keep: those its document gives a retention of no time. *)
Definition unkept (info : RelayInfo) (kind : Z) : Prop :=
  exists r ks, Some r ∈ default [] (ri_Retention info) /\ re_Time r = Some 0 /\ re_Kinds r = Some ks /\ kind ∈ ks.

(** The limits the judges of both pipelines check. *)
Lemma event_limits_passed env e msg : c_Event msg = Some e -> c_Type msg = MsgTypeEvent ->
  (forall e, c_Type msg = MsgTypeEvent -> c_Event msg = Some e -> maxEventTags_judge 2000 env e = None) ->
  (forall e, c_Type msg = MsgTypeEvent -> c_Event msg = Some e -> maxContentLength_judge 100000 env e = None) ->
  Z.of_nat (length (tags e)) <= 2000 /\ RuneCountInString (ev_Content e) <= 100000.
Proof.
  intros He Ht H1 H2. specialize (H1 e Ht He). specialize (H2 e Ht He). unfold maxEventTags_judge, maxContentLength_judge in *.
  split; [destruct (Z.ltb_spec 2000 (Z.of_nat (length (tags e)))) as [|]; done|].
  by destruct (Z.ltb_spec 100000 (RuneCountInString (ev_Content e))).
Qed.

Definition limits_bases : list SimpleMiddlewareBase :=
  [mkBase maxSubs_OnStart no_end (maxSubs_client 20) maxSubs_server;
   mkBase no_start no_end (maxSubidLength_client 256) pass_server;
   mkBase no_start no_end (maxLimit_client 500 100) pass_server;
   event_base "max_event_tags" (maxEventTags_judge 2000);
   event_base "max_content_length" (maxContentLength_judge 100000);
   event_base "created_at_limits" (createdAt_judge year year);
   mkBase no_start no_end (judge_event "expiration" expiration_judge) expiration_server].

Lemma minimal_bases_eq : minimal_bases = Ok limits_bases.
Proof. reflexivity. Qed.

Lemma kitchen_sink_bases_eq : kitchen_sink_bases = Ok (
  [NewAuthMiddlewareBase "wss://relay.example.com/" None; NewProtectedEventsMiddlewareBase; event_base "min_pow_difficulty" (minPow_judge 0 true)] ++
  limits_bases ++ [event_base "kind_denylist" (kindDenylist_judge (list_to_set denied_kinds))]).
Proof. reflexivity. Qed.

Lemma passes_app env b1 b2 : forall msg c msg', passes env (b1 ++ b2) msg c msg' ->
  exists m c2, passes env b1 msg c m /\ passes env b2 m c2 msg'.
Proof.
  induction b1 as [|b b1 IH]; intros msg c msg' H; [exists msg, c; split; [constructor|done]|].
  cbn [app] in H. inversion H as [|? ? ? ? c1 m1 r c2 ? Hb Hrest]; subst.
  destruct (IH _ _ _ Hrest) as (m & c3 & Hm & Hm'). exists m, c3. split; [by econstructor|done].
Qed.

Lemma passes_one env b msg c msg' : passes env [b] msg c msg' -> exists c1 r, HandleClientMsg b env msg c = (c1, Ok (Some msg', r)).
Proof. inversion 1 as [|? ? ? ? c1 m1 r c2 ? Hb Hrest]; subst. inversion Hrest; subst. eauto. Qed.

Lemma passes_head env b bases msg c msg' : passes env (b :: bases) msg c msg' ->
  exists c1 m1 r c2, HandleClientMsg b env msg c = (c1, Ok (Some m1, r)) /\ passes env bases m1 c2 msg'.
Proof. inversion 1; subst. eauto 8. Qed.

(** What the limits of both pipelines have checked. *)
Lemma limits_passed env msg c msg' : passes env limits_bases msg c msg' ->
  c_Type msg' = c_Type msg /\ c_Event msg' = c_Event msg /\ held_to minimal_limitation msg msg'.
Proof.
  intros (c1 & m1 & r1 & c1' & H1%(maxSubs_passed 20 _ env) & H)%passes_head; [|done]. subst m1.
  apply passes_head in H as (c2 & m2 & r2 & c2' & H2%(maxSubid_passed 256 _ env) & H); [|done]. destruct H2 as [-> Hsub].
  apply passes_head in H as (c3 & m3 & r3 & c3' & H3%(maxLimit_passed 500 100 _ env) & H); [|done]. destruct H3 as (Ht & He & Hs & Hl).
  apply passes_head in H as (c4 & m4 & r4 & c4' & H4%judge_passed & H). destruct H4 as [-> H4].
  apply passes_head in H as (c5 & m5 & r5 & c5' & H5%judge_passed & H). destruct H5 as [-> H5].
  apply passes_head in H as (c6 & m6 & r6 & c6' & H6%judge_passed & H). destruct H6 as [-> _].
  apply passes_one in H as (c7 & r7 & H7%expiration_passed); [|done]. subst m3.
  split_and!; [done..|]. split.
  - intros Hte e Hee. by eapply (event_limits_passed env).
  - intros Htr. rewrite Ht in Htr. split; [|by apply Hl]. rewrite Hs. apply Hsub. by left.
Qed.

(** ** What the pipelines let through *)

Lemma minimal_holds env c c' msg msg' resps :
  client_through env [] limits_bases msg c = (c', Ok (Some msg', resps)) -> held_to minimal_limitation msg msg'.
Proof. intros H%client_through_passes. by apply limits_passed in H as (_ & _ & ?). Qed.

Definition kitchen_sink_list : list SimpleMiddlewareBase :=
  [NewAuthMiddlewareBase "wss://relay.example.com/" None; NewProtectedEventsMiddlewareBase; event_base "min_pow_difficulty" (minPow_judge 0 true)] ++
  limits_bases ++ [event_base "kind_denylist" (kindDenylist_judge (list_to_set denied_kinds))].

Lemma kitchen_sink_holds env c c' msg msg' resps :
  client_through env [] kitchen_sink_list msg c = (c', Ok (Some msg', resps)) ->
  held_to kitchen_sink_limitation msg msg' /\ authorised c msg' /\
  (c_Type msg' = MsgTypeEvent -> forall e, c_Event msg' = Some e -> ~ unkept kitchen_sink_info (ev_Kind e)).
Proof.
  intros H%client_through_passes.
  apply passes_head in H as (c1 & m1 & r1 & c1' & H1%auth_passed & H). destruct H1 as [-> Ha].
  apply passes_head in H as (c2 & m2 & r2 & c2' & H2%protected_passed & H). subst m2.
  apply passes_head in H as (c3 & m3 & r3 & c3' & H3%judge_passed & H). destruct H3 as [-> _].
  apply passes_app in H as (m & c4 & H4%limits_passed & H5). destruct H4 as (Ht & He & Hw).
  apply passes_one in H5 as (c5 & r5 & H5%judge_passed). destruct H5 as [-> Hk].
  split_and!; [exact Hw| |].
  - destruct Ha as (state & Hs & H1 & H2). exists state. rewrite Ht, He. by split_and!.
  - intros Hte e Hee (r & ks & [= ->]%list_elem_of_singleton & _ & [= <-] & Hin). specialize (Hk e Hte Hee).
    unfold kindDenylist_judge in Hk. rewrite bool_decide_eq_true_2 in Hk; [done|]. by apply elem_of_list_to_set.
Qed.

(** A REQ that opens a subscription of a legal id, with negative limits only. *)
Lemma negative_limits_pass env c subs sub fs : ctx_maxSubs c = Some subs -> Z.of_nat (size subs) < 20 ->
  Z.of_nat (String.length sub) <= 256 -> Forall (fun f => exists l, f_Limit f = Some l /\ l < 0) fs ->
  exists c', client_through env [] limits_bases (client_req sub fs) c = (c', Ok (Some (client_req sub fs), [])).
Proof.
  intros Hs Hsize Hlen Hfs.
  assert (Hclamp : map (clamp_limit 500 100) fs = fs).
  { induction Hfs as [|f fs (l & Hl & Hneg) _ IH]; [done|]. cbn [map]. rewrite IH. f_equal. unfold clamp_limit. rewrite Hl.
    destruct (Z.eqb_spec l 0), (Z.ltb_spec 500 l); try done; lia. }
  assert (Hid : (256 <? Z.of_nat (String.length sub)) = false) by lia.
  assert (Hroom : (20 <=? Z.of_nat (size subs)) = false) by lia.
  cbn. unfold maxSubs_client, get_maxSubs. ctx_unfold. cbn. rewrite Hs. cbn.
  unfold maxSubs_handleReq, maxSubidLength_client, maxLimit_client. ctx_unfold. cbn.
  case_bool_decide as Hin; cbn; rewrite ?Hroom; cbn; rewrite Hid; cbn; rewrite Hclamp; by eexists.
Qed.

Lemma counts_pass env c state subs sub fs : ctx_auth c = Some state -> ctx_maxSubs c = Some subs ->
  client_through env [] kitchen_sink_list (mkClientMsg MsgTypeCount None sub fs) c = (c, Ok (Some (mkClientMsg MsgTypeCount None sub fs), [])).
Proof.
  intros Ha Hs. cbn. unfold auth_client, get_auth, protected_client, maxSubs_client, get_maxSubs.
  ctx_unfold. cbn. rewrite Ha. cbn. rewrite Hs. cbn. done.
Qed.

(** ** Properties *)

(** C21: what the example relays let through, measured by what they advertise.  Their
    pipelines are built without a panic.  An EVENT that passes one has no more tags
    and content than that relay's information document says, and a REQ a subscription
    id no longer and, in each filter, a limit from 1 to the maximum, or else the
    negative limit the client wrote; in the kitchen-sink relay, whose document
    requires authentication, the author of an EVENT and the sender of a REQ have
    authenticated on the connection, and no EVENT has a kind the document gives no
    retention.  There are two gaps: a REQ with negative limits, which the storages
    take for none, passes the checks both pipelines share unchanged whenever its id is
    legal and there is room for a subscription; and a COUNT passes the kitchen-sink's
    unchanged, whoever has authenticated, whatever its filters and its id.  The
    relays read no longer messages than the documents say. *)
Theorem examples_limits :
  minimal_bases = Ok limits_bases /\ kitchen_sink_bases = Ok kitchen_sink_list /\
  li_AuthRequired kitchen_sink_limitation = true /\
  (forall env c c' msg msg' resps, client_through env [] limits_bases msg c = (c', Ok (Some msg', resps)) ->
     held_to minimal_limitation msg msg') /\
  (forall env c c' msg msg' resps, client_through env [] kitchen_sink_list msg c = (c', Ok (Some msg', resps)) ->
     held_to kitchen_sink_limitation msg msg' /\ authorised c msg' /\
     (c_Type msg' = MsgTypeEvent -> forall e, c_Event msg' = Some e -> ~ unkept kitchen_sink_info (ev_Kind e))) /\
  (forall env c subs sub fs, ctx_maxSubs c = Some subs -> Z.of_nat (size subs) < li_MaxSubscriptions minimal_limitation ->
     Z.of_nat (String.length sub) <= li_MaxSubidLength minimal_limitation -> Forall (fun f => exists l, f_Limit f = Some l /\ l < 0) fs ->
     exists c', client_through env [] limits_bases (client_req sub fs) c = (c', Ok (Some (client_req sub fs), []))) /\
  (forall env c state subs sub fs, ctx_auth c = Some state -> ctx_maxSubs c = Some subs ->
     client_through env [] kitchen_sink_list (mkClientMsg MsgTypeCount None sub fs) c =
       (c, Ok (Some (mkClientMsg MsgTypeCount None sub fs), []))) /\
  (exists cfg, configure (Some minimal_options) = Ok cfg /\ cf_maxMessageLength cfg = li_MaxMessageLength minimal_limitation) /\
  (exists cfg, configure (Some kitchen_sink_options) = Ok cfg /\ cf_maxMessageLength cfg = li_MaxMessageLength kitchen_sink_limitation).
Proof.
  split_and!; [exact minimal_bases_eq|exact kitchen_sink_bases_eq|done|exact minimal_holds|exact kitchen_sink_holds|
    exact negative_limits_pass|exact counts_pass|..].
  - eexists. split; [vm_compute; reflexivity|reflexivity].
  - eexists. split; [vm_compute; reflexivity|reflexivity].
Qed.

Module ExampleRuns.
Definition env : Env := mkEnv (time_Unix 1000000) (Some "ch"%string).
(** A connection that has just been started. *)
Definition ctx : Ctx := set_maxSubs (set_auth emptyCtx (mkAuthState "ch" ∅ false)) ∅.
Definition long_id : string := String.concat "" (replicate 300 "x"%string).
Definition note : Event := mkEvent "00" "alice" (time_Unix 1000000) 1 (Some []) "hi" "".
Definition authed : Ctx := set_auth ctx (mkAuthState "ch" {["alice"%string]} true).
Definition through (c : Ctx) (msg : ClientMsg) : Res (option ClientMsg * list ServerMsg) :=
  match kitchen_sink_bases with Ok bases => (client_through env [] bases msg c).2 | _ => Err "" end.
End ExampleRuns.

Example kitchen_sink_ex :
  ExampleRuns.through ExampleRuns.ctx (client_event ExampleRuns.note) =
    Ok (None, [NewServerOKMsg "00" false "auth-required: authentication required to publish events"]) /\
  ExampleRuns.through ExampleRuns.authed (client_event ExampleRuns.note) = Ok (Some (client_event ExampleRuns.note), []).
Proof. vm_compute. by split. Qed.

(** Nobody has authenticated, and the id is longer than advertised. *)
Example counts_need_no_auth :
  ExampleRuns.through ExampleRuns.ctx (mkClientMsg MsgTypeCount None ExampleRuns.long_id [emptyFilter]) =
    Ok (Some (mkClientMsg MsgTypeCount None ExampleRuns.long_id [emptyFilter]), []).
Proof. vm_compute. reflexivity. Qed.

(** A REQ for everything, with the limit -1. *)
Example negative_limit_ex :
  let f := set_Limit emptyFilter (-1) in
  ExampleRuns.through ExampleRuns.authed (client_req "s" [f]) = Ok (Some (client_req "s" [f]), []) /\
  ExampleRuns.through ExampleRuns.authed (client_req "s" [emptyFilter]) = Ok (Some (client_req "s" [set_Limit emptyFilter 100]), []).
Proof. vm_compute. by split. Qed.
