(* ===== verification/PebbleMem.v ===== *)
(** * The codec of stored events, and a database to run on

    Stored events are the JSON of encoding/json, as an instance of what the Pebble
    storage asks of a codec.  A map with a sorted list of keys per iterator is an
    instance of what it asks of Pebble, so that the storage can be run. *)

From S2P Require Import Prelude GoTime Text Bytes Event Filter Storage PebbleKeys Heap PebbleCursor PebbleStore.
From S2P Require Import Json JsonStrings JsonRoundtrip JsonTyping EventJson.

(** ** The codec *)

Definition json_marshal_event (e : Event) : Res bytes := l ← marshal_text V1 e; Ok (map code l).
Definition json_unmarshal_event (b : bytes) : Res Event := unmarshal_text (map chr b).

#[export] Instance JsonCodec : EventCodec := {|
  marshal_event := json_marshal_event;
  unmarshal_event := json_unmarshal_event
|}.

Lemma chr_code c : chr (code c) = c.
Proof. unfold chr, code. by rewrite N2Z.id, ascii_N_embedding. Qed.

Lemma chr_code_list l : map chr (map code l) = l.
Proof. rewrite map_map. rewrite <-(map_id l) at 2. apply map_ext, chr_code. Qed.

#[export] Instance JsonCodec_laws : EventCodecLaws.
Proof.
  refine {| storable := portable |}. intros e He. destruct (marshal_reads V1 e He) as (l & Hm & Hu).
  exists (map code l). cbn. unfold json_marshal_event, json_unmarshal_event. by rewrite Hm, chr_code_list.
Defined.

(** ** A database in memory *)

Fixpoint keys_sorted (l : list bytes) : bool :=
  match l with
  | a :: (b :: _) as l => bytesLess a b && keys_sorted l
  | _ => true
  end.

Lemma keys_sorted_spec l : keys_sorted l = true <-> StronglySorted (fun a b => bytesLess a b = true) l.
Proof.
  split.
  - intros Hs. apply Sorted_StronglySorted; [intros a b c; apply bytesLess_trans|].
    induction l as [|a [|b l] IH]; [constructor|by repeat constructor|]. cbn [keys_sorted] in Hs.
    apply andb_true_iff in Hs as [Hab Hs]. constructor; [by apply IH|by constructor].
  - intros Hs. induction Hs as [|a l Hl IH Ha]; [done|]. destruct l as [|b l]; [done|].
    cbn [keys_sorted]. inversion Ha; subst. by apply andb_true_iff.
Qed.

(** An iterator: its keys, and those from its position on. *)
Record MemIter : Type := mkMemIter {
  mi_keys : list bytes;
  mi_rest : list bytes;
  mi_sorted : keys_sorted mi_keys = true
}.

Definition move (i : MemIter) (rest : list bytes) : MemIter * bool :=
  (mkMemIter (mi_keys i) rest (mi_sorted i), nonempty rest).

Fixpoint keys_from (k : bytes) (l : list bytes) : list bytes :=
  match l with x :: rest => if bytesLess x k then keys_from k rest else l | [] => [] end.

#[export] Instance MemIter_ops : PebbleIterator MemIter := {|
  it_First := fun i => move i (mi_keys i);
  it_Next := fun i => move i (tail (mi_rest i));
  it_SeekGE := fun k i => move i (keys_from k (mi_keys i));
  it_Key := fun i => default [] (List.head (mi_rest i))
|}.

Lemma keys_from_spec k l : exists pre, l = pre ++ keys_from k l /\ Forall (fun k' => bytesLess k' k = true) pre /\
  (forall k' l', keys_from k l = k' :: l' -> bytesLess k' k = false).
Proof.
  induction l as [|x l (pre & Heq & Hpre & Hh)]; [by exists []|]. cbn [keys_from]. destruct (bytesLess x k) eqn:Hx.
  - exists (x :: pre). split_and!; [cbn; by rewrite <-Heq|by constructor|done].
  - exists []. split_and!; [done|constructor|]. by intros k' l' [= <- _].
Qed.

#[export] Instance MemIter_laws : IteratorLaws MemIter.
Proof.
  refine {| it_keys := mi_keys; it_rest := mi_rest |}.
  - intros i. by eexists.
  - intros i k l Hr. cbn. rewrite Hr. by eexists.
  - intros i k. destruct (keys_from_spec k (mi_keys i)) as (pre & Heq & Hpre & Hh). exists (move i (keys_from k (mi_keys i))).1, pre. by split_and!.
  - intros i k l Hr. cbn. by rewrite Hr.
  - intros i. apply keys_sorted_spec, mi_sorted.
Defined.

Definition bytes_le (a b : bytes) : Prop := bytesLess b a = false.

#[export] Instance bytes_le_dec a b : Decision (bytes_le a b).
Proof. unfold bytes_le. apply _. Defined.

#[export] Instance bytes_le_trans : Transitive bytes_le.
Proof.
  intros a b c Hab Hbc. unfold bytes_le in *. destruct (bytesLess_total b c) as [H|[->|H]]; [|done|congruence].
  destruct (bytesLess c a) eqn:E; [|done]. pose proof (bytesLess_trans _ _ _ H E). congruence.
Qed.

#[export] Instance bytes_le_total : Total bytes_le.
Proof.
  intros a b. unfold bytes_le. destruct (bytesLess_total a b) as [H|[->|H]]; [left|left|right]; auto using bytesLess_asym, bytesLess_irrefl.
Qed.

(** The keys within the bounds, in order. *)
Definition keys_between (m : gmap bytes bytes) (lo hi : bytes) : list bytes :=
  merge_sort bytes_le (List.filter (fun k => negb (bytesLess k lo) && bytesLess k hi) (map_to_list m).*1).

Lemma keys_between_elem m lo hi k : k ∈ keys_between m lo hi <->
  is_Some (m !! k) /\ bytesLess k lo = false /\ bytesLess k hi = true.
Proof.
  unfold keys_between. rewrite merge_sort_Permutation, list_elem_of_In, filter_In, <-list_elem_of_In, andb_true_iff, negb_true_iff.
  apply and_iff_compat_r. rewrite list_elem_of_fmap. split.
  - intros ([k' v] & -> & Hin%elem_of_map_to_list). by exists v.
  - intros [v Hv]. exists (k, v). split; [done|]. by apply elem_of_map_to_list.
Qed.

Lemma filter_NoDup {A} (p : A -> bool) l : NoDup l -> NoDup (List.filter p l).
Proof. rewrite !NoDup_ListNoDup. apply List.NoDup_filter. Qed.

Lemma keys_between_sorted m lo hi : keys_sorted (keys_between m lo hi) = true.
Proof.
  apply keys_sorted_spec. assert (Hs : StronglySorted bytes_le (keys_between m lo hi)) by (apply StronglySorted_merge_sort; apply _).
  assert (Hnd : NoDup (keys_between m lo hi)).
  { unfold keys_between. rewrite merge_sort_Permutation. apply filter_NoDup, NoDup_fst_map_to_list. }
  induction Hs as [|a l Hl IH Ha]; [constructor|]. apply NoDup_cons in Hnd as [Hnot Hnd]. constructor; [by apply IH|].
  rewrite List.Forall_forall in *. intros b Hb. specialize (Ha b Hb). unfold bytes_le in Ha.
  destruct (bytesLess_total a b) as [Hab|[->|Hab]]; [done| |congruence]. exfalso. apply Hnot. by apply list_elem_of_In.
Qed.

(** The database: every operation succeeds. *)
Definition MemDB : Type := gmap bytes bytes.

Definition mem_Get (m : gmap bytes bytes) (k : bytes) : GetResult :=
  match m !! k with Some v => Found v | None => NotFound end.

Lemma mem_Get_spec m k : match mem_Get m k with
  | Found v => m !! k = Some v
  | NotFound => m !! k = None
  | GetError _ => True
  end.
Proof. unfold mem_Get. by destruct (m !! k) eqn:E. Qed.

#[export] Instance MemDB_ops : PebbleDB MemDB MemIter := {|
  db_Get := mem_Get;
  db_Commit := fun d ops => (apply_batch ops d, None);
  db_NewIter := fun d lo hi => inl (mkMemIter (keys_between d lo hi) [] (keys_between_sorted d lo hi));
  db_Closed := fun _ v _ => v
|}.

#[export] Instance MemDB_laws : PebbleLaws MemDB MemIter.
Proof.
  refine {| db_view := fun d : MemDB => d |}.
  - exact mem_Get_spec.
  - intros d ops d' err [= <- <-]. by left.
  - intros d lo hi it [= <-] k. apply keys_between_elem.
Defined.
