(* ===== verification/PebbleSpec.v ===== *)
(** * What the Pebble storage promises (pebble_storage.go)

    Its invariant under every call, the answers of its queries, and its refinement
    of the in-memory storage over any history of stores that did not fail. *)

From S2P Require Import Prelude GoTime Text Bytes Event Filter Storage PebbleKeys Heap PebbleCursor PebbleJoin.
From S2P Require Import PebbleStore PebbleRows PebbleInv PebbleQuery PebbleIndex PebbleFuel PebbleQuerySpec PebbleSim Json.
From S2P Require Import EventJson JsonRoundtrip EventParse Message MessageJson NoPanic CodecSpec RelayLoops PebbleMem.

(** ** Answers are determined *)

Lemma sorted_NoDup l : StronglySorted ev_lt l -> NoDup l.
Proof.
  induction 1 as [|a l Hs IH Ha]; constructor; [|done]. intros Hin. rewrite List.Forall_forall in Ha.
  apply (ev_lt_irrefl a), Ha. by apply list_elem_of_In.
Qed.

Lemma query_answer_sub stored filters l1 l2 : query_answer stored filters l1 -> query_answer stored filters l2 ->
  forall e, e ∈ l1 -> e ∈ l2.
Proof.
  intros H1' H2' e He. destruct (qa_sound _ _ _ H1' e He) as [Hst Hf].
  destruct (qa_complete _ _ _ H2' e Hst Hf) as [|[Hlen Hlt]]; [done|]. exfalso.
  assert (Hsub : forall x, x ∈ l2 -> x ∈ l1).
  { intros x Hx. destruct (qa_sound _ _ _ H2' x Hx) as [Hxs Hxf]. destruct (qa_complete _ _ _ H1' x Hxs Hxf) as [|[_ Hlt1]]; [done|].
    destruct (ev_lt_irrefl e). transitivity x; auto. }
  assert (Hle : (length (e :: l2) <= length l1)%nat).
  { apply submseteq_length, NoDup_submseteq.
    - constructor; [|by eapply sorted_NoDup, qa_sorted]. intros Hin. by apply (ev_lt_irrefl e), Hlt.
    - intros x [->|Hx]%elem_of_cons; auto. }
  cbn [length] in Hle. pose proof (qa_limit _ _ _ H1'). lia.
Qed.

Lemma ev_lt_antisymm_eq a b : ev_lt a b -> ev_lt b a -> a = b.
Proof. intros Hab Hba. destruct (ev_lt_irrefl a). by transitivity b. Qed.

Lemma query_answer_unique stored filters l1 l2 : query_answer stored filters l1 -> query_answer stored filters l2 -> l1 = l2.
Proof.
  intros H1' H2'. pose proof (qa_sorted _ _ _ H1') as S1. pose proof (qa_sorted _ _ _ H2') as S2.
  assert (Hin : forall x, x ∈ l1 <-> x ∈ l2) by (intros x; split; by eapply query_answer_sub).
  clear H1' H2'. revert l2 S2 Hin. induction S1 as [|a l1 S1 IH Ha]; intros l2 S2 Hin.
  - destruct l2 as [|b l2]; [done|]. exfalso. apply (not_elem_of_nil b), (Hin b), list_elem_of_here.
  - destruct S2 as [|b l2 S2 Hb]; [exfalso; apply (not_elem_of_nil a), (Hin a), list_elem_of_here|].
    rewrite List.Forall_forall in Ha, Hb.
    assert (a = b) as <-.
    { destruct (proj1 (elem_of_cons _ _ _) (proj1 (Hin a) (list_elem_of_here _ _))) as [|Hab]; [done|].
      destruct (proj1 (elem_of_cons _ _ _) (proj2 (Hin b) (list_elem_of_here _ _))) as [|Hba]; [done|].
      apply ev_lt_antisymm_eq; [apply Ha|apply Hb]; by apply list_elem_of_In. }
    f_equal. apply IH; [done|]. intros x. specialize (Hin x). rewrite !elem_of_cons in Hin. split; intros Hx.
    + destruct (proj1 Hin (or_intror Hx)) as [->|]; [|done]. destruct (ev_lt_irrefl a). apply Ha. by apply list_elem_of_In.
    + destruct (proj2 Hin (or_intror Hx)) as [->|]; [|done]. destruct (ev_lt_irrefl a). apply Hb. by apply list_elem_of_In.
Qed.

Lemma query_answer_ext stored stored' filters l : (forall e, e ∈ stored <-> e ∈ stored') ->
  query_answer stored filters l -> query_answer stored' filters l.
Proof.
  intros Hin [Hs Hso Hc Hl]. constructor; [done| |intros e He; apply Hc; by apply Hin|done].
  intros e He. destruct (Hso e He) as [? ?]. split; [by apply Hin|done].
Qed.

Section Histories.

Context {D I : Type} `{PebbleLaws D I, EventCodecLaws}.
Implicit Types d : D.

(** A sequence of stores, with what each returned. *)
Fixpoint store_seq (d : D) (evs : list Event) : D * list (Res bool) :=
  match evs with
  | [] => (d, [])
  | e :: evs => let '(d, r) := PebbleStore.Store d (Some e) in let '(d, rs) := store_seq d evs in (d, r :: rs)
  end.

(** A store adds no event but the one it is given. *)
Lemma pebble_outcome_sub d L e d' r L' x : pebble_outcome d L e d' r L' -> x ∈ L' -> x ∈ L \/ x = e.
Proof.
  assert (Hkind5 : x ∈ kind5_left d e L ++ [e] -> x ∈ L \/ x = e).
  { intros [Hk%elem_of_kind5_left|Hk%list_elem_of_singleton]%elem_of_app; auto. }
  assert (Hw : forall ops L1, batch_writes d L e ops L1 -> x ∈ L1 ++ [e] -> x ∈ L \/ x = e).
  { intros ops L1 Hw [Hl|Hl%list_elem_of_singleton]%elem_of_app; [left|by right].
    destruct (bw_left _ _ _ _ _ Hw) as [[-> _]|(old & _ & -> & _)]; [done|]. by apply elem_of_without in Hl as [? _]. }
  intros Hout Hx. inversion Hout as [| |? ops ? ? ? ? ?|? ? ops ? ? ? ? ?|? ? ? ? Hleft]; subst; eauto.
  inversion Hleft; subst; eauto. left. by eapply elem_of_kind5_left.
Qed.

(** Whatever happened, the database holds the rows of some of the events. *)
Lemma store_seq_rows evs : forall d L d' rs, rows_ok (db_view d) L -> Forall (store_ok D I) evs -> store_seq d evs = (d', rs) ->
  exists L', rows_ok (db_view d') L' /\ forall e, e ∈ L' -> e ∈ L \/ e ∈ evs.
Proof.
  induction evs as [|e evs IH]; intros d L d' rs Hr Hok Hs; cbn [store_seq] in Hs.
  - injection Hs as <- <-. exists L. auto.
  - apply Forall_cons in Hok as [He Hok]. destruct (PebbleStore.Store d (Some e)) as [d1 r] eqn:E1.
    destruct (store_seq d1 evs) as [d2 rs2] eqn:E2. injection Hs as <- <-.
    destruct (Store_pebble_outcome d L e d1 r Hr He E1) as (L1 & Hout & Hr1).
    destruct (IH d1 L1 d2 rs2 Hr1 Hok E2) as (L2 & Hr2 & Hsub). exists L2. split; [done|].
    pose proof (fun x => pebble_outcome_sub _ _ _ _ _ _ x Hout) as Hsub1.
    intros x Hx. rewrite elem_of_cons. destruct (Hsub x Hx) as [Hx1|Hx1]; [|auto]. destruct (Hsub1 x Hx1); auto.
Qed.

End Histories.

(** The same history in memory. *)
Fixpoint mem_seq (s : InMemoryStorage) (evs : list Event) : InMemoryStorage * list (Res bool) :=
  match evs with
  | [] => (s, [])
  | e :: evs => let '(s, r) := Storage.Store s (Some e) in let '(s, rs) := mem_seq s evs in (s, r :: rs)
  end.

Section Refinement.

Context {D I : Type} `{PebbleLaws D I, EventCodecLaws}.
Context (vetted : Event -> Prop) (known : string -> Prop) (Hvet : vetting D I vetted known).

Lemma corresponds_empty (d : D) : db_view d = ∅ -> corresponds vetted known d [] NewInMemoryStorage.
Proof.
  intros Hd. constructor.
  - rewrite Hd. apply rows_ok_empty.
  - done.
  - apply new_storage_wf.
  - by intros e ?%not_elem_of_nil.
  - intros id _. unfold id_record. by rewrite Hd, lookup_empty.
  - intros a _. unfold addr_record. by rewrite Hd, lookup_empty.
  - done.
  - by intros e ?%not_elem_of_nil.
  - intros a ib _. by rewrite Hd, lookup_empty.
Qed.

Lemma store_seq_corresponds evs : forall (d : D) L s d' rs, corresponds vetted known d L s -> Forall vetted evs ->
  store_seq d evs = (d', rs) -> Forall (fun r => is_ok r = true) rs ->
  exists L' s', mem_seq s evs = (s', rs) /\ corresponds vetted known d' L' s'.
Proof.
  induction evs as [|e evs IH]; intros d L s d' rs Hc Hv Hs Hok; cbn [store_seq mem_seq] in *.
  - injection Hs as <- <-. by exists L, s.
  - apply Forall_cons in Hv as [He Hv]. destruct (PebbleStore.Store d (Some e)) as [d1 r] eqn:E1.
    destruct (store_seq d1 evs) as [d2 rs2] eqn:E2. injection Hs as <- <-. apply Forall_cons in Hok as [Hr Hok].
    destruct r as [b| |]; [|done..].
    destruct (Store_simulates_in_memory vetted known Hvet d L s e d1 b Hc He E1) as (L1 & s1 & Hm & Hc1).
    destruct (IH d1 L1 s1 d2 rs2 Hc1 Hv E2 Hok) as (L2 & s2 & Hms & Hc2). rewrite Hm, Hms. by exists L2, s2.
Qed.

Lemma corresponds_query (d : D) L s o filters : corresponds vetted known d L s -> (forall f, f ∈ filters -> times_ok f) ->
  forall n, (query_fuel (size (db_view d)) o filters <= n)%nat -> exists evs r,
    PebbleQuery.Query n o d filters = Some (evs, r) /\ (r = Ok () -> Storage.Query s filters = Ok evs).
Proof.
  intros Hc Hf n Hn. destruct (Query_pebble_answer d L o filters (co_rows _ _ _ _ _ Hc) Hf n Hn) as (evs & r & Hq & _ & Hans). exists evs, r. split; [done|]. intros Hr.
  destruct (Query_answer s filters) as (l & Hl & Hla); [apply sw_ids, Hc|]. rewrite Hl. f_equal.
  eapply query_answer_unique; [exact Hla|]. eapply query_answer_ext; [|by apply Hans]. apply Hc.
Qed.

End Refinement.

(** ** Example events *)

Module PebbleExamples.

Definition hex64 (c : ascii) : string := str_of (replicate 64 c).
Definition ev (id : ascii) (at_ kind : Z) (ts : list Tag) : Event :=
  mkEvent (hex64 id) (hex64 "1") (time_Unix at_) kind (Some ts) "hello" "sig".

Definition note := ev "a" 10 1 [["t"; "x"]%string].
Definition profile_old := ev "b" 20 0 [].
Definition profile_new := ev "c" 30 0 [].
Definition delete_note := ev "d" 40 5 [["e"; hex64 "a"]%string].
Definition history : list Event := [note; profile_new; profile_old; delete_note; note].

Definition known (a : string) : Prop := a = "" \/ a = address profile_old.

Lemma ev_stored_ok id at_ kind ts : isValidLowercaseHex (hex64 id) 64 = true -> unix_in_range at_ -> int64 kind ->
  Forall (fun t => t <> [] /\ Forall (fun s => utf8_ok s = true) t) ts -> stored_ok (ev id at_ kind ts).
Proof.
  intros Hid Ht Hk Hts. assert (Hu : Unix (time_Unix at_) = at_) by (apply Unix_time_Unix; unfold unix_in_range, unixToInternal in Ht; split; lia).
  assert (Hutf : utf8_ok (hex64 id) = true).
  { unfold hex64 in *. destruct id as [[] [] [] [] [] [] [] []]; vm_compute in Hid; try discriminate Hid; vm_compute; reflexivity. }
  split; constructor; cbn [ev ev_ID ev_Pubkey ev_CreatedAt ev_Kind ev_Tags ev_Content ev_Sig]; rewrite ?Hu; try done; [vm_compute; reflexivity..|].
  by exists ts.
Qed.

Lemma examples_ok e : e ∈ history -> stored_ok e.
Proof.
  assert (Hall : Forall stored_ok history); [|by rewrite Forall_forall in Hall; apply Hall].
  assert (Htag : forall k v, utf8_ok k = true -> utf8_ok v = true ->
    Forall (fun t => t <> [] /\ Forall (fun s => utf8_ok s = true) t) [[k; v]]).
  { intros k v Hk Hv. constructor; [split; [done|by repeat constructor]|constructor]. }
  unfold history. repeat (apply Forall_cons; split; [apply ev_stored_ok; [vm_compute; reflexivity|split; vm_compute; discriminate..|]|]);
    try apply Forall_nil_2; by apply Htag.
Qed.

Lemma examples_store e : e ∈ history -> store_ok MemDB MemIter e.
Proof. intros He. split; [by apply examples_ok|]. intros _ _ d v n. reflexivity. Qed.

Definition vetted (e : Event) : Prop := e ∈ history.

Lemma history_vetted : vetted note /\ vetted profile_new /\ vetted profile_old /\ vetted delete_note.
Proof. unfold vetted, history. rewrite !elem_of_cons. tauto. Qed.

Lemma examples_vetting : vetting MemDB MemIter vetted known.
Proof.
  assert (Hin : forall e, vetted e -> e = note \/ e = profile_new \/ e = profile_old \/ e = delete_note).
  { intros e He. unfold vetted, history in He. rewrite !elem_of_cons, elem_of_nil in He. tauto. }
  constructor.
  - exact examples_store.
  - intros e e' He He' Heq. apply Hin in He, He'. destruct_or! He; destruct_or! He'; subst; try done;
      exfalso; revert Heq; vm_compute; discriminate.
  - assert (Hne : hashAddress "" <> hashAddress (address profile_old)) by (vm_compute; discriminate).
    intros a b [->| ->] [->| ->] Heq; [reflexivity|by destruct Hne|by destruct Hne|reflexivity].
  - intros e He. apply Hin in He. unfold known. destruct_or! He; subst; [left|right|right|left]; vm_compute; reflexivity.
  - intros e arg rest He Hk Htag Hl. apply Hin in He. destruct_or! He; subst; try discriminate Hk.
    change (tags delete_note) with [["e"%string; hex64 "a"]] in Htag. apply list_elem_of_singleton in Htag as [= -> ->].
    split; vm_compute; [reflexivity|discriminate].
  - intros e arg rest He Hk Htag. apply Hin in He. destruct_or! He; subst; try discriminate Hk.
    change (tags delete_note) with [["e"%string; hex64 "a"]] in Htag. apply list_elem_of_singleton in Htag. discriminate Htag.
Qed.

End PebbleExamples.

(** ** Properties *)

(** C13: whatever a store into a Pebble database of some events returns, a failed
    read or commit included, the database then holds exactly the rows (event, time
    index, field indexes) of the events the outcome names: the same when the event is
    refused or an event at least as recent has its address; else without the events a
    deletion request hits or the event it replaces, and with the stored one.  When it
    fails, either nothing has happened, or everything has and only the last commit
    reported an error, or a deletion request has removed what it hits and no more: an
    event is never replaced by halves.  The event is one Pebble can hold (id and
    author of 64 lowercase hex digits, integers in range, readable when written), and
    if it is a deletion request with an "a" tag, what the code reads after closing it
    must still be there, which Pebble does not promise. *)
Theorem Pebble_Store_outcome {D I : Type} `{PebbleLaws D I, EventCodecLaws} (d : D) (L : list Event) (e : Event) (d' : D) (r : Res bool) :
  rows_ok (db_view d) L -> store_ok D I e -> PebbleStore.Store d (Some e) = (d', r) ->
  exists L', pebble_outcome d L e d' r L' /\ rows_ok (db_view d') L'.
Proof. apply Store_pebble_outcome. Qed.

Lemma Pebble_Store_outcome_witness :
  let d := (store_seq (∅ : MemDB) [PebbleExamples.note; PebbleExamples.profile_old]).1 in
  let '(d', r) := PebbleStore.Store d (Some PebbleExamples.profile_new) in
  exists L L', pebble_outcome d L PebbleExamples.profile_new d' r L' /\ rows_ok (db_view d') L'.
Proof.
  intros d. destruct (PebbleStore.Store d (Some PebbleExamples.profile_new)) as [d' r] eqn:E.
  assert (Hempty : rows_ok (db_view (∅ : MemDB)) []) by apply rows_ok_empty.
  destruct (store_seq_rows [PebbleExamples.note; PebbleExamples.profile_old] (∅ : MemDB) [] d _ Hempty
    ltac:(repeat apply Forall_cons_2; try apply Forall_nil_2; apply PebbleExamples.examples_store, PebbleExamples.history_vetted)
    (surjective_pairing _)) as (L & HL & _).
  exists L. apply (Pebble_Store_outcome d L PebbleExamples.profile_new d' r); [exact HL| |exact E].
  apply PebbleExamples.examples_store, PebbleExamples.history_vetted.
Defined.

(** C14: no history of stores of events Pebble can hold (ids and authors of 64
    lowercase hex digits, integers in range, readable when written), failures
    included, leaves a Pebble database broken: starting from an empty one, it holds at
    every time exactly the rows of some of the events given to it, each id once; no
    index row without its event, no event without its index rows.  For deletion
    requests with an "a" tag this takes that a value is still there after its Close. *)
Theorem Pebble_history_invariant {D I : Type} `{PebbleLaws D I, EventCodecLaws} (d : D) (evs : list Event) (d' : D) (rs : list (Res bool)) :
  db_view d = ∅ -> Forall (store_ok D I) evs -> store_seq d evs = (d', rs) ->
  exists L, rows_ok (db_view d') L /\ forall e, e ∈ L -> e ∈ evs.
Proof.
  intros Hd Hok Hs. assert (Hempty : rows_ok (db_view d) []) by (rewrite Hd; apply rows_ok_empty).
  destruct (store_seq_rows evs d [] d' rs Hempty Hok Hs) as (L & HL & Hsub). exists L. split; [done|].
  intros e He. by destruct (Hsub e He) as [?%not_elem_of_nil|].
Qed.

Lemma Pebble_history_invariant_witness :
  let '(d', rs) := store_seq (∅ : MemDB) PebbleExamples.history in
  rs = [Ok true; Ok true; Ok false; Ok true; Ok false] /\
  exists L, rows_ok (db_view d') L /\ forall e, e ∈ L -> e ∈ PebbleExamples.history.
Proof.
  destruct (store_seq (∅ : MemDB) PebbleExamples.history) as [d' rs] eqn:E. split.
  - apply (f_equal snd) in E. cbn [snd] in E. rewrite <-E. vm_compute. reflexivity.
  - apply (Pebble_history_invariant (∅ : MemDB) PebbleExamples.history d' rs); [reflexivity| |exact E].
    apply Forall_forall. exact PebbleExamples.examples_store.
Defined.

(** C12: a query always ends, for filters whose since is not the smallest int64, within
    [query_fuel] turns of its loops: for each filter, its ids and twice the rows of the
    database for each value it asks for and once more; what it yields is the start of the answer for the stored
    events (newest first, ties by the smaller id, each match once, at most the first
    filter's limit), and all of it unless a read failed, which it reports (an
    iterator, by its laws here, does not fail). *)
Theorem Pebble_Query_answer {D I : Type} `{PebbleLaws D I, EventCodecLaws} (d : D) (L : list Event) (o : MapOrder) (filters : list ReqFilter) :
  rows_ok (db_view d) L -> (forall f, f ∈ filters -> times_ok f) ->
  forall n, (query_fuel (size (db_view d)) o filters <= n)%nat -> exists evs r,
  PebbleQuery.Query n o d filters = Some (evs, r) /\
  (exists l, query_answer L filters l /\ evs `prefix_of` l) /\ (r = Ok () -> query_answer L filters evs).
Proof. apply Query_pebble_answer. Qed.

Definition tagged : ReqFilter := mkReqFilter None None (Some [1; 5]) {["t"%string := ["x"%string]]} (Some 5) None None None.

Lemma tagged_times f : f ∈ [tagged] -> times_ok f.
Proof. intros ->%list_elem_of_singleton. constructor; [intros s [= <-]; split; [split; vm_compute; discriminate|vm_compute; discriminate]|done]. Qed.

Lemma Pebble_Query_answer_witness :
  let d := (store_seq (∅ : MemDB) [PebbleExamples.note; PebbleExamples.profile_old]).1 in
  PebbleQuery.Query 100 range_in_order d [tagged] = Some ([PebbleExamples.note], Ok ()) /\
  (query_fuel (size (db_view d)) range_in_order [tagged] <= 100)%nat /\
  exists L, forall n, (query_fuel (size (db_view d)) range_in_order [tagged] <= n)%nat -> exists evs r,
  PebbleQuery.Query n range_in_order d [tagged] = Some (evs, r) /\
  (exists l, query_answer L [tagged] l /\ evs `prefix_of` l) /\ (r = Ok () -> query_answer L [tagged] evs).
Proof.
  intros d. split; [vm_compute; reflexivity|]. split; [apply Nat.leb_le; vm_compute; reflexivity|].
  assert (Hempty : rows_ok (db_view (∅ : MemDB)) []) by apply rows_ok_empty.
  destruct (store_seq_rows [PebbleExamples.note; PebbleExamples.profile_old] (∅ : MemDB) [] d _ Hempty
    ltac:(repeat apply Forall_cons_2; try apply Forall_nil_2; apply PebbleExamples.examples_store, PebbleExamples.history_vetted)
    (surjective_pairing _)) as (L & HL & _).
  exists L. apply (Pebble_Query_answer d L range_in_order [tagged]); [exact HL|exact tagged_times].
Defined.

(** C11: the two storages are interchangeable on vetted events: when every event is
    one Pebble can hold (id and author of 64 lowercase hex digits, integers in range,
    readable when written), the ids identify the events, the hashes of the addresses
    in use do not collide, deletion requests name well-formed ids other than their
    own and non-empty addresses, and, if there are requests naming addresses, a value
    is still there after its Close, then a history of stores into an empty Pebble
    database that did not fail returns, call by call, what the in-memory storage
    returns, and afterwards every query that does not fail (its filters' since not the
    smallest int64) yields the same events in the same order. *)
Theorem Pebble_refines_memory {D I : Type} `{PebbleLaws D I, EventCodecLaws} (vetted : Event -> Prop) (known : string -> Prop)
    (d : D) (evs : list Event) (d' : D) (rs : list (Res bool)) :
  vetting D I vetted known -> db_view d = ∅ -> Forall vetted evs ->
  store_seq d evs = (d', rs) -> Forall (fun r => is_ok r = true) rs ->
  exists s', mem_seq NewInMemoryStorage evs = (s', rs) /\
  forall o filters, (forall f, f ∈ filters -> times_ok f) ->
  forall n, (query_fuel (size (db_view d')) o filters <= n)%nat -> exists l r,
    PebbleQuery.Query n o d' filters = Some (l, r) /\ (r = Ok () -> Storage.Query s' filters = Ok l).
Proof.
  intros Hvet Hd Hv Hs Hok.
  destruct (store_seq_corresponds vetted known Hvet evs d [] NewInMemoryStorage d' rs) as (L & s' & Hm & Hc);
    [by apply corresponds_empty|done..|].
  exists s'. split; [done|]. intros o filters. by apply (corresponds_query vetted known d' L).
Qed.

Lemma Pebble_refines_memory_witness :
  let '(d', rs) := store_seq (∅ : MemDB) PebbleExamples.history in
  exists s', mem_seq NewInMemoryStorage PebbleExamples.history = (s', rs) /\
  forall o filters, (forall f, f ∈ filters -> times_ok f) ->
  forall n, (query_fuel (size (db_view d')) o filters <= n)%nat -> exists l r,
    PebbleQuery.Query n o d' filters = Some (l, r) /\ (r = Ok () -> Storage.Query s' filters = Ok l).
Proof.
  destruct (store_seq (∅ : MemDB) PebbleExamples.history) as [d' rs] eqn:E.
  apply (Pebble_refines_memory PebbleExamples.vetted PebbleExamples.known (∅ : MemDB) PebbleExamples.history d' rs).
  - exact PebbleExamples.examples_vetting.
  - reflexivity.
  - apply Forall_forall. intros e He. exact He.
  - exact E.
  - apply (f_equal snd) in E. cbn [snd] in E. rewrite <-E.
    assert (Hr : (store_seq (∅ : MemDB) PebbleExamples.history).2 = [Ok true; Ok true; Ok false; Ok true; Ok false]) by (vm_compute; reflexivity).
    rewrite Hr. repeat constructor.
Defined.

(** The byte order of the keys of the time index is the order of query results:
    the key of one event comes before that of another exactly when the event is
    newer, or as old with the smaller id; so walking the index forward yields the
    newest events first. *)
Theorem created_key_order (a b : Event) : event_ok a -> event_ok b ->
  bytesLess (makeCreatedAtKey (invertTimestamp (Unix (ev_CreatedAt a))) (id_bytes (ev_ID a)))
            (makeCreatedAtKey (invertTimestamp (Unix (ev_CreatedAt b))) (id_bytes (ev_ID b))) = true <-> ev_lt a b.
Proof.
  intros Ha Hb. rewrite <-event_entry_less by done. rewrite <-(key_of_less [prefixCreatedAt]); [done|by apply event_entry_ok..].
Qed.

Lemma created_key_order_witness :
  bytesLess (makeCreatedAtKey (invertTimestamp (Unix (ev_CreatedAt PebbleExamples.profile_new))) (id_bytes (ev_ID PebbleExamples.profile_new)))
            (makeCreatedAtKey (invertTimestamp (Unix (ev_CreatedAt PebbleExamples.note))) (id_bytes (ev_ID PebbleExamples.note))) = true <->
  ev_lt PebbleExamples.profile_new PebbleExamples.note.
Proof. apply created_key_order; apply PebbleExamples.examples_ok, PebbleExamples.history_vetted. Defined.

(** ** An event that cannot be read back *)

(** What a successful store of an event has written under its id. *)
Lemma write_ops_event e ib b m : apply_batch (write_ops e ib b) m !! makeEventKey ib = Some b.
Proof.
  unfold write_ops. rewrite apply_batch_cons, apply_untouched; [apply lookup_insert_eq|].
  rewrite fmap_app, <-list_fmap_compose. intros [Hk|Hk]%elem_of_app.
  - unfold index_keys in Hk. rewrite fmap_cons, elem_of_cons in Hk. destruct Hk as [Hk|Hk]; [discriminate Hk|].
    apply list_elem_of_fmap in Hk as (k & Hk & Hin). apply list_elem_of_fmap in Hin as (h & -> & _). discriminate Hk.
  - destruct (has_address e); [|by apply elem_of_nil in Hk]. apply list_elem_of_singleton in Hk. discriminate Hk.
Qed.

Lemma Store_written {D I : Type} `{PebbleLaws D I, EventCodec} (d d' : D) (e : Event) : PebbleStore.Store d (Some e) = (d', Ok true) ->
  exists ib b, hexToBytes32 (ev_ID e) = Ok ib /\ marshal_event e = Ok b /\ db_view d' !! makeEventKey ib = Some b.
Proof.
  cbn [PebbleStore.Store]. unfold store_checks. destruct (hexToBytes32 (ev_ID e)) as [ib| |]; [|done..]. cbn [mbind Res_bind].
  destruct (store_refused d e ib) as [[|]| |]; [done| |done..]. cbn [mbind Res_bind mret Res_ret].
  assert (Hw : forall d1, store_write d1 e ib = (d', Ok true) -> exists b, marshal_event e = Ok b /\ db_view d' !! makeEventKey ib = Some b).
  { intros d1. unfold store_write, store_batch. destruct (if has_address e then _ else _) as [[old|]| |]; [|done..]. cbn [mbind Res_bind].
    destruct (marshal_event e) as [b| |]; [|done..]. cbn [wrap_err mbind Res_bind].
    destruct (match old with Some _ => _ | None => _ end) as [dels| |]; [|done..]. cbn [mbind Res_bind mret Res_ret].
    destruct (commit d1 "commit batch" (dels ++ write_ops e ib b)) as [d2 r2] eqn:Ec. pose proof (commit_cases _ _ _ _ _ Ec) as Hc.
    destruct r2 as [[]| |]; [|done..]. intros [= <-]. exists b. split; [done|].
    destruct Hc as [[-> _]|[_ [err ?]]]; [|done]. by rewrite apply_batch_app, write_ops_event. }
  destruct (ev_Kind e =? 5).
  - destruct (PebbleStore.processKind5 d e) as [d1 [[]| |]]; [|done..]. intros (b & Hm & Hv)%Hw. by exists ib, b.
  - intros (b & Hm & Hv)%Hw. by exists ib, b.
Qed.

(** C16: an event with an empty tag poisons a Pebble storage: when the relay lets the
    frame of such an EVENT through, its parser, and its check of id and signature, have
    accepted it; the event is marshalled without an error, but what is stored cannot
    be unmarshalled, since encoding/json writes the nil slice of the tag as null and
    the event's own unmarshaller rejects null.  So once a database has stored it, no
    lookup of the event succeeds any more: neither a query's that comes to it nor that
    of a request to delete it. *)
Theorem empty_tag_poisons {D I : Type} `{PebbleLaws D I, Schnorr} (payload : list ascii) (e : Event) (ts : list Tag) :
  judge_frame MessageText payload = Ok (Deliver (client_event e)) -> ev_Tags e = Some ts -> [] ∈ ts ->
  Verify (Some e) = Ok true /\
  (exists value err, marshal_event e = Ok value /\ unmarshal_event value = Err err) /\
  forall d d' : D, PebbleStore.Store d (Some e) = (d', Ok true) -> exists eventID, hexToBytes32 (ev_ID e) = Ok eventID /\
    (forall what o, get_event d' what eventID <> Ok o) /\ (forall ops, deleteEventFromBatch d' (live eventID) <> Ok ops).
Proof.
  intros (_ & _ & Hp & Hv)%judge_deliver Hts Hin. split; [by apply Hv|].
  assert (Hpe : parsed_event e) by (apply ParseClientMsg_typed in Hp; by inversion Hp).
  destruct (parsed_writes V1 e Hpe) as (l & Hl & Hparse).
  assert (Hm : marshal_event e = Ok (map code l)) by (cbn; unfold json_marshal_event; by rewrite Hl).
  assert (Hu : exists err, unmarshal_event (map code l) = Err err).
  { cbn. unfold json_unmarshal_event, unmarshal_text. rewrite chr_code_list, Hparse. pose proof (empty_tag_unreadable e ts Hts Hin) as Hno.
    destruct (Event_UnmarshalJSONFrom (event_json V1 e)) as [e'|err|w] eqn:E; [by destruct (Hno e')|by exists err|by apply calm_event in E]. }
  destruct Hu as [err Hu]. split; [by exists (map code l), err|]. intros d d' Hs.
  destruct (Store_written d d' e Hs) as (ib & b & Hib & Hb & Hview). rewrite Hm in Hb. injection Hb as <-.
  assert (Hget : forall what o, get_event d' what ib <> Ok o).
  { intros what o Hg. unfold get_event in Hg. apply bind_Ok in Hg as (v & Hv'%get_value_Ok & Hg). rewrite Hview in Hv'. subst v.
    by rewrite Hu in Hg. }
  exists ib. split; [done|]. split; [done|]. intros ops Hd. unfold deleteEventFromBatch, getEventByID, live in Hd.
  apply bind_Ok in Hd as (o & Ho & _). by eapply Hget.
Qed.

Module PoisonExamples.
Definition poison : Event := PebbleExamples.ev "e" 50 1 [[]].
Definition delete_poison : Event := PebbleExamples.ev "f" 60 5 [["e"; PebbleExamples.hex64 "e"]%string].
(** One that verifies, under a scheme that accepts its signature. *)
Definition signed : Event := with_id (with_tags CodecExamples.note [[]]).
End PoisonExamples.

Lemma empty_tag_poisons_witness :
  @Verify AcceptAll (Some PoisonExamples.signed) = Ok true /\
  (PebbleStore.Store (∅ : MemDB) (Some PoisonExamples.signed)).2 = Ok true /\
  exists eventID, hexToBytes32 (ev_ID PoisonExamples.signed) = Ok eventID /\
    (forall what o, get_event (PebbleStore.Store (∅ : MemDB) (Some PoisonExamples.signed)).1 what eventID <> Ok o).
Proof.
  assert (Hjudge : @judge_frame AcceptAll MessageText (RelayLoopExamples.text_of (client_event PoisonExamples.signed)) =
    Ok (Deliver (client_event PoisonExamples.signed))) by (vm_compute; reflexivity).
  assert (Hstore : (PebbleStore.Store (∅ : MemDB) (Some PoisonExamples.signed)).2 = Ok true) by (vm_compute; reflexivity).
  destruct (@empty_tag_poisons MemDB MemIter _ _ _ _ AcceptAll _ PoisonExamples.signed [[]] Hjudge eq_refl) as (Hv & _ & Hs);
    [by apply list_elem_of_singleton|].
  split; [exact Hv|]. split; [exact Hstore|].
  destruct (PebbleStore.Store (∅ : MemDB) (Some PoisonExamples.signed)) as [d' r] eqn:E.
  change (r = Ok true) in Hstore. subst r. destruct (Hs (∅ : MemDB) d' E) as (eventID & Hid & Hget & _).
  exists eventID. split; [exact Hid|exact Hget].
Defined.

(** The event is stored; from then on the query for everything yields nothing and
    fails, though another event is stored, and a request to delete it fails too. *)
Example poison_run :
  let '(d, rs) := store_seq (∅ : MemDB) [PebbleExamples.note; PoisonExamples.poison; PoisonExamples.delete_poison] in
  rs = [Ok true; Ok true; Err "unmarshal event: expected array for tag"] /\
  PebbleQuery.Query 50 range_in_order d [emptyFilter] =
    Some ([], Err "query event: unmarshal event: expected array for tag").
Proof. vm_compute. by split. Qed.

(** A since of the smallest int64, which every event matches, leaves nothing of a
    stored event: the upper bound of the scan wraps around. *)
Example since_min_run :
  let d := (store_seq (∅ : MemDB) [PebbleExamples.note]).1 in
  let f := mkReqFilter None None None ∅ (Some MinInt64) None None None in
  Match (Some f) (Some PebbleExamples.note) = true /\
  PebbleQuery.Query 50 range_in_order d [emptyFilter] = Some ([PebbleExamples.note], Ok ()) /\
  PebbleQuery.Query 50 range_in_order d [f] = Some ([], Ok ()).
Proof. vm_compute. by split_and!. Qed.

(** ** A closed value, and two batches *)

(** A database whose buffers are used again: once closed, a value shows what is left
    in its buffer. *)
Record ReusedDB : Type := mkReusedDB { rd_db : MemDB; rd_buffer : bytes }.

#[export] Instance ReusedDB_ops : PebbleDB ReusedDB MemIter := {|
  db_Get := fun d => mem_Get (rd_db d);
  db_Commit := fun d ops => (mkReusedDB (apply_batch ops (rd_db d)) (rd_buffer d), None);
  db_NewIter := fun d => db_NewIter (rd_db d);
  db_Closed := fun d _ _ => rd_buffer d
|}.

#[export] Instance ReusedDB_laws : PebbleLaws ReusedDB MemIter.
Proof.
  refine {| db_view := rd_db |}.
  - intros d. apply mem_Get_spec.
  - intros d ops d' err [= <- <-]. by left.
  - intros d lo hi it [= <-] k. apply keys_between_elem.
Defined.

Definition delete_profile : Event :=
  PebbleExamples.ev "d" 40 5 [["a"%string; address PebbleExamples.profile_old]].

(** It keeps every law of Pebble.  A request to delete a profile, by its address,
    removes the note whose id the buffer shows by then, and the profile stays. *)
Example closed_value_run :
  let d := mkReusedDB ∅ (id_bytes (ev_ID PebbleExamples.note)) in
  let '(d', rs) := store_seq d [PebbleExamples.note; PebbleExamples.profile_old; delete_profile] in
  rs = [Ok true; Ok true; Ok true] /\
  PebbleQuery.Query 50 range_in_order d' [emptyFilter] = Some ([delete_profile; PebbleExamples.profile_old], Ok ()) /\
  Storage.Query (mem_seq NewInMemoryStorage [PebbleExamples.note; PebbleExamples.profile_old; delete_profile]).1 [emptyFilter] =
    Ok [delete_profile; PebbleExamples.note].
Proof. vm_compute. by split_and!. Qed.

(** A store of a deletion request commits twice, and a query takes no lock: between
    the two it sees the deletions without the request, which is neither what it sees
    before nor after. *)
Example deletion_half_way_run :
  let d := (store_seq (∅ : MemDB) [PebbleExamples.note; PebbleExamples.profile_new]).1 in
  let all d := PebbleQuery.Query 50 range_in_order d [emptyFilter] in
  all d = Some ([PebbleExamples.profile_new; PebbleExamples.note], Ok ()) /\
  all (PebbleStore.processKind5 d PebbleExamples.delete_note).1 = Some ([PebbleExamples.profile_new], Ok ()) /\
  all (PebbleStore.Store d (Some PebbleExamples.delete_note)).1 = Some ([PebbleExamples.delete_note; PebbleExamples.profile_new], Ok ()).
Proof. vm_compute. by split_and!. Qed.
