(* ===== verification/PebbleResources.v ===== *)
(** * The functions a Pebble query returns (pebble_storage.go)

    [PebbleStorage.Query] opens a snapshot and returns three functions: the events
    to range over, which open an iterator per cursor, [errFn] and [closeFn].  Here
    they work on the state they capture, with what they open and close on record:
    a consumer that stops early, one that ranges again, an error half way.  The
    events are those of PebbleQuery.v. *)

From S2P Require Import Prelude GoTime Text Bytes Event Filter Storage PebbleKeys Heap PebbleCursor PebbleJoin.
From S2P Require Import PebbleStore PebbleRows PebbleInv PebbleQuery PebbleFaults PebbleIndex PebbleQuerySpec.
From S2P Require Import Json EventJson PebbleMem PebbleSpec.

(** ** What is open *)

(** The snapshot of a query, and its iterators in the order in which they were made. *)
Inductive Resource : Type := TheSnapshot | IteratorNo (i : nat).

(** What was opened, and the slice [iterators] of the query. *)
Record Ledger : Type := mkLedger { lg_opened : list Resource; lg_iterators : list Resource }.

(** Code that opens iterators and appends them to the slice, and may fail. *)
Definition Tracked (A : Type) : Type := Ledger -> Ledger * Res A.

#[export] Instance Tracked_ret : MRet Tracked := fun A a l => (l, Ok a).
#[export] Instance Tracked_bind : MBind Tracked := fun A B f m l =>
  match m l with
  | (l, Ok a) => f a l
  | (l, Err e) => (l, Err e)
  | (l, Panic w) => (l, Panic w)
  end.

Section Query.

Context {D I : Type} `{PebbleDB D I} `{EventCodec}.

(** [snapshot.NewIter] and the [append] after it. *)
Definition track_new_iter (snapshot : D) (what : string) (lower upper : bytes) : Tracked I := fun l =>
  match new_iter snapshot what lower upper with
  | Ok it =>
      let opened := IteratorNo (length (lg_opened l)) in
      (mkLedger (lg_opened l ++ [opened]) (lg_iterators l ++ [opened]), Ok it)
  | Err e => (l, Err e)
  | Panic w => (l, Panic w)
  end.

Definition track_field_cursor (snapshot : D) (hash : Z) (filter : ReqFilter) : Tracked (indexCursor I) :=
  let prefix := prefixField :: be64 hash in
  it ← track_new_iter snapshot "create field iterator" (lower_bound prefix filter)
         (upper_bound prefix (incrementBytes prefix) filter);
  mret (newIndexCursor it prefix 9 17).

Definition track_created_at_cursor (snapshot : D) (filter : ReqFilter) : Tracked (indexCursor I) :=
  let prefix := [prefixCreatedAt] in
  it ← track_new_iter snapshot "create created_at iterator" (lower_bound prefix filter)
         (upper_bound prefix [prefixCreatedAt + 1] filter);
  mret (newIndexCursor it prefix 1 9).

Fixpoint track_index_cursors (snapshot : D) (filter : ReqFilter) (hashes : list Z) : Tracked (list (indexCursor I)) :=
  match hashes with
  | [] => mret []
  | h :: hashes =>
      c ← track_field_cursor snapshot h filter;
      cs ← track_index_cursors snapshot filter hashes;
      mret (c :: cs)
  end.

Definition track_condition (snapshot : D) (filter : ReqFilter) (hashes : list Z)
    : Tracked (list (indexCursor I + unionCursor (indexCursor I))) :=
  cursors ← track_index_cursors snapshot filter hashes;
  mret (if (0 <? length cursors)%nat then [wrapCursors cursors] else []).

Fixpoint track_conditions (snapshot : D) (filter : ReqFilter) (groups : list (list Z))
    : Tracked (list (indexCursor I + unionCursor (indexCursor I))) :=
  match groups with
  | [] => mret []
  | g :: groups =>
      c ← track_condition snapshot filter g; cs ← track_conditions snapshot filter groups; mret (c ++ cs)
  end.

Abbreviation tree := (sliceCursor + ((indexCursor I + unionCursor (indexCursor I)) +
                      intersectCursor (indexCursor I + unionCursor (indexCursor I))))%type.

(** [buildFilterCursor] with the slice it appends to. *)
Definition track_filter_cursor (n : nat) (order : MapOrder) (snapshot : D) (filter : ReqFilter) (l : Ledger)
    : Ledger * option (Res (option tree)) :=
  if (0 <? length (elems (f_IDs filter)))%nat then
    (l, Some (option_map inl <$> buildIDsCursor snapshot (elems (f_IDs filter))))
  else
    match track_conditions snapshot filter (condition_hashes order filter) l with
    | (l, Ok []) =>
        let '(l, c) := track_created_at_cursor snapshot filter l in
        (l, Some ((fun c => Some (inr (inl (inl c)))) <$> c))
    | (l, Ok [c]) => (l, Some (Ok (Some (inr (inl c)))))
    | (l, Ok cs) => (l, (fun c => Ok (Some (inr (inr c)))) <$> newIntersectCursor n cs)
    | (l, Err e) => (l, Some (Err e))
    | (l, Panic w) => (l, Some (Panic w))
    end.

Fixpoint track_build_heap (n : nat) (order : MapOrder) (snapshot : D) (filters : list ReqFilter)
    (fh : list filterCursorPair) (l : Ledger) : Ledger * option (Res (list filterCursorPair)) :=
  match filters with
  | [] => (l, Some (Ok fh))
  | filter :: filters =>
      match track_filter_cursor n order snapshot filter l with
      | (l, None) => (l, None)
      | (l, Some c) =>
          match wrap_err "build filter cursor" c with
          | Ok (Some cursor) =>
              track_build_heap n order snapshot filters
                (if Valid cursor then heap_Push pairLess fh (mkFilterCursorPair cursor filter) else fh) l
          | Ok None => track_build_heap n order snapshot filters fh l
          | Err e => (l, Some (Err e))
          | Panic w => (l, Some (Panic w))
          end
      end
  end.

(** ** The events function *)

(** The loop over the heap; [yield] is what the consumer answers to its first
    event, its second and so on. *)
Fixpoint range_loop (fuel n : nat) (snapshot : D) (limit count : Z) (seen : gset string)
    (fh : list filterCursorPair) (yield : Z -> bool) : option (list Event * Res unit) :=
  match fuel with
  | O => None
  | S fuel =>
      if (length fh =? 0)%nat then Some ([], Ok ())
      else if (0 <=? limit) && (limit <=? count) then Some ([], Ok ())
      else
        match heap_Pop pairLess fh with
        | (_, None) => Some ([], Ok ())
        | (fh, Some p) =>
            let eventIDHex := bytesToHex (snd (head (fc_cursor p))) in
            let next (count : Z) (seen : gset string) :=
              '(cursor, ok) ← Next n (fc_cursor p);
              let fh := if ok : bool then heap_Push pairLess fh (mkFilterCursorPair cursor (fc_filter p)) else fh in
              range_loop fuel n snapshot limit count seen fh yield in
            match candidate snapshot seen p with
            | Err e => Some ([], Err e)
            | Panic w => Some ([], Panic w)
            | Ok None => next count seen
            | Ok (Some e) =>
                if yield (count + 1) then yielding e <$> next (count + 1) ({[eventIDHex]} ∪ seen)
                else Some ([e], Ok ())
            end
        end
  end.

(** What the closures of a query share. *)
Record QueryState : Type := mkQueryState { qs_ledger : Ledger; qs_queryErr : option string }.

(** [Query] itself: the snapshot is open, nothing else. *)
Definition query_open : QueryState := mkQueryState (mkLedger [TheSnapshot] []) None.

Definition record_err {A} (st : QueryState) (r : Res A) : QueryState :=
  match r with Err e => mkQueryState (qs_ledger st) (Some e) | _ => st end.

(** A range over the events: fuel, the order of the maps, and the consumer. *)
Record RangeCall : Type := mkRangeCall { rc_fuel : nat; rc_order : MapOrder; rc_yield : Z -> bool }.

Definition query_events (snapshot : D) (filters : list ReqFilter) (c : RangeCall) (st : QueryState)
    : option (QueryState * (list Event * Res unit)) :=
  if (length filters =? 0)%nat then Some (st, ([], Ok ()))
  else
    let '(l, fh) := track_build_heap (rc_fuel c) (rc_order c) snapshot filters [] (qs_ledger st) in
    let st := mkQueryState l (qs_queryErr st) in
    fh ← fh;
    match fh with
    | Ok fh =>
        '(evs, r) ← range_loop (rc_fuel c) (rc_fuel c) snapshot (query_limit filters) 0 ∅ fh (rc_yield c);
        Some (record_err st r, (evs, r))
    | Err e => Some (record_err st (Err e : Res unit), ([], Err e))
    | Panic w => Some (st, ([], Panic w))
    end.

(** Ranges one after the other, up to one that panics. *)
Fixpoint query_ranges (snapshot : D) (filters : list ReqFilter) (cs : list RangeCall) (st : QueryState)
    : option (QueryState * list (list Event * Res unit)) :=
  match cs with
  | [] => Some (st, [])
  | c :: cs =>
      '(st, out) ← query_events snapshot filters c st;
      match snd out with
      | Panic _ => Some (st, [out])
      | _ => '(st, outs) ← query_ranges snapshot filters cs st; Some (st, out :: outs)
      end
  end.

(** ** [errFn] and [closeFn] *)

Definition errFn (st : QueryState) : option string := qs_queryErr st.

(** The loop over the iterators; [close] is what each [Close] returns. *)
Fixpoint close_loop (close : Resource -> option string) (iterators : list Resource) (closeErr : option string)
    : list Resource * option string :=
  match iterators with
  | [] => ([], closeErr)
  | it :: iterators =>
      let closeErr := match close it, closeErr with Some e, None => Some e | _, _ => closeErr end in
      let '(closed, closeErr) := close_loop close iterators closeErr in (it :: closed, closeErr)
  end.

(** What it closes, in order, and its result. *)
Definition closeFn (close : Resource -> option string) (st : QueryState) : list Resource * option string :=
  let '(closed, closeErr) := close_loop close (lg_iterators (qs_ledger st)) None in
  (closed ++ [TheSnapshot],
   match close TheSnapshot, closeErr with Some e, None => Some e | _, _ => closeErr end).

End Query.

(** ** The record of the iterators *)

(** Every iterator opened is in the slice, once, after the snapshot. *)
Definition balanced (l : Ledger) : Prop :=
  exists k, lg_iterators l = IteratorNo <$> seq 1 k /\ lg_opened l = TheSnapshot :: lg_iterators l.

Lemma balanced_open : balanced (mkLedger [TheSnapshot] []).
Proof. by exists 0%nat. Qed.

Lemma balanced_append l : balanced l ->
  let r := IteratorNo (length (lg_opened l)) in balanced (mkLedger (lg_opened l ++ [r]) (lg_iterators l ++ [r])).
Proof.
  intros (k & Hi & Ho) r. exists (S k). cbn [lg_opened lg_iterators]. subst r. rewrite Ho. split; [|done].
  cbn [length]. rewrite Hi, length_fmap, length_seq, seq_S, fmap_app. done.
Qed.

(** Whether or not it fails, [m] returns [r] and keeps the record. *)
Definition tracks {A} (m : Tracked A) (r : Res A) : Prop :=
  forall l, balanced l -> exists l', m l = (l', r) /\ balanced l'.

Lemma tracks_ret {A} (a : A) : tracks (mret a) (mret a).
Proof. intros l Hl. by exists l. Qed.

Lemma tracks_bind {A B} (m : Tracked A) r (f : A -> Tracked B) g :
  tracks m r -> (forall a, tracks (f a) (g a)) -> tracks (m ≫= f) (r ≫= g).
Proof.
  intros Hm Hf l Hl. destruct (Hm l Hl) as (l' & Heq & Hl'). unfold mbind, Tracked_bind. rewrite Heq.
  destruct r as [a|e|w]; [by apply Hf|by exists l'|by exists l'].
Qed.

Create HintDb tracks.
#[export] Hint Resolve tracks_ret tracks_bind : tracks.

(** ** What a consumer sees *)

(** The events taken by a consumer that has had [count], and whether it stopped. *)
Fixpoint consumed (yield : Z -> bool) (count : Z) (evs : list Event) : list Event * bool :=
  match evs with
  | [] => ([], false)
  | e :: evs =>
      if yield (count + 1) then let '(t, stopped) := consumed yield (count + 1) evs in (e :: t, stopped)
      else ([e], true)
  end.

(** A run of which the consumer takes what it wants; a run it stops has no error. *)
Definition seen_by (yield : Z -> bool) (count : Z) (run : list Event * Res unit) : list Event * Res unit :=
  let '(t, stopped) := consumed yield count (fst run) in (t, if stopped then Ok () else snd run).

Lemma seen_by_nil yield count r : seen_by yield count ([], r) = ([], r).
Proof. done. Qed.

Lemma seen_by_cons yield count e run : seen_by yield count (yielding e run) =
  if yield (count + 1) then yielding e (seen_by yield (count + 1) run) else ([e], Ok ()).
Proof.
  unfold seen_by, yielding. cbn [fst snd consumed]. destruct (yield (count + 1)); [|done].
  by destruct (consumed yield (count + 1) (fst run)).
Qed.

Section Tracking.

Context {D I : Type} `{PebbleDB D I} `{EventCodec}.

Lemma tracks_new_iter (d : D) what lo hi : tracks (track_new_iter d what lo hi) (new_iter d what lo hi).
Proof.
  intros l Hl. unfold track_new_iter. destruct (new_iter d what lo hi); eexists; split; try done.
  by apply balanced_append.
Qed.
Hint Resolve tracks_new_iter : tracks.

Lemma tracks_index_cursors (d : D) filter hs : tracks (track_index_cursors d filter hs) (index_cursors d filter hs).
Proof.
  induction hs as [|h hs IH]; cbn [track_index_cursors index_cursors]; [apply tracks_ret|].
  unfold track_field_cursor, newFieldIndexCursor. eauto 6 with tracks.
Qed.
Hint Resolve tracks_index_cursors : tracks.

Lemma tracks_conditions (d : D) filter gs : tracks (track_conditions d filter gs) (conditions d filter gs).
Proof.
  induction gs as [|g gs IH]; cbn [track_conditions conditions]; [apply tracks_ret|].
  unfold track_condition, condition. eauto 6 with tracks.
Qed.

Lemma tracks_created_at (d : D) filter : tracks (track_created_at_cursor d filter) (newCreatedAtCursor d filter).
Proof. unfold track_created_at_cursor, newCreatedAtCursor. eauto with tracks. Qed.

Lemma track_filter_cursor_spec n o (d : D) filter l : balanced l -> exists l',
  track_filter_cursor n o d filter l = (l', buildFilterCursor n o d filter) /\ balanced l'.
Proof.
  intros Hl. unfold track_filter_cursor, buildFilterCursor. destruct (0 <? _)%nat; [by exists l|].
  destruct (tracks_conditions d filter (condition_hashes o filter) l Hl) as (l1 & -> & Hl1).
  destruct (conditions d filter (condition_hashes o filter)) as [[|c [|c' cs]]|e|w]; [|by exists l1..].
  destruct (tracks_created_at d filter l1 Hl1) as (l2 & -> & Hl2). by exists l2.
Qed.

Lemma track_build_heap_spec n o (d : D) filters : forall fh l, balanced l -> exists l',
  track_build_heap n o d filters fh l = (l', build_heap n o d filters fh) /\ balanced l'.
Proof.
  induction filters as [|f filters IH]; intros fh l Hl; cbn [track_build_heap build_heap]; [by exists l|].
  destruct (track_filter_cursor_spec n o d f l Hl) as (l1 & -> & Hl1).
  destruct (buildFilterCursor n o d f) as [c|]; cbn [mbind option_bind]; [|by exists l1].
  destruct (wrap_err _ c) as [[c'|]|e|w]; [by apply IH|by apply IH|by exists l1|by exists l1].
Qed.

Lemma range_loop_spec yield fuel n (d : D) limit : forall count seen fh run,
  query_loop fuel n d limit count seen fh = Some run ->
  range_loop fuel n d limit count seen fh yield = Some (seen_by yield count run).
Proof.
  induction fuel as [|fuel IH]; intros count seen fh run Hrun; [done|]. cbn [query_loop range_loop] in *.
  destruct (length fh =? 0)%nat; [by injection Hrun as <-|]. destruct (_ && _); [by injection Hrun as <-|].
  destruct (heap_Pop pairLess fh) as [h [p|]]; [|by injection Hrun as <-].
  destruct (candidate d seen p) as [[e|]|err|w]; [| |by injection Hrun as <-..];
    apply bind_Some_iff in Hrun as ([cursor ok] & Hnext & Hrun).
  - destruct (query_loop fuel _ _ _ _ _ _) as [run'|] eqn:E; [|done]. injection Hrun as <-. rewrite seen_by_cons.
    destruct (yield (count + 1)); [|done]. rewrite Hnext. cbn [mbind option_bind]. by rewrite (IH _ _ _ _ E).
  - rewrite Hnext. cbn [mbind option_bind]. by apply IH.
Qed.

(** A range with enough fuel: what it yields, the error it leaves, the record. *)
Lemma query_events_spec (d : D) filters c st run : balanced (qs_ledger st) ->
  PebbleQuery.Query (rc_fuel c) (rc_order c) d filters = Some run -> exists l, balanced l /\
  query_events d filters c st =
    Some (record_err (mkQueryState l (qs_queryErr st)) (snd (seen_by (rc_yield c) 0 run)), seen_by (rc_yield c) 0 run).
Proof.
  intros Hl Hrun. unfold query_events, PebbleQuery.Query in *. destruct (length filters =? 0)%nat.
  { injection Hrun as <-. exists (qs_ledger st). by destruct st. }
  apply bind_Some_iff in Hrun as (fh & Hfh & Hrun).
  destruct (track_build_heap_spec (rc_fuel c) (rc_order c) d filters [] _ Hl) as (l & -> & Hl'). exists l. split; [done|].
  rewrite Hfh. cbn [mbind option_bind]. destruct fh as [fh|e|w]; [|by injection Hrun as <-..].
  rewrite (range_loop_spec (rc_yield c) _ _ _ _ _ _ _ _ Hrun). cbn [mbind option_bind].
  by destruct (seen_by (rc_yield c) 0 run).
Qed.

(** What a range shows of a query. *)
Definition range_seen (d : D) (filters : list ReqFilter) (c : RangeCall) (out : list Event * Res unit) : Prop :=
  exists run, PebbleQuery.Query (rc_fuel c) (rc_order c) d filters = Some run /\ out = seen_by (rc_yield c) 0 run.

Definition panics (r : Res unit) : bool := match r with Panic _ => true | _ => false end.

(** The error of the last range that had one. *)
Definition last_error (outs : list (list Event * Res unit)) (err : option string) : option string :=
  foldl (fun err out => match snd out with Err e => Some e | _ => err end) err outs.

Lemma query_ranges_spec (d : D) filters cs : forall st, balanced (qs_ledger st) ->
  (forall c, c ∈ cs -> PebbleQuery.Query (rc_fuel c) (rc_order c) d filters <> None) ->
  exists st' outs, query_ranges d filters cs st = Some (st', outs) /\ balanced (qs_ledger st') /\
    Forall2 (range_seen d filters) (take (length outs) cs) outs /\
    (length outs = length cs \/ exists out, last outs = Some out /\ panics (snd out) = true) /\
    errFn st' = last_error outs (qs_queryErr st).
Proof.
  induction cs as [|c cs IH]; intros st Hl Hfuel; [by exists st, []; eauto 10|].
  destruct (PebbleQuery.Query (rc_fuel c) (rc_order c) d filters) as [run|] eqn:Hrun; [|destruct (Hfuel c); [by left|done]].
  destruct (query_events_spec d filters c st run Hl Hrun) as (l & Hl' & Heq).
  cbn [query_ranges]. rewrite Heq. cbn [mbind option_bind]. set (out := seen_by (rc_yield c) 0 run) in *.
  assert (Hseen : range_seen d filters c out) by by exists run.
  set (st1 := record_err _ _) in *.
  assert (Hst1 : balanced (qs_ledger st1)) by (subst st1; by destruct (snd out)).
  assert (Herr : qs_queryErr st1 = last_error [out] (qs_queryErr st)) by (subst st1; cbn [last_error foldl]; by destruct (snd out)).
  destruct (panics (snd out)) eqn:Hp.
  - exists st1, [out]. destruct (snd out) eqn:Hs; [done..|].
    split_and!; [done|done|by constructor| |done]. right. exists out. split; [done|by rewrite Hs].
  - destruct (IH st1 Hst1) as (st' & outs & Hranges & Hb & Hall & Hlen & He); [intros c' Hc'; apply Hfuel; by right|].
    exists st', (out :: outs). rewrite Hranges. cbn [mbind option_bind].
    split_and!; [by destruct (snd out)|done|by constructor| |by rewrite He, Herr].
    destruct Hlen as [Hlen|(out' & Hlast & Hp')]; [left; cbn [length]; by rewrite Hlen|].
    right. exists out'. split; [by destruct outs|done].
Qed.

Lemma close_loop_spec close its err : close_loop close its err =
  (its, match err with Some e => Some e | None => List.head (omap close its) end).
Proof.
  revert err. induction its as [|it its IH]; intros err; cbn [close_loop]; [by destruct err|].
  rewrite IH. cbn [omap list_omap]. by destruct (close it), err.
Qed.

Lemma closeFn_spec close st : balanced (qs_ledger st) ->
  let '(closed, err) := closeFn close st in
  closed ≡ₚ lg_opened (qs_ledger st) /\ NoDup closed /\ err = List.head (omap close closed).
Proof.
  intros (k & Hi & Ho). unfold closeFn. rewrite close_loop_spec, Ho. split_and!.
  - rewrite Permutation_app_comm. done.
  - rewrite Hi. apply NoDup_app. split_and!; [apply NoDup_fmap_2, NoDup_seq; by intros ?? [= ->]| |apply NoDup_singleton].
    intros r (i & -> & _)%list_elem_of_fmap. by intros ?%list_elem_of_singleton.
  - rewrite omap_app. cbn [omap list_omap]. destruct (omap close (lg_iterators (qs_ledger st))), (close TheSnapshot); done.
Qed.

End Tracking.

(** C15: whatever a consumer does with the functions of a Pebble query, what was
    opened is closed: it may range over the events any number of times and stop
    each range anywhere, iterators, reads or the parsing of an event may fail, and
    each range shows it exactly the start of the query's events that it took; then
    [errFn] is the error of the last range that was not stopped before it, and
    [closeFn] closes each iterator and the snapshot exactly once, even if some
    [Close] fails, and returns the first error of them. *)
Theorem query_releases {D I : Type} `{PebbleDB D I} `{EventCodec} (close : Resource -> option string)
    (d : D) (filters : list ReqFilter) (cs : list RangeCall) :
  (forall c, c ∈ cs -> PebbleQuery.Query (rc_fuel c) (rc_order c) d filters <> None) ->
  exists st outs, query_ranges d filters cs query_open = Some (st, outs) /\
    Forall2 (range_seen d filters) (take (length outs) cs) outs /\
    (length outs = length cs \/ exists out, last outs = Some out /\ panics (snd out) = true) /\
    errFn st = last_error outs None /\
    let '(closed, err) := closeFn close st in
    closed ≡ₚ lg_opened (qs_ledger st) /\ NoDup closed /\ err = List.head (omap close closed).
Proof.
  intros Hfuel. destruct (query_ranges_spec d filters cs query_open balanced_open Hfuel) as (st & outs & Hr & Hb & Hs & Hl & He).
  exists st, outs. split_and!; [done..|]. by apply closeFn_spec.
Qed.

(** ** Errors of iterators *)

Lemma last_error_quiet outs : Forall (fun out : list Event * Res unit => free IsError (snd out)) outs -> last_error outs None = None.
Proof.
  intros Hq. unfold last_error. induction Hq as [|[evs r] outs Hr _ IH]; [done|]. cbn [foldl snd] in *.
  by destruct r.
Qed.

Lemma quiet_seen {D I : Type} `{PebbleDB D I} `{EventCodec} (d : D) filters c out : reads_well IsError d ->
  range_seen d filters c out -> free IsError (snd out).
Proof.
  intros Hw (run & Hrun & ->). apply (free_Query IsError) in Hrun; [|done]. unfold seen_by.
  destruct (consumed (rc_yield c) 0 (fst run)) as [t []]; [done|apply Hrun].
Qed.

(** C17: an error of an iterator is not reported: [pebble.Iterator] says only that
    it moved or did not, [Error] is never asked, so that whatever the iterators of
    the snapshot do - no law of theirs is assumed - as long as they can be made and
    the events they lead to can be read, [errFn] returns nil after any ranges: an
    answer cut short by a read error is taken for a complete one. *)
Theorem iterator_errors_unreported {D I : Type} `{PebbleDB D I} `{EventCodec}
    (d : D) (filters : list ReqFilter) (cs : list RangeCall) :
  reads_well IsError d ->
  (forall c, c ∈ cs -> PebbleQuery.Query (rc_fuel c) (rc_order c) d filters <> None) ->
  exists st outs, query_ranges d filters cs query_open = Some (st, outs) /\
    Forall2 (range_seen d filters) (take (length outs) cs) outs /\ errFn st = None.
Proof.
  intros Hw Hfuel. destruct (query_ranges_spec d filters cs query_open balanced_open Hfuel) as (st & outs & Hr & _ & Hs & _ & He).
  exists st, outs. split_and!; [done..|]. rewrite He. apply last_error_quiet.
  clear -Hs Hw. induction Hs; constructor; [by eapply quiet_seen|done].
Qed.

(** ** Runs *)

Module ResourceExamples.
Definition stored : MemDB := (store_seq (∅ : MemDB) [PebbleExamples.note; PebbleExamples.profile_old]).1.
Definition all : RangeCall := mkRangeCall 50 range_in_order (fun _ => true).
Definition one : RangeCall := mkRangeCall 50 range_in_order (fun _ => false).
Definition two_kinds : ReqFilter := mkReqFilter None None (Some [0; 1]) ∅ None None None None.

(** The second iterator fails to close. *)
Definition close (r : Resource) : option string :=
  match r with IteratorNo 2 => Some "close"%string | _ => None end.
End ResourceExamples.

(** The iterators of a disk that can be read so many times: after that, no move
    finds a key. *)
Record WornIter : Type := mkWornIter { wi_iter : MemIter; wi_left : nat }.

Definition worn (move : MemIter -> MemIter * bool) (i : WornIter) : WornIter * bool :=
  match wi_left i with
  | O => (i, false)
  | S k => let '(it, ok) := move (wi_iter i) in (mkWornIter it k, ok)
  end.

#[export] Instance WornIter_ops : PebbleIterator WornIter := {|
  it_First := worn it_First;
  it_Next := worn it_Next;
  it_SeekGE := fun k => worn (it_SeekGE k);
  it_Key := fun i => it_Key (wi_iter i)
|}.

Record WornDB : Type := mkWornDB { wd_db : MemDB; wd_left : nat }.

#[export] Instance WornDB_ops : PebbleDB WornDB WornIter := {|
  db_Get := fun d => mem_Get (wd_db d);
  db_Commit := fun d ops => (mkWornDB (apply_batch ops (wd_db d)) (wd_left d), None);
  db_NewIter := fun d lo hi =>
    match db_NewIter (wd_db d) lo hi with inl it => inl (mkWornIter it (wd_left d)) | inr e => inr e end;
  db_Closed := fun d => db_Closed (wd_db d)
|}.

Lemma query_releases_witness :
  let d := ResourceExamples.stored in let filters := [ResourceExamples.two_kinds] in
  let cs := [ResourceExamples.one; ResourceExamples.all] in
  exists st outs, query_ranges d filters cs query_open = Some (st, outs) /\
    Forall2 (range_seen d filters) (take (length outs) cs) outs /\
    (length outs = length cs \/ exists out, last outs = Some out /\ panics (snd out) = true) /\
    errFn st = last_error outs None /\
    let '(closed, err) := closeFn ResourceExamples.close st in
    closed ≡ₚ lg_opened (qs_ledger st) /\ NoDup closed /\ err = List.head (omap ResourceExamples.close closed).
Proof.
  apply (query_releases ResourceExamples.close). intros c [->| ->%list_elem_of_singleton]%elem_of_cons; by vm_compute.
Defined.

(** Two ranges over a query, the first one stopped: two iterators each, all closed
    with the snapshot, and the error of the one that failed to close. *)
Example releases_run :
  match query_ranges ResourceExamples.stored [ResourceExamples.two_kinds]
    [ResourceExamples.one; ResourceExamples.all] query_open with
  | Some (st, outs) =>
      outs = [([PebbleExamples.profile_old], Ok ()); ([PebbleExamples.profile_old; PebbleExamples.note], Ok ())] /\
      closeFn ResourceExamples.close st =
        ([IteratorNo 1; IteratorNo 2; IteratorNo 3; IteratorNo 4; TheSnapshot], Some "close"%string)
  | None => False
  end.
Proof. vm_compute. by split. Qed.

(** A map whose stored events can be parsed reads well, however worn. *)
Definition readable (m : MemDB) : bool :=
  forallb (fun kv => match kv.1 with
    | p :: _ => negb (p =? prefixEvent) || is_ok (unmarshal_event kv.2)
    | [] => true
    end) (map_to_list m).

Lemma readable_reads m k : readable m = true -> reads_well IsError (mkWornDB m k).
Proof.
  intros Hm. split; [by eexists|]. intros eventID. unfold getEventByIDFromSnapshot, get_event, get_value.
  cbn [db_Get WornDB_ops wd_db]. pose proof (mem_Get_spec m (makeEventKey eventID)) as Hv.
  destruct (mem_Get m (makeEventKey eventID)) as [v| |err] eqn:E; [|done|unfold mem_Get in E; by case_match].
  assert (Hok : is_ok (unmarshal_event v) = true).
  { unfold readable in Hm. rewrite forallb_forall in Hm. specialize (Hm (makeEventKey eventID, v)).
    apply Hm, list_elem_of_In, elem_of_map_to_list, Hv. }
  cbn [wrap_err mbind Res_bind]. by destruct (unmarshal_event v).
Qed.

(** Of two stored events that match, one is shown, and no error. *)
Lemma iterator_errors_unreported_witness :
  let d := mkWornDB ResourceExamples.stored 1 in
  query_ranges d [emptyFilter] [ResourceExamples.all] query_open =
    Some (mkQueryState (mkLedger [TheSnapshot; IteratorNo 1] [IteratorNo 1]) None, [([PebbleExamples.profile_old], Ok ())]) /\
  exists st outs, query_ranges d [emptyFilter] [ResourceExamples.all] query_open = Some (st, outs) /\
    Forall2 (range_seen d [emptyFilter]) (take (length outs) [ResourceExamples.all]) outs /\ errFn st = None.
Proof.
  intros d. split; [by vm_compute|]. apply (iterator_errors_unreported d).
  - apply readable_reads. by vm_compute.
  - intros c ->%list_elem_of_singleton. by vm_compute.
Defined.
