(* ===== verification/PebbleInterface.v ===== *)
(** * Pebble as a storage (pebble_storage.go)

    The Pebble storage keeps the contract of the [Storage] interface: it is an
    instance of the classes of StorageSpec.v.  It accepts well-formed events that
    survive being written, answers filters whose since is not the smallest int64,
    and takes no notice of the context of a query. *)

From S2P Require Import Prelude GoTime Text Bytes Event Filter Storage StorageSpec PebbleKeys Heap PebbleCursor PebbleJoin.
From S2P Require Import PebbleStore PebbleRows PebbleInv PebbleQuery PebbleFaults PebbleReliable PebbleIndex PebbleFuel PebbleQuerySpec PebbleSpec.

(** [PebbleStorage]: the database, and the order in which [range] visits the maps
    of the filters of a query. *)
Record PebbleStorage (D : Type) : Type := mkPebbleStorage {
  ps_db : D;
  ps_order : list ReqFilter -> MapOrder
}.
Arguments mkPebbleStorage {D}.
Arguments ps_db {D}.
Arguments ps_order {D}.

(** [NewPebbleStorage]; the options are empty. *)
Definition NewPebbleStorage {D} (db : D) (order : list ReqFilter -> MapOrder) : PebbleStorage D :=
  mkPebbleStorage db order.

(** ** What a database holds *)

Section Contents.

Context `{EventCodec}.

Definition stored_event (kv : bytes * bytes) : option Event :=
  match kv with
  | (p :: _, v) =>
      if p =? prefixEvent then match unmarshal_event v with Ok e => Some e | _ => None end else None
  | _ => None
  end.

(** The events behind the keys of events. *)
Definition stored_events (m : gmap bytes bytes) : list Event := omap stored_event (map_to_list m).

Lemma elem_of_stored_events `{!EventCodecLaws} m L e : rows_ok m L -> e ∈ stored_events m <-> e ∈ L.
Proof.
  intros Hr. unfold stored_events. rewrite list_elem_of_omap. split.
  - intros ([k v] & Hkv%elem_of_map_to_list & Hs). destruct k as [|p k]; [done|]. cbn [stored_event] in Hs.
    destruct (Z.eqb_spec p prefixEvent) as [->|]; [|done].
    destruct (ro_sound _ _ Hr _ _ Hkv) as [(x & Hx & Hrow)|Ho].
    + destruct (ro_events _ _ Hr x Hx) as [Hok Hst]. destruct (rows_first _ _ _ Hok Hrow) as (q & t & [= <- <-] & Hcase).
      destruct Hcase as [[_ ->]|[[?|?] _]]; [|done..]. destruct (codec_roundtrip x Hst) as (b & Hm & Hu).
      unfold json_of in Hs. rewrite Hm, Hu in Hs. by injection Hs as <-.
    + unfold other_row, prefixEvent, prefixAddr, prefixDeletedID, prefixDeletedAddr in Ho. naive_solver lia.
  - intros He. destruct (ro_events _ _ Hr e He) as [Hok Hst]. destruct (codec_roundtrip e Hst) as (b & Hm & Hu).
    exists (makeEventKey (idb e), json_of e). split.
    + apply elem_of_map_to_list. eapply ro_complete; [exact Hr|exact He|by left].
    + cbn [stored_event makeEventKey]. unfold json_of. by rewrite Z.eqb_refl, Hm, Hu.
Qed.

End Contents.

Section Interface.

Context {D I : Type} `{PebbleLaws D I, EventCodecLaws}.
Implicit Types s : PebbleStorage D.

(** ** The operations *)

Definition pebble_Store s (event : option Event) : PebbleStorage D * Res bool :=
  let '(d, r) := PebbleStore.Store (ps_db s) event in (mkPebbleStorage d (ps_order s), r).

(** What [errFn] returns to a consumer that took all. *)
Definition run_err (r : Res unit) : option QueryErr :=
  match r with Ok _ => None | Err e | Panic e => Some (OtherErr e) end.

(** [Query], with the fuel it needs. *)
Definition pebble_Query s (filters : list ReqFilter) : QueryRun :=
  let o := ps_order s filters in
  match PebbleQuery.Query (query_fuel (size (db_view (ps_db s))) o filters) o (ps_db s) filters with
  | Some (evs, r) => mkQueryRun evs (fun n => if (n <? length evs)%nat then None else run_err r)
  | None => mkQueryRun [] (fun _ => None)
  end.

#[export] Instance Pebble_ops : StorageOps (PebbleStorage D) := {|
  storage_Store := pebble_Store;
  storage_Query := fun _ => pebble_Query
|}.

(** ** The laws *)

Definition pebble_ok s : Prop := exists L, rows_ok (db_view (ps_db s)) L.
Definition pebble_contents s : list Event := stored_events (db_view (ps_db s)).

Lemma pebble_contents_elem s L e : rows_ok (db_view (ps_db s)) L -> e ∈ pebble_contents s <-> e ∈ L.
Proof. apply elem_of_stored_events. Qed.

Lemma pebble_Store_outcome s e : pebble_ok s -> store_ok D I e -> exists L L',
  rows_ok (db_view (ps_db s)) L /\ rows_ok (db_view (ps_db (pebble_Store s (Some e)).1)) L' /\
  pebble_outcome (ps_db s) L e (ps_db (pebble_Store s (Some e)).1) (pebble_Store s (Some e)).2 L'.
Proof.
  intros [L Hr] He. unfold pebble_Store. destruct (PebbleStore.Store (ps_db s) (Some e)) as [d r] eqn:E.
  destruct (Store_pebble_outcome _ L e d r Hr He E) as (L' & Hout & Hr'). by exists L, L'.
Qed.

(** A refused event leaves the database as it was. *)
Lemma store_write_false d e b d' :
  store_write d e b = (d', Ok false) -> d' = d /\ has_address e = true.
Proof.
  unfold store_write, store_batch. destruct (has_address e).
  - destruct (find_replaced d e ≫= _) as [[ops|]|err|w]; [|by intros [= <-]|done..].
    by destruct (commit d "commit batch" ops) as [d1 [| |]].
  - cbn [mbind Res_bind]. destruct (wrap_err "marshal event" (marshal_event e)); [|done..]. cbn [mbind Res_bind mret Res_ret].
    by destruct (commit d "commit batch" _) as [d1 [| |]].
Qed.

Lemma Store_false d e d' : PebbleStore.Store d e = (d', Ok false) -> d' = d.
Proof.
  destruct e as [e|]; cbn [PebbleStore.Store]; [|by intros [= ->]]. unfold store_checks.
  destruct (hexToBytes32 (ev_ID e) ≫= _) as [[b [|]]|err|w]; [by intros [= ->]| |done..].
  destruct (Z.eqb_spec (ev_Kind e) 5) as [H5|H5].
  - destruct (PebbleStore.processKind5 d e) as [d1 [u|err|w]]; [|done..]. intros Hs.
    assert (Ha : has_address e = false) by (unfold has_address, eventType; by rewrite H5).
    apply store_write_false in Hs as [_ Ht]. congruence.
  - by intros [-> _]%store_write_false.
Qed.

(** What an id leads to is stored. *)
Lemma stored_readable d L e : rows_ok (db_view d) L -> readable_event d e -> e ∈ L.
Proof.
  intros Hr (eventID & Hget). unfold getEventByIDFromSnapshot in Hget.
  assert (Hfit : get_event d "get event from snapshot" eventID = get_event d "get event from snapshot" (fit 32 eventID)).
  { unfold get_event, makeEventKey. by rewrite (fit_32 (fit 32 eventID)) by apply fit_length. }
  rewrite Hfit in Hget. by apply (get_event_Ok d L) in Hget as [? _]; [|done|apply fit_length].
Qed.

(** What the query of a sound storage comes to. *)
Lemma pebble_Query_spec s filters : pebble_ok s -> Forall times_ok filters -> exists evs r l,
  pebble_Query s filters = mkQueryRun evs (fun n => if (n <? length evs)%nat then None else run_err r) /\
  query_answer (pebble_contents s) filters l /\ evs `prefix_of` l /\ (run_err r = None -> evs = l).
Proof.
  intros [L Hr] Hf. unfold pebble_Query. set (o := ps_order s filters).
  destruct (Query_pebble_answer (ps_db s) L o filters Hr) with (n := query_fuel (size (db_view (ps_db s))) o filters)
    as (evs & r & Hq & (l & Hl & Hpre) & Hall); [by apply Forall_forall|done|].
  assert (Hsame : forall e, e ∈ pebble_contents s <-> e ∈ L) by (intros e; by apply pebble_contents_elem).
  rewrite Hq. exists evs, r, l. split; [done|]. split; [by eapply query_answer_ext; [|exact Hl]|]. split; [done|].
  intros Hnone. destruct r as [[]|e|w]; [|done..]. by eapply query_answer_unique; [apply Hall|exact Hl].
Qed.

#[export] Instance Pebble_laws : StorageLaws (PebbleStorage D).
Proof.
  refine {| storage_ok := pebble_ok; contents := pebble_contents; accepts := store_ok D I; answers := times_ok |}.
  - intros s [e|] Hs He; [|done]. destruct (pebble_Store_outcome s e Hs (He e eq_refl)) as (L & L' & _ & Hr' & _).
    by exists L'.
  - intros s e s' Hs He Heq Hk. destruct (pebble_Store_outcome s e Hs He) as (L & L' & _ & Hr' & Hout).
    change (pebble_Store s (Some e) = (s', Ok true)) in Heq. rewrite Heq in *. cbn [fst snd] in *.
    apply (pebble_contents_elem s' L'); [done|].
    inversion Hout as [| |d' ops L1|d1 d' ops ? H5|? ? ? Hbad]; subst; [set_solver|done|by cbn in Hbad].
  - intros s e s' _ Heq. change (pebble_Store s e = (s', Ok false)) in Heq. unfold pebble_Store in Heq.
    destruct (PebbleStore.Store (ps_db s) e) as [d r] eqn:E. injection Heq as <- ->.
    unfold pebble_contents. cbn [ps_db]. by rewrite (Store_false _ _ _ E).
  - intros s [e|] x Hs He; [|by left]. destruct (pebble_Store_outcome s e Hs (He e eq_refl)) as (L & L' & Hr & Hr' & Hout).
    intros Hx. apply (pebble_contents_elem _ L') in Hx; [|exact Hr'].
    destruct (pebble_outcome_sub _ _ _ _ _ _ _ Hout Hx) as [Hx'| ->]; [|by right]. left. by apply (pebble_contents_elem s L).
  - intros ctx s filters e [L Hr]. cbn. unfold pebble_Query. destruct (PebbleQuery.Query _ _ _ _) as [[evs r]|] eqn:E; [|by intros ?%not_elem_of_nil].
    cbn [q_events]. intros He. apply (pebble_contents_elem s L); [done|].
    apply Query_readable in E. cbn [fst] in E. eapply stored_readable; [exact Hr|]. by apply (proj1 (Forall_forall _ _) E).
  - intros ctx s filters Hs Hf. destruct (pebble_Query_spec s filters Hs Hf) as (evs & r & l & Hq & Hl & Hpre & Hall).
    exists l. change (storage_Query ctx s filters) with (pebble_Query s filters). rewrite Hq. cbn [q_events q_err].
    rewrite Nat.ltb_irrefl. by split_and!.
Defined.

(** Under the invariant an error is one that was returned, not a panic. *)
Lemma pebble_Query_no_panic s filters : pebble_ok s -> Forall times_ok filters -> exists evs r,
  PebbleQuery.Query (query_fuel (size (db_view (ps_db s))) (ps_order s filters) filters) (ps_order s filters) (ps_db s) filters =
    Some (evs, r) /\ forall w, r <> Panic w.
Proof.
  intros [L Hr] Hf. set (o := ps_order s filters).
  destruct (Query_pebble_answer (ps_db s) L o filters Hr) with (n := query_fuel (size (db_view (ps_db s))) o filters)
    as (evs & r & Hq & _); [by apply Forall_forall|done|].
  exists evs, r. split; [done|]. intros w ->. apply (free_Query IsPanic) in Hq; [done|by eapply reliable_reads].
Qed.

End Interface.
