(* ===== verification/KitchenSink.v ===== *)
(** * The storages of the example relays (cmd/examples)

    The kitchen-sink relay stacks the measuring storage on the composite storage on
    Pebble and bleve; the minimal relay keeps its events in memory.  Behind the same
    handlers, and as long as no client searches, their clients cannot tell them
    apart, but for a query that falls into the middle of a deletion request: each layer
    is shown not to matter against the storage interface. *)

From S2P Require Import Prelude GoTime Text Bytes Event Filter Message Storage StorageSpec MetricsStorage StorageHandler Composite BleveMapping.
From S2P Require Import PebbleKeys Heap PebbleCursor PebbleStore PebbleRows PebbleInv PebbleQuery PebbleReliable PebbleIndex PebbleFuel PebbleSim.
From S2P Require Import EventJson EventParse CodecSpec EndToEnd PebbleMem PebbleSpec PebbleInterface.

(** ** The stacks *)

(** What cmd/examples/minimal serves from. *)
Definition minimal_storage : InMemoryStorage := NewInMemoryStorage.

(** Both serve it with [NewStorageHandler(storage, nil)]. *)
Definition example_storage_handler : storageHandler := NewStorageHandler None.

Section Stack.

Context {D B : Type} `{BleveOps B}.

(** [NewBleveIndex]; the options are empty. *)
Definition NewBleveIndex (idx : B) : B := idx.

(** The index on disk is opened, or made when there is none. *)
Inductive IndexErr : Type :=
| ErrorIndexPathDoesNotExist
| OtherIndexErr (e : string).

Definition open_or_new `{MappingOps} (opened : B + IndexErr) (new : IndexMapping -> B + IndexErr) : B + IndexErr :=
  match opened with
  | inr ErrorIndexPathDoesNotExist => new BuildIndexMapping
  | _ => opened
  end.

(** What cmd/examples/kitchen-sink serves from. *)
Definition kitchen_sink_storage (db : D) (order : list ReqFilter -> MapOrder) (idx : B)
    : MetricsStorage (CompositeStorage (PebbleStorage D) B) :=
  let pebbleStorage := NewPebbleStorage db order in
  let bleveIndex := NewBleveIndex idx in
  let compositeStorage := NewCompositeStorage pebbleStorage (Some bleveIndex) true in
  NewMetricsStorage compositeStorage true.

End Stack.

(** ** Pebble and the in-memory storage behind a handler *)

Section Same.

Context {D I : Type} `{PebbleLaws D I, EventCodecLaws} (Hrel : reliable D I).
Context (vetted : Event -> Prop) (known : string -> Prop) (Hvet : vetting D I vetted known).

Definition in_step (s : PebbleStorage D) (t : InMemoryStorage) : Prop :=
  exists L, corresponds vetted known (ps_db s) L t.

Lemma Pebble_indistinguishable : indistinguishable in_step vetted times_ok.
Proof.
  constructor.
  - intros s t e [L Hc] He. cbn. unfold pebble_Store.
    destruct (Store_reliable Hrel (ps_db s) L e (co_rows _ _ _ _ _ Hc) (vt_ok _ _ Hvet e He)) as [b Hb].
    destruct (PebbleStore.Store (ps_db s) (Some e)) as [d r] eqn:E. cbn [fst snd] in *. subst r.
    destruct (Store_simulates_in_memory vetted known Hvet (ps_db s) L t e d b Hc He E) as (L' & t' & Hm & Hc').
    cbn [Storage.Store] in Hm. rewrite Hm. split; [by exists L'|done].
  - intros ctx s t filters [L Hc] Hf. cbn. unfold pebble_Query. rewrite Forall_forall in Hf. set (o := ps_order s filters).
    destruct (corresponds_query vetted known (ps_db s) L t o filters Hc Hf _ (Nat.le_refl _)) as (evs & r & Hq & Hans).
    assert (r = Ok ()) as -> by (by refine (Query_reliable Hrel (ps_db s) L _ o filters evs r (co_rows _ _ _ _ _ Hc) Hq)).
    rewrite Hq, Hans by done. split; [done|]. intros n. cbn [q_err run_err]. by case_match.
Qed.

(** Half-way through the store of a deletion request they correspond too. *)
Definition mem_half_way (s : InMemoryStorage) (e : Event) : InMemoryStorage :=
  if (ev_Kind e =? 5) && snd (store_event s e) then Storage.processKind5 s e else s.

Lemma kind5_stored s e : ev_Kind e = 5 -> snd (store_event s e) = true <-> admissible s e.
Proof.
  intros Hk. pose proof (store_event_outcome s e) as Hout. pose proof (kind5_no_has_address e Hk) as Ha.
  pose proof (kind5_regular e Hk) as Ht. destruct (store_event s e) as [s' b]. cbn [fst snd] in *.
  destruct Hout; split; try done; congruence.
Qed.

Lemma Pebble_half_way s t e : in_step s t -> vetted e ->
  in_step (mkPebbleStorage (store_half_way (ps_db s) e) (ps_order s)) (mem_half_way t e).
Proof.
  intros [L Hc] He. unfold in_step, store_half_way, mem_half_way, store_checks. cbn [ps_db]. set (d := ps_db s) in *.
  pose proof (vt_ok _ _ Hvet e He) as [[Hok Hst] Hclosed]. pose proof (co_rows _ _ _ _ _ Hc) as Hr.
  destruct (id_bytes_ok _ (eo_ID e Hok)) as [Hid _]. rewrite Hid. cbn [mbind Res_bind].
  destruct (free_both (store_refused d e (id_bytes (ev_ID e)))) as [b Hb]; [by apply free_store_refused..|].
  rewrite Hb. cbn [mbind Res_bind mret Res_ret]. apply (store_refused_Ok d L e b Hr Hok) in Hb.
  destruct (Z.eqb_spec (ev_Kind e) 5) as [Hk|Hk]; cbn [andb]; [|destruct b; by exists L].
  rewrite (admissible_agree vetted known Hvet d L t e Hc He) in Hb. pose proof (kind5_stored t e Hk) as Hkt.
  assert (Ht : eventType e <> EventTypeEphemeral) by by rewrite kind5_regular.
  destruct b.
  - assert (snd (store_event t e) = false) as ->; [|by exists L]. apply not_true_iff_false. rewrite Hkt. intros Hadm. discriminate (proj2 Hb (conj Hadm Ht)).
  - assert (snd (store_event t e) = true) as -> by by apply Hkt, Hb.
    destruct (free_both (processKind5 d e).2) as [[] Hp]; [by apply (free_processKind5 _ (fun _ => Hrel) d L)..|].
    destruct (processKind5 d e) as [d1 r1] eqn:E. cbn [fst snd] in *. subst r1.
    destruct (processKind5_rows d L e d1 _ Hr (Hclosed Hk) E) as [[_ Hr1]|[? _]]; [|done].
    eexists. by eapply (corresponds_kind5 vetted known Hvet).
Qed.

End Same.

(** ** Calls that overlap

    The storages serialize their stores.  A query takes its events from one state:
    that of its snapshot in Pebble, that under the read lock in memory.  In memory
    that is the state before or after a store; in Pebble also the one half-way through
    the store of a deletion request. *)

Section Overlaps.
Context {S : Type} `{StorageOps S} (h : storageHandler) (half_way : S -> Event -> S).

(** The state the queries see that come in the middle of a call. *)
Definition amid (s : S) (msg : ClientMsg) : S :=
  match c_Event msg with
  | Some e => if String.eqb (c_Type msg) MsgTypeEvent then half_way s e else s
  | None => s
  end.

(** The calls on a storage in the order in which they take effect, each with the REQs
    and COUNTs that see it half-way: what each sends.  What those add to the metrics
    is left out. *)
Fixpoint serve_overlapping (s : S) (calls : list (SendEnv * ClientMsg * list (SendEnv * ClientMsg)))
    : list (list ServerMsg * list (list ServerMsg)) :=
  match calls with
  | [] => []
  | (env, msg, queries) :: calls =>
      let inside := (fun q => (storage_handle h q.1 (amid s msg) q.2).1.2) <$> queries in
      let '(s, out, _) := storage_handle h env s msg in
      (out, inside) :: serve_overlapping s calls
  end.

(** With nothing in the middle they are served one after the other. *)
Lemma serve_overlapping_none calls : forall s, Forall (fun c => c.2 = []) calls ->
  (serve_overlapping s calls).*1 = (serve_all h s calls.*1).2.
Proof.
  induction calls as [|[[env msg] queries] calls IH]; intros s Hc; [done|]. apply Forall_cons in Hc as [_ Hc].
  rewrite fmap_cons. cbn [serve_overlapping serve_all fst]. destruct (storage_handle h env s msg) as [[s1 out] err].
  rewrite fmap_cons, (IH s1 Hc). by destruct (serve_all h s1 calls.*1).
Qed.

End Overlaps.

Lemma serve_overlapping_same {S T : Type} `{StorageOps S, StorageOps T} h half_s half_t (R : S -> T -> Prop) good asks :
  indistinguishable R good asks -> (forall s t e, R s t -> good e -> R (half_s s e) (half_t t e)) ->
  forall calls s t, R s t -> Forall (fun c => tame good asks c.1.2 /\ Forall (fun q => tame good asks q.2) c.2) calls ->
  serve_overlapping h half_s s calls = serve_overlapping h half_t t calls.
Proof.
  intros Hind Hhalf. pose proof (storage_handle_same h R good asks Hind) as Hsame.
  induction calls as [|[[env msg] queries] calls IH]; intros s t HR Hc; [done|]. cbn [serve_overlapping].
  apply Forall_cons in Hc as [[Hm Hq] Hc]. cbn [fst snd] in *. f_equal.
  assert (Hmid : R (amid half_s s msg) (amid half_t t msg)).
  { unfold amid. destruct (c_Event msg) as [e|] eqn:He; [|done]. case_match; [|done]. apply Hhalf; [done|by apply Hm]. }
  assert (Hin : (fun q => (storage_handle h q.1 (amid half_s s msg) q.2).1.2) <$> queries =
    (fun q => (storage_handle h q.1 (amid half_t t msg) q.2).1.2) <$> queries).
  { apply list_fmap_ext. intros i q Hi%list_elem_of_lookup_2. rewrite Forall_forall in Hq. specialize (Hsame q.1 _ _ q.2 Hmid (Hq q Hi)).
    destruct (storage_handle h q.1 _ q.2) as [[? ?] ?], (storage_handle h q.1 (amid half_t t msg) q.2) as [[? ?] ?]. tauto. }
  rewrite Hin. specialize (Hsame env s t msg HR Hm).
  destruct (storage_handle h env s msg) as [[s1 out] err], (storage_handle h env t msg) as [[t1 out'] err'].
  destruct Hsame as (HR1 & <- & _). by rewrite (IH s1 t1 HR1 Hc).
Qed.

(** The stack half-way: its Pebble database is. *)
Definition kitchen_sink_half_way {D I B : Type} `{PebbleDB D I, EventCodec}
    (s : MetricsStorage (CompositeStorage (PebbleStorage D) B)) (e : Event) : MetricsStorage (CompositeStorage (PebbleStorage D) B) :=
  let c := ms_storage s in let p := primary c in
  mkMetricsStorage (mkComposite (mkPebbleStorage (store_half_way (ps_db p) e) (ps_order p)) (search c) (cs_metrics c)) (ms_metrics s).

(** ** Properties *)

(** C9: a client cannot tell the two example relays' storages apart but by a query
    that falls into the middle of a deletion.  Whatever EVENT, REQ and COUNT messages
    of any connections are served, in whatever order their calls take effect, under
    whatever timeouts and slow clients, the kitchen-sink stack (metrics over the
    composite of an empty Pebble database and a bleve index, whatever the index does)
    gives each the answer that the in-memory storage gives, where a query that takes
    its snapshot between the two commits of a deletion request sees the deletions done
    and the request not yet stored; and when there is no such query, each message gets
    exactly the answer the minimal relay's storage gives.  This on a database that
    does not fail, for vetted events (ids and keys in lowercase, integers in range, readable
    when written, told apart by their ids, and their addresses by the hashes; deletion
    requests that name well-formed ids other than their own, and no closed value lost if
    they name addresses), and filters without a search text whose since is not the
    smallest int64. *)
Theorem kitchen_sink_like_minimal {D I B : Type} `{PebbleLaws D I, EventCodecLaws} `{BleveOps B}
    (vetted : Event -> Prop) (known : string -> Prop) (db : D) (order : list ReqFilter -> MapOrder) (idx : B)
    (calls : list (SendEnv * ClientMsg * list (SendEnv * ClientMsg))) :
  let plain := tame vetted (fun f => times_ok f /\ unsearched f) in
  let kitchen_sink := serve_overlapping example_storage_handler kitchen_sink_half_way (kitchen_sink_storage db order idx) calls in
  reliable D I -> vetting D I vetted known -> db_view db = ∅ ->
  Forall (fun c => plain c.1.2 /\ Forall (fun q => plain q.2) c.2) calls ->
  kitchen_sink = serve_overlapping example_storage_handler mem_half_way minimal_storage calls /\
  (Forall (fun c => c.2 = []) calls -> kitchen_sink.*1 = (serve_all example_storage_handler minimal_storage calls.*1).2).
Proof.
  intros plain kitchen_sink Hrel Hvet Hdb Hc.
  assert (Hsame : kitchen_sink = serve_overlapping example_storage_handler mem_half_way minimal_storage calls).
  { eapply serve_overlapping_same; [| | |exact Hc].
    - apply MetricsStorage_indistinguishable, Composite_indistinguishable.
      exact (Pebble_indistinguishable Hrel vetted known Hvet).
    - intros s t e HR He. exact (Pebble_half_way Hrel vetted known Hvet _ t e HR He).
    - exists []. by apply corresponds_empty. }
  split; [done|]. intros Hnone. rewrite Hsame. by apply serve_overlapping_none.
Qed.

Lemma MemDB_reliable : reliable MemDB MemIter.
Proof.
  split; [|done|by eexists]. intros d k err. cbn. unfold mem_Get. by case_match.
Qed.

Module KitchenSinkExamples.
(** An index that fails. *)
Definition broken_index : BleveOps unit := {|
  bleve_Index := fun b _ _ => (b, Some "index closed"%string);
  bleve_Search := fun _ _ _ => inr "index closed"%string;
  bleve_Delete := fun b _ => (b, Some "index closed"%string);
  bleve_DocCount := fun _ => inr "index closed"%string
|}.
#[global] Existing Instance broken_index.

Definition calls : list (SendEnv * ClientMsg * list (SendEnv * ClientMsg)) :=
  ((fun e => (HandlerRuns.env, client_event e,
     if ev_Kind e =? 5 then [(HandlerRuns.env, client_req "m" [emptyFilter])] else [])) <$> PebbleExamples.history) ++
  [(HandlerRuns.env, client_req "t" [tagged], []); (HandlerRuns.env, client_req "s" [emptyFilter], [])].
End KitchenSinkExamples.

Definition plainly (f : ReqFilter) : Prop := times_ok f /\ unsearched f.

Lemma tame_req sub f : plainly f -> tame PebbleExamples.vetted plainly (client_req sub [f]).
Proof. intros Hf. split; [intros e He; discriminate He|by apply Forall_singleton]. Qed.

Lemma tame_event e : e ∈ PebbleExamples.history -> tame PebbleExamples.vetted plainly (client_event e).
Proof. intros He. split; [by intros ? [= <-]|constructor]. Qed.

Lemma examples_tame : Forall (fun c : SendEnv * ClientMsg * list (SendEnv * ClientMsg) =>
  tame PebbleExamples.vetted plainly c.1.2 /\ Forall (fun q => tame PebbleExamples.vetted plainly q.2) c.2) KitchenSinkExamples.calls.
Proof.
  assert (Hall : plainly emptyFilter) by (split; [done|by left]).
  unfold KitchenSinkExamples.calls. apply Forall_app_2.
  - apply Forall_fmap, Forall_forall. intros e He. split; [by apply tame_event|]. unfold compose. cbn [snd].
    case_match; [|constructor]. apply Forall_singleton. by apply tame_req.
  - apply Forall_cons_2; [|apply Forall_singleton]; (split; [|constructor]); apply tame_req; [|done].
    split; [|by left]. apply tagged_times. by left.
Qed.

(** With a query half-way through the deletion of the note. *)
Lemma kitchen_sink_like_minimal_witness :
  let outs := serve_overlapping example_storage_handler kitchen_sink_half_way
    (kitchen_sink_storage (∅ : MemDB) (fun _ => range_in_order) tt) KitchenSinkExamples.calls in
  outs = serve_overlapping example_storage_handler mem_half_way minimal_storage KitchenSinkExamples.calls /\
  (snd <$> outs) !! 3%nat = Some [[event_msg "m" PebbleExamples.profile_new; NewServerEOSEMsg "m"]] /\
  last outs = Some ([event_msg "s" PebbleExamples.delete_note; event_msg "s" PebbleExamples.profile_new; NewServerEOSEMsg "s"], []).
Proof.
  intros outs. assert (Hsame : outs = serve_overlapping example_storage_handler mem_half_way minimal_storage KitchenSinkExamples.calls).
  { subst outs. apply (kitchen_sink_like_minimal PebbleExamples.vetted PebbleExamples.known).
    - exact MemDB_reliable.
    - exact PebbleExamples.examples_vetting.
    - reflexivity.
    - exact examples_tame. }
  split; [done|]. rewrite Hsame. vm_compute. split; reflexivity.
Defined.

(** ** Where they differ *)

Module UppercaseExamples.
(** An author who writes the key in uppercase: a note, and the request to delete it. *)
Definition author : string := PebbleExamples.hex64 "A".
Definition sign (at_ kind : Z) (ts : list Tag) : Event :=
  with_id (mkEvent "" author (time_Unix at_) kind (Some ts) "hello" (PebbleExamples.hex64 "0" +:+ PebbleExamples.hex64 "0")).
Definition note : Event := sign 10 1 [].
Definition delete_note : Event := sign 40 5 [["e"%string; ev_ID note]].
Definition history : list Event := [note; delete_note; note].
End UppercaseExamples.

(** Both events verify, since the key is decoded from either case.  In memory the
    deleted note is refused; Pebble keeps the key of a deletion request as bytes,
    compares it, in lowercase, with the key as it was sent, and stores it again. *)
Example uppercase_pubkey_run :
  (forall e, e ∈ UppercaseExamples.history -> @Verify AcceptAll (Some e) = Ok true) /\
  (mem_seq NewInMemoryStorage UppercaseExamples.history).2 = [Ok true; Ok true; Ok false] /\
  (store_seq (∅ : MemDB) UppercaseExamples.history).2 = [Ok true; Ok true; Ok true].
Proof.
  split; [|vm_compute; by split]. apply Forall_forall.
  repeat (apply Forall_cons_2; [vm_compute; reflexivity|]). apply Forall_nil_2.
Qed.
